(* ===== verification/_CoqProject ===== *)
-Q . S2P
Prelude.v
Bitset.v
LinkedList.v
Model.v
Lin.v
Checker.v
CheckerProofs.v
Conversions.v
Parallel.v
KvModel.v
Locality.v
PorcupineSpec.v
Visualization.v
VisualizationSpec.v
Labgob.v
Persister.v
RaftState.v
Raft.v
RaftLemmas.v
RaftElection.v
RaftLog.v
RaftSnapshot.v
RaftSteps.v
RaftSpec.v
Cluster.v
ClusterProofs.v
ClusterSteps.v
ElectionSpec.v
LogMatching.v
LogTree.v
Leadership.v
LeaderCompleteness.v
Commitment.v
SafetySpec.v
ReplicatedLog.v
CatchUp.v
Progress.v
Labrpc.v
LabrpcSpec.v
MapReduce.v
MapReduceSpec.v
MrRun.v
MrRunSpec.v
Launchers.v
Config.v
ConfigSpec.v
AgreementSpec.v
LabgobCheck.v
Clerks.v
ClerksSpec.v
KvHarness.v
KvHarnessSpec.v
CtrlHarness.v
CtrlHarnessSpec.v
ShardHarness.v
ShardHarnessSpec.v
