(* ===== verification/Prelude.v ===== *)
(** Verification of the 6.824 labs: linearizability checker, Raft, its simulated
    network and harness, and MapReduce.

    * The program and its parts

    The Go module under src/src contains
    - porcupine/: a linearizability checker.  [CheckOperations] and
      [CheckEvents] convert a history into call and return entries, split it
      into partitions, search each partition with [checkSingle] in a goroutine
      of its own, and merge the verdicts in [checkParallel]; [Visualize] shows
      the result as a page;
    - models/kv.go: the key/value model that porcupine checks histories against;
    - raft/: a Raft peer (raft.go), its disk (persister.go) and the cluster of
      the tests (config.go);
    - labrpc/, labgob/: a network that loses, delays and cuts messages, and a
      wrapper of encoding/gob; Raft peers talk and persist through them;
    - mr/, mrapps/ and the mr programs of main/: MapReduce; the other programs
      of main/ start services that are not in the repository;
    - shardctrler/, shardkv/, kvraft/: the clients of replicated services, with
      servers whose handlers are still empty, and the harnesses of their tests
      (config.go), which start, cut off, stop and restart the servers.

    * Files

    - Prelude: Go panics as [res], slices as lists with checked indices
      ([go_index], [go_set], [go_from], [go_to]), 64-bit words, loops
      ([for_each], [upto]), sorting and map iteration as the classes [GoSort]
      and [GoRange], lemmas and tactics shared by all.
    - Bitset (porcupine/bitset.go), LinkedList (nodes, [lift], [unlift] of
      checker.go on an explicit heap), Model (model.go and the conversions of
      checker.go), Checker ([checkSingle]), Parallel ([checkParallel] and
      porcupine.go), KvModel (models/kv.go).
    - Lin: linearizability as an order of the operations, the specification.
      CheckerProofs: [checkSingle] decides it.  Conversions: the conversions
      yield histories on which it does.  Locality: a history is linearizable
      when the history of every key is.  PorcupineSpec: the properties.
    - Visualization (porcupine/visualization.go) and VisualizationSpec.
    - Labgob (encoder and decoder, without the checks), LabgobCheck
      ([checkType], [checkDefault] with reflect's read-only flags, and the
      operations that run them before those of encoding/gob), Persister.
    - RaftState (the record of a peer and the messages), Raft (one function
      per critical section of raft.go).  RaftLemmas, RaftElection, RaftLog and
      RaftSnapshot: what each section does.  RaftSteps: a peer as a state
      machine whose steps are its sections, those that only prepare a request or
      a round included.  RaftSpec: the properties of a peer.
    - Cluster: peers, the elections and replication rounds they are in,
      in-flight messages, crashes and restarts as a step relation.
      ClusterProofs: its invariant.  ElectionSpec: the properties of
      elections.  ClusterSteps: each event as one section of one peer, and
      well-formedness.  LogMatching: the logs of the cluster.
    - LogTree: the entries that leaders ever made, as a tree.  Leadership:
      orderly runs, and what holds of who leads in them.  LeaderCompleteness:
      who may win an election after an entry was committed.  Commitment: what
      is behind a [commitIndex], what a peer has of the entries of its term, and
      that orderly steps preserve the whole invariant ([sound]).  SafetySpec: state machine safety.
      ReplicatedLog: the cluster refines one growing log.
    - CatchUp: replication between a leader and one follower.  Progress: an
      election, rounds and the applier, event by event, in the cluster.
    - Launchers (the programs of main/ that start services which are not in the
      repository).
    - Labrpc and LabrpcSpec, Config (raft/config.go) with ConfigSpec (links,
      restarts, what is applied) and AgreementSpec ([one]), MapReduce and
      MapReduceSpec (coordinator, mrsequential, applications), MrRun and
      MrRunSpec (the worker's loop, the programs, the applications that crash
      and measure), Clerks (shardctrler/, shardkv/, kvraft/) and ClerksSpec:
      model and properties.
    - KvHarness (kvraft/config.go, for any server of the class [KvServer]) and
      KvHarnessSpec, CtrlHarness (shardctrler/config.go, the same at
      [ShardCtrler]) and CtrlHarnessSpec, ShardHarness (shardkv/config.go) and
      ShardHarnessSpec.

    Names are those of the code.  Where a method name occurs for two types,
    the type is put in front ([Server_dispatch], [Service_dispatch]); a
    function that is split at a wait is named after its halves
    ([electionSender_send], [electionSender_recv]).

    * State and operations

    A method with receiver [*T] is a function that takes the record of [T] and
    returns it.  A function that may panic returns a [res]; [log.Fatalf],
    [t.Fatalf] and [os.Exit] end the process and count as panics.  Pointers
    are addresses of an explicit heap where the code shares them: the entry
    list of the checker, its slices of longest linearizations, the servers of
    the network.  A Raft peer's record has every field of [Raft] but the mutex
    and the channels; what it sends to [rf.sender] is the list [sender].
    A section of code between [Lock] and [Unlock] is one step.  A goroutine
    that waits for an RPC is two sections, and anything may happen in between.
    The order in which goroutines, messages, timers and crashes take their
    turn is a list of events ([Par.par_loop], [Cluster.step],
    [Labrpc.wait_loop]) over which the theorems quantify; times and random
    numbers are arguments.  A wait of a harness is a function on the
    configuration ([Config.pause]), which may change it in any way.

    Not written in Go here, and therefore interfaces: encoding/gob (class
    [Gob], with the instance [countable_Gob]), [sort.Sort] (class [GoSort]:
    some sorted permutation; instance [merge_GoSort]) and the iteration order
    of maps (class [GoRange]: some permutation).  The user's [Model] of
    porcupine, the handlers behind labrpc, the plugins of MapReduce and the
    splitting of text into runes are parameters.

    * What the theorems show

    - porcupine (PorcupineSpec): [checkSingle] terminates and decides
      linearizability, killed or not; its partial linearizations are genuine;
      the entry points decide linearizability of operations and events, also
      split by key; the data structures below keep their invariants.  When an
      operation is called at the very time another one returns, the sort picks
      which comes first: [true] then still means that the operations are
      linearizable as concurrent ones, [false] that they are not as ordered
      ones, and a verdict that depends on the sort is exhibited
      ([ties_left_to_sort]).
      VisualizationSpec: the page shows what the checker found, without panic.
    - one peer (RaftSpec): the exact effect of the vote, append, snapshot, apply
      and start sections, errors included, the five situations that can make a
      section panic, that term and snapshot index never decrease, and that a
      restart recovers what was saved.
    - the cluster (ElectionSpec): one majority per term, votes survive crashes;
      and a run in which one term gets two leaders all the same, who make two
      services apply different commands at one index.  ClusterSteps: peers stay
      well-formed, whatever happens.  LogMatching: logs match as long as terms
      have single leaders and no snapshot is installed; but even then a late
      request undoes a commit, and services diverge.
    - the cluster in orderly runs (SafetySpec): state machine safety and leader
      completeness.  A run is orderly ([Leadership.orderly]) when a won election
      and a round with a majority end in the term they began in, a follower
      handles the requests of one leader in the order in which they were sent,
      and a peer takes snapshots only of entries that it knows to be committed,
      or that its snapshot covers already.  The first three the code leaves to
      the network and the timing, the fourth to the service; each is needed: a
      run that breaks only it makes two services diverge ([conditions_needed]).
      Nothing is asked of crashes and of installed snapshots: one may be
      installed in the middle of a log that it contradicts, and a peer may
      restart before the snapshot that it acknowledged is on its disk.  The
      invariant therefore speaks of a peer as it is and as it would restart
      ([Leadership.image]).
      ReplicatedLog: in orderly runs the cluster refines the specification of a
      log that only grows, of proposed commands.
    - progress (CatchUp, Progress): when all messages arrive, a follower has the
      leader's log after logarithmically many rounds; unless its snapshot is
      ahead of the leader's and [nextIndex] falls into it, when it starves.  From
      every state of an orderly run, a peer that is ready to lead can be elected
      and commit a new command with a majority, while all other messages are
      lost, and [ApplyMsgSender] hands it to its service ([cluster_progress]).
      Ready to lead is [Progress.ready]: among others, no installed snapshot
      waits to be saved.
    - network (LabrpcSpec), harness (ConfigSpec, AgreementSpec): what [true] and
      [false] of a [Call] mean; disconnecting isolates; restarting keeps the
      durable state; the appliers' checks imply agreement, and [one] returns
      only on agreement.
    - the other harnesses (KvHarnessSpec, CtrlHarnessSpec, ShardHarnessSpec):
      configurations are made with all links, partitions cut off the leader,
      restarts keep what is durable, clerks get every server in some order; the
      shardkv harness works for three servers per group, and for no other
      number.
    - MapReduce (MapReduceSpec, MrRunSpec): grouping, word count, the hash; that
      the job never ends, and when exactly a worker of it does; that jobcount
      and the timing applications count right.  Labgob (LabgobCheck): the checks
      of types and values.
    - services (ClerksSpec): whom a clerk believes, when it returns, and that it
      never does against the empty handlers.

    * Bounds and fuel

    [checkSingle] runs with [check_fuel], which counts the words of operation
    ids: every cache entry belongs to another such word, and between two
    insertions the list is walked at most once forward and unwound once.
    [length_loop] and [reduce_loop] take the length of their list plus one;
    [checkType] one unit per type that is not checked yet.  The retry loops of
    the clerks have no bound: their theorems hold for all fuel, or say that two
    rounds are enough.  The loops of [one] and of a worker run over a list of
    what happens meanwhile, of any length.  Bitset words, the hash of MapReduce
    and the counters of labrpc and the harnesses wrap at their width; histories
    are assumed shorter than 2^62 operations, and process ids fit 64 bits.
    Terms, log indices, times and counts of Raft and MapReduce are unbounded
    integers.

    * What is not modelled

    Real time (sleeps, timeouts as durations), debug printing, the memory model
    (sections are atomic and data races between them do not exist).  Fields of a
    peer that its goroutines read without the lock may be out of date when they
    are used, but for the test of [leaderId] before [sendAERpcs] (Cluster);
    [nCommitted] reads the logs of all servers at one moment (Config), and a
    request finds the network as it was when the call was made (Labrpc).  The
    states of a porcupine model can be compared, so that [ShallowEqual] does not
    panic.  The text of the page of porcupine/visualization.go and its JSON are
    parameters.
    State machine safety of a whole cluster is refuted in general
    ([conditions_needed]) and proved for orderly runs.  Opening sockets and plugins in mr/
    and main/ is a parameter, and [ReduceWorker] has no body.  The
    packages that lockc, lockd, pbc, pbd, viewd and diskvd of main/ import are
    not in the repository and are parameters. *)
From Stdlib Require Export ZArith Lia.
From Stdlib Require Import OrderedTypeEx.
From stdpp Require Export base list gmap strings sorting.

Declare Scope go_scope.
Delimit Scope go_scope with go.

#[export] Set Default Goal Selector "!".

(** ** Results of Go code that may panic *)

(** [Panic] stands for a run-time panic: an index or a slice bound out of
    range, a nil dereference, a call of a nil function, or an explicit
    [panic]. *)
Inductive res (A : Type) : Type :=
| Ret (a : A)
| Panic.
Arguments Ret {A} a.
Arguments Panic {A}.

Definition rbind {A B} (m : res A) (k : A -> res B) : res B :=
  match m with
  | Ret a => k a
  | Panic => Panic
  end.

Definition rmap {A B} (f : A -> B) (m : res A) : res B :=
  rbind m (fun a => Ret (f a)).

Notation "'let!' x ':=' m 'in' k" := (rbind m (fun x => k))
  (at level 10, x pattern, m at level 100, k at level 200) : go_scope.
#[global] Open Scope go_scope.

Lemma rbind_ret {A B} (m : res A) (k : A -> res B) b :
  rbind m k = Ret b <-> exists a, m = Ret a /\ k a = Ret b.
Proof.
  destruct m as [a|]; cbn; split.
  - eauto.
  - by intros (a' & [= ->] & ?).
  - done.
  - by intros (a' & ? & _).
Qed.

(** Split a successful computation into its successful steps. *)
Ltac res_inv :=
  repeat match goal with
  | H : rbind _ _ = Ret _ |- _ =>
      apply rbind_ret in H as (? & ? & ?)
  | H : rmap _ _ = Ret _ |- _ => unfold rmap in H
  | H : Ret _ = Ret _ |- _ => injection H as H; try subst
  | H : Panic = Ret _ |- _ => discriminate H
  end.

(** Case on the innermost condition of the goal or of a hypothesis. *)
Ltac case_cond :=
  match goal with
  | |- context [match ?b with true => _ | false => _ end] =>
      let E := fresh "Hb" in destruct b eqn:E
  | H : context [match ?b with true => _ | false => _ end] |- _ =>
      let E := fresh "Hb" in destruct b eqn:E
  end.

(** Turn boolean comparisons of integers into propositions. *)
Ltac zbool :=
  repeat match goal with
  | H : (_ && _)%bool = true |- _ => apply andb_prop in H as [? ?]
  | H : (_ && _)%bool = false |- _ => apply andb_false_iff in H
  | H : (_ || _)%bool = true |- _ => apply orb_prop in H
  | H : (_ || _)%bool = false |- _ => apply orb_false_iff in H as [? ?]
  | H : negb _ = true |- _ => apply negb_true_iff in H
  | H : negb _ = false |- _ => apply negb_false_iff in H
  | H : (_ <? _)%Z = true |- _ => apply Z.ltb_lt in H
  | H : (_ <? _)%Z = false |- _ => apply Z.ltb_ge in H
  | H : (_ <=? _)%Z = true |- _ => apply Z.leb_le in H
  | H : (_ <=? _)%Z = false |- _ => apply Z.leb_gt in H
  | H : (_ >? _)%Z = true |- _ => rewrite Z.gtb_ltb in H; apply Z.ltb_lt in H
  | H : (_ >? _)%Z = false |- _ => rewrite Z.gtb_ltb in H; apply Z.ltb_ge in H
  | H : (_ >=? _)%Z = true |- _ => rewrite Z.geb_leb in H; apply Z.leb_le in H
  | H : (_ >=? _)%Z = false |- _ => rewrite Z.geb_leb in H; apply Z.leb_gt in H
  | H : (_ =? _)%Z = true |- _ => apply Z.eqb_eq in H
  | H : (_ =? _)%Z = false |- _ => apply Z.eqb_neq in H
  end.

(** ** Go slices

    A slice is the list of its elements; [int] indices are [Z].  An index
    outside [0, len) and a bound outside [0, len] panic.  (Go lets the upper
    bound of a re-slice run up to the capacity; the sources only re-slice with
    upper bounds at most the length, so the capacity is not modelled.) *)

Definition len {A} (l : list A) : Z := Z.of_nat (length l).

Definition go_index {A} (l : list A) (i : Z) : res A :=
  if (0 <=? i)%Z then
    match l !! Z.to_nat i with Some x => Ret x | None => Panic end
  else Panic.

Definition go_set {A} (l : list A) (i : Z) (x : A) : res (list A) :=
  if ((0 <=? i) && (i <? len l))%Z then Ret (<[Z.to_nat i := x]> l) else Panic.

(** [l[i:]] *)
Definition go_from {A} (l : list A) (i : Z) : res (list A) :=
  if ((0 <=? i) && (i <=? len l))%Z then Ret (drop (Z.to_nat i) l) else Panic.

(** [l[:i]] *)
Definition go_to {A} (l : list A) (i : Z) : res (list A) :=
  if ((0 <=? i) && (i <=? len l))%Z then Ret (take (Z.to_nat i) l) else Panic.

(** [make([]T, n)] filled with the zero value [x]. *)
Definition go_make {A} (n : Z) (x : A) : list A := replicate (Z.to_nat n) x.

(** [int] to [uint] conversion on a 64-bit machine. *)
Definition uint_of_int (z : Z) : Z := (z mod 2 ^ 64)%Z.

Lemma go_index_ret {A} (l : list A) i x :
  go_index l i = Ret x <-> (0 <= i)%Z /\ l !! Z.to_nat i = Some x.
Proof.
  unfold go_index. case_cond; zbool.
  - destruct (l !! Z.to_nat i) eqn:E; naive_solver.
  - split; [done|lia].
Qed.

Lemma go_index_in {A} (l : list A) i :
  (0 <= i < len l)%Z -> exists x, go_index l i = Ret x /\ l !! Z.to_nat i = Some x.
Proof.
  unfold len. intros Hi.
  destruct (lookup_lt_is_Some_2 l (Z.to_nat i)) as [x Hx]; [lia|].
  exists x. rewrite go_index_ret. split; [|done]. split; [lia|done].
Qed.

Lemma go_index_panic {A} (l : list A) i :
  go_index l i = Panic <-> (i < 0 \/ len l <= i)%Z.
Proof.
  unfold go_index, len. case_cond; zbool; [|split; [lia|done]].
  destruct (l !! Z.to_nat i) eqn:E.
  - apply lookup_lt_Some in E. split; [done|lia].
  - apply lookup_ge_None in E. split; [lia|done].
Qed.

Lemma go_set_ret {A} (l l' : list A) i x :
  go_set l i x = Ret l' <-> (0 <= i < len l)%Z /\ l' = <[Z.to_nat i := x]> l.
Proof.
  unfold go_set. case_cond; zbool.
  - naive_solver lia.
  - split; [done|]. lia.
Qed.

Lemma go_set_in {A} (l : list A) i x :
  (0 <= i < len l)%Z -> go_set l i x = Ret (<[Z.to_nat i := x]> l).
Proof. intros. by apply go_set_ret. Qed.

Lemma go_from_ret {A} (l l' : list A) i :
  go_from l i = Ret l' <-> (0 <= i <= len l)%Z /\ l' = drop (Z.to_nat i) l.
Proof.
  unfold go_from. case_cond; zbool.
  - naive_solver lia.
  - split; [done|]. lia.
Qed.

Lemma go_to_ret {A} (l l' : list A) i :
  go_to l i = Ret l' <-> (0 <= i <= len l)%Z /\ l' = take (Z.to_nat i) l.
Proof.
  unfold go_to. case_cond; zbool.
  - naive_solver lia.
  - split; [done|]. lia.
Qed.

Lemma len_nonneg {A} (l : list A) : (0 <= len l)%Z.
Proof. unfold len. lia. Qed.

Lemma len_app {A} (l k : list A) : len (l ++ k) = (len l + len k)%Z.
Proof. unfold len. rewrite length_app. lia. Qed.

Lemma len_insert {A} (l : list A) i x : len (<[i := x]> l) = len l.
Proof. unfold len. by rewrite length_insert. Qed.

Lemma len_zero {A} (l : list A) : len l = 0%Z <-> l = [].
Proof. unfold len. destruct l; cbn; split; (done || lia). Qed.

#[export] Hint Resolve len_nonneg : core.

(** The invariants of the peer that every section keeps. *)
Create HintDb raft.

(** ** Loops with a body that may panic *)

Fixpoint for_each {A B} (f : A -> B -> res B) (l : list A) (b : B) : res B :=
  match l with
  | [] => Ret b
  | x :: l => let! b := f x b in for_each f l b
  end.

(** The indices [0 .. n-1] of a counting loop. *)
Definition upto (n : Z) : list Z := Z.of_nat <$> seq 0 (Z.to_nat n).

Lemma elem_of_upto n i : i ∈ upto n <-> (0 <= i < n)%Z.
Proof.
  unfold upto. rewrite list_elem_of_fmap. split.
  - intros (k & -> & Hk%elem_of_seq). lia.
  - intros Hi. exists (Z.to_nat i). rewrite elem_of_seq. lia.
Qed.

Lemma len_upto n0 : (0 <= n0)%Z -> len (upto n0) = n0.
Proof. intros. unfold len, upto. rewrite length_fmap, length_seq. lia. Qed.

Lemma upto_NoDup n0 : NoDup (upto n0).
Proof. unfold upto. apply NoDup_fmap_2; [apply _|apply NoDup_seq]. Qed.

Lemma upto_snoc k : upto (Z.of_nat (S k)) = upto (Z.of_nat k) ++ [Z.of_nat k].
Proof. unfold upto. rewrite !Nat2Z.id, seq_S, fmap_app. done. Qed.

Lemma for_each_app {A B} (f : A -> B -> res B) l k b :
  for_each f (l ++ k) b = rbind (for_each f l b) (for_each f k).
Proof. revert b. induction l as [|x l IH]; intros b; [done|]. cbn. destruct (f x b); [apply IH|done]. Qed.

Lemma for_each_ext {A B} (f g : A -> B -> res B) l b :
  (forall x c, x ∈ l -> f x c = g x c) -> for_each f l b = for_each g l b.
Proof.
  revert b. induction l as [|x l IH]; intros b Hfg; [done|]. cbn. rewrite Hfg by set_solver.
  destruct (g x b); [|done]. apply IH. intros y c Hy. apply Hfg. by right.
Qed.

Lemma for_each_inv {A B} (f : A -> B -> res B) (P : B -> Prop) l b b' :
  (forall x c c', x ∈ l -> P c -> f x c = Ret c' -> P c') -> P b -> for_each f l b = Ret b' -> P b'.
Proof.
  revert b. induction l as [|x l IH]; intros b Hf HP; cbn; [by intros [= <-]|].
  intros (c & Hx & Hl)%rbind_ret. eapply IH; [|eapply (Hf x); [left|exact HP|exact Hx]|exact Hl].
  intros y ? ? Hy. apply Hf. by right.
Qed.

(** What the step for [x] establishes and later steps keep holds after the
    loop; [I] holds all along. *)
Lemma for_each_post {A B} (f : A -> B -> res B) (I P : B -> Prop) l b b' x :
  x ∈ l -> (forall y c c', I c -> f y c = Ret c' -> I c') ->
  (forall y c c', I c -> P c -> f y c = Ret c' -> P c') ->
  (forall c c', I c -> f x c = Ret c' -> P c') -> I b -> for_each f l b = Ret b' -> P b'.
Proof.
  revert b. induction l as [|y l IH]; intros b Hx HI Hkeep Hest Hb; cbn; [set_solver|].
  intros (c & Hy & Hl)%rbind_ret. apply elem_of_cons in Hx as [<-|Hx].
  - apply (for_each_inv f (fun c => I c /\ P c) l c b'); [|split; [by eapply HI|by eapply Hest]|done].
    intros z c0 c1 _ [? ?] Hz. split; [by eapply HI|by eapply Hkeep].
  - apply (IH c Hx HI Hkeep Hest); [by eapply HI|done].
Qed.

(** ** Package sort

    [go_sort less l] is the slice [l] after [sort.Sort] with the given [Less].
    The package promises a permutation of the input in which no element is
    less than an earlier one; which of two equal elements comes first is left
    open, and the development relies on nothing more. *)
Class GoSort := {
  go_sort : forall {A}, (A -> A -> bool) -> list A -> list A;
  go_sort_perm : forall {A} (less : A -> A -> bool) l, go_sort less l ≡ₚ l;
  go_sort_sorted : forall {A} (less : A -> A -> bool) l,
    (forall x y, less x y = true -> less y x = false) ->
    (forall x y z, less y x = false -> less z y = false -> less z x = false) ->
    StronglySorted (fun x y => less y x = false) (go_sort less l);
}.

(** A sort with these properties exists: merge sort. *)
Definition not_above {A} (less : A -> A -> bool) (x y : A) : Prop := less y x = false.

#[export] Instance not_above_dec {A} (less : A -> A -> bool) : RelDecision (not_above less).
Proof. intros x y. unfold not_above. apply _. Defined.

Definition merge_sort_less {A} (less : A -> A -> bool) (l : list A) : list A :=
  merge_sort (not_above less) l.

Lemma merge_sort_less_sorted {A} (less : A -> A -> bool) l :
  (forall x y, less x y = true -> less y x = false) ->
  (forall x y z, less y x = false -> less z y = false -> less z x = false) ->
  StronglySorted (fun x y => less y x = false) (merge_sort_less less l).
Proof.
  intros Hasym Htrans. unfold merge_sort_less.
  apply Sorted_StronglySorted; [intros x y z; apply Htrans|].
  assert (Total (not_above less)) by
    (intros x y; unfold not_above; destruct (less y x) eqn:E; [right; auto|by left]).
  apply (Sorted_merge_sort (not_above less)).
Qed.

Definition merge_GoSort : GoSort := {|
  go_sort := @merge_sort_less;
  go_sort_perm := fun A less l => merge_sort_Permutation (not_above less) l;
  go_sort_sorted := @merge_sort_less_sorted;
|}.

Lemma length_app_str s1 s2 : String.length (s1 +:+ s2) = (String.length s1 + String.length s2)%nat.
Proof.
  induction s1 as [|a s1 IH]; [done|].
  change (S (String.length (s1 +:+ s2)) = S (String.length s1 + String.length s2)). by rewrite IH.
Qed.

(** Go compares strings byte by byte; [sort.Strings] sorts by this order. *)
Definition str_less (a b : string) : bool := String.ltb a b.

Lemma str_less_lt a b : str_less a b = true <-> String_as_OT.lt a b.
Proof.
  rewrite <- String_as_OT.cmp_lt. unfold str_less, String.ltb, String_as_OT.cmp.
  by destruct (String.compare a b).
Qed.

Lemma str_less_asym a b : str_less a b = true -> str_less b a = false.
Proof.
  intros Hab. destruct (str_less b a) eqn:Hba; [|done]. exfalso.
  apply str_less_lt in Hab, Hba.
  by apply (String_as_OT.lt_not_eq a a (String_as_OT.lt_trans a b a Hab Hba)).
Qed.

Lemma str_less_total a b : str_less a b = false -> str_less b a = false -> a = b.
Proof.
  intros Hab Hba. destruct (String_as_OT.compare a b) as [Hl|He|Hl]; [|done|].
  - apply str_less_lt in Hl. congruence.
  - apply str_less_lt in Hl. congruence.
Qed.

Lemma str_less_trans_neg x y z :
  str_less y x = false -> str_less z y = false -> str_less z x = false.
Proof.
  intros Hyx Hzy. destruct (str_less z x) eqn:Hzx; [|done]. exfalso.
  destruct (str_less x y) eqn:Hxy.
  - apply str_less_lt in Hzx, Hxy. pose proof (String_as_OT.lt_trans _ _ _ Hzx Hxy) as Hl.
    apply str_less_lt in Hl. congruence.
  - rewrite (str_less_total x y) in Hzx by done. congruence.
Qed.

Definition sort_Strings `{!GoSort} (l : list string) : list string := go_sort str_less l.

Lemma sort_Strings_sorted `{!GoSort} l :
  StronglySorted (fun a b => str_less b a = false) (sort_Strings l).
Proof. apply go_sort_sorted; [apply str_less_asym|intros x y z; apply str_less_trans_neg]. Qed.

(** ** Iteration over a Go map

    [range] over a map visits the keys in an unspecified order: some
    permutation of them. *)
Class GoRange := {
  range_keys : forall {A}, list A -> list A;
  range_perm : forall {A} (l : list A), range_keys l ≡ₚ l;
}.

Definition id_GoRange : GoRange := {|
  range_keys := fun A l => l;
  range_perm := fun A l => Permutation_refl l;
|}.

(** ** Lists: relative order of two elements *)

Definition before {A} (x y : A) (l : list A) : Prop :=
  exists l1 l2 l3, l = l1 ++ x :: l2 ++ y :: l3.

Lemma before_elem {A} (x y : A) l : before x y l -> x ∈ l /\ y ∈ l.
Proof. intros (? & ? & ? & ->). set_solver. Qed.

Lemma before_cons {A} (x y z : A) l : before x y (z :: l) <-> (x = z /\ y ∈ l) \/ before x y l.
Proof.
  split.
  - intros ([|w l1] & l2 & l3 & [= -> ->]); [left; set_solver|].
    right. by exists l1, l2, l3.
  - intros [[-> (l2 & l3 & ->)%list_elem_of_split]|(l1 & l2 & l3 & ->)].
    + by exists [], l2, l3.
    + by exists (z :: l1), l2, l3.
Qed.

Lemma before_nil {A} (x y : A) : ~ before x y [].
Proof. intros ([|] & ? & ? & ?); done. Qed.

Lemma before_irrefl {A} (x : A) l : NoDup l -> ~ before x x l.
Proof. intros Hnd (l1 & l2 & l3 & ->). apply NoDup_app in Hnd as (_ & _ & Hnd). inversion Hnd. set_solver. Qed.

Lemma before_asym {A} (x y : A) l : NoDup l -> before x y l -> before y x l -> False.
Proof.
  induction l as [|z l IH]; intros Hnd; [intros H; by apply before_nil in H|].
  apply NoDup_cons in Hnd as [Hz Hnd]. rewrite !before_cons.
  intros [[-> ?]|Hxy] [[-> ?]|Hyx]; eauto.
  - by apply before_elem in Hyx as [? ?].
  - by apply before_elem in Hxy as [? ?].
Qed.

Lemma before_total {A} (x y : A) l : x ∈ l -> y ∈ l -> x <> y -> before x y l \/ before y x l.
Proof.
  induction l as [|z l IH]; [set_solver|]. rewrite !elem_of_cons, !before_cons. naive_solver.
Qed.

Lemma before_filter {A} (P : A -> Prop) `{forall x, Decision (P x)} (x y : A) l :
  before x y (filter P l) -> before x y l.
Proof.
  induction l as [|z l IH]; [done|]. rewrite filter_cons. case_decide; [|rewrite before_cons; auto].
  rewrite !before_cons, list_elem_of_filter. naive_solver.
Qed.

Lemma before_filter_intro {A} (P : A -> Prop) `{forall x, Decision (P x)} (x y : A) l :
  P x -> P y -> before x y l -> before x y (filter P l).
Proof.
  intros Hx Hy. induction l as [|z l IH]; [done|].
  rewrite filter_cons, before_cons. intros [[-> ?]|?].
  - rewrite decide_True by done. apply before_cons. left. split; [done|]. by apply list_elem_of_filter.
  - case_decide; [apply before_cons|]; auto.
Qed.

Lemma before_split {A} (x y : A) l1 l2 :
  NoDup (l1 ++ y :: l2) -> before x y (l1 ++ y :: l2) <-> x ∈ l1.
Proof.
  intros Hnd. split.
  - intros Hb. assert (x <> y) by (intros ->; by eapply before_irrefl).
    destruct (before_elem _ _ _ Hb) as [Hx _].
    rewrite elem_of_app, elem_of_cons in Hx. destruct Hx as [?|[?|Hx]]; [done|done|].
    exfalso. apply (before_asym x y _ Hnd Hb).
    apply list_elem_of_split in Hx as (k1 & k2 & ->). by exists l1, k1, k2.
  - intros (k1 & k2 & ->)%list_elem_of_split. exists k1, k2, l2. by rewrite <- app_assoc.
Qed.
