(* ===== verification/Bitset.v ===== *)
(** The bitset of porcupine/bitset.go. *)
From S2P Require Import Prelude.
Local Open Scope Z_scope.

Module Bits.

Abbreviation bitset := (list Z).

Definition newBitset (bits : Z) : bitset :=
  let extra := if negb (bits mod 64 =? 0) then 1 else 0 in
  let chunks := bits / 64 + extra in
  go_make chunks 0.

(** [clone] copies into fresh storage; on values it is the identity. *)
Definition clone (b : bitset) : bitset := take (length b) b.

Definition bitsetIndex (pos : Z) : Z * Z := (pos / 64, pos mod 64).

Definition set (b : bitset) (pos : Z) : res bitset :=
  let '(major, minor) := bitsetIndex pos in
  let! w := go_index b major in
  go_set b major (Z.lor w (Z.shiftl 1 minor)).

Definition clear (b : bitset) (pos : Z) : res bitset :=
  let '(major, minor) := bitsetIndex pos in
  let! w := go_index b major in
  go_set b major (Z.ldiff w (Z.shiftl 1 minor)).

Definition get (b : bitset) (pos : Z) : res bool :=
  let '(major, minor) := bitsetIndex pos in
  let! w := go_index b major in
  Ret (negb (Z.land w (Z.shiftl 1 minor) =? 0)).

(** [bits.OnesCount64] *)
Definition OnesCount64 (w : Z) : Z :=
  fold_right (fun i acc => (if Z.testbit w (Z.of_nat i) then 1 else 0) + acc) 0 (seq 0 64).

Definition popcnt (b : bitset) : Z :=
  fold_left (fun total v => total + OnesCount64 v) b 0.

Definition hash (b : bitset) : Z :=
  fold_left (fun h v => Z.lxor h v) b (popcnt b).

Fixpoint equals_loop (b b2 : bitset) : bool :=
  match b, b2 with
  | v :: b', v2 :: b2' => if negb (v =? v2) then false else equals_loop b' b2'
  | _, _ => true
  end.

Definition equals (b b2 : bitset) : bool :=
  if negb (len b =? len b2) then false else equals_loop b b2.

(** ** Well-formed bitsets: every word is a [uint64] *)

Definition word_ok (w : Z) : Prop := 0 <= w < 2 ^ 64.
Definition bitset_ok (b : bitset) : Prop := Forall word_ok b.
Definition nbits (b : bitset) : Z := 64 * len b.

(** The bit at [pos], [false] outside the bitset. *)
Definition bit (b : bitset) (pos : Z) : bool :=
  match b !! Z.to_nat (pos / 64) with
  | Some w => Z.testbit w (pos mod 64)
  | None => false
  end.

Lemma pos_major b pos : 0 <= pos < nbits b -> 0 <= pos / 64 < len b.
Proof. unfold nbits. intros. split; [apply Z.div_pos; lia|apply Z.div_lt_upper_bound; lia]. Qed.

Lemma word_ok_bits w i : word_ok w -> 64 <= i -> Z.testbit w i = false.
Proof.
  intros [Hw1 Hw2] Hi. destruct (decide (w = 0)) as [->|]; [apply Z.bits_0|].
  apply Z.bits_above_log2; [lia|]. apply Z.log2_lt_pow2 in Hw2; lia.
Qed.

Lemma word_ok_intro w : 0 <= w -> (forall i, 64 <= i -> Z.testbit w i = false) -> word_ok w.
Proof.
  intros Hw Hb. split; [done|].
  destruct (decide (w = 0)) as [->|]; [lia|].
  apply Z.log2_lt_pow2; [lia|].
  destruct (decide (Z.log2 w < 64)) as [|Hlog]; [done|].
  specialize (Hb (Z.log2 w)). rewrite Z.bit_log2 in Hb by lia. lia.
Qed.

Lemma single_bit m i : 0 <= m -> Z.testbit (Z.shiftl 1 m) i = (i =? m).
Proof.
  intros Hm. rewrite Z.shiftl_1_l. destruct (Z.eqb_spec i m) as [->|Hne].
  - by apply Z.pow2_bits_true.
  - apply Z.pow2_bits_false. lia.
Qed.

Lemma get_bit b pos : 0 <= pos < nbits b -> get b pos = Ret (bit b pos).
Proof.
  intros Hp. pose proof (pos_major _ _ Hp) as Hm.
  pose proof (Z.mod_pos_bound pos 64 ltac:(lia)).
  unfold get, bit, bitsetIndex. destruct (go_index_in b (pos / 64) Hm) as (w & -> & ->).
  cbn [rbind]. f_equal. rewrite Z.land_comm, Z.shiftl_1_l.
  destruct (Z.testbit w (pos mod 64)) eqn:E.
  - apply negb_true_iff, Z.eqb_neq. intros H0.
    assert (Z.testbit (Z.land (2 ^ (pos mod 64)) w) (pos mod 64) = false) as Hf
      by (rewrite H0; apply Z.bits_0).
    rewrite Z.land_spec, E, Z.pow2_bits_true in Hf by lia. done.
  - apply negb_false_iff, Z.eqb_eq. apply Z.bits_inj'. intros i Hi.
    rewrite Z.land_spec, Z.bits_0. destruct (decide (i = pos mod 64)) as [->|].
    + by rewrite E, andb_false_r.
    + rewrite Z.pow2_bits_false by lia. done.
Qed.

Lemma bit_insert b p q w :
  0 <= p / 64 < len b -> 0 <= q ->
  bit (<[Z.to_nat (p / 64) := w]> b) q =
    if q / 64 =? p / 64 then Z.testbit w (q mod 64) else bit b q.
Proof.
  intros Hp Hq. unfold bit. pose proof (Z.div_pos q 64 Hq ltac:(lia)).
  destruct (Z.eqb_spec (q / 64) (p / 64)) as [->|Hne].
  - rewrite list_lookup_insert_eq; [done|]. unfold len in Hp. lia.
  - rewrite list_lookup_insert_ne by lia. done.
Qed.

Lemma same_pos p q : p / 64 = q / 64 -> p mod 64 = q mod 64 -> p = q.
Proof. intros. rewrite (Z.div_mod p 64), (Z.div_mod q 64) by lia. congruence. Qed.

(** Both updates share this shape: a word-level operation [f] that agrees with
    the boolean operation [g] at the bit and leaves the others alone. *)
Lemma update_spec b pos (f : Z -> Z) (v : bool) :
  bitset_ok b -> 0 <= pos < nbits b ->
  (forall w i, word_ok w -> 0 <= i ->
     Z.testbit (f w) i = if i =? pos mod 64 then v else Z.testbit w i) ->
  (forall w, word_ok w -> 0 <= f w) ->
  exists b', (let! w := go_index b (pos / 64) in go_set b (pos / 64) (f w)) = Ret b' /\
    bitset_ok b' /\ len b' = len b /\
    forall q, 0 <= q -> bit b' q = if q =? pos then v else bit b q.
Proof.
  intros Hok Hp Hf Hpos. pose proof (pos_major _ _ Hp) as Hm.
  pose proof (Z.mod_pos_bound pos 64 ltac:(lia)) as Hmod.
  destruct (go_index_in b _ Hm) as (w & -> & Hw). cbn [rbind].
  assert (word_ok w) as Hwok by (eapply Forall_lookup_1 in Hok; eauto).
  exists (<[Z.to_nat (pos / 64) := f w]> b). split; [by apply go_set_in|]. split.
  { apply Forall_insert; [done|]. apply word_ok_intro; [auto|]. intros i Hi.
    rewrite Hf by (auto; lia). destruct (Z.eqb_spec i (pos mod 64)); [lia|].
    by apply word_ok_bits. }
  split; [apply len_insert|]. intros q Hq. rewrite bit_insert by done.
  pose proof (Z.mod_pos_bound q 64 ltac:(lia)).
  destruct (Z.eqb_spec (q / 64) (pos / 64)) as [Hd|Hd].
  - rewrite Hf by (auto; lia).
    destruct (Z.eqb_spec (q mod 64) (pos mod 64)), (Z.eqb_spec q pos); try done.
    + by exfalso; eauto using same_pos.
    + by subst.
    + unfold bit. by rewrite Hd, Hw.
  - destruct (Z.eqb_spec q pos); [by subst|done].
Qed.

Lemma set_spec b pos :
  bitset_ok b -> 0 <= pos < nbits b ->
  exists b', set b pos = Ret b' /\ bitset_ok b' /\ len b' = len b /\
    forall q, 0 <= q -> bit b' q = if q =? pos then true else bit b q.
Proof.
  intros Hok Hp. pose proof (Z.mod_pos_bound pos 64 ltac:(lia)).
  apply (update_spec b pos (fun w => Z.lor w (Z.shiftl 1 (pos mod 64)))); [done|done| |].
  - intros w i _ _. rewrite Z.lor_spec, single_bit by lia.
    destruct (i =? pos mod 64); [apply orb_true_r|apply orb_false_r].
  - intros w [Hw _]. apply Z.lor_nonneg. split; [done|]. apply Z.shiftl_nonneg. lia.
Qed.

Lemma clear_spec b pos :
  bitset_ok b -> 0 <= pos < nbits b ->
  exists b', clear b pos = Ret b' /\ bitset_ok b' /\ len b' = len b /\
    forall q, 0 <= q -> bit b' q = if q =? pos then false else bit b q.
Proof.
  intros Hok Hp. pose proof (Z.mod_pos_bound pos 64 ltac:(lia)).
  apply (update_spec b pos (fun w => Z.ldiff w (Z.shiftl 1 (pos mod 64)))); [done|done| |].
  - intros w i _ _. rewrite Z.ldiff_spec, single_bit by lia.
    destruct (i =? pos mod 64); [apply andb_false_r|apply andb_true_r].
  - intros w [Hw _]. apply Z.ldiff_nonneg. by left.
Qed.

Lemma newBitset_ok n : 0 <= n ->
  bitset_ok (newBitset n) /\ n <= nbits (newBitset n) < n + 64 /\
  forall q, bit (newBitset n) q = false.
Proof.
  intros Hn. unfold newBitset, go_make, nbits, len. rewrite length_replicate.
  pose proof (Z.div_pos n 64 Hn ltac:(lia)).
  pose proof (Z.mod_pos_bound n 64 ltac:(lia)). pose proof (Z.div_mod n 64 ltac:(lia)).
  split; [apply Forall_replicate; unfold word_ok; lia|]. split.
  - destruct (Z.eqb_spec (n mod 64) 0); cbn [negb]; lia.
  - intros q. unfold bit.
    destruct (replicate _ _ !! _) as [w|] eqn:E; [|done].
    apply lookup_replicate in E as [-> _]. apply Z.bits_0.
Qed.

Lemma bit_ext b b2 :
  bitset_ok b -> bitset_ok b2 -> len b = len b2 ->
  (forall q, 0 <= q < nbits b -> bit b q = bit b2 q) -> b = b2.
Proof.
  intros Hok Hok2 Hlen Hbit. unfold len in Hlen.
  apply list_eq_same_length with (length b); [lia|lia|]. intros i w w2 Hi Hw Hw2.
  pose proof (Forall_lookup_1 _ _ _ _ Hok Hw). pose proof (Forall_lookup_1 _ _ _ _ Hok2 Hw2).
  apply Z.bits_inj'. intros j Hj. destruct (decide (j < 64)) as [Hj'|].
  - specialize (Hbit (64 * Z.of_nat i + j)). unfold bit, nbits, len in Hbit.
    rewrite (Z.mul_comm 64), Z.div_add_l, Z.div_small, Z.add_0_r in Hbit by lia.
    rewrite Z.add_comm, Z.mod_add, Z.mod_small, Nat2Z.id, Hw, Hw2 in Hbit by lia.
    apply Hbit. lia.
  - rewrite !word_ok_bits by (auto; lia). done.
Qed.

Lemma equals_loop_spec b b2 : length b = length b2 -> equals_loop b b2 = true <-> b = b2.
Proof.
  revert b2. induction b as [|v b IH]; intros [|v2 b2]; cbn; try done.
  intros [= Hl]. destruct (Z.eqb_spec v v2); cbn.
  - rewrite IH by done. naive_solver.
  - naive_solver.
Qed.

Lemma equals_spec b b2 : equals b b2 = true <-> b = b2.
Proof.
  unfold equals, len. destruct (Z.eqb_spec (Z.of_nat (length b)) (Z.of_nat (length b2))); cbn.
  - apply equals_loop_spec. lia.
  - split; [done|]. intros ->. lia.
Qed.

Lemma clone_id b : clone b = b.
Proof. unfold clone. apply firstn_all. Qed.

End Bits.
