(* ===== verification/LinkedList.v ===== *)
(** The doubly linked entry list of porcupine/checker.go: the node heap,
    [insertBefore], [length], [makeLinkedEntries], [lift] and [unlift]. *)
From S2P Require Import Prelude.

Module LList.

Inductive entryKind := callEntry | returnEntry.

#[export] Instance entryKind_eq_dec : EqDecision entryKind.
Proof. solve_decision. Defined.

Record entry {V : Type} := mkEntry {
  kind : entryKind;
  value : V;
  id : Z;
  time : Z;
  clientId : Z;
}.
Arguments entry : clear implicits.
Arguments mkEntry {V}.

(** A [*node] is an optional address in the heap, [None] being nil. *)
Abbreviation addr := nat.
Abbreviation ptr := (option addr).

Record node {V : Type} := mkNode {
  nvalue : V;
  match_ : ptr;
  nid : Z;
  next : ptr;
  prev : ptr;
}.
Arguments node : clear implicits.
Arguments mkNode {V}.

Section list.
Context {V : Type}.

(** The heap of nodes: the node at address [a] is the [a]-th one. *)
Abbreviation heap := (list (node V)).

Definition load (h : heap) (p : ptr) : res (node V) :=
  match p with
  | Some a => match h !! a with Some n => Ret n | None => Panic end
  | None => Panic
  end.

Definition store (h : heap) (p : ptr) (f : node V -> node V) : res heap :=
  match p with
  | Some a => match h !! a with Some n => Ret (<[a := f n]> h) | None => Panic end
  | None => Panic
  end.

Definition set_next (q : ptr) (n : node V) : node V :=
  mkNode (nvalue n) (match_ n) (nid n) q (prev n).
Definition set_prev (q : ptr) (n : node V) : node V :=
  mkNode (nvalue n) (match_ n) (nid n) (next n) q.

(** [&node{value: v, match: m, id: i}] *)
Definition alloc (h : heap) (v : V) (m : ptr) (i : Z) : addr * heap :=
  (length h, h ++ [mkNode v m i None None]).

Definition insertBefore (h : heap) (n mark : ptr) : res heap :=
  match mark with
  | None => Ret h
  | Some _ =>
      let! mk := load h mark in
      let beforeMark := prev mk in
      let! h := store h mark (set_prev n) in
      let! h := store h n (set_next mark) in
      match beforeMark with
      | None => Ret h
      | Some _ =>
          let! h := store h n (set_prev beforeMark) in
          store h beforeMark (set_next n)
      end
  end.

(** The loop of [length]; [None] when the fuel runs out. *)
Fixpoint length_loop (fuel : nat) (h : heap) (n : ptr) (l : Z) : option (res Z) :=
  match fuel with
  | O => None
  | S fuel =>
      match n with
      | None => Some (Ret l)
      | Some _ =>
          match load h n with
          | Ret nd => length_loop fuel h (next nd) (l + 1)
          | Panic => Some Panic
          end
      end
  end.

(** An acyclic list visits each node once, so one step per node and one for the
    final nil are enough. *)
Definition length_list (h : heap) (n : ptr) : option (res Z) :=
  length_loop (S (length h)) h n 0%Z.

(** The loop of [makeLinkedEntries], over the entries from the last one to the
    first. *)
Fixpoint linked_loop (rentries : list (entry V)) (h : heap) (root : ptr)
    (m : gmap Z addr) : res (ptr * heap) :=
  match rentries with
  | [] => Ret (root, h)
  | elem :: rest =>
      match kind elem with
      | returnEntry =>
          let '(a, h) := alloc h (value elem) None (id elem) in
          let m := <[id elem := a]> m in
          let! h := insertBefore h (Some a) root in
          linked_loop rest h (Some a) m
      | callEntry =>
          let '(a, h) := alloc h (value elem) (m !! id elem) (id elem) in
          let! h := insertBefore h (Some a) root in
          linked_loop rest h (Some a) m
      end
  end.

Definition makeLinkedEntries (entries : list (entry V)) : res (ptr * heap) :=
  linked_loop (reverse entries) [] None ∅.

Definition lift (h : heap) (e : ptr) : res heap :=
  let! en := load h e in
  let! h := store h (prev en) (set_next (next en)) in
  let! en := load h e in
  let! h := store h (next en) (set_prev (prev en)) in
  let! en := load h e in
  let m := match_ en in
  let! mn := load h m in
  let! h := store h (prev mn) (set_next (next mn)) in
  let! mn := load h m in
  match next mn with
  | None => Ret h
  | Some _ => store h (next mn) (set_prev (prev mn))
  end.

Definition unlift (h : heap) (e : ptr) : res heap :=
  let! en := load h e in
  let m := match_ en in
  let! mn := load h m in
  let! h := store h (prev mn) (set_next m) in
  let! mn := load h m in
  let! h := match next mn with
            | None => Ret h
            | Some _ => store h (next mn) (set_prev m)
            end in
  let! en := load h e in
  let! h := store h (prev en) (set_next e) in
  let! en := load h e in
  store h (next en) (set_prev e).

(** ** Representation: the heap links the addresses [l] in order *)

Fixpoint dll (h : heap) (p : ptr) (l : list addr) (q : ptr) : Prop :=
  match l with
  | [] => True
  | a :: l' => exists n, h !! a = Some n /\ prev n = p /\
                 next n = match l' with [] => q | b :: _ => Some b end /\
                 dll h (Some a) l' q
  end.

Definition hd_ptr (l : list addr) (q : ptr) : ptr :=
  match l with [] => q | a :: _ => Some a end.
Definition last_ptr (p : ptr) (l : list addr) : ptr :=
  match last l with Some a => Some a | None => p end.

Lemma last_ptr_cons p a l : last_ptr p (a :: l) = last_ptr (Some a) l.
Proof. unfold last_ptr. destruct l; [done|]. rewrite last_cons_cons. by destruct (last _) eqn:E; [|apply last_None in E]. Qed.

Lemma dll_app h p l1 l2 q :
  dll h p (l1 ++ l2) q <-> dll h p l1 (hd_ptr l2 q) /\ dll h (last_ptr p l1) l2 q.
Proof.
  revert p. induction l1 as [|a l1 IH]; intros p; cbn [app dll].
  - unfold last_ptr. cbn. tauto.
  - rewrite last_ptr_cons. setoid_rewrite IH.
    assert (match l1 ++ l2 with [] => q | b :: _ => Some b end =
            match l1 with [] => hd_ptr l2 q | b :: _ => Some b end) as ->
      by by destruct l1, l2.
    naive_solver.
Qed.

(** A store at an address outside the segment keeps the segment. *)
Lemma dll_frame h p l q a f n :
  a ∉ l -> h !! a = Some n -> dll h p l q -> dll (<[a := f n]> h) p l q.
Proof.
  intros Ha Hn. revert p. induction l as [|b l IH]; intros p; cbn [dll]; [done|].
  rewrite elem_of_cons in Ha. intros (nb & Hb & ? & ? & ?).
  exists nb. rewrite list_lookup_insert_ne by naive_solver. naive_solver.
Qed.

(** The fields other than the links never change. *)
Definition same_data (n n' : node V) : Prop :=
  nvalue n = nvalue n' /\ match_ n = match_ n' /\ nid n = nid n'.
Definition same_heap (h h' : heap) : Prop := Forall2 same_data h h'.

Lemma same_data_refl n : same_data n n.
Proof. done. Qed.
Lemma same_heap_refl h : same_heap h h.
Proof. by apply Forall_Forall2_diag, Forall_true. Qed.
Lemma same_heap_trans h1 h2 h3 : same_heap h1 h2 -> same_heap h2 h3 -> same_heap h1 h3.
Proof.
  intros H12. revert h3. induction H12 as [|n1 n2 l1 l2 Hn _ IH]; intros h3 H23; [done|].
  inversion H23 as [|? n3 ? l3 Hn' Hl]; subst. constructor; [|by apply IH].
  unfold same_data in *. intuition congruence.
Qed.
Lemma same_heap_insert h a n n' :
  h !! a = Some n -> same_data n n' -> same_heap h (<[a := n']> h).
Proof.
  intros Ha Hd. rewrite <- (list_insert_id h a n Ha) at 1.
  apply Forall2_insert; [apply same_heap_refl|done].
Qed.

Lemma same_heap_lookup h h' a n :
  same_heap h h' -> h !! a = Some n -> exists n', h' !! a = Some n' /\ same_data n n'.
Proof. intros Hs Ha. by eapply Forall2_lookup_l in Hs. Qed.

(** ** Unlinking one node and linking it back *)

Definition unlink (h : heap) (p : ptr) : res heap :=
  let! n := load h p in
  let! h := store h (prev n) (set_next (next n)) in
  let! n := load h p in
  match next n with
  | None => Ret h
  | Some _ => store h (next n) (set_prev (prev n))
  end.

Definition relink (h : heap) (p : ptr) : res heap :=
  let! n := load h p in
  let! h := store h (prev n) (set_next p) in
  let! n := load h p in
  match next n with
  | None => Ret h
  | Some _ => store h (next n) (set_prev p)
  end.

Lemma load_some h a n : h !! a = Some n -> load h (Some a) = Ret n.
Proof. intros H. cbn. by rewrite H. Qed.
Lemma store_some h a n f : h !! a = Some n -> store h (Some a) f = Ret (<[a := f n]> h).
Proof. intros H. cbn. by rewrite H. Qed.

Lemma insert_restore (h : heap) a n n' : h !! a = Some n -> <[a := n]> (<[a := n']> h) = h.
Proof. intros H. rewrite list_insert_insert_eq. by apply list_insert_id. Qed.

Lemma set_next_same (n : node V) p q : next n = p -> set_next p (set_next q n) = n.
Proof. destruct n; cbn. intros <-. done. Qed.
Lemma set_prev_same (n : node V) p q : prev n = p -> set_prev p (set_prev q n) = n.
Proof. destruct n; cbn. intros <-. done. Qed.

Lemma lookup_insert_lt (h : heap) a n n' : h !! a = Some n -> <[a := n']> h !! a = Some n'.
Proof. intros H. apply list_lookup_insert_eq. by eapply lookup_lt_Some. Qed.

Lemma unlink_last h p X x a :
  dll h p (X ++ [x; a]) None -> NoDup (X ++ [x; a]) ->
  exists h', unlink h (Some a) = Ret h' /\ relink h' (Some a) = Ret h /\
    dll h' p (X ++ [x]) None /\ same_heap h h' /\ h' !! a = h !! a.
Proof.
  intros Hd Hnd. apply dll_app in Hd as [HX (nx & Hx & Hpx & Hnx & na & Ha & Hpa & Hna & _)].
  apply NoDup_app in Hnd as (HndX & Hdisj & Hnd2). apply NoDup_cons in Hnd2 as [Hxa _].
  assert (x <> a) as Hne by set_solver. assert (x ∉ X) as HxX by set_solver.
  exists (<[x := set_next None nx]> h). unfold unlink, relink.
  rewrite (load_some _ _ _ Ha). cbn [rbind]. rewrite Hpa, Hna, (store_some _ _ _ _ Hx). cbn [rbind].
  assert (<[x := set_next None nx]> h !! a = Some na) as Ha' by by rewrite list_lookup_insert_ne.
  rewrite (load_some _ _ _ Ha'). cbn [rbind].
  rewrite Hpa, Hna, (store_some _ x (set_next None nx)) by by eapply lookup_insert_lt.
  cbn [rbind]. rewrite set_next_same, (insert_restore _ _ _ _ Hx) by done.
  rewrite (load_some _ _ _ Ha). cbn [rbind]. rewrite Hna. split; [done|]. split; [done|]. split.
  - apply dll_app. split; [by eapply dll_frame|]. cbn. exists (set_next None nx).
    split; [by eapply lookup_insert_lt|]. done.
  - split; [|congruence]. by eapply same_heap_insert.
Qed.

Lemma unlink_mid h p X x a y Y :
  dll h p (X ++ x :: a :: y :: Y) None -> NoDup (X ++ x :: a :: y :: Y) ->
  exists h', unlink h (Some a) = Ret h' /\ relink h' (Some a) = Ret h /\
    dll h' p (X ++ x :: y :: Y) None /\ same_heap h h' /\ h' !! a = h !! a.
Proof.
  intros Hd Hnd.
  apply dll_app in Hd as [HX (nx & Hx & Hpx & Hnx & na & Ha & Hpa & Hna & ny & Hy & Hpy & Hny & HY)].
  apply NoDup_app in Hnd as (HndX & Hdisj & Hnd2).
  apply NoDup_cons in Hnd2 as [Hxn [Han [Hyn _]%NoDup_cons]%NoDup_cons].
  assert (x <> a /\ x <> y /\ a <> y) as (Hxa & Hxy & Hay) by set_solver.
  set (h1 := <[x := set_next (Some y) nx]> h).
  assert (h1 !! a = Some na) as Ha1 by (subst h1; by rewrite list_lookup_insert_ne).
  assert (h1 !! y = Some ny) as Hy1 by (subst h1; by rewrite list_lookup_insert_ne).
  assert (h1 !! x = Some (set_next (Some y) nx)) as Hx1 by by eapply lookup_insert_lt.
  set (h2 := <[y := set_prev (Some x) ny]> h1).
  assert (h2 !! a = Some na) as Ha2 by (subst h2; by rewrite list_lookup_insert_ne).
  assert (h2 !! x = Some (set_next (Some y) nx)) as Hx2
    by (subst h2; by rewrite list_lookup_insert_ne).
  assert (h2 !! y = Some (set_prev (Some x) ny)) as Hy2 by by eapply lookup_insert_lt.
  exists h2. unfold unlink, relink.
  rewrite (load_some _ _ _ Ha). cbn [rbind]. rewrite Hpa, Hna, (store_some _ _ _ _ Hx). cbn [rbind].
  fold h1. rewrite (load_some _ _ _ Ha1). cbn [rbind]. rewrite Hpa, Hna, (store_some _ _ _ _ Hy1).
  fold h2. split; [done|]. split.
  - rewrite (load_some _ _ _ Ha2). cbn [rbind]. rewrite Hpa, (store_some _ _ _ _ Hx2). cbn [rbind].
    rewrite set_next_same by done.
    rewrite (load_some _ a na) by by rewrite list_lookup_insert_ne.
    cbn [rbind]. rewrite Hna, (store_some _ y (set_prev (Some x) ny)) by by rewrite list_lookup_insert_ne.
    rewrite set_prev_same by done. f_equal. unfold h2.
    rewrite (list_insert_insert_ne h1 x y) by done.
    rewrite list_insert_insert_eq. unfold h1. rewrite (insert_restore _ _ _ _ Hx).
    by apply list_insert_id.
  - split; [|split; [|congruence]].
    + apply dll_app. split.
      * eapply dll_frame; [set_solver|exact Hy1|]. by eapply dll_frame; [set_solver|exact Hx|].
      * exists (set_next (Some y) nx). split; [done|]. split; [done|]. split; [done|].
        exists (set_prev (Some x) ny). split; [done|]. split; [done|]. split; [done|].
        eapply dll_frame; [done|exact Hy1|]. eapply dll_frame; [set_solver|exact Hx|done].
    + eapply same_heap_trans; by eapply same_heap_insert.
Qed.

Lemma unlink_spec h p X x a Y :
  dll h p (X ++ x :: a :: Y) None -> NoDup (X ++ x :: a :: Y) ->
  exists h', unlink h (Some a) = Ret h' /\ relink h' (Some a) = Ret h /\
    dll h' p (X ++ x :: Y) None /\ same_heap h h' /\ h' !! a = h !! a.
Proof. destruct Y as [|y Y]; [apply unlink_last|apply unlink_mid]. Qed.

(** [lift] unlinks a call and then its return; [unlift] links them back in the
    opposite order. *)
Lemma lift_unlink h e n :
  h !! e = Some n -> next n <> None -> prev n <> Some e ->
  lift h (Some e) =
    let! h1 := unlink h (Some e) in let! en := load h1 (Some e) in unlink h1 (match_ en).
Proof.
  intros He Hn Hp. unfold lift, unlink. rewrite (load_some _ _ _ He). cbn [rbind].
  destruct (prev n) as [b|] eqn:Hpn; [|done]. cbn [store].
  destruct (h !! b) as [nb|] eqn:Hb; [|done]. cbn [rbind].
  rewrite (load_some _ e n) by (rewrite list_lookup_insert_ne by naive_solver; done).
  cbn [rbind]. destruct (next n); [|done]. done.
Qed.

Lemma unlift_relink h h1 e n n1 :
  h !! e = Some n -> relink h (match_ n) = Ret h1 ->
  h1 !! e = Some n1 -> next n1 <> None -> prev n1 <> Some e ->
  unlift h (Some e) = relink h1 (Some e).
Proof.
  intros He Hr He1 Hn Hp. unfold unlift, relink in *. rewrite (load_some _ _ _ He). cbn [rbind].
  destruct (load h (match_ n)) as [mn|]; [|done]. cbn [rbind] in *.
  destruct (store h (prev mn) _) as [h'|]; [|done]. cbn [rbind] in *.
  destruct (load h' (match_ n)) as [mn'|]; [|done]. cbn [rbind] in *.
  destruct (next mn'); rewrite Hr; cbn [rbind]; rewrite (load_some _ _ _ He1); cbn [rbind].
  all: destruct (prev n1) as [b|] eqn:Hpn; [|done]; cbn [store].
  all: destruct (h1 !! b) as [nb|] eqn:Hb; [|done]; cbn [rbind].
  all: rewrite (load_some _ e n1) by (rewrite list_lookup_insert_ne by naive_solver; done).
  all: cbn [rbind]; by destruct (next n1).
Qed.

Lemma dll_node h p X x e Y q :
  dll h p (X ++ x :: e :: Y) q -> exists n, h !! e = Some n /\ prev n = Some x /\ next n = hd_ptr Y q.
Proof. intros Hd. apply dll_app in Hd as [_ (? & _ & _ & _ & n & ? & ? & ? & _)]. by exists n. Qed.

Lemma snoc_of_cons (x : addr) (B : list addr) : exists B' x', x :: B = B' ++ [x'].
Proof. destruct (exists_last (l := x :: B)) as (B' & x' & ->); [done|]. by exists B', x'. Qed.

Lemma lift_spec h X x e B m C n :
  dll h None (X ++ x :: e :: B ++ m :: C) None ->
  NoDup (X ++ x :: e :: B ++ m :: C) ->
  h !! e = Some n -> match_ n = Some m ->
  exists h', lift h (Some e) = Ret h' /\ unlift h' (Some e) = Ret h /\
    dll h' None (X ++ x :: B ++ C) None /\ same_heap h h'.
Proof.
  intros Hd Hnd He Hm.
  assert (x <> e) as Hxe by (apply NoDup_app in Hnd as (_ & _ & Hnd); inversion Hnd; set_solver).
  destruct (dll_node _ _ _ _ _ _ _ Hd) as (n' & He' & Hpn & Hnn). simplify_eq.
  destruct (unlink_spec h None X x e (B ++ m :: C)) as (h1 & Hu1 & Hr1 & Hd1 & Hs1 & He1); [done|done|].
  destruct (snoc_of_cons x B) as (B' & x' & HB).
  assert (forall D, X ++ x :: B ++ D = (X ++ B') ++ x' :: D) as Hsplit.
  { intros D. rewrite (app_comm_cons B D x), HB, <- !app_assoc. done. }
  assert (NoDup (X ++ x :: B ++ m :: C)) as Hnd1.
  { eapply sublist_NoDup; [exact Hnd|].
    apply sublist_app; [done|]. apply sublist_skip, sublist_cons. done. }
  rewrite Hsplit in Hd1, Hnd1.
  destruct (unlink_spec h1 None (X ++ B') x' m C) as (h2 & Hu2 & Hr2 & Hd2 & Hs2 & _); [done|done|].
  rewrite He in He1. rewrite <- Hsplit in Hd2.
  destruct (same_heap_lookup _ _ _ _ Hs2 He1) as (n2 & He2 & _ & Hm2 & _).
  assert (next n <> None) by (rewrite Hnn; by destruct B).
  assert (prev n <> Some e) by congruence.
  exists h2. split; [|split; [|split; [done|by eapply same_heap_trans]]].
  - rewrite (lift_unlink _ _ n) by done. rewrite Hu1. cbn [rbind].
    rewrite (load_some _ _ _ He1). cbn [rbind]. by rewrite Hm.
  - rewrite (unlift_relink h2 h1 e n2 n); [done|done|congruence|done|done|done].
Qed.

(** ** Walking the list *)

Lemma length_loop_spec h fuel p l acc :
  dll h p l None -> length l < fuel ->
  length_loop fuel h (hd_ptr l None) acc = Some (Ret (acc + len l)%Z).
Proof.
  revert fuel p acc. induction l as [|a l IH]; intros fuel p acc Hd Hf;
    destruct fuel as [|fuel]; try (cbn in Hf; lia).
  - cbn. by rewrite Z.add_0_r.
  - destruct Hd as (n & Ha & _ & Hn & Hd). cbn [length_loop hd_ptr].
    rewrite (load_some _ _ _ Ha). fold (hd_ptr l None) in Hn. rewrite Hn.
    erewrite IH; [|exact Hd|cbn in Hf; lia].
    do 2 f_equal. unfold len. cbn [length]. lia.
Qed.

Lemma dll_bound h p l q : dll h p l q -> forall a, a ∈ l -> a < length h.
Proof.
  revert p. induction l as [|b l IH]; intros p; [set_solver|]. cbn [dll].
  intros (n & Hb & _ & _ & Hd) a [->|Ha]%elem_of_cons; [by eapply lookup_lt_Some|eauto].
Qed.

Lemma NoDup_bound_length (l : list nat) n : NoDup l -> (forall a, a ∈ l -> a < n) -> length l <= n.
Proof.
  intros Hnd Hb. rewrite <- (length_seq n 0).
  apply submseteq_length, NoDup_submseteq; [done|]. intros a Ha. apply elem_of_seq. specialize (Hb a Ha). lia.
Qed.

Lemma length_list_spec h l :
  dll h None l None -> NoDup l -> length_list h (hd_ptr l None) = Some (Ret (len l)).
Proof.
  intros Hd Hnd. unfold length_list. erewrite length_loop_spec; [done|exact Hd|].
  pose proof (NoDup_bound_length l (length h) Hnd (dll_bound _ _ _ _ Hd)). lia.
Qed.

(** ** Building the list *)

Lemma dll_ext h h' p l q : (forall a, a ∈ l -> h' !! a = h !! a) -> dll h p l q -> dll h' p l q.
Proof.
  revert p. induction l as [|b l IH]; intros p Hext; cbn [dll]; [done|].
  intros (n & Hb & ? & ? & Hd). exists n. rewrite Hext by set_solver.
  repeat split; [done|done|done|]. apply IH; [set_solver|done].
Qed.

(** The address in [L] of the first return entry of [es] with id [i]. *)
Fixpoint find_ret (es : list (entry V)) (L : list addr) (i : Z) : ptr :=
  match es, L with
  | e :: es, a :: L =>
      if decide (kind e = returnEntry /\ id e = i) then Some a else find_ret es L i
  | _, _ => None
  end.

(** The nodes at [L] carry the entries [es], a call pointing to its return. *)
Fixpoint linked (h : heap) (es : list (entry V)) (L : list addr) : Prop :=
  match es, L with
  | [], [] => True
  | e :: es', a :: L' =>
      (exists n, h !! a = Some n /\ nvalue n = value e /\ nid n = id e /\
         match_ n = match kind e with
                    | returnEntry => None
                    | callEntry => find_ret es' L' (id e)
                    end) /\ linked h es' L'
  | _, _ => False
  end.

Lemma linked_same h h' es L : same_heap h h' -> linked h es L -> linked h' es L.
Proof.
  intros Hs. revert L. induction es as [|e es IH]; intros [|a L]; cbn [linked]; try done.
  intros [(n & Ha & Hv & Hi & Hm) Hl]. split; [|by apply IH].
  destruct (same_heap_lookup _ _ _ _ Hs Ha) as (n' & Ha' & Hv' & Hm' & Hi').
  exists n'. repeat split; congruence.
Qed.

Lemma linked_app h k es L : linked h es L -> linked (h ++ k) es L.
Proof.
  revert L. induction es as [|e es IH]; intros [|a L]; cbn [linked]; try done.
  intros [(n & Ha & Hrest) Hl]. split; [|by apply IH].
  exists n. split; [|done]. rewrite lookup_app_l; [done|]. by eapply lookup_lt_Some.
Qed.

Lemma insertBefore_head (h : heap) n L :
  prev n = None -> next n = None ->
  dll h None L None -> (forall b, b ∈ L -> b < length h) ->
  exists h', insertBefore (h ++ [n]) (Some (length h)) (hd_ptr L None) = Ret h' /\
    dll h' None (length h :: L) None /\ same_heap (h ++ [n]) h' /\ length h' = S (length h).
Proof.
  intros Hp Hn Hd Hb. set (a := length h).
  assert ((h ++ [n]) !! a = Some n) as Ha by by apply list_lookup_middle.
  assert (length (h ++ [n]) = S (length h)) as Hlen by (rewrite length_app; cbn; lia).
  destruct L as [|r L].
  { exists (h ++ [n]). split; [done|]. split; [by exists n|]. split; [apply same_heap_refl|done]. }
  destruct Hd as (nr & Hr & Hpr & Hnr & Hd). assert (r < a) as Hra by set_solver.
  assert ((h ++ [n]) !! r = Some nr) as Hr' by (rewrite lookup_app_l by lia; done).
  unfold insertBefore. cbn [hd_ptr]. rewrite (load_some _ _ _ Hr'). cbn [rbind].
  rewrite (store_some _ _ _ _ Hr'). cbn [rbind].
  set (h1 := <[r := set_prev (Some a) nr]> (h ++ [n])).
  assert (h1 !! a = Some n) as Ha1 by (subst h1; rewrite list_lookup_insert_ne by lia; done).
  rewrite (store_some _ _ _ _ Ha1). cbn [rbind]. rewrite Hpr.
  eexists. split; [done|]. split; [|split].
  - exists (set_next (Some r) n). split; [by eapply lookup_insert_lt|]. split; [done|].
    split; [done|]. eapply dll_ext with (h := <[r := set_prev (Some a) nr]> h).
    + intros b Hb'. assert (b < a) by set_solver.
      rewrite list_lookup_insert_ne by lia. unfold h1.
      rewrite insert_app_l by lia. apply lookup_app_l. rewrite length_insert. lia.
    + exists (set_prev (Some a) nr). split; [by eapply lookup_insert_lt|].
      split; [done|]. split; [done|].
      destruct (decide (r ∈ L)) as [HrL|HrL]; [|by eapply dll_frame].
      exfalso. apply list_elem_of_split in HrL as (L1 & L2 & ->).
      apply dll_app in Hd as [_ (nr' & Hr2 & Hp2 & _)]. simplify_eq.
      rewrite Hpr in Hp2. unfold last_ptr in Hp2. by destruct (last L1).
  - eapply same_heap_trans; by eapply same_heap_insert.
  - unfold h1. rewrite !length_insert. done.
Qed.

Lemma linked_loop_spec rentries h es L m :
  L = reverse (seq 0 (length h)) ->
  linked h es L -> dll h None L None -> (forall i, m !! i = find_ret es L i) ->
  exists h', linked_loop rentries h (hd_ptr L None) m =
      Ret (hd_ptr (reverse (seq 0 (length h'))) None, h') /\
    length h' = length h + length rentries /\
    linked h' (reverse rentries ++ es) (reverse (seq 0 (length h'))) /\
    dll h' None (reverse (seq 0 (length h'))) None.
Proof.
  revert h es L m. induction rentries as [|e rest IH]; intros h es L m HL Hl Hd Hm.
  { exists h. subst L. cbn. repeat split; [lia|done|done]. }
  set (n := mkNode (value e) (match kind e with returnEntry => None | callEntry => m !! id e end)
                   (id e) None None).
  destruct (insertBefore_head h n L) as (h' & Hins & Hd' & Hs & Hlen); [done|done|done| |].
  { intros b Hb. subst L. apply elem_of_reverse, elem_of_seq in Hb. lia. }
  set (m' := match kind e with returnEntry => <[id e := length h]> m | callEntry => m end).
  destruct (IH h' (e :: es) (length h :: L) m') as (h2 & Hrun & Hlen2 & Hl2 & Hd2).
  - rewrite Hlen, seq_S, reverse_app, <- HL. done.
  - split; [|eapply linked_same, linked_app; done].
    destruct (same_heap_lookup _ _ (length h) n Hs) as (n' & Hn' & Hv & Hm' & Hi);
      [by apply list_lookup_middle|].
    exists n'. split; [done|]. cbn in Hv, Hi, Hm'. rewrite <- Hv, <- Hi, <- Hm', Hm. done.
  - done.
  - intros i. subst m'. cbn [find_ret]. destruct (kind e); case_decide as Hk.
    + by destruct Hk.
    + apply Hm.
    + destruct Hk as [_ ->]. apply lookup_insert_eq.
    + rewrite lookup_insert_ne by naive_solver. apply Hm.
  - exists h2. split; [|split; [|split; [|done]]].
    + subst n m'. unfold linked_loop, alloc; fold linked_loop.
      destruct (kind e); rewrite Hins; exact Hrun.
    + cbn. lia.
    + rewrite reverse_cons, <- app_assoc. exact Hl2.
Qed.

Lemma makeLinkedEntries_spec es :
  exists h, makeLinkedEntries es = Ret (hd_ptr (reverse (seq 0 (length es))) None, h) /\
    linked h es (reverse (seq 0 (length es))) /\
    dll h None (reverse (seq 0 (length es))) None /\ length h = length es.
Proof.
  destruct (linked_loop_spec (reverse es) [] [] [] ∅) as (h & Hrun & Hlen & Hl & Hd); try done.
  rewrite length_reverse in Hlen. cbn in Hlen. rewrite Hlen, reverse_involutive, app_nil_r in *.
  by exists h.
Qed.

End list.
End LList.
