(* ===== verification/Model.v ===== *)
(** Histories and models of porcupine: model.go and the history conversions of
    checker.go ([byTime], [makeEntries], [renumber], [convertEntries],
    [fillDefault]). *)
From S2P Require Import Prelude LinkedList.
Import LList.

Module PModel.

Record Operation {V : Type} := mkOperation {
  op_ClientId : Z;
  Input : V;
  Call : Z;
  Output : V;
  Return : Z;
}.
Arguments Operation : clear implicits.
Arguments mkOperation {V}.

Inductive EventKind := CallEvent | ReturnEvent.

Record Event {V : Type} := mkEvent {
  ev_ClientId : Z;
  Kind : EventKind;
  Value : V;
  Id : Z;
}.
Arguments Event : clear implicits.
Arguments mkEvent {V}.

(** A nil function field is [None].  The functions that a model supplies take
    [interface{}] values and may panic on a failed type assertion. *)
Record Model {V St : Type} := mkModel {
  Partition : option (list (Operation V) -> res (list (list (Operation V))));
  PartitionEvent : option (list (Event V) -> res (list (list (Event V))));
  Init : unit -> St;
  Step : St -> V -> V -> res (bool * St);
  Equal : option (St -> St -> bool);
  DescribeOperation : option (V -> V -> res string);
  DescribeState : option (St -> string);
}.
Arguments Model : clear implicits.
Arguments mkModel {V St}.

Section model.
Context {V St : Type} `{!EqDecision St}.
(** [fmt.Sprintf("%v", _)] on values and on states. *)
Context (fmt_V : V -> string) (fmt_St : St -> string).

Definition NoPartition (history : list (Operation V)) : res (list (list (Operation V))) :=
  Ret [history].
Definition NoPartitionEvent (history : list (Event V)) : res (list (list (Event V))) :=
  Ret [history].
(** Go's [==] on interfaces; it panics when both hold the same type and that type
    cannot be compared.  [St] is a type of states that can be compared. *)
Definition ShallowEqual (state1 state2 : St) : bool := bool_decide (state1 = state2).
Definition DefaultDescribeOperation (input output : V) : res string :=
  Ret (fmt_V input +:+ " -> " +:+ fmt_V output)%string.
Definition DefaultDescribeState (state : St) : string := fmt_St state.

Definition or_default {A} (f : option A) (d : A) : option A :=
  match f with None => Some d | Some _ => f end.

Definition fillDefault (m : Model V St) : Model V St :=
  {| Partition := or_default (Partition m) NoPartition;
     PartitionEvent := or_default (PartitionEvent m) NoPartitionEvent;
     Init := Init m;
     Step := Step m;
     Equal := or_default (Equal m) ShallowEqual;
     DescribeOperation := or_default (DescribeOperation m) DefaultDescribeOperation;
     DescribeState := or_default (DescribeState m) DefaultDescribeState |}.

(** ** Histories as entry lists *)

Definition Less (a b : entry V) : bool := (time a <? time b)%Z.

(** The loop of [makeEntries]: two entries per operation, ids in order. *)
Fixpoint op_entries (history : list (Operation V)) (i : Z) : list (entry V) :=
  match history with
  | [] => []
  | elem :: rest =>
      mkEntry callEntry (Input elem) i (Call elem) (op_ClientId elem) ::
      mkEntry returnEntry (Output elem) i (Return elem) (op_ClientId elem) ::
      op_entries rest (i + 1)
  end.

Definition makeEntries `{!GoSort} (history : list (Operation V)) : list (entry V) :=
  go_sort Less (op_entries history 0).

Fixpoint renumber_loop (events : list (Event V)) (m : gmap Z Z) (i : Z) : list (Event V) :=
  match events with
  | [] => []
  | v :: rest =>
      match m !! Id v with
      | Some r => mkEvent (ev_ClientId v) (Kind v) (Value v) r :: renumber_loop rest m i
      | None => mkEvent (ev_ClientId v) (Kind v) (Value v) i ::
                renumber_loop rest (<[Id v := i]> m) (i + 1)
      end
  end.

Definition renumber (events : list (Event V)) : list (Event V) := renumber_loop events ∅ 0.

Definition convert_kind (k : EventKind) : entryKind :=
  match k with ReturnEvent => returnEntry | CallEvent => callEntry end.

Fixpoint convert_loop (events : list (Event V)) (i : Z) : list (entry V) :=
  match events with
  | [] => []
  | elem :: rest =>
      mkEntry (convert_kind (Kind elem)) (Value elem) (Id elem) i (ev_ClientId elem) ::
      convert_loop rest (i + 1)
  end.

Definition convertEntries (events : list (Event V)) : list (entry V) := convert_loop events 0.

End model.

Inductive CheckResult := Unknown | Ok | Illegal.

#[export] Instance CheckResult_eq_dec : EqDecision CheckResult.
Proof. solve_decision. Defined.

End PModel.
