(* ===== verification/Lin.v ===== *)
(** Linearizability: the specification that the checker is measured against.

    [linearization] is the declarative definition (an order of the operations
    that keeps real-time precedence and that the sequential model accepts);
    [Lin] is its inductive form, which removes one minimal operation at a
    time. *)
From S2P Require Import Prelude LinkedList Model.
Import LList PModel.

Module Linear.
Section spec.
Context {V St : Type} (m : Model V St).

Abbreviation hist := (list (entry V)).

Definition key (e : entry V) : entryKind * Z := (kind e, id e).

(** A complete history: every id is called once and returns once, later. *)
Record wf_history (es : hist) : Prop := {
  wf_keys : NoDup (key <$> es);
  wf_return : forall e, e ∈ es -> kind e = callEntry ->
    exists r, kind r = returnEntry /\ id r = id e /\ before e r es;
  wf_call : forall r, r ∈ es -> kind r = returnEntry ->
    exists e, kind e = callEntry /\ id e = id r /\ before e r es;
}.

(** Ids are the indices of the operations. *)
Definition dense (es : hist) : Prop :=
  forall e, e ∈ es -> (0 <= id e < len es / 2)%Z.

Definition is_call (e : entry V) : Prop := kind e = callEntry.
#[export] Instance is_call_dec e : Decision (is_call e).
Proof. unfold is_call. apply _. Defined.

Definition call_ids (es : hist) : list Z := id <$> filter is_call es.

(** The call and the return entry of an operation. *)
Definition find_entry (k : entryKind) (i : Z) (es : hist) : option (entry V) :=
  snd <$> list_find (fun e => kind e = k /\ id e = i) es.

(** One operation of the sequential model. *)
Definition step_id (es : hist) (st : St) (i : Z) : option St :=
  match find_entry callEntry i es, find_entry returnEntry i es with
  | Some e, Some r =>
      match Step m st (value e) (value r) with
      | Ret (true, st') => Some st'
      | _ => None
      end
  | _, _ => None
  end.

Fixpoint run (es : hist) (st : St) (σ : list Z) : option St :=
  match σ with
  | [] => Some st
  | i :: σ => match step_id es st i with Some st' => run es st' σ | None => None end
  end.

(** Operation [a] returns before operation [b] is called. *)
Definition precedes (es : hist) (a b : Z) : Prop :=
  exists r e, kind r = returnEntry /\ id r = a /\ kind e = callEntry /\ id e = b /\ before r e es.

Record linearization (es : hist) (st : St) (σ : list Z) : Prop := {
  lin_perm : σ ≡ₚ call_ids es;
  lin_order : forall a b, precedes es a b -> before a b σ;
  lin_run : is_Some (run es st σ);
}.

(** A prefix of the search: some operations, in an order that the model
    accepts, each after everything that precedes it in real time. *)
Record partial_linearization (es : hist) (st : St) (σ : list Z) : Prop := {
  par_NoDup : NoDup σ;
  par_ids : forall i, i ∈ σ -> i ∈ call_ids es;
  par_order : forall a b, b ∈ σ -> precedes es a b -> before a b σ;
  par_run : is_Some (run es st σ);
}.

Definition linearizable (es : hist) : Prop := exists σ, linearization es (Init m tt) σ.

(** ** The inductive form *)

(** The history without the operations of [s]. *)
Definition without (s : list Z) (es : hist) : hist := filter (fun e => id e ∉ s) es.

Inductive Lin : hist -> St -> list Z -> Prop :=
| Lin_nil st : Lin [] st []
| Lin_step es A e C r st st' σ :
    es = A ++ e :: C -> Forall is_call A -> is_call e ->
    r ∈ es -> kind r = returnEntry -> id r = id e ->
    Step m st (value e) (value r) = Ret (true, st') ->
    Lin (without [id e] es) st' σ ->
    Lin es st (id e :: σ).

Lemma key_eq es e e' : NoDup (key <$> es) -> e ∈ es -> e' ∈ es -> key e = key e' -> e = e'.
Proof.
  intros Hnd He He' Hk. apply list_elem_of_lookup in He as [p Hp], He' as [q Hq].
  assert (p = q) as ->; [|congruence].
  eapply NoDup_lookup; [exact Hnd| |]; rewrite list_lookup_fmap.
  - by rewrite Hp.
  - rewrite Hq. cbn. by rewrite Hk.
Qed.

Lemma wf_NoDup es : NoDup (key <$> es) -> NoDup es.
Proof. apply NoDup_fmap_1. Qed.

Lemma find_entry_some es k i e :
  NoDup (key <$> es) -> e ∈ es -> kind e = k -> id e = i -> find_entry k i es = Some e.
Proof.
  intros Hnd He Hk Hi. unfold find_entry.
  destruct (list_find _ es) as [[p e']|] eqn:E; cbn.
  - apply list_find_Some in E as (Hp & [Hk' Hi'] & _). f_equal.
    eapply key_eq; [done|by eapply list_elem_of_lookup_2|done|]. unfold key. congruence.
  - eapply list_find_None in E. rewrite Forall_forall in E. exfalso. by apply (E e).
Qed.

Lemma find_entry_inv es k i e : find_entry k i es = Some e -> e ∈ es /\ kind e = k /\ id e = i.
Proof.
  unfold find_entry. intros ([p e'] & E & ->)%fmap_Some. cbn.
  apply list_find_Some in E as (Hp & ? & _). split; [by eapply list_elem_of_lookup_2|done].
Qed.

Lemma elem_of_without s es e : e ∈ without s es <-> e ∈ es /\ id e ∉ s.
Proof. unfold without. rewrite list_elem_of_filter. tauto. Qed.

Lemma wf_without s es : wf_history es -> wf_history (without s es).
Proof.
  intros [Hk Hr Hc]. split.
  - eapply sublist_NoDup; [exact Hk|]. apply fmap_sublist, sublist_filter.
  - intros e [He Hs]%elem_of_without Hcall. destruct (Hr e He Hcall) as (r & ? & Hid & Hb).
    exists r. split; [done|]. split; [done|]. apply before_filter_intro; congruence.
  - intros r [Hr' Hs]%elem_of_without Hret. destruct (Hc r Hr' Hret) as (e & ? & Hid & Hb).
    exists e. split; [done|]. split; [done|]. apply before_filter_intro; congruence.
Qed.

Lemma find_entry_without s es k i :
  i ∉ s -> find_entry k i (without s es) = find_entry k i es.
Proof.
  intros Hi. unfold find_entry, without. induction es as [|e es IH]; [done|].
  assert (forall o : option (nat * entry V), snd <$> (prod_map S (fun x => x) <$> o) = snd <$> o)
    as Hshift by by intros [[??]|].
  rewrite filter_cons. case_decide as He; cbn [list_find].
  - case_decide; [done|]. etrans; [apply Hshift|]. etrans; [apply IH|]. symmetry. apply Hshift.
  - rewrite (decide_False (P := kind e = k /\ id e = i)) by naive_solver.
    etrans; [apply IH|]. symmetry. apply Hshift.
Qed.

Lemma step_id_without s es st i : i ∉ s -> step_id (without s es) st i = step_id es st i.
Proof. intros Hi. unfold step_id. by rewrite !find_entry_without. Qed.

Lemma run_without s es st σ : (forall i, i ∈ σ -> i ∉ s) -> run (without s es) st σ = run es st σ.
Proof.
  revert st. induction σ as [|i σ IH]; intros st Hs; [done|]. cbn.
  rewrite step_id_without by set_solver. destruct (step_id es st i); [|done]. apply IH. set_solver.
Qed.

Lemma run_app es st σ1 σ2 :
  run es st (σ1 ++ σ2) = match run es st σ1 with Some st' => run es st' σ2 | None => None end.
Proof.
  revert st. induction σ1 as [|i σ1 IH]; intros st; [done|]. cbn.
  destruct (step_id es st i); [apply IH|done].
Qed.

Lemma step_id_entries es st i e r :
  NoDup (key <$> es) -> e ∈ es -> is_call e -> id e = i ->
  r ∈ es -> kind r = returnEntry -> id r = i ->
  step_id es st i = match Step m st (value e) (value r) with Ret (true, st') => Some st' | _ => None end.
Proof.
  intros. unfold step_id. rewrite (find_entry_some es callEntry i e) by done.
  by rewrite (find_entry_some es returnEntry i r) by done.
Qed.

Lemma elem_of_call_ids es i : i ∈ call_ids es <-> exists e, e ∈ es /\ is_call e /\ id e = i.
Proof.
  unfold call_ids. rewrite list_elem_of_fmap. setoid_rewrite list_elem_of_filter. naive_solver.
Qed.

Lemma call_ids_NoDup es : NoDup (key <$> es) -> NoDup (call_ids es).
Proof.
  unfold call_ids. induction es as [|e es IH]; [intros _; constructor|]. rewrite fmap_cons. intros [Hk Hnd]%NoDup_cons.
  rewrite filter_cons. case_decide as He; [|auto]. cbn. apply NoDup_cons. split; [|auto].
  rewrite list_elem_of_fmap. intros (e' & Hid & [He' Hin]%list_elem_of_filter). apply Hk.
  apply list_elem_of_fmap. exists e'. split; [|done]. unfold key. unfold is_call in *. congruence.
Qed.

Lemma elem_of_call_ids_without s es i :
  i ∈ call_ids (without s es) <-> i ∈ call_ids es /\ i ∉ s.
Proof.
  rewrite !elem_of_call_ids. split.
  - intros (e & [He Hs]%elem_of_without & Hc & <-). split; [by exists e|done].
  - intros [(e & He & Hc & <-) Hs]. exists e. by rewrite elem_of_without.
Qed.

Lemma call_ids_without es i :
  NoDup (key <$> es) -> i ∈ call_ids es -> call_ids es ≡ₚ i :: call_ids (without [i] es).
Proof.
  intros Hnd Hi. apply NoDup_Permutation.
  - by apply call_ids_NoDup.
  - apply NoDup_cons. rewrite elem_of_call_ids_without. split; [set_solver|].
    apply call_ids_NoDup. eapply sublist_NoDup; [exact Hnd|]. apply fmap_sublist, sublist_filter.
  - intros j. rewrite elem_of_cons, elem_of_call_ids_without.
    destruct (decide (j = i)) as [->|]; set_solver.
Qed.

Lemma precedes_without s es a b :
  a ∉ s -> b ∉ s -> precedes es a b -> precedes (without s es) a b.
Proof.
  intros Ha Hb (r & e & ? & <- & ? & <- & Hbe). exists r, e.
  split_and!; [done|done|done|done|]. by apply before_filter_intro.
Qed.

Lemma precedes_without_inv s es a b :
  precedes (without s es) a b -> a ∉ s /\ b ∉ s /\ precedes es a b.
Proof.
  intros (r & e & ? & <- & ? & <- & Hb).
  destruct (before_elem _ _ _ Hb) as [[_ ?]%elem_of_without [_ ?]%elem_of_without].
  split; [done|]. split; [done|]. exists r, e. split_and!; try done. by eapply before_filter.
Qed.

Lemma Lin_linearization es st σ : wf_history es -> Lin es st σ -> linearization es st σ.
Proof.
  intros Hwf HL. induction HL as [st|es A e C r st st' σ Hes HA He Hr Hret Hid Hstep HL IH].
  { split; [done| |by exists st]. intros a b (? & ? & ? & ? & ? & ? & Hb). by apply before_nil in Hb. }
  pose proof Hwf as [Hk _ _]. destruct (IH (wf_without _ _ Hwf)) as [Hp Ho Hrun].
  assert (e ∈ es) as Hein by set_solver.
  assert (id e ∈ call_ids es) as Hcall by (apply elem_of_call_ids; eauto).
  assert (call_ids es ≡ₚ id e :: σ) as Hperm by (rewrite Hp; by apply call_ids_without).
  assert (forall j, j ∈ σ -> j ∉ [id e]) as Hfresh.
  { intros j Hj. rewrite Hp in Hj. by apply elem_of_call_ids_without in Hj as [_ ?]. }
  split; [done| |].
  - intros a b Hab. assert (b <> id e) as Hbe.
    { intros ->. destruct Hab as (r' & e' & Hr' & _ & He' & Heid & Hb).
      destruct (before_elem _ _ _ Hb) as [_ He'in].
      assert (e' = e) as -> by (eapply key_eq; eauto; unfold key; unfold is_call in *; congruence).
      rewrite Hes in Hb. apply before_split in Hb; [|rewrite <- Hes; by apply wf_NoDup].
      rewrite Forall_forall in HA. specialize (HA r' Hb). unfold is_call in HA. congruence. }
    assert (b ∈ call_ids es) as Hb.
    { destruct Hab as (r' & e' & _ & _ & He' & <- & Hb). apply before_elem in Hb as [_ ?].
      apply elem_of_call_ids. eauto. }
    apply before_cons. destruct (decide (a = id e)) as [->|Hae].
    + left. split; [done|]. rewrite Hperm in Hb. set_solver.
    + right. apply Ho, precedes_without; set_solver.
  - cbn. rewrite (step_id_entries es st (id e) e r), Hstep by done.
    rewrite <- (run_without [id e]) by done. done.
Qed.

Lemma linearization_Lin es st σ : wf_history es -> linearization es st σ -> Lin es st σ.
Proof.
  revert es st. induction σ as [|i σ IH]; intros es st Hwf [Hp Ho Hrun];
    pose proof Hwf as [Hk Hret Hcall].
  { destruct es as [|e es]; [constructor|]. exfalso.
    assert (exists i, i ∈ call_ids (e :: es)) as [i Hi].
    { destruct (kind e) eqn:Hke.
      - exists (id e). apply elem_of_call_ids. exists e. split; [set_solver|done].
      - destruct (Hcall e) as (c & Hkc & Hic & Hb); [set_solver|done|].
        exists (id c). apply elem_of_call_ids. exists c. apply before_elem in Hb as [? ?]. done. }
    rewrite <- Hp in Hi. set_solver. }
  assert (NoDup (i :: σ)) as Hnd by (rewrite Hp; by apply call_ids_NoDup).
  apply NoDup_cons in Hnd as [Hiσ Hndσ].
  assert (i ∈ call_ids es) as Hi by (rewrite <- Hp; set_solver).
  pose proof Hi as (e & Hein & He & Hide)%elem_of_call_ids.
  destruct (Hret e Hein He) as (r & Hkr & Hidr & Hbr).
  destruct (before_elem _ _ _ Hbr) as [_ Hrin].
  destruct (list_elem_of_split _ _ Hein) as (A & C & Hes).
  cbn in Hrun. rewrite (step_id_entries es st i e r) in Hrun by (done || congruence).
  destruct (Step m st (value e) (value r)) as [[[|] st']|] eqn:Hstep; [|by destruct Hrun..].
  subst i. eapply Lin_step; try done.
  - apply Forall_forall. intros x Hx. unfold is_call. destruct (kind x) eqn:Hkx; [done|]. exfalso.
    assert (before (id x) (id e) (id e :: σ)) as Hb.
    { apply Ho. exists x, e. split_and!; try done. rewrite Hes. apply before_split; [|done].
      rewrite <- Hes. by apply wf_NoDup. }
    apply before_cons in Hb as [[_ ?]|Hb]; [done|]. by apply before_elem in Hb as [_ ?].
  - apply IH; [by apply wf_without|]. split.
    + apply (Permutation_cons_inv (a := id e)). rewrite Hp. by apply call_ids_without.
    + intros a b (Ha & Hb & Hab)%precedes_without_inv. apply Ho in Hab.
      apply before_cons in Hab as [[-> _]|?]; [set_solver|done].
    + rewrite run_without; [done|]. set_solver.
Qed.

(** Half of a complete history are calls. *)
Lemma call_ids_length es : wf_history es -> length es = 2 * length (call_ids es).
Proof.
  intros Hwf. pose proof (wf_keys es Hwf) as Hk.
  set (rets := id <$> filter (fun e => ~ is_call e) es).
  assert (call_ids es ≡ₚ rets) as Hcr.
  { apply NoDup_Permutation.
    - by apply call_ids_NoDup.
    - assert (forall l, NoDup (key <$> l) -> NoDup (id <$> filter (fun e : entry V => ~ is_call e) l)) as Hn.
      { clear. induction l as [|e l IH]; [intros; constructor|]. rewrite fmap_cons.
        intros [Hke Hnd]%NoDup_cons. rewrite filter_cons. case_decide as He; [|auto].
        rewrite fmap_cons. apply NoDup_cons. split; [|auto]. intros Hin. apply Hke.
        apply list_elem_of_fmap in Hin as (e' & Hid & [He' Hin]%list_elem_of_filter).
        apply list_elem_of_fmap. exists e'. split; [|done]. unfold key. unfold is_call in *.
        f_equal; [|done]. by destruct (kind e), (kind e'). }
      by apply Hn.
    - intros i. rewrite elem_of_call_ids. subst rets. rewrite list_elem_of_fmap.
      setoid_rewrite list_elem_of_filter. split.
      + intros (e & He & Hc & <-). destruct (wf_return _ Hwf e He Hc) as (r & Hr & Hid & Hb).
        exists r. split; [done|]. split; [unfold is_call; congruence|]. by apply before_elem in Hb as [_ ?].
      + intros (r & -> & Hr & Hin). assert (kind r = returnEntry) as Hkr
          by (unfold is_call in Hr; by destruct (kind r)).
        destruct (wf_call _ Hwf r Hin Hkr) as (e & He & Hid & Hb). exists e.
        apply before_elem in Hb as [? _]. done. }
  assert (length es = length (call_ids es) + length rets) as Hlen.
  { subst rets. unfold call_ids. rewrite !length_fmap. clear. induction es as [|e l IH]; [done|].
    rewrite !filter_cons. repeat case_decide; cbn; try tauto; lia. }
  rewrite <- Hcr in Hlen. lia.
Qed.

Lemma Lin_iff es st σ : wf_history es -> Lin es st σ <-> linearization es st σ.
Proof. split; [by apply Lin_linearization|by apply linearization_Lin]. Qed.

End spec.
End Linear.
