(* ===== verification/Checker.v ===== *)
(** The linearizability checker of porcupine/checker.go: [cacheContains] and
    [checkSingle].

    A [checker] is the set of local variables of [checkSingle].  The bitset
    [linearized] is updated in place by the source, but every other bitset it
    stores is a fresh clone, so bitsets are plain values here.  The [*[]int]
    pointers of [longest] are indices into [seqs], the slices allocated so
    far, because [checkParallel] compares these pointers. *)
From S2P Require Import Prelude Bitset LinkedList Model.
Import LList PModel.

Module Check.

Record cacheEntry {St : Type} := mkCacheEntry {
  linearized : Bits.bitset;
  cache_state : St;
}.
Arguments cacheEntry : clear implicits.
Arguments mkCacheEntry {St}.

Record callsEntry {St : Type} := mkCallsEntry {
  call_entry : ptr;
  call_state : St;
}.
Arguments callsEntry : clear implicits.
Arguments mkCallsEntry {St}.

Record checker {V St : Type} := mkChecker {
  nodes : list (node V);
  cur : ptr;
  lin : Bits.bitset;
  cache : gmap Z (list (cacheEntry St));
  calls : list (callsEntry St);
  state : St;
  longest : list (option nat);
  seqs : list (list Z);
}.
Arguments checker : clear implicits.
Arguments mkChecker {V St}.

(** One iteration continues the loop or returns from [checkSingle]. *)
Inductive ctl {V St : Type} :=
| Continue (c : checker V St)
| Finish (ok : bool) (c : checker V St).
Arguments ctl : clear implicits.

Section checker.
Context {V St : Type} (vnil : V).

Fixpoint bucket_contains (equal : option (St -> St -> bool)) (bucket : list (cacheEntry St))
    (e : cacheEntry St) : res bool :=
  match bucket with
  | [] => Ret false
  | elem :: rest =>
      if Bits.equals (linearized e) (linearized elem) then
        match equal with
        | None => Panic
        | Some eq => if eq (cache_state e) (cache_state elem) then Ret true
                     else bucket_contains equal rest e
        end
      else bucket_contains equal rest e
  end.

Definition cacheContains (m : Model V St) (cache : gmap Z (list (cacheEntry St)))
    (e : cacheEntry St) : res bool :=
  bucket_contains (Equal m) (default [] (cache !! Bits.hash (linearized e))) e.

(** [for i, v := range calls { seq[i] = v.entry.id }] *)
Fixpoint call_seq (h : list (node V)) (calls : list (callsEntry St)) : res (list Z) :=
  match calls with
  | [] => Ret []
  | v :: rest =>
      let! n := load h (call_entry v) in
      let! ids := call_seq h rest in
      Ret (nid n :: ids)
  end.

(** The loop that records the current calls as the longest linearization of
    each of their operations; [seqp] is the lazily created [seq]. *)
Fixpoint longest_loop (h : list (node V)) (calls todo : list (callsEntry St))
    (longest : list (option nat)) (seqs : list (list Z)) (seqp : option nat)
    : res (list (option nat) * list (list Z)) :=
  match todo with
  | [] => Ret (longest, seqs)
  | v :: rest =>
      let! n := load h (call_entry v) in
      let! old := go_index longest (nid n) in
      let! shorter := match old with
                      | None => Ret true
                      | Some p => let! sq := go_index seqs (Z.of_nat p) in
                                  Ret (len sq <? len calls)%Z
                      end in
      if shorter then
        let! seqs_p := match seqp with
                       | Some p => Ret (seqs, p)
                       | None => let! ids := call_seq h calls in
                                 Ret (seqs ++ [ids], length seqs)
                       end in
        let! longest := go_set longest (nid n) (Some (snd seqs_p)) in
        longest_loop h calls rest longest (fst seqs_p) (Some (snd seqs_p))
      else longest_loop h calls rest longest seqs seqp
  end.

(** One test of the loop condition and one execution of the loop body;
    [killed] is the value of [atomic.LoadInt32(kill) != 0]. *)
Definition check_iter (m : Model V St) (computePartial killed : bool) (headEntry : ptr)
    (c : checker V St) : res (ctl V St) :=
  let! hd := load (nodes c) headEntry in
  match next hd with
  | None =>
      let! ids := call_seq (nodes c) (calls c) in
      let p := length (seqs c) in
      Ret (Finish true (mkChecker (nodes c) (cur c) (lin c) (cache c) (calls c) (state c)
             (replicate (length (longest c)) (Some p)) (seqs c ++ [ids])))
  | Some _ =>
      if killed then Ret (Finish false c) else
      let! en := load (nodes c) (cur c) in
      let advance := Ret (Continue (mkChecker (nodes c) (next en) (lin c) (cache c) (calls c)
                                      (state c) (longest c) (seqs c))) in
      match match_ en with
      | Some _ =>
          let! matching := load (nodes c) (match_ en) in
          let! (ok, newState) := Step m (state c) (nvalue en) (nvalue matching) in
          if ok then
            let! newLinearized := Bits.set (Bits.clone (lin c)) (uint_of_int (nid en)) in
            let newCacheEntry := mkCacheEntry newLinearized newState in
            let! hit := cacheContains m (cache c) newCacheEntry in
            if negb hit then
              let hash := Bits.hash newLinearized in
              let cache' := <[hash := default [] (cache c !! hash) ++ [newCacheEntry]]> (cache c) in
              let calls' := calls c ++ [mkCallsEntry (cur c) (state c)] in
              let! lin' := Bits.set (lin c) (uint_of_int (nid en)) in
              let! nodes' := lift (nodes c) (cur c) in
              let! hd' := load nodes' headEntry in
              Ret (Continue (mkChecker nodes' (next hd') lin' cache' calls' newState
                               (longest c) (seqs c)))
            else advance
          else advance
      | None =>
          if (len (calls c) =? 0)%Z then Ret (Finish false c) else
          let! ls := if computePartial
                     then longest_loop (nodes c) (calls c) (calls c) (longest c) (seqs c) None
                     else Ret (longest c, seqs c) in
          let! callsTop := go_index (calls c) (len (calls c) - 1) in
          let entry := call_entry callsTop in
          let! en := load (nodes c) entry in
          let! lin' := Bits.clear (lin c) (uint_of_int (nid en)) in
          let! calls' := go_to (calls c) (len (calls c) - 1) in
          let! nodes' := unlift (nodes c) entry in
          let! en := load nodes' entry in
          Ret (Continue (mkChecker nodes' (next en) lin' (cache c) calls' (call_state callsTop)
                           (fst ls) (snd ls)))
      end
  end.

(** The loop; [kill i] is the kill flag seen by iteration [i]. *)
Fixpoint check_loop (fuel : nat) (m : Model V St) (computePartial : bool) (kill : nat -> bool)
    (headEntry : ptr) (i : nat) (c : checker V St) : option (res (bool * checker V St)) :=
  match fuel with
  | O => None
  | S fuel =>
      match check_iter m computePartial (kill i) headEntry c with
      | Ret (Continue c') => check_loop fuel m computePartial kill headEntry (S i) c'
      | Ret (Finish ok c') => Some (Ret (ok, c'))
      | Panic => Some Panic
      end
  end.

(** The code before the loop: the initial variables and the head entry. *)
Definition check_init (m : Model V St) (history : list (entry V)) :
    option (res (checker V St * ptr)) :=
  match makeLinkedEntries history with
  | Panic => Some Panic
  | Ret (e, h) =>
      match length_list h e with
      | None => None
      | Some Panic => Some Panic
      | Some (Ret l) =>
          let n := (l / 2)%Z in
          let linearized := Bits.newBitset (uint_of_int n) in
          let longest := go_make n None in
          let '(headEntry, h) := alloc h vnil None (-1)%Z in
          Some (let! h := insertBefore h (Some headEntry) e in
                Ret (mkChecker h e linearized ∅ [] (Init m tt) longest [], Some headEntry))
      end
  end.

(** [checkSingle]: the verdict, and [longest] with the slices it points to.
    [None] means that the fuel ran out. *)
Definition checkSingle (fuel : nat) (m : Model V St) (history : list (entry V))
    (computePartial : bool) (kill : nat -> bool)
    : option (res (bool * list (option nat) * list (list Z))) :=
  match check_init m history with
  | None => None
  | Some Panic => Some Panic
  | Some (Ret (c, headEntry)) =>
      match check_loop fuel m computePartial kill headEntry 0 c with
      | None => None
      | Some Panic => Some Panic
      | Some (Ret (ok, c')) => Some (Ret (ok, longest c', seqs c'))
      end
  end.

End checker.

(** ** How much fuel is enough

    [words ids k] lists the sequences of at most [k] elements of [ids].  Every
    cache entry comes from a different sequence of operations, so
    [length (words ids n)] bounds the number of cache insertions. *)
Fixpoint words (ids : list Z) (k : nat) : list (list Z) :=
  match k with
  | O => [[]]
  | S k => [] :: flat_map (fun i => map (cons i) (words ids k)) ids
  end.

Definition op_ids (n : nat) : list Z := Z.of_nat <$> seq 0 n.

Definition check_fuel {V} (history : list (entry V)) : nat :=
  let n := Nat.div2 (length history) in
  S (length (words (op_ids n) n) * (2 * length history + 2) + length history).

End Check.
