(* ===== verification/CheckerProofs.v ===== *)
(** Correctness of [checkSingle]: soundness, completeness and termination
    against the specification of Lin.v, and validity of the partial
    linearizations it reports. *)
From S2P Require Import Prelude Bitset LinkedList Model Lin Checker.
Import LList PModel Linear Check.

Module CheckOk.

(** [Equal] must be a congruence for [Step]; [ShallowEqual] always is. *)
Record model_ok {V St} (m : Model V St) (eqf : St -> St -> bool) : Prop := {
  ok_equal : Equal m = Some eqf;
  ok_refl : forall s, eqf s s = true;
  ok_step : forall s1 s2 i o, eqf s1 s2 = true ->
    match Step m s1 i o, Step m s2 i o with
    | Ret (b1, t1), Ret (b2, t2) => b1 = b2 /\ eqf t1 t2 = true
    | Panic, Panic => True
    | _, _ => False
    end;
}.

(** [Step] does not panic on the values of the history (its type assertions
    succeed). *)
Definition step_safe {V St} (m : Model V St) (es : list (entry V)) : Prop :=
  forall st e r, e ∈ es -> is_call e -> r ∈ es -> kind r = returnEntry ->
    Step m st (value e) (value r) <> Panic.

(** ** Generic list lemmas *)

Lemma filter_true {A} (P : A -> Prop) `{forall x, Decision (P x)} l : Forall P l -> filter P l = l.
Proof. induction 1 as [|x l Hx _ IH]; [done|]. by rewrite filter_cons_True, IH. Qed.

Lemma filter_snd {A B} (P : B -> Prop) `{HP : forall x, Decision (P x)}
    `{HP' : forall x : A * B, Decision (P x.2)} (l : list (A * B)) :
  (filter (fun x => P x.2) l).*2 = filter P l.*2.
Proof.
  induction l as [|[a b] l IH]; [done|]. rewrite fmap_cons, !filter_cons. cbn [snd].
  repeat case_decide; cbn in *; try done. f_equal. apply IH.
Qed.

Lemma NoDup_words ids k (l : list Z) :
  NoDup l -> (forall i, i ∈ l -> i ∈ ids) -> length l <= k -> l ∈ words ids k.
Proof.
  revert l. induction k as [|k IH]; intros l Hnd Hin Hl.
  - destruct l; [set_solver|cbn in Hl; lia].
  - destruct l as [|i l]; cbn [words]; [set_solver|]. apply elem_of_cons. right.
    apply list_elem_of_In, in_flat_map. exists i. split; [apply list_elem_of_In; set_solver|].
    apply in_map, list_elem_of_In, IH; [by apply NoDup_cons in Hnd as [_ ?]|set_solver|cbn in Hl; lia].
Qed.

Section proof.
Context {V St : Type} (m : Model V St) (eqf : St -> St -> bool) (Hm : model_ok m eqf).
Context (es : list (entry V)) (Hwf : wf_history es) (Hdense : dense es).
Context (Hsmall : (len es < 2 ^ 63)%Z).
Context (Hsafe : step_safe m es).
Context (h0 : list (node V)).

Definition L0 : list addr := reverse (seq 0 (length es)).
Definition head : addr := length es.
Definition pairs : list (addr * entry V) := zip L0 es.

Context (Hlinked : linked h0 es L0) (Hdll : dll h0 None (head :: L0) None).

Definition rem (s : list Z) : list (addr * entry V) := filter (fun x => id x.2 ∉ s) pairs.

Lemma L0_length : length L0 = length es.
Proof. unfold L0. by rewrite length_reverse, length_seq. Qed.

Lemma pairs_snd : pairs.*2 = es.
Proof. unfold pairs. apply snd_zip. by rewrite L0_length. Qed.
Lemma pairs_fst : pairs.*1 = L0.
Proof. unfold pairs. apply fst_zip. by rewrite L0_length. Qed.

Lemma rem_snd s : (rem s).*2 = without s es.
Proof. unfold rem, without. rewrite (filter_snd (fun e => id e ∉ s)). by rewrite pairs_snd. Qed.

Lemma rem_nil : rem [] = pairs.
Proof. apply filter_true, Forall_forall. set_solver. Qed.

Lemma elem_of_rem s x : x ∈ rem s <-> x ∈ pairs /\ id x.2 ∉ s.
Proof. unfold rem. rewrite list_elem_of_filter. tauto. Qed.

Lemma rem_snoc s i : rem (s ++ [i]) = filter (fun x => id x.2 <> i) (rem s).
Proof.
  unfold rem. rewrite list_filter_filter. apply list_filter_iff. intros x. set_solver.
Qed.

Lemma rem_perm s s' : (forall i, i ∈ s <-> i ∈ s') -> rem s = rem s'.
Proof. intros Hs. unfold rem. apply list_filter_iff. intros x. by rewrite Hs. Qed.

Lemma without_snoc s i : without [i] (without s es) = without (s ++ [i]) es.
Proof. unfold without. rewrite list_filter_filter. apply list_filter_iff. set_solver. Qed.

Lemma pairs_entry x : x ∈ pairs -> x.2 ∈ es.
Proof. intros Hx. rewrite <- pairs_snd. by apply list_elem_of_fmap_2. Qed.

Lemma pairs_key x y : x ∈ pairs -> y ∈ pairs -> key x.2 = key y.2 -> x = y.
Proof.
  intros Hx Hy Hk. assert (NoDup (key ∘ snd <$> pairs)) as Hnd.
  { rewrite list_fmap_compose, pairs_snd. apply Hwf. }
  apply list_elem_of_lookup in Hx as [p Hp], Hy as [q Hq].
  assert (p = q) as ->; [|congruence].
  eapply NoDup_lookup; [exact Hnd| |]; rewrite list_lookup_fmap.
  - by rewrite Hp.
  - rewrite Hq. cbn. by rewrite Hk.
Qed.

Lemma pairs_NoDup : NoDup pairs.
Proof. apply (NoDup_fmap_1 snd). rewrite pairs_snd. apply wf_NoDup, Hwf. Qed.

Lemma rem_NoDup s : NoDup (rem s).
Proof. apply NoDup_filter, pairs_NoDup. Qed.

Lemma rem_addr_NoDup s : NoDup (head :: (rem s).*1).
Proof.
  eapply (sublist_NoDup _ (head :: L0)).
  - apply NoDup_cons. split.
    + unfold L0, head. rewrite elem_of_reverse, elem_of_seq. lia.
    + unfold L0. rewrite reverse_Permutation. apply NoDup_seq.
  - apply sublist_skip. rewrite <- pairs_fst. apply fmap_sublist, sublist_filter.
Qed.

(** ** The nodes carry the entries *)

Definition node_data (h : list (node V)) (x : addr * entry V) : Prop :=
  exists nd, h !! x.1 = Some nd /\ nvalue nd = value x.2 /\ nid nd = id x.2 /\
    (is_call x.2 -> exists y : addr * entry V, match_ nd = Some y.1 /\ y ∈ pairs /\ kind y.2 = returnEntry /\
                                id y.2 = id x.2) /\
    (kind x.2 = returnEntry -> match_ nd = None).

Lemma find_ret_zip (es' : list (entry V)) L (r : entry V) i :
  length L = length es' -> r ∈ es' -> kind r = returnEntry -> id r = i ->
  exists y : addr * entry V, find_ret es' L i = Some y.1 /\ y ∈ zip L es' /\ kind y.2 = returnEntry /\ id y.2 = i.
Proof.
  revert L. induction es' as [|e es' IH]; intros [|a L]; [set_solver..|]. cbn [length].
  intros [= Hl] Hr Hk Hi. cbn [find_ret]. case_decide as He.
  - exists (a, e). split; [done|]. split; [set_solver|done].
  - apply elem_of_cons in Hr as [->|Hr]; [naive_solver|].
    destruct (IH L Hl Hr Hk Hi) as (y & ? & ? & ?). exists y. split; [done|]. split; [set_solver|done].
Qed.

Lemma linked_node h es' L x :
  linked h es' L -> length L = length es' -> NoDup (key <$> es') ->
  (forall e, e ∈ es' -> is_call e -> exists r : entry V, kind r = returnEntry /\ id r = id e /\ before e r es') ->
  x ∈ zip L es' ->
  exists nd, h !! x.1 = Some nd /\ nvalue nd = value x.2 /\ nid nd = id x.2 /\
    (is_call x.2 -> exists y : addr * entry V, match_ nd = Some y.1 /\ y ∈ zip L es' /\ kind y.2 = returnEntry /\
                                id y.2 = id x.2) /\
    (kind x.2 = returnEntry -> match_ nd = None).
Proof.
  revert L. induction es' as [|e es' IH]; intros [|a L]; [set_solver..|].
  intros [(nd & Ha & Hv & Hi & Hmt) Hl] [= Hlen] Hnd Hret. cbn [zip zip_with].
  pose proof Hnd as [Hk Hnd']%NoDup_cons.
  rewrite elem_of_cons. intros [->|Hx].
  - exists nd. cbn [fst snd]. split_and!; [done|done|done| |].
    + intros Hc. destruct (Hret e) as (r & Hkr & Hir & Hb); [set_solver|done|].
      apply before_cons in Hb as [[_ Hr]|Hb].
      * destruct (find_ret_zip es' L r (id e)) as (y & Hy & Hin & ?); try done.
        exists y. unfold is_call in Hc. rewrite Hc in Hmt. split; [congruence|].
        split; [by apply elem_of_cons; right|done].
      * apply before_elem in Hb as [He _]. exfalso. apply Hk. by apply list_elem_of_fmap_2.
    + intros Hc. by rewrite Hc in Hmt.
  - destruct (IH L Hl Hlen Hnd') as (nd' & ? & ? & ? & Hc' & ?); [|done|].
    + intros e' He' Hc. destruct (Hret e') as (r & ? & ? & Hb); [set_solver|done|].
      exists r. split; [done|]. split; [done|]. apply before_cons in Hb as [[-> _]|Hb]; [|done].
      exfalso. apply Hk. by apply list_elem_of_fmap_2.
    + exists nd'. split_and!; try done. intros Hc. destruct (Hc' Hc) as (y & ? & ? & ?).
      exists y. split; [done|]. split; [by apply elem_of_cons; right|done].
Qed.

Lemma node_data_init x : x ∈ pairs -> node_data h0 x.
Proof.
  intros Hx. apply (linked_node h0 es L0 x); [done|apply L0_length|apply Hwf| |done].
  intros e He Hc. by apply Hwf.
Qed.

Lemma node_data_same h x : same_heap h0 h -> x ∈ pairs -> node_data h x.
Proof.
  intros Hs Hx. destruct (node_data_init x Hx) as (nd & Ha & ? & ? & Hc & Hr).
  destruct (same_heap_lookup _ _ _ _ Hs Ha) as (nd' & Ha' & ? & Hmm & ?).
  exists nd'. split_and!; [done|congruence|congruence| |].
  - intros Hcall. destruct (Hc Hcall) as (y & ? & ?). exists y. split; [congruence|done].
  - intros Hret. rewrite <- Hmm. auto.
Qed.

(** ** Lifting an operation off the remaining list *)

Lemma rem_split s A a e D y :
  rem s = A ++ (a, e) :: D -> Forall (fun x => is_call x.2) A -> is_call e ->
  y ∈ pairs -> kind y.2 = returnEntry -> id y.2 = id e ->
  exists B C, D = B ++ y :: C /\ rem (s ++ [id e]) = A ++ B ++ C.
Proof.
  intros Hrem HA He Hy Hky Hidy. pose proof (rem_NoDup s) as Hnd. rewrite Forall_forall in HA.
  assert ((a, e) ∈ rem s) as [Hae Hes]%elem_of_rem by (rewrite Hrem; set_solver).
  assert (y ∈ rem s) as Hyr by (apply elem_of_rem; by rewrite Hidy).
  rewrite Hrem, elem_of_app, elem_of_cons in Hyr. destruct Hyr as [Hyr|[->|Hyr]].
  { specialize (HA y Hyr). unfold is_call in HA. congruence. }
  { cbn in Hky. unfold is_call in He. congruence. }
  apply list_elem_of_split in Hyr as (B & C & ->). exists B, C. split; [done|].
  assert (forall x, x ∈ rem s -> x <> (a, e) -> x <> y -> id x.2 <> id e) as Hother.
  { intros x [Hx _]%elem_of_rem Hxe Hxy Hid. destruct (kind x.2) eqn:Hk.
    - apply Hxe, pairs_key; [done|done|]. unfold key. unfold is_call in He. cbn. congruence.
    - apply Hxy, pairs_key; [done|done|]. unfold key. congruence. }
  rewrite rem_snoc. rewrite Hrem in Hnd, Hother |- *.
  rewrite filter_app, filter_cons_False by (intros Hne; by apply Hne).
  rewrite filter_app, filter_cons_False by (intros Hne; by apply Hne).
  apply NoDup_app in Hnd as (_ & HdA & [HeD [_ [HdB [HyC _]%NoDup_cons]]%NoDup_app]%NoDup_cons).
  rewrite !filter_true; [done|..]; apply Forall_forall; intros x Hx; apply Hother; set_solver.
Qed.

Lemma lift_rem h s A a e D :
  dll h None (head :: (rem s).*1) None -> same_heap h0 h ->
  rem s = A ++ (a, e) :: D -> Forall (fun x => is_call x.2) A -> is_call e ->
  exists h', lift h (Some a) = Ret h' /\ unlift h' (Some a) = Ret h /\
    dll h' None (head :: (rem (s ++ [id e])).*1) None /\ same_heap h0 h'.
Proof.
  intros Hd Hs Hrem HA He.
  assert ((a, e) ∈ pairs) as Hin by (assert ((a, e) ∈ rem s) by (rewrite Hrem; set_solver);
    by apply (elem_of_rem s (a, e))).
  destruct (node_data_same h (a, e) Hs Hin) as (nd & Ha & _ & _ & Hc & _).
  destruct (Hc He) as (y & Hmm & Hy & Hky & Hidy).
  destruct (rem_split s A a e D y) as (B & C & -> & Hrem'); try done.
  pose proof (rem_addr_NoDup s) as Hnd.
  destruct (snoc_of_cons head A.*1) as (X & x & HX).
  assert (forall l, head :: A.*1 ++ l = X ++ x :: l) as Hsp.
  { intros l. rewrite app_comm_cons, HX, <- app_assoc. done. }
  rewrite Hrem, fmap_app, fmap_cons, fmap_app, fmap_cons, Hsp in Hd, Hnd. cbn [fst] in *.
  destruct (lift_spec h X x a B.*1 y.1 C.*1 nd) as (h' & Hl & Hu & Hd' & Hs'); try done.
  exists h'. split; [done|]. split; [done|]. split.
  - by rewrite Hrem', !fmap_app, Hsp.
  - by eapply same_heap_trans.
Qed.

(** ** Dead ends and the stack of lifted calls *)

Definition dead (s : list Z) (st : St) (i : Z) : Prop :=
  forall σ, ~ Lin m (without s es) st (i :: σ).
Definition Dead (s : list Z) (st : St) : Prop := forall σ, ~ Lin m (without s es) st σ.

(** [Stack calls h s st T]: after the calls on the stack the heap is [h], the
    operations [s] are linearized in this order and the model is in [st]; [T]
    lists the (operations, state) pairs along the way. *)
Inductive Stack : list (callsEntry St) -> list (node V) -> list Z -> St ->
    list (list Z * St) -> Prop :=
| Stack_nil : Stack [] h0 [] (Init m tt) []
| Stack_push calls h s st T A a e D r st' h' :
    Stack calls h s st T ->
    rem s = A ++ (a, e) :: D -> Forall (fun x => is_call x.2) A -> is_call e ->
    Forall (fun x => dead s st (id x.2)) A ->
    r ∈ without s es -> kind r = returnEntry -> id r = id e ->
    Step m st (value e) (value r) = Ret (true, st') ->
    lift h (Some a) = Ret h' -> unlift h' (Some a) = Ret h ->
    Stack (calls ++ [mkCallsEntry (Some a) st]) h' (s ++ [id e]) st' (T ++ [(s ++ [id e], st')]).

Lemma stack_heap calls h s st T :
  Stack calls h s st T -> dll h None (head :: (rem s).*1) None /\ same_heap h0 h.
Proof.
  induction 1 as [|calls h s st T A a e D r st' h' _ [IHd IHs] Hrem HA He _ _ _ _ _ Hl Hu].
  - rewrite rem_nil, pairs_fst. split; [done|apply same_heap_refl].
  - destruct (lift_rem h s A a e D) as (h'' & ? & ? & ? & ?); try done. assert (h'' = h') as -> by congruence. done.
Qed.

Lemma rem_entry s A a e D : rem s = A ++ (a, e) :: D -> (a, e) ∈ pairs /\ e ∈ es /\ id e ∉ s.
Proof.
  intros Hrem. assert ((a, e) ∈ rem s) as [Hin Hs]%elem_of_rem by (rewrite Hrem; set_solver).
  split; [done|]. split; [by apply (pairs_entry (a, e))|done].
Qed.

Lemma rem_without s A a e D : rem s = A ++ (a, e) :: D -> without s es = A.*2 ++ e :: D.*2.
Proof. intros Hrem. by rewrite <- rem_snd, Hrem, fmap_app, fmap_cons. Qed.

Lemma stack_path calls h s st T :
  Stack calls h s st T ->
  NoDup s /\ (forall i, i ∈ s -> i ∈ call_ids es) /\ run m es (Init m tt) s = Some st /\
  length calls = length s.
Proof.
  induction 1 as [|calls h s st T A a e D r st' h' _ (IH1 & IH2 & IH3 & IH4) Hrem HA He _ Hr Hkr Hidr Hst _ _].
  { split_and!; [constructor|set_solver|done|done]. }
  destruct (rem_entry _ _ _ _ _ Hrem) as (_ & Hein & Hs).
  apply elem_of_without in Hr as [Hr _]. split_and!.
  - apply NoDup_app. split; [done|]. split; [set_solver|apply NoDup_singleton].
  - intros i [?|Hi]%elem_of_app; [auto|]. apply list_elem_of_singleton in Hi as ->. apply elem_of_call_ids. eauto.
  - rewrite run_app, IH3. cbn.
    by rewrite (step_id_entries m es st (id e) e r), Hst by (done || apply Hwf).
  - rewrite !length_app. cbn. lia.
Qed.

Lemma stack_lin calls h s st T σ :
  Stack calls h s st T -> Lin m (without s es) st σ -> Lin m es (Init m tt) (s ++ σ).
Proof.
  intros Hst. revert σ.
  induction Hst as [|calls h s st T A a e D r st' h' _ IH Hrem HA He _ Hr Hkr Hidr Hstep _ _]; intros σ HL.
  - unfold without in HL. rewrite filter_true in HL; [done|]. apply Forall_forall. set_solver.
  - rewrite <- app_assoc. apply IH. apply (Lin_step m _ A.*2 e D.*2 r st st' σ); try done.
    + by eapply rem_without.
    + by apply Forall_fmap.
    + by rewrite without_snoc.
Qed.

Lemma stack_order calls h s st T a b :
  Stack calls h s st T -> b ∈ s -> precedes es a b -> before a b s.
Proof.
  intros Hst. revert b.
  induction Hst as [|calls h s st T A a' e D r st' h' _ IH Hrem HA He _ _ _ _ _ _ _]; [set_solver|].
  intros b [Hb|Hb]%elem_of_app Hab; [|apply list_elem_of_singleton in Hb as ->].
  - destruct (IH b Hb Hab) as (l1 & l2 & l3 & ->).
    exists l1, l2, (l3 ++ [id e]). by rewrite <- !app_assoc; cbn; rewrite <- app_assoc.
  - assert (a ∈ s) as (l1 & l2 & ->)%list_elem_of_split;
      [|exists l1, l2, []; by rewrite <- app_assoc].
    destruct (decide (a ∈ s)) as [|Ha]; [done|]. exfalso.
    destruct (rem_entry _ _ _ _ _ Hrem) as (_ & Hein & Hes).
    apply (precedes_without s) in Hab as (r' & e' & Hr' & _ & He' & Hid & Hb); [|done|done].
    destruct (before_elem _ _ _ Hb) as [_ [He'in _]%elem_of_without].
    assert (e' = e) as -> by (eapply (key_eq es); eauto; [apply Hwf|];
      unfold key; unfold is_call in He; congruence).
    rewrite (rem_without _ _ _ _ _ Hrem) in Hb. apply before_split in Hb.
    + apply list_elem_of_fmap in Hb as (x & -> & Hx). rewrite Forall_forall in HA.
      specialize (HA x Hx). unfold is_call in HA. congruence.
    + rewrite <- (rem_without _ _ _ _ _ Hrem). by apply wf_NoDup, wf_without.
Qed.

Lemma stack_partial calls h s st T :
  Stack calls h s st T -> partial_linearization m es (Init m tt) s.
Proof.
  intros Hst. destruct (stack_path _ _ _ _ _ Hst) as (? & ? & ? & _).
  split; [done|done| |by exists st]. intros a b. by apply (stack_order calls h s st T).
Qed.

Lemma stack_trace calls h s st T s' st' :
  Stack calls h s st T -> (s', st') ∈ T -> length s' <= length s.
Proof.
  intros Hst. revert s' st'.
  induction Hst as [|calls h s st T A a e D r st1 h' _ IH _ _ _ _ _ _ _ _ _ _]; [set_solver|].
  intros s' st' [Hin|Heq]%elem_of_app; [|apply list_elem_of_singleton in Heq].
  - specialize (IH _ _ Hin). rewrite length_app. lia.
  - simplify_eq. lia.
Qed.

(** ** Bitsets as sets of operations *)

Definition nops : Z := (len es / 2)%Z.

Definition bs_rep (b : Bits.bitset) (s : list Z) : Prop :=
  Bits.bitset_ok b /\ len b = len (Bits.newBitset nops) /\
  forall q, (0 <= q)%Z -> Bits.bit b q = bool_decide (q ∈ s).

Lemma nops_bounds : (0 <= nops < 2 ^ 62)%Z.
Proof.
  unfold nops. pose proof (len_nonneg es). split; [apply Z.div_pos; lia|].
  apply Z.div_lt_upper_bound; lia.
Qed.

Lemma uint_small i : (0 <= i < nops)%Z -> uint_of_int i = i.
Proof. intros Hi. pose proof nops_bounds. apply Z.mod_small. lia. Qed.

Lemma id_bounds e : e ∈ es -> (0 <= id e < nops)%Z.
Proof. apply Hdense. Qed.

Lemma bs_rep_nil : bs_rep (Bits.newBitset (uint_of_int nops)) [].
Proof.
  pose proof nops_bounds. unfold uint_of_int. rewrite Z.mod_small by lia.
  destruct (Bits.newBitset_ok nops) as (Hok & _ & Hb); [lia|].
  split; [done|]. split; [done|]. intros q _. rewrite Hb. symmetry. apply bool_decide_eq_false. set_solver.
Qed.

Lemma bs_rep_range b s i : bs_rep b s -> (0 <= i < nops)%Z -> (0 <= i < Bits.nbits b)%Z.
Proof.
  intros (_ & Hl & _) Hi. unfold Bits.nbits. rewrite Hl.
  destruct (Bits.newBitset_ok nops) as (_ & Hn & _); [lia|]. unfold Bits.nbits in Hn. lia.
Qed.

Lemma bs_rep_set b s i :
  bs_rep b s -> (0 <= i < nops)%Z ->
  exists b', Bits.set b (uint_of_int i) = Ret b' /\ bs_rep b' (s ++ [i]).
Proof.
  intros Hb Hi. pose proof (bs_rep_range _ _ _ Hb Hi) as Hr. rewrite uint_small by done.
  destruct Hb as (Hok & Hl & Hbit). destruct (Bits.set_spec b i Hok Hr) as (b' & Hs & Hok' & Hl' & Hb').
  exists b'. split; [done|]. split; [done|]. split; [congruence|]. intros q Hq. rewrite Hb', Hbit by done.
  destruct (Z.eqb_spec q i) as [->|]; symmetry; [apply bool_decide_eq_true; set_solver|].
  apply bool_decide_ext. set_solver.
Qed.

Lemma bs_rep_clear b s i :
  bs_rep b (s ++ [i]) -> i ∉ s -> (0 <= i < nops)%Z ->
  exists b', Bits.clear b (uint_of_int i) = Ret b' /\ bs_rep b' s.
Proof.
  intros Hb His Hi. pose proof (bs_rep_range _ _ _ Hb Hi) as Hr. rewrite uint_small by done.
  destruct Hb as (Hok & Hl & Hbit). destruct (Bits.clear_spec b i Hok Hr) as (b' & Hs & Hok' & Hl' & Hb').
  exists b'. split; [done|]. split; [done|]. split; [congruence|]. intros q Hq. rewrite Hb', Hbit by done.
  destruct (Z.eqb_spec q i) as [->|]; [symmetry; by apply bool_decide_eq_false|].
  apply bool_decide_ext. set_solver.
Qed.

Lemma bs_rep_eq b b' s s' :
  bs_rep b s -> bs_rep b' s' -> (forall i, i ∈ s <-> i ∈ s') -> b = b'.
Proof.
  intros (Hok & Hl & Hb) (Hok' & Hl' & Hb') Hs. apply Bits.bit_ext; [done|done|congruence|].
  intros q Hq. rewrite Hb, Hb' by lia. apply bool_decide_ext, Hs.
Qed.

Lemma bs_rep_inj b s s' :
  (forall i, i ∈ s -> (0 <= i)%Z) -> (forall i, i ∈ s' -> (0 <= i)%Z) ->
  bs_rep b s -> bs_rep b s' -> forall i, i ∈ s <-> i ∈ s'.
Proof.
  intros Hs Hs' (_ & _ & Hb) (_ & _ & Hb') i. split; intros Hi.
  - specialize (Hb i (Hs i Hi)). specialize (Hb' i (Hs i Hi)). rewrite Hb in Hb'.
    rewrite (bool_decide_eq_true_2 _ Hi) in Hb'. symmetry in Hb'. by apply bool_decide_eq_true in Hb'.
  - specialize (Hb i (Hs' i Hi)). specialize (Hb' i (Hs' i Hi)). rewrite Hb' in Hb.
    rewrite (bool_decide_eq_true_2 _ Hi) in Hb. symmetry in Hb. by apply bool_decide_eq_true in Hb.
Qed.

(** ** The cache *)

(** A path is a sequence of distinct operations. *)
Definition is_path (p : list Z) : Prop :=
  NoDup p /\ forall i, i ∈ p -> (0 <= i < nops)%Z.

Abbreviation cache_map := (gmap Z (list (cacheEntry St))).

Definition cached (c : cache_map) (ce : cacheEntry St) : Prop :=
  exists b, c !! Bits.hash (linearized ce) = Some b /\ ce ∈ b.

(** [P] lists the paths that led to the cache entries, one path per entry. *)
Record cache_ok (P : list (list Z)) (T : list (list Z * St)) (c : cache_map) : Prop := {
  co_NoDup : NoDup P;
  co_path : forall p, p ∈ P -> is_path p;
  co_sound : forall ce, cached c ce -> exists p, is_path p /\ bs_rep (linearized ce) p /\
    ((p, cache_state ce) ∈ T \/ Dead p (cache_state ce));
  co_full : forall p, p ∈ P -> exists ce, cached c ce /\ bs_rep (linearized ce) p /\
    run m es (Init m tt) p = Some (cache_state ce);
}.

Lemma bucket_contains_spec bucket e :
  exists hit, bucket_contains (Equal m) bucket e = Ret hit /\
    if hit then exists ce, ce ∈ bucket /\ linearized ce = linearized e /\
                  eqf (cache_state e) (cache_state ce) = true
    else forall ce, ce ∈ bucket -> linearized ce = linearized e ->
                  eqf (cache_state e) (cache_state ce) = false.
Proof.
  rewrite (ok_equal _ _ Hm). induction bucket as [|x bucket (hit & Hrun & IH)].
  { exists false. split; [done|]. set_solver. }
  cbn [bucket_contains]. destruct (Bits.equals (linearized e) (linearized x)) eqn:Eq.
  - apply Bits.equals_spec in Eq. destruct (eqf (cache_state e) (cache_state x)) eqn:Es.
    + exists true. split; [done|]. exists x. split; [set_solver|done].
    + exists hit. split; [done|]. destruct hit.
      * destruct IH as (ce & ? & ?). exists ce. split; [set_solver|done].
      * intros ce [->|?]%elem_of_cons ?; auto.
  - assert (linearized x <> linearized e) as Hne.
    { intros Hx. symmetry in Hx. apply Bits.equals_spec in Hx. congruence. }
    exists hit. split; [done|]. destruct hit.
    + destruct IH as (ce & ? & ?). exists ce. split; [set_solver|done].
    + intros ce [->|?]%elem_of_cons ?; [done|auto].
Qed.

Lemma cacheContains_spec c e :
  exists hit, cacheContains m c e = Ret hit /\
    if hit then exists ce, cached c ce /\ linearized ce = linearized e /\
                  eqf (cache_state e) (cache_state ce) = true
    else forall ce, cached c ce -> linearized ce = linearized e ->
                  eqf (cache_state e) (cache_state ce) = false.
Proof.
  unfold cacheContains, cached.
  destruct (bucket_contains_spec (default [] (c !! Bits.hash (linearized e))) e) as (hit & -> & Hhit).
  exists hit. split; [done|]. destruct hit.
  - destruct Hhit as (ce & Hin & Hl & ?). exists ce. split; [|done]. rewrite Hl.
    destruct (c !! _) as [b|]; [by exists b|set_solver].
  - intros ce (b & Hb & Hin) Hl. rewrite Hl in Hb. rewrite Hb in Hhit. auto.
Qed.

Lemma cached_insert c ce0 ce :
  let h := Bits.hash (linearized ce0) in
  cached (<[h := default [] (c !! h) ++ [ce0]]> c) ce <-> cached c ce \/ ce = ce0.
Proof.
  intros h. unfold cached. destruct (decide (Bits.hash (linearized ce) = h)) as [Heq|Hne].
  - rewrite Heq, lookup_insert_eq. split.
    + intros (b & [= <-] & Hin). apply elem_of_app in Hin as [Hin|Hin]; [|right; set_solver].
      left. destruct (c !! h) as [b|]; [by exists b|set_solver].
    + intros [(b & Hb & Hin)| ->]; eexists; (split; [done|]).
      * rewrite Hb. set_solver.
      * set_solver.
  - rewrite lookup_insert_ne by done. split; [tauto|]. intros [?| ->]; [done|]. by subst h.
Qed.

(** Equal states accept the same operations, so they are dead together. *)
Lemma Lin_equal l s1 s2 σ : eqf s1 s2 = true -> Lin m l s1 σ -> Lin m l s2 σ.
Proof.
  intros Heq HL. revert s2 Heq.
  induction HL as [st|l A e C r st st' σ Hes HA He Hr Hkr Hid Hstep HL IH]; intros s2 Heq; [constructor|].
  pose proof (ok_step _ _ Hm st s2 (value e) (value r) Heq) as Hok. rewrite Hstep in Hok.
  destruct (Step m s2 (value e) (value r)) as [[b t]|] eqn:Hs2; [|done]. destruct Hok as [<- Ht].
  apply (Lin_step m l A e C r s2 t σ); try done. by apply IH.
Qed.

Lemma Dead_perm p p' st : (forall i, i ∈ p <-> i ∈ p') -> Dead p st -> Dead p' st.
Proof.
  intros Hp HD σ. unfold without. rewrite (list_filter_iff _ (fun e => id e ∉ p)); [apply HD|].
  intros x. by rewrite Hp.
Qed.

(** The operations are numbered 0 to [nops - 1]. *)
Lemma call_ids_ops : call_ids es ≡ₚ op_ids (Nat.div2 (length es)).
Proof.
  pose proof (wf_keys es Hwf) as Hk.
  pose proof (call_ids_length es Hwf) as Hlen.
  assert (length (call_ids es) = Nat.div2 (length es)) as Hl.
  { by rewrite Hlen, Nat.div2_double. }
  apply submseteq_length_Permutation.
  - apply NoDup_submseteq; [by apply call_ids_NoDup|]. intros i (e & He & _ & <-)%elem_of_call_ids.
    apply id_bounds in He. unfold nops, len in He. unfold op_ids. apply list_elem_of_fmap.
    exists (Z.to_nat (id e)). rewrite elem_of_seq.
    assert (Z.of_nat (length es) / 2 = Z.of_nat (Nat.div2 (length es)))%Z
      by by rewrite Nat.div2_div, Nat2Z.inj_div.
    lia.
  - rewrite Hl. unfold op_ids. by rewrite length_fmap, length_seq.
Qed.

(** ** Recorded partial linearizations *)

Record longest_ok (lg : list (option nat)) (sq : list (list Z)) : Prop := {
  lo_length : len lg = nops;
  lo_partial : forall σ, σ ∈ sq -> partial_linearization m es (Init m tt) σ;
  lo_points : forall i p, lg !! i = Some (Some p) -> exists σ, sq !! p = Some σ /\ Z.of_nat i ∈ σ;
}.

Lemma stack_seq calls h s st T h' :
  Stack calls h s st T -> same_heap h0 h' ->
  call_seq h' calls = Ret s /\
  forall v, v ∈ calls -> exists nd, load h' (call_entry v) = Ret nd /\ nid nd ∈ s.
Proof.
  intros Hst Hs.
  induction Hst as [|calls h s st T A a e D r st' h1 _ [IH IHn] Hrem _ _ _ _ _ _ _ _ _]; [set_solver|].
  destruct (rem_entry _ _ _ _ _ Hrem) as (Hin & _ & _).
  destruct (node_data_same h' (a, e) Hs Hin) as (nd & Ha & _ & Hid & _). cbn [fst snd] in *.
  assert (call_seq h' (calls ++ [mkCallsEntry (Some a) st]) = Ret (s ++ [id e])) as Hseq.
  { clear IHn. revert IH. generalize s as s1. induction calls as [|v calls IHc]; intros s1; cbn.
    - intros [= <-]. by rewrite Ha, <- Hid.
    - intros Hc. res_inv. destruct (load h' (call_entry v)) as [n|]; [|done]. simplify_eq.
      cbn [rbind] in *. res_inv. simplify_eq. by erewrite IHc. }
  split; [done|]. intros v [Hv|Hv]%elem_of_app.
  - destruct (IHn v Hv) as (nd' & ? & ?). exists nd'. set_solver.
  - apply list_elem_of_singleton in Hv as ->. exists nd. cbn. rewrite Ha, Hid. set_solver.
Qed.

Lemma longest_loop_ok (h : list (node V)) (calls todo : list (callsEntry St)) s lg sq seqp :
  call_seq h calls = Ret s -> partial_linearization m es (Init m tt) s ->
  (forall v, v ∈ todo -> exists nd, load h (call_entry v) = Ret nd /\ nid nd ∈ s) ->
  (forall p, seqp = Some p -> sq !! p = Some s) -> longest_ok lg sq ->
  exists lg' sq', longest_loop h calls todo lg sq seqp = Ret (lg', sq') /\ longest_ok lg' sq'.
Proof.
  intros Hseq Hpar. revert lg sq seqp.
  induction todo as [|v todo IH]; intros lg sq seqp Hv Hp Hok; [by exists lg, sq|].
  cbn [longest_loop]. destruct (Hv v) as (nd & Hnd & Hin); [set_solver|]. rewrite Hnd. cbn [rbind].
  pose proof Hok as [Hl Hpt Hpp].
  assert (0 <= nid nd < nops)%Z as Hb.
  { destruct Hpar as [_ Hids _ _]. apply Hids, elem_of_call_ids in Hin as (e & He & _ & <-).
    by apply id_bounds. }
  destruct (go_index_in lg (nid nd)) as (old & Hold & Hlk); [lia|]. rewrite Hold. cbn [rbind].
  assert (exists b, match old with None => Ret true
            | Some p => let! sq0 := go_index sq (Z.of_nat p) in Ret (len sq0 <? len calls)%Z end = Ret b)
    as [b ->].
  { destruct old as [p|]; [|by exists true]. destruct (Hpp _ _ Hlk) as (σ & Hσ & _).
    exists (len σ <? len calls)%Z.
    assert (go_index sq (Z.of_nat p) = Ret σ) as ->; [|done].
    apply go_index_ret. rewrite Nat2Z.id. split; [lia|done]. }
  cbn [rbind]. destruct b; [|apply IH; [set_solver|done|done]].
  assert (exists sq' p, match seqp with Some p => Ret (sq, p) | None =>
            let! ids := call_seq h calls in Ret (sq ++ [ids], length sq) end = Ret (sq', p) /\
            sq' !! p = Some s /\ longest_ok lg sq') as (sq' & p & -> & Hsp & [Hl' Hpt' Hpp']).
  { destruct seqp as [p|]; [exists sq, p; auto|]. exists (sq ++ [s]), (length sq).
    rewrite Hseq. split; [done|]. split; [by apply list_lookup_middle|]. split; [done| |].
    - intros σ [?|Hσ]%elem_of_app; [auto|]. by apply list_elem_of_singleton in Hσ as ->.
    - intros i p Hi. destruct (Hpp i p Hi) as (σ & Hσ & ?). exists σ. split; [|done].
      by apply lookup_app_l_Some. }
  cbn [rbind snd fst]. rewrite go_set_in by lia. cbn [rbind].
  apply IH; [set_solver|by intros ? [= <-]|]. split; [by rewrite len_insert|done|].
  intros i q Hi. destruct (decide (i = Z.to_nat (nid nd))) as [->|].
  - rewrite list_lookup_insert_eq in Hi by (unfold len in Hl; lia). simplify_eq.
    exists s. by rewrite Z2Nat.id by lia.
  - rewrite list_lookup_insert_ne in Hi by done. by apply Hpp'.
Qed.

(** ** Dead ends *)

Lemma dead_intro s st e y :
  e ∈ without s es -> is_call e -> y ∈ es -> kind y = returnEntry -> id y = id e ->
  (forall st', Step m st (value e) (value y) = Ret (true, st') -> Dead (s ++ [id e]) st') ->
  dead s st (id e).
Proof.
  intros He Hc Hy Hky Hidy HD σ HL. pose proof (wf_keys es Hwf) as Hk.
  inversion HL as [|l A e0 C r st0 st' σ0 Hl _ Hc0 Hr Hkr Hidr Hstep HL']; subst.
  assert (e0 ∈ without s es) as He0 by (rewrite Hl; set_solver).
  apply elem_of_without in He as [He _], He0 as [He0 _], Hr as [Hr _].
  assert (e0 = e) as ->
    by (eapply (key_eq es); try done; unfold key; unfold is_call in *; congruence).
  assert (r = y) as -> by (eapply (key_eq es); try done; unfold key; congruence).
  rewrite without_snoc in HL'. by eapply HD.
Qed.

Lemma Dead_at_return s st pre a e D :
  rem s = pre ++ (a, e) :: D -> Forall (fun x => is_call x.2) pre ->
  Forall (fun x => dead s st (id x.2)) pre -> kind e = returnEntry -> Dead s st.
Proof.
  intros Hrem Hpre Hdead Hke σ HL. apply rem_without in Hrem as Hw.
  inversion HL as [|l A e0 C r st0 st' σ0 Hl HA Hc0 _ _ _ _ _]; subst.
  { rewrite Hw in *. by destruct pre.*2. }
  assert (NoDup (without s es)) as Hnd by (apply wf_NoDup, wf_without, Hwf).
  assert (e0 ∈ without s es) as He0 by (rewrite Hl; set_solver).
  rewrite Hw, elem_of_app, elem_of_cons in He0. destruct He0 as [He0|[->|He0]].
  - apply list_elem_of_fmap in He0 as (x & -> & Hx). rewrite Forall_forall in Hdead.
    by apply (Hdead x Hx σ0).
  - unfold is_call in Hc0. congruence.
  - assert (before e e0 (without s es)) as Hb.
    { apply list_elem_of_split in He0 as (k1 & k2 & Hk). rewrite Hw, Hk. by exists pre.*2, k1, k2. }
    rewrite Hl in Hb, Hnd. apply before_split in Hb; [|done].
    rewrite Forall_forall in HA. specialize (HA e Hb). unfold is_call in HA. congruence.
Qed.

(** ** The loop invariant *)

Record Inv (P : list (list Z)) (T : list (list Z * St)) (s : list Z)
    (pre post : list (addr * entry V)) (c : checker V St) : Prop := {
  inv_stack : Stack (calls c) (nodes c) s (state c) T;
  inv_rem : rem s = pre ++ post;
  inv_pre : Forall (fun x => is_call x.2) pre;
  inv_dead : Forall (fun x => dead s (state c) (id x.2)) pre;
  inv_cur : cur c = hd_ptr post.*1 None;
  inv_lin : bs_rep (lin c) s;
  inv_cache : cache_ok P T (cache c);
  inv_longest : longest_ok (longest c) (seqs c);
}.

Definition universe : list (list Z) := words (op_ids (Nat.div2 (length es))) (Nat.div2 (length es)).

(** The measure: a push uses up one path, a pop one stack frame, and moving on
    one entry of the list. *)
Definition measure (P : list (list Z)) (post : list (addr * entry V)) (c : checker V St) : nat :=
  (length universe - length P) * (2 * length es + 2) +
  length (calls c) * (length es + 1) + length post.

Lemma nops_nat : nops = Z.of_nat (Nat.div2 (length es)).
Proof. unfold nops, len. rewrite Nat.div2_div, Nat2Z.inj_div. done. Qed.

Lemma path_universe p : is_path p -> p ∈ universe.
Proof.
  intros [Hnd Hp]. rewrite nops_nat in Hp.
  assert (forall i, i ∈ p -> i ∈ op_ids (Nat.div2 (length es))) as Hin.
  { intros i Hi. specialize (Hp i Hi). unfold op_ids. apply list_elem_of_fmap.
    exists (Z.to_nat i). rewrite elem_of_seq. lia. }
  apply NoDup_words; [done|done|].
  pose proof (NoDup_submseteq _ _ Hnd Hin) as Hs%submseteq_length.
  unfold op_ids in Hs. by rewrite length_fmap, length_seq in Hs.
Qed.

Lemma paths_bound P T c : cache_ok P T c -> length P <= length universe.
Proof.
  intros [Hnd Hp _ _]. apply submseteq_length, NoDup_submseteq; [done|].
  intros p Hin. by apply path_universe, Hp.
Qed.

Lemma rem_length s : length (rem s) <= length es.
Proof. rewrite <- (length_fmap snd), rem_snd. apply length_filter. Qed.

Lemma stack_is_path calls h s st T : Stack calls h s st T -> is_path s.
Proof.
  intros Hst. destruct (stack_path _ _ _ _ _ Hst) as (Hnd & Hin & _ & _). split; [done|].
  intros i Hi. apply Hin, elem_of_call_ids in Hi as (e & He & _ & <-). by apply id_bounds.
Qed.

Lemma head_node (h : list (node V)) s :
  dll h None (head :: (rem s).*1) None ->
  exists hd, load h (Some head) = Ret hd /\ next hd = hd_ptr (rem s).*1 None.
Proof. intros (hd & Hh & _ & Hn & _). exists hd. split; [by apply load_some|done]. Qed.

Lemma cur_node (h : list (node V)) s pre a e D :
  dll h None (head :: (rem s).*1) None -> same_heap h0 h -> rem s = pre ++ (a, e) :: D ->
  exists nd, load h (Some a) = Ret nd /\ next nd = hd_ptr D.*1 None /\
    nvalue nd = value e /\ nid nd = id e /\
    (is_call e -> exists y, match_ nd = Some y.1 /\ y ∈ pairs /\ kind y.2 = returnEntry /\
                              id y.2 = id e) /\
    (kind e = returnEntry -> match_ nd = None).
Proof.
  intros Hd Hs Hrem. destruct (rem_entry _ _ _ _ _ Hrem) as (Hin & _ & _).
  destruct (node_data_same h (a, e) Hs Hin) as (nd & Ha & Hdata). exists nd. cbn [fst snd] in *.
  split; [by apply load_some|]. split; [|done].
  destruct (snoc_of_cons head pre.*1) as (X & x & HX).
  rewrite Hrem, fmap_app, fmap_cons, app_comm_cons, HX, <- app_assoc in Hd.
  destruct (dll_node h None X x a D.*1 None Hd) as (nd' & Ha' & _ & Hn). cbn in Ha'. congruence.
Qed.

(** After [s] the list is empty or still holds a return, so a position is
    left to look at. *)
Lemma rem_has_return s pre : rem s = pre -> Forall (fun x => is_call x.2) pre -> rem s = [].
Proof.
  intros Hrem Hpre. destruct (rem s) as [|x l] eqn:Hr; [done|]. subst pre. exfalso.
  rewrite Forall_forall in Hpre.
  assert (x ∈ rem s) as Hx by (rewrite Hr; set_solver).
  assert (x.2 ∈ without s es) as Hxw by (rewrite <- rem_snd; by apply list_elem_of_fmap_2).
  destruct (wf_return _ (wf_without s es Hwf) x.2 Hxw) as (r & Hkr & _ & Hb).
  { apply Hpre. set_solver. }
  apply before_elem in Hb as [_ Hrw]. rewrite <- rem_snd in Hrw.
  apply list_elem_of_fmap in Hrw as (z & -> & Hz). rewrite Hr in Hz.
  specialize (Hpre z Hz). unfold is_call in Hpre. congruence.
Qed.

(** What the loop may do from a state that satisfies the invariant. *)
Definition iter_post (killed : bool) (bound : nat) (r : res (ctl V St)) : Prop :=
  match r with
  | Panic => False
  | Ret (Continue c') => exists P T s pre post, Inv P T s pre post c' /\ measure P post c' < bound
  | Ret (Finish true c') => longest_ok (longest c') (seqs c') /\
      exists p σ, seqs c' !! p = Some σ /\ Lin m es (Init m tt) σ /\
        longest c' = replicate (Z.to_nat nops) (Some p)
  | Ret (Finish false c') => longest_ok (longest c') (seqs c') /\
      (killed = false -> forall σ, ~ Lin m es (Init m tt) σ)
  end.

(** Moving on to the next entry after a dead one. *)
Lemma inv_advance P T s pre a e D c killed bound :
  Inv P T s pre ((a, e) :: D) c -> is_call e -> dead s (state c) (id e) ->
  measure P ((a, e) :: D) c <= bound ->
  iter_post killed bound (Ret (Continue
    (mkChecker (nodes c) (hd_ptr D.*1 None) (lin c) (cache c) (calls c) (state c) (longest c) (seqs c)))).
Proof.
  intros [Hst Hrem Hpre Hdead Hcur Hlin Hcache Hlo] He Hde Hb.
  exists P, T, s, (pre ++ [(a, e)]), D. split.
  - split; cbn; try done.
    + by rewrite <- app_assoc.
    + apply Forall_app. split; [done|]. by constructor.
    + apply Forall_app. split; [done|]. by constructor.
  - unfold measure in *. cbn in *. lia.
Qed.

(** The list is exhausted: every operation is linearized. *)
Lemma inv_done P T s pre post c killed bound :
  Inv P T s pre post c -> rem s = [] ->
  iter_post killed bound
    (let! ids := call_seq (nodes c) (calls c) in
     Ret (Finish true (mkChecker (nodes c) (cur c) (lin c) (cache c) (calls c) (state c)
            (replicate (length (longest c)) (Some (length (seqs c)))) (seqs c ++ [ids])))).
Proof.
  intros [Hst Hrem Hpre Hdead Hcur Hlin Hcache [Hl Hpt Hpp]] Hnil.
  destruct (stack_heap _ _ _ _ _ Hst) as [_ Hs].
  destruct (stack_seq _ _ _ _ _ _ Hst Hs) as [-> _]. cbn.
  assert (Lin m es (Init m tt) s) as HL.
  { rewrite <- (app_nil_r s). eapply stack_lin; [exact Hst|].
    rewrite <- rem_snd, Hnil. constructor. }
  pose proof (stack_partial _ _ _ _ _ Hst) as Hpar.
  pose proof (Lin_linearization _ _ _ _ Hwf HL) as [Hperm _ _].
  assert (length (longest c) = Z.to_nat nops) as Hlen by (unfold len in Hl; lia).
  split.
  - split; [unfold len in *; rewrite length_replicate; lia| |].
    + intros σ [?|Hσ]%elem_of_app; [auto|]. by apply list_elem_of_singleton in Hσ as ->.
    + intros i p [Hp Hi]%lookup_replicate. injection Hp as ->. exists s.
      split; [by apply list_lookup_middle|]. rewrite Hperm, call_ids_ops.
      apply list_elem_of_fmap. exists i. split; [done|].
      rewrite elem_of_seq. rewrite nops_nat in Hlen. lia.
  - exists (length (seqs c)), s. split; [by apply list_lookup_middle|]. split; [done|by rewrite Hlen].
Qed.

(** The two ways to linearize the current call: the resulting state is in the
    cache, so it is dead already, or it is new. *)
Lemma cache_hit P T s st (e : entry V) newst newlin c ce calls h :
  Stack calls h s st T -> cache_ok P T c -> is_path (s ++ [id e]) -> bs_rep newlin (s ++ [id e]) ->
  cached c ce -> linearized ce = newlin -> eqf newst (cache_state ce) = true ->
  Dead (s ++ [id e]) newst.
Proof.
  intros Hst Hok Hpath Hrep Hce Hl Heq. subst newlin.
  destruct (co_sound _ _ _ Hok ce Hce) as (p & Hp & Hrepp & HD).
  assert (forall i, i ∈ p <-> i ∈ s ++ [id e]) as Hmem.
  { eapply bs_rep_inj; [| |exact Hrepp|exact Hrep]; intros i Hi; [by apply Hp|by apply Hpath]. }
  destruct HD as [HT|HD].
  - exfalso. pose proof (stack_trace _ _ _ _ _ _ _ Hst HT) as Hlen.
    assert (p ≡ₚ s ++ [id e]) as Hperm by (apply NoDup_Permutation; [apply Hp|apply Hpath|done]).
    apply Permutation_length in Hperm. rewrite length_app in Hperm. cbn in Hperm. lia.
  - intros σ HL. apply (Dead_perm _ _ _ Hmem HD σ). by eapply Lin_equal.
Qed.

Lemma cache_insert P T s st' ce0 c :
  cache_ok P T c -> is_path s -> bs_rep (linearized ce0) s -> run m es (Init m tt) s = Some st' ->
  cache_state ce0 = st' ->
  (forall ce, cached c ce -> linearized ce = linearized ce0 -> eqf st' (cache_state ce) = false) ->
  cache_ok (s :: P) (T ++ [(s, st')])
    (<[Bits.hash (linearized ce0) := default [] (c !! Bits.hash (linearized ce0)) ++ [ce0]]> c).
Proof.
  intros [Hnd Hpath Hsound Hfull] Hs Hrep Hrun Hst Hnew. split.
  - apply NoDup_cons. split; [|done]. intros Hin.
    destruct (Hfull s Hin) as (ce & Hce & Hrep' & Hrun').
    assert (cache_state ce = st') as Heq by congruence.
    specialize (Hnew ce Hce). rewrite Heq, (ok_refl _ _ Hm) in Hnew.
    discriminate Hnew. by eapply bs_rep_eq.
  - intros p [->|?]%elem_of_cons; auto.
  - intros ce [Hce| ->]%cached_insert.
    + destruct (Hsound ce Hce) as (p & ? & ? & [HT|HD]); exists p; split_and!; try done; [|by right].
      left. set_solver.
    + exists s. split_and!; try done. left. rewrite Hst. set_solver.
  - intros p [->|Hp]%elem_of_cons.
    + exists ce0. split_and!; [apply cached_insert; by right|done|congruence].
    + destruct (Hfull p Hp) as (ce & ? & ?). exists ce. split; [|done]. apply cached_insert. by left.
Qed.

Lemma inv_push P T s pre a e D c y newst newlin nodes' :
  Inv P T s pre ((a, e) :: D) c -> is_call e -> y ∈ pairs -> kind y.2 = returnEntry ->
  id y.2 = id e -> Step m (state c) (value e) (value y.2) = Ret (true, newst) ->
  bs_rep newlin (s ++ [id e]) -> lift (nodes c) (Some a) = Ret nodes' ->
  (forall ce, cached (cache c) ce -> linearized ce = newlin -> eqf newst (cache_state ce) = false) ->
  let c' := mkChecker nodes' (hd_ptr (rem (s ++ [id e])).*1 None) newlin
    (<[Bits.hash newlin := default [] (cache c !! Bits.hash newlin) ++ [mkCacheEntry newlin newst]]> (cache c))
    (calls c ++ [mkCallsEntry (Some a) (state c)]) newst (longest c) (seqs c) in
  exists P' T' s' pre' post', Inv P' T' s' pre' post' c' /\
    measure P' post' c' < measure P ((a, e) :: D) c.
Proof.
  intros [Hst Hrem Hpre Hdead Hcur Hlin Hcache Hlo] He Hy Hky Hidy Hstep Hrep Hlift Hnew c'.
  destruct (stack_heap _ _ _ _ _ Hst) as [Hd Hs].
  destruct (lift_rem _ _ _ _ _ _ Hd Hs Hrem Hpre He) as (h' & Hl & Hu & Hd' & Hs').
  assert (h' = nodes') as -> by congruence.
  assert (Stack (calls c') nodes' (s ++ [id e]) newst (T ++ [(s ++ [id e], newst)])) as Hst'.
  { eapply Stack_push; try done. apply elem_of_without. split; [by apply pairs_entry|].
    rewrite Hidy. apply (rem_entry _ _ _ _ _ Hrem). }
  assert (cache_ok ((s ++ [id e]) :: P) (T ++ [(s ++ [id e], newst)]) (cache c')) as Hcache'.
  { apply (cache_insert P T (s ++ [id e]) newst (mkCacheEntry newlin newst)); try done.
    - by eapply stack_is_path.
    - apply (stack_path _ _ _ _ _ Hst'). }
  exists ((s ++ [id e]) :: P), (T ++ [(s ++ [id e], newst)]), (s ++ [id e]), [], (rem (s ++ [id e])).
  split.
  - split; try done.
  - pose proof (paths_bound _ _ _ Hcache') as HP. pose proof (rem_length (s ++ [id e])).
    unfold measure. subst c'. cbn [calls length] in *. rewrite length_app. cbn [length].
    replace (length universe - length P) with (S (length universe - S (length P))) by lia. lia.
Qed.

Lemma inv_call P T s pre a e D c killed cp :
  Inv P T s pre ((a, e) :: D) c -> is_call e ->
  iter_post killed (measure P ((a, e) :: D) c)
    (check_iter m cp false (Some head) c).
Proof.
  intros HI He. pose proof HI as [Hst Hrem Hpre Hdead Hcur Hlin Hcache Hlo].
  destruct (stack_heap _ _ _ _ _ Hst) as [Hd Hs].
  destruct (head_node _ _ Hd) as (hd & Hhd & Hnext).
  destruct (cur_node _ _ _ _ _ _ Hd Hs Hrem) as (nd & Hnd & Hnn & Hnv & Hni & Hmc & _).
  destruct (Hmc He) as (y & Hym & Hy & Hky & Hidy).
  destruct (node_data_same (nodes c) y Hs Hy) as (yn & Hyn & Hyv & _).
  destruct (rem_entry _ _ _ _ _ Hrem) as (_ & Hein & Hes).
  assert (e ∈ without s es) as Hew by (by apply elem_of_without).
  unfold check_iter. rewrite Hhd. cbn [rbind]. rewrite Hnext, Hrem.
  assert (exists z, hd_ptr (pre ++ (a, e) :: D).*1 None = Some z) as [z ->]
    by (destruct pre as [|[z ?] ?]; eexists; done).
  cbn [rbind]. rewrite Hcur. cbn [hd_ptr fmap list_fmap fst]. rewrite Hnd. cbn [rbind].
  rewrite Hnn, Hym, (load_some _ _ _ Hyn). cbn [rbind]. rewrite Hnv, Hyv, Hni.
  assert (is_path (s ++ [id e])) as Hpath.
  { destruct (stack_is_path _ _ _ _ _ Hst) as [HndS HinS]. split.
    - apply NoDup_app. split; [done|]. split; [set_solver|apply NoDup_singleton].
    - intros i [?|Hi]%elem_of_app; [auto|]. apply list_elem_of_singleton in Hi as ->. by apply id_bounds. }
  pose proof (Hsafe (state c) e y.2 Hein He (pairs_entry y Hy) Hky) as Hnp.
  destruct (Step m (state c) (value e) (value y.2)) as [[[|] newst]|] eqn:Hstep; [| |done]; cbn [rbind].
  2: { apply (inv_advance P T s pre a e D c); try done. apply (dead_intro s _ e y.2); try done.
    - by apply pairs_entry.
    - intros st' Hst'. congruence. }
  rewrite Bits.clone_id.
  destruct (bs_rep_set _ _ (id e) Hlin (id_bounds e Hein)) as (newlin & Hset & Hrep).
  rewrite Hset. cbn [rbind].
  destruct (cacheContains_spec (cache c) (mkCacheEntry newlin newst)) as (hit & Hhit & Hspec).
  rewrite Hhit. cbn [rbind]. destruct hit; cbn [negb].
  - destruct Hspec as (ce & Hce & Hl & Heq). cbn in Hl, Heq.
    apply (inv_advance P T s pre a e D c); try done. apply (dead_intro s _ e y.2); try done.
    + by apply pairs_entry.
    + intros st' Hst'. assert (st' = newst) as -> by congruence.
      by eapply (cache_hit P T s (state c) e newst newlin (cache c) ce).
  - destruct (lift_rem _ _ _ _ _ _ Hd Hs Hrem Hpre He) as (h' & Hl & _ & Hd' & _).
    rewrite Hl. cbn [rbind]. destruct (head_node _ _ Hd') as (hd' & Hhd' & Hnext').
    rewrite Hhd'. cbn [rbind]. rewrite Hnext'.
    by eapply (inv_push P T s pre a e D c y newst newlin h').
Qed.

(** At a return entry every candidate has failed: the top of the stack is
    undone, and with an empty stack there is no linearization. *)
Lemma pop_calls (calls : list (callsEntry St)) x :
  go_index (calls ++ [x]) (len (calls ++ [x]) - 1) = Ret x /\
  go_to (calls ++ [x]) (len (calls ++ [x]) - 1) = Ret calls /\
  (len (calls ++ [x]) =? 0)%Z = false.
Proof.
  assert (len (calls ++ [x]) - 1 = len calls)%Z as ->
    by (rewrite len_app; unfold len; cbn; lia).
  pose proof (len_nonneg calls). split; [|split].
  - apply go_index_ret. split; [done|]. unfold len. rewrite Nat2Z.id. by apply list_lookup_middle.
  - apply go_to_ret. rewrite len_app. split; [unfold len; cbn; lia|].
    unfold len. by rewrite Nat2Z.id, take_app_length.
  - apply Z.eqb_neq. rewrite len_app. unfold len. cbn. lia.
Qed.

Lemma cache_pop P T s st c :
  cache_ok P (T ++ [(s, st)]) c -> Dead s st -> cache_ok P T c.
Proof.
  intros [Hnd Hpath Hsound Hfull] HD. split; try done. intros ce Hce.
  destruct (Hsound ce Hce) as (p & ? & ? & [HT|?]); exists p; split_and!; try done; [|by right].
  apply elem_of_app in HT as [?|HT]; [by left|]. apply list_elem_of_singleton in HT.
  simplify_eq. by right.
Qed.

Lemma inv_return P T s pre a e D c killed cp :
  Inv P T s pre ((a, e) :: D) c -> kind e = returnEntry ->
  iter_post killed (measure P ((a, e) :: D) c) (check_iter m cp false (Some head) c).
Proof.
  intros [Hst Hrem Hpre Hdead Hcur Hlin Hcache Hlo] He.
  destruct (stack_heap _ _ _ _ _ Hst) as [Hd Hs].
  destruct (head_node _ _ Hd) as (hd & Hhd & Hnext).
  destruct (cur_node _ _ _ _ _ _ Hd Hs Hrem) as (nd & Hnd & _ & _ & _ & _ & Hmr).
  pose proof (Dead_at_return _ _ _ _ _ _ Hrem Hpre Hdead He) as HD.
  unfold check_iter. rewrite Hhd. cbn [rbind]. rewrite Hnext, Hrem.
  assert (exists z, hd_ptr (pre ++ (a, e) :: D).*1 None = Some z) as [z ->]
    by (destruct pre as [|[z ?] ?]; eexists; done).
  cbn [rbind]. rewrite Hcur. cbn [hd_ptr fmap list_fmap fst]. rewrite Hnd. cbn [rbind].
  rewrite (Hmr He).
  pose proof (stack_partial _ _ _ _ _ Hst) as Hpar.
  destruct (stack_seq _ _ _ _ _ _ Hst Hs) as [Hseq Hload].
  assert (exists lg sq, (if cp then longest_loop (nodes c) (calls c) (calls c) (longest c) (seqs c) None
      else Ret (longest c, seqs c)) = Ret (lg, sq) /\ longest_ok lg sq) as (lg & sq & Hlong & Hlo').
  { destruct cp; [|by exists (longest c), (seqs c)].
    by apply longest_loop_ok with s. }
  inversion Hst as [Hc Hn Hs0 Hst0 HT0|calls0 h s0 st0 T0 A a0 e0 D0 r st' h' Hst0 Hrem0 HA He0 HdA Hr Hkr Hidr Hstep Hlift Hunlift Hc Hn HsE HstE HTE].
  { cbn. split; [done|]. intros _ σ HL. subst s. apply (HD σ). rewrite <- Hst0.
    unfold without. rewrite filter_true; [done|]. apply Forall_forall. set_solver. }
  rewrite <- Hc in Hlong. destruct (pop_calls calls0 (mkCallsEntry (Some a0) st0)) as (-> & -> & ->).
  rewrite Hlong. cbn [rbind call_entry call_state].
  destruct (rem_entry _ _ _ _ _ Hrem0) as (Hin0 & Hein0 & Hes0).
  destruct (node_data_same (nodes c) (a0, e0) Hs Hin0) as (nd0 & Ha0 & _ & Hid0 & _). cbn [fst snd] in *.
  rewrite (load_some _ _ _ Ha0). cbn [rbind]. rewrite Hid0.
  rewrite <- HsE in Hlin. destruct (bs_rep_clear _ _ _ Hlin Hes0 (id_bounds e0 Hein0)) as (lin' & Hclr & Hlin').
  rewrite Hclr. cbn [rbind]. rewrite Hunlift. cbn [rbind].
  destruct (stack_heap _ _ _ _ _ Hst0) as [Hd0 Hs0].
  destruct (cur_node _ _ _ _ _ _ Hd0 Hs0 Hrem0) as (nd' & Hnd' & Hnn' & _).
  rewrite Hnd'. cbn [rbind fst snd]. rewrite Hnn'.
  exists P, T0, s0, (A ++ [(a0, e0)]), D0. split.
  - split; cbn; try done.
    + by rewrite <- app_assoc.
    + apply Forall_app. split; [done|]. by constructor.
    + apply Forall_app. split; [done|]. constructor; [|done]. cbn.
      apply elem_of_without in Hr as [Hr _].
      apply (dead_intro s0 st0 e0 r); try done; [by apply elem_of_without|].
      intros st1 Hst1. rewrite Hstep in Hst1. injection Hst1 as <-. by rewrite HsE.
    + apply (cache_pop P T0 s (state c)); [|done]. by rewrite <- HsE, HTE.
  - pose proof (rem_length s0) as Hl0. rewrite Hrem0, length_app in Hl0. cbn [length] in Hl0.
    unfold measure. cbn [Check.calls length]. rewrite <- Hc, length_app. cbn [length]. lia.
Qed.

Lemma iter_ok P T s pre post c killed cp :
  Inv P T s pre post c ->
  iter_post killed (measure P post c) (check_iter m cp killed (Some head) c).
Proof.
  intros HI. pose proof HI as [Hst Hrem Hpre Hdead Hcur Hlin Hcache Hlo].
  destruct (stack_heap _ _ _ _ _ Hst) as [Hd _].
  destruct (head_node _ _ Hd) as (hd & Hhd & Hnext).
  destruct (rem s) as [|x l] eqn:Hrs.
  { unfold check_iter. rewrite Hhd. cbn [rbind]. rewrite Hnext. cbn [hd_ptr fmap list_fmap].
    rewrite <- Hrs in Hrem. by eapply inv_done. }
  destruct killed.
  { unfold check_iter. rewrite Hhd. cbn [rbind]. rewrite Hnext. cbn. by split. }
  destruct post as [|[a e] D].
  { rewrite app_nil_r in Hrem. rewrite <- Hrs in Hrem.
    pose proof (rem_has_return s pre Hrem Hpre). congruence. }
  destruct (kind e) eqn:Hke; [by eapply inv_call|by eapply inv_return].
Qed.

Lemma loop_ok P T s pre post c cp kill i fuel :
  Inv P T s pre post c -> measure P post c < fuel ->
  exists ok c', check_loop fuel m cp kill (Some head) i c = Some (Ret (ok, c')) /\
    exists killed, iter_post killed 0 (Ret (Finish ok c')) /\
      ((forall j, kill j = false) -> killed = false).
Proof.
  revert P T s pre post c i. induction fuel as [|fuel IH]; intros P T s pre post c i HI Hf; [lia|].
  pose proof (iter_ok P T s pre post c (kill i) cp HI) as Hpost. cbn [check_loop].
  destruct (check_iter m cp (kill i) (Some head) c) as [[c'|ok c']|]; [| |done].
  - destruct Hpost as (P' & T' & s' & pre' & post' & HI' & Hm'). eapply IH; [done|lia].
  - exists ok, c'. split; [done|]. exists (kill i). split; [by destruct ok|auto].
Qed.

Lemma Inv_init lg :
  lg = go_make nops None ->
  Inv [] [] [] [] pairs
    (mkChecker h0 (hd_ptr L0 None) (Bits.newBitset (uint_of_int nops)) ∅ [] (Init m tt) lg []).
Proof.
  intros ->. split; cbn; try done.
  - constructor.
  - by rewrite rem_nil.
  - by rewrite pairs_fst.
  - apply bs_rep_nil.
  - split; [constructor|set_solver| |set_solver].
    intros ce (b & Hb & _). by rewrite lookup_empty in Hb.
  - pose proof nops_bounds. split; [|set_solver|].
    + unfold go_make, len. rewrite length_replicate. lia.
    + intros i p Hi. unfold go_make in Hi. by apply lookup_replicate in Hi as [? _].
Qed.

End proof.

(** ** The results for [checkSingle] *)

Section results.
Context {V St : Type} (vnil : V) (m : Model V St).

Lemma check_init_ok (es : list (entry V)) :
  exists h0, check_init vnil m es = Some (Ret
      (mkChecker h0 (hd_ptr (L0 es) None) (Bits.newBitset (uint_of_int (nops es))) ∅ [] (Init m tt)
         (go_make (nops es) None) [], Some (head es))) /\
    linked h0 es (L0 es) /\ dll h0 None (head es :: L0 es) None.
Proof.
  unfold check_init. destruct (makeLinkedEntries_spec es) as (h & -> & Hl & Hd & Hlen).
  fold (L0 es) in *. pose proof (rem_addr_NoDup es) as Hnd.
  assert (NoDup (L0 es)) as HndL by (unfold L0; rewrite reverse_Permutation; apply NoDup_seq).
  rewrite length_list_spec by done. unfold alloc.
  destruct (insertBefore_head h (mkNode vnil None (-1) None None) (L0 es)) as (h' & Hins & Hd' & Hs & _);
    [done|done|done| |].
  { intros b Hb. unfold L0 in Hb. apply elem_of_reverse, elem_of_seq in Hb. lia. }
  rewrite Hins. cbn [rbind]. exists h'. rewrite Hlen in *. split; [|split; [|done]].
  - unfold nops, head, len. by rewrite L0_length.
  - eapply linked_same; [done|]. by apply linked_app.
Qed.

(** The input conditions of the checker: a complete history whose ids are the
    indices of the operations, of a length that fits a Go [int]. *)
Record checkable (es : list (entry V)) : Prop := {
  chk_wf : wf_history es;
  chk_dense : dense es;
  chk_len : (len es < 2 ^ 63)%Z;
}.

Lemma checkSingle_result (eqf : St -> St -> bool) es fuel cp kill :
  model_ok m eqf -> checkable es -> step_safe m es -> check_fuel es <= fuel ->
  exists ok lg sq, checkSingle vnil fuel m es cp kill = Some (Ret (ok, lg, sq)) /\
    longest_ok m es lg sq /\
    if ok then exists p σ, sq !! p = Some σ /\ linearization m es (Init m tt) σ /\
                 lg = replicate (Z.to_nat (nops es)) (Some p)
    else (forall j, kill j = false) -> ~ linearizable m es.
Proof.
  intros Hm [Hwf Hdense Hlen] Hsafe Hfuel. unfold checkSingle.
  destruct (check_init_ok es) as (h0 & -> & Hl & Hd).
  assert (HI : Inv m es h0 [] [] [] [] (pairs es) _) by (eapply Inv_init; eauto).
  destruct (loop_ok m eqf Hm es Hwf Hdense Hlen Hsafe h0 Hl Hd _ _ _ _ _ _ cp kill 0 fuel HI)
    as (ok & c' & -> & killed & Hpost & Hkill).
  { unfold check_fuel in Hfuel. fold (universe es) in Hfuel. unfold measure. cbn [calls length].
    rewrite <- (length_fmap fst), pairs_fst, L0_length, Nat.sub_0_r. lia. }
  exists ok, (longest c'), (seqs c'). split; [done|]. destruct ok; destruct Hpost as [Hlo Hpost].
  - split; [done|]. destruct Hpost as (p & σ & ? & HL & ?). exists p, σ. split; [done|].
    split; [by apply Lin_linearization|done].
  - split; [done|]. intros Hk [σ Hσ]. apply (Hpost (Hkill Hk) σ). by apply linearization_Lin.
Qed.

End results.
End CheckOk.
