(* ===== verification/Conversions.v ===== *)
(** The history conversions of porcupine produce checkable histories:
    [makeEntries] from operations, [renumber] and [convertEntries] from
    events. *)
From S2P Require Import Prelude LinkedList Model Lin CheckerProofs.
Import LList PModel Linear CheckOk.
Local Open Scope Z_scope.

Module Conv.

Lemma before_sorted {A} (R : A -> A -> Prop) l x y : StronglySorted R l -> before x y l -> R x y.
Proof.
  induction 1 as [|z l Hl IH HR]; [intros Hb; by apply before_nil in Hb|].
  rewrite before_cons. intros [[-> Hy]|Hb]; [|auto]. rewrite Forall_forall in HR. auto.
Qed.

Section ops.
Context {V : Type} `{!GoSort}.

Definition call_of (k : nat) (op : Operation V) : entry V :=
  mkEntry callEntry (Input op) (Z.of_nat k) (Call op) (op_ClientId op).
Definition return_of (k : nat) (op : Operation V) : entry V :=
  mkEntry returnEntry (Output op) (Z.of_nat k) (Return op) (op_ClientId op).

Lemma elem_of_op_entries (h : list (Operation V)) i e :
  e ∈ op_entries h (Z.of_nat i) <->
  exists k op, h !! k = Some op /\ (e = call_of (i + k) op \/ e = return_of (i + k) op).
Proof.
  revert i. induction h as [|op h IH]; intros i; cbn [op_entries].
  { split; [set_solver|]. by intros (k & op & Hk & _). }
  rewrite !elem_of_cons.
  replace (Z.of_nat i + 1) with (Z.of_nat (S i)) by lia. rewrite IH. split.
  - intros [->|[->|(k & op' & Hk & He)]].
    + exists 0%nat, op. split; [done|]. left. by rewrite Nat.add_0_r.
    + exists 0%nat, op. split; [done|]. right. by rewrite Nat.add_0_r.
    + exists (S k), op'. rewrite Nat.add_succ_r. by split.
  - intros ([|k] & op' & Hk & He).
    + cbn in Hk. simplify_eq. rewrite Nat.add_0_r in He. tauto.
    + right; right. exists k, op'. rewrite Nat.add_succ_r in He. by split.
Qed.

Lemma op_entries_keys (h : list (Operation V)) i : NoDup (key <$> op_entries h (Z.of_nat i)).
Proof.
  revert i. induction h as [|op h IH]; intros i; [constructor|]. cbn [op_entries].
  replace (Z.of_nat i + 1) with (Z.of_nat (S i)) by lia.
  assert (forall k, (k, Z.of_nat i) ∉ key <$> op_entries h (Z.of_nat (S i))) as Hfresh.
  { intros k. rewrite list_elem_of_fmap. intros (e & Hk & He).
    apply elem_of_op_entries in He as (j & op' & _ & [-> | ->]); unfold key in Hk; cbn in Hk; simplify_eq; lia. }
  rewrite !fmap_cons, !NoDup_cons, elem_of_cons. split_and!; [|apply Hfresh|apply IH].
  intros [?|?]; [done|]. by eapply Hfresh.
Qed.

Lemma op_entries_length (h : list (Operation V)) i : len (op_entries h i) = 2 * len h.
Proof.
  revert i. induction h as [|op h IH]; intros i; [done|]. specialize (IH (i + 1)).
  unfold len in *. cbn [op_entries length]. lia.
Qed.

(** Every operation takes some time. *)
Definition timed (h : list (Operation V)) : Prop := Forall (fun op => Call op < Return op) h.

Lemma elem_of_makeEntries (h : list (Operation V)) e :
  e ∈ makeEntries h <-> exists k op, h !! k = Some op /\ (e = call_of k op \/ e = return_of k op).
Proof. unfold makeEntries. rewrite go_sort_perm. apply (elem_of_op_entries h 0). Qed.

Lemma makeEntries_sorted (h : list (Operation V)) x y :
  before x y (makeEntries h) -> time x <= time y.
Proof.
  intros Hb. apply (before_sorted (fun x y => Less y x = false)) in Hb.
  - unfold Less in Hb. zbool. lia.
  - apply go_sort_sorted; unfold Less; intros; zbool; [apply Z.ltb_ge; lia|apply Z.ltb_ge; lia].
Qed.

Lemma makeEntries_before (h : list (Operation V)) x y :
  x ∈ makeEntries h -> y ∈ makeEntries h -> time x < time y -> before x y (makeEntries h).
Proof.
  intros Hx Hy Ht. destruct (before_total x y (makeEntries h) Hx Hy) as [?|Hb]; [|done|].
  - intros ->. lia.
  - apply makeEntries_sorted in Hb. lia.
Qed.

Lemma makeEntries_keys (h : list (Operation V)) : NoDup (key <$> makeEntries h).
Proof. unfold makeEntries. rewrite go_sort_perm. apply (op_entries_keys h 0). Qed.

Lemma makeEntries_len (h : list (Operation V)) : len (makeEntries h) = 2 * len h.
Proof.
  rewrite <- (op_entries_length h 0). unfold len, makeEntries. by rewrite go_sort_perm.
Qed.

Lemma makeEntries_checkable (h : list (Operation V)) :
  timed h -> len h < 2 ^ 62 -> checkable (makeEntries h).
Proof.
  intros Ht Hlen. unfold timed in Ht. rewrite Forall_lookup in Ht. split; [split| |].
  - apply makeEntries_keys.
  - intros e He Hk. pose proof He as (k & op & Hop & [-> | ->])%elem_of_makeEntries; [|done].
    exists (return_of k op). split; [done|]. split; [done|].
    apply makeEntries_before; [done| |by apply (Ht k)].
    apply elem_of_makeEntries. eauto.
  - intros r Hr Hk. pose proof Hr as (k & op & Hop & [-> | ->])%elem_of_makeEntries; [done|].
    exists (call_of k op). split; [done|]. split; [done|].
    apply makeEntries_before; [|done|by apply (Ht k)].
    apply elem_of_makeEntries. eauto.
  - intros e (k & op & Hop & He)%elem_of_makeEntries. rewrite makeEntries_len, Z.mul_comm, Z.div_mul by lia.
    apply lookup_lt_Some in Hop. unfold len. destruct He as [-> | ->]; cbn; lia.
  - rewrite makeEntries_len. lia.
Qed.

Lemma makeEntries_precedes (h : list (Operation V)) i j op op' :
  h !! i = Some op -> h !! j = Some op' ->
  (Return op < Call op' -> precedes (makeEntries h) (Z.of_nat i) (Z.of_nat j)) /\
  (precedes (makeEntries h) (Z.of_nat i) (Z.of_nat j) -> Return op <= Call op').
Proof.
  intros Hi Hj. split.
  - intros Ht. exists (return_of i op), (call_of j op'). split_and!; try done.
    apply makeEntries_before; [..|done]; apply elem_of_makeEntries; eauto.
  - intros (r & e & Hkr & Hir & Hke & Hie & Hb). pose proof (makeEntries_sorted _ _ _ Hb) as Hle.
    destruct (before_elem _ _ _ Hb) as [(k & o & Hk & [-> | ->])%elem_of_makeEntries
      (k' & o' & Hk' & [-> | ->])%elem_of_makeEntries]; try done.
    cbn in *. apply Nat2Z.inj in Hir as ->, Hie as ->. by simplify_eq.
Qed.

End ops.

(** ** Events *)

Section events.
Context {V : Type}.

Definition rename (f : gmap Z Z) (v : Event V) : Event V :=
  mkEvent (ev_ClientId v) (Kind v) (Value v) (default 0 (f !! Id v)).

(** A renumbering table: injective, onto the first [size f] integers. *)
Record table (f : gmap Z Z) : Prop := {
  tab_inj : forall k k' v, f !! k = Some v -> f !! k' = Some v -> k = k';
  tab_range : forall k v, f !! k = Some v -> 0 <= v < Z.of_nat (size f);
}.

Lemma table_empty : table ∅.
Proof. split; intros *; by rewrite lookup_empty. Qed.

Lemma table_insert f k : f !! k = None -> table f -> table (<[k := Z.of_nat (size f)]> f).
Proof.
  intros Hk [Hinj Hrange]. split.
  - intros k1 k2 v. rewrite !lookup_insert. repeat case_decide; subst; intros Ha Hb; simplify_eq; try done.
    + apply Hrange in Hb. lia.
    + apply Hrange in Ha. lia.
    + by eapply Hinj.
  - intros k1 v. rewrite map_size_insert_None by done. rewrite lookup_insert.
    case_decide; intros Ha; simplify_eq; [lia|]. apply Hrange in Ha. lia.
Qed.

(** [renumber_loop] renames with one table that extends the current one and is
    defined on the current ids and on those of the events. *)
Lemma renumber_loop_spec (events : list (Event V)) f :
  table f -> exists g, renumber_loop events f (Z.of_nat (size f)) = rename g <$> events /\
    table g /\ f ⊆ g /\ forall k, is_Some (g !! k) <-> is_Some (f !! k) \/ k ∈ Id <$> events.
Proof.
  revert f. induction events as [|v rest IH]; intros f Hf.
  { exists f. split_and!; [done|done|done|]. intros k. cbn. set_solver. }
  cbn [renumber_loop]. destruct (f !! Id v) as [r|] eqn:Hr.
  - destruct (IH f Hf) as (g & -> & Hg & Hsub & Hdom). exists g. split_and!; [|done|done|].
    + rewrite fmap_cons. f_equal. unfold rename. by rewrite (lookup_weaken _ _ _ _ Hr Hsub).
    + intros k. rewrite Hdom, fmap_cons, elem_of_cons. split; [tauto|].
      intros [?|[->|?]]; auto. 
  - destruct (IH (<[Id v := Z.of_nat (size f)]> f)) as (g & Hrun & Hg & Hsub & Hdom);
      [by apply table_insert|].
    rewrite map_size_insert_None in Hrun by done.
    replace (Z.of_nat (S (size f))) with (Z.of_nat (size f) + 1) in Hrun by lia. rewrite Hrun.
    exists g. split_and!; [|done| |].
    + rewrite fmap_cons. f_equal. unfold rename.
      assert (g !! Id v = Some (Z.of_nat (size f))) as ->; [|done].
      eapply lookup_weaken; [|exact Hsub]. apply lookup_insert_eq.
    + etrans; [|exact Hsub]. by apply insert_subseteq.
    + intros k. rewrite Hdom, lookup_insert, fmap_cons, elem_of_cons. case_decide; subst; [|naive_solver].
      split; [tauto|]. intros _. left. done.
Qed.

Lemma renumber_table (events : list (Event V)) :
  exists g, renumber events = rename g <$> events /\ table g /\
    forall k, is_Some (g !! k) <-> k ∈ Id <$> events.
Proof.
  destruct (renumber_loop_spec events ∅ table_empty) as (g & Hrun & Hg & _ & Hdom).
  exists g. split_and!; [exact Hrun|done|]. intros k. rewrite Hdom, lookup_empty.
  split; [intros [[? ?]|?]; done|tauto].
Qed.

(** A complete sequence of events: as [wf_history], on events. *)
Definition ev_key (v : Event V) : entryKind * Z := (convert_kind (Kind v), Id v).
Record wf_events (evs : list (Event V)) : Prop := {
  wfe_keys : NoDup (ev_key <$> evs);
  wfe_return : forall i v, evs !! i = Some v -> Kind v = CallEvent ->
    exists j w, (i < j)%nat /\ evs !! j = Some w /\ Kind w = ReturnEvent /\ Id w = Id v;
  wfe_call : forall j w, evs !! j = Some w -> Kind w = ReturnEvent ->
    exists i v, (i < j)%nat /\ evs !! i = Some v /\ Kind v = CallEvent /\ Id v = Id w;
}.

Definition entry_at (i : nat) (v : Event V) : entry V :=
  mkEntry (convert_kind (Kind v)) (Value v) (Id v) (Z.of_nat i) (ev_ClientId v).

Lemma convert_lookup (evs : list (Event V)) i :
  convertEntries evs !! i = entry_at i <$> evs !! i.
Proof.
  unfold convertEntries. change 0 with (Z.of_nat 0).
  assert (forall k, convert_loop evs (Z.of_nat k) !! i = entry_at (k + i) <$> evs !! i) as H;
    [|by rewrite H].
  revert i. induction evs as [|v evs IH]; intros i k; [done|]. cbn [convert_loop].
  replace (Z.of_nat k + 1) with (Z.of_nat (S k)) by lia.
  destruct i as [|i]; cbn; [by rewrite Nat.add_0_r|]. rewrite IH. by rewrite Nat.add_succ_r.
Qed.

Lemma lookup_before {A} (l : list A) i j x y :
  l !! i = Some x -> l !! j = Some y -> (i < j)%nat -> before x y l.
Proof.
  intros Hi Hj Hij. exists (take i l), (take (j - S i) (drop (S i) l)), (drop (S j) l).
  rewrite <- (take_drop_middle l i x Hi) at 1. do 2 f_equal.
  assert (drop (S i) l !! (j - S i)%nat = Some y) as Hy by (rewrite lookup_drop; rewrite <- Hj; f_equal; lia).
  rewrite <- (take_drop_middle _ _ _ Hy) at 1. do 2 f_equal. rewrite drop_drop. f_equal. lia.
Qed.

(** The entries of the renamed events. *)
Section renamed.
Context (evs : list (Event V)) (g : gmap Z Z).
Context (Hev : wf_events evs) (Hg : table g) (Hdom : forall k, is_Some (g !! k) <-> k ∈ Id <$> evs).

Definition renamed : list (entry V) := convertEntries (rename g <$> evs).

Lemma renamed_lookup i : renamed !! i = (entry_at i ∘ rename g) <$> evs !! i.
Proof. unfold renamed. rewrite convert_lookup, list_lookup_fmap. by destruct (evs !! i). Qed.

Lemma renamed_id i v : evs !! i = Some v -> exists r, g !! Id v = Some r.
Proof. intros Hv. apply Hdom. apply list_elem_of_fmap_2. by eapply list_elem_of_lookup_2. Qed.

Lemma renamed_elem e : e ∈ renamed -> exists i v, renamed !! i = Some e /\ evs !! i = Some v /\ e = entry_at i (rename g v).
Proof.
  intros [i Hi]%list_elem_of_lookup. pose proof Hi as Hi'. rewrite renamed_lookup in Hi'.
  apply fmap_Some in Hi' as (v & Hv & ->). by exists i, v.
Qed.

Lemma renamed_length : length renamed = length evs.
Proof.
  apply Nat.le_antisymm; apply Nat.nlt_ge; intros Hlt; apply lookup_lt_is_Some_2 in Hlt as [x Hx].
  - rewrite renamed_lookup in Hx. apply fmap_Some in Hx as (v & Hv & _). apply lookup_lt_Some in Hv. lia.
  - assert (renamed !! length renamed = Some (entry_at (length renamed) (rename g x))) as Hy
      by by rewrite renamed_lookup, Hx.
    apply lookup_lt_Some in Hy. lia.
Qed.

Lemma renamed_wf : wf_history renamed.
Proof.
  destruct Hev as [Hk Hret Hcall], Hg as [Hinj _]. split.
  - apply NoDup_alt. intros i j kk Hi Hj. rewrite list_lookup_fmap, renamed_lookup in Hi, Hj.
    destruct (evs !! i) as [v|] eqn:Hv; [|done]. destruct (evs !! j) as [w|] eqn:Hw; [|done].
    destruct (renamed_id _ _ Hv) as [r Hr], (renamed_id _ _ Hw) as [r' Hr']. cbn in Hi, Hj.
    unfold key in *. cbn in *. rewrite Hr in Hi. rewrite Hr' in Hj. cbn in *. simplify_eq.
    assert (Id v = Id w) as Hid by by eapply Hinj.
    eapply (NoDup_lookup _ i j _ Hk); rewrite list_lookup_fmap.
    + by rewrite Hv.
    + rewrite Hw. unfold ev_key. cbn. do 2 f_equal; congruence.
  - intros e (i & v & Hi & Hv & ->)%renamed_elem Hke. cbn in Hke.
    destruct (Hret i v Hv) as (j & w & Hij & Hw & Hkw & Hid); [by destruct (Kind v)|].
    exists (entry_at j (rename g w)). split; [cbn; by rewrite Hkw|]. split; [cbn; by rewrite Hid|].
    eapply lookup_before; [exact Hi| |exact Hij]. by rewrite renamed_lookup, Hw.
  - intros e (j & w & Hj & Hw & ->)%renamed_elem Hke. cbn in Hke.
    destruct (Hcall j w Hw) as (i & v & Hij & Hv & Hkv & Hid); [by destruct (Kind w)|].
    exists (entry_at i (rename g v)). split; [cbn; by rewrite Hkv|]. split; [cbn; by rewrite Hid|].
    eapply lookup_before; [|exact Hj|exact Hij]. by rewrite renamed_lookup, Hv.
Qed.

(** Every name of the table is the name of a call. *)
Lemma renamed_ids : (size g <= length (call_ids renamed))%nat.
Proof.
  destruct Hev as [_ _ Hcall], Hg as [Hinj _]. rewrite <- length_map_to_list, <- (length_fmap snd).
  apply submseteq_length, NoDup_submseteq.
  - apply NoDup_fmap_2_strong; [|apply NoDup_map_to_list].
    intros [k1 v1] [k2 v2] H1%elem_of_map_to_list H2%elem_of_map_to_list. cbn. intros ->.
    f_equal. by eapply Hinj.
  - intros x Hx. apply list_elem_of_fmap in Hx as ([k r'] & -> & Hkr%elem_of_map_to_list).
    assert (k ∈ Id <$> evs) as Hin by (apply Hdom; eauto).
    apply list_elem_of_fmap in Hin as (u & -> & Hu). apply list_elem_of_lookup in Hu as [q Hq].
    assert (exists p c, evs !! p = Some c /\ Kind c = CallEvent /\ Id c = Id u) as (p & c & Hc & Hkc & Hidc).
    { destruct (Kind u) eqn:Hku; [by exists q, u|].
      destruct (Hcall q u Hq Hku) as (p & c & _ & ? & ? & ?). by exists p, c. }
    apply elem_of_call_ids. exists (entry_at p (rename g c)). split_and!.
    + eapply list_elem_of_lookup_2. by rewrite renamed_lookup, Hc.
    + unfold is_call. cbn. by rewrite Hkc.
    + cbn. by rewrite Hidc, Hkr.
Qed.

End renamed.

Lemma convert_renumber_checkable (evs : list (Event V)) :
  wf_events evs -> len evs < 2 ^ 63 -> checkable (convertEntries (renumber evs)).
Proof.
  intros Hev Hlen. destruct (renumber_table evs) as (g & -> & Hg & Hdom). fold (renamed evs g).
  pose proof (renamed_wf evs g Hev Hg Hdom) as Hwf. pose proof (renamed_ids evs g Hev Hg Hdom) as Hsize.
  split; [done| |pose proof (renamed_length evs g); unfold len in *; lia].
  intros e (i & v & _ & Hv & ->)%renamed_elem. destruct (renamed_id evs g Hdom i v Hv) as [r Hr].
  cbn. rewrite Hr. cbn. destruct Hg as [? Hrange]. apply Hrange in Hr as Hb.
  pose proof (call_ids_length _ Hwf) as Hhalf. unfold len. rewrite Hhalf.
  rewrite Nat2Z.inj_mul, Z.mul_comm, Z.div_mul by lia. lia.
Qed.

End events.
End Conv.
