(* ===== verification/Parallel.v ===== *)
(** The concurrent driver of porcupine: [checkParallel], [checkOperations] and
    [checkEvents] of checker.go and the entry points of porcupine.go.

    The goroutines only meet through the [results] channel and the [kill] flag,
    so an execution is given by the sequence of events that the [select] of the
    loop takes: the result of partition [i], or the timeout.  The flag is set
    only when the loop is left, so a result received in the loop was computed
    without seeing it; [kills i] is the flag as seen by goroutine [i] when its
    result is only drained after the loop. *)
From S2P Require Import Prelude LinkedList Model Lin Checker CheckerProofs Conversions.
Import LList PModel Linear Check CheckOk Conv.

Module Par.

Inductive sel := GotResult (i : nat) | TimedOut.

Record linearizationInfo {V : Type} := mkInfo {
  history : list (list (entry V));
  partialLinearizations : list (list (list Z));
}.
Arguments linearizationInfo : clear implicits.
Arguments mkInfo {V}.

Section parallel.
Context {V St : Type} (vnil : V) `{!GoRange}.
Context (fuel : nat).

Abbreviation single := (option (res (bool * list (option nat) * list (list Z)))).

(** The state of the loop: [ok], [count] (the partitions received so far) and
    whether the loop was left by the timeout. *)
Fixpoint par_loop (runs : nat -> single) (n : nat) (computeInfo : bool) (timeout : Z)
    (events : list sel) (ok : bool) (received : list nat) : option (res (bool * bool * list nat)) :=
  match events with
  | [] => None
  | TimedOut :: _ => if (timeout >? 0)%Z then Some (Ret (ok, true, received)) else None
  | GotResult i :: rest =>
      if decide (i < n /\ i ∉ received) then
        match runs i with
        | None => None
        | Some Panic => Some Panic
        | Some (Ret (result, _, _)) =>
            let received := received ++ [i] in
            let ok := ok && result in
            if negb ok && negb computeInfo then Some (Ret (ok, false, received))
            else if n <=? length received then Some (Ret (ok, false, received))
            else par_loop runs n computeInfo timeout rest ok received
        end
      else None
  end.

(** [set]: the distinct non-nil pointers of [longest]. *)
Definition pointer_set (longest : list (option nat)) : list nat :=
  remove_dups (omap (fun p => p) longest).

(** [arr := *k] for each pointer of the set, in the order of the map. *)
Fixpoint read_seqs (seqs : list (list Z)) (ps : list nat) : res (list (list Z)) :=
  match ps with
  | [] => Ret []
  | p :: ps => let! sq := go_index seqs (Z.of_nat p) in
               let! rest := read_seqs seqs ps in Ret (sq :: rest)
  end.

Fixpoint partials_of (l : list single) : option (res (list (list (list Z)))) :=
  match l with
  | [] => Some (Ret [])
  | None :: _ => None
  | Some Panic :: _ => Some Panic
  | Some (Ret (_, longest, seqs)) :: rest =>
      match partials_of rest with
      | None => None
      | Some r => Some (let! p := read_seqs seqs (range_keys (pointer_set longest)) in
                        let! ps := r in Ret (p :: ps))
      end
  end.

Definition checkParallel (m : Model V St) (hist : list (list (entry V))) (computeInfo : bool)
    (timeout : Z) (events : list sel) (kills : nat -> nat -> bool)
    : option (res (CheckResult * linearizationInfo V)) :=
  let run kill i := match hist !! i with
                    | Some sub => checkSingle vnil fuel m sub computeInfo kill
                    | None => None
                    end in
  match par_loop (run (fun _ => false)) (length hist) computeInfo timeout events true [] with
  | None => None
  | Some Panic => Some Panic
  | Some (Ret (ok, timedOut, received)) =>
      let result := if negb ok then Illegal else if timedOut then Unknown else Ok in
      if computeInfo then
        let final i := if decide (i ∈ received) then run (fun _ => false) i else run (kills i) i in
        match partials_of (final <$> seq 0 (length hist)) with
        | None => None
        | Some r => Some (let! ps := r in Ret (result, mkInfo hist ps))
        end
      else Some (Ret (result, mkInfo [] []))
  end.

(** ** Correctness *)

(** The verdicts of the partitions that the loop has received. *)
Lemma par_loop_spec runs (verdict : nat -> bool) n ci timeout events ok received r :
  (forall i, i < n -> exists lg sq, runs i = Some (Ret (verdict i, lg, sq))) ->
  ok = forallb verdict received ->
  par_loop runs n ci timeout events ok received = Some r ->
  exists ok' timedOut received', r = Ret (ok', timedOut, received') /\
    ok' = forallb verdict received' /\ (forall i, i ∈ received' -> i ∈ received \/ i < n) /\
    (timedOut = true -> (timeout > 0)%Z /\ TimedOut ∈ events) /\
    (timedOut = false -> ok' = true -> NoDup received -> (forall i, i ∈ received -> i < n) ->
       NoDup received' /\ n <= length received').
Proof.
  intros Hruns. revert ok received. induction events as [|ev events IH]; intros ok received Hok; [done|].
  cbn [par_loop]. destruct ev as [i|].
  2: { destruct (timeout >? 0)%Z eqn:Ht; [|done]. intros [= <-]. zbool.
       exists ok, true, received. split_and!; [done|done|by left|intros _; split; [lia|set_solver]|done]. }
  case_decide as Hi; [|done]. destruct Hi as [Hin Hirec].
  destruct (Hruns i Hin) as (lg & sq & ->).
  assert (forallb verdict (received ++ [i]) = ok && verdict i) as Hall
    by (rewrite forallb_app; cbn; by rewrite andb_true_r, Hok).
  assert (forall j, j ∈ received ++ [i] -> j ∈ received \/ j < n) as Hsub by set_solver.
  destruct (negb (ok && verdict i) && negb ci) eqn:Hbreak.
  { intros [= <-]. exists (ok && verdict i), false, (received ++ [i]).
    split_and!; [done|done|done|done|]. intros _ Ht. rewrite Ht in Hbreak. done. }
  destruct (n <=? length (received ++ [i])) eqn:Hn.
  { intros [= <-]. exists (ok && verdict i), false, (received ++ [i]).
    split_and!; [done|done|done|done|]. intros _ _ Hnd Hlt. split; [|by apply Nat.leb_le].
    apply NoDup_app. split; [done|]. split; [set_solver|apply NoDup_singleton]. }
  intros Hr. destruct (IH _ _ (eq_sym Hall) Hr) as (ok' & t & rec' & -> & ? & Hsub' & Ht & Hfin).
  exists ok', t, rec'. split_and!; [done|done|intros j Hj; destruct (Hsub' j Hj); auto| |].
  - intros Htt. destruct (Ht Htt). split; [done|set_solver].
  - intros Hf Hok' Hnd Hlt. apply Hfin; [done|done| |set_solver].
    apply NoDup_app. split; [done|]. split; [set_solver|apply NoDup_singleton].
Qed.

(** Whatever the order of the results, the loop ends once all are there. *)
Lemma par_loop_total runs (verdict : nat -> bool) n ci timeout order ok received :
  (forall i, i < n -> exists lg sq, runs i = Some (Ret (verdict i, lg, sq))) ->
  order <> [] -> received ++ order ≡ₚ seq 0 n ->
  exists r, par_loop runs n ci timeout (GotResult <$> order) ok received = Some (Ret r).
Proof.
  intros Hruns. revert ok received. induction order as [|i order IH]; intros ok received Hne Hp; [done|].
  cbn [par_loop fmap list_fmap].
  assert (NoDup (received ++ i :: order)) as Hnd by (rewrite Hp; apply NoDup_seq).
  assert (i < n) as Hin.
  { assert (i ∈ seq 0 n) as Hs by (rewrite <- Hp; set_solver). apply elem_of_seq in Hs. lia. }
  rewrite decide_True by (split; [done|]; apply NoDup_app in Hnd as (_ & Hd & _); set_solver).
  destruct (Hruns i Hin) as (lg & sq & ->).
  destruct (negb (ok && verdict i) && negb ci); [by eexists|].
  destruct (n <=? length (received ++ [i])) eqn:Hn; [by eexists|].
  apply IH; [|by rewrite <- app_assoc]. intros ->. apply Permutation_length in Hp.
  rewrite length_seq in Hp. apply Nat.leb_gt in Hn. lia.
Qed.

(** The verdict of one partition. *)
Definition verdict_of (m : Model V St) (hist : list (list (entry V))) (ci : bool) (i : nat) : bool :=
  match hist !! i with
  | Some sub => match checkSingle vnil fuel m sub ci (fun _ => false) with
                | Some (Ret (ok, _, _)) => ok
                | _ => false
                end
  | None => false
  end.

Lemma runs_verdict m eqf hist ci i sub :
  model_ok m eqf -> hist !! i = Some sub -> checkable sub -> step_safe m sub -> check_fuel sub <= fuel ->
  (exists lg sq, checkSingle vnil fuel m sub ci (fun _ => false) =
     Some (Ret (verdict_of m hist ci i, lg, sq))) /\
  (verdict_of m hist ci i = true <-> linearizable m sub).
Proof.
  intros Hm Hi Hc Hsf Hf. unfold verdict_of. rewrite Hi.
  destruct (checkSingle_result vnil m eqf sub fuel ci (fun _ => false) Hm Hc Hsf Hf)
    as (ok & lg & sq & -> & _ & Hok).
  split; [by exists lg, sq|]. destruct ok.
  - split; [|done]. intros _. destruct Hok as (p & σ & _ & Hσ & _). by exists σ.
  - split; [done|]. intros Hl. by destruct (Hok (fun _ => eq_refl)).
Qed.

(** What is needed of every partition. *)
Definition parts_ok (m : Model V St) (hist : list (list (entry V))) : Prop :=
  forall sub, sub ∈ hist -> checkable sub /\ step_safe m sub /\ check_fuel sub <= fuel.

Lemma read_seqs_total seqs ps :
  (forall p, p ∈ ps -> exists σ, seqs !! p = Some σ) -> exists l, read_seqs seqs ps = Ret l.
Proof.
  induction ps as [|p ps IH]; intros Hps; [by eexists|]. cbn [read_seqs].
  destruct (Hps p) as [σ Hσ]; [set_solver|].
  assert (go_index seqs (Z.of_nat p) = Ret σ) as ->
    by (apply go_index_ret; rewrite Nat2Z.id; split; [lia|done]).
  cbn [rbind]. destruct IH as [l ->]; [set_solver|]. by eexists.
Qed.

Lemma elem_of_pointer_set lg p : p ∈ pointer_set lg <-> exists i : nat, lg !! i = Some (Some p).
Proof.
  unfold pointer_set. rewrite elem_of_remove_dups, list_elem_of_omap. split.
  - intros (o & Ho & ->). by apply list_elem_of_lookup in Ho.
  - intros [i Hi]. exists (Some p). split; [by eapply list_elem_of_lookup_2|done].
Qed.

Lemma partials_total m eqf hist l ci :
  model_ok m eqf -> parts_ok m hist ->
  (forall x, x ∈ l -> exists i kill, x = match hist !! i with
      Some sub => checkSingle vnil fuel m sub ci kill | None => None end /\ i < length hist) ->
  exists ps, partials_of l = Some (Ret ps).
Proof.
  intros Hm Hp. induction l as [|x l IH]; intros Hl; [by eexists|].
  destruct (Hl x) as (i & kill & -> & Hi); [set_solver|].
  destruct (lookup_lt_is_Some_2 hist i Hi) as [sub Hsub]. rewrite Hsub.
  destruct (Hp sub) as (Hc & Hs & Hf); [by eapply list_elem_of_lookup_2|].
  destruct (checkSingle_result vnil m eqf sub fuel ci kill Hm Hc Hs Hf) as (ok & lg & sq & -> & Hlo & _).
  cbn [partials_of]. destruct IH as [ps ->]; [set_solver|].
  destruct (read_seqs_total sq (range_keys (pointer_set lg))) as [r ->].
  { intros p. rewrite range_perm, elem_of_pointer_set. intros [j Hj].
    destruct (lo_points _ _ _ _ Hlo j p Hj) as (σ & Hσ & _). by exists σ. }
  by eexists.
Qed.

(** The verdict of [checkParallel], whatever events it gets. *)
Lemma checkParallel_verdict m eqf hist ci timeout events kills r :
  model_ok m eqf -> parts_ok m hist -> checkParallel m hist ci timeout events kills = Some r ->
  exists res info, r = Ret (res, info) /\
    (res = Ok -> forall sub, sub ∈ hist -> linearizable m sub) /\
    (res = Illegal -> exists sub, sub ∈ hist /\ ~ linearizable m sub) /\
    (res = Unknown -> (timeout > 0)%Z /\ TimedOut ∈ events).
Proof.
  intros Hm Hp. unfold checkParallel.
  set (runs := fun i : nat => match hist !! i with
     Some sub => checkSingle vnil fuel m sub ci (fun _ => false) | None => None end).
  assert (forall i sub, hist !! i = Some sub ->
    (exists lg sq, runs i = Some (Ret (verdict_of m hist ci i, lg, sq))) /\
    (verdict_of m hist ci i = true <-> linearizable m sub)) as Hv.
  { intros i sub Hi. unfold runs. rewrite Hi. destruct (Hp sub) as (? & ? & ?); [by eapply list_elem_of_lookup_2|].
    by apply (runs_verdict m eqf). }
  destruct (par_loop runs (length hist) ci timeout events true []) as [r0|] eqn:Hloop; [|done].
  destruct (par_loop_spec runs (verdict_of m hist ci) (length hist) ci timeout events true [] r0)
    as (ok & t & rec & -> & Hok & Hsub & Ht & Hfin); [|done|exact Hloop|].
  { intros i Hi. apply lookup_lt_is_Some_2 in Hi as [sub Hi]. by apply (Hv i sub). }
  intros Hr. assert (exists info, r = Ret (if negb ok then Illegal else if t then Unknown else Ok, info))
    as [info ->].
  { destruct ci; [|injection Hr as <-; by eexists]. revert Hr.
    edestruct (partials_total m eqf hist) as [ps ->]; [done|done| |intros [= <-]; by eexists].
    intros x Hx. apply list_elem_of_fmap in Hx as (i & -> & Hi%elem_of_seq).
    case_decide; (do 2 eexists; split; [reflexivity|lia]). }
  eexists _, info. split; [done|]. split_and!.
  - destruct ok; [|done]. destruct t; [done|]. intros _ sub Hin.
    destruct (Hfin eq_refl eq_refl) as [Hnd Hlen]; [constructor|set_solver|].
    assert (rec ≡ₚ seq 0 (length hist)) as Hperm.
    { apply submseteq_length_Permutation; [|by rewrite length_seq].
      apply NoDup_submseteq; [done|]. intros i Hi. apply elem_of_seq.
      destruct (Hsub i Hi); [set_solver|lia]. }
    apply list_elem_of_lookup in Hin as [i Hi]. apply (Hv i sub Hi).
    symmetry in Hok. rewrite forallb_forall in Hok. apply Hok, list_elem_of_In. rewrite Hperm.
    apply elem_of_seq. apply lookup_lt_Some in Hi. lia.
  - destruct ok; [by destruct t|]. intros _.
    assert (exists i, i ∈ rec /\ verdict_of m hist ci i = false) as (i & Hi & Hvi).
    { clear -Hok. induction rec as [|i rec IH]; [done|]. cbn in Hok.
      destruct (verdict_of m hist ci i) eqn:E.
      - destruct IH as (j & ? & ?); [done|]. exists j. split; [set_solver|done].
      - exists i. split; [set_solver|done]. }
    destruct (Hsub i Hi) as [?|Hlt]; [set_solver|].
    apply lookup_lt_is_Some_2 in Hlt as [sub Hs]. exists sub.
    split; [by eapply list_elem_of_lookup_2|]. intros Hl. apply (Hv i sub Hs) in Hl. congruence.
  - destruct ok; [|done]. destruct t; [|done]. auto.
Qed.

(** With every partition received, in any order, and no timeout. *)
Lemma checkParallel_order m eqf hist ci order kills :
  model_ok m eqf -> parts_ok m hist -> hist <> [] -> order ≡ₚ seq 0 (length hist) ->
  exists res info, checkParallel m hist ci 0 (GotResult <$> order) kills = Some (Ret (res, info)) /\
    (res = Ok <-> forall sub, sub ∈ hist -> linearizable m sub) /\ res <> Unknown.
Proof.
  intros Hm Hp Hne Hperm.
  assert (exists r, checkParallel m hist ci 0 (GotResult <$> order) kills = Some r) as [r Hr].
  { unfold checkParallel.
    match goal with |- exists r, match ?l with _ => _ end = _ =>
      assert (exists x, l = Some (Ret x)) as [[[ok t] rec] ->] end.
    { apply (par_loop_total _ (verdict_of m hist ci)).
      - intros i Hi. apply lookup_lt_is_Some_2 in Hi as [sub Hi]. rewrite Hi.
        destruct (Hp sub) as (? & ? & ?); [by eapply list_elem_of_lookup_2|].
        by apply (runs_verdict m eqf).
      - intros ->. apply Permutation_nil_l in Hperm. by destruct hist.
      - done. }
    destruct ci; [|by eexists].
    edestruct (partials_total m eqf hist) as [ps ->]; [done|done| |by eexists].
    intros x Hx. apply list_elem_of_fmap in Hx as (i & -> & Hi%elem_of_seq).
    case_decide; (do 2 eexists; split; [reflexivity|lia]). }
  destruct (checkParallel_verdict m eqf hist ci 0 _ kills r Hm Hp Hr)
    as (res & info & -> & Hok & Hill & Hunk).
  exists res, info. split; [done|]. assert (res <> Unknown) as Hnu.
  { intros Hu. destruct (Hunk Hu) as [? _]. lia. }
  split; [|done]. split; [done|]. intros Hall. destruct res; [done|done|].
  destruct (Hill eq_refl) as (sub & Hin & Hn). by destruct Hn; apply Hall.
Qed.

End parallel.

(** ** The entry points *)

Section entry_points.
Context {V St : Type} `{!EqDecision St} (vnil : V) (fmt_V : V -> string) (fmt_St : St -> string).
Context `{!GoSort} `{!GoRange} (fuel : nat).

Definition call_default {A B} (f : option (A -> res B)) (x : A) : res B :=
  match f with Some f => f x | None => Panic end.

Definition checkEvents (m : Model V St) (hist : list (Event V)) (verbose : bool) (timeout : Z)
    (events : list sel) (kills : nat -> nat -> bool) :=
  let m := fillDefault fmt_V fmt_St m in
  match call_default (PartitionEvent m) hist with
  | Panic => Some Panic
  | Ret partitions =>
      let l := (fun subhistory => convertEntries (renumber subhistory)) <$> partitions in
      checkParallel vnil fuel m l verbose timeout events kills
  end.

Definition checkOperations (m : Model V St) (hist : list (Operation V)) (verbose : bool) (timeout : Z)
    (events : list sel) (kills : nat -> nat -> bool) :=
  let m := fillDefault fmt_V fmt_St m in
  match call_default (Partition m) hist with
  | Panic => Some Panic
  | Ret partitions =>
      let l := makeEntries <$> partitions in
      checkParallel vnil fuel m l verbose timeout events kills
  end.

Definition result_of {A} (r : option (res (CheckResult * A))) : option (res CheckResult) :=
  rmap fst <$> r.

Definition CheckOperations m hist events kills : option (res bool) :=
  rmap (fun r => bool_decide (r = Ok)) <$> result_of (checkOperations m hist false 0 events kills).
Definition CheckOperationsTimeout m hist timeout events kills :=
  result_of (checkOperations m hist false timeout events kills).
Definition CheckOperationsVerbose m hist timeout events kills :=
  checkOperations m hist true timeout events kills.
Definition CheckEvents m hist events kills : option (res bool) :=
  rmap (fun r => bool_decide (r = Ok)) <$> result_of (checkEvents m hist false 0 events kills).
Definition CheckEventsTimeout m hist timeout events kills :=
  result_of (checkEvents m hist false timeout events kills).
Definition CheckEventsVerbose m hist timeout events kills :=
  checkEvents m hist true timeout events kills.

(** [fillDefault] does not touch [Init] and [Step]. *)
Lemma linearizable_fill (m : Model V St) es :
  linearizable (fillDefault fmt_V fmt_St m) es <-> linearizable m es.
Proof.
  assert (forall σ st, run (fillDefault fmt_V fmt_St m) es st σ = run m es st σ) as Hrun.
  { induction σ as [|i σ IH]; intros st; [done|]. cbn.
    change (step_id (fillDefault fmt_V fmt_St m) es st i) with (step_id m es st i).
    destruct (step_id m es st i); [apply IH|done]. }
  split; intros (σ & [Hp Ho Hr]); exists σ; (split; [done|done|]); [by rewrite <- Hrun|by rewrite Hrun].
Qed.

Lemma fillDefault_ok (m : Model V St) eqf :
  model_ok m eqf \/ (Equal m = None /\ eqf = ShallowEqual) ->
  model_ok (fillDefault fmt_V fmt_St m) eqf.
Proof.
  intros [[He Hr Hs]|[He ->]].
  - split; cbn; [by rewrite He|done|done].
  - split; cbn; [by rewrite He| |].
    + intros s. unfold ShallowEqual. by apply bool_decide_eq_true.
    + intros s1 s2 i o Heq. unfold ShallowEqual in *. apply bool_decide_eq_true in Heq as ->.
      cbn. destruct (Step m s2 i o) as [[b t]|]; [|done]. split; [done|]. by apply bool_decide_eq_true.
Qed.

End entry_points.
End Par.
