(* ===== verification/KvModel.v ===== *)
(** The key/value model of models/kv.go. *)
From S2P Require Import Prelude LinkedList Model.
Import LList PModel.

Module Kv.

Record KvInput := mkKvInput { Op : Z; Key : string; in_Value : string }.
Record KvOutput := mkKvOutput { out_Value : string }.

(** The [interface{}] values of a key/value history. *)
Inductive kvalue := VInput (i : KvInput) | VOutput (o : KvOutput).

(** [v.(KvInput)] and [v.(KvOutput)] *)
Definition as_KvInput (v : kvalue) : res KvInput :=
  match v with VInput i => Ret i | VOutput _ => Panic end.
Definition as_KvOutput (v : kvalue) : res KvOutput :=
  match v with VOutput o => Ret o | VInput _ => Panic end.

Section kv.
Context `{!GoSort} `{!GoRange}.

(** [m[key] = append(m[key], v)] for every operation *)
Fixpoint group (history : list (Operation kvalue)) (m : gmap string (list (Operation kvalue)))
    : res (gmap string (list (Operation kvalue))) :=
  match history with
  | [] => Ret m
  | v :: rest =>
      let! i := as_KvInput (Input v) in
      let key := Key i in
      group rest (<[key := default [] (m !! key) ++ [v]]> m)
  end.

Definition KvPartition (history : list (Operation kvalue)) : res (list (list (Operation kvalue))) :=
  let! m := group history ∅ in
  let keys := range_keys (map_to_list m).*1 in
  let keys := sort_Strings keys in
  Ret ((fun k => default [] (m !! k)) <$> keys).

Definition KvInit (_ : unit) : string := "".

Definition KvStep (st : string) (input output : kvalue) : res (bool * string) :=
  let! inp := as_KvInput input in
  let! out := as_KvOutput output in
  if (Op inp =? 0)%Z then Ret (String.eqb (out_Value out) st, st)
  else if (Op inp =? 1)%Z then Ret (true, in_Value inp)
  else Ret (true, (st +:+ in_Value inp)%string).

Definition KvDescribe (input output : kvalue) : res string :=
  let! inp := as_KvInput input in
  let! out := as_KvOutput output in
  Ret (if (Op inp =? 0)%Z then "get('" +:+ Key inp +:+ "') -> '" +:+ out_Value out +:+ "'"
  else if (Op inp =? 1)%Z then "put('" +:+ Key inp +:+ "', '" +:+ in_Value inp +:+ "')"
  else if (Op inp =? 2)%Z then "append('" +:+ Key inp +:+ "', '" +:+ in_Value inp +:+ "')"
  else "<invalid>")%string.

Definition KvModel : Model kvalue string := {|
  Partition := Some KvPartition;
  PartitionEvent := None;
  Init := KvInit;
  Step := KvStep;
  Equal := None;
  DescribeOperation := Some KvDescribe;
  DescribeState := None;
|}.

(** ** The partition by key *)

Definition op_key (v : Operation kvalue) : option string :=
  match Input v with VInput i => Some (Key i) | VOutput _ => None end.

Definition of_key (k : string) (history : list (Operation kvalue)) : list (Operation kvalue) :=
  filter (fun v => op_key v = Some k) history.

Lemma group_spec history m m' :
  group history m = Ret m' ->
  (forall v, v ∈ history -> is_Some (op_key v)) /\
  forall k, m' !! k = match m !! k, of_key k history with
                      | None, [] => None
                      | o, l => Some (default [] o ++ l)
                      end.
Proof.
  revert m. induction history as [|v rest IH]; intros m; cbn [group].
  - intros [= <-]. split; [set_solver|]. intros k. cbn. destruct (m !! k); [|done].
    cbn. by rewrite app_nil_r.
  - unfold as_KvInput, of_key, op_key. destruct (Input v) as [i|] eqn:Hi; [|done]. cbn [rbind].
    intros Hg. apply IH in Hg as [Hall Hg]. split.
    + intros w [->|Hw]%elem_of_cons; [|by apply Hall]. by rewrite Hi.
    + intros k. rewrite Hg, filter_cons, Hi. unfold of_key, op_key. rewrite lookup_insert.
      case_decide as Hk.
      * subst k. rewrite decide_True by done. cbn. destruct (m !! Key i); cbn.
        -- by rewrite <- app_assoc.
        -- done.
      * rewrite decide_False by congruence. done.
Qed.

Lemma group_total history m :
  (forall v, v ∈ history -> is_Some (op_key v)) -> exists m', group history m = Ret m'.
Proof.
  revert m. induction history as [|v rest IH]; intros m Hall; cbn [group]; [by eexists|].
  destruct (Hall v) as [k Hk]; [set_solver|]. unfold op_key, as_KvInput in *.
  destruct (Input v); [|done]. cbn [rbind]. apply IH. set_solver.
Qed.

Lemma KvPartition_spec history :
  (forall v, v ∈ history -> is_Some (op_key v)) ->
  exists ks, KvPartition history = Ret ((fun k => of_key k history) <$> ks) /\
    StronglySorted (fun a b => str_less b a = false) ks /\ NoDup ks /\
    forall k, k ∈ ks <-> exists v, v ∈ history /\ op_key v = Some k.
Proof.
  intros Hall. unfold KvPartition. destruct (group_total history ∅ Hall) as (m & Hg). rewrite Hg. cbn [rbind].
  destruct (group_spec _ _ _ Hg) as [_ Hm]. setoid_rewrite lookup_empty in Hm.
  set (ks := sort_Strings (range_keys (map_to_list m).*1)).
  assert (ks ≡ₚ (map_to_list m).*1) as Hp by (unfold ks, sort_Strings; by rewrite go_sort_perm, range_perm).
  assert (forall k, k ∈ ks <-> is_Some (m !! k)) as Hks.
  { intros k. rewrite Hp, list_elem_of_fmap. split.
    - intros ([k' l] & -> & Hin%elem_of_map_to_list). by eexists.
    - intros [l Hl]. exists (k, l). split; [done|]. by apply elem_of_map_to_list. }
  exists ks. split_and!.
  - f_equal. apply list_fmap_ext. intros i k Hk. apply list_elem_of_lookup_2, Hks in Hk as [l Hl].
    rewrite Hl. cbn. rewrite Hm in Hl. by destruct (of_key k history); simplify_eq.
  - apply sort_Strings_sorted.
  - rewrite Hp. apply NoDup_fst_map_to_list.
  - intros k. rewrite Hks, Hm. unfold of_key. split.
    + intros [l Hl]. destruct (filter _ history) as [|v l'] eqn:Hf; [done|].
      assert (v ∈ filter (fun v => op_key v = Some k) history) as Hv by (rewrite Hf; set_solver).
      apply list_elem_of_filter in Hv as [? ?]. eauto.
    + intros (v & Hv & Hk). destruct (filter _ history) as [|w l'] eqn:Hf; [|by eexists].
      assert (v ∈ filter (fun v => op_key v = Some k) history) as Hin by by apply list_elem_of_filter.
      rewrite Hf in Hin. set_solver.
Qed.

End kv.
End Kv.
