(* ===== verification/Locality.v ===== *)
(** Linearizability of lists of operations, and its locality: a history on
    independent objects is linearizable when the history of every object is.
    This is what makes it sound to check the partitions of [KvModel] one by
    one. *)
From S2P Require Import Prelude LinkedList Model Lin CheckerProofs Conversions KvModel.
Import LList PModel Conv Kv.

Module Local.

(** ** Linearizability of a list of operations, without entries *)

(** [op] comes before [op'] in real time.  An operation that returns at the very
    time when another one is called comes before it if [ties] is set, and is
    concurrent with it otherwise. *)
Definition earlier {V} (ties : bool) (op op' : Operation V) : Prop :=
  if ties then (Return op <= Call op')%Z else (Return op < Call op')%Z.

#[export] Instance earlier_dec {V} ties (op op' : Operation V) : Decision (earlier ties op op').
Proof. unfold earlier. destruct ties; apply _. Defined.

Section spec.
Context {V St : Type} (m : Model V St).

Fixpoint run_ops (h : list (Operation V)) (st : St) (σ : list nat) : option St :=
  match σ with
  | [] => Some st
  | i :: σ =>
      match h !! i with
      | Some op => match Step m st (Input op) (Output op) with
                   | Ret (true, st') => run_ops h st' σ
                   | _ => None
                   end
      | None => None
      end
  end.

Definition ops_linearizable_with (ties : bool) (h : list (Operation V)) : Prop :=
  exists σ, σ ≡ₚ seq 0 (length h) /\
    (forall i j op op', h !! i = Some op -> h !! j = Some op' -> earlier ties op op' -> before i j σ) /\
    is_Some (run_ops h (Init m tt) σ).

(** Operations that touch are concurrent. *)
Definition ops_linearizable : list (Operation V) -> Prop := ops_linearizable_with false.

(** An order that respects ties is an order. *)
Lemma ops_linearizable_ties h : ops_linearizable_with true h -> ops_linearizable h.
Proof.
  intros (σ & Hp & Ho & Hr). exists σ. split_and!; [done| |done]. intros i j op op' Hi Hj Hlt.
  apply (Ho i j op op' Hi Hj). unfold earlier in *. lia.
Qed.

(** The operations in the order of their linearization, tagged with identities
    that keep equal operations apart. *)
Fixpoint run_seq (s : list (nat * Operation V)) (st : St) : option St :=
  match s with
  | [] => Some st
  | (_, op) :: s => match Step m st (Input op) (Output op) with
                    | Ret (true, st') => run_seq s st'
                    | _ => None
                    end
  end.

Lemma run_ops_seq (l : list (nat * Operation V)) st σ :
  (forall i, i ∈ σ -> i < length l) -> run_ops l.*2 st σ = run_seq (omap (l !!.) σ) st.
Proof.
  revert st. induction σ as [|i σ IH]; intros st Hσ; [done|]. cbn.
  destruct (lookup_lt_is_Some_2 l i) as [[x op] Hi]; [set_solver|].
  rewrite list_lookup_fmap, Hi. cbn. destruct (Step m st _ _) as [[[|] st']|]; try done. apply IH. set_solver.
Qed.

End spec.

(** ** Order *)

(** [a] may come before [b]. *)
Definition rt {V} (ties : bool) (a b : nat * Operation V) : Prop := ~ earlier ties b.2 a.2.

Lemma StronglySorted_before {A} (R : A -> A -> Prop) l :
  StronglySorted R l <-> forall x y, before x y l -> R x y.
Proof.
  split.
  - induction 1 as [|z l Hs IH Hall]; intros x y; [intros Hb; by apply before_nil in Hb|].
    rewrite before_cons. intros [[-> Hy]|Hb]; [|by apply IH]. rewrite Forall_forall in Hall. by apply Hall.
  - induction l as [|z l IH]; intros Hb; constructor.
    + apply IH. intros x y Hxy. apply Hb, before_cons. by right.
    + apply Forall_forall. intros y Hy. apply Hb, before_cons. by left.
Qed.

Lemma before_omap {A B} (f : A -> option B) x y l :
  before x y (omap f l) -> exists i j, before i j l /\ f i = Some x /\ f j = Some y.
Proof.
  induction l as [|z l IH]; cbn; [intros Hb; by apply before_nil in Hb|].
  destruct (f z) as [w|] eqn:Hz.
  - rewrite before_cons. intros [[-> (j & Hj & Hy)%list_elem_of_omap]|Hb].
    + exists z, j. split; [apply before_cons; by left|done].
    + destruct (IH Hb) as (i & j & ? & ? & ?). exists i, j. split; [apply before_cons; by right|done].
  - intros Hb. destruct (IH Hb) as (i & j & ? & ? & ?). exists i, j. split; [apply before_cons; by right|done].
Qed.

Lemma before_omap_intro {A B} (f : A -> option B) i j x y l :
  before i j l -> f i = Some x -> f j = Some y -> before x y (omap f l).
Proof.
  intros (l1 & l2 & l3 & ->) Hx Hy. exists (omap f l1), (omap f l2), (omap f l3).
  rewrite !omap_app. cbn. rewrite Hx. cbn. rewrite omap_app. cbn. by rewrite Hy.
Qed.

Lemma omap_lookup_seq {A} (l1 l2 : list A) :
  omap ((l1 ++ l2) !!.) (seq (length l1) (length l2)) = l2.
Proof.
  revert l1. induction l2 as [|x l2 IH]; intros l1; [done|]. cbn. rewrite list_lookup_middle by done. f_equal.
  specialize (IH (l1 ++ [x])). rewrite length_app in IH. cbn in IH.
  rewrite Nat.add_1_r, <- app_assoc in IH. exact IH.
Qed.

Lemma omap_fmap {A B C} (f : A -> B) (g : B -> option C) (l : list A) : omap g (f <$> l) = omap (g ∘ f) l.
Proof. induction l as [|x l IH]; [done|]. cbn. by rewrite <- IH. Qed.

Lemma omap_ext {A B} (f g : A -> option B) (l : list A) : (forall x, f x = g x) -> omap f l = omap g l.
Proof. intros Hfg. induction l as [|x l IH]; [done|]. cbn. by rewrite Hfg, IH. Qed.

Section lin.
Context {V St : Type} (m : Model V St) (ties : bool).
Implicit Types l s : list (nat * Operation V).

Definition lin l : Prop := exists s, s ≡ₚ l /\ StronglySorted (rt ties) s /\ is_Some (run_seq m s (Init m tt)).

Lemma lin_of_ops l σ :
  NoDup l -> σ ≡ₚ seq 0 (length l) -> is_Some (run_ops m l.*2 (Init m tt) σ) ->
  (forall i j op op', l.*2 !! i = Some op -> l.*2 !! j = Some op' -> earlier ties op op' -> before i j σ) ->
  lin l.
Proof.
  intros Hnd Hp Hrun Hrt.
  assert (forall i, i ∈ σ -> i < length l) as Hσ by (intros i; rewrite Hp, elem_of_seq; lia).
  exists (omap (l !!.) σ). split_and!.
  - rewrite Hp. exact (eq_ind_r (fun k => k ≡ₚ l) (Permutation_refl l) (omap_lookup_seq [] l)).
  - apply StronglySorted_before. intros x y (i & j & Hb & Hx & Hy)%before_omap Hlt.
    apply (before_asym i j σ); [rewrite Hp; apply NoDup_seq|done|].
    apply (Hrt j i y.2 x.2); [by rewrite list_lookup_fmap, Hy|by rewrite list_lookup_fmap, Hx|done].
  - by rewrite <- run_ops_seq.
Qed.

Lemma ops_of_lin l : NoDup l -> timed l.*2 -> lin l -> ops_linearizable_with m ties l.*2.
Proof.
  intros Hnd Ht (s & Hp & Hs & Hrun). apply Permutation_inj in Hp as Hf.
  destruct Hf as (Hlen & f & Hinj & Hf). set (σ := f <$> seq 0 (length s)).
  assert (omap (l !!.) σ = s) as Hσs.
  { subst σ. rewrite omap_fmap. transitivity (omap (([] ++ s) !!.) (seq 0 (length s))).
    - apply omap_ext. intros i. symmetry. apply Hf.
    - apply (omap_lookup_seq [] s). }
  assert (forall i, i ∈ σ -> i < length l) as Hσ.
  { intros i (k & -> & Hk%elem_of_seq)%list_elem_of_fmap. apply lookup_lt_is_Some_1. rewrite <- Hf.
    apply lookup_lt_is_Some_2. lia. }
  assert (σ ≡ₚ seq 0 (length l)) as Hperm.
  { apply submseteq_length_Permutation.
    - apply NoDup_submseteq; [subst σ; apply NoDup_fmap_2; [done|apply NoDup_seq]|].
      intros i Hi. apply elem_of_seq. specialize (Hσ i Hi). lia.
    - subst σ. rewrite length_fmap, !length_seq. lia. }
  exists σ. rewrite length_fmap, run_ops_seq, Hσs by done. split_and!; [done| |done].
  intros i j op op' Hi Hj Hlt. rewrite list_lookup_fmap in Hi, Hj.
  destruct (l !! i) as [x|] eqn:Hx; [|done]. destruct (l !! j) as [y|] eqn:Hy; [|done].
  injection Hi as <-. injection Hj as <-.
  assert (i <> j) as Hne.
  { intros <-. rewrite Hx in Hy. injection Hy as <-. unfold timed in Ht. rewrite Forall_fmap, Forall_lookup in Ht.
    specialize (Ht i x Hx). unfold earlier in Hlt. cbn in Ht. destruct ties; lia. }
  assert (forall k, k < length l -> k ∈ σ) as Hin by (intros k Hk; rewrite Hperm, elem_of_seq; lia).
  destruct (before_total i j σ) as [?|Hb]; [by apply Hin; eapply lookup_lt_Some|by apply Hin; eapply lookup_lt_Some|done|done|].
  exfalso. rewrite StronglySorted_before in Hs. apply (Hs y x); [|done]. rewrite <- Hσs.
  by apply (before_omap_intro _ j i).
Qed.

Lemma ops_lin l : NoDup l -> timed l.*2 -> ops_linearizable_with m ties l.*2 <-> lin l.
Proof.
  intros Hnd Ht. split; [|by apply ops_of_lin]. intros (σ & Hp & Hrt & Hrun).
  rewrite length_fmap in Hp. by apply (lin_of_ops l σ).
Qed.

End lin.

(** ** Merging two orders *)

Inductive interleave {A} : list A -> list A -> list A -> Prop :=
| il_nil : interleave [] [] []
| il_left x s1 s2 s : interleave s1 s2 s -> interleave (x :: s1) s2 (x :: s)
| il_right y s1 s2 s : interleave s1 s2 s -> interleave s1 (y :: s2) (y :: s).

Lemma interleave_nil_l {A} (s : list A) : interleave [] s s.
Proof. induction s; by constructor. Qed.

Lemma interleave_nil_r {A} (s : list A) : interleave s [] s.
Proof. induction s; by constructor. Qed.

Lemma interleave_perm {A} (s1 s2 s : list A) : interleave s1 s2 s -> s ≡ₚ s1 ++ s2.
Proof.
  induction 1 as [|x s1 s2 s _ IH|y s1 s2 s _ IH]; [done|by rewrite IH|]. rewrite IH.
  by rewrite <- Permutation_middle.
Qed.

Lemma interleave_filter {A} (P : A -> Prop) `{!forall x, Decision (P x)} (s1 s2 s : list A) :
  interleave s1 s2 s ->
  (Forall (fun x => ~ P x) s2 -> filter P s = filter P s1) /\
  (Forall (fun x => ~ P x) s1 -> filter P s = filter P s2).
Proof.
  induction 1 as [|x s1 s2 s _ [IH1 IH2]|y s1 s2 s _ [IH1 IH2]]; [done| |];
    rewrite !filter_cons; (split; [intros H1|intros H2]).
  - case_decide; by rewrite IH1.
  - apply Forall_cons in H2 as [Hx H2]. rewrite decide_False by done. by apply IH2.
  - apply Forall_cons in H1 as [Hy H1]. rewrite decide_False by done. by apply IH1.
  - case_decide; by rewrite IH2.
Qed.

(** The call of one of the two first operations is not after the return of any
    operation of the other order. *)
Lemma merge_orders {V} (ties : bool) (s1 s2 : list (nat * Operation V)) :
  Forall (fun x => (Call x.2 < Return x.2)%Z) (s1 ++ s2) ->
  StronglySorted (rt ties) s1 -> StronglySorted (rt ties) s2 ->
  exists s, interleave s1 s2 s /\ StronglySorted (rt ties) s.
Proof.
  revert s2. induction s1 as [|x s1 IH1]; intros s2 Ht H1 H2; [exists s2; split; [apply interleave_nil_l|done]|].
  induction s2 as [|y s2 IH2]; [exists (x :: s1); split; [apply interleave_nil_r|done]|].
  inversion H1 as [|? ? H1' Hx]; inversion H2 as [|? ? H2' Hy]; subst.
  rewrite Forall_forall in Ht, Hx, Hy.
  destruct (decide (Forall (fun z => ~ earlier ties z.2 x.2) (y :: s2))) as [Hfirst|Hno].
  - destruct (IH1 (y :: s2)) as (s & Hs & Hss); [apply Forall_forall; set_solver|done|done|].
    exists (x :: s). split; [by constructor|]. constructor; [done|]. rewrite (interleave_perm _ _ _ Hs).
    apply Forall_app. split; [by apply Forall_forall|done].
  - apply not_Forall_Exists, Exists_exists in Hno as (z & Hz & Hlt); [|apply _].
    apply dec_stable in Hlt.
    destruct IH2 as (s & Hs & Hss); [apply Forall_forall; set_solver|done|].
    exists (y :: s). split; [by constructor|]. constructor; [done|]. rewrite (interleave_perm _ _ _ Hs).
    apply Forall_app. split; [|by apply Forall_forall]. apply Forall_forall. intros w Hw Hlt'. cbn in Hlt'.
    assert (~ earlier ties z.2 y.2) as Hyz.
    { apply elem_of_cons in Hz as [->|Hz]; [specialize (Ht y ltac:(set_solver)); unfold earlier; destruct ties; lia|].
      by apply (Hy z Hz). }
    assert (~ earlier ties w.2 x.2) as Hxw.
    { apply elem_of_cons in Hw as [->|Hw]; [specialize (Ht x ltac:(set_solver)); unfold earlier; destruct ties; lia|].
      by apply (Hx w Hw). }
    unfold earlier in *. destruct ties; lia.
Qed.

(** ** Independent objects *)

Section objects.
Context {V St K : Type} `{Countable K} (key : V -> option K) (m : Model V St) (ties : bool).
Implicit Types (l s : list (nat * Operation V)) (st : gmap K St).

Definition object st (k : K) : St := default (Init m tt) (st !! k).

(** The objects together: an operation works on the object of its key. *)
Definition store_step st (i o : V) : res (bool * gmap K St) :=
  match key i with
  | None => Panic
  | Some k => let! (ok, st') := Step m (object st k) i o in Ret (ok, <[k := st']> st)
  end.

Definition store : Model V (gmap K St) :=
  mkModel None None (fun _ => ∅) store_step None None None.

Definition on (k : K) (x : nat * Operation V) : Prop := key (Input x.2) = Some k.
#[local] Instance on_dec k x : Decision (on k x).
Proof. unfold on. apply _. Defined.

Lemma object_insert st k x k' : object (<[k := x]> st) k' = if decide (k = k') then x else object st k'.
Proof. unfold object. rewrite lookup_insert. by case_decide. Qed.

(** The store accepts an order when every object accepts its part of it. *)
Lemma run_store s st :
  Forall (fun x => is_Some (key (Input x.2))) s ->
  is_Some (run_seq store s st) <-> forall k, is_Some (run_seq m (filter (on k) s) (object st k)).
Proof.
  intros Hk. revert st. induction Hk as [|[n op] s [k Hop] _ IH]; intros st; [by cbn; eauto|].
  cbn [run_seq Step store]. unfold store_step at 1. cbn in Hop. rewrite Hop.
  assert (forall k', filter (on k') ((n, op) :: s) =
    if decide (k = k') then (n, op) :: filter (on k') s else filter (on k') s) as Hf.
  { intros k'. case_decide as Hk; [rewrite filter_cons_True|rewrite filter_cons_False];
      unfold on; cbn; congruence. }
  destruct (Step m (object st k) (Input op) (Output op)) as [[[|] x]|] eqn:Hstep; cbn [rbind].
  - rewrite IH. apply forall_proper. intros k'. rewrite Hf, object_insert.
    case_decide as Hkk; [|done]. subst k'. cbn [run_seq]. by rewrite Hstep.
  - split; [by intros [? ?]|]. intros Hall. specialize (Hall k). rewrite Hf, decide_True in Hall by done.
    cbn [run_seq] in Hall. rewrite Hstep in Hall. by destruct Hall.
  - split; [by intros [? ?]|]. intros Hall. specialize (Hall k). rewrite Hf, decide_True in Hall by done.
    cbn [run_seq] in Hall. rewrite Hstep in Hall. by destruct Hall.
Qed.

Definition on_any (ks : list K) (x : nat * Operation V) : Prop :=
  match key (Input x.2) with Some k => k ∈ ks | None => False end.
#[local] Instance on_any_dec ks x : Decision (on_any ks x).
Proof. unfold on_any. destruct (key (Input x.2)); apply _. Defined.

Lemma filter_on_any k ks l : k ∉ ks -> filter (on_any (k :: ks)) l ≡ₚ filter (on_any ks) l ++ filter (on k) l.
Proof.
  intros Hk. induction l as [|x l IH]; [done|].
  assert (on_any (k :: ks) x <-> on_any ks x \/ on k x) as Hor.
  { unfold on_any, on. destruct (key (Input x.2)) as [k'|]; [rewrite elem_of_cons; naive_solver|naive_solver]. }
  assert (~ (on_any ks x /\ on k x)) as Hand by (unfold on_any, on; intros [Ha He]; by rewrite He in Ha).
  rewrite !filter_cons. repeat case_decide; try tauto; cbn [app]; rewrite IH; try done.
  by rewrite Permutation_middle.
Qed.

Lemma filter_none (P : nat * Operation V -> Prop) `{!forall x, Decision (P x)} s :
  Forall (fun x => ~ P x) s -> filter P s = [].
Proof. induction 1; [done|]. by rewrite filter_cons_False. Qed.

Lemma filter_all (P : nat * Operation V -> Prop) `{!forall x, Decision (P x)} s :
  Forall P s -> filter P s = s.
Proof. induction 1 as [|x s Hx _ IH]; [done|]. rewrite filter_cons_True by done. by rewrite IH. Qed.

Lemma Forall_filter (P Q : nat * Operation V -> Prop) `{!forall x, Decision (P x)} s :
  Forall Q s -> Forall Q (filter P s).
Proof. rewrite !Forall_forall. intros HQ x [_ ?]%list_elem_of_filter. by apply HQ. Qed.

Lemma rt_filter (P : nat * Operation V -> Prop) `{!forall x, Decision (P x)} s :
  StronglySorted (rt ties) s -> StronglySorted (rt ties) (filter P s).
Proof. rewrite !StronglySorted_before. intros Hs x y Hb%before_filter. by apply Hs. Qed.

(** Orders of the single objects merge into one of the objects in [ks]. *)
Lemma merge_objects l ks :
  Forall (fun x => (Call x.2 < Return x.2)%Z) l -> NoDup ks -> (forall k, lin m ties (filter (on k) l)) ->
  exists s, s ≡ₚ filter (on_any ks) l /\ StronglySorted (rt ties) s /\
    forall k, k ∈ ks -> is_Some (run_seq m (filter (on k) s) (Init m tt)).
Proof.
  intros Ht Hnd Hall. induction Hnd as [|k ks Hk _ (s & Hs & Hss & Hrun)].
  { exists []. split_and!; [|constructor|set_solver]. rewrite filter_none; [done|].
    apply Forall_forall. intros x _. unfold on_any. destruct (key (Input x.2)); set_solver. }
  destruct (Hall k) as (t & Htp & Hts & Htrun).
  destruct (merge_orders ties s t) as (s' & Hil & Hs'); [|done|done|].
  { rewrite Hs, Htp. apply Forall_app. split; by apply Forall_filter. }
  assert (Forall (on k) t) as Hon by (rewrite Htp; apply Forall_forall; by intros x [? _]%list_elem_of_filter).
  assert (Forall (on_any ks) s) as Hany by (rewrite Hs; apply Forall_forall; by intros x [? _]%list_elem_of_filter).
  exists s'. split_and!; [|done|].
  - rewrite (interleave_perm _ _ _ Hil), Hs, Htp. symmetry. by apply filter_on_any.
  - intros k' Hk'. destruct (interleave_filter (on k') s t s' Hil) as [H1 H2]. destruct (decide (k' = k)) as [->|Hne].
    + rewrite H2, filter_all; [done|done|]. eapply Forall_impl; [exact Hany|]. intros x Hx Hox.
      unfold on_any in Hx. unfold on in Hox. by rewrite Hox in Hx.
    + rewrite H1; [apply Hrun; set_solver|]. eapply Forall_impl; [exact Hon|]. unfold on. congruence.
Qed.

Lemma filter_ops k l : filter (fun op => key (Input op) = Some k) l.*2 = (filter (on k) l).*2.
Proof.
  induction l as [|x l IH]; [done|]. rewrite fmap_cons, !filter_cons, IH.
  repeat case_decide; try done; unfold on in *; congruence.
Qed.

Lemma lin_store l :
  Forall (fun x => is_Some (key (Input x.2))) l -> Forall (fun x => (Call x.2 < Return x.2)%Z) l ->
  lin store ties l <-> forall k, lin m ties (filter (on k) l).
Proof.
  intros Hkey Ht. split.
  - intros (s & Hp & Hs & Hrun) k. exists (filter (on k) s). split_and!; [by rewrite Hp|by apply rt_filter|].
    change (Init m tt) with (object ∅ k). apply run_store; [by rewrite Hp|done].
  - intros Hall. set (ks := remove_dups (omap (fun x => key (Input x.2)) l)).
    destruct (merge_objects l ks Ht (NoDup_remove_dups _) Hall) as (s & Hs & Hss & Hrun).
    assert (forall x, x ∈ l -> on_any ks x) as Hin.
    { intros x Hx. rewrite Forall_forall in Hkey. destruct (Hkey x Hx) as [k Hk]. unfold on_any. rewrite Hk.
      apply elem_of_remove_dups, list_elem_of_omap. by exists x. }
    rewrite filter_all in Hs by (by apply Forall_forall). exists s. split_and!; [done|done|].
    apply run_store; [by rewrite Hs|]. intros k. destruct (decide (k ∈ ks)) as [Hk|Hk]; [by apply Hrun|].
    rewrite filter_none; [by eexists|]. rewrite Hs. apply Forall_forall. intros x Hx Hon.
    specialize (Hin x Hx). unfold on_any in Hin. unfold on in Hon. by rewrite Hon in Hin.
Qed.

(** Locality, for histories of operations. *)
Lemma ops_store (h : list (Operation V)) :
  Forall (fun op => is_Some (key (Input op))) h -> timed h ->
  ops_linearizable_with store ties h <->
  forall k, ops_linearizable_with m ties (filter (fun op => key (Input op) = Some k) h).
Proof.
  assert (exists l : list (nat * Operation V), l.*2 = h /\ NoDup l) as (l & <- & Hnd).
  { exists (zip (seq 0 (length h)) h). split; [apply snd_zip; rewrite length_seq; lia|].
    apply (NoDup_fmap_1 fst). rewrite fst_zip by (by rewrite length_seq). apply NoDup_seq. }
  intros Hkey Ht. rewrite ops_lin by done. pose proof Ht as Ht'. unfold timed in Ht'. rewrite Forall_fmap in Hkey, Ht'.
  rewrite lin_store by done. apply forall_proper. intros k. rewrite filter_ops, ops_lin; [done|by apply NoDup_filter|].
  apply Forall_fmap. by apply Forall_filter.
Qed.

End objects.

(** ** The key/value store *)

Section kv.
Context `{!GoSort} `{!GoRange}.

Definition kv_key (v : kvalue) : option string :=
  match v with VInput i => Some (Key i) | VOutput _ => None end.

(** A map from keys to strings, on which [KvModel] works key by key. *)
Definition KvStore : Model kvalue (gmap string string) := store kv_key KvModel.

Lemma KvStore_local ties (h : list (Operation kvalue)) :
  Forall (fun op => is_Some (op_key op)) h -> timed h ->
  ops_linearizable_with KvStore ties h <-> forall k, ops_linearizable_with KvModel ties (of_key k h).
Proof. apply (ops_store kv_key KvModel ties h). Qed.

End kv.
End Local.
