(* ===== verification/PorcupineSpec.v ===== *)
(** What porcupine promises: the properties of the linearizability checker,
    from the bitset up to [CheckOperations], [CheckEvents] and the key/value
    model, with their witnesses. *)
From S2P Require Import Prelude Bitset LinkedList Model Lin Checker CheckerProofs.
From S2P Require Import Conversions Parallel KvModel Locality.
Import LList PModel Linear Check CheckOk Conv Par Kv Local.

Module PorcupineSpec.

(** ** Linearizability of a list of operations, without entries *)

Section spec.
Context {V St : Type} (m : Model V St).

(** No operation is called at the very time another one returns. *)
Definition no_touching (h : list (Operation V)) : Prop :=
  forall i j op op', h !! i = Some op -> h !! j = Some op' -> Return op <> Call op'.

Definition ops_safe (h : list (Operation V)) : Prop :=
  forall st op op', op ∈ h -> op' ∈ h -> Step m st (Input op) (Output op') <> Panic.

Context `{!GoSort}.

Lemma run_ops_run (h : list (Operation V)) st σ :
  (forall i, i ∈ σ -> i < length h) ->
  run m (makeEntries h) st (Z.of_nat <$> σ) = run_ops m h st σ.
Proof.
  revert st. induction σ as [|i σ IH]; intros st Hσ; [done|]. rewrite fmap_cons. cbn [run run_ops].
  destruct (lookup_lt_is_Some_2 h i) as [op Hop]; [set_solver|]. rewrite Hop.
  rewrite (step_id_entries m (makeEntries h) st _ (call_of i op) (return_of i op)); try done.
  - cbn. destruct (Step m st (Input op) (Output op)) as [[[|] st']|]; [|done|done]. apply IH. set_solver.
  - apply makeEntries_keys.
  - apply elem_of_makeEntries. eauto.
  - apply elem_of_makeEntries. eauto.
Qed.

Lemma before_fmap {A B} (f : A -> B) `{!Inj eq eq f} x y l :
  before (f x) (f y) (f <$> l) <-> before x y l.
Proof.
  induction l as [|z l IH]; [split; intros Hb; by apply before_nil in Hb|].
  rewrite fmap_cons, !before_cons, IH. split.
  - intros [[Hx%(inj f) Hy]|?]; [left|by right]. split; [done|].
    apply list_elem_of_fmap in Hy as (y' & Hyy%(inj f) & ?). by subst.
  - intros [[-> ?]|?]; [left|by right]. split; [done|]. by apply list_elem_of_fmap_2.
Qed.

Lemma makeEntries_call_ids (h : list (Operation V)) :
  timed h -> (len h < 2 ^ 62)%Z -> call_ids (makeEntries h) ≡ₚ Z.of_nat <$> seq 0 (length h).
Proof.
  intros Ht Hl. destruct (makeEntries_checkable h Ht Hl) as [Hwf Hd _].
  rewrite (call_ids_ops (makeEntries h)) by done. unfold op_ids.
  pose proof (makeEntries_len h) as Hlen. unfold len in Hlen.
  assert (length (makeEntries h) = 2 * length h) as -> by lia. by rewrite Nat.div2_double.
Qed.

(** The sort decides which of two entries with the same time comes first, so
    the sorted entries may order operations that touch: what they allow lies
    between the two readings of a tie. *)
Lemma linearizable_ops (h : list (Operation V)) :
  timed h -> (len h < 2 ^ 62)%Z -> linearizable m (makeEntries h) -> ops_linearizable m h.
Proof.
  intros Ht Hl (σ & [Hp Ho Hr]). rewrite (makeEntries_call_ids h Ht Hl) in Hp.
  apply Permutation_map_inv in Hp as (σ' & -> & Hp'); fold (Z.of_nat <$> σ') in *.
  assert (forall i, i ∈ σ' -> i < length h) as Hb
    by (intros i Hi; rewrite <- Hp' in Hi; apply elem_of_seq in Hi; lia).
  exists σ'. split_and!; [by symmetry| |].
  - intros i j op op' Hi Hj Hij. apply (before_fmap Z.of_nat), Ho.
    by apply (makeEntries_precedes h i j op op').
  - by rewrite <- (run_ops_run h) by done.
Qed.

Lemma ops_linearizable_entries (h : list (Operation V)) :
  timed h -> (len h < 2 ^ 62)%Z -> ops_linearizable_with m true h -> linearizable m (makeEntries h).
Proof.
  intros Ht Hl (σ & Hp & Ho & Hr). exists (Z.of_nat <$> σ).
  assert (forall i, i ∈ σ -> i < length h) as Hb
    by (intros i Hi; rewrite Hp in Hi; apply elem_of_seq in Hi; lia).
  split.
  - by rewrite (makeEntries_call_ids h Ht Hl), Hp.
  - intros a b Hab. assert (exists i op, a = Z.of_nat i /\ h !! i = Some op) as (i & op & -> & Hi).
    { destruct Hab as (r & e & _ & <- & _ & _ & Hbe). apply before_elem in Hbe as [Hr' _].
      apply elem_of_makeEntries in Hr' as (k & op & Hk & [-> | ->]); by exists k, op. }
    assert (exists j op', b = Z.of_nat j /\ h !! j = Some op') as (j & op' & -> & Hj).
    { destruct Hab as (r & e & _ & _ & _ & <- & Hbe). apply before_elem in Hbe as [_ He'].
      apply elem_of_makeEntries in He' as (k & op' & Hk & [-> | ->]); by exists k, op'. }
    apply (before_fmap Z.of_nat), (Ho i j op op' Hi Hj).
    by apply (makeEntries_precedes h i j op op' Hi Hj).
  - by rewrite run_ops_run.
Qed.

(** Without ties there is one reading. *)
Lemma no_touching_ties (h : list (Operation V)) :
  no_touching h -> ops_linearizable m h -> ops_linearizable_with m true h.
Proof.
  intros Hnt (σ & Hp & Ho & Hr). exists σ. split_and!; [done| |done]. intros i j op op' Hi Hj Hle.
  apply (Ho i j op op' Hi Hj). specialize (Hnt i j op op' Hi Hj). unfold earlier in *. lia.
Qed.

Lemma makeEntries_safe (h : list (Operation V)) : ops_safe h -> step_safe m (makeEntries h).
Proof.
  intros Hs st e r (k & op & Hk & [-> | ->])%elem_of_makeEntries Hc
    (k' & op' & Hk' & [-> | ->])%elem_of_makeEntries Hr; try done.
  cbn. apply Hs; by eapply list_elem_of_lookup_2.
Qed.

Lemma linearizable_empty ties : ops_linearizable_with m ties [].
Proof.
  exists []. split; [done|]. split; [|by eexists]. intros i j op op' Hi. by rewrite lookup_nil in Hi.
Qed.

End spec.

(** ** The properties *)

Section properties.
Context {V St : Type} (vnil : V).

(** C1. [checkSingle] decides linearizability: on a complete history it returns
    a verdict within [check_fuel] iterations, without panicking, and the
    verdict is [true] exactly when some order of the operations respects
    real-time precedence and is accepted by the model.  This covers the
    bitset, the cache with its hash buckets, the backtracking stack and the
    in-place surgery on the linked list. *)
Theorem checkSingle_correct (m : Model V St) eqf es fuel computePartial :
  model_ok m eqf -> checkable es -> step_safe m es -> check_fuel es <= fuel ->
  exists ok lg sq,
    checkSingle vnil fuel m es computePartial (fun _ => false) = Some (Ret (ok, lg, sq)) /\
    (ok = true <-> linearizable m es).
Proof.
  intros Hm Hc Hs Hf.
  destruct (checkSingle_result vnil m eqf es fuel computePartial (fun _ => false) Hm Hc Hs Hf)
    as (ok & lg & sq & Hrun & _ & Hok).
  exists ok, lg, sq. split; [done|]. destruct ok.
  - split; [|done]. intros _. destruct Hok as (p & σ & _ & Hσ & _). by exists σ.
  - split; [done|]. intros Hl. by destruct (Hok (fun _ => eq_refl)).
Qed.

(** C9. Even when it is killed at an arbitrary moment, [checkSingle] returns,
    a [true] verdict is still backed by a linearization, and every slice that
    [longest] points to is a partial linearization that contains the operation
    it is recorded for; after a [true] verdict these are full linearizations. *)
Theorem checkSingle_partials (m : Model V St) eqf es fuel computePartial kill :
  model_ok m eqf -> checkable es -> step_safe m es -> check_fuel es <= fuel ->
  exists ok lg sq, checkSingle vnil fuel m es computePartial kill = Some (Ret (ok, lg, sq)) /\
    len lg = (len es / 2)%Z /\
    (forall i p, lg !! i = Some (Some p) -> exists σ, sq !! p = Some σ /\ Z.of_nat i ∈ σ /\
       partial_linearization m es (Init m tt) σ) /\
    (ok = true -> forall i, i < length lg -> exists p σ, lg !! i = Some (Some p) /\
       sq !! p = Some σ /\ linearization m es (Init m tt) σ).
Proof.
  intros Hm Hc Hs Hf.
  destruct (checkSingle_result vnil m eqf es fuel computePartial kill Hm Hc Hs Hf)
    as (ok & lg & sq & Hrun & [Hl Hpar Hpt] & Hok).
  exists ok, lg, sq. split_and!; [done|done| |].
  - intros i p Hi. destruct (Hpt i p Hi) as (σ & Hσ & ?). exists σ.
    split_and!; [done|done|]. apply Hpar. by eapply list_elem_of_lookup_2.
  - intros -> i Hi. destruct Hok as (p & σ & Hσ & Hlin & ->). exists p, σ.
    split_and!; [|done|done]. apply lookup_replicate. rewrite length_replicate in Hi. done.
Qed.

Context `{!EqDecision St} (fmt_V : V -> string) (fmt_St : St -> string) `{!GoSort} `{!GoRange}.

(** What a verdict says: [true] means that the operations are linearizable when
    operations that touch count as concurrent, [false] that they are not when
    the one that returns counts as earlier.  Without ties both are the same. *)
Definition decides (m : Model V St) h (b : bool) : Prop :=
  (b = true -> ops_linearizable m h) /\ (ops_linearizable_with m true h -> b = true) /\
  (no_touching h -> b = true <-> ops_linearizable m h).

Lemma decides_intro (m : Model V St) h b :
  (b = true -> ops_linearizable m h) -> (ops_linearizable_with m true h -> b = true) -> decides m h b.
Proof. intros H1 H2. split; [done|]. split; [done|]. intros Hnt. split; [done|]. intros Hl. by apply H2, no_touching_ties. Qed.

(** C10. [CheckOperations] of a model without partition function, on operations
    that take some time, returns a verdict for any sort and any map order that
    the Go library may pick.  The verdict [true] means that the operations are
    linearizable; [false] means that they are not if an operation that returns
    when another one is called counts as earlier.  So when no operation is
    called at the very time when another one returns, the verdict is [true]
    exactly for linearizable operations; the sort decides otherwise
    ([ties_left_to_sort]). *)
Theorem CheckOperations_correct (m : Model V St) eqf h fuel kills :
  Partition m = None -> model_ok m eqf \/ (Equal m = None /\ eqf = ShallowEqual) ->
  timed h -> (len h < 2 ^ 62)%Z -> ops_safe m h ->
  check_fuel (makeEntries h) <= fuel ->
  exists b, CheckOperations vnil fmt_V fmt_St fuel m h [GotResult 0] kills = Some (Ret b) /\
    (b = true -> ops_linearizable m h) /\ (ops_linearizable_with m true h -> b = true) /\
    (no_touching h -> b = true <-> ops_linearizable m h).
Proof.
  intros Hpart Hm Ht Hl Hs Hf. pose proof (fillDefault_ok fmt_V fmt_St m eqf Hm) as Hm'.
  destruct (checkParallel_order vnil fuel (fillDefault fmt_V fmt_St m) eqf [makeEntries h] false [0] kills)
    as (r & info & Hrun & Hok & _); [done| |done|done|].
  { intros sub Hsub. apply list_elem_of_singleton in Hsub as ->.
    split_and!; [by apply makeEntries_checkable|by apply makeEntries_safe|done]. }
  exists (bool_decide (r = Ok)). unfold CheckOperations, checkOperations. cbn. rewrite Hpart. cbn.
  cbn in Hrun. rewrite Hrun. split; [done|]. fold (decides m h (bool_decide (r = Ok))).
  apply decides_intro; rewrite bool_decide_eq_true, Hok.
  - intros Hall. apply (linearizable_ops m h); [done|done|]. apply (linearizable_fill fmt_V fmt_St m), Hall. set_solver.
  - intros Hlin sub Hsub. apply list_elem_of_singleton in Hsub as ->.
    by apply linearizable_fill, ops_linearizable_entries.
Qed.

(** C11. Whatever the goroutines' results and the timer do, [checkParallel] does
    not panic, answers [Ok] only when every partition is linearizable,
    [Illegal] only when some partition is not, and [Unknown] only after a
    timeout. *)
Theorem checkParallel_verdicts (m : Model V St) eqf hist computeInfo timeout fuel events kills r :
  model_ok m eqf -> parts_ok fuel m hist ->
  checkParallel vnil fuel m hist computeInfo timeout events kills = Some r ->
  exists res info, r = Ret (res, info) /\
    (res = Ok -> forall sub, sub ∈ hist -> linearizable m sub) /\
    (res = Illegal -> exists sub, sub ∈ hist /\ ~ linearizable m sub) /\
    (res = Unknown -> (timeout > 0)%Z /\ TimedOut ∈ events).
Proof. apply checkParallel_verdict. Qed.

(** With no partition at all and no timeout, [checkParallel] waits on the
    result channel forever: no sequence of events makes it return. *)
Theorem checkParallel_empty_blocks (m : Model V St) computeInfo fuel events kills :
  checkParallel vnil fuel m [] computeInfo 0 events kills = None.
Proof.
  unfold checkParallel. destruct events as [|[i|] events]; cbn [par_loop length]; [done| |done].
  by rewrite decide_False by (intros [? _]; lia).
Qed.

(** C12. [CheckEvents] on a complete sequence of events: the renumbered and
    converted history is checked, and the answer is its linearizability. *)
Theorem CheckEvents_correct (m : Model V St) eqf evs fuel kills :
  PartitionEvent m = None -> model_ok m eqf \/ (Equal m = None /\ eqf = ShallowEqual) ->
  wf_events evs -> (len evs < 2 ^ 63)%Z -> step_safe m (convertEntries (renumber evs)) ->
  check_fuel (convertEntries (renumber evs)) <= fuel ->
  exists b, CheckEvents vnil fmt_V fmt_St fuel m evs [GotResult 0] kills = Some (Ret b) /\
    (b = true <-> linearizable m (convertEntries (renumber evs))).
Proof.
  intros Hpart Hm Hw Hl Hs Hf. pose proof (fillDefault_ok fmt_V fmt_St m eqf Hm) as Hm'.
  destruct (checkParallel_order vnil fuel (fillDefault fmt_V fmt_St m) eqf
    [convertEntries (renumber evs)] false [0] kills) as (r & info & Hrun & Hok & _); [done| |done|done|].
  { intros sub Hsub. apply list_elem_of_singleton in Hsub as ->.
    split_and!; [by apply convert_renumber_checkable|done|done]. }
  exists (bool_decide (r = Ok)). unfold CheckEvents, checkEvents. cbn. rewrite Hpart. cbn.
  cbn in Hrun. rewrite Hrun. split; [done|]. rewrite bool_decide_eq_true, Hok. split.
  - intros Hall. apply (linearizable_fill fmt_V fmt_St m), Hall. set_solver.
  - intros Hlin sub Hsub. apply list_elem_of_singleton in Hsub as ->. by apply linearizable_fill.
Qed.

(** C13. [unlift] undoes [lift]: on a doubly linked list, lifting a call node
    leaves the list without the call and its return, and unlifting it gives
    back the very same heap. *)
Theorem unlift_lift (h : list (node V)) X x e B r C n :
  dll h None (X ++ x :: e :: B ++ r :: C) None -> NoDup (X ++ x :: e :: B ++ r :: C) ->
  h !! e = Some n -> match_ n = Some r ->
  exists h', lift h (Some e) = Ret h' /\ dll h' None (X ++ x :: B ++ C) None /\
    unlift h' (Some e) = Ret h.
Proof.
  intros Hd Hnd He Hm. destruct (lift_spec h X x e B r C n Hd Hnd He Hm) as (h' & ? & ? & ? & _).
  by exists h'.
Qed.

(** C14. [makeLinkedEntries] builds the doubly linked list of the entries in
    their order: the root is its first node, [length] counts the entries, each
    node carries its entry and each call points to the first later return
    with its id. *)
Theorem makeLinkedEntries_correct (es : list (entry V)) :
  exists root h L, makeLinkedEntries es = Ret (root, h) /\ root = hd_ptr L None /\
    dll h None L None /\ NoDup L /\ linked h es L /\ length_list h root = Some (Ret (len es)).
Proof.
  destruct (makeLinkedEntries_spec es) as (h & Hrun & Hl & Hd & Hlen).
  assert (NoDup (reverse (seq 0 (length es)))) as Hnd by (rewrite reverse_Permutation; apply NoDup_seq).
  eexists _, h, _. split_and!; try done. rewrite length_list_spec by done.
  unfold len. by rewrite length_reverse, length_seq.
Qed.

(** Reading a bit after [set] or [clear] of a [bitset] created for [n]
    positions: exactly the bit at that position has changed, and no other. *)
Theorem bitset_get_after_update n (b : list Z) pos q :
  (0 <= n)%Z -> Bits.bitset_ok b -> len b = len (Bits.newBitset n) ->
  (0 <= pos < n)%Z -> (0 <= q < n)%Z ->
  exists b1 b2 v, Bits.set b pos = Ret b1 /\ Bits.clear b pos = Ret b2 /\ Bits.get b q = Ret v /\
    Bits.bitset_ok b1 /\ Bits.bitset_ok b2 /\ len b1 = len b /\ len b2 = len b /\
    Bits.get b1 q = Ret (if (q =? pos)%Z then true else v) /\
    Bits.get b2 q = Ret (if (q =? pos)%Z then false else v).
Proof.
  intros Hn Hok Hlen Hp Hq. destruct (Bits.newBitset_ok n Hn) as (_ & [Hb _] & _).
  unfold Bits.nbits in Hb. rewrite <- Hlen in Hb.
  destruct (Bits.set_spec b pos Hok) as (b1 & Hs & Ho1 & Hl1 & Hb1); [unfold Bits.nbits; lia|].
  destruct (Bits.clear_spec b pos Hok) as (b2 & Hc & Ho2 & Hl2 & Hb2); [unfold Bits.nbits; lia|].
  exists b1, b2, (Bits.bit b q).
  rewrite !Bits.get_bit, Hb1, Hb2 by (unfold Bits.nbits; lia). by split_and!.
Qed.

End properties.

(** ** The key/value model *)

Section kv.
Context `{!GoSort} `{!GoRange} (vnil : kvalue) (fmt_V : kvalue -> string) (fmt_St : string -> string).

(** Every operation carries a [KvInput] and a [KvOutput]. *)
Definition kv_typed (h : list (Operation kvalue)) : Prop :=
  forall v, v ∈ h -> (exists i, Input v = VInput i) /\ (exists o, Output v = VOutput o).

Lemma of_key_sub k (h : list (Operation kvalue)) v : v ∈ of_key k h -> v ∈ h.
Proof. unfold of_key. by intros [_ ?]%list_elem_of_filter. Qed.

Lemma kv_safe h : kv_typed h -> ops_safe KvModel h.
Proof.
  intros Ht st op op' Hop Hop'. destruct (Ht op Hop) as [[i Hi] _], (Ht op' Hop') as [_ [o Ho]].
  cbn. unfold KvStep. rewrite Hi, Ho. cbn. by repeat case_cond.
Qed.

Lemma of_key_none ties k h : of_key k h = [] -> ops_linearizable_with KvModel ties (of_key k h).
Proof. intros ->. apply linearizable_empty. Qed.

(** The verdict on the whole history is the conjunction over the keys. *)
Lemma checkOperations_keys h order fuel kills :
  h <> [] -> kv_typed h -> timed h -> (len h < 2 ^ 62)%Z ->
  (forall k, check_fuel (makeEntries (of_key k h)) <= fuel) ->
  (exists parts, KvPartition h = Ret parts /\ order ≡ₚ seq 0 (length parts)) ->
  exists b, CheckOperations vnil fmt_V fmt_St fuel KvModel h (GotResult <$> order) kills = Some (Ret b) /\
    (b = true -> forall k, ops_linearizable KvModel (of_key k h)) /\
    ((forall k, ops_linearizable_with KvModel true (of_key k h)) -> b = true).
Proof.
  intros Hne Hty Ht Hl Hf (parts & Hpart & Hord).
  destruct (KvPartition_spec h) as (ks & Hks & _ & _ & Hin).
  { intros v Hv. destruct (Hty v Hv) as [[i Hi] _]. unfold op_key. rewrite Hi. by eexists. }
  rewrite Hpart in Hks. injection Hks as ->.
  assert (model_ok (fillDefault fmt_V fmt_St KvModel) ShallowEqual) as Hm by (apply fillDefault_ok; auto).
  assert (forall k, timed (of_key k h) /\ (len (of_key k h) < 2 ^ 62)%Z /\ kv_typed (of_key k h)) as Hk.
  { intros k. split_and!.
    - apply Forall_forall. intros v Hv%of_key_sub. by eapply Forall_forall in Hv; [|exact Ht].
    - pose proof (length_filter (fun v => op_key v = Some k) h). unfold of_key, len in *. lia.
    - intros v Hv%of_key_sub. by apply Hty. }
  destruct (checkParallel_order vnil fuel (fillDefault fmt_V fmt_St KvModel) ShallowEqual
    (makeEntries <$> ((fun k => of_key k h) <$> ks)) false order kills) as (r & info & Hrun & Hok & _).
  - done.
  - intros sub (? & -> & (k & -> & _)%list_elem_of_fmap)%list_elem_of_fmap.
    destruct (Hk k) as (? & ? & ?).
    split_and!; [by apply makeEntries_checkable|by apply makeEntries_safe, kv_safe|done].
  - destruct h as [|v h]; [done|]. destruct (Hty v) as [[i Hi] _]; [set_solver|].
    assert (Key i ∈ ks) as Hki.
    { apply Hin. exists v. split; [set_solver|]. unfold op_key. by rewrite Hi. }
    intros Hk0. destruct ks; [set_solver|done].
  - by rewrite length_fmap.
  - exists (bool_decide (r = Ok)). unfold CheckOperations, checkOperations.
    cbn [Partition fillDefault KvModel or_default call_default]. rewrite Hpart.
    cbn in Hrun |- *. rewrite Hrun. split; [done|]. rewrite bool_decide_eq_true, Hok.
    split.
    + intros Hall k. destruct (decide (of_key k h = [])) as [He|He]; [by apply of_key_none|].
      destruct (Hk k) as (? & ? & ?). apply (linearizable_ops KvModel); [done..|]. apply (linearizable_fill fmt_V fmt_St), Hall.
      apply list_elem_of_fmap_2, list_elem_of_fmap. exists k. split; [done|].
      apply Hin. destruct (of_key k h) as [|v l] eqn:E; [done|].
      assert (v ∈ of_key k h) as Hv by (rewrite E; set_solver). exists v.
      by apply list_elem_of_filter in Hv as [? ?].
    + intros Hall sub (? & -> & (k & -> & _)%list_elem_of_fmap)%list_elem_of_fmap.
      destruct (Hk k) as (? & ? & ?). by apply linearizable_fill, ops_linearizable_entries.
Qed.

(** C15. With [KvModel] a non-empty history of operations that take some time is
    split by key, and whatever the order in which the goroutines deliver their
    verdicts, [CheckOperations] returns.  Checking the keys one by one loses
    nothing: [true] means that the whole history is linearizable as one map
    with put, append and get, [false] that it is not if an operation that
    returns when another one is called counts as earlier, and without such ties
    the verdict is [true] exactly for linearizable histories.  (On an empty
    history [CheckOperations] waits forever: [CheckOperations_kv_empty].) *)
Theorem CheckOperations_kv h order fuel kills :
  h <> [] -> kv_typed h -> timed h -> (len h < 2 ^ 62)%Z ->
  (forall k, check_fuel (makeEntries (of_key k h)) <= fuel) ->
  (exists parts, KvPartition h = Ret parts /\ order ≡ₚ seq 0 (length parts)) ->
  exists b, CheckOperations vnil fmt_V fmt_St fuel KvModel h (GotResult <$> order) kills = Some (Ret b) /\
    (b = true -> ops_linearizable KvStore h) /\ (ops_linearizable_with KvStore true h -> b = true) /\
    (no_touching h -> b = true <-> ops_linearizable KvStore h).
Proof.
  intros Hne Hty Ht Hl Hf Hpart.
  destruct (checkOperations_keys h order fuel kills) as (b & Hrun & Hb1 & Hb2); try done.
  assert (forall ties, ops_linearizable_with KvStore ties h <->
    forall k, ops_linearizable_with KvModel ties (of_key k h)) as Hloc.
  { intros ties. apply KvStore_local; [|done]. apply Forall_forall. intros v Hv.
    destruct (Hty v Hv) as [[i Hi] _]. unfold op_key. rewrite Hi. by eexists. }
  exists b. split; [done|]. fold (decides KvStore h b). apply decides_intro.
  - intros Hb. apply Hloc. by apply Hb1.
  - intros Hlin. apply Hb2. by apply Hloc.
Qed.

(** Without operations there is no partition, and no result ever arrives. *)
Theorem CheckOperations_kv_empty events fuel kills :
  CheckOperations vnil fmt_V fmt_St fuel KvModel [] events kills = None.
Proof.
  unfold CheckOperations, checkOperations. cbn [Partition fillDefault KvModel or_default call_default].
  destruct (KvPartition_spec []) as (ks & -> & _ & _ & Hin); [set_solver|].
  assert (ks = []) as ->.
  2: { change (rmap (fun r => bool_decide (r = Ok)) <$> (rmap fst <$>
         checkParallel vnil fuel (fillDefault fmt_V fmt_St KvModel) [] false 0 events kills) = None).
       by rewrite checkParallel_empty_blocks. }
  destruct ks as [|k ks]; [done|]. destruct (proj1 (Hin k)) as (v & Hv & _); set_solver.
Qed.

End kv.

(** ** Concrete instances *)

Module Witness.

(** A register of integers: a non-negative input writes, a negative one
    reads. *)
Definition reg_step (st input output : Z) : res (bool * Z) :=
  if (0 <=? input)%Z then Ret (true, input) else Ret ((output =? st)%Z, st).

Definition reg_model (eqf : option (Z -> Z -> bool)) : Model Z Z :=
  mkModel None None (fun _ => 0%Z) reg_step eqf None None.

Lemma reg_model_ok : model_ok (reg_model (Some Z.eqb)) Z.eqb.
Proof.
  split; [done|apply Z.eqb_refl|]. intros s1 s2 i o ->%Z.eqb_eq. cbn.
  destruct (reg_step s2 i o) as [[b t]|]; [|done]. split; [done|apply Z.eqb_refl].
Qed.

Definition reg_hist : list (Operation Z) :=
  [mkOperation 0 7 0 0 10; mkOperation 1 (-1) 5 7 20]%Z.

#[local] Existing Instance merge_GoSort.
#[local] Existing Instance id_GoRange.

Lemma reg_timed : timed reg_hist.
Proof. repeat constructor; done. Qed.

Lemma reg_no_touching : no_touching reg_hist.
Proof. intros [|[|i]] [|[|j]] op op' [= <-] [= <-]; done. Qed.

Lemma reg_safe eqf (h : list (Operation Z)) : ops_safe (reg_model eqf) h.
Proof. intros st op op' _ _. cbn. unfold reg_step. by case_cond. Qed.

Lemma reg_checkable : checkable (makeEntries reg_hist).
Proof. apply makeEntries_checkable; [apply reg_timed|done]. Qed.

Lemma reg_fuel : check_fuel (makeEntries reg_hist) <= 100.
Proof. apply Nat.leb_le. vm_compute. reflexivity. Qed.

Lemma checkSingle_correct_witness : exists ok lg sq,
  checkSingle 0%Z 100 (reg_model (Some Z.eqb)) (makeEntries reg_hist) true (fun _ => false) =
    Some (Ret (ok, lg, sq)) /\
  (ok = true <-> linearizable (reg_model (Some Z.eqb)) (makeEntries reg_hist)).
Proof.
  apply (checkSingle_correct 0%Z (reg_model (Some Z.eqb)) Z.eqb (makeEntries reg_hist) 100 true
    reg_model_ok reg_checkable (makeEntries_safe _ _ (reg_safe _ reg_hist)) reg_fuel).
Defined.

(** Killed before the fourth test of the loop condition. *)
Lemma checkSingle_partials_witness : exists ok lg sq,
  checkSingle 0%Z 100 (reg_model (Some Z.eqb)) (makeEntries reg_hist) true (fun j => (3 <? j)%nat) =
    Some (Ret (ok, lg, sq)) /\
  len lg = (len (makeEntries reg_hist) / 2)%Z.
Proof.
  destruct (checkSingle_partials 0%Z (reg_model (Some Z.eqb)) Z.eqb (makeEntries reg_hist) 100 true
    (fun j => (3 <? j)%nat) reg_model_ok reg_checkable (makeEntries_safe _ _ (reg_safe _ reg_hist)) reg_fuel)
    as (ok & lg & sq & Hr & Hl & _).
  exists ok, lg, sq. split; [exact Hr|exact Hl].
Defined.

Lemma CheckOperations_correct_witness : exists b,
  CheckOperations 0%Z (fun _ => "") (fun _ => "") 100 (reg_model None) reg_hist [GotResult 0]
    (fun _ _ => false) = Some (Ret b) /\
  (b = true <-> ops_linearizable (reg_model None) reg_hist).
Proof.
  destruct (CheckOperations_correct 0%Z (fun _ => "") (fun _ => "") (reg_model None) ShallowEqual
    reg_hist 100 (fun _ _ => false)) as (b & Hrun & _ & _ & Hb).
  - reflexivity.
  - right. split; reflexivity.
  - exact reg_timed.
  - reflexivity.
  - apply reg_safe.
  - exact reg_fuel.
  - exists b. split; [exact Hrun|exact (Hb reg_no_touching)].
Defined.

(** A second sort that keeps the promises of [sort.Sort]: merge sort of the
    reversed list, which leaves equal elements in the opposite order. *)
Lemma rev_merge_sort_perm {A} (less : A -> A -> bool) (l : list A) : merge_sort_less less (reverse l) ≡ₚ l.
Proof. etrans; [apply merge_sort_Permutation|apply reverse_Permutation]. Qed.

Definition rev_GoSort : GoSort := {|
  go_sort := fun A less l => merge_sort_less less (reverse l);
  go_sort_perm := @rev_merge_sort_perm;
  go_sort_sorted := fun A less l => merge_sort_less_sorted less (reverse l);
|}.

(** An operation that reads the old value and is called at the very time when
    the write of the new value returns. *)
Definition tied_hist : list (Operation Z) := [mkOperation 0 7 0 0 5; mkOperation 1 (-1) 5 0 10]%Z.

Definition verdict (sort : GoSort) : option (res bool) :=
  CheckOperations (H := sort) 0%Z (fun _ => "") (fun _ => "") 100 (reg_model None) tied_hist [GotResult 0]
    (fun _ _ => false).

(** On ties the verdict depends on the sort: [sort.Sort] is not stable, and
    [byTime.Less] does not tell a call from a return at the same time. *)
Lemma ties_left_to_sort : timed tied_hist /\ ~ no_touching tied_hist /\
  verdict merge_GoSort = Some (Ret false) /\ verdict rev_GoSort = Some (Ret true).
Proof.
  split; [repeat constructor; done|]. split; [|split; vm_compute; reflexivity].
  intros Hnt. exact (Hnt 0 1 _ _ eq_refl eq_refl eq_refl).
Qed.

Lemma checkParallel_verdicts_witness : exists res info,
  checkParallel 0%Z 100 (reg_model (Some Z.eqb)) [makeEntries reg_hist; makeEntries reg_hist] true 5
    [GotResult 1; TimedOut] (fun _ _ => false) = Some (Ret (res, info)) /\
  (res = Unknown -> (5 > 0)%Z /\ TimedOut ∈ [GotResult 1; TimedOut]).
Proof.
  destruct (checkParallel_verdicts 0%Z (reg_model (Some Z.eqb)) Z.eqb
    [makeEntries reg_hist; makeEntries reg_hist] true 5 100 [GotResult 1; TimedOut] (fun _ _ => false)
    (default Panic (checkParallel 0%Z 100 (reg_model (Some Z.eqb)) [makeEntries reg_hist; makeEntries reg_hist]
       true 5 [GotResult 1; TimedOut] (fun _ _ => false))))
    as (res & info & Hr & _ & _ & Hu).
  - exact reg_model_ok.
  - intros sub Hsub. assert (sub = makeEntries reg_hist) as -> by set_solver.
    split_and!; [exact reg_checkable|exact (makeEntries_safe _ _ (reg_safe _ reg_hist))|exact reg_fuel].
  - vm_compute. reflexivity.
  - exists res, info. split; [rewrite <- Hr; vm_compute; reflexivity|exact Hu].
Defined.

Definition reg_events : list (Event Z) :=
  [mkEvent 0 CallEvent 7 41; mkEvent 1 CallEvent (-1) 17; mkEvent 0 ReturnEvent 0 41;
   mkEvent 1 ReturnEvent 7 17]%Z.

Lemma reg_events_wf : wf_events reg_events.
Proof.
  split.
  - apply (bool_decide_unpack _). vm_compute. exact I.
  - intros [|[|[|[|i]]]] e [= <-]; try done; intros _.
    + exists 2, (mkEvent 0 ReturnEvent 0 41)%Z. split_and!; [lia|done..].
    + exists 3, (mkEvent 1 ReturnEvent 7 17)%Z. split_and!; [lia|done..].
  - intros [|[|[|[|i]]]] e [= <-]; try done; intros _.
    + exists 0, (mkEvent 0 CallEvent 7 41)%Z. split_and!; [lia|done..].
    + exists 1, (mkEvent 1 CallEvent (-1) 17)%Z. split_and!; [lia|done..].
Qed.

Lemma CheckEvents_correct_witness : exists b,
  CheckEvents 0%Z (fun _ => "") (fun _ => "") 100 (reg_model None) reg_events [GotResult 0]
    (fun _ _ => false) = Some (Ret b) /\
  (b = true <-> linearizable (reg_model None) (convertEntries (renumber reg_events))).
Proof.
  apply (CheckEvents_correct 0%Z (fun _ => "") (fun _ => "") (reg_model None) ShallowEqual
    reg_events 100 (fun _ _ => false)).
  - reflexivity.
  - right. split; reflexivity.
  - exact reg_events_wf.
  - reflexivity.
  - intros st e r _ _ _ _. cbn. unfold reg_step. by case_cond.
  - apply Nat.leb_le. vm_compute. reflexivity.
Defined.

(** The heap of the linked list of [reg_hist]. *)
Definition reg_heap : list (node Z) :=
  match makeLinkedEntries (makeEntries reg_hist) with Ret (_, h) => h | Panic => [] end.

Lemma reg_heap_dll : dll reg_heap None [3; 2; 1; 0] None.
Proof.
  destruct (makeLinkedEntries_spec (makeEntries reg_hist)) as (h & Hrun & _ & Hd & _).
  assert (reg_heap = h) as -> by (unfold reg_heap; by rewrite Hrun).
  assert (length (makeEntries reg_hist) = 4) as Hl by (vm_compute; reflexivity).
  rewrite Hl in Hd. exact Hd.
Qed.

Lemma unlift_lift_witness : exists h', lift reg_heap (Some 2) = Ret h' /\
  dll h' None ([] ++ 3 :: [1] ++ []) None /\ unlift h' (Some 2) = Ret reg_heap.
Proof.
  apply (unlift_lift reg_heap [] 3 2 [1] 0 [] (default (mkNode 0 None 0 None None) (reg_heap !! 2%nat))%Z).
  - exact reg_heap_dll.
  - repeat constructor; set_solver.
  - vm_compute. reflexivity.
  - vm_compute. reflexivity.
Defined.

Lemma bitset_get_after_update_witness : exists b1 b2 v,
  Bits.set (Bits.newBitset 70) 68 = Ret b1 /\ Bits.clear (Bits.newBitset 70) 68 = Ret b2 /\
  Bits.get (Bits.newBitset 70) 68 = Ret v /\ Bits.get b1 68 = Ret true /\ Bits.get b2 68 = Ret false.
Proof.
  destruct (bitset_get_after_update 70 (Bits.newBitset 70) 68 68) as (b1 & b2 & v & H1 & H2 & H3 & _ & _ & _ & _ & H4 & H5).
  - lia.
  - repeat constructor; vm_compute; congruence.
  - reflexivity.
  - lia.
  - lia.
  - exists b1, b2, v. split_and!; [exact H1|exact H2|exact H3|exact H4|exact H5].
Defined.

Definition kv_hist : list (Operation kvalue) :=
  [mkOperation 0 (VInput (mkKvInput 1 "a" "x")) 0 (VOutput (mkKvOutput "")) 2;
   mkOperation 1 (VInput (mkKvInput 2 "b" "y")) 1 (VOutput (mkKvOutput "")) 4;
   mkOperation 0 (VInput (mkKvInput 0 "a" "")) 3 (VOutput (mkKvOutput "x")) 5]%Z.

Lemma kv_typed_witness : kv_typed kv_hist.
Proof. intros v Hv. repeat (apply elem_of_cons in Hv as [->|Hv]; [split; by eexists|]). set_solver. Qed.

Lemma of_key_kv_hist k :
  of_key k kv_hist = if bool_decide (k = "a"%string) then of_key "a" kv_hist
                     else if bool_decide (k = "b"%string) then of_key "b" kv_hist else [].
Proof.
  repeat case_bool_decide; subst; try reflexivity. unfold of_key, kv_hist, op_key. rewrite !filter_cons. cbn.
  repeat rewrite decide_False by congruence. reflexivity.
Qed.

Lemma CheckOperations_kv_witness : exists b,
  CheckOperations (VOutput (mkKvOutput "")) (fun _ => "") (fun _ => "") 100 KvModel kv_hist
    (GotResult <$> [1; 0]) (fun _ _ => false) = Some (Ret b) /\
  (b = true <-> ops_linearizable KvStore kv_hist).
Proof.
  destruct (CheckOperations_kv (VOutput (mkKvOutput "")) (fun _ => "") (fun _ => "") kv_hist [1; 0] 100
    (fun _ _ => false)) as (b & Hrun & _ & _ & Hb).
  - discriminate.
  - exact kv_typed_witness.
  - repeat constructor; done.
  - reflexivity.
  - intros k. rewrite of_key_kv_hist. repeat case_bool_decide; apply Nat.leb_le; vm_compute; reflexivity.
  - eexists. split; [vm_compute; reflexivity|]. cbn. apply perm_swap.
  - exists b. split; [exact Hrun|]. apply Hb. intros [|[|[|i]]] [|[|[|j]]] op op' [= <-] [= <-]; done.
Defined.

End Witness.
End PorcupineSpec.
