(* ===== verification/Visualization.v ===== *)
(** The data that porcupine/visualization.go shows for a checked history:
    [computeVisualizationData], [Visualize] and [VisualizePath].

    The JSON text of the data (encoding/json) and the two halves of the page
    [html], before and after its only verb, are parameters. *)
From S2P Require Import Prelude LinkedList Model Lin Checker CheckerProofs Conversions Parallel.
Import LList PModel Linear Check CheckOk Conv Par.
Local Open Scope Z_scope.

Module Visual.

Record historyElement := mkElement { ClientId : Z; Start : Z; End_ : Z; Description : string }.

Record linearizationStep := mkStep { Index : Z; StateDescription : string }.

Definition partialLinearization := list linearizationStep.

Record partitionVisualizationData := mkData {
  History : list historyElement;
  PartialLinearizations : list partialLinearization;
  Largest : gmap Z Z;
}.

Definition visualizationData := list partitionVisualizationData.

Section visual.
Context {V St : Type} `{!EqDecision St} (vnil : V) (fmt_V : V -> string) (fmt_St : St -> string).
Context `{!GoSort}.

(** A key that a map of values does not have gives nil. *)
Definition value_at (m : gmap Z V) (i : Z) : V := default vnil (m !! i).

(** One entry of the history: the elements, [callValue] and [returnValue]. *)
Definition history_step (m : Model V St) (elem : entry V)
    (s : list historyElement * gmap Z V * gmap Z V) : res (list historyElement * gmap Z V * gmap Z V) :=
  let '(history, callValue, returnValue) := s in
  let! he := go_index history (id elem) in
  match kind elem with
  | callEntry =>
      let! history := go_set history (id elem) (mkElement (clientId elem) (time elem) (End_ he) (Description he)) in
      Ret (history, <[id elem := value elem]> callValue, returnValue)
  | returnEntry =>
      match DescribeOperation m with
      | None => Panic
      | Some describe =>
          let! d := describe (value_at callValue (id elem)) (value elem) in
          let! history := go_set history (id elem) (mkElement (ClientId he) (Start he) (time elem) d) in
          Ret (history, callValue, <[id elem := value elem]> returnValue)
      end
  end.

(** The operations of one partial linearization of [size] operations, the
    [i]-th one; [largest] is the pair of [largestIndex] and [largestSize]. *)
Fixpoint partial_steps (m : Model V St) (callValue returnValue : gmap Z V) (i size : Z)
    (partial : list Z) (state : St) (largest : gmap Z Z * gmap Z Z)
    : res (partialLinearization * (gmap Z Z * gmap Z Z)) :=
  match partial with
  | [] => Ret ([], largest)
  | histId :: rest =>
      let! (ok, state) := Step m state (value_at callValue histId) (value_at returnValue histId) in
      if negb ok then Panic else
      match DescribeState m with
      | None => Panic
      | Some describe =>
          let stateDesc := describe state in
          let '(largestIndex, largestSize) := largest in
          let largest := if default 0 (largestSize !! histId) <? size
                         then (<[histId := i]> largestIndex, <[histId := size]> largestSize)
                         else largest in
          let! (steps, largest) := partial_steps m callValue returnValue i size rest state largest in
          Ret (mkStep histId stateDesc :: steps, largest)
      end
  end.

(** The loop over the sorted partial linearizations, from the [i]-th one on. *)
Fixpoint partials_loop (m : Model V St) (callValue returnValue : gmap Z V) (i : Z)
    (partials : list (list Z)) (largest : gmap Z Z * gmap Z Z)
    : res (list partialLinearization * (gmap Z Z * gmap Z Z)) :=
  match partials with
  | [] => Ret ([], largest)
  | partial :: rest =>
      let! (lin, largest) :=
        partial_steps m callValue returnValue i (len partial) partial (Init m tt) largest in
      let! (lins, largest) := partials_loop m callValue returnValue (i + 1) rest largest in
      Ret (lin :: lins, largest)
  end.

Definition longer (a b : list Z) : bool := len a >? len b.

(** One partition.  [sort.Slice] works in place, so the caller's slice of
    partial linearizations comes back sorted. *)
Definition visualize_partition (m : Model V St) (entries : list (entry V)) (partials : list (list Z))
    : res (partitionVisualizationData * list (list Z)) :=
  let n := len entries / 2 in
  let! (history, callValue, returnValue) :=
    for_each (history_step m) entries (go_make n (mkElement 0 0 0 ""), ∅, ∅) in
  let partials := go_sort longer partials in
  let! (linearizations, largest) := partials_loop m callValue returnValue 0 partials (∅, ∅) in
  Ret (mkData history linearizations largest.1, partials).

Fixpoint visualize_partitions (m : Model V St) (histories : list (list (entry V)))
    (partials : list (list (list Z))) : res (visualizationData * list (list (list Z))) :=
  match histories with
  | [] => Ret ([], partials)
  | entries :: rest =>
      match partials with
      | [] => Panic
      | p :: ps =>
          let! (d, p) := visualize_partition m entries p in
          let! (ds, ps) := visualize_partitions m rest ps in
          Ret (d :: ds, p :: ps)
      end
  end.

(** The data, and [info] with its slices as they are afterwards. *)
Definition computeVisualizationData (m : Model V St) (info : linearizationInfo V)
    : res (visualizationData * linearizationInfo V) :=
  let m := fillDefault fmt_V fmt_St m in
  let! (data, ps) := visualize_partitions m (history info) (partialLinearizations info) in
  Ret (data, mkInfo (history info) ps).

(** ** Writing the page *)

Inductive error := MarshalError | WriteError | CreateError.

Context {W : Type} (Marshal : visualizationData -> option string) (html_before html_after : string).
(** A write of a text, and whether it succeeded; the creation of a file. *)
Context (write : string -> W -> W * bool) (create : string -> W -> option W).

Definition Visualize (m : Model V St) (info : linearizationInfo V) (output : W) : res (W * option error) :=
  let! (data, _) := computeVisualizationData m info in
  match Marshal data with
  | None => Ret (output, Some MarshalError)
  | Some jsonData =>
      let '(output, ok) := write (html_before +:+ jsonData +:+ html_after)%string output in
      Ret (output, if (ok : bool) then None else Some WriteError)
  end.

Definition VisualizePath (m : Model V St) (info : linearizationInfo V) (path : string) (w : W)
    : res (W * option error) :=
  match create path w with
  | None => Ret (w, Some CreateError)
  | Some w => Visualize m info w
  end.

End visual.
End Visual.
