(* ===== verification/VisualizationSpec.v ===== *)
(** What the page of porcupine/visualization.go shows: the operations of the
    history as they were, and partial linearizations that the model accepts. *)
From S2P Require Import Prelude LinkedList Model Lin Checker CheckerProofs Conversions Parallel.
From S2P Require Import PorcupineSpec Visualization.
Import LList PModel Linear Check CheckOk Conv Par Visual.
Local Open Scope Z_scope.

Module VisualSpec.

(** ** The elements of the history *)

Section elements.
Context {V St : Type} (vnil : V) (m : Model V St) (describe : V -> V -> res string).
Hypothesis m_describe : DescribeOperation m = Some describe.

(** The calls and returns of [es] can be described. *)
Definition describable (es : list (entry V)) : Prop :=
  forall e r, e ∈ es -> is_call e -> r ∈ es -> kind r = returnEntry -> id e = id r ->
    describe (value e) (value r) <> Panic.

Abbreviation hstate := (list historyElement * gmap Z V * gmap Z V)%type.

(** What the loop has recorded after the entries [l]. *)
Record recorded (n : Z) (l : list (entry V)) (s : hstate) : Prop := {
  rec_len : len s.1.1 = n;
  rec_call : forall e, e ∈ l -> is_call e -> s.1.2 !! id e = Some (value e) /\
    exists he, s.1.1 !! Z.to_nat (id e) = Some he /\ ClientId he = clientId e /\ Start he = time e;
  rec_return : forall r, r ∈ l -> kind r = returnEntry -> s.2 !! id r = Some (value r) /\
    exists he, s.1.1 !! Z.to_nat (id r) = Some he /\ End_ he = time r /\
      forall e, e ∈ l -> is_call e -> id e = id r -> describe (value e) (value r) = Ret (Description he);
}.

Lemma call_or_return (e : entry V) : is_call e \/ kind e = returnEntry.
Proof. unfold is_call. destruct (kind e); auto. Qed.

Lemma same_index n (i j : Z) : 0 <= i < n -> 0 <= j < n -> Z.to_nat i = Z.to_nat j -> i = j.
Proof. lia. Qed.

(** One step, on a well-formed history [es] with the entries [l] before [e]. *)
Section step.
Context (es l rest : list (entry V)) (e : entry V) (n : Z).
Hypothesis Hk : NoDup (key <$> es).
Hypothesis Hid : forall x, x ∈ es -> 0 <= id x < n.
Hypothesis Hes : es = l ++ e :: rest.

Local Lemma in_prefix x : x ∈ l -> x ∈ es.
Proof. rewrite Hes. set_solver. Qed.

Local Lemma in_here : e ∈ es.
Proof. rewrite Hes. set_solver. Qed.

Local Lemma id_index x : x ∈ l -> id x <> id e -> Z.to_nat (id e) <> Z.to_nat (id x).
Proof. intros Hx%in_prefix%Hid. pose proof (Hid e in_here). lia. Qed.

Local Lemma other_kind x : x ∈ l -> id x = id e -> kind x <> kind e.
Proof.
  intros Hx Hi Hkx. pose proof (wf_NoDup _ Hk) as Hnd.
  assert (x = e) as -> by (apply (key_eq es); [done|by apply in_prefix|apply in_here|unfold key; congruence]).
  rewrite Hes in Hnd. apply NoDup_app in Hnd as (_ & Hd & _). apply (Hd e Hx). set_solver.
Qed.

Local Lemma same_call x y : x ∈ l -> y ∈ l -> is_call x -> is_call y -> id x = id y -> x = y.
Proof.
  intros Hx Hy Hxc Hyc Hi. apply (key_eq es); [done|by apply in_prefix..|].
  unfold key, is_call in *. congruence.
Qed.

Context (hs : list historyElement) (C R : gmap Z V) (he : historyElement).
Hypothesis Hrec : recorded n l (hs, C, R).
Hypothesis Hhe : hs !! Z.to_nat (id e) = Some he.

Local Lemma recorded_call : is_call e -> (forall r, r ∈ l -> kind r = returnEntry -> id r <> id e) ->
  recorded n (l ++ [e])
    (<[Z.to_nat (id e) := mkElement (clientId e) (time e) (End_ he) (Description he)]> hs,
     <[id e := value e]> C, R).
Proof.
  intros Hck Hnr. destruct Hrec as [Hlen Hc Hr]; cbn [fst snd] in *.
  assert (Z.to_nat (id e) < length hs)%nat as Hlt by by eapply lookup_lt_Some.
  split; cbn [fst snd]; [by rewrite len_insert| |].
  - intros x [Hx|Hx%list_elem_of_singleton]%elem_of_app Hxc; [|subst x].
    + assert (id x <> id e) as Hne by (intros Hi; by apply (other_kind x Hx Hi); rewrite Hck).
      rewrite lookup_insert_ne, list_lookup_insert_ne by auto using id_index. by apply Hc.
    + rewrite lookup_insert_eq, list_lookup_insert_eq by done. split; [done|]. by eexists.
  - intros x [Hx|Hx%list_elem_of_singleton]%elem_of_app Hxr; [|subst; unfold is_call in Hck; congruence].
    destruct (Hr x Hx Hxr) as [HR (he' & Hlx & Hend & Hd)]. split; [done|].
    exists he'. rewrite list_lookup_insert_ne by auto using id_index. split_and!; [done|done|].
    intros c [Hcl|Hcl%list_elem_of_singleton]%elem_of_app Hcc Hci; [by apply Hd|].
    subst. by destruct (Hnr x Hx Hxr).
Qed.

Local Lemma recorded_return c d : kind e = returnEntry -> c ∈ l -> is_call c -> id c = id e ->
  describe (value c) (value e) = Ret d ->
  recorded n (l ++ [e])
    (<[Z.to_nat (id e) := mkElement (ClientId he) (Start he) (time e) d]> hs, C, <[id e := value e]> R).
Proof.
  intros Hrk Hcl Hcc Hci Hd. destruct Hrec as [Hlen Hc Hr]; cbn [fst snd] in *.
  assert (Z.to_nat (id e) < length hs)%nat as Hlt by by eapply lookup_lt_Some.
  assert (~ is_call e) as Hnc by (unfold is_call; by rewrite Hrk).
  split; cbn [fst snd]; [by rewrite len_insert| |].
  - intros x [Hx|Hx%list_elem_of_singleton]%elem_of_app Hxc; [|by subst].
    destruct (Hc x Hx Hxc) as [HCx (hx & Hhx & ? & ?)]. split; [done|].
    destruct (decide (id x = id e)) as [Hi|Hi].
    + rewrite Hi in *. rewrite list_lookup_insert_eq by done. rewrite Hhe in Hhx. injection Hhx as <-.
      eexists. by split_and!.
    + rewrite list_lookup_insert_ne by auto using id_index. by exists hx.
  - intros x [Hx|Hx%list_elem_of_singleton]%elem_of_app Hxr.
    + assert (id x <> id e) as Hne by (intros Hi; by apply (other_kind x Hx Hi); rewrite Hrk).
      destruct (Hr x Hx Hxr) as [HRx (hx & Hhx & ? & Hdx)].
      rewrite lookup_insert_ne, list_lookup_insert_ne by auto using id_index. split; [done|].
      exists hx. split_and!; [done|done|].
      intros y [Hy|Hy%list_elem_of_singleton]%elem_of_app Hyc Hyi; [by apply Hdx|by subst].
    + subst x. rewrite lookup_insert_eq, list_lookup_insert_eq by done. split; [done|].
      eexists. split_and!; [done|done|]. cbn.
      intros y [Hy|Hy%list_elem_of_singleton]%elem_of_app Hyc Hyi; [|by subst].
      by rewrite (same_call y c) by (done || congruence).
Qed.

Local Lemma history_step_recorded :
  describable es ->
  (forall r, r ∈ es -> kind r = returnEntry ->
     exists c, kind c = callEntry /\ id c = id r /\ before c r es) ->
  exists s', history_step vnil m e (hs, C, R) = Ret s' /\ recorded n (l ++ [e]) s'.
Proof.
  intros Hdesc Hcalls. pose proof Hrec as [Hlen Hc _]. cbn [fst snd] in Hlen, Hc.
  pose proof (wf_NoDup _ Hk) as Hnd. pose proof (Hid e in_here) as Hide.
  assert (go_index hs (id e) = Ret he) as Hi by (apply go_index_ret; split; [lia|done]).
  assert (forall y, go_set hs (id e) y = Ret (<[Z.to_nat (id e) := y]> hs)) as Hset
    by (intros; apply go_set_in; lia).
  unfold history_step. rewrite Hi. destruct (call_or_return e) as [Hck|Hrk].
  - rewrite Hck. cbn. rewrite Hset. eexists. split; [reflexivity|]. apply recorded_call; [done|].
    intros r Hr Hrk Hri. destruct (Hcalls r (in_prefix r Hr) Hrk) as (c & Hkc & Hci & Hb).
    assert (c = e) as -> by (apply (key_eq es);
      [done|by apply before_elem in Hb as [? ?]|apply in_here|unfold key; congruence]).
    apply (before_asym e r es Hnd Hb). apply list_elem_of_split in Hr as (a & b & Hl).
    rewrite Hes, Hl. exists a, b, rest. by rewrite <- app_assoc.
  - rewrite Hrk. cbn. rewrite m_describe. destruct (Hcalls e in_here Hrk) as (c & Hkc & Hci & Hb).
    assert (c ∈ l) as Hcl by (rewrite Hes in Hb, Hnd; by apply before_split in Hb).
    destruct (Hc c Hcl Hkc) as [HC _]. rewrite Hci in HC. unfold value_at. rewrite HC. cbn.
    destruct (describe (value c) (value e)) as [d|] eqn:Ed.
    2: { by destruct (Hdesc c e (in_prefix c Hcl) Hkc in_here Hrk Hci). }
    cbn. rewrite Hset. eexists. split; [reflexivity|]. by eapply recorded_return.
Qed.

End step.

Lemma history_recorded es l rest s n :
  NoDup (key <$> es) -> (forall x, x ∈ es -> 0 <= id x < n) -> describable es ->
  (forall r, r ∈ es -> kind r = returnEntry ->
     exists c, kind c = callEntry /\ id c = id r /\ before c r es) ->
  es = l ++ rest -> recorded n l s ->
  exists s', for_each (history_step vnil m) rest s = Ret s' /\ recorded n es s'.
Proof.
  intros Hk Hid Hdesc Hcalls. revert l s. induction rest as [|e rest IH]; intros l s Hes Hrec.
  { exists s. rewrite app_nil_r in Hes. by subst. }
  destruct s as [[hs C] R]. destruct (go_index_in hs (id e)) as (he & _ & Hhe).
  { pose proof (rec_len _ _ _ Hrec) as Hl. cbn in Hl. rewrite Hl. apply Hid. rewrite Hes. set_solver. }
  destruct (history_step_recorded es l rest e n Hk Hid Hes hs C R he Hrec Hhe Hdesc Hcalls)
    as (s1 & Hs1 & Hrec1).
  destruct (IH (l ++ [e]) s1) as (s2 & Hs2 & Hrec2); [by rewrite <- app_assoc|done|].
  exists s2. split; [|done]. cbn [for_each]. by rewrite Hs1.
Qed.

End elements.
(** ** The partial linearizations *)

Section partials.
Context {V St : Type} (vnil : V) (m : Model V St) (show : St -> string) (es : list (entry V)).
Context (C R : gmap Z V).
Hypothesis m_show : DescribeState m = Some show.
Hypothesis C_call : forall e, e ∈ es -> is_call e -> C !! id e = Some (value e).
Hypothesis R_return : forall r, r ∈ es -> kind r = returnEntry -> R !! id r = Some (value r).

(** The steps that belong to the operations [σ] from state [st] on. *)
Fixpoint steps_of (st : St) (σ : list Z) : option partialLinearization :=
  match σ with
  | [] => Some []
  | i :: σ =>
      match step_id m es st i with
      | Some st' => cons (mkStep i (show st')) <$> steps_of st' σ
      | None => None
      end
  end.

Lemma step_values st i st' : step_id m es st i = Some st' ->
  Step m st (value_at vnil C i) (value_at vnil R i) = Ret (true, st').
Proof.
  unfold step_id. destruct (find_entry callEntry i es) as [e|] eqn:He; [|done].
  destruct (find_entry returnEntry i es) as [r|] eqn:Hr; [|done].
  apply find_entry_inv in He as (He & Hke & <-), Hr as (Hr & Hkr & Hi).
  unfold value_at. rewrite (C_call e He Hke), <- Hi, (R_return r Hr Hkr). cbn.
  by destruct (Step m st (value e) (value r)) as [[[|] ?]|]; intros [= ->].
Qed.

(** The partial linearizations [P] have been counted: each operation is mapped
    to one of the longest of them that contain it. *)
Definition largest_of (P : list (list Z)) (lg : gmap Z Z * gmap Z Z) : Prop :=
  forall x, match lg.1 !! x with
            | None => lg.2 !! x = None /\ forall σ, σ ∈ P -> x ∉ σ
            | Some i => exists σ, 0 <= i /\ P !! Z.to_nat i = Some σ /\ x ∈ σ /\ lg.2 !! x = Some (len σ) /\
                forall σ', σ' ∈ P -> x ∈ σ' -> len σ' <= len σ
            end.

Definition bump (i size x : Z) (lg : gmap Z Z * gmap Z Z) : gmap Z Z * gmap Z Z :=
  if default 0 (lg.2 !! x) <? size then (<[x := i]> lg.1, <[x := size]> lg.2) else lg.

Lemma partial_steps_spec i size σ st lg st' : run m es st σ = Some st' ->
  exists steps, steps_of st σ = Some steps /\
    partial_steps vnil m C R i size σ st lg = Ret (steps, fold_left (fun lg x => bump i size x lg) σ lg).
Proof.
  revert st lg. induction σ as [|x σ IH]; intros st lg; [by eexists|]. cbn [run steps_of partial_steps fold_left].
  destruct (step_id m es st x) as [st1|] eqn:Hs; [|done]. intros Hrun.
  rewrite (step_values _ _ _ Hs). cbn [rbind negb]. rewrite m_show.
  destruct lg as [li ls]. destruct (IH st1 (bump i size x (li, ls)) Hrun) as (steps & -> & Hsteps).
  eexists. split; [reflexivity|]. unfold bump in *. cbn [fst snd] in *. by rewrite Hsteps.
Qed.

Lemma lookup_bump i size x y lg :
  (bump i size x lg).1 !! y = (if decide (y = x /\ default 0 (lg.2 !! x) < size) then Some i else lg.1 !! y) /\
  (bump i size x lg).2 !! y = (if decide (y = x /\ default 0 (lg.2 !! x) < size) then Some size else lg.2 !! y).
Proof.
  unfold bump. destruct (Z.ltb_spec (default 0 (lg.2 !! x)) size); [|by rewrite !decide_False by lia].
  destruct (decide (y = x)) as [->|Hne]; cbn [fst snd].
  - by rewrite !lookup_insert_eq, !decide_True.
  - rewrite !lookup_insert_ne by done. by rewrite !decide_False by tauto.
Qed.

(** The operations of a whole partial linearization are counted. *)
Lemma lookup_bumps i size σ y lg : NoDup σ ->
  (fold_left (fun lg x => bump i size x lg) σ lg).1 !! y =
    (if decide (y ∈ σ /\ default 0 (lg.2 !! y) < size) then Some i else lg.1 !! y) /\
  (fold_left (fun lg x => bump i size x lg) σ lg).2 !! y =
    (if decide (y ∈ σ /\ default 0 (lg.2 !! y) < size) then Some size else lg.2 !! y).
Proof.
  revert lg. induction σ as [|x σ IH]; intros lg Hnd; cbn [fold_left].
  { by rewrite !decide_False by set_solver. }
  apply NoDup_cons in Hnd as [Hx Hnd]. destruct (IH (bump i size x lg) Hnd) as [-> ->].
  destruct (lookup_bump i size x y lg) as [-> ->]. destruct (decide (y = x)) as [->|Hne].
  - rewrite !(decide_False (P := x ∈ σ /\ _)) by tauto.
    by destruct (decide (x = x /\ _)) as [[_ ?]|?];
      [rewrite !decide_True by set_solver|rewrite !decide_False by (intros [_ ?]; tauto)].
  - rewrite !(decide_False (P := y = x /\ _)) by tauto.
    by destruct (decide (y ∈ σ /\ _)) as [[? ?]|?];
      [rewrite !decide_True by set_solver|rewrite !decide_False by set_solver].
Qed.

Lemma largest_of_app P σ lg : NoDup σ -> largest_of P lg ->
  largest_of (P ++ [σ]) (fold_left (fun lg x => bump (len P) (len σ) x lg) σ lg).
Proof.
  intros Hnd Hlg y. specialize (Hlg y). destruct (lookup_bumps (len P) (len σ) σ y lg Hnd) as [-> ->].
  destruct (decide (y ∈ σ /\ default 0 (lg.2 !! y) < len σ)) as [[Hy Hlt]|Hn].
  - exists σ. split; [done|]. split.
    { unfold len at 1. rewrite Nat2Z.id, lookup_app_r, Nat.sub_diag by lia. done. }
    split_and!; [done|done|]. intros σ' [Hin|Hin%list_elem_of_singleton]%elem_of_app Hy'; [|by subst].
    destruct (lg.1 !! y) as [i|].
    + destruct Hlg as (σ0 & _ & _ & _ & Hs & Hmax). specialize (Hmax σ' Hin Hy').
      rewrite Hs in Hlt. cbn in Hlt. lia.
    + destruct Hlg as [_ Hno]. by destruct (Hno σ').
  - destruct (lg.1 !! y) as [i|].
    + destruct Hlg as (σ0 & Hi & Hlk & Hy & Hs & Hmax). exists σ0. split; [done|].
      split; [by apply lookup_app_l_Some|]. split_and!; [done|done|].
      intros σ' [Hin|Hin%list_elem_of_singleton]%elem_of_app Hy'; [by apply Hmax|subst].
      rewrite Hs in Hn. cbn in Hn. destruct (Z.le_gt_cases (len σ) (len σ0)); [done|tauto].
    + destruct Hlg as [Hs Hno]. split; [done|].
      intros σ' [Hin|Hin%list_elem_of_singleton]%elem_of_app Hy'; [by apply (Hno σ')|subst].
      apply Hn. split; [done|]. rewrite Hs. cbn. unfold len. destruct σ; [set_solver|cbn; lia].
Qed.

(** The whole loop, from the partial linearizations [P] on. *)
Lemma partials_loop_spec P rest lg :
  (forall σ, σ ∈ rest -> NoDup σ /\ is_Some (run m es (Init m tt) σ)) -> largest_of P lg ->
  exists lins lg', partials_loop vnil m C R (len P) rest lg = Ret (lins, lg') /\
    largest_of (P ++ rest) lg' /\ Forall2 (fun lin σ => steps_of (Init m tt) σ = Some lin) lins rest.
Proof.
  revert P lg. induction rest as [|σ rest IH]; intros P lg Hrest Hlg.
  { exists [], lg. rewrite app_nil_r. by split_and!; [| |constructor]. }
  destruct (Hrest σ) as [Hnd [st Hrun]]; [set_solver|].
  destruct (partial_steps_spec (len P) (len σ) σ (Init m tt) lg st Hrun) as (steps & Hof & Hsteps).
  cbn [partials_loop]. rewrite Hsteps. cbn [rbind].
  destruct (IH (P ++ [σ]) (fold_left (fun lg x => bump (len P) (len σ) x lg) σ lg))
    as (lins & lg' & Hloop & Hlg' & Hall); [set_solver|by apply largest_of_app|].
  rewrite len_app in Hloop. cbn in Hloop. change (len [σ]) with 1 in Hloop. rewrite Hloop.
  exists (steps :: lins), lg'. split; [done|]. split; [by rewrite <- app_assoc in Hlg'|by constructor].
Qed.

End partials.

(** ** What [checkParallel] hands over *)

Section info.
Context {V St : Type} (vnil : V) `{!GoRange} (fuel : nat).

Lemma read_seqs_elem seqs ps l σ : read_seqs seqs ps = Ret l -> σ ∈ l -> σ ∈ seqs.
Proof.
  revert l. induction ps as [|p ps IH]; intros l; cbn; [intros [= <-]; set_solver|].
  intros (sq & Hp & (rest & Hr & [= <-])%rbind_ret)%rbind_ret [->|Hin]%elem_of_cons.
  - apply go_index_ret in Hp as [_ Hp]. by eapply list_elem_of_lookup_2.
  - by eapply IH.
Qed.

Lemma partials_of_spec (m : Model V St) eqf hist ci (kills : nat -> nat -> bool) k ps :
  model_ok m eqf -> parts_ok fuel m hist ->
  partials_of ((fun i => match drop k hist !! i with
     | Some sub => checkSingle vnil fuel m sub ci (kills i) | None => None end) <$> seq 0 (length (drop k hist)))
    = Some (Ret ps) ->
  Forall2 (fun sub p => forall σ, σ ∈ p -> partial_linearization m sub (Init m tt) σ) (drop k hist) ps.
Proof.
  intros Hm Hp. assert (forall sub, sub ∈ drop k hist -> sub ∈ hist) as Hd.
  { intros sub Hs. rewrite <- (take_drop k hist). set_solver. }
  revert Hd kills ps. generalize (drop k hist) as l. induction l as [|sub l IH]; intros Hd kills ps.
  { by intros [= <-]. }
  destruct (Hp sub) as (Hc & Hs & Hf); [set_solver|].
  destruct (checkSingle_result vnil m eqf sub fuel ci (kills 0%nat) Hm Hc Hs Hf)
    as (ok & lg & sq & Hrun & Hlo & _).
  cbn [length seq fmap list_fmap lookup list_lookup partials_of]. rewrite Hrun. cbn [partials_of].
  rewrite <- fmap_S_seq, <- list_fmap_compose.
  match goal with |- match ?x with _ => _ end = _ -> _ => destruct x as [r|] eqn:Er; [|done] end.
  destruct (read_seqs sq (range_keys (pointer_set lg))) as [p|] eqn:Ep; [|done].
  destruct r as [ps'|]; [|done]. intros [= <-].
  constructor; [|apply (IH ltac:(set_solver) (fun i => kills (S i)) ps' Er)].
  intros σ Hσ. by eapply (lo_partial _ _ _ _ Hlo), read_seqs_elem.
Qed.

Lemma checkParallel_info (m : Model V St) eqf hist timeout events kills r info :
  model_ok m eqf -> parts_ok fuel m hist ->
  checkParallel vnil fuel m hist true timeout events kills = Some (Ret (r, info)) ->
  history info = hist /\
  Forall2 (fun sub p => forall σ, σ ∈ p -> partial_linearization m sub (Init m tt) σ)
    hist (partialLinearizations info).
Proof.
  intros Hm Hp. unfold checkParallel.
  destruct (par_loop _ _ _ _ _ _ _) as [[[[ok t] rec]|]|]; [|done|done].
  match goal with |- match ?x with _ => _ end = _ -> _ => destruct x as [[ps|]|] eqn:Eps end; [|done|done].
  intros [= <- <-]. split; [done|]. cbn [partialLinearizations].
  apply (partials_of_spec m eqf hist true
    (fun i => if decide (i ∈ rec) then fun _ => false else kills i) 0 ps Hm Hp).
  rewrite drop_0, <- Eps. f_equal. apply list_fmap_ext. intros _ i _. by case_decide.
Qed.

End info.

(** ** The page *)

Section page.
Context {V St : Type} `{!EqDecision St} (vnil : V) (fmt_V : V -> string) (fmt_St : St -> string).
Context `{!GoSort} `{!GoRange} (m : Model V St).

Abbreviation m' := (fillDefault fmt_V fmt_St m).

Definition describe_op : V -> V -> res string := default (DefaultDescribeOperation fmt_V) (DescribeOperation m).
Definition describe_state : St -> string := default (DefaultDescribeState fmt_St) (DescribeState m).

(** [d] shows the history [es] and the linearizations [ps], in some order. *)
Record shows (es : list (entry V)) (ps : list (list Z)) (d : partitionVisualizationData) : Prop := {
  show_count : len (History d) = len es / 2;
  show_op : forall e r, e ∈ es -> is_call e -> r ∈ es -> kind r = returnEntry -> id e = id r ->
    exists he, History d !! Z.to_nat (id e) = Some he /\ ClientId he = clientId e /\
      Start he = time e /\ End_ he = time r /\ describe_op (value e) (value r) = Ret (Description he);
  show_partials : exists ps' sizes, ps' ≡ₚ ps /\ StronglySorted (fun a b => len b <= len a) ps' /\
    Forall2 (fun lin σ => steps_of m describe_state es (Init m tt) σ = Some lin) (PartialLinearizations d) ps' /\
    largest_of ps' (Largest d, sizes);
}.

Lemma fill_describe : DescribeOperation m' = Some describe_op /\ DescribeState m' = Some describe_state.
Proof.
  unfold describe_op, describe_state. cbn. unfold or_default.
  by destruct (DescribeOperation m), (DescribeState m).
Qed.

Lemma run_fill es st σ : run m' es st σ = run m es st σ.
Proof.
  revert st. induction σ as [|i σ IH]; intros st; [done|]. cbn.
  change (step_id m' es st i) with (step_id m es st i). destruct (step_id m es st i); [apply IH|done].
Qed.

Lemma steps_of_fill es st σ : steps_of m' describe_state es st σ = steps_of m describe_state es st σ.
Proof.
  revert st. induction σ as [|i σ IH]; intros st; [done|]. cbn.
  change (step_id m' es st i) with (step_id m es st i). destruct (step_id m es st i); [|done]. by rewrite IH.
Qed.

Lemma longer_sorted ps : StronglySorted (fun a b => len b <= len a) (go_sort longer ps).
Proof.
  assert (StronglySorted (fun a b => longer b a = false) (go_sort longer ps)) as Hs.
  { apply go_sort_sorted; unfold longer.
    - intros a b Hab. zbool. rewrite Z.gtb_ltb. apply Z.ltb_ge. lia.
    - intros a b c ? ?. zbool. rewrite Z.gtb_ltb. apply Z.ltb_ge. lia. }
  induction Hs as [|a l Hl IH Ha]; constructor; [done|]. eapply Forall_impl; [exact Ha|].
  unfold longer. intros b Hb. zbool. lia.
Qed.

Lemma history_loop es : checkable es -> describable describe_op es ->
  exists s, for_each (history_step vnil m') es (go_make (len es / 2) (mkElement 0 0 0 ""), ∅, ∅) = Ret s /\
    recorded describe_op (len es / 2) es s.
Proof.
  intros [Hwf Hdense _] Hd. destruct fill_describe as [Hdo _].
  apply (history_recorded vnil m' describe_op Hdo es [] es); [apply Hwf|exact Hdense|done| |done|].
  - intros r Hr Hk. by apply (wf_call es Hwf).
  - split; cbn [fst snd]; [|set_solver|set_solver]. unfold go_make, len at 1.
    rewrite length_replicate. pose proof (len_nonneg es). rewrite Z2Nat.id; [done|].
    apply Z.div_pos; lia.
Qed.

Lemma visualize_partition_shows es ps :
  checkable es -> describable describe_op es ->
  (forall σ, σ ∈ ps -> partial_linearization m es (Init m tt) σ) ->
  exists d ps', visualize_partition vnil m' es ps = Ret (d, ps') /\ shows es ps d.
Proof.
  intros Hchk Hd Hps. destruct fill_describe as [_ Hds].
  destruct (history_loop es Hchk Hd) as ([[hs C] R] & Hloop & [Hlen Hc Hr]); cbn [fst snd] in *.
  set (ps' := go_sort longer ps). assert (ps' ≡ₚ ps) as Hperm by apply go_sort_perm.
  destruct (partials_loop_spec vnil m' describe_state es C R Hds (fun e He Hec => proj1 (Hc e He Hec))
    (fun r Hr' Hk => proj1 (Hr r Hr' Hk)) [] ps' (∅, ∅)) as (lins & [li ls] & Hl & Hlg & Hall).
  - intros σ Hσ. rewrite Hperm in Hσ. destruct (Hps σ Hσ) as [Hnd _ _ Hrun]. split; [done|].
    by rewrite run_fill.
  - intros x. cbn. split; [done|set_solver].
  - change (len []) with 0 in Hl. unfold visualize_partition. rewrite Hloop. cbn [rbind]. fold ps'.
    rewrite Hl. cbn [rbind]. eexists _, ps'. split; [reflexivity|]. split; cbn; [done| |].
    + intros e r He Hec Hr' Hk Hi. destruct (Hc e He Hec) as [_ (he & Hhe & ? & ?)].
      destruct (Hr r Hr' Hk) as [_ (he' & Hhe' & ? & Hdesc)]. rewrite <- Hi, Hhe in Hhe'.
      injection Hhe' as <-. exists he. split_and!; [done..|]. by apply Hdesc.
    + exists ps', ls. split_and!; [done|apply longer_sorted| |done].
      eapply Forall2_impl; [exact Hall|]. intros lin σ Hσ. by rewrite <- steps_of_fill.
Qed.

Lemma visualize_partitions_shows hists pss :
  Forall2 (fun sub p => forall σ, σ ∈ p -> partial_linearization m sub (Init m tt) σ) hists pss ->
  (forall sub, sub ∈ hists -> checkable sub /\ describable describe_op sub) ->
  exists ds pss', visualize_partitions vnil m' hists pss = Ret (ds, pss') /\
    Forall2 (fun x d => shows x.1 x.2 d) (zip hists pss) ds.
Proof.
  induction 1 as [|sub p hists pss Hp _ IH]; intros Hh; [by eexists _, _|].
  destruct (Hh sub) as [Hc Hd]; [set_solver|].
  destruct (visualize_partition_shows sub p Hc Hd Hp) as (d & p' & Hrun & Hs).
  destruct IH as (ds & pss' & Hrun' & Hs'); [set_solver|].
  cbn [visualize_partitions]. rewrite Hrun. cbn [rbind]. rewrite Hrun'.
  eexists _, _. split; [reflexivity|]. by constructor.
Qed.

(** C16. What a verbose check returns can always be shown: none of the panics of
    [computeVisualizationData] is reached, whatever the order of the results
    and the moment of a timeout, and for every partition the page has each
    operation with its client, times and description, and the partial
    linearizations, longest first, with the states that the model goes
    through; [Largest] maps an operation to a longest one that contains it. *)
Theorem visualization_correct eqf hist fuel timeout events kills r info :
  model_ok m' eqf -> parts_ok fuel m' hist ->
  (forall sub, sub ∈ hist -> describable describe_op sub) ->
  checkParallel vnil fuel m' hist true timeout events kills = Some (Ret (r, info)) ->
  exists data info', computeVisualizationData vnil fmt_V fmt_St m info = Ret (data, info') /\
    Forall2 (fun x d => shows x.1 x.2 d) (zip hist (partialLinearizations info)) data /\
    length data = length hist.
Proof.
  intros Hm Hp Hd Hrun. destruct (checkParallel_info vnil fuel m' eqf hist _ _ _ _ _ Hm Hp Hrun) as [Hh Hps].
  destruct (visualize_partitions_shows hist (partialLinearizations info)) as (ds & pss' & Hv & Hs).
  - eapply Forall2_impl; [exact Hps|]. intros sub p Hpar σ Hσ. destruct (Hpar σ Hσ) as [? ? ? Hr].
    split; [done..|]. by rewrite run_fill in Hr.
  - intros sub Hsub. split; [by apply Hp|by apply Hd].
  - unfold computeVisualizationData. rewrite Hh, Hv. cbn [rbind].
    eexists _, _. split; [reflexivity|]. split; [exact Hs|].
    rewrite <- (Forall2_length _ _ _ Hs), length_zip_with. apply Forall2_length in Hps. lia.
Qed.

End page.

(** ** A concrete page *)

Module Witness.
Import PorcupineSpec.PorcupineSpec PorcupineSpec.PorcupineSpec.Witness.

#[local] Existing Instance merge_GoSort.
#[local] Existing Instance id_GoRange.

Abbreviation reg := (fillDefault (fun _ : Z => "v"%string) (fun _ => "s"%string) (reg_model (Some Z.eqb))).

Definition reg_run := checkParallel 0 100 reg [makeEntries reg_hist] true 5 [GotResult 0] (fun _ _ => false).

Definition reg_info : linearizationInfo Z :=
  match reg_run with Some (Ret (_, info)) => info | _ => mkInfo [] [] end.

Lemma visualization_correct_witness : exists data info',
  computeVisualizationData 0 (fun _ => "v"%string) (fun _ => "s"%string) (reg_model (Some Z.eqb)) reg_info =
    Ret (data, info') /\
  length data = 1%nat.
Proof.
  destruct (visualization_correct 0 (fun _ => "v"%string) (fun _ => "s"%string) (reg_model (Some Z.eqb))
    Z.eqb [makeEntries reg_hist] 100 5 [GotResult 0] (fun _ _ => false) Ok reg_info)
    as (data & info' & Hc & _ & Hl).
  - apply fillDefault_ok. left. exact reg_model_ok.
  - intros sub Hsub. apply list_elem_of_singleton in Hsub as ->.
    split_and!; [exact reg_checkable| |exact reg_fuel].
    apply makeEntries_safe. intros st op op' _ _. cbn. unfold reg_step. by case_cond.
  - intros sub _ e r _ _ _ _ _. done.
  - vm_compute. reflexivity.
  - exists data, info'. split; [exact Hc|exact Hl].
Defined.

(** The read of the second operation comes after the write. *)
Example reg_page : computeVisualizationData 0 (fun _ => "v"%string) (fun _ => "s"%string)
    (reg_model (Some Z.eqb)) reg_info =
  Ret ([mkData [mkElement 0 0 10 "v -> v"; mkElement 1 5 20 "v -> v"]
          [[mkStep 0 "s"; mkStep 1 "s"]] {[0 := 0; 1 := 0]}], reg_info).
Proof. vm_compute. reflexivity. Qed.

End Witness.
End VisualSpec.
