(* ===== verification/Labgob.v ===== *)
(** The gob wrapper of labgob/labgob.go: encoders and decoders over a stream of
    values.  Its checks are in LabgobCheck.v. *)
From Stdlib Require Import Strings.Byte.
From stdpp Require Import countable.
From S2P Require Import Prelude.

Module Labgob.

Abbreviation bytes := (list byte).

(** ** Package encoding/gob

    A gob stream is a sequence of values; decoding it yields the values back,
    in order.  [V] is the type of the values that the program encodes. *)
Class Gob (V : Type) := {
  gob_bytes : list V -> bytes;
  gob_values : bytes -> list V;
  gob_roundtrip : forall vs, gob_values (gob_bytes vs) = vs;
  gob_nonempty : forall vs, vs <> [] -> gob_bytes vs <> [];
}.

(** A concrete codec for any countable type of values: the positive number of
    the list, one byte per bit. *)
Fixpoint pos_bytes (p : positive) : bytes :=
  match p with
  | xH => [x02]
  | xO p => x00 :: pos_bytes p
  | xI p => x01 :: pos_bytes p
  end.

Fixpoint bytes_pos (l : bytes) : positive :=
  match l with
  | x00 :: l => xO (bytes_pos l)
  | x01 :: l => xI (bytes_pos l)
  | _ => xH
  end.

Lemma bytes_pos_bytes p : bytes_pos (pos_bytes p) = p.
Proof. induction p; cbn; congruence. Qed.

Definition countable_Gob (V : Type) `{Countable V} : Gob V.
Proof.
  refine {| gob_bytes := fun vs => pos_bytes (encode vs);
            gob_values := fun l => default [] (decode (bytes_pos l)) |}.
  - intros vs. by rewrite bytes_pos_bytes, decode_encode.
  - intros vs _. by destruct (encode vs).
Defined.

Section stream.
Context {V : Type} `{!Gob V}.

(** [LabEncoder] writes to a buffer: the values encoded so far. *)
Record LabEncoder := mkEncoder { written : list V }.
Definition NewEncoder : LabEncoder := mkEncoder [].
(** What [Encode] writes.  The check before it, [checkValue], may print warnings
    or panic on nil, which the sources never encode; [LabgobCheck.Encode] runs
    it and then this, and changes nothing of what is written. *)
Definition Encode (enc : LabEncoder) (e : V) : LabEncoder := mkEncoder (written enc ++ [e]).
(** [w.Bytes()] of the buffer under the encoder *)
Definition Bytes (enc : LabEncoder) : bytes := gob_bytes (written enc).

(** [LabDecoder] reads from a buffer: the values still to be decoded. *)
Record LabDecoder := mkDecoder { unread : list V }.
Definition NewDecoder (data : bytes) : LabDecoder := mkDecoder (gob_values data).
(** [Decode] into a variable of the type that [as_type] accepts; [None] is an
    error, which leaves the variable as it is.  [LabgobCheck.Decode] runs
    [checkValue] and [checkDefault] before. *)
Definition Decode {A} (as_type : V -> option A) (dec : LabDecoder) : option (A * LabDecoder) :=
  match unread dec with
  | v :: rest => match as_type v with Some a => Some (a, mkDecoder rest) | None => None end
  | [] => None
  end.

Lemma written_Encode enc e : written (Encode enc e) = written enc ++ [e].
Proof. done. Qed.

Lemma NewDecoder_Bytes enc : NewDecoder (Bytes enc) = mkDecoder (written enc).
Proof. unfold NewDecoder, Bytes. by rewrite gob_roundtrip. Qed.

End stream.
End Labgob.
