(* ===== verification/Persister.v ===== *)
(** The persister of raft/persister.go. *)
From S2P Require Import Prelude Labgob.
Import Labgob.

Module Persist.

Record Persister := mkPersister { raftstate : bytes; snapshot : bytes }.

Definition MakePersister : Persister := mkPersister [] [].

(** [copy(dst, src)] *)
Definition go_copy {A} (dst src : list A) : list A :=
  take (length dst) src ++ drop (length src) dst.

Definition clone (orig : bytes) : bytes :=
  let x := go_make (len orig) Byte.x00 in
  go_copy x orig.

Definition Copy (ps : Persister) : Persister := mkPersister (raftstate ps) (snapshot ps).
Definition SaveRaftState (state : bytes) (ps : Persister) : Persister :=
  mkPersister (clone state) (snapshot ps).
Definition ReadRaftState (ps : Persister) : bytes := clone (raftstate ps).
Definition RaftStateSize (ps : Persister) : Z := len (raftstate ps).
Definition SaveStateAndSnapshot (state snap : bytes) (ps : Persister) : Persister :=
  mkPersister (clone state) (clone snap).
Definition ReadSnapshot (ps : Persister) : bytes := clone (snapshot ps).
Definition SnapshotSize (ps : Persister) : Z := len (snapshot ps).

Lemma copied_id b : clone b = b.
Proof.
  unfold clone, go_copy, go_make, len. rewrite length_replicate, Nat2Z.id.
  rewrite take_ge, drop_ge by (rewrite ?length_replicate; lia). apply app_nil_r.
Qed.

End Persist.
