(* ===== verification/RaftState.v ===== *)
(** The data of raft/raft.go: the record of a peer, log entries, apply messages
    and the arguments and replies of the three RPCs. *)
From S2P Require Import Prelude Labgob Persister.
Import Labgob Persist.

Module RaftState.

(** A [nil] command is [None]. *)
Record Entry {Cmd : Type} := mkLogEntry { Command : option Cmd; Term : Z }.
Arguments Entry : clear implicits.
Arguments mkLogEntry {Cmd}.

Record ApplyMsg {Cmd : Type} := mkApplyMsg {
  CommandValid : bool;
  am_Command : option Cmd;
  CommandIndex : Z;
  SnapshotValid : bool;
  am_Snapshot : bytes;
  SnapshotTerm : Z;
  SnapshotIndex : Z;
}.
Arguments ApplyMsg : clear implicits.
Arguments mkApplyMsg {Cmd}.

(** The fields of [Raft] behind its mutex.  [npeers] is [len(rf.peers)], a time
    is a number of nanoseconds, and [sender] holds what the peer has sent on
    the channel [rf.sender] so far, the oldest first. *)
Record Raft {Cmd : Type} := mkRaft {
  npeers : Z;
  me : Z;
  dead : Z;
  leaderId : Z;
  currentTerm : Z;
  voteFor : Z;
  Log : list (Entry Cmd);
  commitIndex : Z;
  lastApplied : Z;
  nextIndex : list Z;
  matchIndex : list Z;
  electionTimeout : Z;
  lastAppliedIndex : Z;
  lastAppliedTerm : Z;
  persister : Persister;
  sender : list (ApplyMsg Cmd);
}.
Arguments Raft : clear implicits.
Arguments mkRaft {Cmd}.

Section setters.
Context {Cmd : Type}.
Implicit Type rf : Raft Cmd.

Definition set_dead (x : Z) rf : Raft Cmd :=
  mkRaft (npeers rf) (me rf) x (leaderId rf) (currentTerm rf) (voteFor rf) (Log rf)
    (commitIndex rf) (lastApplied rf) (nextIndex rf) (matchIndex rf) (electionTimeout
    rf) (lastAppliedIndex rf) (lastAppliedTerm rf) (persister rf) (sender rf).
Definition set_leaderId (x : Z) rf : Raft Cmd :=
  mkRaft (npeers rf) (me rf) (dead rf) x (currentTerm rf) (voteFor rf) (Log rf)
    (commitIndex rf) (lastApplied rf) (nextIndex rf) (matchIndex rf) (electionTimeout
    rf) (lastAppliedIndex rf) (lastAppliedTerm rf) (persister rf) (sender rf).
Definition set_currentTerm (x : Z) rf : Raft Cmd :=
  mkRaft (npeers rf) (me rf) (dead rf) (leaderId rf) x (voteFor rf) (Log rf)
    (commitIndex rf) (lastApplied rf) (nextIndex rf) (matchIndex rf) (electionTimeout
    rf) (lastAppliedIndex rf) (lastAppliedTerm rf) (persister rf) (sender rf).
Definition set_voteFor (x : Z) rf : Raft Cmd :=
  mkRaft (npeers rf) (me rf) (dead rf) (leaderId rf) (currentTerm rf) x (Log rf)
    (commitIndex rf) (lastApplied rf) (nextIndex rf) (matchIndex rf) (electionTimeout
    rf) (lastAppliedIndex rf) (lastAppliedTerm rf) (persister rf) (sender rf).
Definition set_Log (x : list (Entry Cmd)) rf : Raft Cmd :=
  mkRaft (npeers rf) (me rf) (dead rf) (leaderId rf) (currentTerm rf) (voteFor rf) x
    (commitIndex rf) (lastApplied rf) (nextIndex rf) (matchIndex rf) (electionTimeout
    rf) (lastAppliedIndex rf) (lastAppliedTerm rf) (persister rf) (sender rf).
Definition set_commitIndex (x : Z) rf : Raft Cmd :=
  mkRaft (npeers rf) (me rf) (dead rf) (leaderId rf) (currentTerm rf) (voteFor rf) (Log
    rf) x (lastApplied rf) (nextIndex rf) (matchIndex rf) (electionTimeout rf)
    (lastAppliedIndex rf) (lastAppliedTerm rf) (persister rf) (sender rf).
Definition set_lastApplied (x : Z) rf : Raft Cmd :=
  mkRaft (npeers rf) (me rf) (dead rf) (leaderId rf) (currentTerm rf) (voteFor rf) (Log
    rf) (commitIndex rf) x (nextIndex rf) (matchIndex rf) (electionTimeout rf)
    (lastAppliedIndex rf) (lastAppliedTerm rf) (persister rf) (sender rf).
Definition set_nextIndex (x : list Z) rf : Raft Cmd :=
  mkRaft (npeers rf) (me rf) (dead rf) (leaderId rf) (currentTerm rf) (voteFor rf) (Log
    rf) (commitIndex rf) (lastApplied rf) x (matchIndex rf) (electionTimeout rf)
    (lastAppliedIndex rf) (lastAppliedTerm rf) (persister rf) (sender rf).
Definition set_matchIndex (x : list Z) rf : Raft Cmd :=
  mkRaft (npeers rf) (me rf) (dead rf) (leaderId rf) (currentTerm rf) (voteFor rf) (Log
    rf) (commitIndex rf) (lastApplied rf) (nextIndex rf) x (electionTimeout rf)
    (lastAppliedIndex rf) (lastAppliedTerm rf) (persister rf) (sender rf).
Definition set_electionTimeout (x : Z) rf : Raft Cmd :=
  mkRaft (npeers rf) (me rf) (dead rf) (leaderId rf) (currentTerm rf) (voteFor rf) (Log
    rf) (commitIndex rf) (lastApplied rf) (nextIndex rf) (matchIndex rf) x
    (lastAppliedIndex rf) (lastAppliedTerm rf) (persister rf) (sender rf).
Definition set_lastAppliedIndex (x : Z) rf : Raft Cmd :=
  mkRaft (npeers rf) (me rf) (dead rf) (leaderId rf) (currentTerm rf) (voteFor rf) (Log
    rf) (commitIndex rf) (lastApplied rf) (nextIndex rf) (matchIndex rf)
    (electionTimeout rf) x (lastAppliedTerm rf) (persister rf) (sender rf).
Definition set_lastAppliedTerm (x : Z) rf : Raft Cmd :=
  mkRaft (npeers rf) (me rf) (dead rf) (leaderId rf) (currentTerm rf) (voteFor rf) (Log
    rf) (commitIndex rf) (lastApplied rf) (nextIndex rf) (matchIndex rf)
    (electionTimeout rf) (lastAppliedIndex rf) x (persister rf) (sender rf).
Definition set_persister (x : Persister) rf : Raft Cmd :=
  mkRaft (npeers rf) (me rf) (dead rf) (leaderId rf) (currentTerm rf) (voteFor rf) (Log
    rf) (commitIndex rf) (lastApplied rf) (nextIndex rf) (matchIndex rf)
    (electionTimeout rf) (lastAppliedIndex rf) (lastAppliedTerm rf) x (sender rf).
Definition set_sender (x : list (ApplyMsg Cmd)) rf : Raft Cmd :=
  mkRaft (npeers rf) (me rf) (dead rf) (leaderId rf) (currentTerm rf) (voteFor rf) (Log
    rf) (commitIndex rf) (lastApplied rf) (nextIndex rf) (matchIndex rf)
    (electionTimeout rf) (lastAppliedIndex rf) (lastAppliedTerm rf) (persister rf) x.

End setters.

(** ** Arguments and replies *)

Record RequestVoteArgs := mkRVArgs {
  rv_Term : Z;
  CandidateId : Z;
  LastLogIndex : Z;
  LastLogTerm : Z;
}.

Record RequestVoteReply := mkRVReply { rvr_Term : Z; VoteGranted : bool }.

Record AppendEntriesArgs {Cmd : Type} := mkAEArgs {
  ae_Term : Z;
  ae_LeaderId : Z;
  PrevLogIndex : Z;
  PrevLogTerm : Z;
  Entries : list (Entry Cmd);
  LeaderCommit : Z;
}.
Arguments AppendEntriesArgs : clear implicits.
Arguments mkAEArgs {Cmd}.

Record AppendEntriesReply := mkAEReply { aer_Term : Z; Success : bool }.

Record InstallsnapshotArgs := mkISArgs {
  is_Term : Z;
  is_LeaderId : Z;
  LastIncludedIndex : Z;
  LastIncludedTerm : Z;
  is_Data : bytes;
}.

Record InstallsnapshotReply := mkISReply { isr_Term : Z }.

(** The values that a peer writes to its persister. *)
Inductive gval {Cmd : Type} :=
| GInt (z : Z)
| GLog (l : list (Entry Cmd)).
Arguments gval : clear implicits.

Definition as_int {Cmd} (v : gval Cmd) : option Z :=
  match v with GInt z => Some z | GLog _ => None end.
Definition as_log {Cmd} (v : gval Cmd) : option (list (Entry Cmd)) :=
  match v with GLog l => Some l | GInt _ => None end.

#[export] Instance Entry_eq_dec {Cmd} `{EqDecision Cmd} : EqDecision (Entry Cmd).
Proof. solve_decision. Defined.
#[export] Instance gval_eq_dec {Cmd} `{EqDecision Cmd} : EqDecision (gval Cmd).
Proof. solve_decision. Defined.

#[export] Instance Entry_countable {Cmd} `{Countable Cmd} : Countable (Entry Cmd).
Proof.
  refine (inj_countable' (fun e => (Command e, Term e)) (fun p => mkLogEntry p.1 p.2) _).
  by intros [].
Defined.

#[export] Instance gval_countable {Cmd} `{Countable Cmd} : Countable (gval Cmd).
Proof.
  refine (inj_countable' (fun v => match v with GInt z => inl z | GLog l => inr l end)
    (fun s => match s with inl z => GInt z | inr l => GLog l end) _).
  by intros [].
Defined.

End RaftState.
