(* ===== verification/Raft.v ===== *)
(** The peer of raft/raft.go: every section of code that runs under [rf.mu], as
    a function from the state of the peer to its next state.

    A method that releases the mutex while it waits for a reply is split there
    into a part before ([_send], [_begin]) and a part after ([_recv],
    [_finish]).  Times and random numbers are arguments.  [go f(x)] is returned
    as data for the caller to run later. *)
From S2P Require Import Prelude Labgob Persister RaftState.
Import Labgob Persist RaftState.
Local Open Scope Z_scope.

Module RaftNode.

Definition ms : Z := 1000000.

(** [RandomTime] of raft/util.go; [r] is the value of [rand.Intn(1000)]. *)
Definition RandomTime (r : Z) : Z := r * ms + ms * 800.

Definition min (num1 num2 : Z) : Z := if num1 >? num2 then num2 else num1.

Section raft.
Context {Cmd : Type} `{!Gob (gval Cmd)}.
Implicit Types rf : Raft Cmd.

Definition GetState rf : Z * bool := (currentTerm rf, leaderId rf =? me rf).

(** ** Persistence *)

(** The stream that [persist] and [doSnapshot] write. *)
Definition encode_state rf : bytes :=
  let e := NewEncoder in
  let e := Encode e (GInt (currentTerm rf)) in
  let e := Encode e (GInt (voteFor rf)) in
  let e := Encode e (GLog (Log rf)) in
  let e := Encode e (GInt (lastAppliedIndex rf)) in
  let e := Encode e (GInt (lastAppliedTerm rf)) in
  Bytes e.

Definition persist rf : Raft Cmd :=
  set_persister (SaveRaftState (encode_state rf) (persister rf)) rf.

Definition readPersist (data : bytes) rf : Raft Cmd :=
  if len data <? 1 then rf else
  let d := NewDecoder data in
  match Decode as_int d with None => rf | Some (currentTerm, d) =>
  match Decode as_int d with None => rf | Some (voteFor, d) =>
  match Decode as_log d with None => rf | Some (log, d) =>
  match Decode as_int d with None => rf | Some (lastAppliedIndex, d) =>
  match Decode as_int d with None => rf | Some (lastAppliedTerm, d) =>
    set_lastAppliedTerm lastAppliedTerm (set_lastAppliedIndex lastAppliedIndex
      (set_Log log (set_voteFor voteFor (set_currentTerm currentTerm rf))))
  end end end end end.

Definition updateCurrentTerm (term : Z) rf : Raft Cmd := persist (set_currentTerm term rf).
Definition updateVoteFor (candidateId : Z) rf : Raft Cmd := persist (set_voteFor candidateId rf).

Definition updateElectionTimeout (now r : Z) rf : Raft Cmd :=
  set_electionTimeout (now + RandomTime r) rf.
Definition isTimeout (now : Z) rf : bool := now >? electionTimeout rf.

(** ** State transfer *)

(** The loop that sets [nextIndex] and [matchIndex] of every peer. *)
Definition init_indices rf : Raft Cmd :=
  let next := len (Log rf) + lastAppliedIndex rf + 1 in
  set_matchIndex (go_make (npeers rf) (next - 1)) (set_nextIndex (go_make (npeers rf) next) rf).

Definition beLeaer rf : Raft Cmd := init_indices (set_leaderId (me rf) rf).

Definition beCandidate rf : Raft Cmd :=
  let rf := updateCurrentTerm (currentTerm rf + 1) rf in
  let rf := updateVoteFor (me rf) rf in
  set_leaderId (-1) rf.

Definition beFollower rf : Raft Cmd := rf.

(** ** Elections *)

(** The peers to which a round of RPCs goes: everyone but [me]. *)
Definition other_peers rf : list Z :=
  filter (fun i => i <> me rf) (Z.of_nat <$> seq 0 (Z.to_nat (npeers rf))).

(** [startElection] up to the wait: the new state, the term of the election
    and the peers for which an [electionSender] is started. *)
Definition startElection_begin rf : Raft Cmd * Z * list Z :=
  let rf := updateCurrentTerm (currentTerm rf + 1) rf in
  let rf := updateVoteFor (me rf) rf in
  let rf := set_leaderId (-1) rf in
  (rf, currentTerm rf, other_peers rf).

(** The condition of the wait loop, negated. *)
Definition all_finished rf (finished : Z) : bool := finished =? npeers rf - 1.

(** [startElection] after the wait. *)
Definition startElection_finish (now r : Z) (voteCount : Z) rf : Raft Cmd :=
  let rf := if voteCount >? Z.quot (npeers rf) 2
            then init_indices (set_leaderId (me rf) rf) else rf in
  updateElectionTimeout now r rf.

(** Index and term of the last log entry. *)
Definition last_log rf : res (Z * Z) :=
  if negb (len (Log rf) =? 0) then
    let! e := go_index (Log rf) (len (Log rf) - 1) in
    Ret (len (Log rf) + lastAppliedIndex rf, Term e)
  else Ret (lastAppliedIndex rf, lastAppliedTerm rf).

(** [electionSender] up to the RPC; [None] is the early return. *)
Definition electionSender_send (term : Z) rf : res (option RequestVoteArgs) :=
  if negb (currentTerm rf =? term) then Ret None else
  let! (lastLogIndex, lastLogTerm) := last_log rf in
  Ret (Some (mkRVArgs (currentTerm rf) (me rf) lastLogIndex lastLogTerm)).

(** [electionSender] after the RPC, which returned [ok] within the timeout. *)
Definition electionSender_recv (term : Z) (ok : bool) (reply : RequestVoteReply) (voteCount : Z) rf
    : Raft Cmd * Z :=
  if negb (currentTerm rf =? term) then (rf, voteCount) else
  if negb ok then (rf, voteCount) else
  let rf := if rvr_Term reply >? currentTerm rf
            then updateVoteFor (-1) (set_currentTerm (rvr_Term reply) rf) else rf in
  (rf, if VoteGranted reply then voteCount + 1 else voteCount).

Definition RequestVote_body (args : RequestVoteArgs) rf : res (Raft Cmd * RequestVoteReply) :=
  let reply := mkRVReply (currentTerm rf) false in
  if rv_Term args <? currentTerm rf then Ret (rf, reply) else
  let rf := if rv_Term args >? currentTerm rf
            then set_leaderId (-1) (updateVoteFor (-1) (updateCurrentTerm (rv_Term args) rf))
            else rf in
  if negb (voteFor rf =? -1) && negb (voteFor rf =? CandidateId args) then Ret (rf, reply) else
  let! (lastLogIndex, lastLogTerm) := last_log rf in
  if LastLogTerm args <? lastLogTerm then Ret (rf, reply) else
  if (LastLogTerm args =? lastLogTerm) && (LastLogIndex args <? lastLogIndex)
  then Ret (rf, reply) else
  let rf := updateVoteFor (CandidateId args) rf in
  Ret (rf, mkRVReply (rvr_Term reply) true).

(** The deferred [updateElectionTimeout] runs on every return. *)
Definition RequestVote (now r : Z) (args : RequestVoteArgs) rf : res (Raft Cmd * RequestVoteReply) :=
  let! (rf, reply) := RequestVote_body args rf in
  Ret (updateElectionTimeout now r rf, reply).

(** ** Log replication *)

(** [sendAERpcs] up to the wait: the term of the round and, for every other
    peer, whether it gets a snapshot. *)
Fixpoint choose_rpcs rf (ps : list Z) : res (list (Z * bool)) :=
  match ps with
  | [] => Ret []
  | i :: ps =>
      let! next := go_index (nextIndex rf) i in
      let IsSendSnapshot := next - 1 <? lastAppliedIndex rf in
      let! rest := choose_rpcs rf ps in
      Ret ((i, IsSendSnapshot) :: rest)
  end.

Definition sendAERpcs_begin rf : res (Z * list (Z * bool)) :=
  let! rpcs := choose_rpcs rf (other_peers rf) in
  Ret (currentTerm rf, rpcs).

(** [appendRPCWorker] up to the RPC. *)
Definition appendRPCWorker_send (index term : Z) rf : res (option (AppendEntriesArgs Cmd)) :=
  let! next := go_index (nextIndex rf) index in
  if next - 1 <? lastAppliedIndex rf then Ret None else
  if negb (currentTerm rf =? term) || negb (leaderId rf =? me rf) then Ret None else
  let prev := next - 1 in
  let! prevTerm :=
    if negb (prev =? -1) && negb (prev =? lastAppliedIndex rf) then
      let! e := go_index (Log rf) (prev - lastAppliedIndex rf - 1) in Ret (Term e)
    else if prev =? lastAppliedIndex rf then Ret (lastAppliedTerm rf)
    else Ret 0 in
  let! entries := go_from (Log rf) (next - lastAppliedIndex rf - 1) in
  Ret (Some (mkAEArgs (currentTerm rf) (me rf) prev prevTerm ([] ++ entries) (commitIndex rf))).

(** [appendRPCWorker] after the RPC. *)
Definition appendRPCWorker_recv (index term : Z) (args : AppendEntriesArgs Cmd) (ok : bool)
    (reply : AppendEntriesReply) (count : Z) rf : res (Raft Cmd * Z) :=
  if negb (currentTerm rf =? term) || negb (leaderId rf =? me rf) then Ret (rf, count) else
  if negb ok then Ret (rf, count) else
  if aer_Term reply >? currentTerm rf then
    let rf := updateCurrentTerm (aer_Term reply) rf in
    let rf := set_leaderId (-1) rf in
    Ret (updateVoteFor (-1) rf, count)
  else
    let! next := go_index (nextIndex rf) index in
    if Success reply then
      let! nexts := go_set (nextIndex rf) index (next + len (Entries args)) in
      let rf := set_nextIndex nexts rf in
      let! next := go_index (nextIndex rf) index in
      let! matchs := go_set (matchIndex rf) index (next - 1) in
      Ret (set_matchIndex matchs rf, count + 1)
    else
      let! nexts := go_set (nextIndex rf) index (min (lastApplied rf + 1) (Z.quot next 2)) in
      Ret (set_nextIndex nexts rf, count).

(** The inner loop of [findMaxN]: the peers of [ps] known to hold entry [N]
    of the current term. *)
Fixpoint count_match rf (N : Z) (ps : list Z) (count : Z) : res Z :=
  match ps with
  | [] => Ret count
  | i :: ps =>
      if i =? me rf then count_match rf N ps count else
      let! m := go_index (matchIndex rf) i in
      if m >=? N then
        let! e := go_index (Log rf) (N - lastAppliedIndex rf - 1) in
        count_match rf N ps (if Term e =? currentTerm rf then count + 1 else count)
      else count_match rf N ps count
  end.

(** The outer loop; [k] is [N - rf.commitIndex], the number of iterations left. *)
Fixpoint findMaxN_loop rf (k : nat) : res Z :=
  let N := commitIndex rf + Z.of_nat k in
  match k with
  | O => Ret N
  | S k =>
      let! count := count_match rf N (Z.of_nat <$> seq 0 (Z.to_nat (npeers rf))) 1 in
      if count >? Z.quot (npeers rf) 2 then Ret N else findMaxN_loop rf k
  end.

Definition findMaxN rf : res Z :=
  let N := len (Log rf) + lastAppliedIndex rf in
  if N >? commitIndex rf then findMaxN_loop rf (Z.to_nat (N - commitIndex rf)) else Ret N.

(** [sendAERpcs] after the wait. *)
Definition sendAERpcs_finish (count : Z) rf : res (Raft Cmd) :=
  if count >? Z.quot (npeers rf) 2 then
    let! N := findMaxN rf in
    Ret (if N >? commitIndex rf then set_commitIndex N rf else rf)
  else Ret rf.

Definition AppendEntries_body (args : AppendEntriesArgs Cmd) rf : res (Raft Cmd * AppendEntriesReply) :=
  let reply := mkAEReply (currentTerm rf) false in
  if ae_Term args <? currentTerm rf then Ret (rf, reply) else
  let rf := if ae_Term args >? currentTerm rf then updateCurrentTerm (ae_Term args) rf else rf in
  let rf := if negb (leaderId rf =? ae_LeaderId args) then set_leaderId (ae_LeaderId args) rf else rf in
  let rf := if negb (voteFor rf =? leaderId rf) then updateVoteFor (leaderId rf) rf else rf in
  if (PrevLogIndex args <? lastAppliedIndex rf)
     || (PrevLogIndex args >? len (Log rf) + lastAppliedIndex rf)
  then Ret (rf, reply) else
  let! prevLogTerm :=
    if (len (Log rf) =? 0) || (PrevLogIndex args =? lastAppliedIndex rf)
    then Ret (lastAppliedTerm rf)
    else let! e := go_index (Log rf) (PrevLogIndex args - lastAppliedIndex rf - 1) in Ret (Term e) in
  if negb (PrevLogTerm args =? prevLogTerm) then
    let! log := go_to (Log rf) (PrevLogIndex args - lastAppliedIndex rf - 1) in
    Ret (persist (set_Log log rf), reply)
  else
    let! rf :=
      if len (Entries args) >? 0 then
        let! log := go_to (Log rf) (PrevLogIndex args - lastAppliedIndex rf) in
        Ret (persist (set_Log (log ++ Entries args) rf))
      else Ret rf in
    let rf := if LeaderCommit args >? commitIndex rf
              then set_commitIndex (min (LeaderCommit args) (len (Log rf) + lastAppliedIndex rf)) rf
              else rf in
    Ret (rf, mkAEReply (aer_Term reply) true).

Definition AppendEntries (now r : Z) (args : AppendEntriesArgs Cmd) rf
    : res (Raft Cmd * AppendEntriesReply) :=
  let! (rf, reply) := AppendEntries_body args rf in
  Ret (updateElectionTimeout now r rf, reply).

(** ** Snapshots *)

Definition CondInstallSnapshot (lastIncludedTerm lastIncludedIndex : Z) (snapshot : bytes) : bool := true.

(** [Snapshot] starts the goroutine [rf.doSnapshot(index, snapshot)]. *)
Definition Snapshot (index : Z) (snapshot : bytes) : Z * bytes := (index, snapshot).

Definition doSnapshot (index : Z) (snapshot : bytes) rf : res (Raft Cmd) :=
  if index <? lastAppliedIndex rf then Ret rf else
  let! (lai, lat) :=
    if index =? lastAppliedIndex rf then Ret (lastAppliedIndex rf, lastAppliedTerm rf)
    else let! e := go_index (Log rf) (index - lastAppliedIndex rf - 1) in Ret (index, Term e) in
  let! log := go_from (Log rf) (index - lastAppliedIndex rf) in
  let rf := set_lastAppliedTerm lat (set_lastAppliedIndex lai (set_Log log rf)) in
  let data := encode_state rf in
  let rf := set_persister (SaveStateAndSnapshot data snapshot (persister rf)) rf in
  let rf := set_lastApplied index rf in
  Ret (set_sender (sender rf ++ [mkApplyMsg false None 0 true snapshot lat lai]) rf).

(** [InstallSnapshotSender] keeps the mutex during the RPC: the arguments are
    computed and the reply handled in one section. *)
Definition InstallSnapshotSender_send (term : Z) rf : option InstallsnapshotArgs :=
  if negb (currentTerm rf =? term) || negb (leaderId rf =? me rf) then None else
  Some (mkISArgs (currentTerm rf) (leaderId rf) (lastAppliedIndex rf) (lastAppliedTerm rf)
          (ReadSnapshot (persister rf))).

Definition InstallSnapshotSender_recv (index : Z) (ok : bool) (reply : InstallsnapshotReply) rf
    : res (Raft Cmd) :=
  if negb ok then Ret rf else
  if isr_Term reply >? currentTerm rf then
    let rf := updateCurrentTerm (isr_Term reply) rf in
    let rf := updateVoteFor (-1) rf in
    Ret (set_leaderId (-1) rf)
  else
    let! nexts := go_set (nextIndex rf) index (lastAppliedIndex rf + 1) in
    let rf := set_nextIndex nexts rf in
    let! next := go_index (nextIndex rf) index in
    let! matchs := go_set (matchIndex rf) index (next - 1) in
    Ret (set_matchIndex matchs rf).

(** The state, the reply, and the [doSnapshot] goroutine that was started. *)
Definition InstallSnapshot_body (args : InstallsnapshotArgs) rf
    : res (Raft Cmd * InstallsnapshotReply * option (Z * bytes)) :=
  let reply := mkISReply (currentTerm rf) in
  if is_Term args <? currentTerm rf then Ret (rf, reply, None) else
  let rf := if is_Term args >? currentTerm rf then updateCurrentTerm (is_Term args) rf else rf in
  let rf := if negb (leaderId rf =? is_LeaderId args) then set_leaderId (is_LeaderId args) rf else rf in
  let rf := if negb (voteFor rf =? leaderId rf) then updateVoteFor (leaderId rf) rf else rf in
  let! rf :=
    if lastAppliedIndex rf + len (Log rf) <=? LastIncludedIndex args then
      Ret (set_lastAppliedTerm (LastIncludedTerm args)
             (set_lastAppliedIndex (LastIncludedIndex args) (set_Log [] rf)))
    else if lastAppliedIndex rf <? LastIncludedIndex args then
      (* the entry is only read to print a warning *)
      let! _ := go_index (Log rf) (LastIncludedIndex args - lastAppliedIndex rf - 1) in
      let! log := go_from (Log rf) (LastIncludedIndex args - lastAppliedIndex rf) in
      let rf := set_Log log rf in
      let rf := set_lastAppliedIndex (LastIncludedIndex args) rf in
      let rf := set_lastAppliedTerm (LastIncludedTerm args) rf in
      Ret (set_lastApplied (lastAppliedIndex rf) rf)
    else Ret rf in
  Ret (rf, reply, Some (Snapshot (LastIncludedIndex args) (is_Data args))).

Definition InstallSnapshot (now r : Z) (args : InstallsnapshotArgs) rf
    : res (Raft Cmd * InstallsnapshotReply * option (Z * bytes)) :=
  let! (rf, reply, spawned) := InstallSnapshot_body args rf in
  Ret (updateElectionTimeout now r rf, reply, spawned).

(** ** The service's side *)

Definition Start (command : option Cmd) rf : Raft Cmd * (Z * Z * bool) :=
  let index := -1 in
  let term := currentTerm rf in
  let isLeader := leaderId rf =? me rf in
  if isLeader then
    let index := len (Log rf) + lastAppliedIndex rf + 1 in
    let rf := set_Log (Log rf ++ [mkLogEntry command term]) rf in
    let rf := persist rf in
    (rf, (index, term, isLeader))
  else (rf, (index, term, isLeader)).

Definition Kill rf : Raft Cmd := set_dead 1 rf.
Definition killed rf : bool := dead rf =? 1.

(** One iteration of [ticker]. *)
Inductive tick := Stop | SendAERpcs | StartElection | Sleep.

Definition ticker (now : Z) rf : tick :=
  if killed rf then Stop
  else if leaderId rf =? me rf then SendAERpcs
  else if isTimeout now rf then StartElection
  else Sleep.

(** The loop of [applyLogToRsm], for [i] from [rf.lastApplied + 1] on. *)
Fixpoint apply_loop (k : nat) (index i : Z) rf : res (Raft Cmd) :=
  match k with
  | O => Ret rf
  | S k =>
      if (i <=? index) && (i - lastAppliedIndex rf - 1 >=? 0) then
        let! e := go_index (Log rf) (i - lastAppliedIndex rf - 1) in
        let rf := set_sender (sender rf ++ [mkApplyMsg true (Command e) i false [] 0 0]) rf in
        let rf := set_lastApplied (lastApplied rf + 1) rf in
        apply_loop k index (i + 1) rf
      else Ret rf
  end.

(** The loop runs at most [index - rf.lastApplied] times. *)
Definition applyLogToRsm (index : Z) rf : res (Raft Cmd) :=
  if commitIndex rf >? lastApplied rf then
    apply_loop (Z.to_nat (index - lastApplied rf)) index (lastApplied rf + 1) rf
  else Ret rf.

(** [ApplyMsgSender]: what it forwards from [rf.sender] to [rf.applyCh], from
    the message [next] on. *)
Fixpoint ApplyMsgSender_loop (next : Z) (sent : list (ApplyMsg Cmd)) : list (ApplyMsg Cmd) :=
  match sent with
  | [] => []
  | m :: sent =>
      if SnapshotValid m then m :: ApplyMsgSender_loop (SnapshotIndex m + 1) sent
      else if CommandValid m && (CommandIndex m =? next)
      then m :: ApplyMsgSender_loop (next + 1) sent
      else ApplyMsgSender_loop next sent
  end.

Definition ApplyMsgSender rf (sent : list (ApplyMsg Cmd)) : list (ApplyMsg Cmd) :=
  ApplyMsgSender_loop (lastAppliedIndex rf + 1) sent.

(** The zero value of [Raft], with the fields that [Make] is given. *)
Definition zero_raft (peers i : Z) (ps : Persister) : Raft Cmd :=
  mkRaft peers i 0 0 0 0 [] 0 0 [] [] 0 0 0 ps [].

Definition Make (peers i : Z) (ps : Persister) (now r : Z) : Raft Cmd :=
  let rf := zero_raft peers i ps in
  let rf := set_currentTerm 0 rf in
  let rf := set_voteFor (-1) rf in
  let rf := set_Log [] rf in
  let rf := set_Log (Log rf ++ [mkLogEntry None 0]) rf in
  let rf := set_lastAppliedIndex (-1) rf in
  let rf := set_lastAppliedTerm 0 rf in
  let rf := set_commitIndex (-1) rf in
  let rf := set_leaderId (-1) rf in
  let rf := set_lastApplied (-1) rf in
  let rf := readPersist (ReadRaftState ps) rf in
  let rf := set_lastApplied (lastAppliedIndex rf) rf in
  let rf := set_commitIndex (lastAppliedIndex rf) rf in
  let rf := init_indices rf in
  let rf := beFollower rf in
  updateElectionTimeout now r rf.

End raft.
End RaftNode.
