(* ===== verification/RaftLemmas.v ===== *)
(** Lemmas about the sections of a Raft peer: logical positions in the log,
    what is on disk, and the effect of each section on these. *)
From S2P Require Import Prelude Labgob Persister RaftState Raft.
Import Labgob Persist RaftState RaftNode.
Local Open Scope Z_scope.

Module RaftOk.
Section lemmas.
Context {Cmd : Type} `{!Gob (gval Cmd)}.
Implicit Types rf : Raft Cmd.

(** ** The log, addressed by absolute index

    Positions up to [lastAppliedIndex] are in the snapshot; of these only the
    term of the last one is known. *)

Definition last_index rf : Z := len (Log rf) + lastAppliedIndex rf.

Definition entry_at rf (i : Z) : option (Entry Cmd) :=
  if i >? lastAppliedIndex rf then Log rf !! Z.to_nat (i - lastAppliedIndex rf - 1) else None.

Definition term_at rf (i : Z) : option Z :=
  if i =? lastAppliedIndex rf then Some (lastAppliedTerm rf) else Term <$> entry_at rf i.

Definition last_term rf : Z :=
  match last (Log rf) with Some e => Term e | None => lastAppliedTerm rf end.

Lemma last_log_eq rf : last_log rf = Ret (last_index rf, last_term rf).
Proof.
  unfold last_log, last_index, last_term, len.
  destruct (Log rf) as [|e l] eqn:E using rev_ind; [cbn; done|].
  clear IHl. rewrite last_snoc. rewrite length_app. cbn [length].
  destruct (Z.eqb_spec (Z.of_nat (length l + 1)) 0); [lia|]. cbn.
  assert (go_index (l ++ [e]) (Z.of_nat (length l + 1) - 1) = Ret e) as ->; [|done].
  apply go_index_ret. split; [lia|]. rewrite lookup_app_r by lia.
  by replace (Z.to_nat (Z.of_nat (length l + 1) - 1) - length l)%nat with 0%nat by lia.
Qed.

(** ** The image on disk *)

(** The last thing written to the persister is the current state. *)
Definition in_sync rf : Prop := raftstate (persister rf) = encode_state rf.

(** What [encode_state] depends on. *)
Definition durable rf : Z * Z * list (Entry Cmd) * Z * Z :=
  (currentTerm rf, voteFor rf, Log rf, lastAppliedIndex rf, lastAppliedTerm rf).

Lemma encode_state_durable rf rf' : durable rf = durable rf' -> encode_state rf = encode_state rf'.
Proof. unfold durable, encode_state. by intros [= -> -> -> -> ->]. Qed.

Lemma in_sync_same rf rf' :
  durable rf = durable rf' -> persister rf = persister rf' -> in_sync rf -> in_sync rf'.
Proof. unfold in_sync. intros Hd <- ->. by apply encode_state_durable. Qed.

Lemma in_sync_persist rf : in_sync (persist rf).
Proof. unfold in_sync, persist. cbn. by rewrite copied_id. Qed.

Lemma in_sync_updateCurrentTerm t rf : in_sync (updateCurrentTerm t rf).
Proof. apply in_sync_persist. Qed.

Lemma in_sync_updateVoteFor c rf : in_sync (updateVoteFor c rf).
Proof. apply in_sync_persist. Qed.

Lemma encode_state_nonempty rf : encode_state rf <> [].
Proof. by apply gob_nonempty. Qed.

Lemma readPersist_encode rf rf' :
  readPersist (encode_state rf') rf =
  set_lastAppliedTerm (lastAppliedTerm rf') (set_lastAppliedIndex (lastAppliedIndex rf')
    (set_Log (Log rf') (set_voteFor (voteFor rf') (set_currentTerm (currentTerm rf') rf)))).
Proof.
  unfold readPersist. pose proof (encode_state_nonempty rf') as Hne.
  destruct (Z.ltb_spec (len (encode_state rf')) 1) as [Hl|_].
  - unfold len in Hl. destruct (encode_state rf'); cbn in Hl; [done|lia].
  - unfold encode_state. by rewrite NewDecoder_Bytes.
Qed.

(** The image determines the durable part of the state. *)
Lemma encode_state_inj rf rf' : encode_state rf = encode_state rf' -> durable rf = durable rf'.
Proof.
  intros He. assert (durable (readPersist (encode_state rf) rf) = durable (readPersist (encode_state rf') rf)) as Hd
    by by rewrite He.
  by rewrite !readPersist_encode in Hd.
Qed.

(** ** The length of slices after a successful index operation *)

Lemma init_indices_lengths rf :
  0 <= npeers rf -> len (nextIndex (init_indices rf)) = npeers rf /\
  len (matchIndex (init_indices rf)) = npeers rf.
Proof. intros. unfold len, go_make. cbn. unfold go_make. rewrite !length_replicate. lia. Qed.

End lemmas.

#[export] Hint Resolve in_sync_persist in_sync_updateCurrentTerm in_sync_updateVoteFor : raft.
End RaftOk.
