(* ===== verification/RaftElection.v ===== *)
(** What the election sections of a Raft peer do: [RequestVote],
    [startElection], [electionSender]. *)
From S2P Require Import Prelude Labgob Persister RaftState Raft RaftLemmas.
Import Labgob Persist RaftState RaftNode RaftOk.
Local Open Scope Z_scope.

Module RaftElection.
Section election.
Context {Cmd : Type} `{!Gob (gval Cmd)}.
Implicit Types rf : Raft Cmd.

(** The candidate's log is at least as up to date as the one of [rf]. *)
Definition up_to_date (args : RequestVoteArgs) rf : Prop :=
  last_term rf < LastLogTerm args \/
  (LastLogTerm args = last_term rf /\ last_index rf <= LastLogIndex args).

(** The vote of [rf] in the term of the request is free or already given to
    the candidate. *)
Definition vote_free (args : RequestVoteArgs) rf : Prop :=
  currentTerm rf < rv_Term args \/ voteFor rf = -1 \/ voteFor rf = CandidateId args.

Definition grants (args : RequestVoteArgs) rf : Prop :=
  currentTerm rf <= rv_Term args /\ vote_free args rf /\ up_to_date args rf.

(** The state after the term of a request is taken over. *)
Definition adopt_term (t : Z) rf : Raft Cmd :=
  if t >? currentTerm rf then set_leaderId (-1) (updateVoteFor (-1) (updateCurrentTerm t rf)) else rf.

#[export] Instance grants_dec args rf : Decision (grants args rf).
Proof. unfold grants, vote_free, up_to_date. apply _. Defined.

Lemma adopt_term_last t rf : last_term (adopt_term t rf) = last_term rf /\
  last_index (adopt_term t rf) = last_index rf.
Proof. unfold adopt_term. by case_cond. Qed.

(** [RequestVote], with its guards gathered in one condition. *)
Lemma RequestVote_eq now r args rf :
  RequestVote now r args rf =
  Ret (updateElectionTimeout now r
         (if decide (grants args rf) then updateVoteFor (CandidateId args) (adopt_term (rv_Term args) rf)
          else if rv_Term args <? currentTerm rf then rf else adopt_term (rv_Term args) rf),
       mkRVReply (currentTerm rf) (bool_decide (grants args rf))).
Proof.
  unfold RequestVote, RequestVote_body. fold (adopt_term (rv_Term args) rf).
  case_bool_decide as Hg.
  - rewrite decide_True by done. destruct Hg as (Ht & Hv & Hu).
    rewrite (proj2 (Z.ltb_ge _ _) Ht), last_log_eq.
    destruct (adopt_term_last (rv_Term args) rf) as [-> ->].
    assert (negb (voteFor (adopt_term (rv_Term args) rf) =? -1) &&
            negb (voteFor (adopt_term (rv_Term args) rf) =? CandidateId args) = false) as ->.
    { unfold adopt_term. destruct (Z.gtb_spec (rv_Term args) (currentTerm rf)); [done|].
      destruct Hv as [?|[-> | ->]]; [lia|done|]. by rewrite Z.eqb_refl, andb_false_r. }
    cbn [rbind]. unfold up_to_date in Hu.
    destruct (Z.ltb_spec (LastLogTerm args) (last_term rf)); [lia|].
    destruct (Z.eqb_spec (LastLogTerm args) (last_term rf)); cbn [andb]; [|done].
    destruct (Z.ltb_spec (LastLogIndex args) (last_index rf)); [lia|done].
  - rewrite decide_False by done. destruct (Z.ltb_spec (rv_Term args) (currentTerm rf)) as [|Ht]; [done|].
    rewrite last_log_eq. destruct (adopt_term_last (rv_Term args) rf) as [-> ->].
    destruct (_ && _) eqn:Hv; [done|]. cbn [rbind].
    destruct (Z.ltb_spec (LastLogTerm args) (last_term rf)); [done|].
    destruct (Z.eqb_spec (LastLogTerm args) (last_term rf)) as [He|Hne]; cbn [andb].
    + destruct (Z.ltb_spec (LastLogIndex args) (last_index rf)); [done|]. destruct Hg.
      split_and!; [done| |right; lia]. zbool. unfold adopt_term, vote_free in *.
      destruct (Z.gtb_spec (rv_Term args) (currentTerm rf)); [by left|right].
      destruct Hv as [Hv|Hv]; zbool; auto.
    + destruct Hg. split_and!; [done| |left; lia]. zbool. unfold adopt_term, vote_free in *.
      destruct (Z.gtb_spec (rv_Term args) (currentTerm rf)); [by left|right].
      destruct Hv as [Hv|Hv]; zbool; auto.
Qed.

Lemma in_sync_adopt t rf : in_sync rf -> in_sync (adopt_term t rf).
Proof. unfold adopt_term. case_cond; [|done]. intros _. apply in_sync_updateVoteFor. Qed.

Lemma in_sync_timeout now r rf : in_sync rf -> in_sync (updateElectionTimeout now r rf).
Proof. by apply in_sync_same. Qed.

End election.
End RaftElection.
