(* ===== verification/RaftLog.v ===== *)
(** What the log sections of a Raft peer do: [AppendEntries],
    [appendRPCWorker], [findMaxN], [Start]. *)
From S2P Require Import Prelude Labgob Persister RaftState Raft RaftLemmas.
Import Labgob Persist RaftState RaftNode RaftOk.
Local Open Scope Z_scope.

Module RaftLog.
Section log.
Context {Cmd : Type} `{!Gob (gval Cmd)}.
Implicit Types rf : Raft Cmd.
Implicit Types args : AppendEntriesArgs Cmd.

(** ** Positions *)

Lemma entry_at_in rf i :
  lastAppliedIndex rf < i <= last_index rf ->
  exists e, go_index (Log rf) (i - lastAppliedIndex rf - 1) = Ret e /\ entry_at rf i = Some e.
Proof.
  unfold last_index. intros Hi.
  destruct (go_index_in (Log rf) (i - lastAppliedIndex rf - 1)) as (e & ? & ?); [lia|].
  exists e. unfold entry_at. by destruct (Z.gtb_spec i (lastAppliedIndex rf)); [|lia].
Qed.

Lemma entry_at_out rf i : i <= lastAppliedIndex rf \/ last_index rf < i -> entry_at rf i = None.
Proof.
  unfold last_index, len, entry_at. intros Hi. destruct (Z.gtb_spec i (lastAppliedIndex rf)); [|done].
  apply lookup_ge_None. lia.
Qed.

Lemma term_at_in rf i :
  lastAppliedIndex rf <= i <= last_index rf -> is_Some (term_at rf i).
Proof.
  intros Hi. unfold term_at. destruct (Z.eqb_spec i (lastAppliedIndex rf)); [by eexists|].
  destruct (entry_at_in rf i) as (e & _ & ->); [lia|]. by eexists.
Qed.

(** ** Taking over the leader of a request *)

Definition adopt_leader (t l : Z) rf : Raft Cmd :=
  let rf := if t >? currentTerm rf then updateCurrentTerm t rf else rf in
  let rf := if negb (leaderId rf =? l) then set_leaderId l rf else rf in
  if negb (voteFor rf =? leaderId rf) then updateVoteFor (leaderId rf) rf else rf.

(** The parts of the state that taking over a leader does not touch. *)
Definition log_part rf :=
  (Log rf, commitIndex rf, lastApplied rf, lastAppliedIndex rf, lastAppliedTerm rf,
   (nextIndex rf, matchIndex rf, npeers rf, me rf, sender rf, snapshot (persister rf))).

Lemma adopt_leader_log t l rf : log_part (adopt_leader t l rf) = log_part rf.
Proof. unfold adopt_leader. repeat case_cond; cbn; unfold log_part; cbn; by rewrite ?copied_id. Qed.

Lemma adopt_leader_state t l rf :
  let rf' := adopt_leader t l rf in
  currentTerm rf' = Z.max (currentTerm rf) t /\ leaderId rf' = l /\ voteFor rf' = l /\
  electionTimeout rf' = electionTimeout rf /\ dead rf' = dead rf.
Proof.
  unfold adopt_leader. destruct (Z.gtb_spec t (currentTerm rf));
    repeat (match goal with |- context [?a =? ?b] => destruct (Z.eqb_spec a b) end; cbn in * );
    split_and!; subst; cbn; try lia; congruence.
Qed.

Lemma in_sync_adopt_leader t l rf : in_sync rf -> in_sync (adopt_leader t l rf).
Proof.
  intros Hs. unfold adopt_leader. repeat case_cond; auto with raft; try (by apply in_sync_same with rf).
  - apply in_sync_same with (updateCurrentTerm t rf); auto with raft.
Qed.

(** ** AppendEntries *)

Definition accepts args rf : Prop :=
  currentTerm rf <= ae_Term args /\ lastAppliedIndex rf <= PrevLogIndex args <= last_index rf /\
  term_at rf (PrevLogIndex args) = Some (PrevLogTerm args).

#[export] Instance accepts_dec args rf : Decision (accepts args rf).
Proof. unfold accepts. apply _. Defined.

(** The log after an accepted request. *)
Definition append_entries args rf : Raft Cmd :=
  if len (Entries args) >? 0 then
    persist (set_Log (take (Z.to_nat (PrevLogIndex args - lastAppliedIndex rf)) (Log rf) ++ Entries args) rf)
  else rf.

Definition advance_commit args rf : Raft Cmd :=
  if LeaderCommit args >? commitIndex rf
  then set_commitIndex (Z.min (LeaderCommit args) (last_index rf)) rf else rf.

(** The one case in which [AppendEntries] panics. *)
Definition prev_at_snapshot args rf : Prop :=
  currentTerm rf <= ae_Term args /\ PrevLogIndex args = lastAppliedIndex rf /\
  PrevLogTerm args <> lastAppliedTerm rf.

#[export] Instance prev_at_snapshot_dec args rf : Decision (prev_at_snapshot args rf).
Proof. unfold prev_at_snapshot. apply _. Defined.

(** The log after a mismatch at [PrevLogIndex]. *)
Definition truncated args rf : Raft Cmd :=
  persist (set_Log (take (Z.to_nat (PrevLogIndex args - lastAppliedIndex rf - 1)) (Log rf)) rf).

Lemma min_Z a b : RaftNode.min a b = Z.min a b.
Proof. unfold RaftNode.min. destruct (Z.gtb_spec a b); lia. Qed.

(** The term that [AppendEntries] compares with [PrevLogTerm]. *)
Lemma prev_term_eq rf i :
  lastAppliedIndex rf <= i <= last_index rf ->
  exists t, term_at rf i = Some t /\
    (if (len (Log rf) =? 0) || (i =? lastAppliedIndex rf) then Ret (lastAppliedTerm rf)
     else let! e := go_index (Log rf) (i - lastAppliedIndex rf - 1) in Ret (Term e)) = Ret t.
Proof.
  intros Hi. unfold last_index in Hi. unfold term_at.
  destruct (Z.eqb_spec i (lastAppliedIndex rf)) as [->|Hne].
  - exists (lastAppliedTerm rf). by rewrite orb_true_r.
  - destruct (Z.eqb_spec (len (Log rf)) 0); [lia|]. cbn [orb].
    destruct (entry_at_in rf i) as (e & -> & ->); [unfold last_index; lia|]. by exists (Term e).
Qed.

Lemma AppendEntries_body_eq args rf :
  let rf1 := adopt_leader (ae_Term args) (ae_LeaderId args) rf in
  let no := mkAEReply (currentTerm rf) false in
  AppendEntries_body args rf =
  if decide (accepts args rf) then
    Ret (advance_commit args (append_entries args rf1), mkAEReply (currentTerm rf) true)
  else if decide (prev_at_snapshot args rf) then Panic
  else if ae_Term args <? currentTerm rf then Ret (rf, no)
  else if (PrevLogIndex args <? lastAppliedIndex rf) || (PrevLogIndex args >? last_index rf)
  then Ret (rf1, no)
  else Ret (truncated args rf1, no).
Proof.
  intros rf1 no. unfold AppendEntries_body. fold (adopt_leader (ae_Term args) (ae_LeaderId args) rf).
  fold rf1 no. pose proof (adopt_leader_log (ae_Term args) (ae_LeaderId args) rf) as Hlog. fold rf1 in Hlog.
  unfold log_part in Hlog. injection Hlog as Hl _ _ Hi Ht _ _ _ _ _ _.
  assert (last_index rf1 = last_index rf) as Hlast by (unfold last_index; by rewrite Hl, Hi).
  assert (term_at rf1 (PrevLogIndex args) = term_at rf (PrevLogIndex args)) as Hterm
    by (unfold term_at, entry_at; by rewrite Hl, Hi, Ht).
  fold (last_index rf1). rewrite Hlast, Hi.
  destruct (Z.ltb_spec (ae_Term args) (currentTerm rf)) as [Hlt|Hge].
  { rewrite !decide_False; [done| |]; intros [? _]; lia. }
  destruct (_ || _) eqn:Hrange; zbool.
  { rewrite !decide_False; [done| |].
    - intros (_ & He & _). unfold last_index in *. pose proof (len_nonneg (Log rf)).
      destruct Hrange; zbool; lia.
    - intros (_ & ? & _). destruct Hrange; zbool; lia. }
  destruct (prev_term_eq rf1 (PrevLogIndex args)) as (t & Htt & Hcomp); [rewrite Hi, Hlast; lia|].
  rewrite Hi in Hcomp. rewrite Hcomp. cbn [rbind].
  destruct (Z.eqb_spec (PrevLogTerm args) t) as [Hpt|Hne]; cbn [negb].
  - rewrite decide_True by (split_and!; [lia|lia|lia|congruence]). unfold append_entries.
    destruct (Z.gtb_spec (len (Entries args)) 0); cbn [rbind].
    + assert (go_to (Log rf1) (PrevLogIndex args - lastAppliedIndex rf) =
        Ret (take (Z.to_nat (PrevLogIndex args - lastAppliedIndex rf)) (Log rf1))) as ->
        by (apply go_to_ret; split; [unfold last_index in *; lia|done]).
      cbn [rbind]. unfold advance_commit, last_index. by rewrite min_Z, Hi.
    + unfold advance_commit, last_index. by rewrite min_Z.
  - rewrite decide_False by (intros (_ & _ & ?); congruence).
    destruct (decide (PrevLogIndex args = lastAppliedIndex rf)) as [He|Hne'].
    + rewrite decide_True.
      * unfold go_to. rewrite He. destruct (Z.leb_spec 0 (lastAppliedIndex rf - lastAppliedIndex rf - 1)); [lia|done].
      * split_and!; [lia|done|]. rewrite Hterm, He in Htt. unfold term_at in Htt.
        rewrite Z.eqb_refl in Htt. congruence.
    + rewrite decide_False by (intros (_ & ? & _); lia).
      assert (go_to (Log rf1) (PrevLogIndex args - lastAppliedIndex rf - 1) =
        Ret (take (Z.to_nat (PrevLogIndex args - lastAppliedIndex rf - 1)) (Log rf1))) as ->
        by (apply go_to_ret; split; [unfold last_index in *; lia|done]).
      cbn [rbind]. unfold truncated. by rewrite Hi.
Qed.

(** The entries of the peer after an accepted request. *)
Lemma entry_at_append args rf i :
  lastAppliedIndex rf <= PrevLogIndex args <= last_index rf -> Entries args <> [] ->
  entry_at (append_entries args rf) i =
  if i <=? PrevLogIndex args then entry_at rf i
  else Entries args !! Z.to_nat (i - PrevLogIndex args - 1).
Proof.
  unfold last_index, len. intros Hp Hne. unfold append_entries, entry_at.
  destruct (Z.gtb_spec (len (Entries args)) 0) as [_|Hl]; cbn.
  2: { unfold len in Hl. destruct (Entries args); cbn in Hl; [done|lia]. }
  destruct (Z.gtb_spec i (lastAppliedIndex rf)), (Z.leb_spec i (PrevLogIndex args)); try done; try lia.
  - rewrite lookup_app_l by (rewrite length_take; lia). by rewrite lookup_take_lt by lia.
  - rewrite lookup_app_r by (rewrite length_take; lia). rewrite length_take. f_equal. lia.
Qed.

Lemma last_index_append args rf :
  lastAppliedIndex rf <= PrevLogIndex args <= last_index rf -> Entries args <> [] ->
  last_index (append_entries args rf) = PrevLogIndex args + len (Entries args).
Proof.
  unfold last_index, append_entries. intros Hp Hne.
  destruct (Z.gtb_spec (len (Entries args)) 0) as [_|Hl]; cbn.
  - unfold len in *. rewrite length_app, length_take. lia.
  - unfold len in Hl. destruct (Entries args); cbn in Hl; [done|lia].
Qed.

Lemma append_entries_nil args rf : Entries args = [] -> append_entries args rf = rf.
Proof. unfold append_entries. by intros ->. Qed.

Lemma in_sync_append args rf : in_sync rf -> in_sync (append_entries args rf).
Proof. unfold append_entries. case_cond; auto with raft. Qed.

Lemma in_sync_advance args rf : in_sync rf -> in_sync (advance_commit args rf).
Proof. unfold advance_commit. case_cond; [by apply in_sync_same|done]. Qed.

(** ** appendRPCWorker *)

Lemma appendRPCWorker_send_eq index term next rf :
  go_index (nextIndex rf) index = Ret next -> -1 <= lastAppliedIndex rf ->
  lastAppliedIndex rf < next <= last_index rf + 1 ->
  currentTerm rf = term -> leaderId rf = me rf ->
  exists t, term_at rf (next - 1) = Some t /\
    appendRPCWorker_send index term rf =
      Ret (Some (mkAEArgs (currentTerm rf) (me rf) (next - 1) t
                   (drop (Z.to_nat (next - lastAppliedIndex rf - 1)) (Log rf)) (commitIndex rf))).
Proof.
  intros Hn Hlow Hr Hc Hl. unfold appendRPCWorker_send. rewrite Hn. cbn [rbind].
  destruct (Z.ltb_spec (next - 1) (lastAppliedIndex rf)); [lia|].
  rewrite Hc, Hl, !Z.eqb_refl. cbn [negb orb].
  destruct (term_at_in rf (next - 1)) as [t Ht]; [lia|]. exists t. split; [done|].
  assert (go_from (Log rf) (next - lastAppliedIndex rf - 1) =
    Ret (drop (Z.to_nat (next - lastAppliedIndex rf - 1)) (Log rf))) as ->
    by (apply go_from_ret; split; [unfold last_index in *; lia|done]).
  unfold term_at in Ht. destruct (Z.eqb_spec (next - 1) (lastAppliedIndex rf)) as [He|Hne].
  - rewrite andb_false_r. cbn. by injection Ht as <-.
  - destruct (Z.eqb_spec (next - 1) (-1)); [lia|]. cbn [negb andb].
    destruct (entry_at_in rf (next - 1)) as (e & He & Hat); [lia|].
    rewrite He. cbn. rewrite Hat in Ht. by injection Ht as <-.
Qed.

(** ** findMaxN *)

(** The entry at [N] is known to be on the peer [i]. *)
Definition holds rf (N i : Z) : bool :=
  negb (i =? me rf) && match matchIndex rf !! Z.to_nat i with Some m => m >=? N | None => false end.

Definition current_entry rf (N : Z) : bool :=
  match entry_at rf N with Some e => Term e =? currentTerm rf | None => false end.

Definition peer_ids rf : list Z := Z.of_nat <$> seq 0 (Z.to_nat (npeers rf)).

(** The number of copies that [findMaxN] counts for the entry at [N]. *)
Definition copies rf (N : Z) : Z :=
  1 + if current_entry rf N then len (filter (fun i => holds rf N i = true) (peer_ids rf)) else 0.

Definition quorum rf (N : Z) : Prop := Z.quot (npeers rf) 2 < copies rf N.

Lemma count_match_eq rf N ps c :
  lastAppliedIndex rf < N <= last_index rf ->
  (forall i, i ∈ ps -> 0 <= i < len (matchIndex rf)) ->
  count_match rf N ps c =
  Ret (c + if current_entry rf N then len (filter (fun i => holds rf N i = true) ps) else 0).
Proof.
  intros HN. destruct (entry_at_in rf N HN) as (e & He & Hat). unfold current_entry. rewrite Hat.
  revert c. induction ps as [|i ps IH]; intros c Hps; cbn [count_match].
  - unfold len. cbn. f_equal. case_cond; lia.
  - assert (forall j, j ∈ ps -> 0 <= j < len (matchIndex rf)) as Hps' by (intros; apply Hps; set_solver).
    destruct (go_index_in (matchIndex rf) i) as (m & Hm & Hmi); [apply Hps; set_solver|].
    assert (holds rf N i = negb (i =? me rf) && (m >=? N)) as Hh by (unfold holds; by rewrite Hmi).
    rewrite filter_cons. destruct (Z.eqb_spec i (me rf)) as [|_]; cbn [negb andb] in Hh.
    { rewrite decide_False by congruence. by apply IH. }
    rewrite Hm. cbn [rbind]. destruct (m >=? N); [|rewrite decide_False by congruence; by apply IH].
    rewrite decide_True by done. rewrite He. cbn [rbind]. rewrite IH by done. f_equal.
    unfold len. cbn [length]. destruct (Term e =? currentTerm rf); lia.
Qed.

Lemma findMaxN_loop_spec rf k :
  lastAppliedIndex rf <= commitIndex rf -> len (matchIndex rf) = npeers rf ->
  commitIndex rf + Z.of_nat k <= last_index rf ->
  exists N, findMaxN_loop rf k = Ret N /\ commitIndex rf <= N <= commitIndex rf + Z.of_nat k /\
    (commitIndex rf < N -> quorum rf N) /\
    (forall M, N < M <= commitIndex rf + Z.of_nat k -> ~ quorum rf M).
Proof.
  intros Hc Hm. induction k as [|k IH]; intros Hk; cbn [findMaxN_loop].
  - exists (commitIndex rf + 0). split_and!; [done|lia|lia|lia|lia].
  - rewrite count_match_eq; [|lia|].
    2: { intros i (j & -> & Hj%elem_of_seq)%list_elem_of_fmap. lia. }
    cbn [rbind]. fold (peer_ids rf). fold (copies rf (commitIndex rf + Z.of_nat (S k))).
    destruct (Z.gtb_spec (copies rf (commitIndex rf + Z.of_nat (S k))) (Z.quot (npeers rf) 2)) as [Hq|Hq].
    + exists (commitIndex rf + Z.of_nat (S k)). split_and!; [done|lia|lia|done|lia].
    + destruct IH as (N & HN & ? & ? & Hmax); [lia|]. exists N. split_and!; [done|lia|lia|done|].
      intros M HM. destruct (decide (M = commitIndex rf + Z.of_nat (S k))) as [->|].
      * unfold quorum. lia.
      * apply Hmax. lia.
Qed.

End log.
End RaftLog.
