(* ===== verification/RaftSnapshot.v ===== *)
(** What the snapshot, apply and restart sections of a Raft peer do:
    [doSnapshot], [InstallSnapshot], [applyLogToRsm], [ApplyMsgSender],
    [Make]. *)
From S2P Require Import Prelude Labgob Persister RaftState Raft RaftLemmas RaftLog.
Import Labgob Persist RaftState RaftNode RaftOk RaftLog.
Local Open Scope Z_scope.

Module RaftSnapshot.
Section snapshot.
Context {Cmd : Type} `{!Gob (gval Cmd)}.
Implicit Types rf : Raft Cmd.

(** ** doSnapshot *)

(** The state with the log cut after [index]. *)
Definition snapshotted (index t : Z) (snap : bytes) rf : Raft Cmd :=
  let rf1 := set_lastAppliedTerm t (set_lastAppliedIndex index
               (set_Log (drop (Z.to_nat (index - lastAppliedIndex rf)) (Log rf)) rf)) in
  set_sender (sender rf ++ [mkApplyMsg false None 0 true snap t index])
    (set_lastApplied index
      (set_persister (SaveStateAndSnapshot (encode_state rf1) snap (persister rf)) rf1)).

Lemma doSnapshot_eq index snap rf :
  lastAppliedIndex rf <= index <= last_index rf ->
  exists t, term_at rf index = Some t /\ doSnapshot index snap rf = Ret (snapshotted index t snap rf).
Proof.
  intros Hi. destruct (term_at_in rf index Hi) as [t Ht]. exists t. split; [done|]. unfold doSnapshot.
  destruct (Z.ltb_spec index (lastAppliedIndex rf)); [lia|].
  assert (go_from (Log rf) (index - lastAppliedIndex rf) =
    Ret (drop (Z.to_nat (index - lastAppliedIndex rf)) (Log rf))) as ->
    by (apply go_from_ret; split; [unfold last_index in *; lia|done]).
  unfold term_at in Ht. destruct (Z.eqb_spec index (lastAppliedIndex rf)) as [He|Hne].
  - injection Ht as <-. cbn [rbind]. unfold snapshotted. by rewrite He.
  - destruct (entry_at_in rf index) as (e & -> & Hat); [lia|]. rewrite Hat in Ht.
    by injection Ht as <-.
Qed.

Lemma doSnapshot_old index snap rf :
  index < lastAppliedIndex rf -> doSnapshot index snap rf = Ret rf.
Proof. intros Hi. unfold doSnapshot. by destruct (Z.ltb_spec index (lastAppliedIndex rf)); [|lia]. Qed.

Lemma doSnapshot_panic index snap rf :
  doSnapshot index snap rf = Panic <-> last_index rf < index.
Proof.
  destruct (decide (index < lastAppliedIndex rf)).
  { rewrite doSnapshot_old by done. unfold last_index. pose proof (len_nonneg (Log rf)).
    split; [done|lia]. }
  destruct (decide (index <= last_index rf)).
  { destruct (doSnapshot_eq index snap rf) as (t & _ & ->); [lia|]. split; [done|lia]. }
  split; [lia|]. intros _. unfold doSnapshot. unfold last_index in *. pose proof (len_nonneg (Log rf)).
  destruct (Z.ltb_spec index (lastAppliedIndex rf)); [done|].
  destruct (Z.eqb_spec index (lastAppliedIndex rf)); [lia|].
  assert (go_index (Log rf) (index - lastAppliedIndex rf - 1) = Panic) as -> by (apply go_index_panic; lia).
  done.
Qed.

Lemma in_sync_snapshotted index t snap rf : in_sync (snapshotted index t snap rf).
Proof. unfold in_sync, snapshotted. cbn. by rewrite copied_id. Qed.

Lemma entry_at_snapshotted index t snap rf i :
  lastAppliedIndex rf <= index -> index < i ->
  entry_at (snapshotted index t snap rf) i = entry_at rf i.
Proof.
  intros Hl Hi. unfold entry_at. cbn. destruct (Z.gtb_spec i index); [|lia].
  destruct (Z.gtb_spec i (lastAppliedIndex rf)); [|lia]. rewrite lookup_drop. f_equal. lia.
Qed.

Lemma last_index_snapshotted index t snap rf :
  lastAppliedIndex rf <= index <= last_index rf ->
  last_index (snapshotted index t snap rf) = last_index rf.
Proof. unfold last_index, len. intros Hi. cbn. rewrite length_drop. lia. Qed.

(** ** InstallSnapshot *)

(** The log once the snapshot of the request covers its entries. *)
Definition cover (args : InstallsnapshotArgs) rf : Raft Cmd :=
  if last_index rf <=? LastIncludedIndex args then
    set_lastAppliedTerm (LastIncludedTerm args)
      (set_lastAppliedIndex (LastIncludedIndex args) (set_Log [] rf))
  else if lastAppliedIndex rf <? LastIncludedIndex args then
    set_lastApplied (LastIncludedIndex args)
      (set_lastAppliedTerm (LastIncludedTerm args)
        (set_lastAppliedIndex (LastIncludedIndex args)
          (set_Log (drop (Z.to_nat (LastIncludedIndex args - lastAppliedIndex rf)) (Log rf)) rf)))
  else rf.

(** [InstallSnapshot] never panics. *)
Lemma InstallSnapshot_eq now r args rf :
  InstallSnapshot now r args rf =
  Ret (if is_Term args <? currentTerm rf
       then (updateElectionTimeout now r rf, mkISReply (currentTerm rf), None)
       else (updateElectionTimeout now r (cover args (adopt_leader (is_Term args) (is_LeaderId args) rf)),
             mkISReply (currentTerm rf), Some (LastIncludedIndex args, is_Data args))).
Proof.
  unfold InstallSnapshot, InstallSnapshot_body.
  fold (adopt_leader (is_Term args) (is_LeaderId args) rf). set (rf1 := adopt_leader _ _ rf).
  destruct (is_Term args <? currentTerm rf); [done|]. unfold cover. rewrite Z.add_comm.
  fold (last_index rf1). destruct (Z.leb_spec (last_index rf1) (LastIncludedIndex args)) as [|Hl]; [done|].
  destruct (Z.ltb_spec (lastAppliedIndex rf1) (LastIncludedIndex args)) as [Hlt|]; [|done].
  destruct (entry_at_in rf1 (LastIncludedIndex args)) as (e & -> & _); [lia|]. cbn [rbind].
  assert (go_from (Log rf1) (LastIncludedIndex args - lastAppliedIndex rf1) =
    Ret (drop (Z.to_nat (LastIncludedIndex args - lastAppliedIndex rf1)) (Log rf1))) as ->
    by (apply go_from_ret; split; [unfold last_index in *; lia|done]).
  done.
Qed.

(** ** applyLogToRsm *)

(** The messages for the entries [i, i + k). *)
Fixpoint apply_msgs rf (i : Z) (k : nat) : list (ApplyMsg Cmd) :=
  match k with
  | O => []
  | S k => mkApplyMsg true (entry_at rf i ≫= Command) i false [] 0 0 :: apply_msgs rf (i + 1) k
  end.

Lemma apply_msgs_same rf rf' i k :
  Log rf' = Log rf -> lastAppliedIndex rf' = lastAppliedIndex rf ->
  apply_msgs rf' i k = apply_msgs rf i k.
Proof.
  intros Hl Hi. revert i. induction k as [|k IH]; intros i; [done|]. cbn. rewrite IH.
  unfold entry_at. by rewrite Hl, Hi.
Qed.

Lemma apply_loop_eq k index i rf :
  lastAppliedIndex rf < i -> i = lastApplied rf + 1 -> i + Z.of_nat k = index + 1 ->
  index <= last_index rf ->
  apply_loop k index i rf =
  Ret (if decide (k = 0%nat) then rf
       else set_lastApplied index (set_sender (sender rf ++ apply_msgs rf i k) rf)).
Proof.
  revert i rf. induction k as [|k IH]; intros i rf Hl Hi Hk Hlast; [done|]. cbn [apply_loop].
  destruct (Z.leb_spec i index); [|lia]. rewrite Z.geb_leb.
  destruct (Z.leb_spec 0 (i - lastAppliedIndex rf - 1)); [|lia]. cbn [andb].
  destruct (entry_at_in rf i) as (e & -> & Hat); [lia|]. cbn [rbind apply_msgs]. rewrite Hat. cbn.
  rewrite IH by (cbn; lia || exact Hlast). f_equal. cbn.
  destruct (decide (k = 0%nat)) as [->|Hne]; cbn.
  - assert (lastApplied rf + 1 = index) as -> by lia. done.
  - rewrite (apply_msgs_same rf) by done. by rewrite <- app_assoc.
Qed.

(** ** ApplyMsgSender *)

(** A stream of messages that goes on without gap: a command follows its
    predecessor, and a snapshot restarts the numbering. *)
Inductive stream_ok : Z -> list (ApplyMsg Cmd) -> Prop :=
| stream_nil next : stream_ok next []
| stream_snapshot next m ms :
    SnapshotValid m = true -> stream_ok (SnapshotIndex m + 1) ms -> stream_ok next (m :: ms)
| stream_command next m ms :
    SnapshotValid m = false -> CommandValid m = true -> CommandIndex m = next ->
    stream_ok (next + 1) ms -> stream_ok next (m :: ms).

Lemma ApplyMsgSender_loop_ok next (sent : list (ApplyMsg Cmd)) : stream_ok next (ApplyMsgSender_loop next sent).
Proof.
  revert next. induction sent as [|m sent IH]; intros next; cbn; [constructor|].
  destruct (SnapshotValid m) eqn:Hs; [by apply stream_snapshot|].
  destruct (CommandValid m) eqn:Hc; cbn [andb]; [|done].
  destruct (Z.eqb_spec (CommandIndex m) next); [by apply stream_command|done].
Qed.

Lemma ApplyMsgSender_loop_sublist next (sent : list (ApplyMsg Cmd)) : sublist (ApplyMsgSender_loop next sent) sent.
Proof.
  revert next. induction sent as [|m sent IH]; intros next; cbn; [constructor|].
  destruct (SnapshotValid m); [by constructor|]. by case_cond; constructor.
Qed.

Lemma ApplyMsgSender_loop_id next (sent : list (ApplyMsg Cmd)) : stream_ok next sent -> ApplyMsgSender_loop next sent = sent.
Proof.
  induction 1 as [next|next m ms Hs _ IH|next m ms Hs Hc Hi _ IH]; cbn; [done|by rewrite Hs, IH|].
  rewrite Hs, Hc, Hi, Z.eqb_refl. cbn. by rewrite <- Hi in *; rewrite IH.
Qed.

(** The value of [next] after the messages [sent]. *)
Fixpoint ApplyMsgSender_next (next : Z) (sent : list (ApplyMsg Cmd)) : Z :=
  match sent with
  | [] => next
  | m :: sent =>
      if SnapshotValid m then ApplyMsgSender_next (SnapshotIndex m + 1) sent
      else if CommandValid m && (CommandIndex m =? next) then ApplyMsgSender_next (next + 1) sent
      else ApplyMsgSender_next next sent
  end.

Lemma ApplyMsgSender_loop_app next (l1 l2 : list (ApplyMsg Cmd)) :
  ApplyMsgSender_loop next (l1 ++ l2) = ApplyMsgSender_loop next l1 ++ ApplyMsgSender_loop (ApplyMsgSender_next next l1) l2.
Proof. revert next. induction l1 as [|m l1 IH]; intros next; cbn; [done|]. repeat case_cond; cbn; by rewrite IH. Qed.

Lemma ApplyMsgSender_next_app next (l1 l2 : list (ApplyMsg Cmd)) :
  ApplyMsgSender_next next (l1 ++ l2) = ApplyMsgSender_next (ApplyMsgSender_next next l1) l2.
Proof. revert next. induction l1 as [|m l1 IH]; intros next; cbn; [done|]. repeat case_cond; by rewrite IH. Qed.

(** [ApplyMsgSender], started when the peer was [rf0], is in step with the
    applier of [rf]: it forwards the command that is sent next. *)
Definition forwards (rf0 rf : Raft Cmd) : Prop :=
  ApplyMsgSender_next (lastAppliedIndex rf0 + 1) (sender rf) = lastApplied rf + 1.

Lemma forwards_same rf0 rf rf' :
  sender rf' = sender rf -> lastApplied rf' = lastApplied rf -> forwards rf0 rf -> forwards rf0 rf'.
Proof. unfold forwards. by intros -> ->. Qed.

(** A snapshot of its own brings it back in step. *)
Lemma doSnapshot_forwards rf0 index snap rf rf' :
  lastAppliedIndex rf <= index -> doSnapshot index snap rf = Ret rf' -> forwards rf0 rf'.
Proof.
  intros Hi Hrun. destruct (decide (index <= last_index rf)).
  - destruct (doSnapshot_eq index snap rf) as (t & _ & Heq); [lia|]. rewrite Heq in Hrun. injection Hrun as <-.
    unfold forwards. cbn. by rewrite ApplyMsgSender_next_app.
  - assert (doSnapshot index snap rf = Panic) as Hp by (apply doSnapshot_panic; lia). congruence.
Qed.

Lemma apply_loop_forwards rf0 k index i rf rf' :
  i = lastApplied rf + 1 -> forwards rf0 rf -> apply_loop k index i rf = Ret rf' -> forwards rf0 rf'.
Proof.
  revert i rf. induction k as [|k IH]; intros i rf Hi Hf; cbn [apply_loop]; [by intros [= <-]|].
  case_cond; [|by intros [= <-]]. intros (e & _ & Hrun)%rbind_ret. apply IH in Hrun; [done|cbn; lia|].
  unfold forwards in *. cbn. rewrite ApplyMsgSender_next_app, Hf. cbn. rewrite Hi, Z.eqb_refl. cbn. lia.
Qed.

Lemma apply_msgs_stream rf i k : stream_ok i (apply_msgs rf i k).
Proof.
  revert i. induction k as [|k IH]; intros i; cbn; [constructor|]. by apply stream_command.
Qed.

(** ** Make *)

Lemma Make_eq n i ps now r rf :
  raftstate ps = encode_state rf ->
  let rf' := Make n i ps now r in
  durable rf' = durable rf /\ persister rf' = ps /\ npeers rf' = n /\ me rf' = i /\ dead rf' = 0 /\
  leaderId rf' = -1 /\ lastApplied rf' = lastAppliedIndex rf /\ commitIndex rf' = lastAppliedIndex rf /\
  sender rf' = [] /\ electionTimeout rf' = now + RandomTime r /\
  nextIndex rf' = go_make n (last_index rf + 1) /\ matchIndex rf' = go_make n (last_index rf).
Proof.
  intros Hps rf'. subst rf'. unfold Make, ReadRaftState. rewrite copied_id, Hps, readPersist_encode.
  unfold durable, last_index. cbn. split_and!; try done. f_equal. lia.
Qed.

Lemma in_sync_Make n i ps now r rf :
  raftstate ps = encode_state rf -> in_sync (Make n i ps now r).
Proof.
  intros Hps. destruct (Make_eq n i ps now r rf Hps) as (Hd & Hp & _).
  unfold in_sync. rewrite Hp, Hps. symmetry. by apply encode_state_durable.
Qed.

End snapshot.
End RaftSnapshot.
