(* ===== verification/RaftSteps.v ===== *)
(** A peer as a state machine: its steps are the sections of code that run
    under its mutex, and the invariants that these steps keep. *)
From S2P Require Import Prelude Labgob Persister RaftState Raft RaftLemmas.
From S2P Require Import RaftElection RaftLog RaftSnapshot.
Import Labgob Persist RaftState RaftNode RaftOk RaftElection RaftLog RaftSnapshot.
Local Open Scope Z_scope.

Module RaftSteps.
Section steps.
Context {Cmd : Type} `{!Gob (gval Cmd)}.
Implicit Types rf : Raft Cmd.

(** The sections that prepare a message or a round and leave the state as it is:
    the first parts of [electionSender], [sendAERpcs], [appendRPCWorker] and
    [InstallSnapshotSender]. *)
Inductive sending :=
| ElectionSend (term : Z)
| RoundBegin
| AppendSend (index term : Z)
| SnapshotSend (term : Z).

(** They may still panic. *)
Definition attempt (x : sending) rf : res unit :=
  match x with
  | ElectionSend term => rmap (fun _ => tt) (electionSender_send term rf)
  | RoundBegin => rmap (fun _ => tt) (sendAERpcs_begin rf)
  | AppendSend index term => rmap (fun _ => tt) (appendRPCWorker_send index term rf)
  | SnapshotSend term => let _ := InstallSnapshotSender_send term rf in Ret tt
  end.

(** The sections of code under the mutex, with their inputs: a received
    message, the values a goroutine carries over a wait, times and random
    numbers. *)
Inductive section :=
| SElectionBegin
| SElectionRecv (term : Z) (ok : bool) (reply : RequestVoteReply) (votes : Z)
| SElectionFinish (now r votes : Z)
| SRequestVote (now r : Z) (args : RequestVoteArgs)
| SAppendRecv (index term : Z) (args : AppendEntriesArgs Cmd) (ok : bool)
    (reply : AppendEntriesReply) (count : Z)
| SRoundFinish (count : Z)
| SAppendEntries (now r : Z) (args : AppendEntriesArgs Cmd)
| SSnapshotRecv (index : Z) (ok : bool) (reply : InstallsnapshotReply)
| SInstallSnapshot (now r : Z) (args : InstallsnapshotArgs)
| SDoSnapshot (index : Z) (snap : bytes)
| SStart (command : option Cmd)
| SApply (index : Z)
| SKill
| SSending (x : sending).

Definition exec (s : section) rf : res (Raft Cmd) :=
  match s with
  | SElectionBegin => Ret (startElection_begin rf).1.1
  | SElectionRecv term ok reply votes => Ret (electionSender_recv term ok reply votes rf).1
  | SElectionFinish now r votes => Ret (startElection_finish now r votes rf)
  | SRequestVote now r args => rmap fst (RequestVote now r args rf)
  | SAppendRecv index term args ok reply count =>
      rmap fst (appendRPCWorker_recv index term args ok reply count rf)
  | SRoundFinish count => sendAERpcs_finish count rf
  | SAppendEntries now r args => rmap fst (AppendEntries now r args rf)
  | SSnapshotRecv index ok reply => InstallSnapshotSender_recv index ok reply rf
  | SInstallSnapshot now r args => rmap (fun x => x.1.1) (InstallSnapshot now r args rf)
  | SDoSnapshot index snap => doSnapshot index snap rf
  | SStart command => Ret (Start command rf).1
  | SApply index => applyLogToRsm index rf
  | SKill => Ret (Kill rf)
  | SSending x => let! _ := attempt x rf in Ret rf
  end.

Lemma exec_sending x rf rf' : exec (SSending x) rf = Ret rf' -> rf' = rf.
Proof. cbn [exec]. by intros ([] & _ & [= <-])%rbind_ret. Qed.

(** Any number of sections, in any order. *)
Fixpoint exec_all (ss : list section) rf : res (Raft Cmd) :=
  match ss with
  | [] => Ret rf
  | s :: ss => let! rf := exec s rf in exec_all ss rf
  end.

(** ** The effect of a section, for the invariants

    [section_effect] abstracts what each section may do. *)
Record section_effect rf rf' : Prop := {
  eff_me : me rf' = me rf;
  eff_npeers : npeers rf' = npeers rf;
  eff_term : currentTerm rf <= currentTerm rf';
  eff_lai : lastAppliedIndex rf <= lastAppliedIndex rf';
  eff_next : len (nextIndex rf) = npeers rf -> len (nextIndex rf') = npeers rf;
  eff_match : len (matchIndex rf) = npeers rf -> len (matchIndex rf') = npeers rf;
}.

Lemma effect_refl rf : section_effect rf rf.
Proof. by split. Qed.

Lemma effect_trans rf1 rf2 rf3 :
  section_effect rf1 rf2 -> section_effect rf2 rf3 -> section_effect rf1 rf3.
Proof.
  intros [Hm1 Hn1 Ht1 Hl1 Hx1 Hy1] [Hm2 Hn2 Ht2 Hl2 Hx2 Hy2].
  split; [congruence|congruence|lia|lia| |]; intros; rewrite Hn1 in *; auto.
Qed.

Lemma go_set_len {A} (l l' : list A) i x : go_set l i x = Ret l' -> len l' = len l.
Proof. intros (_ & ->)%go_set_ret. apply len_insert. Qed.

Lemma effect_adopt_leader t l rf : section_effect rf (adopt_leader t l rf).
Proof.
  pose proof (adopt_leader_log t l rf) as Hlog. unfold log_part in Hlog.
  injection Hlog as _ _ _ Hi _ Hn Hm Hp Hme _ _.
  destruct (adopt_leader_state t l rf) as (Ht & _). split; rewrite ?Hn, ?Hm, ?Ht, ?Hi; auto; lia.
Qed.

Lemma effect_init_indices rf : 0 <= npeers rf -> section_effect rf (init_indices rf).
Proof.
  intros Hn. destruct (init_indices_lengths rf Hn). by split.
Qed.

Lemma effect_cover args rf : section_effect rf (cover args rf).
Proof.
  unfold cover, last_index. pose proof (len_nonneg (Log rf)).
  repeat case_cond; zbool; split; cbn; auto; lia.
Qed.

Lemma apply_loop_effect k index i rf rf' :
  apply_loop k index i rf = Ret rf' -> section_effect rf rf' /\ durable rf' = durable rf /\
  persister rf' = persister rf.
Proof.
  revert i rf. induction k as [|k IH]; intros i rf; cbn [apply_loop].
  { intros [= <-]. split_and!; [apply effect_refl|done|done]. }
  case_cond; [|intros [= <-]; split_and!; [apply effect_refl|done|done]].
  intros (e & _ & Hrun)%rbind_ret. destruct (IH _ _ Hrun) as (He & Hd & Hp). split_and!.
  - eapply effect_trans; [|exact He]. by split.
  - by rewrite Hd.
  - by rewrite Hp.
Qed.

Lemma exec_effect s rf rf' : 0 <= npeers rf -> exec s rf = Ret rf' -> section_effect rf rf'.
Proof.
  intros Hn. destruct s; cbn [exec].
  - intros [= <-]. split; cbn; auto; lia.
  - intros [= <-]. unfold electionSender_recv. repeat case_cond; zbool; split; cbn; auto; lia.
  - intros [= <-]. unfold startElection_finish. case_cond; [|by split].
    apply (effect_trans _ (init_indices (set_leaderId (me rf) rf))); [|by split].
    apply (effect_trans _ (set_leaderId (me rf) rf)); [by split|by apply effect_init_indices].
  - rewrite RequestVote_eq. cbn. intros [= <-]. unfold adopt_term.
    destruct (decide (grants args rf)) as [[? _]|]; repeat case_cond; zbool; split; cbn; auto; lia.
  - intros ([rf1 n] & Hrun & [= <-])%rbind_ret. cbn. revert Hrun. unfold appendRPCWorker_recv.
    do 2 (case_cond; [intros [= <- _]; apply effect_refl|]).
    case_cond; [intros [= <- _]; zbool; split; cbn; auto; lia|].
    intros (next & _ & Hrun)%rbind_ret. case_cond.
    + apply rbind_ret in Hrun as (nexts & Hs%go_set_len & Hrun).
      apply rbind_ret in Hrun as (nx & _ & Hrun). apply rbind_ret in Hrun as (ms & Hm%go_set_len & [= <- _]).
      split; cbn in *; auto; try lia; congruence.
    + apply rbind_ret in Hrun as (nexts & Hs%go_set_len & [= <- _]). split; cbn in *; auto; try lia; congruence.
  - unfold sendAERpcs_finish. case_cond; [|intros [= <-]; apply effect_refl].
    intros (N & _ & [= <-])%rbind_ret. case_cond; [by split|apply effect_refl].
  - unfold AppendEntries. intros ([rf1 rep] & Hrun & [= <-])%rbind_ret. cbn.
    apply rbind_ret in Hrun as ([rf2 rep2] & Hrun & [= <- _]).
    apply (effect_trans _ rf2); [|by split]. revert Hrun. rewrite AppendEntries_body_eq.
    case_decide; [|case_decide; [done|]].
    + intros [= <- _]. eapply effect_trans; [apply effect_adopt_leader|].
      unfold advance_commit, append_entries. repeat case_cond; by split.
    + repeat case_cond; intros [= <- _];
        first [apply effect_refl | apply effect_adopt_leader
              | eapply effect_trans; [apply effect_adopt_leader|by split]].
  - unfold InstallSnapshotSender_recv. case_cond; [intros [= <-]; apply effect_refl|].
    case_cond; [intros [= <-]; zbool; split; cbn; auto; lia|].
    intros (nexts & Hs%go_set_len & Hrun)%rbind_ret. apply rbind_ret in Hrun as (nx & _ & Hrun).
    apply rbind_ret in Hrun as (ms & Hm%go_set_len & [= <-]). split; cbn in *; auto; try lia; congruence.
  - rewrite InstallSnapshot_eq. cbn. intros [= <-]. case_cond; cbn; [by split|].
    eapply effect_trans; [apply effect_adopt_leader|]. eapply effect_trans; [apply effect_cover|by split].
  - intros Hrun. destruct (decide (index < lastAppliedIndex rf)).
    { rewrite doSnapshot_old in Hrun by done. injection Hrun as <-. apply effect_refl. }
    destruct (decide (index <= last_index rf)).
    + destruct (doSnapshot_eq index snap rf) as (t & _ & Heq); [lia|]. rewrite Heq in Hrun.
      injection Hrun as <-. split; cbn; auto; lia.
    + assert (doSnapshot index snap rf = Panic) as Hpan by (apply doSnapshot_panic; lia). congruence.
  - intros [= <-]. unfold Start. case_cond; by split.
  - unfold applyLogToRsm. case_cond; [|intros [= <-]; apply effect_refl]. by intros [? _]%apply_loop_effect.
  - intros [= <-]. by split.
  - intros ->%exec_sending. apply effect_refl.
Qed.

(** ** Well-formed peers *)

Record peer_ok rf : Prop := {
  ok_me : 0 <= me rf < npeers rf;
  ok_lai : -1 <= lastAppliedIndex rf;
  ok_next : len (nextIndex rf) = npeers rf;
  ok_match : len (matchIndex rf) = npeers rf;
}.

Lemma exec_peer_ok s rf rf' : peer_ok rf -> exec s rf = Ret rf' -> peer_ok rf'.
Proof.
  intros [Hme Hl Hn Hm] Hrun.
  destruct (exec_effect s rf rf') as [Hm' Hn' _ Hl' Hx Hy]; [lia|done|].
  split; rewrite ?Hm', ?Hn'; auto; lia.
Qed.

Lemma peer_ok_Make n i ps now r rf :
  raftstate ps = encode_state rf -> -1 <= lastAppliedIndex rf -> 0 <= i < n ->
  peer_ok (Make n i ps now r).
Proof.
  intros Hps Hl Hi. destruct (Make_eq n i ps now r rf Hps) as (Hd & _ & Hn & Hm & _ & _ & _ & _ & _ & _ & Hx & Hy).
  assert (lastAppliedIndex (Make n i ps now r) = lastAppliedIndex rf) as Hlai
    by exact (f_equal (fun d => d.1.2) Hd).
  split; rewrite ?Hn, ?Hm, ?Hlai, ?Hx, ?Hy; auto; unfold len, go_make; rewrite length_replicate; lia.
Qed.

Lemma peer_ok_Make_fresh n i now r :
  0 <= i < n -> peer_ok (Make n i MakePersister now r).
Proof.
  intros Hi. assert (forall x : Z, 0 <= n -> len (go_make n x) = n) as Hg by (intros; unfold len, go_make; rewrite length_replicate; lia).
  split; [exact Hi|done|apply Hg; lia|apply Hg; lia].
Qed.

(** The indices of peers that a section is given are in range. *)
Definition inputs_ok (s : section) rf : Prop :=
  match s with
  | SAppendRecv index _ _ _ _ _ | SSnapshotRecv index _ _ | SSending (AppendSend index _) => 0 <= index < npeers rf
  | _ => True
  end.

(** [appendRPCWorker] gets to [rf.Log] with a [nextIndex] past the end of the
    log. *)
Definition next_past_end (index term : Z) rf : Prop :=
  currentTerm rf = term /\ leaderId rf = me rf /\
  exists next, nextIndex rf !! Z.to_nat index = Some next /\ last_index rf + 1 < next.

(** The situations in which a section panics. *)
Definition may_panic (s : section) rf : Prop :=
  match s with
  | SAppendEntries _ _ args => prev_at_snapshot args rf
  | SRoundFinish count => commitIndex rf < lastAppliedIndex rf
  | SDoSnapshot index _ => last_index rf < index
  | SApply index => last_index rf < index
  | SSending (AppendSend index term) => next_past_end index term rf
  | _ => False
  end.

Lemma set_then_get rf (l : list Z) i x y :
  0 <= i < len l -> exists l', go_set l i x = Ret l' /\ go_index l' i = Ret x /\
  exists l2, go_set (matchIndex rf) i y = l2.
Proof.
  intros Hi. exists (<[Z.to_nat i := x]> l). rewrite go_set_in by done. split; [done|]. split; [|by eexists].
  apply go_index_ret. unfold len in Hi. split; [lia|]. apply list_lookup_insert_eq. lia.
Qed.

Lemma findMaxN_ret rf :
  lastAppliedIndex rf <= commitIndex rf -> len (matchIndex rf) = npeers rf ->
  exists N, findMaxN rf = Ret N.
Proof.
  intros Hc Hm. unfold findMaxN. fold (last_index rf).
  destruct (Z.gtb_spec (last_index rf) (commitIndex rf)); [|by eexists].
  destruct (findMaxN_loop_spec rf (Z.to_nat (last_index rf - commitIndex rf))) as (N & HN & _);
    [done|done|lia|]. by exists N.
Qed.

Lemma apply_loop_ret k index i rf :
  index <= last_index rf -> exists rf', apply_loop k index i rf = Ret rf'.
Proof.
  revert i rf. induction k as [|k IH]; intros i rf Hl; cbn [apply_loop]; [by eexists|].
  case_cond; [|by eexists]. zbool. destruct (entry_at_in rf i) as (e & -> & _); [lia|]. cbn [rbind].
  by apply IH.
Qed.

(** The sender of a request panics exactly there. *)
Lemma appendRPCWorker_send_panic index term rf : peer_ok rf -> 0 <= index < npeers rf ->
  appendRPCWorker_send index term rf = Panic <-> next_past_end index term rf.
Proof.
  intros [_ Hl Hn _] Hi. rewrite <- Hn in Hi. unfold appendRPCWorker_send, next_past_end.
  destruct (go_index_in (nextIndex rf) index Hi) as (next & -> & Hnext). cbn [rbind].
  assert (forall x, nextIndex rf !! Z.to_nat index = Some x -> x = next) as Hx by (intros x; rewrite Hnext; by intros [= ->]).
  case_cond; [split; [done|]; intros (_ & _ & x & ->%Hx & ?); zbool; unfold last_index in *; pose proof (len_nonneg (Log rf)); lia|].
  destruct (negb (currentTerm rf =? term) || negb (leaderId rf =? me rf)) eqn:Hcur.
  { split; [done|]. intros (He & Hl1 & _). by rewrite He, Hl1, !Z.eqb_refl in Hcur. }
  zbool.
  destruct (decide (last_index rf + 1 < next)) as [Hpast|Hin].
  - split; [|intros _].
    { intros _. split_and!; [done|done|by exists next]. }
    assert (negb (next - 1 =? -1) && negb (next - 1 =? lastAppliedIndex rf) = true) as ->.
    { unfold last_index in Hpast. pose proof (len_nonneg (Log rf)). apply andb_true_iff. split; apply negb_true_iff, Z.eqb_neq; lia. }
    assert (go_index (Log rf) (next - 1 - lastAppliedIndex rf - 1) = Panic) as ->; [|done].
    apply go_index_panic. unfold last_index in *. lia.
  - split; [|intros (_ & _ & x & ->%Hx & ?); lia]. intros Hp. exfalso. revert Hp.
    assert (go_from (Log rf) (next - lastAppliedIndex rf - 1) <> Panic) as Hfrom.
    { unfold go_from. case_cond; [done|]. zbool. unfold last_index in *. lia. }
    destruct (go_from _ _) as [es|]; [|done]. case_cond; [|by case_cond]. zbool.
    destruct (go_index_in (Log rf) (next - 1 - lastAppliedIndex rf - 1)) as (e & -> & _); [unfold last_index in *; lia|]. done.
Qed.

(** The other senders do not panic. *)
Lemma choose_rpcs_ret rf ps : (forall i, i ∈ ps -> 0 <= i < len (nextIndex rf)) -> exists l, choose_rpcs rf ps = Ret l.
Proof.
  induction ps as [|i ps IH]; intros Hps; cbn [choose_rpcs]; [by eexists|].
  destruct (go_index_in (nextIndex rf) i) as (next & -> & _); [apply Hps; set_solver|].
  destruct IH as [l Hl]; [set_solver|]. cbn [rbind]. rewrite Hl. by eexists.
Qed.

Lemma attempt_panics x rf : peer_ok rf -> inputs_ok (SSending x) rf -> attempt x rf = Panic -> may_panic (SSending x) rf.
Proof.
  intros Hok Hin. destruct x; cbn [attempt inputs_ok may_panic] in *.
  - unfold electionSender_send. case_cond; [done|]. by rewrite last_log_eq.
  - unfold sendAERpcs_begin. destruct (choose_rpcs_ret rf (other_peers rf)) as [l ->]; [|done].
    intros i Hi. unfold other_peers in Hi. apply list_elem_of_filter in Hi as [_ (k & -> & Hk%elem_of_seq)%list_elem_of_fmap].
    rewrite (ok_next _ Hok). lia.
  - destruct (appendRPCWorker_send index term rf) as [o|] eqn:E; [done|]. intros _. by apply appendRPCWorker_send_panic.
  - done.
Qed.

Lemma exec_panics s rf :
  peer_ok rf -> inputs_ok s rf -> exec s rf = Panic -> may_panic s rf.
Proof.
  intros Hok Hin. pose proof Hok as [Hme Hl Hn Hm].
  destruct s; [..|cbn [exec]; intros Hp; apply attempt_panics; [done|done|by destruct (attempt x rf)]];
    cbn [exec inputs_ok may_panic] in *; try done.
  - by rewrite RequestVote_eq.
  - unfold appendRPCWorker_recv. rewrite <- Hn in Hin. repeat (case_cond; [done|]).
    destruct (go_index_in (nextIndex rf) index Hin) as (next & -> & _). cbn [rbind]. case_cond.
    + destruct (set_then_get rf (nextIndex rf) index (next + len (Entries args)) 0 Hin) as (l & -> & Hg & _).
      cbn. rewrite Hg. cbn. by rewrite go_set_in by lia.
    + by rewrite go_set_in.
  - intros Hp. destruct (decide (commitIndex rf < lastAppliedIndex rf)) as [|Hge]; [done|exfalso].
    revert Hp. unfold sendAERpcs_finish. case_cond; [|done].
    destruct (findMaxN_ret rf) as [N ->]; [lia|done|done].
  - unfold AppendEntries. rewrite AppendEntries_body_eq.
    case_decide; [done|]. case_decide; [done|]. by repeat case_cond.
  - unfold InstallSnapshotSender_recv. rewrite <- Hn in Hin. repeat (case_cond; [done|]).
    destruct (set_then_get rf (nextIndex rf) index (lastAppliedIndex rf + 1) 0 Hin) as (l & -> & Hg & _).
    cbn. rewrite Hg. cbn. by rewrite go_set_in by lia.
  - by rewrite InstallSnapshot_eq.
  - apply doSnapshot_panic.
  - intros Hp. destruct (decide (last_index rf < index)) as [|Hge]; [done|exfalso].
    revert Hp. unfold applyLogToRsm. case_cond; [|done].
    destruct (apply_loop_ret (Z.to_nat (index - lastApplied rf)) index (lastApplied rf + 1) rf) as [rf' ->];
      [lia|done].
Qed.

(** A property that every section keeps holds after any run. *)
Lemma exec_all_ind (P : Raft Cmd -> Prop) (Q : section -> Prop) ss rf rf' :
  (forall s rf rf', Q s -> P rf -> exec s rf = Ret rf' -> P rf') ->
  Forall Q ss -> P rf -> exec_all ss rf = Ret rf' -> P rf'.
Proof.
  intros Hstep. revert rf. induction ss as [|s ss IH]; intros rf HQ HP; cbn [exec_all].
  { by intros [= <-]. }
  apply Forall_cons in HQ as [? ?]. intros (rf1 & Hs & Hrun)%rbind_ret. eauto.
Qed.

Lemma exec_all_effect ss rf rf' :
  peer_ok rf -> exec_all ss rf = Ret rf' -> peer_ok rf' /\ section_effect rf rf'.
Proof.
  intros Hok. apply (exec_all_ind (fun rf' => peer_ok rf' /\ section_effect rf rf') (fun _ => True)).
  - intros s rf1 rf2 _ [Hok1 He] Hs. split; [by eapply exec_peer_ok|].
    eapply effect_trans; [exact He|]. eapply exec_effect; [|done]. destruct Hok1; lia.
  - by apply Forall_forall.
  - split; [done|apply effect_refl].
Qed.

(** ** The service *)

Lemma AppendEntries_forwards rf0 now r args rf rf' reply :
  AppendEntries now r args rf = Ret (rf', reply) -> forwards rf0 rf -> forwards rf0 rf'.
Proof.
  unfold AppendEntries. intros ([rf1 reply1] & Hrun & [= <- _])%rbind_ret. revert Hrun. rewrite AppendEntries_body_eq.
  pose proof (adopt_leader_log (ae_Term args) (ae_LeaderId args) rf) as Hlog. unfold log_part in Hlog.
  injection Hlog as _ _ Ha _ _ _ _ _ _ Hs _.
  case_decide; [|case_decide; [done|]].
  - intros [= <- _]. apply forwards_same; unfold advance_commit, append_entries; by repeat case_cond.
  - repeat case_cond; intros [= <- _]; by apply forwards_same.
Qed.

Definition is_install (s : section) : Prop :=
  match s with SInstallSnapshot _ _ _ => True | _ => False end.

(** [InstallSnapshot] may get [ApplyMsgSender] out of step, until [doSnapshot] has
    saved its snapshot; no other section does. *)
Lemma exec_forwards s rf0 rf rf' : ~ is_install s -> exec s rf = Ret rf' -> forwards rf0 rf -> forwards rf0 rf'.
Proof.
  intros Hni Hx Hf. destruct s; cbn [exec is_install] in *; try done.
  - injection Hx as <-. by eapply forwards_same; [..|exact Hf].
  - injection Hx as <-. unfold electionSender_recv. repeat case_cond; by eapply forwards_same; [..|exact Hf].
  - injection Hx as <-. unfold startElection_finish. case_cond; by eapply forwards_same; [..|exact Hf].
  - rewrite RequestVote_eq in Hx. cbn in Hx. injection Hx as <-. unfold adopt_term.
    case_decide; repeat case_cond; by eapply forwards_same; [..|exact Hf].
  - apply rbind_ret in Hx as ([rf1 n] & Hrun & [= <-]). revert Hrun. unfold appendRPCWorker_recv.
    do 3 (case_cond; [intros [= <- _]; by eapply forwards_same; [..|exact Hf]|]). intros (next & _ & Hrun)%rbind_ret. case_cond.
    + apply rbind_ret in Hrun as (nexts & _ & Hrun). apply rbind_ret in Hrun as (nx & _ & Hrun).
      apply rbind_ret in Hrun as (ms & _ & [= <- _]). by eapply forwards_same; [..|exact Hf].
    + apply rbind_ret in Hrun as (nexts & _ & [= <- _]). by eapply forwards_same; [..|exact Hf].
  - revert Hx. unfold sendAERpcs_finish. case_cond; [|by intros [= <-]]. intros (N & _ & [= <-])%rbind_ret. by case_cond.
  - apply rbind_ret in Hx as ([rf1 reply] & Hrun & [= <-]). by eapply AppendEntries_forwards.
  - revert Hx. unfold InstallSnapshotSender_recv. do 2 (case_cond; [intros [= <-]; by eapply forwards_same; [..|exact Hf]|]).
    intros (nexts & _ & Hrun)%rbind_ret. apply rbind_ret in Hrun as (nx & _ & Hrun).
    apply rbind_ret in Hrun as (ms & _ & [= <-]). by eapply forwards_same; [..|exact Hf].
  - destruct (decide (index < lastAppliedIndex rf)).
    + rewrite doSnapshot_old in Hx by done. by injection Hx as <-.
    + eapply doSnapshot_forwards; [|done]. lia.
  - injection Hx as <-. unfold Start. by case_cond.
  - revert Hx. unfold applyLogToRsm. case_cond; [by apply apply_loop_forwards|by intros [= <-]].
  - by injection Hx as <-.
  - by apply exec_sending in Hx as ->.
Qed.

(** So it is in step in a peer that has installed no snapshot since it was made. *)
Lemma exec_all_forwards n i ps now r ss rf : Forall (fun s => ~ is_install s) ss ->
  exec_all ss (Make n i ps now r) = Ret rf -> forwards (Make n i ps now r) rf.
Proof.
  intros Hss. apply (exec_all_ind (forwards (Make n i ps now r)) (fun s => ~ is_install s)); [|done|].
  - intros s rf1 rf2 Hs Hf Hx. by eapply exec_forwards.
  - unfold forwards, Make. cbn. unfold readPersist. cbn. by repeat case_match.
Qed.

(** ** The image on disk *)

(** The section saves the state, or leaves alone what is to be saved. *)
Definition saves rf rf' : Prop := in_sync rf' \/ (durable rf' = durable rf /\ persister rf' = persister rf).

Lemma saves_refl rf : saves rf rf.
Proof. by right. Qed.

Lemma saves_same rf rf' : durable rf' = durable rf -> persister rf' = persister rf -> saves rf rf'.
Proof. by right. Qed.

Lemma saves_trans rf1 rf2 rf3 : saves rf1 rf2 -> saves rf2 rf3 -> saves rf1 rf3.
Proof.
  intros H12 [?|[Hd Hp]]; [by left|]. destruct H12 as [?|[Hd' Hp']]; [left|right].
  - by apply in_sync_same with rf2.
  - split; congruence.
Qed.

Lemma saves_adopt_leader t l rf : saves rf (adopt_leader t l rf).
Proof.
  unfold adopt_leader. repeat case_cond; try (by apply saves_same); left; first [apply in_sync_updateVoteFor
    | apply in_sync_same with (updateCurrentTerm t rf); [done|done|apply in_sync_updateCurrentTerm]].
Qed.

Lemma saves_append args rf : saves rf (advance_commit args (append_entries args rf)).
Proof.
  apply (saves_trans _ (append_entries args rf)).
  - unfold append_entries. case_cond; [left; auto with raft|apply saves_refl].
  - unfold advance_commit. case_cond; [by apply saves_same|apply saves_refl].
Qed.

Lemma exec_saves s rf rf' : ~ is_install s -> exec s rf = Ret rf' -> saves rf rf'.
Proof.
  intros Hni. destruct s; cbn [exec is_install] in *; try done.
  - intros [= <-]. left.
    by apply in_sync_same with (updateVoteFor (me rf) (updateCurrentTerm (currentTerm rf + 1) rf)); auto with raft.
  - intros [= <-]. unfold electionSender_recv.
    repeat case_cond; cbn; first [apply saves_refl | left; auto with raft].
  - intros [= <-]. unfold startElection_finish. case_cond; by apply saves_same.
  - rewrite RequestVote_eq. cbn. intros [= <-]. unfold adopt_term.
    case_decide; [left; apply in_sync_timeout; auto with raft|].
    repeat case_cond; first [by apply saves_same |
      left; apply in_sync_timeout; eapply in_sync_same; [| |apply in_sync_updateVoteFor]; done].
  - intros ([rf1 n] & Hrun & [= <-])%rbind_ret. cbn. revert Hrun. unfold appendRPCWorker_recv.
    do 2 (case_cond; [intros [= <- _]; apply saves_refl|]).
    case_cond; [intros [= <- _]; left; auto with raft|].
    intros (next & _ & Hrun)%rbind_ret. case_cond.
    + apply rbind_ret in Hrun as (nexts & _ & Hrun).
      apply rbind_ret in Hrun as (nx & _ & Hrun). apply rbind_ret in Hrun as (ms & _ & [= <- _]).
      by apply saves_same.
    + apply rbind_ret in Hrun as (nexts & _ & [= <- _]). by apply saves_same.
  - unfold sendAERpcs_finish. case_cond; [|intros [= <-]; apply saves_refl].
    intros (N & _ & [= <-])%rbind_ret. case_cond; [by apply saves_same|apply saves_refl].
  - unfold AppendEntries. intros ([rf1 rep] & Hrun & [= <-])%rbind_ret. cbn.
    apply rbind_ret in Hrun as ([rf2 rep2] & Hrun & [= <- _]).
    apply (saves_trans _ rf2); [|by apply saves_same].
    revert Hrun. rewrite AppendEntries_body_eq. case_decide; [|case_decide; [done|]].
    + intros [= <- _]. eapply saves_trans; [apply saves_adopt_leader|apply saves_append].
    + repeat case_cond; intros [= <- _];
        first [apply saves_refl | apply saves_adopt_leader | left; apply in_sync_persist].
  - unfold InstallSnapshotSender_recv. case_cond; [intros [= <-]; apply saves_refl|].
    case_cond; [intros [= <-]; left|].
    + apply in_sync_same with (updateVoteFor (-1) (updateCurrentTerm (isr_Term reply) rf)); auto with raft.
    + intros (nexts & _ & Hrun)%rbind_ret. apply rbind_ret in Hrun as (nx & _ & Hrun).
      apply rbind_ret in Hrun as (ms & _ & [= <-]). by apply saves_same.
  - intros Hrun. destruct (decide (index < lastAppliedIndex rf)).
    { rewrite doSnapshot_old in Hrun by done. injection Hrun as <-. apply saves_refl. }
    destruct (decide (index <= last_index rf)).
    + destruct (doSnapshot_eq index snap rf) as (t & _ & Heq); [lia|]. rewrite Heq in Hrun.
      injection Hrun as <-. left. apply in_sync_snapshotted.
    + assert (doSnapshot index snap rf = Panic) as Hpan by (apply doSnapshot_panic; lia). congruence.
  - intros [= <-]. unfold Start. case_cond; [left; apply in_sync_persist|apply saves_refl].
  - unfold applyLogToRsm. case_cond; [|intros [= <-]; apply saves_refl]. intros (_ & Hd & Hp)%apply_loop_effect.
    by apply saves_same.
  - intros [= <-]. by apply saves_same.
  - intros ->%exec_sending. apply saves_refl.
Qed.

Lemma exec_in_sync s rf rf' : ~ is_install s -> in_sync rf -> exec s rf = Ret rf' -> in_sync rf'.
Proof.
  intros Hni Hs Hrun. destruct (exec_saves s rf rf' Hni Hrun) as [?|[? ?]]; [done|by apply in_sync_same with rf].
Qed.

End steps.
End RaftSteps.
