(* ===== verification/RaftSpec.v ===== *)
(** What a Raft peer promises: the properties of the sections of raft/raft.go,
    with their witnesses. *)
From S2P Require Import Prelude Labgob Persister RaftState Raft RaftLemmas.
From S2P Require Import RaftElection RaftLog RaftSnapshot RaftSteps.
Import Labgob Persist RaftState RaftNode RaftOk RaftElection RaftLog RaftSnapshot RaftSteps.
Local Open Scope Z_scope.

Module RaftSpec.
Section properties.
Context {Cmd : Type} `{!Gob (gval Cmd)}.
Implicit Types rf : Raft Cmd.

(** C17. [RequestVote] grants the vote exactly when the candidate's term is not
    old, the vote of that term is free or already the candidate's, and the
    candidate's log is at least as up to date; a granted vote and the new term
    are on disk when the reply leaves, and the log is untouched. *)
Theorem RequestVote_correct now r (args : RequestVoteArgs) rf :
  exists rf' reply, RequestVote now r args rf = Ret (rf', reply) /\
    (VoteGranted reply = true <-> grants args rf) /\
    rvr_Term reply = currentTerm rf /\
    currentTerm rf' = Z.max (currentTerm rf) (rv_Term args) /\
    (VoteGranted reply = true -> voteFor rf' = CandidateId args /\ in_sync rf') /\
    (in_sync rf -> in_sync rf') /\
    Log rf' = Log rf /\ lastAppliedIndex rf' = lastAppliedIndex rf /\ commitIndex rf' = commitIndex rf /\
    electionTimeout rf' = now + RandomTime r.
Proof.
  rewrite RequestVote_eq. eexists _, _. split; [done|]. cbn. rewrite bool_decide_eq_true.
  destruct (decide (grants args rf)) as [Hg|Hg].
  - pose proof Hg as [Ht _]. unfold adopt_term.
    split_and!; try done; try (case_cond; zbool; cbn; (done || lia)).
    + intros _. split; [done|]. apply in_sync_timeout, in_sync_updateVoteFor.
    + intros _. apply in_sync_timeout, in_sync_updateVoteFor.
  - split_and!; try done; try (unfold adopt_term; repeat case_cond; zbool; cbn; (done || lia)).
    intros Hs. apply in_sync_timeout. case_cond; [done|by apply in_sync_adopt].
Qed.

(** C18. [AppendEntries] succeeds exactly when the leader's term is not old and
    the log has an entry (or ends its snapshot) at [PrevLogIndex] with term
    [PrevLogTerm]; then a non-empty batch replaces everything after
    [PrevLogIndex], entries up to it stay, the commit index rises to
    [LeaderCommit] but not past the end of the log, and the state is on disk. *)
Theorem AppendEntries_correct now r (args : AppendEntriesArgs Cmd) rf rf' reply :
  in_sync rf -> AppendEntries now r args rf = Ret (rf', reply) ->
  in_sync rf' /\ currentTerm rf' = Z.max (currentTerm rf) (ae_Term args) /\
  (Success reply = true <-> accepts args rf) /\
  (Success reply = true ->
     leaderId rf' = ae_LeaderId args /\
     (forall i, entry_at rf' i =
        if (len (Entries args) =? 0) || (i <=? PrevLogIndex args) then entry_at rf i
        else Entries args !! Z.to_nat (i - PrevLogIndex args - 1)) /\
     last_index rf' = (if len (Entries args) =? 0 then last_index rf
                       else PrevLogIndex args + len (Entries args)) /\
     commitIndex rf' = (if LeaderCommit args >? commitIndex rf
                        then Z.min (LeaderCommit args) (last_index rf') else commitIndex rf)).
Proof.
  intros Hs Hrun. assert (in_sync rf') as Hs'.
  { apply (exec_in_sync (SAppendEntries now r args) rf); [tauto|done|]. cbn. by rewrite Hrun. }
  split; [done|]. clear Hs Hs'. unfold AppendEntries in Hrun. rewrite AppendEntries_body_eq in Hrun.
  set (rf1 := adopt_leader (ae_Term args) (ae_LeaderId args) rf) in *.
  destruct (adopt_leader_state (ae_Term args) (ae_LeaderId args) rf) as (Ht & Hl & _). fold rf1 in Ht, Hl.
  pose proof (adopt_leader_log (ae_Term args) (ae_LeaderId args) rf) as Hlog. fold rf1 in Hlog.
  unfold log_part in Hlog. injection Hlog as HL Hc _ Hi _ _ _ _ _ _ _.
  assert (last_index rf1 = last_index rf) as Hlast by (unfold last_index; by rewrite HL, Hi).
  assert (forall i, entry_at rf1 i = entry_at rf i) as Hat by (intros; unfold entry_at; by rewrite HL, Hi).
  destruct (decide (accepts args rf)) as [Ha|Ha].
  - injection Hrun as <- <-. pose proof Ha as (Hge & Hp & _).
    set (rf2 := append_entries args rf1).
    assert (last_index rf2 = if len (Entries args) =? 0 then last_index rf
                             else PrevLogIndex args + len (Entries args)) as Hl2.
    { destruct (Z.eqb_spec (len (Entries args)) 0) as [He|He].
      - unfold rf2. rewrite append_entries_nil; [done|by apply len_zero].
      - unfold rf2. rewrite last_index_append; [done|rewrite Hlast, Hi; lia|]. by intros ?%len_zero. }
    split; [unfold advance_commit, rf2, append_entries; repeat case_cond; exact Ht|].
    split; [done|]. intros _. split_and!.
    + unfold advance_commit, rf2, append_entries. repeat case_cond; exact Hl.
    + intros i. transitivity (entry_at rf2 i); [unfold advance_commit; by case_cond|].
      destruct (Z.eqb_spec (len (Entries args)) 0) as [He|He]; cbn [orb].
      * unfold rf2. rewrite append_entries_nil; [done|by apply len_zero].
      * unfold rf2. rewrite entry_at_append, Hat; [done|rewrite Hlast, Hi; lia|]. by intros ?%len_zero.
    + rewrite <- Hl2. unfold advance_commit. by case_cond.
    + assert (commitIndex rf2 = commitIndex rf) as Hc2
        by (unfold rf2, append_entries; case_cond; done).
      unfold advance_commit. rewrite Hc2. by repeat case_cond.
  - assert (Success reply = false /\ currentTerm rf' = Z.max (currentTerm rf) (ae_Term args)) as [-> Hct].
    { destruct (decide (prev_at_snapshot args rf)); [done|].
      repeat case_cond; zbool; injection Hrun as <- <-; split; try done; cbn; try exact Ht; lia. }
    split; [done|]. split; [split; done|done].
Qed.

(** C19. [AppendEntries] panics exactly when [PrevLogIndex] is the last index of
    the peer's snapshot and the terms differ: the slice bound
    [PrevLogIndex - lastAppliedIndex - 1] is then -1. *)
Theorem AppendEntries_panics now r (args : AppendEntriesArgs Cmd) rf :
  AppendEntries now r args rf = Panic <->
  currentTerm rf <= ae_Term args /\ PrevLogIndex args = lastAppliedIndex rf /\
  PrevLogTerm args <> lastAppliedTerm rf.
Proof.
  unfold AppendEntries. rewrite AppendEntries_body_eq. fold (prev_at_snapshot args rf).
  destruct (decide (accepts args rf)) as [(_ & _ & Ha)|Ha].
  - split; [done|]. intros (_ & Hp & Hn). exfalso. rewrite Hp in Ha. unfold term_at in Ha.
    rewrite Z.eqb_refl in Ha. congruence.
  - destruct (decide (prev_at_snapshot args rf)); [by split|]. by repeat case_cond.
Qed.

(** C20. Replication end to end: what [appendRPCWorker] of a leader sends and a
    follower accepts makes the follower's log equal to the leader's from
    [nextIndex] up to the leader's last entry. *)
Theorem AppendEntries_replicates now r index term next (ldr fol fol' : Raft Cmd) args reply :
  go_index (nextIndex ldr) index = Ret next -> -1 <= lastAppliedIndex ldr ->
  lastAppliedIndex ldr < next <= last_index ldr ->
  appendRPCWorker_send index term ldr = Ret (Some args) ->
  AppendEntries now r args fol = Ret (fol', reply) -> Success reply = true ->
  last_index fol' = last_index ldr /\
  (forall i, next <= i -> entry_at fol' i = entry_at ldr i) /\
  (forall i, i < next -> entry_at fol' i = entry_at fol i) /\
  term_at fol (next - 1) = term_at ldr (next - 1).
Proof.
  intros Hn Hlow Hr Hsend Hrun Hok.
  assert (currentTerm ldr = term /\ leaderId ldr = me ldr) as [Hct Hld].
  { unfold appendRPCWorker_send in Hsend. rewrite Hn in Hsend. cbn [rbind] in Hsend.
    destruct (next - 1 <? lastAppliedIndex ldr); [done|].
    destruct (negb (currentTerm ldr =? term) || negb (leaderId ldr =? me ldr)) eqn:E; [done|]. zbool. done. }
  destruct (appendRPCWorker_send_eq index term next ldr) as (t & Ht & Hs); try done; [lia|].
  rewrite Hs in Hsend. injection Hsend as <-. unfold AppendEntries in Hrun. rewrite AppendEntries_body_eq in Hrun.
  set (args := mkAEArgs _ _ _ _ _ _) in *. set (fol1 := adopt_leader _ _ fol) in *.
  pose proof (adopt_leader_log (ae_Term args) (ae_LeaderId args) fol) as Hlog. fold fol1 in Hlog.
  unfold log_part in Hlog. injection Hlog as HL _ _ Hi _ _ _ _ _ _ _.
  destruct (decide (accepts args fol)) as [(Hge & Hp & Htf)|].
  2: { exfalso. revert Hrun. repeat case_match; try done; intros [= _ <-]; done. }
  injection Hrun as <- _. cbn in Hp, Htf.
  assert (Entries args <> []) as Hne.
  { unfold last_index, len in Hr. cbn. intros He%(f_equal length). rewrite length_drop in He. cbn in He. lia. }
  assert (last_index fol1 = last_index fol) as Hlast by (unfold last_index; by rewrite HL, Hi).
  assert (lastAppliedIndex fol1 <= PrevLogIndex args <= last_index fol1) as Hr1 by (rewrite Hlast, Hi; cbn; lia).
  split_and!.
  - transitivity (last_index (append_entries args fol1)); [unfold advance_commit; by case_cond|].
    rewrite last_index_append by done. unfold last_index, len in *. cbn. rewrite length_drop. lia.
  - intros i Hle. transitivity (entry_at (append_entries args fol1) i); [unfold advance_commit; by case_cond|].
    rewrite entry_at_append by done. cbn. destruct (Z.leb_spec i (next - 1)); [lia|].
    rewrite lookup_drop. unfold entry_at. destruct (Z.gtb_spec i (lastAppliedIndex ldr)); [|lia]. f_equal. lia.
  - intros i Hlt. transitivity (entry_at (append_entries args fol1) i); [unfold advance_commit; by case_cond|].
    rewrite entry_at_append by done. cbn. destruct (Z.leb_spec i (next - 1)); [|lia].
    unfold entry_at. by rewrite HL, Hi.
  - by rewrite Htf, Ht.
Qed.

(** C21. The sections of code under the mutex, those that only prepare a request
    or a round included, can panic on a well-formed peer in five situations
    only: [AppendEntries] when it rejects a request at the snapshot position
    ([AppendEntries_panics]), [findMaxN] when the commit index lies inside the
    snapshot, [doSnapshot] past the end of the log, [applyLogToRsm] when the
    commit index is past the end of the log, and [appendRPCWorker] of a leader
    whose [nextIndex] for the peer is past the end of its log.  In the last one
    it always does. *)
Theorem sections_panic_only s rf :
  peer_ok rf -> inputs_ok s rf ->
  (exec s rf = Panic ->
   match s with
   | SAppendEntries _ _ args => prev_at_snapshot args rf
   | SRoundFinish _ => commitIndex rf < lastAppliedIndex rf
   | SDoSnapshot index _ | SApply index => last_index rf < index
   | SSending (AppendSend index term) => next_past_end index term rf
   | _ => False
   end) /\
  (forall index term, s = SSending (AppendSend index term) -> next_past_end index term rf -> exec s rf = Panic).
Proof.
  intros Hok Hin. split.
  - intros Hp. pose proof (exec_panics s rf Hok Hin Hp) as H. by destruct s as [| | | | | | | | | | | | |[]].
  - intros index term -> Hnext. cbn [exec attempt]. by rewrite (proj2 (appendRPCWorker_send_panic index term rf Hok Hin)).
Qed.

(** Along any run of a peer the current term and the snapshot index never
    decrease, the identity never changes, and [nextIndex] and [matchIndex] keep
    one slot per peer. *)
Theorem peer_monotone ss rf rf' :
  peer_ok rf -> exec_all ss rf = Ret rf' ->
  currentTerm rf <= currentTerm rf' /\ lastAppliedIndex rf <= lastAppliedIndex rf' /\
  me rf' = me rf /\ npeers rf' = npeers rf /\
  len (nextIndex rf') = npeers rf /\ len (matchIndex rf') = npeers rf.
Proof.
  intros Hok Hrun. destruct (exec_all_effect ss rf rf' Hok Hrun) as [[_ _ Hn Hm] [Hme Hnp ? ? _ _]].
  rewrite Hnp in *. done.
Qed.

(** C23. Crash and restart: whatever sections other than [InstallSnapshot] ran
    since the image was last in sync, a peer made from the persister recovers
    term, vote, log and snapshot position, and starts as a follower whose
    commit and apply positions are those of the snapshot. *)
Theorem crash_restart ss rf rf' now r :
  in_sync rf -> Forall (fun s => ~ is_install s) ss -> exec_all ss rf = Ret rf' ->
  let rf2 := Make (npeers rf') (me rf') (persister rf') now r in
  durable rf2 = durable rf' /\ in_sync rf2 /\ leaderId rf2 = -1 /\
  commitIndex rf2 = lastAppliedIndex rf' /\ lastApplied rf2 = lastAppliedIndex rf' /\
  nextIndex rf2 = go_make (npeers rf') (last_index rf' + 1).
Proof.
  intros Hs HF Hrun. assert (in_sync rf') as Hs'.
  { apply (exec_all_ind in_sync (fun s => ~ is_install s) ss rf rf'); [|done..].
    intros s rf1 rf2 ? ? ?. by eapply exec_in_sync. }
  cbv zeta. destruct (Make_eq (npeers rf') (me rf') (persister rf') now r rf' Hs')
    as (? & ? & ? & ? & ? & ? & ? & ? & ? & ? & ? & ?).
  split_and!; try done. by eapply in_sync_Make.
Qed.

(** C24. [InstallSnapshot] replies before the snapshot is durable: when the
    snapshot is ahead of the log, the image on disk is not the peer's state
    until the [doSnapshot] goroutine that it starts has run; that goroutine
    does not panic and makes state and snapshot durable together. *)
Theorem InstallSnapshot_durability now r (args : InstallsnapshotArgs) rf :
  in_sync rf -> currentTerm rf <= is_Term args -> last_index rf < LastIncludedIndex args ->
  exists rf1 rf2, 
    InstallSnapshot now r args rf =
      Ret (rf1, mkISReply (currentTerm rf), Some (LastIncludedIndex args, is_Data args)) /\
    ~ in_sync rf1 /\
    doSnapshot (LastIncludedIndex args) (is_Data args) rf1 = Ret rf2 /\
    in_sync rf2 /\ snapshot (persister rf2) = is_Data args /\
    lastAppliedIndex rf2 = LastIncludedIndex args /\ lastAppliedTerm rf2 = LastIncludedTerm args /\
    lastApplied rf2 = LastIncludedIndex args /\ Log rf2 = [].
Proof.
  intros Hs Ht Hl. rewrite InstallSnapshot_eq. destruct (Z.ltb_spec (is_Term args) (currentTerm rf)); [lia|].
  set (rf0 := adopt_leader _ _ rf).
  pose proof (adopt_leader_log (is_Term args) (is_LeaderId args) rf) as Hlog. fold rf0 in Hlog.
  unfold log_part in Hlog. injection Hlog as HL _ _ Hi _ _ _ _ _ _ _.
  assert (last_index rf0 = last_index rf) as Hlast by (unfold last_index; by rewrite HL, Hi).
  unfold cover. destruct (Z.leb_spec (last_index rf0) (LastIncludedIndex args)); [|lia].
  set (rf1 := updateElectionTimeout _ _ _).
  destruct (doSnapshot_eq (LastIncludedIndex args) (is_Data args) rf1) as (t & Htt & Hrun).
  { unfold last_index. cbn. unfold len. cbn. lia. }
  unfold term_at in Htt. cbn in Htt. rewrite Z.eqb_refl in Htt. injection Htt as <-.
  eexists rf1, _. split_and!; [done| |exact Hrun| | | | | |]; try done.
  - assert (in_sync rf0) as Hs0 by by apply in_sync_adopt_leader. unfold in_sync in *. cbn. rewrite Hs0.
    intros He%encode_state_inj. apply (f_equal (fun d => d.1.2)) in He. cbn in He.
    rewrite Hi in He. unfold last_index in Hl. pose proof (len_nonneg (Log rf)). lia.
  - apply in_sync_snapshotted.
  - cbn. apply copied_id.
  - cbn. apply drop_nil.
Qed.

(** [doSnapshot] at an index of the log: the log loses exactly the entries
    up to the index, all later entries keep their absolute index, the term of
    the index is remembered, and state and snapshot reach the disk together;
    an index inside the old snapshot changes nothing, one past the end of the
    log panics. *)
Theorem doSnapshot_correct index (snap : bytes) rf :
  (index < lastAppliedIndex rf -> doSnapshot index snap rf = Ret rf) /\
  (last_index rf < index -> doSnapshot index snap rf = Panic) /\
  (lastAppliedIndex rf <= index <= last_index rf ->
   exists rf', doSnapshot index snap rf = Ret rf' /\ in_sync rf' /\
     snapshot (persister rf') = snap /\ lastAppliedIndex rf' = index /\
     term_at rf' index = term_at rf index /\
     (forall i, index < i -> entry_at rf' i = entry_at rf i) /\
     (forall i, i <= index -> entry_at rf' i = None) /\
     last_index rf' = last_index rf /\ lastApplied rf' = index).
Proof.
  split_and!.
  - apply doSnapshot_old.
  - intros. assert (doSnapshot index snap rf = Panic) as ->; [|done].
    apply doSnapshot_panic. done.
  - intros Hi. destruct (doSnapshot_eq index snap rf Hi) as (t & Ht & Hrun). eexists. split; [exact Hrun|].
    split_and!.
    + apply in_sync_snapshotted.
    + cbn. apply copied_id.
    + done.
    + rewrite Ht. unfold term_at. cbn. by rewrite Z.eqb_refl.
    + intros i Hlt. apply entry_at_snapshotted; lia.
    + intros i Hle. apply entry_at_out. cbn. lia.
    + by apply last_index_snapshotted.
    + done.
Qed.

(** [findMaxN] returns the largest index above the commit index whose
    entry is of the current term and counted on a majority, if there is one,
    and the commit index (or the end of a shorter log) otherwise; with two or
    more peers no entry of an older term is chosen. *)
Theorem findMaxN_correct rf :
  lastAppliedIndex rf <= commitIndex rf -> len (matchIndex rf) = npeers rf ->
  exists N, findMaxN rf = Ret N /\ N <= last_index rf /\
    (last_index rf <= commitIndex rf -> N = last_index rf) /\
    (commitIndex rf < last_index rf -> commitIndex rf <= N) /\
    (commitIndex rf < N -> quorum rf N) /\
    (forall M, commitIndex rf < M <= last_index rf -> N < M -> ~ quorum rf M) /\
    (commitIndex rf < N -> 2 <= npeers rf -> term_at rf N = Some (currentTerm rf)).
Proof.
  intros Hc Hm. unfold findMaxN. fold (last_index rf).
  destruct (Z.gtb_spec (last_index rf) (commitIndex rf)) as [Hgt|Hle].
  - destruct (findMaxN_loop_spec rf (Z.to_nat (last_index rf - commitIndex rf))) as (N & HN & Hr & Hq & Hmax);
      [done|done|lia|].
    exists N. split_and!; [done|lia|lia|lia|done| |].
    + intros M HM HNM. apply Hmax. lia.
    + intros HcN Hn2. specialize (Hq HcN). unfold quorum, copies, current_entry in Hq. unfold term_at.
      destruct (Z.eqb_spec N (lastAppliedIndex rf)); [lia|].
      assert (1 <= Z.quot (npeers rf) 2) by (rewrite Z.quot_div_nonneg by lia; apply Z.div_le_lower_bound; lia).
      destruct (entry_at rf N) as [e|]; [|lia]. destruct (Z.eqb_spec (Term e) (currentTerm rf)); [|lia].
      cbn. by f_equal.
  - exists (last_index rf). split_and!; try done; lia.
Qed.

(** C25. [applyLogToRsm] sends the committed entries after [lastApplied] up to
    [index], each once and in order, and nothing when a snapshot has
    overtaken [lastApplied]. *)
Theorem applyLogToRsm_correct index rf :
  index <= last_index rf ->
  applyLogToRsm index rf =
  Ret (if decide (lastApplied rf < commitIndex rf /\ lastApplied rf < index /\
                  lastAppliedIndex rf <= lastApplied rf)
       then set_lastApplied index (set_sender (sender rf ++
              apply_msgs rf (lastApplied rf + 1) (Z.to_nat (index - lastApplied rf))) rf)
       else rf).
Proof.
  intros Hl. unfold applyLogToRsm. destruct (Z.gtb_spec (commitIndex rf) (lastApplied rf)).
  2: { rewrite decide_False; [done|lia]. }
  destruct (decide (lastAppliedIndex rf <= lastApplied rf)).
  - destruct (decide (lastApplied rf < index)).
    + rewrite decide_True by lia. rewrite apply_loop_eq by lia. rewrite decide_False by lia. done.
    + rewrite decide_False by lia. by assert (Z.to_nat (index - lastApplied rf) = 0%nat) as -> by lia.
  - rewrite decide_False by lia. destruct (Z.to_nat (index - lastApplied rf)); cbn [apply_loop]; [done|].
    rewrite Z.geb_leb. destruct (Z.leb_spec 0 (lastApplied rf + 1 - lastAppliedIndex rf - 1)); [lia|].
    by rewrite andb_false_r.
Qed.

(** Whatever is sent on [rf.sender], what [ApplyMsgSender] forwards to the
    service is a sub-sequence without gaps or repetitions: each command
    follows the previous one, and a snapshot restarts the numbering after its
    index.  A stream that has no gaps is forwarded unchanged. *)
Theorem ApplyMsgSender_correct rf (sent : list (ApplyMsg Cmd)) :
  stream_ok (lastAppliedIndex rf + 1) (ApplyMsgSender rf sent) /\
  sublist (ApplyMsgSender rf sent) sent /\
  (stream_ok (lastAppliedIndex rf + 1) sent -> ApplyMsgSender rf sent = sent).
Proof.
  split_and!; [apply ApplyMsgSender_loop_ok|apply ApplyMsgSender_loop_sublist|apply ApplyMsgSender_loop_id].
Qed.

(** [Start] on a leader appends the command at the index it returns, with
    the term it returns, durably; on any other peer it changes nothing. *)
Theorem Start_correct (command : option Cmd) rf :
  exists rf' index, Start command rf = (rf', (index, currentTerm rf, leaderId rf =? me rf)) /\
    (leaderId rf <> me rf -> rf' = rf /\ index = -1) /\
    (leaderId rf = me rf -> in_sync rf' /\ index = last_index rf + 1 /\ last_index rf' = index /\
       entry_at rf' index = Some (mkLogEntry command (currentTerm rf)) /\
       (forall i, i <> index -> entry_at rf' i = entry_at rf i)).
Proof.
  unfold Start. destruct (Z.eqb_spec (leaderId rf) (me rf)) as [He|He].
  - eexists _, _. split; [done|]. split; [done|]. intros _. fold (last_index rf).
    pose proof (len_nonneg (Log rf)). unfold last_index, entry_at, len in *. cbn. rewrite length_app. cbn.
    split_and!; [apply in_sync_persist|done|lia| |].
    + destruct (Z.gtb_spec (Z.of_nat (length (Log rf)) + lastAppliedIndex rf + 1) (lastAppliedIndex rf)); [|lia].
      rewrite lookup_app_r by lia.
      by replace (_ - length (Log rf))%nat with 0%nat by lia.
    + intros i Hi. destruct (Z.gtb_spec i (lastAppliedIndex rf)); [|done].
      destruct (decide (Z.to_nat (i - lastAppliedIndex rf - 1) < length (Log rf))%nat).
      * by rewrite lookup_app_l.
      * rewrite !(proj2 (lookup_ge_None _ _)); [done|lia|]. rewrite length_app. cbn. lia.
  - eexists _, _. split; [done|]. split; [done|]. intros. done.
Qed.

End properties.

(** ** Concrete instances: three peers, commands are integers *)

Module Witness.

#[local] Instance Z_Gob : Gob (gval Z) := countable_Gob (gval Z).

(** A fresh peer 1 whose state has been saved. *)
Definition fresh : Raft Z := persist (Make 3 1 MakePersister 0 7).

Lemma fresh_in_sync : in_sync fresh.
Proof. apply in_sync_persist. Qed.

Lemma fresh_ok : peer_ok fresh.
Proof. split; [split; vm_compute; (discriminate || reflexivity)|vm_compute; discriminate|reflexivity|reflexivity]. Qed.

Definition one_entry : AppendEntriesArgs Z := mkAEArgs 1 0 0 0 [mkLogEntry (Some 5) 1] 1.

Lemma AppendEntries_correct_witness : exists rf' reply,
  AppendEntries 10 20 one_entry fresh = Ret (rf', reply) /\ Success reply = true /\
  in_sync rf' /\ last_index rf' = 1 /\ commitIndex rf' = 1.
Proof.
  destruct (AppendEntries 10 20 one_entry fresh) as [[rf' reply]|] eqn:E;
    [|vm_compute in E; discriminate E].
  exists rf', reply. split; [reflexivity|].
  destruct (AppendEntries_correct 10 20 one_entry fresh rf' reply fresh_in_sync E)
    as (Hs & _ & Ha & Hr).
  assert (Success reply = true) as Hok.
  { apply Ha. split_and!; vm_compute; (discriminate || reflexivity). }
  destruct (Hr Hok) as (_ & _ & Hl & Hc). rewrite Hl in Hc. split_and!; [exact Hok|exact Hs|exact Hl|exact Hc].
Defined.

(** Peer 0 of three peers, leader of term 1 after one [Start]. *)
Definition lead : Raft Z :=
  default fresh (match exec_all [SElectionBegin; SElectionFinish 0 0 2; SStart (Some 5)]
                        (Make 3 0 MakePersister 0 7) with Ret rf => Some rf | Panic => None end).

Definition lead_args : AppendEntriesArgs Z := mkAEArgs 1 0 0 0 [mkLogEntry (Some 5) 1] (-1).

Lemma AppendEntries_replicates_witness : exists rf' reply,
  AppendEntries 10 20 lead_args fresh = Ret (rf', reply) /\ last_index rf' = last_index lead /\
  entry_at rf' 1 = entry_at lead 1.
Proof.
  destruct (AppendEntries 10 20 lead_args fresh) as [[rf' reply]|] eqn:E;
    [|vm_compute in E; discriminate E].
  exists rf', reply. split; [reflexivity|].
  destruct (AppendEntries_replicates 10 20 1 1 1 lead fresh rf' lead_args reply) as (Hl & Hat & _).
  - vm_compute. reflexivity.
  - vm_compute. discriminate.
  - vm_compute. split; [reflexivity|discriminate].
  - vm_compute. reflexivity.
  - exact E.
  - vm_compute in E. injection E as _ <-. reflexivity.
  - split; [exact Hl|]. apply Hat. reflexivity.
Defined.

Lemma sections_panic_only_witness :
  prev_at_snapshot (mkAEArgs 1 0 (-1) 4 [] (-1)) fresh.
Proof.
  apply (proj1 (sections_panic_only (SAppendEntries 10 20 (mkAEArgs 1 0 (-1) 4 [] (-1))) fresh fresh_ok I)).
  vm_compute. reflexivity.
Defined.

(** A leader with a wrong [nextIndex]. *)
Example sender_panics : exec (SSending (AppendSend 1 0)) (set_nextIndex [100; 100; 100] (set_leaderId 1 fresh)) = Panic.
Proof. vm_compute. reflexivity. Qed.

Definition short_run : list section :=
  [SElectionBegin; SElectionFinish 0 0 2; SStart (Some 5); SDoSnapshot 0 []].

Lemma peer_monotone_witness : exists rf', exec_all short_run fresh = Ret rf' /\
  currentTerm fresh <= currentTerm rf' /\ lastAppliedIndex fresh <= lastAppliedIndex rf'.
Proof.
  destruct (exec_all short_run fresh) as [rf'|] eqn:E; [|vm_compute in E; discriminate E].
  exists rf'. split; [reflexivity|].
  destruct (peer_monotone short_run fresh rf' fresh_ok E) as (? & ? & _). split; assumption.
Defined.

Lemma crash_restart_witness : exists rf', exec_all short_run fresh = Ret rf' /\
  durable (Make (npeers rf') (me rf') (persister rf') 5 6) = durable rf'.
Proof.
  destruct (exec_all short_run fresh) as [rf'|] eqn:E; [|vm_compute in E; discriminate E].
  exists rf'. split; [reflexivity|].
  destruct (crash_restart short_run fresh rf' 5 6 fresh_in_sync) as (Hd & _).
  - repeat constructor; intros [].
  - exact E.
  - exact Hd.
Defined.

Lemma InstallSnapshot_durability_witness : exists rf1 rf2,
  InstallSnapshot 0 0 (mkISArgs 1 2 7 1 [Byte.x01]) fresh = Ret (rf1, mkISReply 0, Some (7, [Byte.x01])) /\
  ~ in_sync rf1 /\ doSnapshot 7 [Byte.x01] rf1 = Ret rf2 /\ in_sync rf2.
Proof.
  destruct (InstallSnapshot_durability 0 0 (mkISArgs 1 2 7 1 [Byte.x01]) fresh fresh_in_sync)
    as (rf1 & rf2 & H1 & H2 & H3 & H4 & _).
  - vm_compute. discriminate.
  - vm_compute. reflexivity.
  - exists rf1, rf2. split_and!; [exact H1|exact H2|exact H3|exact H4].
Defined.

(** The leader after peer 2 has acknowledged entry 1. *)
Definition lead_acked : Raft Z := set_matchIndex [0; 0; 1] lead.

Lemma findMaxN_correct_witness : exists N, findMaxN lead_acked = Ret N /\
  (commitIndex lead_acked < N -> quorum lead_acked N).
Proof.
  destruct (findMaxN_correct lead_acked) as (N & HN & _ & _ & _ & Hq & _).
  - vm_compute. discriminate.
  - vm_compute. reflexivity.
  - exists N. split; [exact HN|exact Hq].
Defined.

Lemma applyLogToRsm_correct_witness :
  applyLogToRsm 0 (set_commitIndex 0 fresh) =
  Ret (if decide (lastApplied fresh < 0 /\ lastApplied fresh < 0 /\ lastAppliedIndex fresh <= lastApplied fresh)
       then set_lastApplied 0 (set_sender (sender fresh ++
              apply_msgs (set_commitIndex 0 fresh) (lastApplied fresh + 1) (Z.to_nat (0 - lastApplied fresh)))
              (set_commitIndex 0 fresh))
       else set_commitIndex 0 fresh).
Proof. apply (applyLogToRsm_correct 0 (set_commitIndex 0 fresh)). vm_compute. discriminate. Defined.

End Witness.
End RaftSpec.
