(* ===== verification/Cluster.v ===== *)
(** A cluster of Raft peers: the elections and the replication rounds of
    raft/raft.go with their messages.

    A state holds the peers, the election or the round that each peer's ticker
    is blocked in, every request and reply ever sent, and three history
    variables: the candidate that first got a peer's vote of a term, the votes
    that a candidate counted, and the candidates that found a majority.
    Messages are never removed, so a request may be lost, delayed, reordered or
    handled more than once; a reply only reaches the call that made the
    request.  [InstallSnapshotSender] keeps its peer's mutex during the RPC;
    here other sections of the peer may run meanwhile.

    What the code reads without the lock before a section may be out of date in
    the section: the test of [ticker] before [startElection] and the commit
    index that [applier] passes to [applyLogToRsm].  Only the test of [leaderId]
    before [sendAERpcs] is one step with the beginning of the round; the workers
    of a round test it again. *)
From S2P Require Import Prelude Labgob Persister RaftState Raft RaftSteps.
Import Labgob Persist RaftState RaftNode RaftSteps.
Local Open Scope Z_scope.

Module Cluster.

(** The local variables of [startElection] and its [electionSender]s:
    [waiting] have not sent their request yet, [pending] wait for the reply. *)
Record Election := mkElection {
  el_term : Z;
  finished : Z;
  voteCount : Z;
  waiting : gset Z;
  pending : gset Z;
}.

(** The local variables of [sendAERpcs] and its workers: the peers of the
    [appendRPCWorker]s and of the [InstallSnapshotSender]s that have not sent
    yet, and the requests that the others wait for. *)
Record Round := mkRound {
  rd_term : Z;
  rd_finished : Z;
  rd_count : Z;
  rd_append : gset Z;
  rd_snap : gset Z;
  rd_append_wait : gmap Z nat;
  rd_snap_wait : gmap Z nat;
}.

(** The rounds in progress, and the replies by the number of their request. *)
Record replication := mkRepl {
  rounds : gmap Z Round;
  aers : list (nat * AppendEntriesReply);
  isrs : list (nat * InstallsnapshotReply);
}.

Record cluster {Cmd : Type} := mkCluster {
  nodes : gmap Z (Raft Cmd);
  elections : gmap Z Election;
  reqs : list (Z * RequestVoteArgs);
  reps : list (Z * RequestVoteArgs * RequestVoteReply);
  aes : list (Z * AppendEntriesArgs Cmd);
  iss : list (Z * InstallsnapshotArgs);
  ballots : gmap (Z * Z) Z;
  tally : gmap (Z * Z) (gset Z);
  won : list (Z * Z);
  repl : replication;
}.
Arguments cluster : clear implicits.
Arguments mkCluster {Cmd}.

Section cluster.
Context {Cmd : Type} `{!Gob (gval Cmd)}.
Implicit Types (rf : Raft Cmd) (s : cluster Cmd).

Definition with_node (i : Z) rf s : cluster Cmd :=
  mkCluster (<[i := rf]> (nodes s)) (elections s) (reqs s) (reps s) (aes s) (iss s)
    (ballots s) (tally s) (won s) (repl s).

Definition with_elections (es : gmap Z Election) s : cluster Cmd :=
  mkCluster (nodes s) es (reqs s) (reps s) (aes s) (iss s) (ballots s) (tally s) (won s) (repl s).

Definition with_repl (r : replication) s : cluster Cmd :=
  mkCluster (nodes s) (elections s) (reqs s) (reps s) (aes s) (iss s) (ballots s) (tally s) (won s) r.

Definition with_rounds (rds : gmap Z Round) s : cluster Cmd :=
  with_repl (mkRepl rds (aers (repl s)) (isrs (repl s))) s.

Definition set_round (i : Z) (rd : Round) s : cluster Cmd := with_rounds (<[i := rd]> (rounds (repl s))) s.

(** Sections that the service calls, or that [Snapshot] and [InstallSnapshot]
    start. *)
Definition is_local (x : section (Cmd := Cmd)) : bool :=
  match x with
  | SDoSnapshot _ _ | SStart _ | SKill => true
  | _ => false
  end.

(** What may happen.  Times and random numbers are part of the event. *)
Inductive event :=
| EStart (i now : Z) (late : bool)     (* the ticker of [i] starts an election *)
| ESend (i j : Z)                      (* [electionSender] of [i] for [j] sends *)
| EVote (k : nat) (now r : Z)          (* the [k]-th vote request is handled *)
| ERecv (i j : Z) (k : option nat)     (* ... gets the [k]-th reply, or none in time *)
| EFinish (i now r : Z)                (* the wait of [startElection] of [i] ends *)
| ERound (i now : Z)                   (* the ticker of the leader [i] starts a round *)
| EAppendSend (i j : Z)                (* [appendRPCWorker] of [i] for [j] sends *)
| EAppend (k : nat) (now r : Z)        (* the [k]-th append request is handled *)
| EAppendRecv (i j : Z) (r : option nat) (* ... gets the [r]-th reply, or none in time *)
| ESnapSend (i j : Z)
| EInstall (k : nat) (now r : Z)
| ESnapRecv (i j : Z) (r : option nat)
| ERoundFinish (i : Z)                 (* the wait of [sendAERpcs] of [i] ends *)
| EApply (i : Z) (behind : nat)        (* the applier of [i] *)
| ELocal (i : Z) (x : section (Cmd := Cmd))
| ECrash (i now r : Z).                (* a new instance from the persister *)

(** [ticker] tests [leaderId] and the timeout without the lock that
    [startElection] takes afterwards: a [late] start is one whose test was made
    in an earlier state of the peer and need not hold any more. *)
Definition start (i now : Z) (late : bool) s : option (cluster Cmd) :=
  match nodes s !! i, elections s !! i, rounds (repl s) !! i with
  | Some rf, None, None =>
      match (if late then StartElection else ticker now rf) with
      | StartElection =>
          let '(rf', term, ps) := startElection_begin rf in
          Some (mkCluster (<[i := rf']> (nodes s))
                  (<[i := mkElection term 0 1 (list_to_set ps) ∅]> (elections s))
                  (reqs s) (reps s) (aes s) (iss s)
                  (<[(i, term) := i]> (ballots s)) (<[(term, i) := {[i]}]> (tally s)) (won s) (repl s))
      | _ => None
      end
  | _, _, _ => None
  end.

Definition send (i j : Z) s : option (cluster Cmd) :=
  match nodes s !! i, elections s !! i with
  | Some rf, Some el =>
      if decide (j ∈ waiting el) then
        match electionSender_send (el_term el) rf with
        | Ret (Some args) =>
            Some (mkCluster (nodes s)
                    (<[i := mkElection (el_term el) (finished el) (voteCount el)
                              (waiting el ∖ {[j]}) (pending el ∪ {[j]})]> (elections s))
                    (reqs s ++ [(j, args)]) (reps s) (aes s) (iss s) (ballots s) (tally s) (won s) (repl s))
        | Ret None =>
            Some (with_elections (<[i := mkElection (el_term el) (finished el + 1) (voteCount el)
                                           (waiting el ∖ {[j]}) (pending el)]> (elections s)) s)
        | Panic => None
        end
      else None
  | _, _ => None
  end.

Definition vote (k : nat) (now r : Z) s : option (cluster Cmd) :=
  match reqs s !! k with
  | Some (j, args) =>
      match nodes s !! j with
      | Some rf =>
          match RequestVote now r args rf with
          | Ret (rf', reply) =>
              let ballot := (j, rv_Term args) in
              Some (mkCluster (<[j := rf']> (nodes s)) (elections s) (reqs s)
                      (reps s ++ [(j, args, reply)]) (aes s) (iss s)
                      (if VoteGranted reply
                       then <[ballot := default (CandidateId args) (ballots s !! ballot)]> (ballots s)
                       else ballots s)
                      (tally s) (won s) (repl s))
          | Panic => None
          end
      | None => None
      end
  | None => None
  end.

(** The reply that the sender of [i] to [j] gets: one that [j] gave to a
    request of this election. *)
Definition reply_for (i j term : Z) (k : option nat) s : option (bool * RequestVoteReply) :=
  match k with
  | None => Some (false, mkRVReply 0 false)
  | Some k =>
      match reps s !! k with
      | Some (j', args, reply) =>
          if decide (j' = j /\ rv_Term args = term /\ CandidateId args = i)
          then Some (true, reply) else None
      | None => None
      end
  end.

Definition recv (i j : Z) (k : option nat) s : option (cluster Cmd) :=
  match nodes s !! i, elections s !! i with
  | Some rf, Some el =>
      match decide (j ∈ pending el), reply_for i j (el_term el) k s with
      | left _, Some (ok, reply) =>
          let '(rf', votes) := electionSender_recv (el_term el) ok reply (voteCount el) rf in
          let key := (el_term el, i) in
          Some (mkCluster (<[i := rf']> (nodes s))
                  (<[i := mkElection (el_term el) (finished el + 1) votes
                            (waiting el) (pending el ∖ {[j]})]> (elections s))
                  (reqs s) (reps s) (aes s) (iss s) (ballots s)
                  (if votes =? voteCount el then tally s
                   else <[key := default ∅ (tally s !! key) ∪ {[j]}]> (tally s))
                  (won s) (repl s))
      | _, _ => None
      end
  | _, _ => None
  end.

Definition finish (i now r : Z) s : option (cluster Cmd) :=
  match nodes s !! i, elections s !! i with
  | Some rf, Some el =>
      if all_finished rf (finished el) then
        Some (mkCluster (<[i := startElection_finish now r (voteCount el) rf]> (nodes s))
                (delete i (elections s)) (reqs s) (reps s) (aes s) (iss s) (ballots s) (tally s)
                (if voteCount el >? Z.quot (npeers rf) 2 then won s ++ [(el_term el, i)] else won s) (repl s))
      else None
  | _, _ => None
  end.

(** The peers of the RPCs of one kind. *)
Definition rpc_peers (snapshot : bool) (rpcs : list (Z * bool)) : gset Z :=
  list_to_set (filter (fun x => x.2 = snapshot) rpcs).*1.

Definition round (i now : Z) s : option (cluster Cmd) :=
  match nodes s !! i, elections s !! i, rounds (repl s) !! i with
  | Some rf, None, None =>
      match ticker now rf, sendAERpcs_begin rf with
      | SendAERpcs, Ret (term, rpcs) =>
          Some (set_round i (mkRound term 0 1 (rpc_peers false rpcs) (rpc_peers true rpcs) ∅ ∅) s)
      | _, _ => None
      end
  | _, _, _ => None
  end.

Definition append_send (i j : Z) s : option (cluster Cmd) :=
  match nodes s !! i, rounds (repl s) !! i with
  | Some rf, Some rd =>
      match decide (j ∈ rd_append rd), appendRPCWorker_send j (rd_term rd) rf with
      | left _, Ret (Some args) =>
          Some (set_round i (mkRound (rd_term rd) (rd_finished rd) (rd_count rd) (rd_append rd ∖ {[j]}) (rd_snap rd)
                               (<[j := length (aes s)]> (rd_append_wait rd)) (rd_snap_wait rd))
                  (mkCluster (nodes s) (elections s) (reqs s) (reps s) (aes s ++ [(j, args)]) (iss s)
                     (ballots s) (tally s) (won s) (repl s)))
      | left _, Ret None =>
          Some (set_round i (mkRound (rd_term rd) (rd_finished rd + 1) (rd_count rd) (rd_append rd ∖ {[j]}) (rd_snap rd)
                               (rd_append_wait rd) (rd_snap_wait rd)) s)
      | _, _ => None
      end
  | _, _ => None
  end.

Definition append (k : nat) (now r : Z) s : option (cluster Cmd) :=
  match aes s !! k with
  | Some (j, args) =>
      match nodes s !! j with
      | Some rf =>
          match AppendEntries now r args rf with
          | Ret (rf', reply) =>
              Some (with_repl (mkRepl (rounds (repl s)) (aers (repl s) ++ [(k, reply)]) (isrs (repl s)))
                      (with_node j rf' s))
          | Panic => None
          end
      | None => None
      end
  | None => None
  end.

(** What a call that made the [k]-th request returns: the [r]-th reply, if it
    answers that request, or [false]. *)
Definition answer {A} (none : A) (replies : list (nat * A)) (k : nat) (r : option nat) : option (bool * A) :=
  match r with
  | None => Some (false, none)
  | Some r => match replies !! r with
              | Some (k', reply) => if decide (k' = k) then Some (true, reply) else None
              | None => None
              end
  end.

Definition append_recv (i j : Z) (r : option nat) s : option (cluster Cmd) :=
  match nodes s !! i, rounds (repl s) !! i with
  | Some rf, Some rd =>
      match rd_append_wait rd !! j with
      | Some k =>
          match aes s !! k, answer (mkAEReply 0 false) (aers (repl s)) k r with
          | Some (_, args), Some (ok, reply) =>
              match appendRPCWorker_recv j (rd_term rd) args ok reply (rd_count rd) rf with
              | Ret (rf', count) =>
                  Some (set_round i (mkRound (rd_term rd) (rd_finished rd + 1) count (rd_append rd) (rd_snap rd)
                                       (delete j (rd_append_wait rd)) (rd_snap_wait rd)) (with_node i rf' s))
              | Panic => None
              end
          | _, _ => None
          end
      | None => None
      end
  | _, _ => None
  end.

Definition snap_send (i j : Z) s : option (cluster Cmd) :=
  match nodes s !! i, rounds (repl s) !! i with
  | Some rf, Some rd =>
      if decide (j ∈ rd_snap rd) then
        match InstallSnapshotSender_send (rd_term rd) rf with
        | Some args =>
            Some (set_round i (mkRound (rd_term rd) (rd_finished rd) (rd_count rd) (rd_append rd) (rd_snap rd ∖ {[j]})
                                 (rd_append_wait rd) (<[j := length (iss s)]> (rd_snap_wait rd)))
                    (mkCluster (nodes s) (elections s) (reqs s) (reps s) (aes s) (iss s ++ [(j, args)])
                       (ballots s) (tally s) (won s) (repl s)))
        | None =>
            Some (set_round i (mkRound (rd_term rd) (rd_finished rd + 1) (rd_count rd) (rd_append rd)
                                 (rd_snap rd ∖ {[j]}) (rd_append_wait rd) (rd_snap_wait rd)) s)
        end
      else None
  | _, _ => None
  end.

Definition install (k : nat) (now r : Z) s : option (cluster Cmd) :=
  match iss s !! k with
  | Some (j, args) =>
      match nodes s !! j with
      | Some rf =>
          match InstallSnapshot now r args rf with
          | Ret (rf', reply, _) =>
              Some (with_repl (mkRepl (rounds (repl s)) (aers (repl s)) (isrs (repl s) ++ [(k, reply)]))
                      (with_node j rf' s))
          | Panic => None
          end
      | None => None
      end
  | None => None
  end.

Definition snap_recv (i j : Z) (r : option nat) s : option (cluster Cmd) :=
  match nodes s !! i, rounds (repl s) !! i with
  | Some rf, Some rd =>
      match rd_snap_wait rd !! j with
      | Some k =>
          match answer (mkISReply 0) (isrs (repl s)) k r with
          | Some (ok, reply) =>
              match InstallSnapshotSender_recv j ok reply rf with
              | Ret rf' =>
                  Some (set_round i (mkRound (rd_term rd) (rd_finished rd + 1) (rd_count rd) (rd_append rd) (rd_snap rd)
                                       (rd_append_wait rd) (delete j (rd_snap_wait rd))) (with_node i rf' s))
              | Panic => None
              end
          | None => None
          end
      | None => None
      end
  | _, _ => None
  end.

Definition round_finish (i : Z) s : option (cluster Cmd) :=
  match nodes s !! i, rounds (repl s) !! i with
  | Some rf, Some rd =>
      if all_finished rf (rd_finished rd) then
        match sendAERpcs_finish (rd_count rd) rf with
        | Ret rf' => Some (with_rounds (delete i (rounds (repl s))) (with_node i rf' s))
        | Panic => None
        end
      else None
  | _, _ => None
  end.

(** [applier] reads the commit index without the lock and then calls
    [applyLogToRsm]: by then the index may have grown by [behind]. *)
Definition apply_committed (i : Z) (behind : nat) s : option (cluster Cmd) :=
  match nodes s !! i with
  | Some rf => match applyLogToRsm (commitIndex rf - Z.of_nat behind) rf with
               | Ret rf' => Some (with_node i rf' s)
               | Panic => None
               end
  | None => None
  end.

Definition local (i : Z) (x : section) s : option (cluster Cmd) :=
  match nodes s !! i with
  | Some rf =>
      if is_local x then
        match exec x rf with Ret rf' => Some (with_node i rf' s) | Panic => None end
      else None
  | None => None
  end.

Definition crash (i now r : Z) s : option (cluster Cmd) :=
  match nodes s !! i with
  | Some rf =>
      Some (with_rounds (delete i (rounds (repl s))) (with_elections (delete i (elections s))
              (with_node i (Make (npeers rf) (me rf) (Copy (persister rf)) now r) s)))
  | None => None
  end.

Definition step (e : event) s : option (cluster Cmd) :=
  match e with
  | EStart i now late => start i now late s
  | ESend i j => send i j s
  | EVote k now r => vote k now r s
  | ERecv i j k => recv i j k s
  | EFinish i now r => finish i now r s
  | ERound i now => round i now s
  | EAppendSend i j => append_send i j s
  | EAppend k now r => append k now r s
  | EAppendRecv i j r => append_recv i j r s
  | ESnapSend i j => snap_send i j s
  | EInstall k now r => install k now r s
  | ESnapRecv i j r => snap_recv i j r s
  | ERoundFinish i => round_finish i s
  | EApply i behind => apply_committed i behind s
  | ELocal i x => local i x s
  | ECrash i now r => crash i now r s
  end.

Fixpoint steps (es : list event) s : option (cluster Cmd) :=
  match es with
  | [] => Some s
  | e :: es => match step e s with Some s' => steps es s' | None => None end
  end.

(** [n] peers made from empty persisters. *)
Definition init (n : nat) : cluster Cmd :=
  mkCluster
    (list_to_map ((fun i => (i, Make (Z.of_nat n) i MakePersister 0 0)) <$> (Z.of_nat <$> seq 0 n)))
    ∅ [] [] [] [] ∅ ∅ [] (mkRepl ∅ [] []).

Definition reachable (n : nat) s : Prop := exists es, steps es (init n) = Some s.

Definition is_leader s (i term : Z) : Prop :=
  exists rf, nodes s !! i = Some rf /\ GetState rf = (term, true).

End cluster.
End Cluster.
