(* ===== verification/ClusterProofs.v ===== *)
(** The invariant of elections: votes counted in one term agree. *)
From S2P Require Import Prelude Labgob Persister RaftState Raft RaftLemmas.
From S2P Require Import RaftElection RaftLog RaftSnapshot RaftSteps Cluster.
Import Labgob Persist RaftState RaftNode RaftOk RaftElection RaftLog RaftSnapshot RaftSteps Cluster.
Local Open Scope Z_scope.

Module ClusterOk.
Section proofs.
Context {Cmd : Type} `{!Gob (gval Cmd)}.
Implicit Types (rf : Raft Cmd) (s : cluster Cmd).

(** ** Term and vote on disk *)

(** The image on disk holds the current term and vote, or the peer is new. *)
Definition vote_sync rf : Prop :=
  (raftstate (persister rf) = [] /\ currentTerm rf = 0 /\ voteFor rf = -1) \/
  exists rf0, raftstate (persister rf) = encode_state rf0 /\
    currentTerm rf0 = currentTerm rf /\ voteFor rf0 = voteFor rf.

Lemma vote_sync_same rf rf' :
  currentTerm rf' = currentTerm rf -> voteFor rf' = voteFor rf -> persister rf' = persister rf ->
  vote_sync rf -> vote_sync rf'.
Proof. unfold vote_sync. by intros -> -> ->. Qed.

Lemma in_sync_vote_sync rf : in_sync rf -> vote_sync rf.
Proof. right. by exists rf. Qed.

Lemma vote_sync_Make n i now r rf :
  vote_sync rf -> let rf' := Make n i (Copy (persister rf)) now r in
  vote_sync rf' /\ currentTerm rf' = currentTerm rf /\ voteFor rf' = voteFor rf /\ leaderId rf' = -1 /\
  me rf' = i /\ npeers rf' = n.
Proof.
  cbv zeta. intros [(Hp & Ht & Hv)|(rf0 & Hp & <- & <-)].
  - unfold Make, ReadRaftState. cbn. rewrite copied_id, Hp, Ht, Hv. cbn. split_and!; try done. by left.
  - destruct (Make_eq n i (Copy (persister rf)) now r rf0 Hp)
      as (Hd & Hps & Hn & Hm & _ & Hl & _).
    pose proof (f_equal (fun d => d.1.1.1.1) Hd) as Ht. pose proof (f_equal (fun d => d.1.1.1.2) Hd) as Hv.
    unfold durable in Ht, Hv. unfold fst, snd in Ht, Hv.
    split_and!; try done. right. exists rf0. by rewrite Hps.
Qed.

(** ** What the sections do to term, vote and leader *)

(** A section other than an election step: the vote of a term is never
    changed without moving to a later term, and the peer does not become
    leader. *)
Record quiet rf rf' : Prop := {
  q_me : me rf' = me rf;
  q_npeers : npeers rf' = npeers rf;
  q_term : currentTerm rf <= currentTerm rf';
  q_vote : currentTerm rf' = currentTerm rf -> voteFor rf' = voteFor rf;
  q_leader : leaderId rf' = leaderId rf \/ leaderId rf' = -1;
  q_sync : vote_sync rf -> vote_sync rf';
}.

Lemma quiet_refl rf : quiet rf rf.
Proof. split; auto; lia. Qed.

Lemma quiet_trans rf1 rf2 rf3 : quiet rf1 rf2 -> quiet rf2 rf3 -> quiet rf1 rf3.
Proof.
  intros [? ? ? Hv1 Hl1 ?] [? ? ? Hv2 Hl2 ?]. split; try congruence; try lia; auto.
Qed.

(** Only bookkeeping fields change. *)
Lemma quiet_same rf rf' :
  me rf' = me rf -> npeers rf' = npeers rf -> currentTerm rf' = currentTerm rf ->
  voteFor rf' = voteFor rf -> leaderId rf' = leaderId rf -> persister rf' = persister rf -> quiet rf rf'.
Proof. intros ? ? Ht ? ? ?. split; auto; [lia|]. by apply vote_sync_same. Qed.

(** The state has just been saved. *)
Lemma quiet_saved rf rf' :
  me rf' = me rf -> npeers rf' = npeers rf -> currentTerm rf <= currentTerm rf' ->
  (currentTerm rf' = currentTerm rf -> voteFor rf' = voteFor rf) ->
  leaderId rf' = leaderId rf \/ leaderId rf' = -1 -> in_sync rf' -> quiet rf rf'.
Proof. intros. split; auto. intros _. by apply in_sync_vote_sync. Qed.

Lemma quiet_go_on rf rf' : 
  me rf' = me rf -> npeers rf' = npeers rf -> currentTerm rf' = currentTerm rf ->
  voteFor rf' = voteFor rf -> leaderId rf' = leaderId rf -> in_sync rf' -> quiet rf rf'.
Proof. intros ? ? Ht ? ? ?. apply quiet_saved; auto; lia. Qed.

Lemma apply_loop_quiet k index i rf rf' : apply_loop k index i rf = Ret rf' -> quiet rf rf'.
Proof.
  revert i rf. induction k as [|k IH]; intros i rf; cbn [apply_loop].
  { intros [= <-]. apply quiet_refl. }
  case_cond; [|intros [= <-]; apply quiet_refl].
  intros (e & _ & Hrun)%rbind_ret. eapply quiet_trans; [|by apply (IH _ _ Hrun)]. by apply quiet_same.
Qed.

(** Sections that are not part of an election and do not handle a request. *)
Definition is_quiet (x : section (Cmd := Cmd)) : bool :=
  match x with
  | SAppendRecv _ _ _ _ _ _ | SRoundFinish _ | SSnapshotRecv _ _ _ | SApply _ => true
  | _ => is_local x
  end.

Lemma section_quiet x rf rf' : is_quiet x = true -> exec x rf = Ret rf' -> quiet rf rf'.
Proof.
  destruct x; try done; intros _; cbn [exec].
  - intros ([rf1 n] & Hrun & [= <-])%rbind_ret. cbn. revert Hrun. unfold appendRPCWorker_recv.
    do 2 (case_cond; [intros [= <- _]; apply quiet_refl|]).
    case_cond; [intros [= <- _]; zbool; apply quiet_saved; cbn; auto; try lia; apply in_sync_updateVoteFor|].
    intros (next & _ & Hrun)%rbind_ret. case_cond.
    + apply rbind_ret in Hrun as (nexts & _ & Hrun).
      apply rbind_ret in Hrun as (nx & _ & Hrun). apply rbind_ret in Hrun as (ms & _ & [= <- _]).
      by apply quiet_same.
    + apply rbind_ret in Hrun as (nexts & _ & [= <- _]). by apply quiet_same.
  - unfold sendAERpcs_finish. case_cond; [|intros [= <-]; apply quiet_refl].
    intros (N & _ & [= <-])%rbind_ret. case_cond; [by apply quiet_same|apply quiet_refl].
  - unfold InstallSnapshotSender_recv. case_cond; [intros [= <-]; apply quiet_refl|]. case_cond.
    + intros [= <-]; zbool; apply quiet_saved; cbn; auto; try lia.
      apply in_sync_same with (updateVoteFor (-1) (updateCurrentTerm (isr_Term reply) rf)); auto with raft.
    + intros (nexts & _ & Hrun)%rbind_ret. apply rbind_ret in Hrun as (nx & _ & Hrun).
      apply rbind_ret in Hrun as (ms & _ & [= <-]). by apply quiet_same.
  - intros Hrun. destruct (decide (index < lastAppliedIndex rf)).
    { rewrite doSnapshot_old in Hrun by done. injection Hrun as <-. apply quiet_refl. }
    destruct (decide (index <= last_index rf)).
    + destruct (doSnapshot_eq index snap rf) as (t & _ & Heq); [lia|]. rewrite Heq in Hrun.
      injection Hrun as <-. apply quiet_go_on; try done. apply in_sync_snapshotted.
    + assert (doSnapshot index snap rf = Panic) as Hpan by (apply doSnapshot_panic; lia). congruence.
  - intros [= <-]. unfold Start. case_cond; [apply quiet_go_on; try done; apply in_sync_persist|apply quiet_refl].
  - unfold applyLogToRsm. case_cond; [apply apply_loop_quiet|intros [= <-]; apply quiet_refl].
  - intros [= <-]. by apply quiet_same.
Qed.

(** A request of a leader: the peer takes over term and leader of the request
    as its own, or ignores it. *)
Record follows (t l : Z) rf rf' : Prop := {
  f_me : me rf' = me rf;
  f_npeers : npeers rf' = npeers rf;
  f_sync : vote_sync rf -> vote_sync rf';
  f_case : (currentTerm rf' = currentTerm rf /\ voteFor rf' = voteFor rf /\ leaderId rf' = leaderId rf) \/
           (currentTerm rf <= t /\ currentTerm rf' = t /\ voteFor rf' = l /\ leaderId rf' = l);
}.

Lemma follows_adopt t l rf rf' :
  currentTerm rf <= t -> let rf1 := adopt_leader t l rf in
  me rf' = me rf1 -> npeers rf' = npeers rf1 -> currentTerm rf' = currentTerm rf1 ->
  voteFor rf' = voteFor rf1 -> leaderId rf' = leaderId rf1 ->
  (persister rf' = persister rf1 \/ in_sync rf') -> follows t l rf rf'.
Proof.
  intros Hle rf1 Hm Hn Ht Hv Hl Hp.
  pose proof (adopt_leader_log t l rf) as Hlog. fold rf1 in Hlog. unfold log_part in Hlog.
  injection Hlog as _ _ _ _ _ _ _ Hn1 Hm1 _ _.
  destruct (adopt_leader_state t l rf) as (Ht1 & Hl1 & Hv1 & _). fold rf1 in Ht1, Hl1, Hv1.
  split; [congruence|congruence| |right; split_and!; congruence || lia].
  intros Hs. destruct Hp as [Hp|?]; [|by apply in_sync_vote_sync].
  apply vote_sync_same with rf1; try done. subst rf1. unfold adopt_leader.
  repeat case_cond; try (by apply in_sync_vote_sync, in_sync_persist); try (by apply vote_sync_same with rf).
Qed.

Lemma AppendEntries_follows now r (args : AppendEntriesArgs Cmd) rf rf' reply :
  AppendEntries now r args rf = Ret (rf', reply) -> follows (ae_Term args) (ae_LeaderId args) rf rf'.
Proof.
  unfold AppendEntries. intros ([rf1 reply1] & Hrun & [= <- _])%rbind_ret.
  revert Hrun. rewrite AppendEntries_body_eq.
  destruct (decide (accepts args rf)) as [[Hle _]|]; [|case_decide; [done|]].
  - intros [= <- _]. apply follows_adopt; [done|..]; unfold advance_commit, append_entries;
      repeat case_cond; try done; first [by left | right; by apply in_sync_persist
        | right; eapply in_sync_same; [| |apply in_sync_persist]; done].
  - destruct (Z.ltb_spec (ae_Term args) (currentTerm rf)) as [|Hle].
    { intros [= <- _]. split; try done; first [by apply vote_sync_same | by left]. }
    case_cond; intros [= <- _]; (apply follows_adopt; try done);
      first [by left | right; by apply in_sync_persist].
Qed.

Lemma InstallSnapshot_follows now r (args : InstallsnapshotArgs) rf rf' reply g :
  InstallSnapshot now r args rf = Ret (rf', reply, g) -> follows (is_Term args) (is_LeaderId args) rf rf'.
Proof.
  rewrite InstallSnapshot_eq. destruct (Z.ltb_spec (is_Term args) (currentTerm rf)) as [|Hle]; intros [= <- _ _].
  - split; try done; first [by apply vote_sync_same | by left].
  - apply follows_adopt; [done|..]; unfold cover; repeat case_cond; first [done | by left].
Qed.

(** ** The invariant *)

Context (n : nat).

(** The peer [l] will not count another vote of term [T]. *)
Definition over s (l T : Z) : Prop :=
  exists rf, nodes s !! l = Some rf /\ T <= currentTerm rf /\
    forall el, elections s !! l = Some el -> el_term el <> T.

Definition is_peer (i : Z) : Prop := 0 <= i < Z.of_nat n.

Definition election_ok s (i : Z) (el : Election) : Prop :=
  exists rf S, nodes s !! i = Some rf /\ el_term el <= currentTerm rf /\ leaderId rf <> i /\
    tally s !! (el_term el, i) = Some S /\ voteCount el = Z.of_nat (size S) /\
    (forall j, j ∈ waiting el ∪ pending el -> j ∉ S /\ is_peer j) /\ waiting el ## pending el.

Record inv s : Prop := {
  inv_node : forall i rf, nodes s !! i = Some rf ->
    me rf = i /\ npeers rf = Z.of_nat n /\ is_peer i /\ vote_sync rf;
  inv_elect : forall i el, elections s !! i = Some el -> election_ok s i el;
  inv_tally : forall T c S j, tally s !! (T, c) = Some S -> j ∈ S ->
    ballots s !! (j, T) = Some c /\ is_peer j;
  inv_tally_term : forall T c S, tally s !! (T, c) = Some S ->
    exists rf, nodes s !! c = Some rf /\ T <= currentTerm rf;
  inv_ballot : forall j rf T c, nodes s !! j = Some rf -> ballots s !! (j, T) = Some c ->
    T <= currentTerm rf /\
    (T = currentTerm rf -> voteFor rf <> -1 /\ (voteFor rf = c \/ over s (voteFor rf) T));
  inv_reqs : forall j args, (j, args) ∈ reqs s -> is_peer (CandidateId args);
  inv_reps : forall j args reply, (j, args, reply) ∈ reps s -> VoteGranted reply = true ->
    ballots s !! (j, rv_Term args) = Some (CandidateId args) \/ over s (CandidateId args) (rv_Term args);
  inv_aes : forall j args, (j, args) ∈ aes s ->
    over s (ae_LeaderId args) (ae_Term args) /\ ae_LeaderId args <> j;
  inv_iss : forall j args, (j, args) ∈ iss s ->
    over s (is_LeaderId args) (is_Term args) /\ is_LeaderId args <> j;
  inv_won : forall T c, (T, c) ∈ won s ->
    exists S, tally s !! (T, c) = Some S /\ Z.quot (Z.of_nat n) 2 < Z.of_nat (size S);
  inv_rounds : forall i rd j, rounds (repl s) !! i = Some rd -> j ∈ rd_append rd ∪ rd_snap rd -> j <> i;
}.

(** The step keeps every finished term finished. *)
Definition ext s s' : Prop :=
  forall l rf, nodes s !! l = Some rf -> exists rf', nodes s' !! l = Some rf' /\
    currentTerm rf <= currentTerm rf' /\
    forall el', elections s' !! l = Some el' ->
      (exists el, elections s !! l = Some el /\ el_term el = el_term el') \/ currentTerm rf < el_term el'.

Lemma over_ext s s' l T : ext s s' -> over s l T -> over s' l T.
Proof.
  intros He (rf & Hrf & HT & Hel). destruct (He l rf Hrf) as (rf' & Hrf' & Hmono & Hel').
  exists rf'. split_and!; [done|lia|]. intros el' Hl. destruct (Hel' el' Hl) as [(el & Hel0 & <-)|?]; [auto|lia].
Qed.

Lemma ext_node s i rf rf' :
  nodes s !! i = Some rf -> currentTerm rf <= currentTerm rf' -> ext s (with_node i rf' s).
Proof.
  intros Hi Hle l rfl Hl. cbn. destruct (decide (l = i)) as [->|Hne].
  - rewrite lookup_insert_eq. exists rf'. rewrite Hi in Hl. injection Hl as <-.
    split_and!; [done|done|]. intros el' ?. left. by exists el'.
  - rewrite lookup_insert_ne by done. exists rfl. split_and!; [done|lia|]. intros el' ?. left. by exists el'.
Qed.

(** A peer starts an election of a term it was not in. *)
Lemma ext_start s s' i rf rf' el :
  nodes s !! i = Some rf -> nodes s' = <[i := rf']> (nodes s) -> elections s' = <[i := el]> (elections s) ->
  currentTerm rf < el_term el -> currentTerm rf <= currentTerm rf' -> ext s s'.
Proof.
  intros Hi Hn He Hlt Hle l rfl Hl. rewrite Hn, He. destruct (decide (l = i)) as [->|Hne].
  - rewrite !lookup_insert_eq. exists rf'. rewrite Hi in Hl. injection Hl as <-.
    split_and!; [done|done|]. intros el' [= <-]. by right.
  - rewrite !lookup_insert_ne by done. exists rfl. split_and!; [done|lia|]. intros el' ?. left. by exists el'.
Qed.

(** What a step that keeps the requests of leaders has to show about them. *)
Lemma ext_clauses s s' :
  inv s -> ext s s' ->
  (forall T c S, tally s !! (T, c) = Some S -> exists rf, nodes s' !! c = Some rf /\ T <= currentTerm rf) /\
  (forall j args, (j, args) ∈ aes s -> over s' (ae_LeaderId args) (ae_Term args) /\ ae_LeaderId args <> j) /\
  (forall j args, (j, args) ∈ iss s -> over s' (is_LeaderId args) (is_Term args) /\ is_LeaderId args <> j).
Proof.
  intros Hinv Hext. split_and!.
  - intros T c S HS. destruct (inv_tally_term s Hinv T c S HS) as (rfc & Hc & HT).
    destruct (Hext c rfc Hc) as (rfc' & Hc' & Hle' & _). exists rfc'. split; [exact Hc'|lia].
  - intros j args Hin. destruct (inv_aes s Hinv j args Hin). split; [by eapply over_ext|done].
  - intros j args Hin. destruct (inv_iss s Hinv j args Hin). split; [by eapply over_ext|done].
Qed.

(** One peer changes; the elections do not. *)
Lemma inv_node_change s i rf rf' :
  inv s -> nodes s !! i = Some rf ->
  me rf' = me rf -> npeers rf' = npeers rf -> vote_sync rf' -> currentTerm rf <= currentTerm rf' ->
  (forall el, elections s !! i = Some el -> leaderId rf' <> i) ->
  (forall c, ballots s !! (i, currentTerm rf') = Some c ->
     voteFor rf' <> -1 /\ (voteFor rf' = c \/ over s (voteFor rf') (currentTerm rf'))) ->
  inv (with_node i rf' s).
Proof.
  intros Hinv Hi Hme Hnp Hsync Hle Hld Hvote. pose proof (ext_node s i rf rf' Hi Hle) as Hext.
  destruct (ext_clauses _ _ Hinv Hext) as (Hterm & Haes & Hiss).
  destruct Hinv as [Hn He Ht _ Hb Hq Hr _ _ Hw Hrd]. split; cbn; try done.
  - intros j rfj. destruct (decide (j = i)) as [->|]; [|rewrite lookup_insert_ne by done; apply Hn].
    rewrite lookup_insert_eq. intros [= <-]. destruct (Hn i rf Hi) as (? & ? & ? & _). split_and!; congruence || done.
  - intros j el Hel. destruct (He j el Hel) as (rfj & S & Hj & H1 & H2 & H3).
    destruct (decide (j = i)) as [->|].
    + rewrite Hi in Hj. injection Hj as <-. exists rf', S. cbn. rewrite lookup_insert_eq.
      split_and!; try apply H3; [done|lia|by eapply Hld].
    + exists rfj, S. cbn. rewrite lookup_insert_ne by done. done.
  - intros j rfj T c Hj Hjb. destruct (decide (j = i)) as [->|].
    + rewrite lookup_insert_eq in Hj. injection Hj as <-. destruct (Hb i rf T c Hi Hjb) as [HT _].
      split; [lia|]. intros ->. destruct (Hvote c Hjb) as [? [?|?]]; [by auto|].
      split; [done|right]. by eapply over_ext.
    + rewrite lookup_insert_ne in Hj by done. destruct (Hb j rfj T c Hj Hjb) as [HT Hv].
      split; [done|]. intros HTe. destruct (Hv HTe) as [? [?|?]]; [by auto|]. split; [done|right]. by eapply over_ext.
  - intros j args reply Hin Hg. destruct (Hr j args reply Hin Hg) as [?|?]; [by left|right]. by eapply over_ext.
Qed.

Lemma inv_quiet s i rf rf' :
  inv s -> nodes s !! i = Some rf -> quiet rf rf' -> inv (with_node i rf' s).
Proof.
  intros Hinv Hi [Hm Hn Ht Hv Hl Hs]. pose proof (inv_node s Hinv i rf Hi) as (Hme & _ & [Hpos _] & Hsync).
  eapply inv_node_change; eauto.
  - intros el Hel. destruct (inv_elect s Hinv i el Hel) as (rf0 & S & Hi0 & _ & Hld & _).
    rewrite Hi in Hi0. injection Hi0 as <-. destruct Hl as [->| ->]; [done|lia].
  - intros c Hb. destruct (inv_ballot s Hinv i rf _ c Hi Hb) as [Hle Hvote].
    assert (currentTerm rf' = currentTerm rf) as He by lia. rewrite (Hv He). by apply Hvote.
Qed.

Lemma inv_follows s j rf rf' t l :
  inv s -> nodes s !! j = Some rf -> follows t l rf rf' -> over s l t -> l <> j -> inv (with_node j rf' s).
Proof.
  intros Hinv Hj [Hm Hn Hs Hcase] Hov Hne. pose proof (inv_node s Hinv j rf Hj) as (Hme & _ & _ & Hsync).
  assert (is_peer l) as [Hl _] by (destruct Hov as (rfl & Hrfl & _); by apply (inv_node s Hinv l rfl Hrfl)).
  destruct Hcase as [(Ht & Hv & Hld)|(Hle & Ht & Hv & Hld)].
  - eapply inv_node_change; eauto; [lia| |].
    + intros el Hel. destruct (inv_elect s Hinv j el Hel) as (rf0 & S & Hj0 & _ & ? & _). congruence.
    + intros c Hb. rewrite Ht in *. rewrite Hv. by apply (inv_ballot s Hinv j rf _ c Hj Hb).
  - eapply inv_node_change; eauto; [lia|intros; congruence|].
    intros c Hb. rewrite Hv, Ht. split; [lia|by right].
Qed.

(** Elections end, or go on in the same term. *)
Lemma inv_elections s es :
  inv s ->
  (forall i el', es !! i = Some el' ->
     exists el, elections s !! i = Some el /\ el_term el = el_term el' /\ election_ok s i el') ->
  inv (with_elections es s).
Proof.
  intros Hinv Hes. assert (ext s (with_elections es s)) as Hext.
  { intros l rf Hl. exists rf. split_and!; [done|lia|]. cbn. intros el' Hel'. left.
    destruct (Hes l el' Hel') as (el & ? & ? & _). by exists el. }
  destruct (ext_clauses _ _ Hinv Hext) as (Hterm & Haes & Hiss).
  destruct Hinv as [Hn He Ht _ Hb Hq Hr _ _ Hw Hrd]. split; cbn; try done.
  - intros i el Hel. destruct (Hes i el Hel) as (_ & _ & _ & rf & S & Hok). by exists rf, S.
  - intros j rf T c Hj Hjb. destruct (Hb j rf T c Hj Hjb) as [? Hv]. split; [done|].
    intros HT. destruct (Hv HT) as [? [?|?]]; [by auto|]. split; [done|right]. by eapply over_ext.
  - intros j args reply Hin Hg. destruct (Hr j args reply Hin Hg) as [?|?]; [by left|right]. by eapply over_ext.
Qed.

Lemma inv_delete_election s i : inv s -> inv (with_elections (delete i (elections s)) s).
Proof.
  intros Hinv. apply inv_elections; [done|]. intros j el [Hne Hel]%lookup_delete_Some.
  exists el. split_and!; [done|done|]. by apply inv_elect.
Qed.

(** ** The events keep the invariant *)

Lemma elem_of_other_peers rf j :
  j ∈ other_peers rf <-> 0 <= j < npeers rf /\ j <> me rf.
Proof.
  unfold other_peers. rewrite list_elem_of_filter, list_elem_of_fmap. split.
  - intros [? (k & -> & Hk%elem_of_seq)]. lia.
  - intros [? ?]. split; [done|]. exists (Z.to_nat j). rewrite elem_of_seq. lia.
Qed.

Lemma start_inv i now late s s' : inv s -> start i now late s = Some s' -> inv s'.
Proof.
  intros Hinv. unfold start. destruct (nodes s !! i) as [rf|] eqn:Hi; [|done].
  destruct (elections s !! i) eqn:Hel; [done|]. destruct (rounds (repl s) !! i) eqn:Hround; [done|].
  destruct (if late then StartElection else ticker now rf); try done.
  destruct (inv_node s Hinv i rf Hi) as (Hme & Hnp & Hpi & _). cbn.
  set (rf' := set_leaderId _ _). set (T := currentTerm rf + 1). intros [= <-].
  assert (T = currentTerm rf + 1) as HTeq by done. clearbody T.
  assert (forall T' c S, tally s !! (T', c) = Some S -> (T', c) <> (T, i)) as Hfresh.
  { intros T' c S HS [= -> ->]. destruct (inv_tally_term s Hinv T i S HS) as (rfi & Hi' & HT). rewrite Hi in Hi'.
    injection Hi' as <-. lia. }
  assert (forall c, ballots s !! (i, T) <> Some c) as Hnb.
  { intros c Hc. destruct (inv_ballot s Hinv i rf T c Hi Hc). lia. }
  match goal with |- inv ?s1 => assert (ext s s1) as Hext end.
  { eapply (ext_start _ _ i rf rf'); try done; cbn; lia. }
  destruct (ext_clauses _ _ Hinv Hext) as (Hterm & Haes & Hiss).
  destruct Hinv as [Hn He Ht Htt Hb Hq Hr _ _ Hw Hrd].
  split; cbn; try done.
  - intros j rfj. destruct (decide (j = i)) as [->|]; [|rewrite lookup_insert_ne by done; apply Hn].
    rewrite lookup_insert_eq. intros [= <-]. split_and!; try done.
    apply (vote_sync_same (updateVoteFor (me rf) (updateCurrentTerm (currentTerm rf + 1) rf))); try done.
    apply in_sync_vote_sync, in_sync_persist.
  - intros j el. destruct (decide (j = i)) as [->|].
    + rewrite lookup_insert_eq. intros [= <-]. exists rf', {[i]}. cbn. rewrite !lookup_insert_eq.
      split_and!; try done; try (unfold is_peer in *; lia).
      * by rewrite size_singleton.
      * intros j [Hj%elem_of_list_to_set|?]%elem_of_union; [|set_solver].
        apply elem_of_other_peers in Hj as [Hjr Hjm]. cbn in *. split; [set_solver by lia|]. unfold is_peer. lia.
    + rewrite lookup_insert_ne by done. intros Hel'. destruct (He j el Hel') as (rfj & S & H1 & H2 & H3 & H4 & H5).
      exists rfj, S. cbn. rewrite !lookup_insert_ne by (done || congruence). done.
  - intros T' c S j HS Hj. destruct (decide ((T', c) = (T, i))) as [[= -> ->]|Hne].
    + rewrite lookup_insert_eq in HS. injection HS as <-. apply elem_of_singleton in Hj as ->.
      by rewrite lookup_insert_eq.
    + rewrite lookup_insert_ne in HS by done. destruct (Ht T' c S j HS Hj) as [Hbal ?]. split; [|done].
      rewrite lookup_insert_ne; [done|]. intros [= <- <-]. by eapply Hnb.
  - intros T' c S HS. destruct (decide ((T', c) = (T, i))) as [[= -> ->]|Hne].
    + exists rf'. rewrite lookup_insert_eq. split; [done|cbn; lia].
    + rewrite lookup_insert_ne in HS by done. by apply (Hterm T' c S).
  - intros j rfj T' c Hj Hjb. destruct (decide ((j, T') = (i, T))) as [[= -> ->]|Hne].
    + rewrite lookup_insert_eq in Hj. rewrite lookup_insert_eq in Hjb. injection Hj as <-. injection Hjb as <-. cbn.
      split; [lia|]. intros _. rewrite Hme. unfold is_peer in Hpi. split; [lia|by left].
    + rewrite lookup_insert_ne in Hjb by congruence. destruct (decide (j = i)) as [->|].
      * rewrite lookup_insert_eq in Hj. injection Hj as <-. cbn. destruct (Hb i rf T' c Hi Hjb). split; lia.
      * rewrite lookup_insert_ne in Hj by done. destruct (Hb j rfj T' c Hj Hjb) as [? Hv]. split; [done|].
        intros HT. destruct (Hv HT) as [? [?|?]]; [by auto|]. split; [done|right]. by eapply over_ext.
  - intros j args reply Hin Hg. destruct (Hr j args reply Hin Hg) as [Hbal|?]; [left|right; by eapply over_ext].
    rewrite lookup_insert_ne; [done|]. intros [= <- He']. rewrite <- He' in Hbal. by eapply Hnb.
  - intros T' c Hin. destruct (Hw T' c Hin) as (S & HS & ?). exists S.
    rewrite lookup_insert_ne; [done|]. intros Heq. by eapply Hfresh.
Qed.

Lemma add_req s j args :
  inv s -> is_peer (CandidateId args) ->
  inv (mkCluster (nodes s) (elections s) (reqs s ++ [(j, args)]) (reps s) (aes s) (iss s)
         (ballots s) (tally s) (won s) (repl s)).
Proof.
  intros [] Hp. split; try done. cbn. intros j' args' [?|Hin]%elem_of_app; [eauto|].
  apply list_elem_of_singleton in Hin. by injection Hin as -> ->.
Qed.

Lemma send_inv i j s s' : inv s -> send i j s = Some s' -> inv s'.
Proof.
  intros Hinv. unfold send. destruct (nodes s !! i) as [rf|] eqn:Hi; [|done].
  destruct (elections s !! i) as [el|] eqn:Hel; [|done]. destruct (decide _) as [Hj|]; [|done].
  destruct (inv_elect s Hinv i el Hel) as (rf0 & S & Hi0 & H1 & H2 & H3 & H4 & H5 & H6).
  rewrite Hi in Hi0. injection Hi0 as <-.
  assert (forall f w p, w ∪ p ⊆ waiting el ∪ pending el -> w ## p ->
    inv (with_elections (<[i := mkElection (el_term el) f (voteCount el) w p]> (elections s)) s)) as Hupd.
  { intros f w p Hsub Hdis. apply inv_elections; [done|]. intros k el' Hk.
    destruct (decide (k = i)) as [->|].
    - rewrite lookup_insert_eq in Hk. injection Hk as <-. exists el. split_and!; [done|done|].
      exists rf, S. split_and!; try done. intros k Hk. apply H5. set_solver.
    - rewrite lookup_insert_ne in Hk by done. exists el'. split_and!; [done|done|]. by apply inv_elect. }
  destruct (electionSender_send (el_term el) rf) as [[args|]|] eqn:Hsend; [| |done]; intros [= <-].
  - apply (add_req (with_elections _ s)); [apply Hupd; [|set_solver]|].
    + intros k Hk. destruct (decide (k = j)); set_solver.
    + destruct (inv_node s Hinv i rf Hi) as (Hme & _ & Hp & _).
      revert Hsend. unfold electionSender_send. rewrite last_log_eq. case_cond; [done|].
      cbn. intros [= <-]. cbn. congruence.
  - apply Hupd; set_solver.
Qed.

(** A grant puts a ballot down, unless there is one already. *)
Lemma add_ballot s j rf T c :
  inv s -> nodes s !! j = Some rf -> currentTerm rf = T -> voteFor rf = c -> c <> -1 ->
  inv (mkCluster (nodes s) (elections s) (reqs s) (reps s) (aes s) (iss s)
         (<[(j, T) := default c (ballots s !! (j, T))]> (ballots s)) (tally s) (won s) (repl s)).
Proof.
  intros Hinv Hj HT Hv Hc. destruct (ballots s !! (j, T)) as [c0|] eqn:Hb; cbn.
  - rewrite insert_id by done. by destruct s.
  - destruct Hinv as [Hn He Ht Htt Hbal Hq Hr Ha Hs Hw Hrd]. split; cbn; try done.
    + intros T' c' S k HS Hk. destruct (Ht T' c' S k HS Hk) as [? ?]. split; [|done].
      rewrite lookup_insert_ne; [done|]. intros [= <- <-]. congruence.
    + intros k rfk T' c' Hk. destruct (decide ((k, T') = (j, T))) as [[= -> ->]|Hne].
      * rewrite lookup_insert_eq. intros [= <-]. rewrite Hj in Hk. injection Hk as <-.
        split; [lia|]. intros _. split; [congruence|by left].
      * rewrite lookup_insert_ne by congruence. by apply Hbal.
    + intros k args reply Hin Hg. destruct (Hr k args reply Hin Hg) as [Hb'|?]; [left|by right].
      rewrite lookup_insert_ne; [done|]. intros [= <- He']. congruence.
Qed.

Lemma add_reply s j args reply :
  inv s ->
  (VoteGranted reply = true -> ballots s !! (j, rv_Term args) = Some (CandidateId args) \/
     over s (CandidateId args) (rv_Term args)) ->
  inv (mkCluster (nodes s) (elections s) (reqs s) (reps s ++ [(j, args, reply)]) (aes s) (iss s)
         (ballots s) (tally s) (won s) (repl s)).
Proof.
  intros [] Hp. split; try done. cbn. intros j' args' reply' [?|Hin]%elem_of_app; [eauto|].
  apply list_elem_of_singleton in Hin. by injection Hin as -> -> ->.
Qed.

(** The peer after [RequestVote]. *)
Definition voted (now r : Z) (args : RequestVoteArgs) rf : Raft Cmd :=
  updateElectionTimeout now r
    (if decide (grants args rf) then updateVoteFor (CandidateId args) (adopt_term (rv_Term args) rf)
     else if rv_Term args <? currentTerm rf then rf else adopt_term (rv_Term args) rf).

Lemma voted_frame now r args rf :
  vote_sync rf ->
  vote_sync (voted now r args rf) /\ me (voted now r args rf) = me rf /\
  npeers (voted now r args rf) = npeers rf /\
  (leaderId (voted now r args rf) = leaderId rf \/ leaderId (voted now r args rf) = -1).
Proof.
  intros Hsync. split.
  - apply (vote_sync_same (if decide (grants args rf) then
      updateVoteFor (CandidateId args) (adopt_term (rv_Term args) rf)
      else if rv_Term args <? currentTerm rf then rf else adopt_term (rv_Term args) rf)); [done..|].
    case_decide; [apply in_sync_vote_sync, in_sync_persist|]. case_cond; [done|].
    unfold adopt_term. case_cond; [|done].
    apply (vote_sync_same (updateVoteFor (-1) (updateCurrentTerm (rv_Term args) rf))); [done..|].
    apply in_sync_vote_sync, in_sync_persist.
  - unfold voted, adopt_term. case_decide; repeat case_cond; auto.
Qed.

Lemma vote_inv k now r s s' : inv s -> vote k now r s = Some s' -> inv s'.
Proof.
  intros Hinv. unfold vote. destruct (reqs s !! k) as [[j args]|] eqn:Hk; [|done].
  destruct (nodes s !! j) as [rf|] eqn:Hj; [|done].
  destruct (inv_node s Hinv j rf Hj) as (Hme & Hnp & Hpj & Hsync).
  assert (is_peer (CandidateId args)) as Hcand by (eapply inv_reqs; [done|by eapply list_elem_of_lookup_2]).
  rewrite RequestVote_eq. fold (voted now r args rf).
  destruct (voted_frame now r args rf Hsync) as (Hsync' & Hme' & Hnp' & Hld).
  set (rf' := voted now r args rf) in *.
  assert (forall el, elections s !! j = Some el -> leaderId rf' <> j) as Hlead.
  { intros el Hel. destruct (inv_elect s Hinv j el Hel) as (rf0 & S & Hj0 & _ & Hne & _).
    rewrite Hj in Hj0. injection Hj0 as <-. unfold is_peer in Hpj. destruct Hld as [->| ->]; [done|lia]. }
  destruct (decide (grants args rf)) as [Hg|Hg].
  - assert (currentTerm rf' = rv_Term args /\ voteFor rf' = CandidateId args) as [Ht' Hv'].
    { subst rf'. unfold voted. rewrite decide_True by done. destruct Hg as (? & _). cbn. split; [|done].
      unfold adopt_term. case_cond; zbool; [done|]. lia. }
    pose proof Hg as (Hle & Hfree & _). unfold is_peer in Hcand.
    assert (forall c, ballots s !! (j, rv_Term args) = Some c ->
      CandidateId args = c \/ over s (CandidateId args) (rv_Term args)) as Hold.
    { intros c Hc. destruct (inv_ballot s Hinv j rf _ c Hj Hc) as [Hlt Hvote].
      destruct (Hvote ltac:(lia)) as [Hnone Hor].
      destruct Hfree as [?|[?|He]]; [lia|done|]. by rewrite He in Hor. }
    assert (inv (with_node j rf' s)) as Hinv1.
    { apply (inv_node_change s j rf); [done|done|done|done|done|lia|done|].
      rewrite Ht', Hv'. intros c Hc. split; [lia|by apply Hold]. }
    cbn. rewrite bool_decide_true by exact Hg. cbn. intros [= <-].
    pose proof (add_ballot (with_node j rf' s) j rf' (rv_Term args) (CandidateId args) Hinv1) as Hinv2.
    cbn in Hinv2. rewrite lookup_insert_eq in Hinv2. specialize (Hinv2 eq_refl Ht' Hv' ltac:(lia)).
    refine (add_reply _ j args (mkRVReply (currentTerm rf) true) Hinv2 _).
    cbn. intros _. rewrite lookup_insert_eq. destruct (ballots s !! (j, rv_Term args)) as [c|] eqn:Hc; cbn; [|by left].
    destruct (Hold c eq_refl) as [->|Hov]; [by left|right].
    apply (over_ext s); [|done]. apply (ext_node s j rf rf' Hj). lia.
  - cbn. rewrite bool_decide_false by done. cbn. intros [= <-].
    refine (add_reply (with_node j rf' s) j args (mkRVReply (currentTerm rf) false) _ _); [|done].
    apply (inv_node_change s j rf); try done.
    + subst rf'. unfold voted. rewrite decide_False by done. cbn. unfold adopt_term. repeat case_cond; zbool; cbn; lia.
    + intros c Hc. destruct (inv_ballot s Hinv j rf _ c Hj Hc) as [Hle Hvote].
      assert (rf' = updateElectionTimeout now r (if rv_Term args <? currentTerm rf then rf
                 else adopt_term (rv_Term args) rf)) as Heq by (subst rf'; unfold voted; by rewrite decide_False).
      assert (voteFor rf' = voteFor rf /\ currentTerm rf' = currentTerm rf) as [Hv' Ht'].
      { revert Hle. rewrite Heq. cbn. unfold adopt_term. repeat case_cond; zbool; cbn; try done; lia. }
      rewrite Ht', Hv' in *. by apply Hvote.
Qed.

(** [electionSender] after the RPC: the reply is dropped, or counted while
    the election is still in its own term. *)
Lemma electionSender_recv_cases term ok reply votes rf :
  let '(rf', votes') := electionSender_recv term ok reply votes rf in
  me rf' = me rf /\ npeers rf' = npeers rf /\ currentTerm rf <= currentTerm rf' /\
  (currentTerm rf' = currentTerm rf -> voteFor rf' = voteFor rf) /\ leaderId rf' = leaderId rf /\
  (vote_sync rf -> vote_sync rf') /\
  (votes' = votes \/
   (votes' = votes + 1 /\ ok = true /\ VoteGranted reply = true /\ currentTerm rf = term)).
Proof.
  unfold electionSender_recv.
  destruct (Z.eqb_spec (currentTerm rf) term) as [He|]; cbn [negb]; [|split_and!; auto; lia].
  destruct ok; cbn [negb]; [|split_and!; auto; lia].
  case_cond; zbool.
  - split_and!; try done; cbn; try lia; [intros _; apply in_sync_vote_sync, in_sync_persist|].
    destruct (VoteGranted reply); auto.
  - split_and!; try done; try lia. destruct (VoteGranted reply); auto.
Qed.

(** A candidate counts the vote of a peer it waits for. *)
Lemma count_vote s i el S j f :
  inv s -> elections s !! i = Some el -> tally s !! (el_term el, i) = Some S -> j ∈ pending el ->
  ballots s !! (j, el_term el) = Some i ->
  inv (mkCluster (nodes s)
         (<[i := mkElection (el_term el) f (voteCount el + 1) (waiting el) (pending el ∖ {[j]})]> (elections s))
         (reqs s) (reps s) (aes s) (iss s) (ballots s)
         (<[(el_term el, i) := S ∪ {[j]}]> (tally s)) (won s) (repl s)).
Proof.
  intros Hinv Hel HS Hj Hbal.
  destruct (inv_elect s Hinv i el Hel) as (rf & S0 & Hi & H1 & H2 & H3 & H4 & H5 & H6).
  rewrite HS in H3. injection H3 as <-. destruct (H5 j) as [HjS Hpj]; [set_solver|].
  match goal with |- inv ?s2 => assert (forall l T, over s l T -> over s2 l T) as Hover end.
  { intros l T. apply over_ext. intros l' rfl Hl. exists rfl. split_and!; [done|lia|]. cbn.
    intros el' Hel'. left. destruct (decide (l' = i)) as [->|Hne].
    - rewrite lookup_insert_eq in Hel'. injection Hel' as <-. by exists el.
    - rewrite lookup_insert_ne in Hel' by done. by exists el'. }
  destruct Hinv as [Gn Ge Gt Gtt Gb Gq Gr Ga Gs Gw Gd]. split; cbn; try done.
  - intros l el' Hl. destruct (decide (l = i)) as [->|].
    + rewrite lookup_insert_eq in Hl. injection Hl as <-. exists rf, (S ∪ {[j]}). cbn. rewrite lookup_insert_eq.
      split_and!; try done; [|intros m Hm; destruct (H5 m); set_solver|set_solver].
      rewrite size_union by set_solver. rewrite size_singleton. lia.
    + rewrite lookup_insert_ne in Hl by done. destruct (Ge l el' Hl) as (rfl & Sl & G). exists rfl, Sl. cbn.
      rewrite (lookup_insert_ne (tally s)) by congruence. done.
  - intros T c S' m HS' Hm. destruct (decide ((T, c) = (el_term el, i))) as [[= -> ->]|Hne].
    + rewrite lookup_insert_eq in HS'. injection HS' as <-.
      apply elem_of_union in Hm as [Hm|Hm%elem_of_singleton]; [by eapply Gt|by subst].
    + rewrite lookup_insert_ne in HS' by done. by eapply Gt.
  - intros T c S' HS'. destruct (decide ((T, c) = (el_term el, i))) as [[= -> ->]|Hne]; [by eapply Gtt|].
    rewrite lookup_insert_ne in HS' by done. by eapply Gtt.
  - intros l rfl T c Hl Hb'. destruct (Gb l rfl T c Hl Hb') as [? Hv']. split; [done|].
    intros HT. destruct (Hv' HT) as [? [?|?]]; auto.
  - intros l args reply' Hin Hg'. destruct (Gr l args reply' Hin Hg') as [?|?]; auto.
  - intros l args Hin. destruct (Ga l args Hin). auto.
  - intros l args Hin. destruct (Gs l args Hin). auto.
  - intros T c Hin. destruct (Gw T c Hin) as (S' & HS' & Hmaj).
    destruct (decide ((T, c) = (el_term el, i))) as [[= -> ->]|Hne].
    + exists (S ∪ {[j]}). rewrite lookup_insert_eq. split; [done|]. rewrite HS in HS'. injection HS' as <-.
      rewrite size_union by set_solver. lia.
    + exists S'. by rewrite lookup_insert_ne.
Qed.

Lemma recv_inv i j k s s' : inv s -> recv i j k s = Some s' -> inv s'.
Proof.
  intros Hinv. unfold recv. destruct (nodes s !! i) as [rf|] eqn:Hi; [|done].
  destruct (elections s !! i) as [el|] eqn:Hel; [|done]. destruct (decide (j ∈ pending el)) as [Hj|]; [|done].
  destruct (reply_for i j (el_term el) k s) as [[ok reply]|] eqn:Hreply; [|done].
  pose proof (electionSender_recv_cases (el_term el) ok reply (voteCount el) rf) as Hcases.
  destruct (electionSender_recv _ ok reply (voteCount el) rf) as [rf' votes].
  destruct Hcases as (Hme & Hnp & Hle & Hv & Hld & Hsync & Hvotes).
  assert (inv (with_node i rf' s)) as Hinv1 by (apply (inv_quiet s i rf); [done|done|by split; auto]).
  destruct (inv_elect _ Hinv1 i el Hel) as (rf0 & S & Hi0 & H1 & H2 & H3 & H4 & H5 & H6).
  cbn in Hi0, H3. destruct (H5 j) as [HjS Hpj]; [set_solver|].
  destruct Hvotes as [->|(-> & -> & Hg & Hterm)].
  - rewrite Z.eqb_refl. intros [= <-].
    refine (inv_elections (with_node i rf' s) _ Hinv1 _). intros l el' Hl. destruct (decide (l = i)) as [->|].
    + rewrite lookup_insert_eq in Hl. injection Hl as <-. exists el. split_and!; [done|done|].
      exists rf0, S. split_and!; try done; cbn; [|set_solver]. intros m Hm. apply H5. set_solver.
    + rewrite lookup_insert_ne in Hl by done. exists el'. split_and!; [done|done|]. by apply inv_elect.
  - destruct (Z.eqb_spec (voteCount el + 1) (voteCount el)); [lia|]. rewrite H3. cbn. intros [= <-].
    refine (count_vote (with_node i rf' s) i el S j _ Hinv1 Hel H3 Hj _).
    unfold reply_for in Hreply. destruct k as [k|]; [|by injection Hreply].
    destruct (reps s !! k) as [[[j' args] reply']|] eqn:Hk; [|done].
    destruct (decide _) as [(-> & Ht & Hc)|]; [|done]. injection Hreply as ->.
    destruct (inv_reps s Hinv j args reply) as [Hb|Hov];
      [by eapply list_elem_of_lookup_2|done|by rewrite Ht, Hc in Hb|exfalso].
    rewrite Ht, Hc in Hov. destruct Hov as (rf1 & _ & _ & Hno). by apply (Hno el Hel).
Qed.

Lemma finish_inv i now r s s' : inv s -> finish i now r s = Some s' -> inv s'.
Proof.
  intros Hinv. unfold finish. destruct (nodes s !! i) as [rf|] eqn:Hi; [|done].
  destruct (elections s !! i) as [el|] eqn:Hel; [|done]. destruct (all_finished rf (finished el)); [|done].
  set (rf' := startElection_finish now r (voteCount el) rf). intros [= <-].
  pose proof (inv_delete_election s i Hinv) as Hinv1.
  destruct (inv_node s Hinv i rf Hi) as (Hme & Hnp & Hpi & Hsync).
  assert (inv (with_node i rf' (with_elections (delete i (elections s)) s))) as Hinv2.
  { assert (me rf' = me rf /\ npeers rf' = npeers rf /\ persister rf' = persister rf /\
            currentTerm rf' = currentTerm rf /\ voteFor rf' = voteFor rf) as (? & ? & ? & Ht & Hv)
      by (subst rf'; unfold startElection_finish; case_cond; done).
    apply (inv_node_change _ i rf); try done.
    - by apply (vote_sync_same rf).
    - lia.
    - cbn. intros el'. by rewrite lookup_delete_eq.
    - intros c Hc. rewrite Ht, Hv in *. by apply (inv_ballot _ Hinv1 i rf _ c Hi Hc). }
  destruct (inv_elect s Hinv i el Hel) as (rf0 & S & Hi0 & _ & _ & HS & Hcount & _).
  rewrite Hnp. destruct Hinv2 as [Gn Ge Gt Gtt Gb Gq Gr Ga Gs Gw Gd]. split; try done. cbn.
  intros T c. destruct (Z.gtb_spec (voteCount el) (Z.quot (Z.of_nat n) 2)) as [Hmaj|]; [|apply Gw].
  intros [?|Hin]%elem_of_app; [by apply Gw|]. apply list_elem_of_singleton in Hin. injection Hin as -> ->.
  exists S. split; [done|lia].
Qed.

(** A leader that sends a request of a term has no election of that term. *)
Lemma leader_over s i rf : inv s -> nodes s !! i = Some rf -> leaderId rf = me rf -> over s i (currentTerm rf).
Proof.
  intros Hinv Hi Hl. exists rf. split_and!; [done|lia|]. intros el Hel.
  destruct (inv_elect s Hinv i el Hel) as (rf0 & S & Hi0 & _ & Hne & _). rewrite Hi in Hi0. injection Hi0 as <-.
  destruct (inv_node s Hinv i rf Hi) as (Hme & _). congruence.
Qed.

Lemma inv_repl s r :
  inv s -> (forall i rd j, rounds r !! i = Some rd -> j ∈ rd_append rd ∪ rd_snap rd -> j <> i) ->
  inv (with_repl r s).
Proof. intros [] Hr. by split. Qed.

Lemma inv_set_round s i rd :
  inv s -> (forall j, j ∈ rd_append rd ∪ rd_snap rd -> j <> i) -> inv (set_round i rd s).
Proof.
  intros Hinv Hj. apply inv_repl; [done|]. intros k rd' j Hk. cbn in Hk. destruct (decide (k = i)) as [->|].
  - rewrite lookup_insert_eq in Hk. injection Hk as <-. apply Hj.
  - rewrite lookup_insert_ne in Hk by done. by eapply inv_rounds.
Qed.

Lemma choose_rpcs_peers rf ps rpcs x : choose_rpcs rf ps = Ret rpcs -> x ∈ rpcs -> x.1 ∈ ps.
Proof.
  revert rpcs. induction ps as [|p ps IH]; intros rpcs; cbn; [intros [= <-]; set_solver|].
  intros (next & _ & Hrun)%rbind_ret. apply rbind_ret in Hrun as (rest & Hrest & [= <-]).
  intros [->|Hx]%elem_of_cons; [by left|right; by eapply IH].
Qed.

Lemma round_inv i now s s' : inv s -> round i now s = Some s' -> inv s'.
Proof.
  intros Hinv. unfold round. destruct (nodes s !! i) as [rf|] eqn:Hi; [|done].
  destruct (elections s !! i); [done|]. destruct (rounds (repl s) !! i); [done|].
  destruct (ticker now rf); try done. destruct (sendAERpcs_begin rf) as [[term rpcs]|] eqn:Hb; [|done].
  intros [= <-]. apply inv_set_round; [done|]. cbn. intros j Hj.
  destruct (inv_node s Hinv i rf Hi) as (Hme & _).
  unfold sendAERpcs_begin in Hb. apply rbind_ret in Hb as (l & Hl & [= _ ->]).
  assert (exists x, x ∈ rpcs /\ x.1 = j) as (x & Hx & <-).
  { unfold rpc_peers in Hj. apply elem_of_union in Hj as [Hj|Hj];
      apply elem_of_list_to_set, list_elem_of_fmap in Hj as (x & -> & [_ Hx]%list_elem_of_filter); by exists x. }
  apply (choose_rpcs_peers _ _ _ _ Hl), elem_of_other_peers in Hx as [_ Hx]. congruence.
Qed.

Lemma append_send_inv i j s s' : inv s -> append_send i j s = Some s' -> inv s'.
Proof.
  intros Hinv. unfold append_send. destruct (nodes s !! i) as [rf|] eqn:Hi; [|done].
  destruct (rounds (repl s) !! i) as [rd|] eqn:Hrd; [|done].
  destruct (decide _) as [Hj|]; [|done]. pose proof (inv_rounds s Hinv i rd) as Hne.
  destruct (appendRPCWorker_send j (rd_term rd) rf) as [[args|]|] eqn:Hsend; try done; intros [= <-];
    (apply inv_set_round; [|cbn; intros k Hk; apply Hne; [done|set_solver]]); [|done].
  destruct (inv_node s Hinv i rf Hi) as (Hme & _). specialize (Hne j Hrd ltac:(set_solver)).
  assert (ae_Term args = currentTerm rf /\ ae_LeaderId args = me rf /\ leaderId rf = me rf) as (Ht & Hl & Hld).
  { revert Hsend. unfold appendRPCWorker_send. intros (next & _ & Hrun)%rbind_ret.
    case_cond; [done|]. case_cond; [done|]. zbool.
    apply rbind_ret in Hrun as (t & _ & Hrun). apply rbind_ret in Hrun as (es & _ & [= <-]). done. }
  pose proof (leader_over s i rf Hinv Hi Hld) as Hov.
  destruct Hinv as [Gn Ge Gt Gtt Gb Gq Gr Ga Gs Gw Gd]. split; try done. cbn.
  intros l args' [?|Hin]%elem_of_app; [by apply Ga|]. apply list_elem_of_singleton in Hin. injection Hin as -> ->.
  rewrite Ht, Hl, Hme. split; [done|congruence].
Qed.

Lemma snap_send_inv i j s s' : inv s -> snap_send i j s = Some s' -> inv s'.
Proof.
  intros Hinv. unfold snap_send. destruct (nodes s !! i) as [rf|] eqn:Hi; [|done].
  destruct (rounds (repl s) !! i) as [rd|] eqn:Hrd; [|done].
  destruct (decide _) as [Hj|]; [|done]. pose proof (inv_rounds s Hinv i rd) as Hne.
  destruct (InstallSnapshotSender_send (rd_term rd) rf) as [args|] eqn:Hsend; intros [= <-];
    (apply inv_set_round; [|cbn; intros k Hk; apply Hne; [done|set_solver]]); [|done].
  destruct (inv_node s Hinv i rf Hi) as (Hme & _). specialize (Hne j Hrd ltac:(set_solver)).
  assert (is_Term args = currentTerm rf /\ is_LeaderId args = me rf /\ leaderId rf = me rf) as (Ht & Hl & Hld).
  { revert Hsend. unfold InstallSnapshotSender_send. case_cond; [done|]. zbool. by intros [= <-]. }
  pose proof (leader_over s i rf Hinv Hi Hld) as Hov.
  destruct Hinv as [Gn Ge Gt Gtt Gb Gq Gr Ga Gs Gw Gd]. split; try done. cbn.
  intros l args' [?|Hin]%elem_of_app; [by apply Gs|]. apply list_elem_of_singleton in Hin. injection Hin as -> ->.
  rewrite Ht, Hl, Hme. split; [done|congruence].
Qed.

Lemma append_inv k now r s s' : inv s -> append k now r s = Some s' -> inv s'.
Proof.
  intros Hinv. unfold append. destruct (aes s !! k) as [[j args]|] eqn:Hk; [|done].
  destruct (nodes s !! j) as [rf|] eqn:Hj; [|done].
  destruct (AppendEntries now r args rf) as [[rf' reply]|] eqn:Hrun; [|done]. intros [= <-].
  apply list_elem_of_lookup_2 in Hk. destruct (inv_aes s Hinv j args Hk).
  apply inv_repl; [|apply (inv_rounds s Hinv)]. eapply inv_follows; eauto. by eapply AppendEntries_follows.
Qed.

Lemma install_inv k now r s s' : inv s -> install k now r s = Some s' -> inv s'.
Proof.
  intros Hinv. unfold install. destruct (iss s !! k) as [[j args]|] eqn:Hk; [|done].
  destruct (nodes s !! j) as [rf|] eqn:Hj; [|done].
  destruct (InstallSnapshot now r args rf) as [[[rf' reply] g]|] eqn:Hrun; [|done]. intros [= <-].
  apply list_elem_of_lookup_2 in Hk. destruct (inv_iss s Hinv j args Hk).
  apply inv_repl; [|apply (inv_rounds s Hinv)]. eapply inv_follows; eauto. by eapply InstallSnapshot_follows.
Qed.

(** A quiet section of the peer [i]. *)
Lemma inv_section s i rf rf' x :
  inv s -> nodes s !! i = Some rf -> is_quiet x = true -> exec x rf = Ret rf' -> inv (with_node i rf' s).
Proof. intros Hinv Hi Hx Hrun. eapply inv_quiet; eauto. by eapply section_quiet. Qed.

Lemma append_recv_inv i j r s s' : inv s -> append_recv i j r s = Some s' -> inv s'.
Proof.
  intros Hinv. unfold append_recv. destruct (nodes s !! i) as [rf|] eqn:Hi; [|done].
  destruct (rounds (repl s) !! i) as [rd|] eqn:Hrd; [|done].
  destruct (rd_append_wait rd !! j) as [k|]; [|done]. destruct (aes s !! k) as [[l args]|]; [|done].
  destruct (answer _ _ k r) as [[ok reply]|]; [|done].
  destruct (appendRPCWorker_recv _ _ _ _ _ _ rf) as [[rf' count]|] eqn:Hrun; [|done]. intros [= <-].
  apply inv_set_round; [|intros l' Hl; by eapply inv_rounds].
  eapply (inv_section s i rf rf' (SAppendRecv j (rd_term rd) args ok reply (rd_count rd))); [done|done|done|].
  cbn. by rewrite Hrun.
Qed.

Lemma snap_recv_inv i j r s s' : inv s -> snap_recv i j r s = Some s' -> inv s'.
Proof.
  intros Hinv. unfold snap_recv. destruct (nodes s !! i) as [rf|] eqn:Hi; [|done].
  destruct (rounds (repl s) !! i) as [rd|] eqn:Hrd; [|done].
  destruct (rd_snap_wait rd !! j) as [k|]; [|done]. destruct (answer _ _ k r) as [[ok reply]|]; [|done].
  destruct (InstallSnapshotSender_recv j ok reply rf) as [rf'|] eqn:Hrun; [|done]. intros [= <-].
  apply inv_set_round; [|intros l' Hl; by eapply inv_rounds].
  by eapply (inv_section s i rf rf' (SSnapshotRecv j ok reply)).
Qed.

Lemma inv_delete_round s i : inv s -> inv (with_rounds (delete i (rounds (repl s))) s).
Proof.
  intros Hinv. apply inv_repl; [done|]. cbn. intros k rd j [_ Hk]%lookup_delete_Some. by eapply inv_rounds.
Qed.

Lemma round_finish_inv i s s' : inv s -> round_finish i s = Some s' -> inv s'.
Proof.
  intros Hinv. unfold round_finish. destruct (nodes s !! i) as [rf|] eqn:Hi; [|done].
  destruct (rounds (repl s) !! i) as [rd|]; [|done]. destruct (all_finished rf (rd_finished rd)); [|done].
  destruct (sendAERpcs_finish (rd_count rd) rf) as [rf'|] eqn:Hrun; [|done]. intros [= <-].
  apply (inv_delete_round (with_node i rf' s)). by eapply (inv_section s i rf rf' (SRoundFinish (rd_count rd))).
Qed.

Lemma apply_inv i behind s s' : inv s -> apply_committed i behind s = Some s' -> inv s'.
Proof.
  intros Hinv. unfold apply_committed. destruct (nodes s !! i) as [rf|] eqn:Hi; [|done].
  destruct (applyLogToRsm _ rf) as [rf'|] eqn:Hrun; [|done]. intros [= <-].
  by eapply (inv_section s i rf rf' (SApply (commitIndex rf - Z.of_nat behind))).
Qed.

Lemma local_inv i x s s' : inv s -> local i x s = Some s' -> inv s'.
Proof.
  intros Hinv. unfold local. destruct (nodes s !! i) as [rf|] eqn:Hi; [|done].
  destruct (is_local x) eqn:Hx; [|done]. destruct (exec x rf) as [rf'|] eqn:Hrun; [|done]. intros [= <-].
  eapply inv_section; eauto. by destruct x.
Qed.

Lemma crash_inv i now r s s' : inv s -> crash i now r s = Some s' -> inv s'.
Proof.
  intros Hinv. unfold crash. destruct (nodes s !! i) as [rf|] eqn:Hi; [|done]. intros [= <-].
  destruct (inv_node s Hinv i rf Hi) as (Hme & Hnp & _ & Hsync).
  destruct (vote_sync_Make (npeers rf) (me rf) now r rf Hsync) as (Hs' & Ht & Hv & Hl & Hme' & Hnp').
  refine (inv_delete_round (with_elections (delete i (elections s)) (with_node i _ s)) i _).
  refine (inv_quiet (with_elections (delete i (elections s)) s) i rf _ (inv_delete_election s i Hinv) Hi _).
  split; auto; lia.
Qed.

Lemma step_inv e s s' : inv s -> step e s = Some s' -> inv s'.
Proof.
  destruct e; cbn [step].
  - apply start_inv.
  - apply send_inv.
  - apply vote_inv.
  - apply recv_inv.
  - apply finish_inv.
  - apply round_inv.
  - apply append_send_inv.
  - apply append_inv.
  - apply append_recv_inv.
  - apply snap_send_inv.
  - apply install_inv.
  - apply snap_recv_inv.
  - apply round_finish_inv.
  - apply apply_inv.
  - apply local_inv.
  - apply crash_inv.
Qed.

Lemma init_node i (rf : Raft Cmd) :
  nodes (init n) !! i = Some rf -> is_peer i /\ rf = Make (Z.of_nat n) i MakePersister 0 0.
Proof.
  intros Hi%elem_of_list_to_map_2. apply list_elem_of_fmap in Hi as (j & [= -> ->] & Hj).
  apply list_elem_of_fmap in Hj as (k & -> & Hk%elem_of_seq). split; [unfold is_peer; lia|done].
Qed.

Lemma inv_init : inv (init n).
Proof.
  split; cbn; try done; try (intros *; by rewrite lookup_empty); try (intros; set_solver).
  intros i rf Hi. destruct (init_node i rf Hi) as [Hp ->]. split_and!; try done. by left.
Qed.

Lemma reachable_inv s : reachable n s -> inv s.
Proof.
  intros (es & Hrun). revert Hrun. generalize inv_init. generalize (init n : cluster Cmd).
  induction es as [|e es IH]; intros s0 H0; cbn [steps]; [by intros [= <-]|].
  destruct (step e s0) as [s1|] eqn:Hs; [|done]. apply IH. by eapply step_inv.
Qed.

(** Two majorities of the peers share a peer. *)
Lemma majorities_meet (X Y : gset Z) :
  (forall j, j ∈ X -> is_peer j) -> (forall j, j ∈ Y -> is_peer j) ->
  Z.quot (Z.of_nat n) 2 < Z.of_nat (size X) -> Z.quot (Z.of_nat n) 2 < Z.of_nat (size Y) ->
  exists j, j ∈ X /\ j ∈ Y.
Proof.
  intros HX HY HsX HsY. destruct (decide (X ∩ Y = ∅)) as [He|Hne].
  2: { apply set_choose_L in Hne as [j Hj]. exists j. set_solver. }
  exfalso. set (peers := (list_to_set (Z.of_nat <$> seq 0 n) : gset Z)).
  assert (X ∪ Y ⊆ peers) as Hsub.
  { intros j Hj. apply elem_of_list_to_set, list_elem_of_fmap. assert (is_peer j) as Hp by set_solver.
    exists (Z.to_nat j). unfold is_peer in Hp. rewrite elem_of_seq. lia. }
  apply subseteq_size in Hsub. rewrite size_union in Hsub by set_solver.
  assert (size peers = n) as Hn.
  { unfold peers. rewrite size_list_to_set; [by rewrite length_fmap, length_seq|].
    apply NoDup_fmap_2; [apply _|apply NoDup_seq]. }
  pose proof (Z.quot_rem' (Z.of_nat n) 2). pose proof (Z.rem_bound_pos (Z.of_nat n) 2 ltac:(lia) ltac:(lia)). lia.
Qed.

Lemma won_unique s T c c' : reachable n s -> (T, c) ∈ won s -> (T, c') ∈ won s -> c = c'.
Proof.
  intros Hinv%reachable_inv Hc Hc'.
  destruct (inv_won s Hinv T c Hc) as (X & HX & HsX), (inv_won s Hinv T c' Hc') as (Y & HY & HsY).
  destruct (majorities_meet X Y) as (j & HjX & HjY); [..|done|done|].
  - intros j Hj. by apply (inv_tally s Hinv T c X).
  - intros j Hj. by apply (inv_tally s Hinv T c' Y).
  - destruct (inv_tally s Hinv T c X j HX HjX), (inv_tally s Hinv T c' Y j HY HjY). congruence.
Qed.

End proofs.
End ClusterOk.
