(* ===== verification/ClusterSteps.v ===== *)
(** What one event of the cluster does to the peers and to the append requests,
    and the well-formedness that all events keep. *)
From S2P Require Import Prelude Labgob Persister RaftState Raft RaftLemmas RaftElection RaftLog RaftSnapshot RaftSteps.
From S2P Require Import Cluster ClusterProofs.
Import Labgob Persist RaftState RaftNode RaftOk RaftElection RaftLog RaftSnapshot RaftSteps Cluster ClusterOk.
Local Open Scope Z_scope.

Module ClusterSteps.

(** Takes a step apart: every test that it makes succeeded. *)
Ltac step_cases :=
  repeat match goal with
  | |- context [match ?x with _ => _ end] => destruct x eqn:?; try done
  | |- Some _ = Some _ -> _ => intros [= <-]
  end.

Section steps.
Context {Cmd : Type} `{!Gob (gval Cmd)}.
Implicit Types (rf : Raft Cmd) (s : cluster Cmd).

(** ** What an event does to the peers and the requests *)

(** The event [e] runs the section [x] on the peer [i]. *)
Definition runs s (e : event (Cmd := Cmd)) (i : Z) (x : section (Cmd := Cmd)) : Prop :=
  match e, x with
  | EStart i' _ _, SElectionBegin => i' = i
  | EVote k now r, SRequestVote now' r' args => now' = now /\ r' = r /\ reqs s !! k = Some (i, args)
  | ERecv i' j k, SElectionRecv term ok reply votes =>
      i' = i /\ exists el, elections s !! i = Some el /\ term = el_term el /\ votes = voteCount el /\
        j ∈ pending el /\ reply_for i j (el_term el) k s = Some (ok, reply)
  | EFinish i' _ _, SElectionFinish _ _ votes => i' = i /\ exists el, elections s !! i = Some el /\ votes = voteCount el
  | EAppend k now r, SAppendEntries now' r' args => now' = now /\ r' = r /\ aes s !! k = Some (i, args)
  | EAppendRecv i' j r, SAppendRecv index term args ok reply count =>
      i' = i /\ index = j /\ exists rd k l, rounds (repl s) !! i = Some rd /\ rd_append_wait rd !! j = Some k /\
        aes s !! k = Some (l, args) /\ answer (mkAEReply 0 false) (aers (repl s)) k r = Some (ok, reply) /\
        term = rd_term rd /\ count = rd_count rd
  | EInstall k _ _, SInstallSnapshot _ _ args => iss s !! k = Some (i, args)
  | ESnapRecv i' j r, SSnapshotRecv index ok reply =>
      i' = i /\ index = j /\ exists rd k, rounds (repl s) !! i = Some rd /\ rd_snap_wait rd !! j = Some k /\
        answer (mkISReply 0) (isrs (repl s)) k r = Some (ok, reply)
  | ERoundFinish i', SRoundFinish count => i' = i /\ exists rd, rounds (repl s) !! i = Some rd /\ count = rd_count rd
  | EApply i' behind, SApply index => i' = i /\ exists rf, nodes s !! i = Some rf /\ index = commitIndex rf - Z.of_nat behind
  | ELocal i' y, _ => i' = i /\ y = x /\ is_local x = true
  | _, _ => False
  end.

Definition is_install_event (e : event (Cmd := Cmd)) : bool := match e with EInstall _ _ _ => true | _ => false end.

Inductive moves (e : event (Cmd := Cmd)) s s' : Prop :=
| moves_none : nodes s' = nodes s -> aes s' = aes s -> moves e s s'
| moves_exec i rf rf' x :
    nodes s !! i = Some rf -> exec x rf = Ret rf' -> runs s e i x ->
    nodes s' = <[i := rf']> (nodes s) -> aes s' = aes s -> moves e s s'
| moves_crash i rf now r :
    e = ECrash i now r ->
    nodes s !! i = Some rf -> nodes s' = <[i := Make (npeers rf) (me rf) (Copy (persister rf)) now r]> (nodes s) ->
    aes s' = aes s -> moves e s s'
| moves_send i j rf term args :
    e = EAppendSend i j ->
    nodes s !! i = Some rf -> appendRPCWorker_send j term rf = Ret (Some args) ->
    nodes s' = nodes s -> aes s' = aes s ++ [(j, args)] -> moves e s s'.

(** Where the inputs of a section come from. *)
Definition origin s (i : Z) (x : section (Cmd := Cmd)) : Prop :=
  match x with
  | SAppendEntries _ _ args => (i, args) ∈ aes s
  | SElectionFinish _ _ _ => is_Some (elections s !! i)
  | SInstallSnapshot _ _ args => (i, args) ∈ iss s
  | _ => True
  end.

Lemma runs_origin s e i x : runs s e i x -> origin s i x.
Proof.
  destruct x; try done; destruct e; cbn; try done; try (by intros (_ & -> & ?));
    first [by intros (_ & el & -> & _); eexists | by intros (_ & _ & ?); eapply list_elem_of_lookup_2
      | by apply list_elem_of_lookup_2].
Qed.

Lemma runs_install s e i x : runs s e i x -> is_install x -> is_install_event e = true.
Proof. destruct x; try done; destruct e; cbn; try done. by intros (_ & -> & ?). Qed.

(** Elections go on in their terms, or start in a new one. *)
Definition terms_go_on s s' : Prop :=
  forall i el', elections s' !! i = Some el' ->
    (exists el, elections s !! i = Some el /\ el_term el = el_term el') \/
    (exists rf, nodes s !! i = Some rf /\ el_term el' = currentTerm rf + 1).

Lemma terms_same s s' : elections s' = elections s -> terms_go_on s s'.
Proof. intros He i el'. rewrite He. left. by exists el'. Qed.

Lemma terms_delete s s' i : elections s' = delete i (elections s) -> terms_go_on s s'.
Proof. intros He j el'. rewrite He. intros [_ Hj]%lookup_delete_Some. left. by exists el'. Qed.

Lemma terms_insert s s' i el el1 :
  elections s' = <[i := el1]> (elections s) -> elections s !! i = Some el -> el_term el1 = el_term el -> terms_go_on s s'.
Proof.
  intros He Hi Ht j el'. rewrite He. destruct (decide (j = i)) as [->|].
  - rewrite lookup_insert_eq. intros [= <-]. left. by exists el.
  - rewrite lookup_insert_ne by done. left. by exists el'.
Qed.

(** Evaluates a section with the results of these tests. *)
Ltac step_exec := cbn [exec]; repeat match goal with H : ?x = _ |- context [?x] => rewrite H end; done.

Ltac solve_move :=
  first [done | step_exec | cbn [runs]; repeat first [done | split | eexists]].

Lemma step_moves e s s' : step e s = Some s' -> moves e s s' /\ terms_go_on s s'.
Proof.
  destruct e; cbn [step].
  - unfold start. step_cases. split.
    + match goal with H : startElection_begin ?rf = (?rf', _, _) |- _ =>
        apply (moves_exec _ _ _ i rf rf' SElectionBegin); solve_move end.
    + intros j el'. cbn. destruct (decide (j = i)) as [->|].
      * rewrite lookup_insert_eq. intros [= <-]. right. exists r. split; [done|].
        match goal with H : startElection_begin _ = _ |- _ => unfold startElection_begin in H; by injection H as _ <- _ end.
      * rewrite lookup_insert_ne by done. left. by exists el'.
  - unfold send. step_cases; split; try (by apply moves_none); by eapply terms_insert.
  - unfold vote. step_cases; (split; [|by apply terms_same]);
      match goal with H : RequestVote _ _ ?args ?rf = Ret (?rf', _) |- _ =>
        eapply (moves_exec _ _ _ _ rf rf' (SRequestVote now r args)); solve_move end.
  - unfold recv. step_cases; (split; [|by eapply terms_insert]);
      match goal with H : electionSender_recv ?t ?ok ?reply ?v ?rf = (?rf', _) |- _ =>
        eapply (moves_exec _ _ _ _ rf rf' (SElectionRecv t ok reply v)); solve_move end.
  - unfold finish. step_cases; (split; [|by eapply terms_delete]);
      match goal with H : elections s !! i = Some ?el, H' : nodes s !! i = Some ?rf |- _ =>
        eapply (moves_exec _ _ _ i rf _ (SElectionFinish now r (voteCount el))); solve_move end.
  - unfold round. step_cases. split; [by apply moves_none|by apply terms_same].
  - unfold append_send. step_cases; (split; [|by apply terms_same]); [|by apply moves_none].
    by eapply (moves_send _ _ _ i j).
  - unfold append. step_cases. split; [|by apply terms_same].
    match goal with H : AppendEntries _ _ ?args ?rf = Ret (?rf', _), H' : aes s !! k = Some (?j, _) |- _ =>
      eapply (moves_exec _ _ _ j rf rf' (SAppendEntries now r args)); solve_move end.
  - unfold append_recv. step_cases. split; [|by apply terms_same].
    match goal with H : appendRPCWorker_recv ?j ?t ?args ?ok ?reply ?c ?rf = Ret (?rf', _) |- _ =>
      eapply (moves_exec _ _ _ i rf rf' (SAppendRecv j t args ok reply c)); solve_move end.
  - unfold snap_send. step_cases; split; by (apply moves_none || apply terms_same).
  - unfold install. step_cases. split; [|by apply terms_same].
    match goal with H : InstallSnapshot _ _ ?args ?rf = Ret (?rf', _, _), H' : iss s !! k = Some (?j, _) |- _ =>
      eapply (moves_exec _ _ _ j rf rf' (SInstallSnapshot now r args)); solve_move end.
  - unfold snap_recv. step_cases. split; [|by apply terms_same].
    match goal with H : InstallSnapshotSender_recv ?j ?ok ?reply ?rf = Ret ?rf' |- _ =>
      eapply (moves_exec _ _ _ i rf rf' (SSnapshotRecv j ok reply)); solve_move end.
  - unfold round_finish. step_cases. split; [|by apply terms_same].
    match goal with H : sendAERpcs_finish ?c ?rf = Ret ?rf' |- _ =>
      eapply (moves_exec _ _ _ i rf rf' (SRoundFinish c)); solve_move end.
  - unfold apply_committed. step_cases. split; [|by apply terms_same].
    match goal with H : applyLogToRsm ?k ?rf = Ret ?rf' |- _ =>
      eapply (moves_exec _ _ _ i rf rf' (SApply k)); solve_move end.
  - unfold local. step_cases. split; [|by apply terms_same].
    match goal with H : exec ?x ?rf = Ret ?rf' |- _ =>
      eapply (moves_exec _ _ _ i rf rf' x); solve_move end.
  - unfold crash. step_cases. split; [by eapply moves_crash|by eapply terms_delete].
Qed.

(** ** Well-formed peers, across crashes *)

(** The disk is empty or holds the image of a state with a legal snapshot
    position. *)
Definition image_ok rf : Prop :=
  raftstate (persister rf) = [] \/
  exists rf0, raftstate (persister rf) = encode_state rf0 /\ -1 <= lastAppliedIndex rf0.

Lemma image_ok_saves rf rf' : saves rf rf' -> -1 <= lastAppliedIndex rf' -> image_ok rf -> image_ok rf'.
Proof.
  intros [Hs|[_ Hp]] Hl; [intros _; right; by exists rf'|]. unfold image_ok. by rewrite Hp.
Qed.

Lemma exec_image_ok x rf rf' : peer_ok rf -> exec x rf = Ret rf' -> image_ok rf -> image_ok rf'.
Proof.
  intros Hok Hx. pose proof (ok_lai _ (exec_peer_ok x rf rf' Hok Hx)) as Hl'.
  assert (is_install x \/ ~ is_install x) as [Hi|Hni] by (destruct x; cbn; auto).
  2: { apply image_ok_saves; [by eapply exec_saves|done]. }
  destruct x; try done. revert Hx. cbn [exec]. rewrite InstallSnapshot_eq. cbn [rmap].
  intros [= <-]. case_cond; [done|]. cbn [fst].
  set (rf1 := adopt_leader (is_Term args) (is_LeaderId args) rf).
  intros Him. assert (image_ok rf1) as Him1.
  { apply (image_ok_saves rf rf1); [apply saves_adopt_leader| |done].
    pose proof (adopt_leader_log (is_Term args) (is_LeaderId args) rf) as Hlog. unfold log_part in Hlog.
    injection Hlog as _ _ _ Hl1 _ _ _ _ _ _ _. unfold rf1. rewrite Hl1. apply Hok. }
  unfold image_ok in *. unfold cover. by repeat case_cond.
Qed.

Definition peers_ok s : Prop := forall i rf, nodes s !! i = Some rf -> peer_ok rf /\ image_ok rf.

Lemma peer_restart_ok rf now r :
  peer_ok rf -> image_ok rf -> let rf' := Make (npeers rf) (me rf) (Copy (persister rf)) now r in peer_ok rf' /\ image_ok rf'.
Proof.
  intros Hok [Hp|(rf0 & Hp & Hl)]; cbv zeta.
  - assert (Make (npeers rf) (me rf) (Copy (persister rf)) now r =
      set_persister (Copy (persister rf)) (Make (npeers rf) (me rf) MakePersister now r)) as ->
      by (unfold Make, ReadRaftState; cbn; rewrite !copied_id, Hp; done).
    split; [|by left]. destruct (peer_ok_Make_fresh (npeers rf) (me rf) now r (ok_me _ Hok)). by split.
  - split; [by apply (peer_ok_Make _ _ _ _ _ rf0), Hok|].
    destruct (Make_eq (npeers rf) (me rf) (Copy (persister rf)) now r rf0 Hp) as (_ & Hps & _).
    right. exists rf0. by rewrite Hps.
Qed.

Lemma peers_ok_insert s s' i rf :
  peers_ok s -> nodes s' = <[i := rf]> (nodes s) -> peer_ok rf /\ image_ok rf -> peers_ok s'.
Proof.
  intros Hs Hn Hrf j rfj. rewrite Hn. destruct (decide (j = i)) as [->|].
  - rewrite lookup_insert_eq. by intros [= <-].
  - rewrite lookup_insert_ne by done. apply Hs.
Qed.

Lemma step_peers_ok e s s' : peers_ok s -> step e s = Some s' -> peers_ok s'.
Proof.
  intros Hs Hstep. destruct (proj1 (step_moves e s s' Hstep))
    as [Hn _|i rf rf' x Hi Hx _ Hn _|i rf now r _ Hi Hn _|i j rf term args _ Hi _ Hn _].
  - unfold peers_ok. by rewrite Hn.
  - destruct (Hs i rf Hi). eapply peers_ok_insert; [done|done|].
    split; [by eapply exec_peer_ok|by eapply exec_image_ok].
  - destruct (Hs i rf Hi). eapply peers_ok_insert; [done|done|]. by apply peer_restart_ok.
  - unfold peers_ok. by rewrite Hn.
Qed.

Lemma reachable_peers_ok n s : reachable n s -> peers_ok s.
Proof.
  assert (peers_ok (init n)) as Hinit.
  { intros i rf Hi. destruct (init_node n i rf Hi) as [Hp ->]. split; [by apply peer_ok_Make_fresh|by left]. }
  intros (es & Hrun). revert Hinit Hrun. generalize (init n : cluster Cmd).
  induction es as [|e es IH]; intros s0 H0; cbn [steps]; [by intros [= <-]|].
  destruct (step e s0) as [s1|] eqn:Hs; [|done]. apply IH. by eapply step_peers_ok.
Qed.

(** C22. Every peer of a reachable cluster is well-formed, after any messages,
    snapshots, crashes and restarts: it has its own number, one slot per peer
    in [nextIndex] and [matchIndex], a snapshot position of at least -1, and a
    disk that is empty or decodes to such a state; so its sections, those that
    only prepare a message included, panic only in the situations that
    [may_panic] lists. *)
Theorem cluster_well_formed n s i rf :
  reachable n s -> nodes s !! i = Some rf ->
  0 <= i < Z.of_nat n /\ me rf = i /\ npeers rf = Z.of_nat n /\
  len (nextIndex rf) = Z.of_nat n /\ len (matchIndex rf) = Z.of_nat n /\ -1 <= lastAppliedIndex rf /\
  (raftstate (persister rf) = [] \/
   exists rf0, raftstate (persister rf) = encode_state rf0 /\ -1 <= lastAppliedIndex rf0) /\
  forall x, inputs_ok x rf -> exec x rf = Panic -> may_panic x rf.
Proof.
  intros Hr Hi. destruct (reachable_peers_ok n s Hr i rf Hi) as [Hok Him].
  destruct (inv_node n s (reachable_inv n s Hr) i rf Hi) as (Hme & Hnp & Hp & _).
  split; [done|]. split; [done|]. split; [done|]. rewrite <- Hnp.
  split; [apply Hok|]. split; [apply Hok|]. split; [apply Hok|]. split; [done|]. intros x. by apply exec_panics.
Qed.

End steps.

Module Witness.

#[local] Instance Z_Gob : Gob (gval Z) := countable_Gob (gval Z).

(** Peer 0 starts an election and crashes. *)
Definition trace : list (event (Cmd := Z)) := [EStart 0 2000000000 false; ESend 0 1; ECrash 0 3000000000 7].

Lemma crash_trace_end : match steps trace (init 3) with Some s => bool_decide (is_Some (nodes s !! 0)) | None => false end = true.
Proof. vm_compute. reflexivity. Qed.

Lemma cluster_well_formed_witness : exists (s : cluster Z) rf,
  steps trace (init 3) = Some s /\ nodes s !! 0 = Some rf /\ me rf = 0 /\
  forall now r args, exec (SRequestVote now r args) rf <> Panic.
Proof.
  pose proof crash_trace_end as Hend. destruct (steps trace (init 3)) as [s|] eqn:Hs; [|discriminate Hend].
  apply bool_decide_eq_true in Hend as [rf Hrf].
  destruct (cluster_well_formed 3 s 0 rf (ex_intro _ trace Hs) Hrf) as (_ & Hme & _ & _ & _ & _ & _ & Hpanic).
  exists s, rf. split; [reflexivity|]. split; [exact Hrf|]. split; [exact Hme|].
  intros now r args Hp. exact (Hpanic (SRequestVote now r args) I Hp).
Defined.

End Witness.
End ClusterSteps.
