(* ===== verification/ElectionSpec.v ===== *)
(** Elections across the cluster: what the voting protocol of raft/raft.go
    guarantees, and what it does not. *)
From S2P Require Import Prelude Labgob Persister RaftState Raft RaftSteps Cluster ClusterProofs.
Import Labgob Persist RaftState RaftNode RaftSteps Cluster ClusterOk.
Local Open Scope Z_scope.

Module ElectionSpec.
Section properties.
Context {Cmd : Type} `{!Gob (gval Cmd)}.

(** C26. In every execution of the cluster - with messages lost, delayed,
    reordered or handled twice, and with crashes and restarts - at most one
    candidate of a term leaves its [startElection] with the votes of a
    majority. *)
Theorem one_majority_per_term n (s : cluster Cmd) term c c' :
  reachable n s -> (term, c) ∈ won s -> (term, c') ∈ won s -> c = c'.
Proof. apply won_unique. Qed.

(** A vote survives a crash: whenever a peer gave a vote (to itself or to a
    candidate) in some term, its term is at least that term from then on, also
    after restarts, and while it is in that term its vote is taken; it is
    still for the same candidate unless it follows another peer whose
    election of the term is over. *)
Theorem vote_survives n (s : cluster Cmd) j rf term c :
  reachable n s -> nodes s !! j = Some rf -> ballots s !! (j, term) = Some c ->
  term <= currentTerm rf /\
  (currentTerm rf = term ->
   voteFor rf <> -1 /\
   (voteFor rf = c \/
    exists l, nodes s !! voteFor rf = Some l /\ term <= currentTerm l /\
      forall el, elections s !! voteFor rf = Some el -> el_term el <> term)).
Proof.
  intros Hr Hj Hb. apply reachable_inv in Hr. destruct (inv_ballot n s Hr j rf term c Hj Hb) as [Hle Hv].
  split; [done|]. intros <-. by apply Hv.
Qed.

End properties.

(** ** A run of three peers *)

Module Run.

#[local] Instance Z_Gob : Gob (gval Z) := countable_Gob (gval Z).

Definition sec : Z := 1000000000.

(** Peer 2 fails to reach anyone in term 1.  Then peer 0 asks for votes in term
    1, gets the one of peer 1 and waits for peer 2, which starts an election
    in term 2 instead and wins it with the votes of both others.  When the
    request of peer 0 to peer 2 times out, peer 0 counts its two votes. *)
Definition trace : list (event (Cmd := Z)) :=
  [EStart 2 (2 * sec) false; ESend 2 0; ESend 2 1; ERecv 2 0 None; ERecv 2 1 None; EFinish 2 (2 * sec) 0;
   EStart 0 (3 * sec) false; ESend 0 1; ESend 0 2; EVote 2 (3 * sec) 500; ERecv 0 1 (Some 0%nat);
   EStart 2 (3 * sec) false; ESend 2 0; ESend 2 1; EVote 4 (3 * sec) 500; EVote 5 (3 * sec) 500;
   ERecv 2 0 (Some 1%nat); ERecv 2 1 (Some 2%nat); EFinish 2 (3 * sec) 0;
   ERecv 0 2 None; EFinish 0 (3 * sec) 0].

Lemma trace_runs : match steps trace (init 3) with Some _ => true | None => false end = true.
Proof. vm_compute. reflexivity. Qed.

(** The winner of an election is not checked against its current term: a
    reachable state has two leaders of the same term. *)
Theorem two_leaders_in_one_term :
  exists s : cluster Z, reachable 3 s /\ is_leader s 0 2 /\ is_leader s 2 2.
Proof.
  destruct (steps trace (init 3)) as [s|] eqn:Hrun.
  2: { pose proof trace_runs as Hok. rewrite Hrun in Hok. discriminate Hok. }
  exists s. split; [exists trace; exact Hrun|].
  assert ((fun s => (GetState <$> nodes s !! 0, GetState <$> nodes s !! 2)) <$> steps trace (init 3) =
          Some (Some (2, true), Some (2, true))) as Hleaders by (vm_compute; reflexivity).
  rewrite Hrun in Hleaders. cbn in Hleaders. injection Hleaders as H0 H2.
  apply fmap_Some in H0 as (rf0 & ? & Hg0), H2 as (rf2 & ? & Hg2).
  split; [exists rf0; split; [assumption|exact (eq_sym Hg0)]|exists rf2; split; [assumption|exact (eq_sym Hg2)]].
Qed.

(** The two leaders go on: each appends a command at index 1, replicates it to
    peer 1, which takes the second for a correction of the first, and commits
    and applies it. *)
Definition divergence : list (event (Cmd := Z)) :=
  trace ++
  [ELocal 2 (SStart (Some 7)); ERound 2 (4 * sec); EAppendSend 2 1; EAppendSend 2 0;
   EAppend 0 (4 * sec) 500; EAppendRecv 2 1 (Some 0%nat); EAppendRecv 2 0 None; ERoundFinish 2; EApply 2 0;
   ELocal 0 (SStart (Some 8)); ERound 0 (4 * sec); EAppendSend 0 1; EAppendSend 0 2;
   EAppend 2 (4 * sec) 500; EAppendRecv 0 1 (Some 1%nat); EAppendRecv 0 2 None; ERoundFinish 0; EApply 0 0].

(** What the service of peer [i], never restarted, reads from [applyCh]. *)
Definition applied (i : Z) rf : list (ApplyMsg Z) :=
  ApplyMsgSender (Make (Cmd := Z) 3 i MakePersister 0 0) (sender rf).

(** State machine safety fails: without any crash, two peers reach states
    in which their services were told different commands for one index. *)
Theorem services_diverge :
  exists (s : cluster Z) rf0 rf2 m0 m2, reachable 3 s /\ nodes s !! 0 = Some rf0 /\ nodes s !! 2 = Some rf2 /\
    m0 ∈ applied 0 rf0 /\ m2 ∈ applied 2 rf2 /\ CommandValid m0 = true /\ CommandValid m2 = true /\
    CommandIndex m0 = CommandIndex m2 /\ am_Command m0 <> am_Command m2.
Proof.
  set (msg v := mkApplyMsg (Cmd := Z) true (Some v) 1 false [] 0 0).
  assert ((fun s => (lookup 1%nat ∘ applied 0 <$> nodes s !! 0, lookup 1%nat ∘ applied 2 <$> nodes s !! 2)) <$>
            steps divergence (init 3) = Some (Some (Some (msg 8)), Some (Some (msg 7)))) as Hmsgs
    by (vm_compute; reflexivity).
  apply fmap_Some in Hmsgs as (s & Hrun & Hm). apply pair_eq in Hm as [H0 H2].
  symmetry in H0, H2. apply fmap_Some in H0 as (rf0 & Hrf0 & H0), H2 as (rf2 & Hrf2 & H2).
  symmetry in H0, H2. apply list_elem_of_lookup_2 in H0, H2.
  exists s, rf0, rf2, (msg 8), (msg 7). split_and!; [|exact Hrf0|exact Hrf2|exact H0|exact H2|done..].
  exists divergence. exact Hrun.
Qed.

(** The winners that the run records. *)
Lemma trace_won : (fun s : cluster Z => won s) <$> steps trace (init 3) = Some [(2, 2); (1, 0)].
Proof. vm_compute. reflexivity. Qed.

Lemma one_majority_per_term_witness : exists s : cluster Z,
  steps trace (init 3) = Some s /\ (2, 2) ∈ won s /\ forall c, (2, c) ∈ won s -> c = 2.
Proof.
  destruct (steps trace (init 3)) as [s|] eqn:Hrun.
  2: { pose proof trace_runs as Hok. rewrite Hrun in Hok. discriminate Hok. }
  assert ((2, 2) ∈ won s) as Hw.
  { pose proof trace_won as Ht. rewrite Hrun in Ht. cbn in Ht. injection Ht as ->. left. }
  exists s. split; [reflexivity|]. split; [exact Hw|]. intros c Hc.
  apply (one_majority_per_term 3 s 2 c 2); [exists trace; exact Hrun|exact Hc|exact Hw].
Defined.

Lemma vote_survives_witness : exists (s : cluster Z) rf,
  steps trace (init 3) = Some s /\ nodes s !! 1 = Some rf /\ 1 <= currentTerm rf.
Proof.
  destruct (steps trace (init 3)) as [s|] eqn:Hrun.
  2: { pose proof trace_runs as Hok. rewrite Hrun in Hok. discriminate Hok. }
  assert ((fun s => bool_decide (is_Some (nodes s !! 1) /\ ballots s !! (1, 1) = Some 0)) <$>
            steps trace (init 3) = Some true) as Hb by (vm_compute; reflexivity).
  rewrite Hrun in Hb. cbn in Hb. injection Hb as Hb. apply bool_decide_eq_true in Hb as [[rf Hrf] Hb].
  exists s, rf. split; [reflexivity|]. split; [exact Hrf|].
  apply (vote_survives 3 s 1 rf 1 0); [exists trace; exact Hrun|exact Hrf|exact Hb].
Defined.

End Run.
End ElectionSpec.
