(* ===== verification/LogMatching.v ===== *)
(** Log matching across the cluster, as long as no term has two leaders: logs
    that agree on the term of one entry agree on everything before it. *)
From S2P Require Import Prelude Labgob Persister RaftState Raft RaftLemmas RaftElection RaftLog RaftSnapshot RaftSteps.
From S2P Require Import Cluster ClusterProofs ClusterSteps.
Import Labgob Persist RaftState RaftNode RaftOk RaftElection RaftLog RaftSnapshot RaftSteps.
Import Cluster ClusterOk ClusterSteps.
Local Open Scope Z_scope.

Module LogMatching.
Section matching.
Context {Cmd : Type} `{!Gob (gval Cmd)}.
Implicit Types (rf : Raft Cmd) (s : cluster Cmd) (l : list (Entry Cmd)).

(** ** Chains of entries *)

(** The entries that leaders created, by term and index, each with the term of
    the entry before it. *)
#[local] Abbreviation history := (gmap (Z * Z) (Entry Cmd * Z)).
Implicit Types c : history.

(** The entries of [l], which follow index [b] and term [t], were created as
    they stand. *)
Fixpoint chain c (b t : Z) l : Prop :=
  match l with
  | [] => True
  | e :: l => c !! (Term e, b + 1) = Some (e, t) /\ chain c (b + 1) (Term e) l
  end.

Definition end_term (t : Z) l : Z := match last l with Some e => Term e | None => t end.

(** The entries of the log were created one after the other.  [straight]: the
    first one was appended to the last entry of the snapshot; a snapshot may
    have been installed below entries that follow another one. *)
Definition logged c rf : Prop := exists t, chain c (lastAppliedIndex rf) t (Log rf).
Definition straight c rf : Prop := chain c (lastAppliedIndex rf) (lastAppliedTerm rf) (Log rf).

Lemma straight_logged c rf : straight c rf -> logged c rf.
Proof. intros ?. by eexists. Qed.

Lemma end_term_some t t' l : l <> [] -> end_term t l = end_term t' l.
Proof. unfold end_term. intros Hl. destruct (last l) eqn:He; [done|]. by apply last_None in He. Qed.

Lemma end_term_cons t e l : end_term t (e :: l) = end_term (Term e) l.
Proof. unfold end_term. rewrite last_cons. by destruct (last l). Qed.

Lemma chain_app c b t l1 l2 :
  chain c b t (l1 ++ l2) <-> chain c b t l1 /\ chain c (b + len l1) (end_term t l1) l2.
Proof.
  revert b t. induction l1 as [|e l1 IH]; intros b t.
  - cbn. unfold len. cbn. rewrite Z.add_0_r. tauto.
  - cbn [app chain]. rewrite IH, end_term_cons.
    replace (b + len (e :: l1)) with (b + 1 + len l1) by (unfold len; cbn; lia). tauto.
Qed.

Lemma chain_mono c c' b t l : c ⊆ c' -> chain c b t l -> chain c' b t l.
Proof.
  intros Hc. revert b t. induction l as [|e l IH]; intros b t; [done|]. cbn. intros [He Hl].
  split; [by eapply lookup_weaken|by apply IH].
Qed.

(** The term at a position of the log. *)
Lemma term_at_prefix rf (m : nat) :
  (m <= length (Log rf))%nat ->
  term_at rf (lastAppliedIndex rf + Z.of_nat m) = Some (end_term (lastAppliedTerm rf) (take m (Log rf))).
Proof.
  intros Hm. unfold term_at, entry_at. destruct m as [|m].
  - rewrite Z.add_0_r, Z.eqb_refl. done.
  - destruct (Z.eqb_spec (lastAppliedIndex rf + Z.of_nat (S m)) (lastAppliedIndex rf)); [lia|].
    destruct (Z.gtb_spec (lastAppliedIndex rf + Z.of_nat (S m)) (lastAppliedIndex rf)); [|lia].
    destruct (lookup_lt_is_Some_2 (Log rf) m) as [e He]; [lia|].
    replace (Z.to_nat _) with m by lia. rewrite He, (take_S_r _ _ _ He). unfold end_term. by rewrite last_snoc.
Qed.

Lemma logged_entry c rf i e :
  logged c rf -> entry_at rf i = Some e ->
  exists p, (lastAppliedIndex rf < i - 1 -> term_at rf (i - 1) = Some p) /\ c !! (Term e, i) = Some (e, p).
Proof.
  unfold logged, entry_at. intros [t Hc]. destruct (Z.gtb_spec i (lastAppliedIndex rf)) as [Hi|]; [|done].
  set (m := Z.to_nat (i - lastAppliedIndex rf - 1)). intros He. pose proof (lookup_lt_Some _ _ _ He) as Hm.
  rewrite <- (take_drop_middle _ _ _ He), chain_app in Hc. destruct Hc as [_ [Hc _]].
  exists (end_term t (take m (Log rf))). split.
  - intros Hlt. replace (i - 1) with (lastAppliedIndex rf + Z.of_nat m) by lia. rewrite term_at_prefix by lia.
    f_equal. apply end_term_some. intros Hn. apply (f_equal length) in Hn. rewrite length_take in Hn. cbn in Hn. lia.
  - rewrite <- Hc. do 2 f_equal. unfold len. rewrite length_take. lia.
Qed.

(** Two logs that share a history agree below an entry of equal term. *)
Lemma logged_agree c rf rf' k e e' :
  logged c rf -> logged c rf' -> entry_at rf k = Some e -> entry_at rf' k = Some e' -> Term e = Term e' ->
  forall m x x', m <= k -> entry_at rf m = Some x -> entry_at rf' m = Some x' -> x = x'.
Proof.
  intros Hc Hc' He He' Ht m x x' Hm. remember (Z.to_nat (k - m)) as d eqn:Hd.
  revert k e e' He He' Ht Hm Hd. induction d as [|d IH]; intros k e e' He He' Ht Hm Hd Hx Hx'.
  - assert (k = m) as -> by lia. destruct (logged_entry c rf m e Hc He) as (p & _ & H1).
    destruct (logged_entry c rf' m e' Hc' He') as (p' & _ & H2). congruence.
  - destruct (logged_entry c rf k e Hc He) as (p & Hp & H1).
    destruct (logged_entry c rf' k e' Hc' He') as (p' & Hp' & H2).
    assert (p' = p) as -> by congruence.
    assert (lastAppliedIndex rf < m /\ lastAppliedIndex rf' < m) as [Hl Hl'].
    { unfold entry_at in Hx, Hx'. destruct (Z.gtb_spec m (lastAppliedIndex rf)); [|done].
      destruct (Z.gtb_spec m (lastAppliedIndex rf')); [|done]. lia. }
    specialize (Hp ltac:(lia)). specialize (Hp' ltac:(lia)).
    unfold term_at in Hp, Hp'. destruct (Z.eqb_spec (k - 1) (lastAppliedIndex rf)); [lia|].
    destruct (Z.eqb_spec (k - 1) (lastAppliedIndex rf')); [lia|].
    apply fmap_Some in Hp as (e1 & He1 & ->), Hp' as (e2 & He2 & Ht2).
    eapply (IH (k - 1) e1 e2); eauto; lia.
Qed.

(** ** What sections do to the log *)

(** The log is kept, up to a prefix that goes into the snapshot. *)
Definition trims rf rf' : Prop :=
  exists m, (m <= length (Log rf))%nat /\ Log rf' = drop m (Log rf) /\
    lastAppliedIndex rf' = lastAppliedIndex rf + Z.of_nat m /\
    lastAppliedTerm rf' = end_term (lastAppliedTerm rf) (take m (Log rf)).

Lemma trims_same rf rf' :
  Log rf' = Log rf -> lastAppliedIndex rf' = lastAppliedIndex rf -> lastAppliedTerm rf' = lastAppliedTerm rf ->
  trims rf rf'.
Proof. intros Hl Hi Ht. exists 0%nat. split_and!; [lia|done|lia|done]. Qed.

Lemma drop_logged c rf rf' (m : nat) :
  (m <= length (Log rf))%nat -> Log rf' = drop m (Log rf) -> lastAppliedIndex rf' = lastAppliedIndex rf + Z.of_nat m ->
  logged c rf -> logged c rf'.
Proof.
  intros Hm Hl Hi [t Hc]. exists (end_term t (take m (Log rf))). rewrite <- (take_drop m (Log rf)), chain_app in Hc.
  destruct Hc as [_ Hc]. unfold len in Hc. rewrite length_take, Nat.min_l in Hc by done. by rewrite Hl, Hi.
Qed.

Lemma trims_logged c rf rf' : trims rf rf' -> logged c rf -> logged c rf'.
Proof. intros (m & Hm & Hl & Hi & _). by apply drop_logged with m. Qed.

Lemma trims_straight c rf rf' : trims rf rf' -> straight c rf -> straight c rf'.
Proof.
  intros (m & Hm & Hl & Hi & Ht) Hc. unfold straight in *. rewrite <- (take_drop m (Log rf)), chain_app in Hc.
  destruct Hc as [_ Hc]. unfold len in Hc. rewrite length_take, Nat.min_l in Hc by done. by rewrite Hl, Hi, Ht.
Qed.

Lemma trims_last rf rf' : trims rf rf' -> last_index rf' = last_index rf.
Proof. intros (m & Hm & Hl & Hi & _). unfold last_index, len. rewrite Hl, Hi, length_drop. lia. Qed.

Lemma trims_refl rf : trims rf rf.
Proof. by apply trims_same. Qed.

Lemma trims_snapshotted index t snap rf :
  lastAppliedIndex rf <= index <= last_index rf -> term_at rf index = Some t -> trims rf (snapshotted index t snap rf).
Proof.
  unfold last_index, len. intros Hi Ht. exists (Z.to_nat (index - lastAppliedIndex rf)). cbn.
  split_and!; [lia|done|lia|]. enough (Some t = Some (end_term (lastAppliedTerm rf)
    (take (Z.to_nat (index - lastAppliedIndex rf)) (Log rf)))) as [= ->] by done.
  rewrite <- Ht, <- term_at_prefix by lia. f_equal. lia.
Qed.

Lemma trims_durable rf rf' : durable rf' = durable rf -> trims rf rf'.
Proof. unfold durable. intros [= _ _ Hl Hi Ht]. by apply trims_same. Qed.

(** The sections that write entries, or may throw some away. *)
Definition writes (x : section (Cmd := Cmd)) : Prop :=
  match x with SStart _ | SAppendEntries _ _ _ | SInstallSnapshot _ _ _ => True | _ => False end.

Lemma exec_trims x rf rf' : ~ writes x -> exec x rf = Ret rf' -> trims rf rf'.
Proof.
  intros Hw. destruct x; cbn [exec writes] in *; try done.
  - intros [= <-]. by apply trims_same.
  - intros [= <-]. unfold electionSender_recv. repeat case_cond; by apply trims_same.
  - intros [= <-]. unfold startElection_finish. case_cond; by apply trims_same.
  - rewrite RequestVote_eq. cbn. intros [= <-]. unfold adopt_term.
    case_decide; repeat case_cond; by apply trims_same.
  - intros ([rf1 n] & Hrun & [= <-])%rbind_ret. cbn. revert Hrun. unfold appendRPCWorker_recv.
    do 3 (case_cond; [intros [= <- _]; by apply trims_same|]). intros (next & _ & Hrun)%rbind_ret. case_cond.
    + apply rbind_ret in Hrun as (nexts & _ & Hrun).
      apply rbind_ret in Hrun as (nx & _ & Hrun). apply rbind_ret in Hrun as (ms & _ & [= <- _]). by apply trims_same.
    + apply rbind_ret in Hrun as (nexts & _ & [= <- _]). by apply trims_same.
  - unfold sendAERpcs_finish. case_cond; [|intros [= <-]; apply trims_refl].
    intros (N & _ & [= <-])%rbind_ret. case_cond; by apply trims_same.
  - unfold InstallSnapshotSender_recv. do 2 (case_cond; [intros [= <-]; by apply trims_same|]).
    intros (nexts & _ & Hrun)%rbind_ret. apply rbind_ret in Hrun as (nx & _ & Hrun).
    apply rbind_ret in Hrun as (ms & _ & [= <-]). by apply trims_same.
  - intros Hrun. destruct (decide (index < lastAppliedIndex rf)).
    { rewrite doSnapshot_old in Hrun by done. injection Hrun as <-. apply trims_refl. }
    destruct (decide (index <= last_index rf)).
    + destruct (doSnapshot_eq index snap rf) as (t & Ht & Heq); [lia|]. rewrite Heq in Hrun.
      injection Hrun as <-. apply trims_snapshotted; [lia|done].
    + assert (doSnapshot index snap rf = Panic) as Hpan by (apply doSnapshot_panic; lia). congruence.
  - unfold applyLogToRsm. case_cond; [|intros [= <-]; apply trims_refl].
    intros (_ & Hd & _)%apply_loop_effect. by apply trims_durable.
  - intros [= <-]. by apply trims_same.
  - intros ->%exec_sending. apply trims_refl.
Qed.

Lemma chain_prefix c b t l m : chain c b t l -> chain c b t (take m l).
Proof. rewrite <- (take_drop m l) at 1. by intros [? _]%chain_app. Qed.

(** Entries taken over from a leader follow the old ones, or the snapshot. *)
Lemma AppendEntries_chain c now r args rf rf' reply t :
  AppendEntries now r args rf = Ret (rf', reply) ->
  chain c (lastAppliedIndex rf) t (Log rf) -> chain c (PrevLogIndex args) (PrevLogTerm args) (Entries args) ->
  lastAppliedTerm rf' = lastAppliedTerm rf /\ (chain c (lastAppliedIndex rf') t (Log rf') \/ straight c rf').
Proof.
  unfold AppendEntries. intros ([rf1 reply1] & Hrun & [= <- _])%rbind_ret Hc Ha.
  change (lastAppliedTerm rf1 = lastAppliedTerm rf /\ (chain c (lastAppliedIndex rf1) t (Log rf1) \/ straight c rf1)).
  revert Hrun. rewrite AppendEntries_body_eq.
  pose proof (adopt_leader_log (ae_Term args) (ae_LeaderId args) rf) as Hlog. unfold log_part in Hlog.
  injection Hlog as Hl _ _ Hi Ht _ _ _ _ _ _. set (rf2 := adopt_leader _ _ rf) in *.
  assert (chain c (lastAppliedIndex rf2) t (Log rf2)) as Hc2 by by rewrite Hl, Hi.
  destruct (decide (accepts args rf)) as [(_ & Hp & Hpt)|]; [|case_decide; [done|]].
  - intros [= <- _]. assert (lastAppliedTerm (append_entries args rf2) = lastAppliedTerm rf /\
      (chain c (lastAppliedIndex (append_entries args rf2)) t (Log (append_entries args rf2)) \/ straight c (append_entries args rf2))) as Hc3.
    + unfold append_entries. case_cond; [|by auto]. cbn. split; [done|].
      set (m := Z.to_nat (PrevLogIndex args - lastAppliedIndex rf)). unfold last_index, len in Hp.
      assert (Some (PrevLogTerm args) = Some (end_term (lastAppliedTerm rf) (take m (Log rf)))) as [= Hpt'].
      { rewrite <- Hpt, <- term_at_prefix by lia. f_equal. lia. }
      assert (lastAppliedIndex rf + len (take m (Log rf)) = PrevLogIndex args) as Hlen.
      { unfold len. rewrite length_take. lia. }
      destruct (decide (m = 0%nat)) as [Hm|Hm]; [right|left].
      * unfold straight. cbn. rewrite Hi, Ht, Hl. fold m. rewrite Hm in *. cbn in *. by rewrite Hpt', <- Hlen, Z.add_0_r in Ha.
      * rewrite Hi, Hl. fold m. apply chain_app. split; [by apply chain_prefix|]. rewrite Hlen.
        rewrite (end_term_some t (lastAppliedTerm rf)), <- Hpt'; [done|].
        intros Hn. apply (f_equal length) in Hn. rewrite length_take in Hn. cbn in Hn. lia.
    + unfold advance_commit. by case_cond.
  - repeat case_cond; intros [= <- _]; (split; [done|]); try (by left). left. cbn. by apply chain_prefix.
Qed.

Lemma AppendEntries_logged c now r args rf rf' reply :
  AppendEntries now r args rf = Ret (rf', reply) ->
  logged c rf -> chain c (PrevLogIndex args) (PrevLogTerm args) (Entries args) -> logged c rf'.
Proof. intros Hrun [t Hc] Ha. destruct (AppendEntries_chain _ _ _ _ _ _ _ _ Hrun Hc Ha) as [_ [?|?]]; by eexists. Qed.

Lemma AppendEntries_straight c now r args rf rf' reply :
  AppendEntries now r args rf = Ret (rf', reply) ->
  straight c rf -> chain c (PrevLogIndex args) (PrevLogTerm args) (Entries args) -> straight c rf'.
Proof.
  intros Hrun Hc Ha. destruct (AppendEntries_chain _ _ _ _ _ _ _ _ Hrun Hc Ha) as [Ht [H|?]]; [|done].
  unfold straight. by rewrite Ht.
Qed.

Lemma appendRPCWorker_send_leads i term rf args :
  appendRPCWorker_send i term rf = Ret (Some args) -> leaderId rf = me rf.
Proof.
  unfold appendRPCWorker_send. intros (next & _ & Hs)%rbind_ret. revert Hs. do 2 (case_cond; [done|]). zbool. done.
Qed.

(** Entries that a leader sends are part of its log. *)
Lemma appendRPCWorker_send_chain c i term rf args :
  appendRPCWorker_send i term rf = Ret (Some args) -> -1 <= lastAppliedIndex rf -> straight c rf ->
  chain c (PrevLogIndex args) (PrevLogTerm args) (Entries args) /\
  ae_Term args = currentTerm rf /\ ae_LeaderId args = me rf /\ leaderId rf = me rf.
Proof.
  intros Hsend Hlow Hc. pose proof Hsend as Hs. unfold appendRPCWorker_send in Hs.
  apply rbind_ret in Hs as (next & Hn & Hs). case_cond; [done|]. case_cond; [done|]. zbool.
  apply rbind_ret in Hs as (t & Ht & Hs). apply rbind_ret in Hs as (es & Hes & _).
  apply go_from_ret in Hes as [Hr _].
  destruct (appendRPCWorker_send_eq i term next rf) as (t' & Ht' & Heq); [done|done|unfold last_index; lia|done..|].
  rewrite Heq in Hsend. injection Hsend as <-. cbn. split_and!; try done.
  set (m := Z.to_nat (next - lastAppliedIndex rf - 1)). unfold len in Hr.
  unfold straight in Hc. rewrite <- (take_drop m (Log rf)), chain_app in Hc. destruct Hc as [_ Hc].
  unfold len in Hc. rewrite length_take in Hc. replace (next - 1) with (lastAppliedIndex rf + Z.of_nat m) in * by lia.
  rewrite term_at_prefix in Ht' by lia. injection Ht' as <-. by rewrite Nat.min_l in Hc by lia.
Qed.

(** ** The disk *)

(** The peer that would restart from the disk. *)
Definition stored rf : Raft Cmd := Make 0 0 (persister rf) 0 0.

(** The log of a peer with the position of its snapshot. *)
Definition same_log rf rf' : Prop :=
  Log rf' = Log rf /\ lastAppliedIndex rf' = lastAppliedIndex rf /\ lastAppliedTerm rf' = lastAppliedTerm rf.

Lemma same_log_logged c rf rf' : same_log rf rf' -> logged c rf -> logged c rf'.
Proof. unfold logged. by intros (-> & -> & _). Qed.

Lemma same_log_straight c rf rf' : same_log rf rf' -> straight c rf -> straight c rf'.
Proof. unfold straight. by intros (-> & -> & ->). Qed.

Lemma same_log_sym rf rf' : same_log rf rf' -> same_log rf' rf.
Proof. unfold same_log. by intros (-> & -> & ->). Qed.

Lemma durable_same_log rf rf' : durable rf' = durable rf -> same_log rf rf'.
Proof. unfold durable, same_log. by intros [= _ _ -> -> ->]. Qed.

Lemma durable_term rf rf' : durable rf' = durable rf -> currentTerm rf' = currentTerm rf.
Proof. unfold durable. by intros [= -> _ _ _ _]. Qed.

(** What a restart recovers depends on the disk only. *)
Lemma durable_Make n i ps ps' now r :
  raftstate ps = raftstate ps' -> durable (Make (Cmd := Cmd) n i ps now r) = durable (Make 0 0 ps' 0 0).
Proof.
  intros Hps. unfold Make, ReadRaftState. rewrite Hps. unfold durable. cbn. unfold readPersist.
  repeat (case_match; try done).
Qed.

Lemma stored_same rf rf' : persister rf' = persister rf -> stored rf' = stored rf.
Proof. unfold stored. by intros ->. Qed.

Lemma stored_Make n i rf now r : durable (Make n i (Copy (persister rf)) now r) = durable (stored rf).
Proof. exact (durable_Make n i (Copy (persister rf)) (persister rf) now r eq_refl). Qed.

Lemma persister_Make n i ps now r : persister (Make (Cmd := Cmd) n i ps now r) = ps.
Proof. unfold Make. cbn. unfold readPersist. repeat (case_match; try done). Qed.

Lemma stored_stored n i rf now r : durable (stored (Make n i (Copy (persister rf)) now r)) = durable (stored rf).
Proof.
  unfold stored at 1. rewrite persister_Make. exact (durable_Make 0 0 (Copy (persister rf)) (persister rf) 0 0 eq_refl).
Qed.

Lemma in_sync_stored rf : in_sync rf -> durable (stored rf) = durable rf.
Proof. intros Hs. by apply (Make_eq 0 0 (persister rf) 0 0 rf). Qed.

(** Any section but [InstallSnapshot] saves the state, or leaves it alone. *)
Lemma exec_stored x rf rf' : ~ is_install x -> exec x rf = Ret rf' ->
  durable (stored rf') = durable rf' \/ (durable rf' = durable rf /\ stored rf' = stored rf).
Proof.
  intros Hni Hx. destruct (exec_saves x rf rf' Hni Hx) as [Hs|[Hd Hp]]; [left; by apply in_sync_stored|right].
  split; [done|by apply stored_same].
Qed.

(** ** Installing a snapshot *)

(** The whole log is in the snapshot, or a part of it. *)
Definition cleared (args : InstallsnapshotArgs) rf rf' : Prop :=
  last_index rf <= LastIncludedIndex args /\ Log rf' = [] /\ lastAppliedIndex rf' = LastIncludedIndex args /\
  lastAppliedTerm rf' = LastIncludedTerm args.

Definition shortened (args : InstallsnapshotArgs) rf rf' : Prop :=
  lastAppliedIndex rf < LastIncludedIndex args < last_index rf /\
  Log rf' = drop (Z.to_nat (LastIncludedIndex args - lastAppliedIndex rf)) (Log rf) /\
  lastAppliedIndex rf' = LastIncludedIndex args /\ lastAppliedTerm rf' = LastIncludedTerm args.

(** What [InstallSnapshot] does unless the request is of an old term. *)
Record installed (args : InstallsnapshotArgs) rf rf' : Prop := {
  in_term : currentTerm rf <= is_Term args /\ currentTerm rf' = is_Term args;
  in_leader : leaderId rf' = is_LeaderId args;
  in_me : me rf' = me rf;
  in_rest : commitIndex rf' = commitIndex rf /\ sender rf' = sender rf /\ nextIndex rf' = nextIndex rf /\ matchIndex rf' = matchIndex rf;
  in_disk : stored rf' = stored rf \/ same_log rf (stored rf');
  in_log : cleared args rf rf' \/ shortened args rf rf' \/ same_log rf rf';
}.

Lemma adopt_leader_disk (t ld : Z) rf :
  persister (adopt_leader t ld rf) = persister rf \/ in_sync (adopt_leader t ld rf).
Proof.
  unfold adopt_leader. repeat case_cond; auto with raft; cbn; first [by left|right].
  eapply in_sync_same; [| |apply (in_sync_updateCurrentTerm t rf)]; done.
Qed.

Lemma install_effect now r args rf rf' :
  exec (SInstallSnapshot now r args) rf = Ret rf' ->
  is_Term args < currentTerm rf /\ rf' = updateElectionTimeout now r rf \/ installed args rf rf'.
Proof.
  cbn [exec]. rewrite InstallSnapshot_eq. destruct (Z.ltb_spec (is_Term args) (currentTerm rf)) as [|Ht]; cbn [rbind].
  { intros [= <-]. by left. }
  intros [= <-]. right. pose proof (adopt_leader_log (is_Term args) (is_LeaderId args) rf) as Hlog.
  pose proof (adopt_leader_disk (is_Term args) (is_LeaderId args) rf) as Hdisk.
  destruct (adopt_leader_state (is_Term args) (is_LeaderId args) rf) as (Hct & Hld & _).
  set (rf1 := adopt_leader _ _ rf) in *. unfold log_part in Hlog. injection Hlog as Hl Hci _ Hi Hlt Hni Hmi _ Hme Hse _.
  assert (last_index rf1 = last_index rf) as Hlast by (unfold last_index; by rewrite Hl, Hi).
  assert (persister (cover args rf1) = persister rf1) as Hps by (unfold cover; by repeat case_cond).
  assert (same_log rf rf1) as Hsame by done.
  split.
  - split; [done|]. unfold cover. repeat case_cond; cbn; lia.
  - unfold cover. by repeat case_cond.
  - unfold cover. by repeat case_cond.
  - unfold cover. by repeat case_cond.
  - cbn. destruct Hdisk as [Hd|Hd]; [left; by apply stored_same; cbn; rewrite Hps|right].
    destruct (durable_same_log _ _ (in_sync_stored _ Hd)) as (? & ? & ?). unfold stored in *. cbn. rewrite Hps.
    unfold same_log. destruct Hsame as (? & ? & ?). split_and!; congruence.
  - unfold cover, cleared, shortened. rewrite Hlast, Hi.
    destruct (Z.leb_spec (last_index rf) (LastIncludedIndex args)) as [|Hgt]; [by left|right].
    destruct (Z.ltb_spec (lastAppliedIndex rf) (LastIncludedIndex args)) as [Hlt'|]; [left|by right].
    cbn. by rewrite Hl.
Qed.

Lemma exec_leader x rf rf' :
  ~ writes x -> exec x rf = Ret rf' ->
  leaderId rf' = leaderId rf \/ leaderId rf' = -1 \/ exists now r v, x = SElectionFinish now r v.
Proof.
  intros Hw. destruct (is_quiet x) eqn:Hq.
  { intros Hrun. destruct (section_quiet x rf rf' Hq Hrun). tauto. }
  destruct x; cbn [exec writes] in *; try done.
  - intros [= <-]. auto.
  - intros [= <-]. unfold electionSender_recv. repeat case_cond; auto.
  - intros _. right. right. by eexists _, _, _.
  - rewrite RequestVote_eq. cbn. intros [= <-]. unfold adopt_term. case_decide; repeat case_cond; auto.
  - intros ->%exec_sending. auto.
Qed.

(** A request of an older term is ignored; any other sets the term. *)
Lemma AppendEntries_term now r args rf rf' reply :
  AppendEntries now r args rf = Ret (rf', reply) ->
  trims rf rf' \/ currentTerm rf <= ae_Term args /\ currentTerm rf' = ae_Term args.
Proof.
  unfold AppendEntries. intros ([rf1 reply1] & Hrun & [= <- _])%rbind_ret. revert Hrun.
  rewrite AppendEntries_body_eq. destruct (adopt_leader_state (ae_Term args) (ae_LeaderId args) rf) as (Ht & _).
  destruct (decide (accepts args rf)) as [(Hle & _)|]; [|case_decide; [done|]].
  - intros [= <- _]. right. split; [done|]. unfold advance_commit, append_entries. repeat case_cond; cbn; rewrite Ht; lia.
  - destruct (Z.ltb_spec (ae_Term args) (currentTerm rf)) as [|Hle]; [intros [= <- _]; left; by apply trims_same|].
    case_cond; intros [= <- _]; right; (split; [done|]); cbn; rewrite Ht; lia.
Qed.

(** ** The invariant *)

Context (n : nat).
(** [led T i]: at some time [i] is the leader of term [T]. *)
Context (led : Z -> Z -> Prop) (led_unique : forall T i j, led T i -> led T j -> i = j).

(** The log, in memory and on disk; they only differ after a snapshot from
    another peer, the leader of the term. *)
Record peer_logged c rf : Prop := {
  pl_logged : logged c rf;
  pl_stored : logged c (stored rf);
  pl_synced : durable (stored rf) = durable rf \/ exists j, led (currentTerm rf) j /\ j <> me rf;
  pl_term : 0 <= currentTerm rf;
  pl_lai : -1 <= lastAppliedIndex rf;
  pl_slai : -1 <= lastAppliedIndex (stored rf);
  pl_leader : leaderId rf = me rf -> 1 <= currentTerm rf;
}.

(** The peer has moved on from term [T], or still has the entry at [i]. *)
Definition has_written rf (T i : Z) : Prop := T < currentTerm rf \/ T = currentTerm rf /\ i <= last_index rf.

Definition creator s (T i : Z) : Prop :=
  exists j rf, led T j /\ nodes s !! j = Some rf /\ has_written rf T i.

Record recorded c s : Prop := {
  rec_peer : forall i rf, nodes s !! i = Some rf -> peer_logged c rf;
  rec_term : forall i el, elections s !! i = Some el -> 1 <= el_term el;
  rec_aes : forall j args, (j, args) ∈ aes s ->
    chain c (PrevLogIndex args) (PrevLogTerm args) (Entries args) /\ led (ae_Term args) (ae_LeaderId args);
  rec_created : forall T i v, c !! (T, i) = Some v -> 1 <= T -> creator s T i;
}.

Lemma peer_logged_mono c c' rf : c ⊆ c' -> peer_logged c rf -> peer_logged c' rf.
Proof. intros Hc [[t ?] [t' ?] ? ? ? ? ?]. split; try done; eexists; by eapply chain_mono. Qed.

Lemma recorded_terms c s s' i el :
  recorded c s -> terms_go_on s s' -> elections s' !! i = Some el -> 1 <= el_term el.
Proof.
  intros Hr Hgo Hi. destruct (Hgo i el Hi) as [(el0 & H0 & <-)|(rf & Hrf & ->)]; [by eapply rec_term|].
  pose proof (pl_term _ _ (rec_peer _ _ Hr i rf Hrf)). lia.
Qed.

(** The same peers. *)
Lemma recorded_same c s s' :
  recorded c s -> nodes s' = nodes s -> terms_go_on s s' ->
  (forall j args, (j, args) ∈ aes s' -> (j, args) ∈ aes s \/
     chain c (PrevLogIndex args) (PrevLogTerm args) (Entries args) /\ led (ae_Term args) (ae_LeaderId args)) ->
  recorded c s'.
Proof.
  intros Hr Hn Hgo Ha. split.
  - rewrite Hn. apply Hr.
  - intros i el. by apply recorded_terms with c s.
  - intros j args Hj. destruct (Ha j args Hj); [by eapply rec_aes|done].
  - unfold creator. rewrite Hn. apply Hr.
Qed.

(** One peer changes, and the history may grow. *)
Lemma recorded_change c c' s s' i rf rf' :
  recorded c s -> c ⊆ c' -> nodes s !! i = Some rf -> nodes s' = <[i := rf']> (nodes s) -> aes s' = aes s ->
  terms_go_on s s' -> peer_logged c' rf' -> currentTerm rf <= currentTerm rf' ->
  (currentTerm rf' = currentTerm rf -> led (currentTerm rf) i -> last_index rf <= last_index rf') ->
  (forall T k v, c' !! (T, k) = Some v -> c !! (T, k) = Some v \/ led T i /\ has_written rf' T k) ->
  recorded c' s'.
Proof.
  intros Hr Hc Hi Hn Ha Hgo Hp Hle Hlast Hnew. split.
  - intros j rfj. rewrite Hn. destruct (decide (j = i)) as [->|].
    + rewrite lookup_insert_eq. by intros [= <-].
    + rewrite lookup_insert_ne by done. intros Hj. eapply peer_logged_mono; [exact Hc|by eapply rec_peer].
  - intros j el. by apply recorded_terms with c s.
  - intros j args. rewrite Ha. intros Hj. destruct (rec_aes _ _ Hr j args Hj). split; [by eapply chain_mono|done].
  - intros T k v Hk HT. unfold creator. rewrite Hn. destruct (Hnew T k v Hk) as [Hold|[Hled Hw]].
    + destruct (rec_created _ _ Hr T k v Hold HT) as (l & rfl & Hl & Hrfl & Hw). exists l.
      destruct (decide (l = i)) as [->|]; [|exists rfl; by rewrite lookup_insert_ne].
      exists rf'. rewrite lookup_insert_eq. split_and!; [done|done|]. rewrite Hi in Hrfl. injection Hrfl as <-.
      unfold has_written in *. destruct Hw as [?|[-> ?]]; [left; lia|].
      destruct (decide (currentTerm rf' = currentTerm rf)) as [He|]; [|left; lia]. specialize (Hlast He Hl). right. lia.
    + exists i, rf'. by rewrite lookup_insert_eq.
Qed.

(** What an event adds to the history: the entry that a leader's [Start]
    appends. *)
Definition start_node rf : Z * Z := (currentTerm rf, last_index rf + 1).
Definition start_entry (cmd : option Cmd) rf : Entry Cmd * Z :=
  (mkLogEntry cmd (currentTerm rf), end_term (lastAppliedTerm rf) (Log rf)).

Definition grow (e : event (Cmd := Cmd)) s c : history :=
  match e with
  | ELocal i (SStart cmd) =>
      match nodes s !! i with
      | Some rf => if leaderId rf =? me rf then <[start_node rf := start_entry cmd rf]> c else c
      | None => c
      end
  | _ => c
  end.

(** ** Every event keeps the invariant *)

Lemma peer_logged_exec c0 c s i rf rf' x :
  inv n s -> peer_logged c0 rf -> c0 ⊆ c -> nodes s !! i = Some rf -> exec x rf = Ret rf' -> ~ is_install x -> logged c rf' ->
  (leaderId rf' = me rf' -> leaderId rf = me rf \/ 1 <= currentTerm rf) ->
  peer_logged c rf' /\ currentTerm rf <= currentTerm rf'.
Proof.
  intros Hinv [_ [t Hs] Hsync ? ? ? Hlead] Hc Hi Hx Hni Hl Hld. destruct (inv_node n s Hinv i rf Hi) as (_ & Hnp & [? ?] & _).
  destruct (exec_effect x rf rf') as [Hme _ Ht Hlai _ _]; [lia|done|].
  split; [|done]. destruct (exec_stored x rf rf' Hni Hx) as [Hd|[Hd Hst]].
  - pose proof (durable_same_log _ _ Hd) as Hsame. split; [done|by eapply same_log_logged|by left|lia|lia| |lia].
    destruct Hsame as (_ & -> & _). lia.
  - split; rewrite ?Hst; [done|exists t; by eapply chain_mono| |lia..].
    rewrite Hd, Hme, (durable_term _ _ Hd). done.
Qed.

(** A leader writes a new entry. *)
Lemma record_start c s s' i rf cmd :
  inv n s -> recorded c s -> nodes s !! i = Some rf -> led (currentTerm rf) i -> leaderId rf = me rf ->
  nodes s' = <[i := (Start cmd rf).1]> (nodes s) -> aes s' = aes s -> terms_go_on s s' ->
  recorded (<[start_node rf := start_entry cmd rf]> c) s' /\ c ⊆ <[start_node rf := start_entry cmd rf]> c /\
  (straight c rf -> straight (<[start_node rf := start_entry cmd rf]> c) (Start cmd rf).1).
Proof.
  intros Hinv Hr Hi Hled Hld Hn Ha Hgo. pose proof (rec_peer _ _ Hr i rf Hi) as Hp.
  set (T := currentTerm rf) in *. set (rf' := (Start cmd rf).1) in *.
  set (e := mkLogEntry cmd T). set (p := end_term (lastAppliedTerm rf) (Log rf)).
  change (<[start_node rf := start_entry cmd rf]> c) with (<[(T, last_index rf + 1) := (e, p)]> c).
  set (c' := <[(T, last_index rf + 1) := (e, p)]> c).
  assert (1 <= T) as HT by by apply (pl_leader _ _ Hp).
  assert (Log rf' = Log rf ++ [e] /\ lastAppliedIndex rf' = lastAppliedIndex rf /\
          lastAppliedTerm rf' = lastAppliedTerm rf /\ currentTerm rf' = T) as (Hlog & Hlai & Hlat & Hterm).
  { subst rf'. unfold Start. rewrite Hld, Z.eqb_refl. done. }
  assert (c ⊆ c') as Hc.
  { apply insert_subseteq. destruct (c !! (T, last_index rf + 1)) as [v|] eqn:Hv; [exfalso|done].
    destruct (rec_created _ _ Hr _ _ v Hv HT) as (j & rfj & Hj & Hrfj & Hw).
    assert (j = i) as -> by by eapply led_unique. rewrite Hi in Hrfj. injection Hrfj as <-.
    unfold has_written, T in Hw. lia. }
  assert (last_index rf' = last_index rf + 1) as Hlast.
  { unfold last_index. rewrite Hlog, Hlai, len_app. unfold len. cbn. lia. }
  assert (forall t, chain c (lastAppliedIndex rf) t (Log rf) -> end_term t (Log rf) = p ->
    chain c' (lastAppliedIndex rf') t (Log rf')) as Hchain.
  { intros t Ht Hend. rewrite Hlog, Hlai. apply chain_app. split; [by eapply chain_mono|].
    cbn [chain]. split; [|done]. unfold c', last_index. rewrite Hend.
    replace (lastAppliedIndex rf + len (Log rf) + 1) with (len (Log rf) + lastAppliedIndex rf + 1) by lia.
    apply lookup_insert_eq. }
  assert (logged c' rf') as Hlogged.
  { destruct (pl_logged _ _ Hp) as [t Ht]. destruct (decide (Log rf = [])) as [Hnil|Hnil].
    - exists (lastAppliedTerm rf). apply Hchain; [by rewrite Hnil|done].
    - exists t. apply Hchain; [done|by apply end_term_some]. }
  split; [|split; [exact Hc|]].
  2: { intros Hst. unfold straight. fold rf'. rewrite Hlat. by apply Hchain. }
  destruct (peer_logged_exec c c' s i rf rf' (SStart cmd)) as [Hp' Hle]; try done; [by intros []|by left|].
  eapply (recorded_change c c' s s' i rf rf'); try done; [lia|].
  intros T' k v. unfold c'. destruct (decide ((T', k) = (T, last_index rf + 1))) as [[= -> ->]|Hne].
  - intros _. right. split; [done|]. right. lia.
  - rewrite lookup_insert_ne by done. by left.
Qed.

(** A follower takes over what a leader sends. *)
Lemma record_append c s s' i rf rf' now r args :
  inv n s -> recorded c s -> nodes s !! i = Some rf -> (i, args) ∈ aes s ->
  exec (SAppendEntries now r args) rf = Ret rf' ->
  nodes s' = <[i := rf']> (nodes s) -> aes s' = aes s -> terms_go_on s s' -> recorded c s'.
Proof.
  intros Hinv Hr Hi Hin Hx Hn Ha Hgo. pose proof Hx as Hrun. cbn [exec] in Hrun.
  apply rbind_ret in Hrun as ([rf1 reply] & Hrun & [= ->]).
  destruct (rec_aes _ _ Hr i args Hin) as [Hchain Hled]. destruct (inv_aes n s Hinv i args Hin) as [_ Hne].
  pose proof (rec_peer _ _ Hr i rf Hi) as Hp. destruct (inv_node n s Hinv i rf Hi) as (Hme & _).
  destruct (peer_logged_exec c c s i rf rf' (SAppendEntries now r args)) as [Hp' Hle]; try done.
  - by intros [].
  - eapply AppendEntries_logged; [done|apply Hp|done].
  - destruct (AppendEntries_follows _ _ _ _ _ _ Hrun) as [Hme' _ _ [(_ & _ & ->)|(_ & _ & _ & ->)]];
      rewrite Hme', Hme; [by left|congruence].
  - eapply (recorded_change c c s s' i rf rf'); try done; [|by left].
    intros Hterm Hi'. destruct (AppendEntries_term _ _ _ _ _ _ Hrun) as [Ht|[_ Ht]].
    + by rewrite (trims_last _ _ Ht).
    + rewrite <- Hterm, Ht in Hi'. by destruct Hne; eapply led_unique.
Qed.

(** Any other section. *)
Lemma record_section c s s' i rf rf' x :
  inv n s -> recorded c s -> nodes s !! i = Some rf -> exec x rf = Ret rf' -> ~ writes x -> origin s i x ->
  nodes s' = <[i := rf']> (nodes s) -> aes s' = aes s -> terms_go_on s s' -> recorded c s'.
Proof.
  intros Hinv Hr Hi Hx Hw Ho Hn Ha Hgo. pose proof (rec_peer _ _ Hr i rf Hi) as Hp.
  destruct (inv_node n s Hinv i rf Hi) as (Hme & Hnp & [Hpos _] & _).
  destruct (exec_effect x rf rf') as [Hme' _ _ _ _ _]; [lia|done|].
  pose proof (exec_trims x rf rf' Hw Hx) as Htrim.
  destruct (peer_logged_exec c c s i rf rf' x) as [Hp' Hle]; try done.
  - by destruct x.
  - eapply trims_logged; [done|apply Hp].
  - destruct (exec_leader x rf rf' Hw Hx) as [-> |[-> |(now & r & v & ->)]].
    + rewrite Hme'. by left.
    + lia.
    + intros _. right. destruct Ho as [el Hel]. pose proof (rec_term _ _ Hr i el Hel).
      destruct (inv_elect n s Hinv i el Hel) as (rf0 & ? & Hi0 & ? & _). rewrite Hi in Hi0. injection Hi0 as <-. lia.
  - eapply (recorded_change c c s s' i rf rf'); try done; [|by left].
    intros _ _. by rewrite (trims_last _ _ Htrim).
Qed.

(** A follower takes over a snapshot. *)
Lemma record_install c s s' i rf rf' now r args :
  inv n s -> recorded c s -> nodes s !! i = Some rf -> (i, args) ∈ iss s ->
  led (is_Term args) (is_LeaderId args) -> 1 <= is_Term args -> -1 <= LastIncludedIndex args ->
  exec (SInstallSnapshot now r args) rf = Ret rf' ->
  nodes s' = <[i := rf']> (nodes s) -> aes s' = aes s -> terms_go_on s s' -> recorded c s'.
Proof.
  intros Hinv Hr Hi Hin Hled Hone Hlow Hx Hn Ha Hgo. pose proof (rec_peer _ _ Hr i rf Hi) as Hp.
  destruct (inv_iss n s Hinv i args Hin) as [_ Hne]. destruct (inv_node n s Hinv i rf Hi) as (Hme & _).
  destruct (install_effect now r args rf rf' Hx) as [[Hlt ->]|[[Hle Ht] Hld Hm _ Hdisk Hlog]].
  { eapply (recorded_change c c s s' i rf _); try done; [by destruct Hp|by left]. }
  destruct Hp as [Hl Hst _ H0 Hlai Hslai _].
  assert (logged c rf' /\ -1 <= lastAppliedIndex rf') as [Hl' Hlai'].
  { destruct Hlog as [(_ & Hnil & -> & _)|[(Hr1 & Hl1 & Hi1 & _)|Hsame]].
    - split; [exists 0; by rewrite Hnil|done].
    - unfold last_index, len in Hr1. split; [|lia].
      apply (drop_logged c rf rf' (Z.to_nat (LastIncludedIndex args - lastAppliedIndex rf))); [lia|done|lia|done].
    - split; [by eapply same_log_logged|]. destruct Hsame as (_ & -> & _). done. }
  eapply (recorded_change c c s s' i rf rf'); try done; [|lia| |by left].
  - split; [done| |right; exists (is_LeaderId args); rewrite Ht, Hm; split; [done|congruence]|lia|done| |].
    + destruct Hdisk as [->|Hsame]; [done|by eapply same_log_logged].
    + destruct Hdisk as [->|(_ & -> & _)]; done.
    + lia.
  - intros Heq Hi'. destruct Hne. eapply led_unique; [|exact Hi']. by rewrite <- Heq, Ht.
Qed.

(** A peer restarts from its disk. *)
Lemma record_crash c s s' i rf now r :
  inv n s -> recorded c s -> nodes s !! i = Some rf ->
  nodes s' = <[i := Make (npeers rf) (me rf) (Copy (persister rf)) now r]> (nodes s) ->
  aes s' = aes s -> terms_go_on s s' -> recorded c s'.
Proof.
  intros Hinv Hr Hi Hn Ha Hgo. destruct (rec_peer _ _ Hr i rf Hi) as [_ Hst Hsyn Ht Hlai Hslai _].
  destruct (inv_node n s Hinv i rf Hi) as (Hme & _ & [Hpos _] & Hsync).
  pose proof (stored_Make (npeers rf) (me rf) rf now r) as Hd.
  destruct (vote_sync_Make (npeers rf) (me rf) now r rf Hsync) as (_ & Hterm & _ & Hld & Hme' & _).
  pose proof (durable_same_log _ _ Hd) as (Hlog & Hli & Hlt).
  assert (durable (stored (Make (npeers rf) (me rf) (Copy (persister rf)) now r)) =
          durable (Make (npeers rf) (me rf) (Copy (persister rf)) now r)) as Hsame.
  { rewrite Hd. apply stored_stored. }
  destruct (durable_same_log _ _ Hsame) as (Hlog' & Hli' & Hlt').
  set (rf' := Make _ _ _ _ _) in *. clearbody rf'.
  assert (logged c rf') as Hl' by (destruct Hst as [t Hst]; exists t; by rewrite Hlog, Hli).
  eapply (recorded_change c c s s' i rf rf'); try done; [|lia| |by left].
  - split; [done| |by left|lia|lia|lia|lia]. destruct Hl' as [t Hl']. exists t. by rewrite Hlog', Hli'.
  - intros _ Hled. destruct Hsyn as [He|(l & Hl & Hne)]; [|by destruct Hne; rewrite Hme; eapply led_unique].
    destruct (durable_same_log _ _ He) as (He1 & He2 & _). unfold last_index. by rewrite Hlog, Hli, He1, He2.
Qed.

(** Whether a leader appends an entry. *)
Lemma grow_cases e s c :
  (exists i cmd rf, e = ELocal i (SStart cmd) /\ nodes s !! i = Some rf /\ leaderId rf = me rf /\
     grow e s c = <[start_node rf := start_entry cmd rf]> c) \/
  (grow e s c = c /\
   forall i cmd rf, e = ELocal i (SStart cmd) -> nodes s !! i = Some rf -> leaderId rf <> me rf).
Proof.
  destruct e as [| | | | | | | | | | | | | |i x|]; try (right; split; [done|by intros ???]).
  destruct x as [| | | | | | | | | |cmd| | |]; try (right; split; [done|by intros ???]).
  destruct (nodes s !! i) as [rf|] eqn:Hi.
  - cbn. rewrite Hi. destruct (Z.eqb_spec (leaderId rf) (me rf)) as [Hl|Hl].
    + left. by exists i, cmd, rf.
    + right. split; [done|]. intros i' cmd' rf' [= <- <-]. congruence.
  - cbn. rewrite Hi. right. split; [done|]. intros i' cmd' rf' [= <- <-]. congruence.
Qed.

(** Snapshots come from leaders, and what leaders send follows their snapshot. *)
Definition tame c (e : event (Cmd := Cmd)) s : Prop :=
  match e with
  | EInstall k _ _ => forall j args rf, iss s !! k = Some (j, args) -> nodes s !! j = Some rf ->
      led (is_Term args) (is_LeaderId args) /\ 1 <= is_Term args /\ -1 <= LastIncludedIndex args
  | EAppendSend i _ => forall rf, nodes s !! i = Some rf -> leaderId rf = me rf -> straight c rf
  | _ => True
  end.

Lemma recorded_step c e s s' :
  inv n s -> recorded c s -> (forall i T, is_leader s i T -> led T i) ->
  tame c e s -> step e s = Some s' -> recorded (grow e s c) s' /\ c ⊆ grow e s c.
Proof.
  intros Hinv Hr Hled He Hstep. destruct (step_moves e s s' Hstep) as [Hm Hgo].
  assert (forall i rf, nodes s !! i = Some rf -> leaderId rf = me rf -> led (currentTerm rf) i) as Hlead.
  { intros i rf Hi Hl. apply Hled. exists rf. split; [done|]. unfold GetState. by rewrite Hl, Z.eqb_refl. }
  destruct (grow_cases e s c) as [(i & cmd & rf & -> & Hi & Hl & ->)|[-> Hno]].
  { cbn [step] in Hstep. unfold local in Hstep. rewrite Hi in Hstep. cbn in Hstep. injection Hstep as <-.
    edestruct (record_start c s (with_node i (Start cmd rf).1 s) i rf cmd) as (? & ? & _); eauto. }
  split; [|done].
  destruct Hm as [Hn Ha|i rf rf' x Hi Hx Hruns Hn Ha|i rf now r -> Hi Hn Ha|i j rf term args -> Hi Hsend Hn Ha].
  - eapply recorded_same; [done|done|done|]. rewrite Ha. by left.
  - pose proof (runs_origin _ _ _ _ Hruns) as Ho.
    destruct x; try (eapply record_section; eauto; done); [by eapply record_append| |].
    + destruct e; try done; [|by destruct Hruns as (_ & -> & ?)]. destruct (He i args rf Hruns Hi) as (? & ? & ?).
      eapply record_install; eauto.
    + assert (e = ELocal i (SStart command)) as -> by (destruct e; try done; by destruct Hruns as (-> & -> & _)).
      assert (rf' = rf) as ->.
      { injection Hx as <-. unfold Start. specialize (Hno i command rf eq_refl Hi).
        by destruct (Z.eqb_spec (leaderId rf) (me rf)). }
      eapply recorded_same; [done|by rewrite Hn, insert_id|done|]. rewrite Ha. by left.
  - eapply record_crash; eauto.
  - eapply recorded_same; [done|done|done|]. rewrite Ha.
    intros k args' [?|Hin]%elem_of_app; [by left|right]. apply list_elem_of_singleton in Hin. injection Hin as -> ->.
    pose proof (pl_lai _ _ (rec_peer _ _ Hr i rf Hi)) as Hlai. pose proof (appendRPCWorker_send_leads _ _ _ _ Hsend) as Hld.
    destruct (appendRPCWorker_send_chain c j term rf args Hsend Hlai (He rf Hi Hld)) as (? & -> & -> & _). split; [done|].
    destruct (inv_node n s Hinv i rf Hi) as (-> & _). by apply Hlead.
Qed.

(** Every log follows its snapshot, in memory and on disk. *)
Definition all_straight c s : Prop := forall i rf, nodes s !! i = Some rf -> straight c rf /\ straight c (stored rf).

Lemma straight_mono c c' rf : c ⊆ c' -> straight c rf -> straight c' rf.
Proof. apply chain_mono. Qed.

Lemma all_straight_exec c c' i x rf rf' s :
  c ⊆ c' -> nodes s !! i = Some rf -> all_straight c s -> exec x rf = Ret rf' -> ~ is_install x -> straight c' rf' ->
  straight c' (stored rf').
Proof.
  intros Hc Hi Hs Hx Hni Hl. destruct (Hs i rf Hi) as [_ Hst]. destruct (exec_stored x rf rf' Hni Hx) as [Hd|[_ ->]].
  - eapply same_log_straight; [by apply durable_same_log|done].
  - by eapply straight_mono.
Qed.

(** This stays so while no snapshot is installed. *)
Lemma all_straight_step c e s s' :
  inv n s -> recorded c s -> (forall i T, is_leader s i T -> led T i) -> is_install_event e = false ->
  all_straight c s -> step e s = Some s' -> c ⊆ grow e s c -> all_straight (grow e s c) s'.
Proof.
  intros Hinv Hr Hled He Hs Hstep Hc l rfl. destruct (step_moves e s s' Hstep) as [Hm Hgo].
  assert (forall rf, nodes s !! l = Some rf -> straight (grow e s c) rf /\ straight (grow e s c) (stored rf)) as Hold.
  { intros rf Hl. destruct (Hs l rf Hl). split; by eapply straight_mono. }
  destruct Hm as [-> Ha|i rf rf' x Hi Hx Hruns -> Ha|i rf now r -> Hi -> Ha|i j rf term args -> Hi Hsend -> Ha]; [apply Hold| | |apply Hold].
  - intros [[<- <-]|[_ Hl]]%lookup_insert_Some; [|by apply Hold].
    assert (~ is_install x) as Hni by (intros Hins; by rewrite (runs_install _ _ _ _ Hruns Hins) in He).
    enough (straight (grow e s c) rf') as Hst by (split; [done|by eapply all_straight_exec]).
    assert (~ writes x \/ writes x) as [Hnw|Hw] by (destruct x; cbn; auto).
    { eapply trims_straight; [by eapply exec_trims|by apply Hold]. }
    destruct x; try done.
    + pose proof (runs_origin _ _ _ _ Hruns) as Ho. destruct (rec_aes _ _ Hr i args Ho) as [Hch _].
      cbn [exec] in Hx. apply rbind_ret in Hx as ([rf1 reply] & Hrun & [= ->]).
      eapply AppendEntries_straight; [done|by apply Hold|by eapply chain_mono].
    + assert (e = ELocal i (SStart command)) as -> by (destruct e; try done; by destruct Hruns as (-> & -> & _)).
      cbn [exec] in Hx. injection Hx as <-. destruct (Z.eqb_spec (leaderId rf) (me rf)) as [Hld|Hld].
      * cbn. rewrite Hi. destruct (Z.eqb_spec (leaderId rf) (me rf)); [|done].
        apply (record_start c s (with_node i (Start command rf).1 s) i rf command); try done.
        -- apply Hled. exists rf. split; [done|]. unfold GetState. by rewrite Hld, Z.eqb_refl.
        -- intros l el Hel. left. by exists el.
        -- by apply (Hs i rf).
      * unfold Start. destruct (Z.eqb_spec (leaderId rf) (me rf)); [done|]. by apply Hold.
  - intros [[<- <-]|[_ Hl]]%lookup_insert_Some; [|by apply Hold]. destruct (Hs i rf Hi) as [_ Hst].
    pose proof (durable_same_log _ _ (stored_Make (npeers rf) (me rf) rf now r)) as Hsame. split; [by eapply same_log_straight|].
    eapply same_log_straight; [|exact Hst]. apply durable_same_log, stored_stored.
Qed.

Definition first_history : history := {[(0, 0) := (mkLogEntry None 0, 0)]}.

Lemma recorded_init : recorded first_history (init n).
Proof.
  split.
  - intros i rf Hi. destruct (init_node n i rf Hi) as [[Hpos _] ->]. split.
    + exists 0. cbn. split; [|done]. apply lookup_singleton_eq.
    + exists 0. cbn. split; [|done]. apply lookup_singleton_eq.
    + by left.
    + done.
    + done.
    + done.
    + intros Hl. change (-1 = i) in Hl. lia.
  - intros i el. cbn. by rewrite lookup_empty.
  - intros j args Hj. by apply elem_of_nil in Hj.
  - intros T k v Hk HT. unfold first_history in Hk. apply lookup_singleton_Some in Hk as [Hk _]. injection Hk as <- _. lia.
Qed.

Lemma all_straight_init : all_straight first_history (init n).
Proof.
  intros i rf Hi. destruct (init_node n i rf Hi) as [_ ->].
  assert (straight first_history (Make (Z.of_nat n) i MakePersister 0 0)) as Hst.
  { unfold straight. cbn [chain Make Log lastAppliedIndex lastAppliedTerm]. split; [apply lookup_singleton_eq|done]. }
  split; [done|]. eapply same_log_straight; [|exact Hst]. apply durable_same_log.
  unfold stored. rewrite persister_Make. symmetry. by apply durable_Make.
Qed.

End matching.

Section run.
Context {Cmd : Type} `{!Gob (gval Cmd)}.
Implicit Types (rf : Raft Cmd) (s : cluster Cmd) (es : list (event (Cmd := Cmd))).

Lemma steps_snoc es e s : steps (es ++ [e]) s = steps es s ≫= step e.
Proof.
  revert s. induction es as [|x es IH]; intros s; cbn [app steps].
  - change (match step e s with Some s' => Some s' | None => None end = step e s). by destruct (step e s).
  - destruct (step x s); [apply IH|done].
Qed.

(** At some time of the run [i] leads in term [T]. *)
Definition led_in (n : nat) es (T i : Z) : Prop :=
  exists es1 es2 s1, es = es1 ++ es2 /\ steps es1 (init n) = Some s1 /\ is_leader s1 i T.

Lemma run_recorded n es es1 es2 s :
  (forall T i j, led_in n es T i -> led_in n es T j -> i = j) ->
  Forall (fun e => is_install_event e = false) es ->
  es = es1 ++ es2 -> steps es1 (init n) = Some s ->
  inv n s /\ exists c, recorded (led_in n es) c s /\ all_straight c s.
Proof.
  intros Huniq Hni. revert es2 s. induction es1 as [|e es1 IH] using rev_ind; intros es2 s He Hrun.
  - injection Hrun as <-. split; [apply inv_init|]. exists first_history. split; [apply recorded_init|].
    apply all_straight_init.
  - rewrite steps_snoc in Hrun. destruct (steps es1 (init n)) as [s1|] eqn:Hs1; [|done]. cbn in Hrun.
    destruct (IH (e :: es2) s1) as [Hinv (c & Hc & Hst)]; [by rewrite He, <- app_assoc|done|].
    assert (is_install_event e = false) as Hi.
    { subst es. rewrite !Forall_app in Hni. destruct Hni as [[_ Hx] _]. by inversion Hx. }
    assert (forall i T, is_leader s1 i T -> led_in n es T i) as Hled.
    { intros i T Hl. exists es1, (e :: es2), s1. split_and!; [by rewrite He, <- app_assoc|done..]. }
    split; [by eapply step_inv|]. exists (grow e s1 c).
    destruct (recorded_step n (led_in n es) Huniq c e s1 s) as [Hr' Hgrow]; try done.
    + destruct e; try done. intros rf Hrf _. by apply (Hst i).
    + split; [done|]. by eapply all_straight_step.
Qed.

(** C27. Log matching: in every run without [InstallSnapshot], with messages
    lost, delayed, reordered or handled twice, crashes, restarts and snapshots
    taken anywhere, in which no term ever has two leaders: if the logs of two
    peers hold entries of one term at one index, they hold the same entries at
    every index up to there. *)
Theorem log_matching n es s i j rfi rfj k e e' :
  steps es (init n) = Some s -> Forall (fun e => is_install_event e = false) es ->
  (forall T a b, led_in n es T a -> led_in n es T b -> a = b) ->
  nodes s !! i = Some rfi -> nodes s !! j = Some rfj ->
  entry_at rfi k = Some e -> entry_at rfj k = Some e' -> Term e = Term e' ->
  forall m x x', m <= k -> entry_at rfi m = Some x -> entry_at rfj m = Some x' -> x = x'.
Proof.
  intros Hrun Hni Huniq Hi Hj He He' Ht.
  destruct (run_recorded n es es [] s Huniq Hni) as (_ & c & Hc & _); [by rewrite app_nil_r|done|].
  apply (logged_agree c rfi rfj k e e'); [by eapply pl_logged, rec_peer|by eapply pl_logged, rec_peer|done..].
Qed.

End run.

Module Witness.

#[local] Instance Z_Gob : Gob (gval Z) := countable_Gob (gval Z).

(** ** The leaders of a run *)

Definition leaders (s : cluster Z) : list (Z * Z) :=
  (fun x => (currentTerm x.2, x.1)) <$> filter (fun x => leaderId x.2 = me x.2) (map_to_list (nodes s)).

Fixpoint leaders_along (es : list (event (Cmd := Z))) (s : cluster Z) : list (Z * Z) :=
  leaders s ++ match es with
               | [] => []
               | e :: es => match step e s with Some s' => leaders_along es s' | None => [] end
               end.

Lemma is_leader_leaders s i T : is_leader s i T -> (T, i) ∈ leaders s.
Proof.
  intros (rf & Hi & Hg). unfold GetState in Hg. injection Hg as <- Hl. apply Z.eqb_eq in Hl.
  apply list_elem_of_fmap. exists (i, rf). split; [done|]. apply list_elem_of_filter. split; [done|].
  by apply elem_of_map_to_list.
Qed.

Lemma led_along es1 es2 s s1 i T : steps es1 s = Some s1 -> is_leader s1 i T -> (T, i) ∈ leaders_along (es1 ++ es2) s.
Proof.
  revert s. induction es1 as [|e es1 IH]; intros s Hrun Hl; cbn [steps app] in *.
  - injection Hrun as <-. assert ((T, i) ∈ leaders s) by by apply is_leader_leaders.
    destruct es2; cbn [leaders_along]; apply elem_of_app; by left.
  - cbn [leaders_along]. apply elem_of_app. right. destruct (step e s) as [s'|]; [by apply IH|done].
Qed.

Definition one_leader (ls : list (Z * Z)) : bool :=
  forallb (fun p => forallb (fun q => negb (p.1 =? q.1) || (p.2 =? q.2)) ls) ls.

Lemma one_leader_unique n es T i j :
  one_leader (leaders_along es (init n)) = true -> led_in n es T i -> led_in n es T j -> i = j.
Proof.
  unfold one_leader. rewrite forallb_forall. intros Hall (es1 & es2 & s1 & -> & Hr1 & H1) (es3 & es4 & s2 & He & Hr2 & H2).
  pose proof (led_along es1 es2 _ _ _ _ Hr1 H1) as Hi. pose proof (led_along es3 es4 _ _ _ _ Hr2 H2) as Hj.
  rewrite <- He in Hj. apply list_elem_of_In in Hi, Hj. specialize (Hall _ Hi). rewrite forallb_forall in Hall.
  specialize (Hall _ Hj). cbn in Hall. rewrite Z.eqb_refl in Hall. by apply Z.eqb_eq in Hall.
Qed.

Definition sec : Z := 1000000000.

(** Peer 0 leads term 1 and replicates a command to peer 1; it crashes, peer 1
    leads term 2, and brings peer 2 up to date in two rounds. *)
Definition trace : list (event (Cmd := Z)) :=
  [EStart 0 (2 * sec) false; ESend 0 1; ESend 0 2; EVote 0 (2 * sec) 500; ERecv 0 1 (Some 0%nat); ERecv 0 2 None;
   EFinish 0 (2 * sec) 0;
   ELocal 0 (SStart (Some 7)); ERound 0 (3 * sec); EAppendSend 0 1; EAppendSend 0 2; EAppend 0 (3 * sec) 500;
   EAppendRecv 0 1 (Some 0%nat); EAppendRecv 0 2 None; ERoundFinish 0; ECrash 0 (3 * sec) 0;
   EStart 1 (6 * sec) false; ESend 1 0; ESend 1 2; EVote 3 (6 * sec) 500; ERecv 1 2 (Some 1%nat); ERecv 1 0 None;
   EFinish 1 (6 * sec) 0;
   ELocal 1 (SStart (Some 8)); ERound 1 (7 * sec); EAppendSend 1 2; EAppendSend 1 0; EAppend 2 (7 * sec) 500;
   EAppendRecv 1 2 (Some 1%nat); EAppendRecv 1 0 None; ERoundFinish 1;
   ERound 1 (8 * sec); EAppendSend 1 2; EAppendSend 1 0; EAppend 4 (8 * sec) 500].

Lemma trace_leaders : one_leader (leaders_along trace (init 3)) = true.
Proof. vm_compute. reflexivity. Qed.

(** Peers 1 and 2 have the entry [e] at index [k]. *)
Definition both_have (k : Z) (e : Entry Z) (s : cluster Z) : bool :=
  match nodes s !! 1, nodes s !! 2 with
  | Some rf1, Some rf2 => bool_decide (entry_at rf1 k = Some e /\ entry_at rf2 k = Some e)
  | _, _ => false
  end.

Lemma both_have_spec k e s : both_have k e s = true ->
  exists rf1 rf2, nodes s !! 1 = Some rf1 /\ nodes s !! 2 = Some rf2 /\ entry_at rf1 k = Some e /\ entry_at rf2 k = Some e.
Proof.
  unfold both_have. destruct (nodes s !! 1) as [rf1|]; [|done]. destruct (nodes s !! 2) as [rf2|]; [|done].
  intros [? ?]%bool_decide_eq_true. by exists rf1, rf2.
Qed.

Lemma trace_end : match steps trace (init 3) with Some s => both_have 2 (mkLogEntry (Some 8) 2) s | None => false end = true.
Proof. vm_compute. reflexivity. Qed.

Lemma trace_installs : forallb (fun e => negb (is_install_event e)) trace = true.
Proof. reflexivity. Qed.

Lemma no_installs (es : list (event (Cmd := Z))) :
  forallb (fun e => negb (is_install_event e)) es = true -> Forall (fun e => is_install_event e = false) es.
Proof.
  rewrite forallb_forall, Forall_forall. intros Hall e He. specialize (Hall e). rewrite <- list_elem_of_In in Hall.
  by apply negb_true_iff, Hall.
Qed.

Lemma log_matching_witness : exists (s : cluster Z) rf1 rf2,
  steps trace (init 3) = Some s /\ nodes s !! 1 = Some rf1 /\ nodes s !! 2 = Some rf2 /\
  entry_at rf1 2 = Some (mkLogEntry (Some 8) 2) /\
  forall m x x', m <= 2 -> entry_at rf1 m = Some x -> entry_at rf2 m = Some x' -> x = x'.
Proof.
  pose proof trace_end as Hend. destruct (steps trace (init 3)) as [s|] eqn:Hs; [|discriminate Hend].
  destruct (both_have_spec _ _ _ Hend) as (rf1 & rf2 & H1 & H2 & He1 & He2).
  exists s, rf1, rf2. split; [reflexivity|]. split; [exact H1|]. split; [exact H2|]. split; [exact He1|].
  apply (log_matching 3 trace s 1 2 rf1 rf2 2 _ _ Hs (no_installs _ trace_installs)
           (fun T a b => one_leader_unique 3 trace T a b trace_leaders) H1 H2 He1 He2 eq_refl).
Defined.

(** ** A late request undoes a commit *)

(** Peer 0 leads term 1.  Its first request to peer 1, with the command 7, is
    late; the second, with 7 and 8, arrives, so both commands are committed and
    applied.  Then the first request arrives, and peer 1 drops the command 8
    that it has acknowledged.  It wins term 2 with the vote of peer 2, and
    replicates, commits and applies the command 9 in its place. *)
Definition late_request : list (event (Cmd := Z)) :=
  [EStart 0 (2 * sec) false; ESend 0 1; ESend 0 2; EVote 0 (2 * sec) 500; ERecv 0 1 (Some 0%nat); ERecv 0 2 None;
   EFinish 0 (2 * sec) 0;
   ELocal 0 (SStart (Some 7)); ERound 0 (3 * sec); EAppendSend 0 1; EAppendSend 0 2;
   EAppendRecv 0 1 None; EAppendRecv 0 2 None; ERoundFinish 0;
   ELocal 0 (SStart (Some 8)); ERound 0 (4 * sec); EAppendSend 0 1; EAppendSend 0 2; EAppend 2 (4 * sec) 500;
   EAppendRecv 0 1 (Some 0%nat); EAppendRecv 0 2 None; ERoundFinish 0; EApply 0 0;
   EAppend 0 (4 * sec) 500;
   EStart 1 (8 * sec) false; ESend 1 0; ESend 1 2; EVote 3 (8 * sec) 500; ERecv 1 2 (Some 1%nat); ERecv 1 0 None;
   EFinish 1 (8 * sec) 0;
   ELocal 1 (SStart (Some 9)); ERound 1 (9 * sec); EAppendSend 1 2; EAppendSend 1 0; EAppend 4 (9 * sec) 500;
   EAppendRecv 1 2 (Some 2%nat); EAppendRecv 1 0 None; ERoundFinish 1;
   ERound 1 (10 * sec); EAppendSend 1 2; EAppendSend 1 0; EAppend 6 (10 * sec) 500;
   EAppendRecv 1 2 (Some 3%nat); EAppendRecv 1 0 None; ERoundFinish 1; EApply 1 0].

(** What the service of peer [i], never restarted, reads from [applyCh]. *)
Definition forwarded (i : Z) (rf : Raft Z) : list (ApplyMsg Z) :=
  ApplyMsgSender (Make (Cmd := Z) 3 i MakePersister 0 0) (sender rf).

Lemma late_request_leaders : one_leader (leaders_along late_request (init 3)) = true.
Proof. vm_compute. reflexivity. Qed.

Definition message (v : Z) : ApplyMsg Z := mkApplyMsg true (Some v) 2 false [] 0 0.

Lemma late_request_end :
  (fun s : cluster Z => (lookup 2%nat ∘ forwarded 0 <$> nodes s !! 0, lookup 2%nat ∘ forwarded 1 <$> nodes s !! 1)) <$>
    steps late_request (init 3) = Some (Some (Some (message 8)), Some (Some (message 9))).
Proof. vm_compute. reflexivity. Qed.

(** Log matching is not enough: although no term has two leaders, there is
    no crash and no snapshot, a run of three peers ends with two services that
    were told different commands for one index, because [AppendEntries] cuts
    the log after the entries of every request, late ones included. *)
Theorem late_request_diverges :
  exists (s : cluster Z) rf0 rf1 m0 m1, steps late_request (init 3) = Some s /\
    (forall T a b, led_in 3 late_request T a -> led_in 3 late_request T b -> a = b) /\
    nodes s !! 0 = Some rf0 /\ nodes s !! 1 = Some rf1 /\ m0 ∈ forwarded 0 rf0 /\ m1 ∈ forwarded 1 rf1 /\
    CommandValid m0 = true /\ CommandValid m1 = true /\
    CommandIndex m0 = CommandIndex m1 /\ am_Command m0 <> am_Command m1.
Proof.
  destruct (proj1 (fmap_Some _ _ _) late_request_end) as (s & Hs & Hm). apply pair_eq in Hm as [H0 H1].
  symmetry in H0, H1. apply fmap_Some in H0 as (rf0 & Hrf0 & H0), H1 as (rf1 & Hrf1 & H1).
  symmetry in H0, H1. apply list_elem_of_lookup_2 in H0, H1.
  exists s, rf0, rf1, (message 8), (message 9). split; [exact Hs|]. split.
  - intros T a b. apply one_leader_unique. exact late_request_leaders.
  - split_and!; [exact Hrf0|exact Hrf1|exact H0|exact H1|done..].
Qed.

End Witness.
End LogMatching.
