(* ===== verification/LogTree.v ===== *)
(** The entries that leaders create, as a tree: every entry has the one it was
    appended to as its parent, and a log is a path of the tree.  What the
    sections of a peer do to the end of its path. *)
From S2P Require Import Prelude Labgob Persister RaftState Raft RaftLemmas RaftElection RaftLog RaftSnapshot RaftSteps.
From S2P Require Import Cluster ClusterProofs ClusterSteps LogMatching.
Import Labgob Persist RaftState RaftNode RaftOk RaftElection RaftLog RaftSnapshot RaftSteps.
Import Cluster ClusterOk ClusterSteps LogMatching.
Local Open Scope Z_scope.

Module LogTree.

(** A position in the tree: the term and the index of an entry. *)
Abbreviation node := (Z * Z)%type.

Section tree.
Context {Cmd : Type} `{!Gob (gval Cmd)}.
#[local] Abbreviation history := (gmap (Z * Z) (Entry Cmd * Z)).
Implicit Types (rf : Raft Cmd) (s : cluster Cmd) (l : list (Entry Cmd)) (c : history) (x y z : node).

(** ** Ancestors *)

(** [x] is [y] or lies on the path from the root to [y]. *)
Inductive anc c x : node -> Prop :=
| anc_refl : anc c x x
| anc_step y e p : c !! y = Some (e, p) -> anc c x (p, y.2 - 1) -> anc c x y.

Definition root : node := (0, -1).

Definition in_tree c x : Prop := x = root \/ is_Some (c !! x).

(** Parents are in the tree, and terms do not decrease along a path. *)
Definition closed c : Prop :=
  forall T k e p, c !! (T, k) = Some (e, p) -> 0 <= k /\ p <= T /\ Term e = T /\ in_tree c (p, k - 1).

Lemma anc_trans c x y z : anc c x y -> anc c y z -> anc c x z.
Proof. intros Hxy. induction 1 as [|z e p Hz _ IH]; [done|]. by eapply anc_step. Qed.

Lemma anc_mono c c' x y : c ⊆ c' -> anc c x y -> anc c' x y.
Proof.
  intros Hc. induction 1 as [|y e p Hy _ IH]; [constructor|]. eapply anc_step; [|done]. by eapply lookup_weaken.
Qed.

Lemma anc_index c x y : anc c x y -> x.2 <= y.2.
Proof. induction 1; cbn in *; lia. Qed.

Lemma anc_same c x y : anc c x y -> y.2 <= x.2 -> x = y.
Proof. intros [|y' e p _ Ha%anc_index] Hi; [done|]. cbn in Ha. lia. Qed.

(** The ancestors of a position are ordered by their indices. *)
Lemma anc_linear c x y z : anc c x z -> anc c y z -> x.2 <= y.2 -> anc c x y.
Proof.
  intros Hx Hy Hi. revert Hx. induction Hy as [|z e p Hz Hy IH]; intros Hx; [done|]. apply IH.
  apply anc_index in Hy. cbn in Hy. inversion Hx as [|z' e' p' Hz' Hx']; subst; [lia|].
  rewrite Hz in Hz'. by injection Hz' as <- <-.
Qed.

Lemma anc_unique c t t' k z : anc c (t, k) z -> anc c (t', k) z -> t = t'.
Proof.
  intros H H'. pose proof (anc_linear _ _ _ _ H H' (Z.le_refl k)) as Ha.
  apply anc_same in Ha; [by injection Ha|done].
Qed.

Lemma in_tree_mono c c' x : c ⊆ c' -> in_tree c x -> in_tree c' x.
Proof. intros Hc [?|[v Hv]]; [by left|right]. exists v. by eapply lookup_weaken. Qed.

Lemma in_tree_low c x : closed c -> in_tree c x -> -1 <= x.2.
Proof.
  intros Hcl [->|[[e p] Hv]]; [done|]. destruct x as [T k]. apply Hcl in Hv as [? _]. cbn. lia.
Qed.

(** A position of the tree has an ancestor at every index below it. *)
Lemma anc_at c y k :
  closed c -> in_tree c y -> -1 <= k <= y.2 -> exists t, anc c (t, k) y /\ in_tree c (t, k).
Proof.
  intros Hcl. remember (Z.to_nat (y.2 - k)) as d eqn:Hd. revert y Hd.
  induction d as [|d IH]; intros [T j] Hd Hy Hk; cbn in *.
  - assert (k = j) as -> by lia. exists T. split; [constructor|done].
  - destruct Hy as [[= -> ->]|[[e p] Hy]]; [lia|].
    destruct (Hcl _ _ _ _ Hy) as (_ & _ & _ & Hp).
    destruct (IH (p, j - 1)) as (t & Ha & Ht); cbn; [lia|done|lia|].
    exists t. split; [|done]. by eapply anc_step.
Qed.

Lemma anc_in_tree c x y : closed c -> in_tree c y -> anc c x y -> in_tree c x.
Proof.
  intros Hcl Hy. induction 1 as [|[T k] e p Hc _ IH]; [done|]. apply IH. by apply Hcl in Hc as (_ & _ & _ & ?).
Qed.

Lemma anc_term c x y : closed c -> in_tree c y -> anc c x y -> x.1 <= y.1.
Proof.
  intros Hcl Hy. induction 1 as [|[T k] e p Hc _ IH]; [done|].
  destruct (Hcl _ _ _ _ Hc) as (_ & ? & _ & Hp). specialize (IH Hp). cbn in *. lia.
Qed.

Lemma anc_root c y : closed c -> in_tree c y -> anc c root y.
Proof.
  intros Hcl Hy. destruct (anc_at c y (-1) Hcl Hy) as (t & Ha & [[= ->]|[[e p] Ht]]).
  - pose proof (in_tree_low c y Hcl Hy). lia.
  - done.
  - apply Hcl in Ht as [? _]. lia.
Qed.

Lemma anc_dec c x y : closed c -> in_tree c y -> anc c x y \/ ~ anc c x y.
Proof.
  intros Hcl Hy. destruct (decide (-1 <= x.2 <= y.2)) as [Hk|Hk].
  - destruct (anc_at c y x.2 Hcl Hy Hk) as (t & Ha & _). destruct x as [t' k]. cbn in *.
    destruct (decide (t' = t)) as [->|Hne]; [by left|right]. intros Ha'. by apply Hne, (anc_unique c t' t k y).
  - right. intros Ha. pose proof (anc_index _ _ _ Ha).
    pose proof (in_tree_low c x Hcl (anc_in_tree _ _ _ Hcl Hy Ha)). lia.
Qed.

(** A larger tree has no other ancestors for an old position. *)
Lemma anc_grow c c' x y : c ⊆ c' -> closed c -> closed c' -> in_tree c y -> anc c' x y -> anc c x y.
Proof.
  intros Hc Hcl Hcl' Hy. induction 1 as [|y e p Hc' _ IH]; [constructor|].
  destruct Hy as [->|[[e' p'] Hy]]; [by apply Hcl' in Hc' as [? _]|].
  pose proof (lookup_weaken _ _ _ _ Hy Hc) as He. rewrite Hc' in He. injection He as <- <-.
  eapply anc_step; [done|]. apply IH. destruct y as [T k]. by apply Hcl in Hy as (_ & _ & _ & ?).
Qed.

(** ** Paths of logs and messages *)

Lemma chain_anc c b t l : chain c b t l -> anc c (t, b) (end_term t l, b + len l).
Proof.
  revert b t. induction l as [|e l IH]; intros b t.
  - intros _. unfold len. cbn. rewrite Z.add_0_r. constructor.
  - cbn [chain]. intros [He Hl]. rewrite end_term_cons.
    replace (b + len (e :: l)) with (b + 1 + len l) by (unfold len; cbn; lia).
    eapply anc_trans; [|by apply IH]. eapply anc_step; [done|]. cbn. replace (b + 1 - 1) with b by lia. constructor.
Qed.

Lemma chain_in_tree c b t l : in_tree c (t, b) -> chain c b t l -> in_tree c (end_term t l, b + len l).
Proof.
  revert b t. induction l as [|e l IH]; intros b t Hb.
  - intros _. unfold len. cbn. by rewrite Z.add_0_r.
  - cbn [chain]. intros [He Hl]. rewrite end_term_cons.
    replace (b + len (e :: l)) with (b + 1 + len l) by (unfold len; cbn; lia).
    apply IH; [right; by eexists|done].
Qed.

(** The end of a peer's log, and of what a request carries. *)
Definition tip rf : node := (last_term rf, last_index rf).
Definition end_node (args : AppendEntriesArgs Cmd) : node :=
  (end_term (PrevLogTerm args) (Entries args), PrevLogIndex args + len (Entries args)).
Definition prev_node (args : AppendEntriesArgs Cmd) : node := (PrevLogTerm args, PrevLogIndex args).
Definition base rf : node := (lastAppliedTerm rf, lastAppliedIndex rf).

Lemma tip_eq rf : tip rf = (end_term (lastAppliedTerm rf) (Log rf), lastAppliedIndex rf + len (Log rf)).
Proof. unfold tip, last_index. f_equal. lia. Qed.

Lemma tip_same rf rf' :
  Log rf' = Log rf -> lastAppliedIndex rf' = lastAppliedIndex rf -> lastAppliedTerm rf' = lastAppliedTerm rf ->
  tip rf' = tip rf.
Proof. rewrite !tip_eq. by intros -> -> ->. Qed.

Lemma same_log_tip rf rf' : same_log rf rf' -> tip rf' = tip rf.
Proof. intros (? & ? & ?). by apply tip_same. Qed.

Lemma same_log_base rf rf' : same_log rf rf' -> base rf' = base rf.
Proof. unfold base. by intros (_ & -> & ->). Qed.

Lemma end_term_app t l1 l2 : end_term t (l1 ++ l2) = end_term (end_term t l1) l2.
Proof.
  revert t. induction l1 as [|e l1 IH]; intros t; [done|]. cbn [app]. rewrite !end_term_cons. apply IH.
Qed.

(** Every prefix of the log is an ancestor of its end, the empty one if the log
    follows its snapshot. *)
Lemma prefix_anc c rf (m : nat) :
  logged c rf -> (m <= length (Log rf))%nat -> straight c rf \/ (0 < m)%nat ->
  anc c (end_term (lastAppliedTerm rf) (take m (Log rf)), lastAppliedIndex rf + Z.of_nat m) (tip rf).
Proof.
  intros [t Hl] Hm Hs. rewrite tip_eq.
  assert (exists t, chain c (lastAppliedIndex rf) t (Log rf) /\
    end_term (lastAppliedTerm rf) (take m (Log rf)) = end_term t (take m (Log rf)) /\
    end_term (lastAppliedTerm rf) (Log rf) = end_term t (Log rf)) as (t' & Hc & -> & ->).
  { destruct Hs as [Hs|Hs]; [by exists (lastAppliedTerm rf)|]. exists t.
    split_and!; [done|..]; apply end_term_some; intros Hn; apply (f_equal length) in Hn; rewrite ?length_take in Hn; cbn in Hn; lia. }
  clear t Hl Hs. rename t' into t. rewrite <- (take_drop m (Log rf)), chain_app in Hc.
  destruct Hc as [_ Hl]. apply chain_anc in Hl.
  assert (len (take m (Log rf)) = Z.of_nat m) as Ht by (unfold len; rewrite length_take; lia).
  rewrite Ht in Hl.
  rewrite <- end_term_app, take_drop in Hl. replace (lastAppliedIndex rf + len (Log rf))
    with (lastAppliedIndex rf + Z.of_nat m + len (drop m (Log rf))); [done|].
  unfold len. rewrite length_drop. lia.
Qed.

Lemma term_at_range rf k t : term_at rf k = Some t -> lastAppliedIndex rf <= k <= last_index rf.
Proof.
  intros Ht. unfold term_at in Ht. pose proof (len_nonneg (Log rf)). unfold last_index.
  destruct (Z.eqb_spec k (lastAppliedIndex rf)) as [->|]; [lia|].
  destruct (decide (lastAppliedIndex rf < k <= len (Log rf) + lastAppliedIndex rf)); [lia|].
  rewrite entry_at_out in Ht; [done|unfold last_index; lia].
Qed.

Lemma term_at_anc c rf k t :
  logged c rf -> straight c rf \/ lastAppliedIndex rf < k -> term_at rf k = Some t -> anc c (t, k) (tip rf).
Proof.
  intros Hl Hs Ht. pose proof (term_at_range rf k t Ht) as Hk.
  set (m := Z.to_nat (k - lastAppliedIndex rf)). unfold last_index, len in Hk.
  pose proof (term_at_prefix rf m ltac:(lia)) as Hp.
  replace (lastAppliedIndex rf + Z.of_nat m) with k in Hp by lia. rewrite Ht in Hp. injection Hp as ->.
  replace k with (lastAppliedIndex rf + Z.of_nat m) by lia. apply prefix_anc; [done|lia|].
  destruct Hs; [by left|right; lia].
Qed.

(** The path to the end of the log that precedes the log. *)
Lemma below_log c rf : logged c rf -> Log rf <> [] -> exists t, anc c (t, lastAppliedIndex rf) (tip rf) /\ (t = lastAppliedTerm rf -> straight c rf).
Proof.
  intros [t Hl] Hn. exists t. split.
  - rewrite tip_eq, (end_term_some _ t) by done. by apply chain_anc.
  - unfold straight. by intros <-.
Qed.

(** A log that contains the position of its snapshot follows it. *)
Lemma base_straight c rf : logged c rf -> anc c (base rf) (tip rf) -> straight c rf.
Proof.
  intros Hl Ha. destruct (decide (Log rf = [])) as [Hn|Hn]; [unfold straight; by rewrite Hn|].
  destruct (below_log c rf Hl Hn) as (t & Ht & Hs). apply Hs. by eapply anc_unique.
Qed.

Lemma entry_at_node c rf k e :
  logged c rf -> entry_at rf k = Some e -> anc c (Term e, k) (tip rf) /\ exists p, c !! (Term e, k) = Some (e, p).
Proof.
  intros Hl He. destruct (logged_entry c rf k e Hl He) as (p & _ & Hc). split; [|by exists p].
  assert (lastAppliedIndex rf < k) as Hk by (unfold entry_at in He; destruct (Z.gtb_spec k (lastAppliedIndex rf)); [lia|done]).
  apply term_at_anc; [done|by right|]. unfold term_at. destruct (Z.eqb_spec k (lastAppliedIndex rf)); [lia|by rewrite He].
Qed.

(** An ancestor of the end that is not in the snapshot is in the log. *)
Lemma anc_entry c rf t k :
  logged c rf -> anc c (t, k) (tip rf) -> lastAppliedIndex rf < k ->
  exists e p, entry_at rf k = Some e /\ Term e = t /\ c !! (t, k) = Some (e, p).
Proof.
  intros Hl Ha Hk. pose proof (anc_index _ _ _ Ha) as Hle. cbn in Hle.
  destruct (entry_at_in rf k) as (e & _ & He); [lia|]. destruct (entry_at_node c rf k e Hl He) as [Ha' [p Hp]].
  assert (Term e = t) as <- by by eapply anc_unique. by exists e, p.
Qed.

Lemma base_anc c rf : straight c rf -> anc c (base rf) (tip rf).
Proof. intros Hl. apply term_at_anc; [by apply straight_logged|by left|]. unfold term_at. by rewrite Z.eqb_refl. Qed.

(** ** What sections do to the end of the log *)

Lemma trims_tip rf rf' : trims rf rf' -> tip rf' = tip rf.
Proof.
  intros (m & Hm & Hl & Hi & Ht). rewrite !tip_eq, Hl, Hi, Ht, <- end_term_app, take_drop. f_equal.
  unfold len. rewrite length_drop. lia.
Qed.

(** A log cut at [PrevLogIndex], whose entry is not the leader's: what it has in
    common with the request stays, unless nothing but the snapshot does. *)
Lemma truncated_tip c args rf :
  logged c rf -> lastAppliedIndex rf < PrevLogIndex args <= last_index rf ->
  term_at rf (PrevLogIndex args) <> Some (PrevLogTerm args) ->
  (anc c (tip (truncated args rf)) (tip rf) \/ tip (truncated args rf) = base rf) /\
  forall x, anc c x (tip rf) -> anc c (prev_node args) x \/ x.2 < PrevLogIndex args ->
    anc c x (tip (truncated args rf)) \/ tip (truncated args rf) = base rf /\ x.2 <= lastAppliedIndex rf.
Proof.
  intros Hl Hr Hne. unfold last_index, len in Hr.
  set (m := Z.to_nat (PrevLogIndex args - lastAppliedIndex rf - 1)).
  assert (tip (truncated args rf) =
    (end_term (lastAppliedTerm rf) (take m (Log rf)), lastAppliedIndex rf + Z.of_nat m)) as Htip.
  { rewrite tip_eq. cbn. fold m. f_equal. unfold len. rewrite length_take. lia. }
  assert (forall x, anc c x (tip rf) -> anc c (prev_node args) x -> False) as Hno.
  { intros x Hx Hp. destruct (term_at_in rf (PrevLogIndex args)) as [t Ht]; [unfold last_index, len; lia|]. destruct Hne.
    rewrite Ht. f_equal. apply (anc_unique c t (PrevLogTerm args) (PrevLogIndex args) (tip rf)).
    + apply term_at_anc; [done|right; lia|done].
    + by eapply anc_trans. }
  destruct (decide (m = 0%nat)) as [Hm|Hm].
  - assert (tip (truncated args rf) = base rf) as Hb by (rewrite Htip, Hm, Z.add_0_r; done). split; [by right|].
    intros x Hx [Hp|Hlt]; [by destruct (Hno x)|]. right. split; [done|lia].
  - assert (anc c (tip (truncated args rf)) (tip rf)) as Ha by (rewrite Htip; apply prefix_anc; [done|lia|right; lia]).
    split; [by left|]. intros x Hx [Hp|Hlt]; [by destruct (Hno x)|]. left.
    eapply anc_linear; [done..|]. rewrite Htip. cbn. lia.
Qed.

Lemma prev_anc_end c args :
  chain c (PrevLogIndex args) (PrevLogTerm args) (Entries args) -> anc c (prev_node args) (end_node args).
Proof. apply chain_anc. Qed.

(** What follows an accepted request: the log ends where the request does, or
    it already went further. *)
Lemma append_entries_tip c args rf :
  logged c rf -> lastAppliedIndex rf <= PrevLogIndex args <= last_index rf ->
  term_at rf (PrevLogIndex args) = Some (PrevLogTerm args) ->
  Entries args <> [] /\ tip (append_entries args rf) = end_node args \/
  Entries args = [] /\ tip (append_entries args rf) = tip rf /\ (anc c (end_node args) (tip rf) \/ end_node args = base rf).
Proof.
  intros Hl Hr Ht. unfold append_entries. destruct (Z.gtb_spec (len (Entries args)) 0) as [Hz|Hz].
  - left. split; [by intros He; rewrite He in Hz|]. rewrite tip_eq. cbn. unfold last_index, len in Hr. set (m := Z.to_nat (PrevLogIndex args - lastAppliedIndex rf)).
    pose proof (term_at_prefix rf m ltac:(lia)) as Hp.
    replace (lastAppliedIndex rf + Z.of_nat m) with (PrevLogIndex args) in Hp by lia. rewrite Ht in Hp.
    injection Hp as Hp. rewrite end_term_app, <- Hp. unfold end_node. f_equal.
    rewrite len_app. unfold len. rewrite length_take. lia.
  - right. assert (Entries args = []) as He by by (destruct (Entries args); [done|unfold len in Hz; cbn in Hz; lia]).
    split; [done|]. split; [done|]. unfold end_node. rewrite He. unfold len. cbn. rewrite Z.add_0_r.
    destruct (decide (PrevLogIndex args = lastAppliedIndex rf)) as [Heq|]; [right|left; apply term_at_anc; [done|right; lia|done]].
    rewrite Heq in *. unfold term_at in Ht. rewrite Z.eqb_refl in Ht. injection Ht as Ht. unfold base. by rewrite Ht.
Qed.

(** The effect of [AppendEntries] on the log: its snapshot stays; what it has
    in common with the request stays or is in the snapshot; it ends on its own
    path, or with the request, or with the snapshot; and when the request is
    accepted it contains the request, which ends with the snapshot otherwise. *)
Record append_effect c args rf rf' (ok : bool) : Prop := {
  ap_base : base rf' = base rf;
  ap_sender : sender rf' = sender rf;
  ap_keeps : forall x, anc c x (tip rf) -> anc c x (end_node args) ->
    anc c x (tip rf') \/ tip rf' = base rf /\ x.2 <= lastAppliedIndex rf;
  ap_tip : anc c (tip rf') (tip rf) \/ tip rf' = base rf \/
    currentTerm rf <= ae_Term args /\ tip rf' = end_node args /\ Entries args <> [] /\ ok = true;
  ap_ok : ok = true -> currentTerm rf <= ae_Term args /\ currentTerm rf' = ae_Term args /\
    (anc c (end_node args) (tip rf') \/ Entries args = [] /\ end_node args = base rf);
  ap_saved : ok = true -> Entries args <> [] -> in_sync rf' /\ tip rf' = end_node args;
  ap_commit : commitIndex rf' = commitIndex rf \/
    ok = true /\ commitIndex rf < LeaderCommit args /\ commitIndex rf' = Z.min (LeaderCommit args) (last_index rf');
}.

Lemma append_body_tip c args rf rf1 reply :
  AppendEntries_body args rf = Ret (rf1, reply) -> logged c rf ->
  chain c (PrevLogIndex args) (PrevLogTerm args) (Entries args) -> append_effect c args rf rf1 (Success reply).
Proof.
  intros Hrun Hl Hc. revert Hrun. rewrite AppendEntries_body_eq.
  pose proof (adopt_leader_log (ae_Term args) (ae_LeaderId args) rf) as Hlog. unfold log_part in Hlog.
  injection Hlog as HL Hci _ Hi Ht _ _ _ _ Hse _. set (rf2 := adopt_leader _ _ rf) in *.
  assert (logged c rf2) as Hl2 by (unfold logged; by rewrite HL, Hi).
  assert (tip rf2 = tip rf /\ base rf2 = base rf /\ last_index rf2 = last_index rf) as (Htip & Hbase & Hlast)
    by (rewrite !tip_eq; unfold base, last_index; by rewrite HL, Hi, Ht).
  assert (forall k, term_at rf2 k = term_at rf k) as Hta by (intros k; unfold term_at, entry_at; by rewrite HL, Hi, Ht).
  destruct (adopt_leader_state (ae_Term args) (ae_LeaderId args) rf) as (Hterm & _). fold rf2 in Hterm.
  clearbody rf2.
  destruct (decide (accepts args rf)) as [(Hle & Hp & Hpt)|Hna]; [|case_decide as Hsnap; [done|]].
  - intros [= <- <-]. cbn [Success]. set (rf3 := append_entries args rf2).
    assert (base rf3 = base rf2 /\ sender rf3 = sender rf2 /\ commitIndex rf3 = commitIndex rf2 /\
      currentTerm rf3 = currentTerm rf2) as (Hb3 & Hs3 & Hc3 & Ht3)
      by (unfold rf3, append_entries; by case_cond).
    assert (append_effect c args rf rf3 true) as [G1 G2 G3 G4 G5 G6 _].
    { destruct (append_entries_tip c args rf2) as [[Hne He]|(Hnil & He & Ha)]; [done|by rewrite Hi, Hlast|by rewrite Hta|..]; fold rf3 in He.
      - split; rewrite ?He, <- ?Htip; try done; try congruence; [auto|right; right; split_and!; done|
          intros _; split_and!; [done|lia|left; constructor]| |left; congruence].
        intros _ _. split; [|done]. unfold rf3, append_entries. destruct (Z.gtb_spec (len (Entries args)) 0) as [_|Hz]; [apply in_sync_persist|].
        destruct Hne. by destruct (Entries args); [|unfold len in Hz; cbn in Hz; lia].
      - split; rewrite ?He, <- ?Htip; try done; try congruence; [auto|left; constructor| |left; congruence].
        intros _. split_and!; [done|lia|]. rewrite Hbase in Ha. destruct Ha; [by left|by right]. }
    unfold advance_commit. destruct (Z.gtb_spec (LeaderCommit args) (commitIndex rf3)); cbn.
    + split; try done. right. rewrite Hc3, Hci in *. split_and!; [done|lia|done].
    + split; try done. left. congruence.
  - destruct (ae_Term args <? currentTerm rf) eqn:Hlt.
    { intros [= <- <-]. split; try done; [by left|left; constructor|by left]. }
    destruct (_ || _) eqn:Hrange; intros [= <- <-].
    { split; rewrite ?Htip; try done; [by left|left; constructor|by left]. }
    zbool. destruct (truncated_tip c args rf2) as [Ha Hk]; [done|..].
    + rewrite Hi, Hlast. split; [|lia]. destruct (decide (PrevLogIndex args = lastAppliedIndex rf)) as [He|]; [|lia].
      exfalso. apply Hna. split_and!; [lia|lia|lia|]. rewrite He. unfold term_at. rewrite Z.eqb_refl. f_equal.
      destruct (decide (PrevLogTerm args = lastAppliedTerm rf)); [done|]. destruct Hsnap. split_and!; [lia|done|done].
    + rewrite Hta. intros Ht'. apply Hna. split_and!; [lia|lia|lia|done].
    + rewrite Htip, Hbase in Ha, Hk. split; cbn; try done; [|destruct Ha; auto|by left].
      intros x Hx Hxe. rewrite <- Hi. apply Hk; [done|].
      destruct (decide (x.2 < PrevLogIndex args)); [by right|left].
      eapply anc_linear; [by apply prev_anc_end|done|cbn; lia].
Qed.

Lemma AppendEntries_tip c now r args rf rf' reply :
  AppendEntries now r args rf = Ret (rf', reply) -> logged c rf ->
  chain c (PrevLogIndex args) (PrevLogTerm args) (Entries args) -> append_effect c args rf rf' (Success reply).
Proof.
  unfold AppendEntries. intros ([rf1 reply1] & Hrun & [= <- <-])%rbind_ret Hl Hc.
  destruct (append_body_tip _ _ _ _ _ Hrun Hl Hc) as [? ? ? ? ? ? ?]. by split.
Qed.

(** The position that a snapshot covers. *)
Definition snap_node (args : InstallsnapshotArgs) : node := (LastIncludedTerm args, LastIncludedIndex args).

(** After a snapshot, the log ends where it did, or with the snapshot. *)
Lemma installed_tip args rf rf' :
  installed args rf rf' ->
  (tip rf' = snap_node args /\ base rf' = snap_node args /\ last_index rf <= LastIncludedIndex args) \/
  (tip rf' = tip rf /\ (base rf' = base rf \/ base rf' = snap_node args /\ lastAppliedIndex rf <= lastAppliedIndex rf')).
Proof.
  intros Hin. destruct (in_log _ _ _ Hin) as [(Hle & Hl & Hi & Ht)|[(Hr & Hl & Hi & Ht)|Hs]].
  - left. rewrite tip_eq. unfold base, snap_node. rewrite Hl, Hi, Ht. unfold len. cbn. by rewrite Z.add_0_r.
  - right. split; [|right; split; [unfold base, snap_node; by rewrite Hi, Ht|lia]].
    unfold last_index, len in Hr. rewrite !tip_eq, Hl, Hi.
    set (m := Z.to_nat (LastIncludedIndex args - lastAppliedIndex rf)).
    assert (drop m (Log rf) <> []) as Hn.
    { intros Hn. apply (f_equal length) in Hn. rewrite length_drop in Hn. cbn in Hn. lia. }
    rewrite (end_term_some _ (end_term (lastAppliedTerm rf) (take m (Log rf)))), <- end_term_app, take_drop by done.
    f_equal. unfold len. rewrite length_drop. lia.
  - right. split; [by apply same_log_tip|left; by apply same_log_base].
Qed.

(** What a leader sends ends where its log ends. *)
Lemma appendRPCWorker_send_tip c i term rf args :
  appendRPCWorker_send i term rf = Ret (Some args) -> -1 <= lastAppliedIndex rf -> straight c rf ->
  end_node args = tip rf /\ anc c (prev_node args) (tip rf) /\ LeaderCommit args = commitIndex rf /\ nextIndex rf !! Z.to_nat i = Some (PrevLogIndex args + 1) /\ currentTerm rf = term.
Proof.
  intros Hsend Hlow Hc. pose proof Hsend as Hs. unfold appendRPCWorker_send in Hs.
  apply rbind_ret in Hs as (next & Hn & Hs). case_cond; [done|]. case_cond; [done|]. zbool.
  apply rbind_ret in Hs as (t & Ht & Hs). apply rbind_ret in Hs as (es & Hes & _).
  apply go_from_ret in Hes as [Hr _].
  destruct (appendRPCWorker_send_eq i term next rf) as (t' & Ht' & Heq); [done|done|unfold last_index; lia|done..|].
  rewrite Heq in Hsend. injection Hsend as <-. unfold end_node, prev_node. cbn.
  set (m := Z.to_nat (next - lastAppliedIndex rf - 1)). unfold len in Hr.
  split_and!; [|apply term_at_anc; [by apply straight_logged|by left|done]|done| |done].
  - rewrite tip_eq. pose proof (term_at_prefix rf m ltac:(lia)) as Hp.
    replace (lastAppliedIndex rf + Z.of_nat m) with (next - 1) in Hp by lia. rewrite Ht' in Hp. injection Hp as ->.
    rewrite <- end_term_app, take_drop. f_equal. unfold len. rewrite length_drop. lia.
  - apply go_index_ret in Hn as [_ Hn]. rewrite Hn. f_equal. lia.
Qed.

End tree.
End LogTree.
