(* ===== verification/Leadership.v ===== *)
(** Runs of the cluster in which waits end in the term they began in, requests
    of one leader to one follower arrive in order, and snapshots are taken of
    committed entries: who leads in such a run, and what an event does to a
    peer as it is and as it would restart. *)
From S2P Require Import Prelude Labgob Persister RaftState Raft RaftLemmas RaftElection RaftLog RaftSnapshot RaftSteps.
From S2P Require Import Cluster ClusterProofs ClusterSteps LogMatching LogTree.
Import Labgob Persist RaftState RaftNode RaftOk RaftElection RaftLog RaftSnapshot RaftSteps.
Import Cluster ClusterOk ClusterSteps LogMatching LogTree.
Local Open Scope Z_scope.

Module Leadership.

(** ** Orderly runs *)

Section orderly.
Context {Cmd : Type} `{!Gob (gval Cmd)}.
Implicit Types (rf : Raft Cmd) (s : cluster Cmd).

(** No later request of the same term to the same follower was handled yet. *)
Definition in_order (k : nat) s : bool :=
  match aes s !! k with
  | Some (j, args) =>
      forallb (fun x => match aes s !! x.1 with
                        | Some (j', args') =>
                            negb ((j' =? j) && (ae_Term args' =? ae_Term args)) || (x.1 <=? k)%nat
                        | None => true
                        end) (aers (repl s))
  | None => true
  end.

Definition orderly (e : event (Cmd := Cmd)) s : bool :=
  match e with
  | EFinish i _ _ =>
      match nodes s !! i, elections s !! i with
      | Some rf, Some el => (voteCount el <=? Z.quot (npeers rf) 2) || (currentTerm rf =? el_term el)
      | _, _ => true
      end
  | ERoundFinish i =>
      match nodes s !! i, rounds (repl s) !! i with
      | Some rf, Some rd => (rd_count rd <=? Z.quot (npeers rf) 2) || (currentTerm rf =? rd_term rd)
      | _, _ => true
      end
  | EAppend k _ _ => in_order k s
  | ELocal i (SDoSnapshot index _) =>
      match nodes s !! i with
      | Some rf => (index <=? commitIndex rf) || (index <=? lastAppliedIndex rf)
      | None => true
      end
  | _ => true
  end.

(** Every step of the run is orderly. *)
Fixpoint orderly_run (es : list (event (Cmd := Cmd))) s : bool :=
  match es with
  | [] => true
  | e :: es => orderly e s && match step e s with Some s' => orderly_run es s' | None => true end
  end.

Lemma in_order_spec k s j args k' reply args' :
  in_order k s = true -> aes s !! k = Some (j, args) -> (k', reply) ∈ aers (repl s) ->
  aes s !! k' = Some (j, args') -> ae_Term args' = ae_Term args -> (k' <= k)%nat.
Proof.
  unfold in_order. intros Ho Hk Hin Hk' Ht. rewrite Hk, forallb_forall in Ho.
  apply list_elem_of_In in Hin. specialize (Ho _ Hin). cbn in Ho.
  rewrite Hk', Ht, !Z.eqb_refl in Ho. cbn in Ho. by apply Nat.leb_le.
Qed.

(** ** What an event does to the messages *)

Lemma step_won e s s' :
  step e s = Some s' ->
  won s' = won s \/
  exists i now r rf el, e = EFinish i now r /\ nodes s !! i = Some rf /\ elections s !! i = Some el /\
    Z.quot (npeers rf) 2 < voteCount el /\ won s' = won s ++ [(el_term el, i)].
Proof.
  destruct e; cbn [step]; try (unfold start, send, vote, recv, round, append_send, append, append_recv, snap_send,
    install, snap_recv, round_finish, apply_committed, local, crash; step_cases; by left).
  unfold finish. step_cases; [|by left]. right. zbool. cbn. by repeat eexists.
Qed.

Lemma step_reps e s s' :
  step e s = Some s' ->
  reps s' = reps s \/
  exists k now r j args rf rf' reply, e = EVote k now r /\ reqs s !! k = Some (j, args) /\ nodes s !! j = Some rf /\
    RequestVote now r args rf = Ret (rf', reply) /\ reps s' = reps s ++ [(j, args, reply)].
Proof.
  destruct e; cbn [step]; try (unfold start, send, recv, finish, round, append_send, append, append_recv, snap_send,
    install, snap_recv, round_finish, apply_committed, local, crash; step_cases; by left).
  unfold vote. step_cases; right; by repeat eexists.
Qed.

Lemma step_reqs e s s' :
  step e s = Some s' ->
  reqs s' = reqs s \/
  exists i j rf el args, e = ESend i j /\ nodes s !! i = Some rf /\ elections s !! i = Some el /\
    electionSender_send (el_term el) rf = Ret (Some args) /\ nodes s' = nodes s /\ reqs s' = reqs s ++ [(j, args)].
Proof.
  destruct e; cbn [step]; try (unfold start, vote, recv, finish, round, append_send, append, append_recv, snap_send,
    install, snap_recv, round_finish, apply_committed, local, crash; step_cases; by left).
  unfold send. step_cases; [right; by repeat eexists|by left].
Qed.

Lemma step_aers e s s' :
  step e s = Some s' ->
  aers (repl s') = aers (repl s) \/
  exists k now r j args rf rf' reply, e = EAppend k now r /\ aes s !! k = Some (j, args) /\ nodes s !! j = Some rf /\
    AppendEntries now r args rf = Ret (rf', reply) /\ nodes s' = <[j := rf']> (nodes s) /\ aes s' = aes s /\
    aers (repl s') = aers (repl s) ++ [(k, reply)].
Proof.
  destruct e; cbn [step]; try (unfold start, send, vote, recv, finish, round, append_send, append_recv, snap_send,
    install, snap_recv, round_finish, apply_committed, local, crash; step_cases; by left).
  unfold append. step_cases. right. by repeat eexists.
Qed.

Lemma step_iss e s s' :
  step e s = Some s' ->
  iss s' = iss s \/
  exists i j rf rd args, e = ESnapSend i j /\ nodes s !! i = Some rf /\ rounds (repl s) !! i = Some rd /\
    InstallSnapshotSender_send (rd_term rd) rf = Some args /\ nodes s' = nodes s /\ iss s' = iss s ++ [(j, args)].
Proof.
  destruct e; cbn [step]; try (unfold start, send, vote, recv, finish, round, append_send, append, append_recv,
    install, snap_recv, round_finish, apply_committed, local, crash; step_cases; by left).
  unfold snap_send. step_cases; [right; by repeat eexists|by left].
Qed.

Lemma snapshot_sent term rf args : InstallSnapshotSender_send term rf = Some args ->
  leaderId rf = me rf /\ is_Term args = currentTerm rf /\ is_LeaderId args = leaderId rf /\ snap_node args = base rf.
Proof. unfold InstallSnapshotSender_send. case_cond; [done|]. zbool. by intros [= <-]. Qed.

(** The voters that a candidate counts. *)
Lemma step_tally e s s' T i S' j :
  step e s = Some s' -> tally s' !! (T, i) = Some S' -> j ∈ S' ->
  (exists S, tally s !! (T, i) = Some S /\ j ∈ S) \/ j = i \/
  exists args reply, (j, args, reply) ∈ reps s /\ VoteGranted reply = true /\ CandidateId args = i /\ rv_Term args = T.
Proof.
  destruct e; cbn [step]; try (unfold send, vote, finish, round, append_send, append, append_recv, snap_send,
    install, snap_recv, round_finish, apply_committed, local, crash; step_cases; intros Ht Hj; left; by exists S').
  - unfold start. step_cases. cbn. intros Ht Hj. destruct (decide ((T, i) = (currentTerm r + 1, i0))) as [[= -> ->]|Hne].
    + right. left. match goal with H : startElection_begin _ = _ |- _ => unfold startElection_begin in H; injection H as _ <- _ end.
      cbn in Ht. rewrite lookup_insert_eq in Ht. injection Ht as <-. by apply elem_of_singleton in Hj.
    + match goal with H : startElection_begin _ = _ |- _ => unfold startElection_begin in H; injection H as _ <- _ end.
      cbn in Ht. rewrite lookup_insert_ne in Ht by done. left. by exists S'.
  - unfold recv. destruct (nodes s !! i0) as [rf|]; [|done]. destruct (elections s !! i0) as [el|]; [|done].
    destruct (decide (j0 ∈ pending el)) as [Hp|]; [|done]. destruct (reply_for i0 j0 (el_term el) k s) as [[ok reply]|] eqn:Hr; [|done].
    pose proof (electionSender_recv_cases (el_term el) ok reply (voteCount el) rf) as Hcases.
    destruct (electionSender_recv _ ok reply (voteCount el) rf) as [rf' votes].
    destruct Hcases as (_ & _ & _ & _ & _ & _ & Hvotes). intros [= <-]. cbn.
    destruct Hvotes as [->|(-> & -> & Hg & _)].
    + rewrite Z.eqb_refl. intros Ht Hj. left. by exists S'.
    + destruct (Z.eqb_spec (voteCount el + 1) (voteCount el)); [lia|].
      destruct (decide ((T, i) = (el_term el, i0))) as [[= -> ->]|Hne].
      2: { rewrite lookup_insert_ne by done. intros Ht Hj. left. by exists S'. }
      rewrite lookup_insert_eq. intros [= <-]. intros [Hj|Hj%elem_of_singleton]%elem_of_union.
      { left. destruct (tally s !! (el_term el, i0)) as [S|]; [by exists S|set_solver]. }
      subst j0. right. right. unfold reply_for in Hr. destruct k as [k|]; [|by injection Hr].
      destruct (reps s !! k) as [[[j' args] reply']|] eqn:Hk; [|done].
      destruct (decide _) as [(-> & ? & ?)|]; [|done]. injection Hr as ->.
      exists args, reply. split_and!; try done. by eapply list_elem_of_lookup_2.
Qed.

(** The rounds go on in their terms, or start with a leader's ticker. *)
Lemma step_rounds e s s' i rd' :
  step e s = Some s' -> rounds (repl s') !! i = Some rd' ->
  (exists rd, rounds (repl s) !! i = Some rd /\ rd_term rd' = rd_term rd /\
     (elections s !! i = None -> elections s' !! i = None) /\ forall now r, e <> ECrash i now r) \/
  (exists now rf, e = ERound i now /\ nodes s !! i = Some rf /\ leaderId rf = me rf /\ rd_term rd' = currentTerm rf /\
     elections s' !! i = None /\ nodes s' = nodes s).
Proof.
  destruct e; cbn [step].
  - unfold start. step_cases. cbn. intros Hrd. left. exists rd'. destruct (decide (i = i0)) as [->|]; [congruence|].
    split_and!; try done. by rewrite lookup_insert_ne.
  - unfold send. step_cases; intros Hrd; left; exists rd'; (split_and!; [done|done| |done]); cbn;
      (destruct (decide (i = i0)) as [->|]; [congruence|by rewrite lookup_insert_ne]).
  - unfold vote. step_cases; intros Hrd; left; by exists rd'.
  - unfold recv. step_cases; intros Hrd; left; exists rd'; (split_and!; [done|done| |done]); cbn;
      (destruct (decide (i = i0)) as [->|]; [congruence|by rewrite lookup_insert_ne]).
  - unfold finish. step_cases; intros Hrd; left; exists rd'; (split_and!; [done|done| |done]); cbn;
      (destruct (decide (i = i0)) as [->|]; [by rewrite lookup_delete_eq|by rewrite lookup_delete_ne]).
  - unfold round. destruct (nodes s !! i0) as [rf|] eqn:Hi; [|done]. destruct (elections s !! i0) eqn:He; [done|].
    destruct (rounds (repl s) !! i0) eqn:Hr; [done|]. destruct (ticker now rf) eqn:Ht; try done.
    destruct (sendAERpcs_begin rf) as [[term rpcs]|] eqn:Hb; [|done]. intros [= <-]. cbn.
    destruct (decide (i = i0)) as [->|].
    + rewrite lookup_insert_eq. intros [= <-]. right. exists now, rf. split_and!; try done.
      * unfold ticker in Ht. destruct (killed rf); [done|].
        destruct (Z.eqb_spec (leaderId rf) (me rf)); [done|]. by destruct (isTimeout now rf).
      * unfold sendAERpcs_begin in Hb. apply rbind_ret in Hb as (? & _ & Hb). by injection Hb as <- _.
    + rewrite lookup_insert_ne by done. intros Hrd. left. by exists rd'.
  - unfold append_send. step_cases; cbn; (destruct (decide (i = i0)) as [->|];
      [rewrite lookup_insert_eq; intros [= <-]; left; by eexists|rewrite lookup_insert_ne by done; intros Hrd; left; by exists rd']).
  - unfold append. step_cases; intros Hrd; left; by exists rd'.
  - unfold append_recv. step_cases; cbn; (destruct (decide (i = i0)) as [->|];
      [rewrite lookup_insert_eq; intros [= <-]; left; by eexists|rewrite lookup_insert_ne by done; intros Hrd; left; by exists rd']).
  - unfold snap_send. step_cases; cbn; (destruct (decide (i = i0)) as [->|];
      [rewrite lookup_insert_eq; intros [= <-]; left; by eexists|rewrite lookup_insert_ne by done; intros Hrd; left; by exists rd']).
  - unfold install. step_cases; intros Hrd; left; by exists rd'.
  - unfold snap_recv. step_cases; cbn; (destruct (decide (i = i0)) as [->|];
      [rewrite lookup_insert_eq; intros [= <-]; left; by eexists|rewrite lookup_insert_ne by done; intros Hrd; left; by exists rd']).
  - unfold round_finish. step_cases; cbn. intros [Hne Hrd]%lookup_delete_Some; left; by exists rd'.
  - unfold apply_committed. step_cases; intros Hrd; left; by exists rd'.
  - unfold local. step_cases; intros Hrd; left; by exists rd'.
  - unfold crash. step_cases; cbn. intros [Hne Hrd]%lookup_delete_Some. left. exists rd'.
    split_and!; [done|done|by rewrite lookup_delete_ne|]. intros now' r' [= <- _ _]. done.
Qed.

(** ** What an event does to one peer *)

Inductive change s (e : event (Cmd := Cmd)) (i : Z) rf : Raft Cmd -> Prop :=
| ch_same : change s e i rf rf
| ch_exec x rf' : runs s e i x -> exec x rf = Ret rf' -> change s e i rf rf'
| ch_crash now r : e = ECrash i now r -> change s e i rf (Make (npeers rf) (me rf) (Copy (persister rf)) now r).

Lemma step_peer e s s' i rf :
  step e s = Some s' -> nodes s !! i = Some rf -> exists rf', nodes s' !! i = Some rf' /\ change s e i rf rf'.
Proof.
  intros Hstep Hi. destruct (proj1 (step_moves e s s' Hstep))
    as [Hn _|j rfj rfj' x Hj Hx Hr Hn _|j rfj now r -> Hj Hn _|j l rfj term args -> Hj _ Hn _]; rewrite Hn.
  - exists rf. split; [done|constructor].
  - destruct (decide (i = j)) as [->|].
    + rewrite lookup_insert_eq. rewrite Hi in Hj. injection Hj as <-. exists rfj'. split; [done|by eapply ch_exec].
    + rewrite lookup_insert_ne by done. exists rf. split; [done|constructor].
  - destruct (decide (i = j)) as [->|].
    + rewrite lookup_insert_eq. rewrite Hi in Hj. injection Hj as <-. eexists. split; [done|by eapply ch_crash].
    + rewrite lookup_insert_ne by done. exists rf. split; [done|constructor].
  - exists rf. split; [done|constructor].
Qed.

Lemma step_peer_inv e s s' i rf' :
  step e s = Some s' -> nodes s' !! i = Some rf' -> exists rf, nodes s !! i = Some rf /\ change s e i rf rf'.
Proof.
  intros Hstep Hi. destruct (nodes s !! i) as [rf|] eqn:Hs.
  - destruct (step_peer e s s' i rf Hstep Hs) as (rf2 & Hi2 & Hc). rewrite Hi in Hi2. injection Hi2 as <-. by exists rf.
  - exfalso. destruct (proj1 (step_moves e s s' Hstep))
      as [Hn _|j rfj rfj' x Hj Hx Hr Hn _|j rfj now r -> Hj Hn _|j l rfj term args -> Hj _ Hn _]; rewrite Hn in Hi;
      try (rewrite lookup_insert_ne in Hi by congruence); congruence.
Qed.

(** What [applyLogToRsm] and [doSnapshot] leave alone. *)
Lemma apply_state index rf rf' :
  applyLogToRsm index rf = Ret rf' ->
  leaderId rf' = leaderId rf /\ currentTerm rf' = currentTerm rf /\ commitIndex rf' = commitIndex rf /\
  base rf' = base rf /\ tip rf' = tip rf /\ matchIndex rf' = matchIndex rf /\ nextIndex rf' = nextIndex rf.
Proof.
  unfold applyLogToRsm. case_cond; [|by intros [= <-]].
  generalize (Z.to_nat (index - lastApplied rf)) (lastApplied rf + 1). intros k. clear.
  induction k as [|k IH] in rf |- *; intros i; cbn [apply_loop]; [by intros [= <-]|].
  case_cond; [|by intros [= <-]]. intros (e & _ & Hrun)%rbind_ret. by apply IH in Hrun.
Qed.

Lemma doSnapshot_state index snap rf rf' :
  doSnapshot index snap rf = Ret rf' ->
  leaderId rf' = leaderId rf /\ currentTerm rf' = currentTerm rf /\ commitIndex rf' = commitIndex rf /\
  matchIndex rf' = matchIndex rf /\ nextIndex rf' = nextIndex rf /\
  (lastAppliedIndex rf' = lastAppliedIndex rf \/ lastAppliedIndex rf' = index).
Proof.
  intros Hx. destruct (decide (index < lastAppliedIndex rf)).
  { rewrite doSnapshot_old in Hx by done. injection Hx as <-. by auto 10. }
  destruct (decide (index <= last_index rf)).
  - destruct (doSnapshot_eq index snap rf) as (t & _ & Heq); [lia|]. rewrite Heq in Hx. injection Hx as <-. cbn. by auto 10.
  - assert (doSnapshot index snap rf = Panic) as Hpan by (apply doSnapshot_panic; lia). congruence.
Qed.

(** Which events elections come from. *)
Lemma runs_finish s e i now r v :
  runs s e i (SElectionFinish now r v) ->
  (exists now r, e = EFinish i now r) /\ exists el, elections s !! i = Some el /\ v = voteCount el.
Proof.
  destruct e; cbn; try done; [|by intros (_ & -> & ?)]. intros (-> & el & ? & ?). split; by repeat eexists.
Qed.

Lemma runs_recv s e i t ok reply v :
  runs s e i (SElectionRecv t ok reply v) -> exists el, elections s !! i = Some el /\ t = el_term el.
Proof.
  destruct e; cbn; try done; [|by intros (_ & -> & ?)]. intros (-> & el & ? & ? & _). by exists el.
Qed.

(** A section that is neither of a follower nor an election keeps the term and
    the leader, or gives up leading for a later term. *)
Lemma exec_leads x rf rf' :
  exec x rf = Ret rf' -> 0 <= me rf -> leaderId rf' = me rf ->
  leaderId rf = me rf /\ (currentTerm rf' = currentTerm rf \/ exists t ok reply v, x = SElectionRecv t ok reply v) \/
  (exists now r v, x = SElectionFinish now r v /\ Z.quot (npeers rf) 2 < v /\ currentTerm rf' = currentTerm rf) \/
  (exists now r args, x = SAppendEntries now r args /\ ae_LeaderId args = me rf) \/
  (exists now r args, x = SInstallSnapshot now r args /\ is_LeaderId args = me rf).
Proof.
  intros Hx Hme. destruct x.
  9: { intros Hl. destruct (install_effect _ _ _ _ _ Hx) as [[_ ->]|[_ Hl' _ _ _ _]]; [left; by auto|].
    right. right. right. exists now, r, args. split; [done|congruence]. }
  all: cbn [exec] in *.
  - injection Hx as <-. cbn. lia.
  - injection Hx as <-. intros Hl. left. split; [|right; by repeat eexists]. revert Hl.
    unfold electionSender_recv. by repeat case_cond.
  - injection Hx as <-. unfold startElection_finish. destruct (Z.gtb_spec votes (Z.quot (npeers rf) 2)).
    + intros _. right. left. by exists now, r, votes.
    + intros Hl. left. split; [exact Hl|by left].
  - rewrite RequestVote_eq in Hx. cbn in Hx. injection Hx as <-. intros Hl. left. revert Hl. unfold adopt_term.
    case_decide; repeat case_cond; cbn; auto; lia.
  - apply rbind_ret in Hx as ([rf1 n] & Hrun & [= <-]). cbn. intros Hl. left. revert Hrun Hl.
    unfold appendRPCWorker_recv. do 2 (case_cond; [intros [= <- _]; auto|]).
    case_cond; [intros [= <- _]; cbn; lia|].
    intros (next & _ & Hrun)%rbind_ret. case_cond.
    + apply rbind_ret in Hrun as (nexts & _ & Hrun).
      apply rbind_ret in Hrun as (nx & _ & Hrun). apply rbind_ret in Hrun as (ms & _ & [= <- _]). cbn. auto.
    + apply rbind_ret in Hrun as (nexts & _ & [= <- _]). cbn. auto.
  - intros Hl. left. revert Hx Hl. unfold sendAERpcs_finish. case_cond; [|intros [= <-]; auto].
    intros (N & _ & [= <-])%rbind_ret. case_cond; cbn; auto.
  - apply rbind_ret in Hx as ([rf1 reply] & Hrun & [= <-]). cbn. intros Hl.
    destruct (AppendEntries_follows _ _ _ _ _ _ Hrun) as [_ _ _ [(Ht & _ & Hl')|(_ & _ & _ & Hl')]].
    + left. split; [congruence|by left].
    + right. right. left. exists now, r, args. split; [done|congruence].
  - intros Hl. left. revert Hx Hl. unfold InstallSnapshotSender_recv. case_cond; [intros [= <-]; auto|].
    case_cond; [intros [= <-]; cbn; lia|].
    intros (nexts & _ & Hrun)%rbind_ret. apply rbind_ret in Hrun as (nx & _ & Hrun).
    apply rbind_ret in Hrun as (ms & _ & [= <-]). cbn. auto.
  - intros Hl. left. destruct (doSnapshot_state _ _ _ _ Hx) as (<- & <- & _). auto.
  - injection Hx as <-. unfold Start. case_cond; cbn; auto.
  - intros Hl. left. destruct (apply_state _ _ _ Hx) as (<- & <- & _). auto.
  - injection Hx as <-. cbn. auto.
  - apply exec_sending in Hx as ->. auto.
Qed.

(** Within its term a leader is only displaced by another leader. *)
Lemma exec_stays x rf rf' :
  exec x rf = Ret rf' -> leaderId rf = me rf -> currentTerm rf' = currentTerm rf ->
  leaderId rf' = me rf \/ (exists now r args, x = SAppendEntries now r args /\ ae_Term args = currentTerm rf) \/
  (exists now r args, x = SInstallSnapshot now r args /\ is_Term args = currentTerm rf).
Proof.
  intros Hx Hl Ht. assert (is_quiet x = true \/ ~ is_quiet x = true) as [Hq|Hq] by (destruct (is_quiet x); auto).
  2: { destruct x; cbn [is_quiet is_local] in *; try done.
    6: { destruct (install_effect _ _ _ _ _ Hx) as [[_ ->]|[[_ Ht'] _ _ _ _ _]]; [by left|].
      right. right. exists now, r, args. split; [done|congruence]. }
    all: cbn [exec] in *.
    - injection Hx as <-. cbn in Ht. lia.
    - injection Hx as <-. revert Hl. unfold electionSender_recv. left. by repeat case_cond.
    - injection Hx as <-. unfold startElection_finish. left. by case_cond.
    - rewrite RequestVote_eq in Hx. cbn in Hx. injection Hx as <-. left. revert Ht. unfold adopt_term.
      case_decide; repeat case_cond; cbn; zbool; intros; try done; lia.
    - apply rbind_ret in Hx as ([rf1 reply] & Hrun & [= <-]). cbn in *.
      destruct (AppendEntries_follows _ _ _ _ _ _ Hrun) as [_ _ _ [(_ & _ & Hl')|(_ & Ht' & _)]].
      + left. congruence.
      + right. left. exists now, r, args. split; [done|congruence].
    - apply exec_sending in Hx as ->. by left. }
  left. destruct x; cbn [exec is_quiet is_local] in *; try done.
  - apply rbind_ret in Hx as ([rf1 n] & Hrun & [= <-]). cbn in *. revert Hrun Ht.
    unfold appendRPCWorker_recv. do 2 (case_cond; [by intros [= <- _]|]).
    case_cond; [intros [= <- _]; zbool; cbn; lia|].
    intros (next & _ & Hrun)%rbind_ret. case_cond.
    + apply rbind_ret in Hrun as (nexts & _ & Hrun).
      apply rbind_ret in Hrun as (nx & _ & Hrun). by apply rbind_ret in Hrun as (ms & _ & [= <- _]).
    + by apply rbind_ret in Hrun as (nexts & _ & [= <- _]).
  - revert Hx. unfold sendAERpcs_finish. case_cond; [|by intros [= <-]].
    intros (N & _ & [= <-])%rbind_ret. by case_cond.
  - revert Hx Ht. unfold InstallSnapshotSender_recv. case_cond; [by intros [= <-]|].
    case_cond; [intros [= <-]; zbool; cbn; lia|].
    intros (nexts & _ & Hrun)%rbind_ret. apply rbind_ret in Hrun as (nx & _ & Hrun).
    by apply rbind_ret in Hrun as (ms & _ & [= <-]).
  - by destruct (doSnapshot_state _ _ _ _ Hx) as (-> & _).
  - injection Hx as <-. unfold Start. by case_cond.
  - by destruct (apply_state _ _ _ Hx) as (-> & _).
  - by injection Hx as <-.
Qed.

End orderly.

(** ** Who leads *)

Section leaders.
Context {Cmd : Type} `{!Gob (gval Cmd)}.
Implicit Types (rf : Raft Cmd) (s : cluster Cmd).
Context (n : nat).
#[local] Abbreviation history := (gmap (Z * Z) (Entry Cmd * Z)).
Implicit Types c : history.

(** Leaders are those that won an election. *)
Definition wins s (T i : Z) : Prop := (T, i) ∈ won s.

(** Leaders of a term have won it; a round in its own term is the leader's;
    the votes of a candidate were granted, to requests that carry the end of its
    log as long as the term has no leader. *)
Record led_ok s : Prop := {
  lo_leader : forall i rf, nodes s !! i = Some rf -> leaderId rf = i -> wins s (currentTerm rf) i;
  lo_won : forall T i, wins s T i -> over s i T;
  lo_round : forall i rd, rounds (repl s) !! i = Some rd ->
    elections s !! i = None /\ exists rf, nodes s !! i = Some rf /\ rd_term rd <= currentTerm rf /\
      (rd_term rd = currentTerm rf -> leaderId rf = i);
  lo_tally : forall T i S j, tally s !! (T, i) = Some S -> j ∈ S ->
    j = i \/ exists args reply, (j, args, reply) ∈ reps s /\ VoteGranted reply = true /\
      CandidateId args = i /\ rv_Term args = T;
  lo_reps : forall j args reply, (j, args, reply) ∈ reps s -> exists j', (j', args) ∈ reqs s;
  lo_reqs : forall j args, (j, args) ∈ reqs s ->
    exists rf, nodes s !! CandidateId args = Some rf /\ rv_Term args <= currentTerm rf /\
      (rv_Term args = currentTerm rf ->
       (LastLogTerm args, LastLogIndex args) = tip rf \/ exists l, wins s (rv_Term args) l);
  lo_iss : forall j args, (j, args) ∈ iss s -> wins s (is_Term args) (is_LeaderId args);
}.

Lemma wins_unique s T i j : inv n s -> wins s T i -> wins s T j -> i = j.
Proof.
  intros Hinv Hc Hc'. destruct (inv_won n s Hinv T i Hc) as (X & HX & HsX), (inv_won n s Hinv T j Hc') as (Y & HY & HsY).
  destruct (majorities_meet n X Y) as (k & HkX & HkY); [..|done|done|].
  - intros k Hk. by apply (inv_tally n s Hinv T i X).
  - intros k Hk. by apply (inv_tally n s Hinv T j Y).
  - destruct (inv_tally n s Hinv T i X k HX HkX), (inv_tally n s Hinv T j Y k HY HkY). congruence.
Qed.

Lemma wins_mono e s s' T i : step e s = Some s' -> wins s T i -> wins s' T i.
Proof.
  unfold wins. intros Hstep Hw. destruct (step_won e s s' Hstep) as [->|(?&?&?&?&?&?&?&?&?& ->)]; [done|].
  apply elem_of_app. by left.
Qed.

Lemma recorded_mono (led led' : Z -> Z -> Prop) c s :
  (forall T i, led T i -> led' T i) -> recorded led c s -> recorded led' c s.
Proof.
  intros Hl [Hp Ht Ha Hc]. split; [|done| |].
  - intros i rf Hi. destruct (Hp i rf Hi) as [? ? Hs ? ? ? ?]. split; try done.
    destruct Hs as [?|(j & ? & ?)]; [by left|right]. exists j. auto.
  - intros j args Hj. destruct (Ha j args Hj). auto.
  - intros T i v Hv HT. destruct (Hc T i v Hv HT) as (j & rf & ? & ? & ?). exists j, rf. auto.
Qed.

(** The term of a peer does not decrease, its number stays. *)
Lemma change_term s e i rf rf' :
  inv n s -> nodes s !! i = Some rf -> change s e i rf rf' -> currentTerm rf <= currentTerm rf' /\ me rf' = i.
Proof.
  intros Hinv Hi Hc. destruct (inv_node n s Hinv i rf Hi) as (Hme & Hnp & [Hpos ?] & Hsync).
  destruct Hc as [|x rf' _ Hx|now r ->].
  - by split.
  - destruct (exec_effect x rf rf') as [Hm _ ? _ _ _]; [lia|done|].
    rewrite Hm. by split.
  - destruct (vote_sync_Make (npeers rf) (me rf) now r rf Hsync) as (_ & -> & _ & _ & -> & _). split; [lia|done].
Qed.

(** A peer as it is, or as it would restart. *)
Definition image rf rf0 : Prop := rf0 = rf \/ rf0 = stored rf.

(** After an event both images have the log of an image before, or the log
    that the section leaves. *)
Lemma image_step s e i rf rf' rf0' : change s e i rf rf' -> image rf' rf0' ->
  (exists rf0, image rf rf0 /\ same_log rf0 rf0') \/
  (exists x, runs s e i x /\ exec x rf = Ret rf' /\ same_log rf' rf0').
Proof.
  intros Hc. destruct Hc as [|x rf' Hr Hx|now r ->].
  - intros Him. left. by exists rf0'.
  - intros [->| ->]; [right; by exists x|].
    destruct (decide (is_install_event e = true)) as [Hins|Hni].
    + destruct e; try done. destruct x; try done.
      left. destruct (install_effect _ _ _ _ _ Hx) as [[_ ->]|Hin].
      * exists (stored rf). split; [by right|done].
      * destruct (in_disk _ _ _ Hin) as [->|Hs]; [exists (stored rf); split; [by right|done]|exists rf; split; [by left|done]].
    + assert (~ is_install x) as Hnx by (intros Hins; by rewrite (runs_install _ _ _ _ Hr Hins) in Hni).
      destruct (exec_stored x rf rf' Hnx Hx) as [Hd|[_ ->]].
      * right. exists x. split_and!; [done|done|by apply durable_same_log].
      * left. exists (stored rf). split; [by right|done].
  - intros Him. left. exists (stored rf). split; [by right|]. apply durable_same_log.
    destruct Him as [->| ->]; [apply stored_Make|apply stored_stored].
Qed.

(** The log ends where it did, unless a leader writes, or sends a snapshot. *)
Definition rewritten s (e : event (Cmd := Cmd)) i rf rf' : Prop :=
  (exists k now r args, e = EAppend k now r /\ aes s !! k = Some (i, args) /\
     exec (SAppendEntries now r args) rf = Ret rf') \/
  (exists cmd, e = ELocal i (SStart cmd) /\ leaderId rf = me rf /\ rf' = (Start cmd rf).1) \/
  (exists k now r args, e = EInstall k now r /\ iss s !! k = Some (i, args) /\ installed args rf rf').

Lemma exec_tip s e i x rf rf' : runs s e i x -> exec x rf = Ret rf' -> trims rf rf' \/ rewritten s e i rf rf'.
Proof.
  intros Hr Hx. destruct x; try (left; eapply exec_trims; [|done]; by intros []).
  - right. left. destruct e; try done.
    + destruct Hr as (-> & -> & ?). by eexists _, _, _, args.
    + by destruct Hr as (_ & -> & ?).
  - destruct e; try done; [|by destruct Hr as (_ & -> & ?)]. cbn in Hr.
    destruct (install_effect _ _ _ _ _ Hx) as [[_ ->]|Hin]; [left; by apply trims_same|]. right. right. right.
    by eexists _, _, _, args.
  - injection Hx as <-. destruct (Z.eqb_spec (leaderId rf) (me rf)) as [Hl|Hl].
    + right. right. left. exists command. destruct e; try done. by destruct Hr as (-> & -> & _).
    + left. unfold Start. destruct (Z.eqb_spec (leaderId rf) (me rf)); [done|apply trims_refl].
Qed.

Lemma image_tip s e i rf rf' rf0' : change s e i rf rf' -> image rf' rf0' ->
  (exists rf0, image rf rf0 /\ tip rf0' = tip rf0) \/ tip rf0' = tip rf' /\ rewritten s e i rf rf'.
Proof.
  intros Hc Him. destruct (image_step s e i rf rf' rf0' Hc Him) as [(rf0 & H0 & Hs)|(x & Hr & Hx & Hs)].
  - left. exists rf0. split; [done|by apply same_log_tip].
  - rewrite (same_log_tip _ _ Hs). destruct (exec_tip s e i x rf rf' Hr Hx) as [Ht|Hw]; [left|by right].
    exists rf. split; [by left|by apply trims_tip].
Qed.

(** ** Every orderly event keeps this *)

Section preserved.
Context (c : history) (e : event (Cmd := Cmd)) (s s' : cluster Cmd).
Context (Hinv : inv n s) (Hinv' : inv n s') (Hrec : recorded (wins s) c s) (Hled : led_ok s).
Context (Hord : orderly e s = true) (Hstep : step e s = Some s').
#[local] Set Default Proof Using "All".

Lemma step_ext : ext s s'.
Proof.
  intros l rf Hl. destruct (step_peer e s s' l rf Hstep Hl) as (rf' & Hl' & Hch).
  destruct (change_term s e l rf rf') as [Ht _]; [done..|].
  exists rf'. split_and!; [done|done|]. intros el' Hel.
  destruct (proj2 (step_moves e s s' Hstep) l el' Hel) as [?|(rf0 & Hl0 & ->)]; [by left|right].
  rewrite Hl in Hl0. injection Hl0 as <-. lia.
Qed.

(** In the term of an election nobody leads at its candidate's. *)
Lemma election_not_leader i rf el : nodes s !! i = Some rf -> elections s !! i = Some el -> leaderId rf <> i.
Proof.
  intros Hi Hel. destruct (inv_elect n s Hinv i el Hel) as (rf0 & S & Hi0 & _ & ? & _).
  rewrite Hi in Hi0. by injection Hi0 as <-.
Qed.

Lemma append_not_self j args : (j, args) ∈ aes s -> wins s (ae_Term args) (ae_LeaderId args) /\ ae_LeaderId args <> j.
Proof.
  intros Hin. split; [by apply (rec_aes _ _ _ Hrec j args)|by apply (inv_aes n s Hinv j args)].
Qed.

Lemma finish_wins i now r rf el :
  e = EFinish i now r -> nodes s !! i = Some rf -> elections s !! i = Some el ->
  Z.quot (npeers rf) 2 < voteCount el -> wins s' (currentTerm rf) i /\ el_term el = currentTerm rf.
Proof.
  intros He Hi Hel Hmaj. pose proof Hord as Ho. rewrite He in Ho. cbn in Ho. rewrite Hi, Hel in Ho.
  destruct (Z.leb_spec (voteCount el) (Z.quot (npeers rf) 2)); [lia|]. cbn in Ho. zbool. split; [|done].
  destruct (step_won e s s' Hstep) as [Hw|(i' & now' & r' & rf' & el' & He' & Hi' & Hel' & _ & Hw)].
  - exfalso. pose proof Hstep as Hs. rewrite He in Hs. cbn [step] in Hs. unfold finish in Hs. rewrite Hi, Hel in Hs.
    destruct (all_finished rf (finished el)); [|done]. destruct (Z.gtb_spec (voteCount el) (Z.quot (npeers rf) 2)); [|lia].
    injection Hs as <-. cbn in Hw. apply (f_equal length) in Hw. rewrite length_app in Hw. cbn in Hw. lia.
  - rewrite He in He'. injection He' as <- _ _. rewrite Hel in Hel'. injection Hel' as <-.
    unfold wins. rewrite Hw. apply elem_of_app. right. rewrite Ho. by left.
Qed.

(** A leader after the event led before, in the same term, and its log has at
    most grown by its own entry; or it has just won its election. *)
Lemma lead_cases i rf' : nodes s' !! i = Some rf' -> leaderId rf' = i ->
  exists rf, nodes s !! i = Some rf /\ currentTerm rf' = currentTerm rf /\
    ((leaderId rf = i /\ (tip rf' = tip rf \/ exists cmd, e = ELocal i (SStart cmd) /\ rf' = (Start cmd rf).1)) \/
     (exists now r el, e = EFinish i now r /\ elections s !! i = Some el /\ el_term el = currentTerm rf /\
        Z.quot (npeers rf) 2 < voteCount el /\ tip rf' = tip rf)).
Proof.
  intros Hi' Hl'. destruct (step_peer_inv e s s' i rf' Hstep Hi') as (rf & Hi & Hc).
  destruct (inv_node n s Hinv i rf Hi) as (Hme & _ & [Hpos _] & Hsync). exists rf. split; [done|].
  destruct Hc as [|x rf' Hr Hx|now r _].
  - split; [done|]. left. split; [done|by left].
  - pose proof (exec_tip s e i x rf rf' Hr Hx) as Htip. destruct (exec_leads x rf rf' Hx) as [[Hl [Ht|(t & ok & reply & v & ->)]]|[(now & r & v & -> & Hv & Ht)|[(now & r & args & -> & Hl)|(now & r & args & -> & Hl)]]].
    + lia.
    + congruence.
    + split; [done|]. left. split; [congruence|].
      destruct Htip as [?%trims_tip|[(k & now & r & args & He & Hk & Ha)|[(cmd & -> & _ & ->)|(k & now & r & args & _ & Hk & Hin)]]];
        [by left| |right; by exists cmd|].
      2: { exfalso. destruct (inv_iss n s Hinv i args) as [_ Hne]; [by eapply list_elem_of_lookup_2|]. pose proof (in_leader _ _ _ Hin). congruence. }
      left. cbn [exec] in Ha. apply rbind_ret in Ha as ([rf1 reply] & Hrun & [= <-]).
      destruct (AppendEntries_term _ _ _ _ _ _ Hrun) as [Htr|[_ Ha]]; [by rewrite (trims_tip _ _ Htr)|exfalso].
      destruct (append_not_self i args) as [Hw Hne]; [by eapply list_elem_of_lookup_2|]. apply Hne.
      cbn in *. apply (wins_unique s (currentTerm rf)); [done|by rewrite <- Ht, Ha|].
      apply lo_leader; [done|done|congruence].
    + exfalso. destruct (runs_recv _ _ _ _ _ _ _ Hr) as (el & Hel & _).
      apply (election_not_leader i rf el); [done|done|congruence].
    + split; [done|]. right. destruct (runs_finish _ _ _ _ _ _ Hr) as ((now' & r' & He) & el & Hel & ->).
      exists now', r', el. destruct (finish_wins i now' r' rf el) as [_ Ht']; [done..|]. split_and!; try done.
      rewrite He in Htip. by destruct Htip as [?%trims_tip|[(?&?&?&?&?&_)|[(?&?&_)|(?&?&?&?&?&_)]]].
    + exfalso. destruct (append_not_self i args) as [_ Hne]; [exact (runs_origin _ _ _ _ Hr)|congruence].
    + exfalso. destruct (inv_iss n s Hinv i args) as [_ Hne]; [exact (runs_origin _ _ _ _ Hr)|congruence].
  - destruct (vote_sync_Make (npeers rf) (me rf) now r rf Hsync) as (_ & _ & _ & Hm & _). lia.
Qed.

Lemma leader_step i rf' : nodes s' !! i = Some rf' -> leaderId rf' = i -> wins s' (currentTerm rf') i.
Proof.
  intros Hi' Hl'. destruct (lead_cases i rf' Hi' Hl') as (rf & Hi & -> & [[Hl _]|(now & r & el & He & Hel & _ & Hmaj & _)]).
  - apply (wins_mono e s); [done|]. by apply lo_leader.
  - by apply (finish_wins i now r rf el).
Qed.

(** A term that is being won has no leader yet. *)
Lemma finish_fresh i rf el l :
  nodes s !! i = Some rf -> elections s !! i = Some el -> wins s' (el_term el) i -> wins s (el_term el) l -> False.
Proof.
  intros Hi Hel Hw Hl. assert (l = i) as -> by (apply (wins_unique s' (el_term el)); [done|by eapply wins_mono|done]).
  destruct (lo_won s Hled _ _ Hl) as (rf0 & _ & _ & Hno). by apply (Hno el Hel).
Qed.

Lemma won_step T i : wins s' T i -> over s' i T.
Proof.
  unfold wins. destruct (step_won e s s' Hstep) as [->|(j & now & r & rf & el & He & Hj & Hel & Hmaj & ->)].
  - intros Hw. apply (over_ext s); [apply step_ext|by apply lo_won].
  - intros [Hw|Hw]%elem_of_app; [apply (over_ext s); [apply step_ext|by apply lo_won]|].
    apply list_elem_of_singleton in Hw. injection Hw as -> ->.
    destruct (inv_elect n s Hinv j el Hel) as (rf0 & S & Hj0 & Hle & _).
    rewrite Hj in Hj0. injection Hj0 as <-. destruct (step_ext j rf Hj) as (rf' & Hj' & Ht & _).
    exists rf'. split_and!; [done|lia|]. pose proof Hstep as Hs. rewrite He in Hs. cbn [step] in Hs. unfold finish in Hs.
    rewrite Hj, Hel in Hs. destruct (all_finished rf (finished el)); [|done]. injection Hs as <-. cbn.
    intros el'. by rewrite lookup_delete_eq.
Qed.

Lemma round_step i rd : rounds (repl s') !! i = Some rd ->
  elections s' !! i = None /\ exists rf, nodes s' !! i = Some rf /\ rd_term rd <= currentTerm rf /\
    (rd_term rd = currentTerm rf -> leaderId rf = i).
Proof.
  intros Hrd. destruct (step_rounds e s s' i rd Hstep Hrd) as
    [(rd0 & Hrd0 & -> & Hel & Hnc)|(now & rf & _ & Hi & Hl & -> & Hel & Hn)].
  - destruct (lo_round s Hled i rd0 Hrd0) as (Hno & rf & Hi & Hle & Hlead). split; [by apply Hel|].
    destruct (step_peer e s s' i rf Hstep Hi) as (rf' & Hi' & Hc). exists rf'.
    destruct (change_term s e i rf rf') as [Ht _]; [done..|].
    split_and!; [done|lia|]. intros Heq. assert (currentTerm rf' = currentTerm rf) as Ht' by lia.
    specialize (Hlead ltac:(lia)). destruct (inv_node n s Hinv i rf Hi) as (Hme & _).
    destruct Hc as [|x rf' Hr Hx|now r Hcr]; [done| |by destruct (Hnc now r)].
    destruct (exec_stays x rf rf' Hx) as [Hs|[(now & r & args & -> & Ha)|(now & r & args & -> & Ha)]]; [congruence|done|congruence| |].
    2: { exfalso. pose proof (runs_origin _ _ _ _ Hr) as Ho. cbn in Ho. destruct (inv_iss n s Hinv i args Ho) as [_ Hne]. apply Hne.
      apply (wins_unique s (currentTerm rf)); [done|rewrite <- Ha; by apply (lo_iss s Hled i)|]. by apply lo_leader. }
    exfalso. destruct (append_not_self i args) as [Hw Hne]; [exact (runs_origin _ _ _ _ Hr)|]. apply Hne.
    apply (wins_unique s (currentTerm rf)); [done|by rewrite <- Ha|]. by apply lo_leader.
  - split; [done|]. exists rf. rewrite Hn. destruct (inv_node n s Hinv i rf Hi) as (Hme & _).
    split_and!; [done|lia|congruence].
Qed.

Lemma tally_step T i S j : tally s' !! (T, i) = Some S -> j ∈ S ->
  j = i \/ exists args reply, (j, args, reply) ∈ reps s' /\ VoteGranted reply = true /\ CandidateId args = i /\ rv_Term args = T.
Proof.
  intros HS Hj. assert (forall x, x ∈ reps s -> x ∈ reps s') as Hmono.
  { intros x Hx. destruct (step_reps e s s' Hstep) as [->|(?&?&?&?&?&?&?&?&_&_&_&_& ->)]; [done|].
    apply elem_of_app. by left. }
  destruct (step_tally e s s' T i S j Hstep HS Hj) as [(S0 & HS0 & Hj0)|[->|(args & reply & Hin & ?)]].
  - destruct (lo_tally s Hled T i S0 j HS0 Hj0) as [->|(args & reply & Hin & ?)]; [by left|right].
    exists args, reply. auto.
  - by left.
  - right. exists args, reply. auto.
Qed.

Lemma reqs_mono x : x ∈ reqs s -> x ∈ reqs s'.
Proof.
  intros Hx. destruct (step_reqs e s s' Hstep) as [->|(?&?&?&?&?&_&_&_&_&_& ->)]; [done|]. apply elem_of_app. by left.
Qed.

Lemma reps_step j args reply : (j, args, reply) ∈ reps s' -> exists j', (j', args) ∈ reqs s'.
Proof.
  destruct (step_reps e s s' Hstep) as [->|(k & now & r & j0 & args0 & rf & rf' & reply0 & _ & Hk & _ & _ & ->)].
  - intros Hin. destruct (lo_reps s Hled _ _ _ Hin) as [j' ?]. exists j'. by apply reqs_mono.
  - intros [Hin|Hin]%elem_of_app.
    + destruct (lo_reps s Hled _ _ _ Hin) as [j' ?]. exists j'. by apply reqs_mono.
    + apply list_elem_of_singleton in Hin. injection Hin as -> -> ->. exists j0. apply reqs_mono.
      by eapply list_elem_of_lookup_2.
Qed.

Lemma reqs_step j args : (j, args) ∈ reqs s' ->
  exists rf, nodes s' !! CandidateId args = Some rf /\ rv_Term args <= currentTerm rf /\
    (rv_Term args = currentTerm rf ->
     (LastLogTerm args, LastLogIndex args) = tip rf \/ exists l, wins s' (rv_Term args) l).
Proof.
  assert ((j, args) ∈ reqs s -> exists rf, nodes s' !! CandidateId args = Some rf /\ rv_Term args <= currentTerm rf /\
    (rv_Term args = currentTerm rf ->
     (LastLogTerm args, LastLogIndex args) = tip rf \/ exists l, wins s' (rv_Term args) l)) as Hold.
  { intros Hin. destruct (lo_reqs s Hled j args Hin) as (rf & Hi & Hle & Htip).
    destruct (step_peer e s s' _ rf Hstep Hi) as (rf' & Hi' & Hc). pose proof (rec_peer _ _ _ Hrec _ rf Hi) as Hp.
    destruct (change_term s e (CandidateId args) rf rf') as [Ht _]; [done..|]. exists rf'. split_and!; [done|lia|].
    intros Heq. assert (currentTerm rf' = currentTerm rf) as Ht' by lia.
    destruct (Htip ltac:(lia)) as [Htip'|[l Hl]]; [|right; exists l; by eapply wins_mono].
    assert (forall l, wins s (currentTerm rf) l -> exists l, wins s' (rv_Term args) l) as Hwon.
    { intros l Hl. exists l. apply (wins_mono e s); [done|]. by rewrite Heq, Ht'. }
    destruct (image_tip s e (CandidateId args) rf rf' rf' Hc (or_introl eq_refl)) as [(rf0 & [->| ->] & ->)|
      [_ [(k & now & r & args' & _ & Hk & Hx)|[(cmd & _ & Hl & _)|(k & now & r & args' & _ & Hk & Hins)]]]];
      [by left| | |right|right].
    - destruct (pl_synced _ _ _ Hp) as [Hd|(l & Hl & _)]; [left|right; by apply (Hwon l)].
      by rewrite (same_log_tip _ _ (durable_same_log _ _ Hd)).
    - destruct (rec_aes _ _ _ Hrec (CandidateId args) args') as [_ Hw]; [by eapply list_elem_of_lookup_2|].
      cbn [exec] in Hx. apply rbind_ret in Hx as ([rf1 reply] & Hrun & [= <-]). cbn in *.
      destruct (AppendEntries_term _ _ _ _ _ _ Hrun) as [Htr|[_ Ha]]; [left; by rewrite (trims_tip _ _ Htr)|right].
      exists (ae_LeaderId args'). apply (wins_mono e s); [done|]. by rewrite Heq, Ha.
    - exists (CandidateId args). apply (wins_mono e s); [done|]. destruct (inv_node n s Hinv _ rf Hi) as (Hme & _).
      replace (rv_Term args) with (currentTerm rf) by lia. apply lo_leader; [done|done|congruence].
    - exists (is_LeaderId args'). apply (wins_mono e s); [done|]. destruct (in_term _ _ _ Hins) as [_ Hit].
      replace (rv_Term args) with (is_Term args') by lia. apply (lo_iss s Hled (CandidateId args)). by eapply list_elem_of_lookup_2. }
  destruct (step_reqs e s s' Hstep) as [->|(i & j0 & rf & el & args0 & He & Hi & Hel & Hsend & Hn & ->)]; [done|].
  intros [Hin|Hin]%elem_of_app; [by apply Hold|]. apply list_elem_of_singleton in Hin. injection Hin as -> ->.
  unfold electionSender_send in Hsend. case_cond; [done|]. rewrite last_log_eq in Hsend. cbn in Hsend.
  injection Hsend as <-. cbn. rewrite Hn. destruct (inv_node n s Hinv i rf Hi) as (-> & _).
  exists rf. split_and!; [done|lia|]. intros _. by left.
Qed.

Lemma iss_step j args : (j, args) ∈ iss s' -> wins s' (is_Term args) (is_LeaderId args).
Proof.
  intros Hin. apply (wins_mono e s); [done|]. revert Hin.
  destruct (step_iss e s s' Hstep) as [->|(i & j0 & rf & rd & args0 & _ & Hi & _ & Hsend & _ & ->)]; [by apply lo_iss|].
  intros [Hin|Hin]%elem_of_app; [by apply (lo_iss s Hled j)|]. apply list_elem_of_singleton in Hin. injection Hin as -> ->.
  destruct (snapshot_sent _ _ _ Hsend) as (Hl & -> & -> & _). destruct (inv_node n s Hinv i rf Hi) as (Hme & _).
  rewrite Hl, Hme. apply lo_leader; [done|done|congruence].
Qed.

Lemma led_step : led_ok s'.
Proof.
  split; [apply leader_step|apply won_step|apply round_step|apply tally_step|apply reps_step|apply reqs_step|apply iss_step].
Qed.

End preserved.
End leaders.
End Leadership.
