(* ===== verification/LeaderCompleteness.v ===== *)
(** What a majority holds stays in the logs of later leaders, in orderly runs:
    the tree of entries, who holds an entry, and when an entry is blocked for
    good. *)
From S2P Require Import Prelude Labgob Persister RaftState Raft RaftLemmas RaftElection RaftLog RaftSnapshot RaftSteps.
From S2P Require Import Cluster ClusterProofs ClusterSteps LogMatching LogTree Leadership.
Import Labgob Persist RaftState RaftNode RaftOk RaftElection RaftLog RaftSnapshot RaftSteps.
Import Cluster ClusterOk ClusterSteps LogMatching LogTree Leadership.
Local Open Scope Z_scope.

Module LeaderCompleteness.
Section completeness.
Context {Cmd : Type} `{!Gob (gval Cmd)}.
Implicit Types (rf : Raft Cmd) (s : cluster Cmd).
Context (n : nat).
#[local] Abbreviation history := (gmap (Z * Z) (Entry Cmd * Z)).
Implicit Types c : history.
Implicit Types x y z : node.

(** ** The tree of a run *)

(** Logs, in memory and on disk, and requests are paths of the tree; a leader's
    log contains what its term created, one entry after the other. *)
Record rooted c s : Prop := {
  rt_closed : closed c;
  rt_peer : forall i rf rf0, nodes s !! i = Some rf -> image rf rf0 ->
    in_tree c (base rf0) /\ in_tree c (tip rf0) /\ (base rf0).1 <= currentTerm rf /\ (tip rf0).1 <= currentTerm rf;
  rt_aes : forall j args, (j, args) ∈ aes s ->
    in_tree c (prev_node args) /\ in_tree c (end_node args) /\ (end_node args).1 <= ae_Term args;
  rt_iss : forall j args, (j, args) ∈ iss s ->
    in_tree c (snap_node args) /\ 1 <= is_Term args /\ (snap_node args).1 <= is_Term args;
  rt_lead : forall i rf k, nodes s !! i = Some rf -> leaderId rf = i -> is_Some (c !! (currentTerm rf, k)) ->
    anc c (currentTerm rf, k) (tip rf);
  rt_term : forall T k k', is_Some (c !! (T, k)) -> is_Some (c !! (T, k')) -> k <= k' -> anc c (T, k) (T, k');
}.

Lemma rooted_tip c s i rf : rooted c s -> nodes s !! i = Some rf -> in_tree c (tip rf).
Proof. intros Hr Hi. by apply (rt_peer _ _ Hr i rf rf Hi (or_introl eq_refl)). Qed.

(** Terms of the tree that are at least 1 were led. *)
Lemma created_led c s T k : recorded (wins s) c s -> is_Some (c !! (T, k)) -> 1 <= T -> exists l, wins s T l.
Proof.
  intros Hrec [v Hv] HT. destruct (rec_created _ _ _ Hrec T k v Hv HT) as (l & _ & ? & _). by exists l.
Qed.

Lemma in_tree_term c x : closed c -> in_tree c x -> 0 <= x.1.
Proof. intros Hcl Hx. by apply (anc_term c root x Hcl Hx), anc_root. Qed.

(** ** Holders *)

Definition majority (B : gset Z) : Prop := (forall j, j ∈ B -> is_peer n j) /\ Z.quot (Z.of_nat n) 2 < Z.of_nat (size B).

(** The peer [j] has accepted the [k]-th request. *)
Definition answered s (k : nat) (j : Z) args : Prop :=
  exists reply, (k, reply) ∈ aers (repl s) /\ Success reply = true /\ aes s !! k = Some (j, args).

(** It has accepted a request of term [T] that ends at [y], or even taken
    entries from it. *)
Definition ack s (j T : Z) y : Prop :=
  exists k args, answered s k j args /\ ae_Term args = T /\ y = end_node args.

Definition took s (j T : Z) y : Prop :=
  exists k args, answered s k j args /\ Entries args <> [] /\ ae_Term args = T /\ y = end_node args.

(** The peer [j] created [x], or has taken it from the leader of its term. *)
Definition holds c s (j : Z) x : Prop :=
  (wins s x.1 j /\ is_Some (c !! x)) \/ exists y, took s j x.1 y /\ anc c x y.

(** A majority does not hold [x] and never will: its terms are over. *)
Definition blocked c s x : Prop :=
  exists B, majority B /\ forall j, j ∈ B -> ~ holds c s j x /\ exists rf, nodes s !! j = Some rf /\ x.1 < currentTerm rf.

Definition committed c s x : Prop := exists Q, majority Q /\ forall j, j ∈ Q -> holds c s j x.

Lemma committed_not_blocked c s x : committed c s x -> ~ blocked c s x.
Proof.
  intros (Q & [HQ HsQ] & Hh) (B & [HB HsB] & Hb). destruct (majorities_meet n Q B) as (j & HjQ & HjB); [done..|].
  by destruct (Hb j HjB) as [Hno _]; apply Hno, Hh.
Qed.

(** The order in which voters compare logs. *)
Definition lex_le x y : Prop := x.1 < y.1 \/ (x.1 = y.1 /\ x.2 <= y.2).

Record safe c s : Prop := {
  sf_tip : forall j rf rf0 x, nodes s !! j = Some rf -> image rf rf0 -> holds c s j x ->
    x.1 <= currentTerm rf /\ (~ blocked c s x -> anc c x (tip rf0));
  sf_node : forall x y, is_Some (c !! y) -> 0 <= x.1 < y.1 -> ~ blocked c s x -> anc c x y;
  sf_lead : forall i rf x, nodes s !! i = Some rf -> leaderId rf = i -> 0 <= x.1 < currentTerm rf ->
    ~ blocked c s x -> anc c x (tip rf);
  sf_aes : forall j args x, (j, args) ∈ aes s -> 0 <= x.1 < ae_Term args -> ~ blocked c s x -> anc c x (end_node args);
  sf_order : forall k k' j j' a a', (k <= k')%nat -> aes s !! k = Some (j, a) -> aes s !! k' = Some (j', a') ->
    ae_Term a = ae_Term a' -> anc c (end_node a) (end_node a');
  sf_sent : forall j a i rf, (j, a) ∈ aes s -> nodes s !! i = Some rf -> leaderId rf = i ->
    ae_Term a = currentTerm rf -> anc c (end_node a) (tip rf);
  sf_vote : forall j args reply x, (j, args, reply) ∈ reps s -> VoteGranted reply = true -> 0 <= x.1 < rv_Term args ->
    holds c s j x -> ~ blocked c s x -> lex_le x (LastLogTerm args, LastLogIndex args);
  sf_voted : forall j args reply, (j, args, reply) ∈ reps s -> VoteGranted reply = true ->
    exists rf, nodes s !! j = Some rf /\ rv_Term args <= currentTerm rf;
  sf_aers : forall k reply, (k, reply) ∈ aers (repl s) -> is_Some (aes s !! k);
}.

Lemma in_tree_committed c s y : rooted c s -> committed c s y -> in_tree c y.
Proof.
  intros Hroot (Q & [HQ HsQ] & Hh). destruct (decide (Q = ∅)) as [->|Hne].
  - rewrite size_empty in HsQ. rewrite Z.quot_div_nonneg in HsQ by lia. pose proof (Z.div_pos (Z.of_nat n) 2). lia.
  - apply set_choose_L in Hne as [j Hj]. destruct (Hh j Hj) as [[_ Hy]|(w & (k & args & (reply & _ & _ & Hk) & _ & _ & ->) & Hyw)];
      [by right|]. eapply anc_in_tree; [apply Hroot| |done]. apply (rt_aes _ _ Hroot j args). by eapply list_elem_of_lookup_2.
Qed.

(** What is not blocked lies on a path with what is committed. *)
Lemma unblocked_comparable c s x y : rooted c s -> safe c s -> in_tree c x -> ~ blocked c s x -> committed c s y ->
  anc c x y \/ anc c y x.
Proof.
  intros Hroot Hsafe Hx Hnb Hy. pose proof (rt_closed _ _ Hroot) as Hcl. pose proof (in_tree_committed c s y Hroot Hy) as Hty.
  pose proof (in_tree_term c x Hcl Hx). pose proof (in_tree_term c y Hcl Hty).
  destruct (decide (x = root)) as [->|Hxr]; [left; by apply anc_root|].
  destruct (decide (y = root)) as [->|Hyr]; [right; by apply anc_root|].
  destruct Hx as [?|Hsx]; [done|]. destruct Hty as [?|Hsy]; [done|].
  destruct (Z.lt_trichotomy x.1 y.1) as [?|[Heq|?]].
  - left. by apply (sf_node _ _ Hsafe).
  - destruct x as [T k], y as [T' k']. cbn in Heq. subst T'.
    destruct (decide (k <= k')); [left|right]; apply (rt_term _ _ Hroot); try done. lia.
  - right. apply (sf_node _ _ Hsafe); [done|done|by apply committed_not_blocked].
Qed.

(** The position of a snapshot: something committed follows it. *)
Definition covered c s z : Prop := z = root \/ exists y, committed c s y /\ anc c z y.

Lemma covered_anc c s x z : rooted c s -> safe c s -> in_tree c x -> ~ blocked c s x -> covered c s z -> x.2 <= z.2 -> anc c x z.
Proof.
  intros Hroot Hsafe Hx Hnb Hz Hle. pose proof (rt_closed _ _ Hroot) as Hcl. destruct Hz as [->|(y & Hy & Hzy)].
  - destruct Hx as [->|[[e p] Hx]]; [constructor|]. destruct x as [T k]. apply Hcl in Hx as [? _]. cbn in *. lia.
  - destruct (unblocked_comparable c s x y Hroot Hsafe Hx Hnb Hy) as [Ha|Ha]; [by eapply anc_linear|].
    pose proof (anc_index _ _ _ Ha). pose proof (anc_index _ _ _ Hzy).
    rewrite (anc_same _ _ _ Hzy ltac:(lia)), (anc_same _ _ _ Ha ltac:(lia)). constructor.
Qed.

(** The position of a snapshot that is taken or sent in term [T]. *)
Definition covered_by c s (T : Z) z : Prop := z = root \/ exists y, committed c s y /\ anc c z y /\ y.1 <= T.

Lemma covered_by_covered c s T z : covered_by c s T z -> covered c s z.
Proof. intros [?|(y & ? & ? & _)]; [by left|right]. by exists y. Qed.

(** A leader's log follows its snapshot. *)
Lemma leader_straight c s i rf : recorded (wins s) c s -> rooted c s -> safe c s -> covered_by c s (currentTerm rf) (base rf) ->
  nodes s !! i = Some rf -> leaderId rf = i -> straight c rf.
Proof.
  intros Hrec Hroot Hsafe Hcov Hi Hl. pose proof (rt_closed _ _ Hroot) as Hcl. pose proof (rooted_tip c s i rf Hroot Hi) as Htip.
  apply base_straight; [by eapply pl_logged, rec_peer|]. destruct Hcov as [->|(y & Hy & Hby & HyT)]; [by apply anc_root|].
  eapply anc_trans; [exact Hby|]. pose proof (in_tree_committed c s y Hroot Hy) as Hty.
  destruct (decide (y.1 < currentTerm rf)) as [Hlt|].
  - apply (sf_lead _ _ Hsafe i rf y Hi Hl); [|by apply committed_not_blocked]. split; [by apply (in_tree_term c)|done].
  - destruct Hty as [->|Hsy]; [by apply anc_root|].
    destruct y as [T k]. cbn in *. assert (T = currentTerm rf) as -> by lia. by apply (rt_lead _ _ Hroot i).
Qed.

(** ** One event *)

Section preserved.
Context (c : history) (e : event (Cmd := Cmd)) (s s' : cluster Cmd).
Context (Hinv : inv n s) (Hinv' : inv n s') (Hrec : recorded (wins s) c s) (Hled : led_ok s).
Context (Hroot : rooted c s) (Hstr : forall i rf, nodes s !! i = Some rf -> leaderId rf = i -> straight c rf).
Context (Hord : orderly e s = true) (Hstep : step e s = Some s').
#[local] Abbreviation c' := (grow e s c).
Context (Hrec' : recorded (wins s') c' s') (Hled' : led_ok s') (Hgrow : c ⊆ c').
#[local] Set Default Proof Using "All".

(** The lemmas on leaders, for this event. *)
#[local] Abbreviation here lem := (lem n c e s s' Hinv Hinv' Hrec Hled Hord Hstep) (only parsing).

Lemma step_aes_app : exists l, aes s' = aes s ++ l.
Proof.
  destruct (proj1 (step_moves e s s' Hstep)) as [_ ->|i rf rf' x _ _ _ _ ->|i rf now r _ _ _ ->|i j rf term args _ _ _ _ ->];
    [exists []; by rewrite app_nil_r..|by eexists].
Qed.

(** A request is old, or the end of the log of the leader that sends it. *)
Lemma aes_cases k j args : aes s' !! k = Some (j, args) ->
  aes s !! k = Some (j, args) \/
  (k = length (aes s) /\ nodes s' = nodes s /\ c' = c /\
   exists i rf, nodes s !! i = Some rf /\ leaderId rf = i /\ ae_Term args = currentTerm rf /\
     end_node args = tip rf /\ anc c (prev_node args) (tip rf)).
Proof.
  destruct (proj1 (step_moves e s s' Hstep)) as [_ ->|? ? ? ? _ _ _ _ ->|? ? ? ? _ _ _ ->|i l rf term args' He Hi Hsend Hn ->];
    [by left..|].
  intros Hk. apply lookup_app_Some in Hk as [Hk|[Hlen Hk]]; [by left|right].
  apply list_lookup_singleton_Some in Hk as [Hk [= -> ->]]. destruct (inv_node n s Hinv i rf Hi) as (Hme & _).
  pose proof (pl_lai _ _ _ (rec_peer _ _ _ Hrec i rf Hi)) as Hlai. pose proof (appendRPCWorker_send_leads _ _ _ _ Hsend) as Hld.
  pose proof (Hstr i rf Hi ltac:(congruence)) as Hl.
  destruct (appendRPCWorker_send_tip c j term rf args Hsend Hlai Hl) as (? & ? & _ & _ & _).
  destruct (appendRPCWorker_send_chain c j term rf args Hsend Hlai Hl) as (_ & ? & _ & ?).
  split_and!; [lia|done|by rewrite He|].
  exists i, rf. split_and!; try done. congruence.
Qed.

Lemma aes_cases_in j args : (j, args) ∈ aes s' ->
  (j, args) ∈ aes s \/
  (nodes s' = nodes s /\ c' = c /\
   exists i rf, nodes s !! i = Some rf /\ leaderId rf = i /\ ae_Term args = currentTerm rf /\
     end_node args = tip rf /\ anc c (prev_node args) (tip rf)).
Proof.
  intros [k Hk]%list_elem_of_lookup_1. destruct (aes_cases k j args Hk) as [?|(_ & ? & ? & ?)]; [left|by right].
  by eapply list_elem_of_lookup_2.
Qed.

(** A leader's [Start] adds its new end as a child of the old one. *)
Lemma grow_new :
  (c' = c /\ forall i cmd rf, e = ELocal i (SStart cmd) -> nodes s !! i = Some rf -> leaderId rf <> i) \/
  exists i cmd rf,
  e = ELocal i (SStart cmd) /\ nodes s !! i = Some rf /\ leaderId rf = i /\
  c' = <[start_node rf := start_entry cmd rf]> c /\ nodes s' = <[i := (Start cmd rf).1]> (nodes s) /\
  tip (Start cmd rf).1 = start_node rf /\ anc c' (tip rf) (start_node rf).
Proof.
  destruct (grow_cases e s c) as [(i & cmd & rf & He & Hi & Hl & Hc)|[? Hno]]; [right|left].
  2: { split; [done|]. intros i cmd rf He Hi. destruct (inv_node n s Hinv i rf Hi) as (<- & _). by eapply Hno. }
  destruct (inv_node n s Hinv i rf Hi) as (Hme & _). exists i, cmd, rf. split_and!; try done; [congruence|..].
  - pose proof Hstep as Hs. rewrite He in Hs. cbn [step] in Hs. unfold local in Hs. rewrite Hi in Hs. cbn in Hs. by injection Hs as <-.
  - rewrite tip_eq. unfold Start, start_node. rewrite Hl, Z.eqb_refl. cbn. rewrite end_term_app. unfold end_term. cbn.
    f_equal. rewrite len_app. unfold last_index, len. cbn. lia.
  - eapply anc_step; [rewrite Hc; apply lookup_insert_eq|]. unfold start_node, tip. cbn.
    replace (last_index rf + 1 - 1) with (last_index rf) by lia. constructor.
Qed.

Lemma grow_lookup y : is_Some (c' !! y) -> is_Some (c !! y) \/ exists i cmd rf,
  e = ELocal i (SStart cmd) /\ nodes s !! i = Some rf /\ leaderId rf = i /\ y = start_node rf /\
  anc c' (tip rf) y.
Proof.
  destruct grow_new as [[-> _]|(i & cmd & rf & He & Hi & Hl & -> & _ & _ & Ha)]; [by left|].
  destruct (decide (y = start_node rf)) as [->|Hne]; [right; by exists i, cmd, rf|].
  rewrite lookup_insert_ne by done. by left.
Qed.

Lemma anc_mono' x y : anc c x y -> anc c' x y.
Proof. by apply anc_mono. Qed.

Lemma closed_step : closed c'.
Proof.
  pose proof (rt_closed _ _ Hroot) as Hcl. intros T k e0 p Hk.
  destruct grow_new as [[Hc _]|(i & cmd & rf & He & Hi & Hl & Hc & _)].
  { rewrite Hc in *. by apply Hcl. }
  assert (forall y, in_tree c y -> in_tree c' y) as Hmono by (intros y; by apply in_tree_mono).
  rewrite Hc in Hk. destruct (decide ((T, k) = start_node rf)) as [Heq|Hne].
  - rewrite Heq, lookup_insert_eq in Hk. injection Hk as <- <-. unfold start_node in Heq. injection Heq as -> ->.
    pose proof (rooted_tip c s i rf Hroot Hi) as Htip. pose proof (in_tree_low c _ Hcl Htip) as Hlow.
    destruct (rt_peer _ _ Hroot i rf rf Hi (or_introl eq_refl)) as (_ & _ & _ & Hterm). cbn in *. split_and!; [lia|done|done|].
    replace (last_index rf + 1 - 1) with (last_index rf) by lia. by apply Hmono.
  - rewrite lookup_insert_ne in Hk by done. destruct (Hcl _ _ _ _ Hk) as (? & ? & ? & ?). split_and!; try done. by apply Hmono.
Qed.

(** ** The tree *)

(** The effect of a request on the log of a follower. *)
Lemma append_on_tree k now r i rf rf' args :
  nodes s !! i = Some rf -> aes s !! k = Some (i, args) -> exec (SAppendEntries now r args) rf = Ret rf' ->
  exists reply, AppendEntries now r args rf = Ret (rf', reply) /\ append_effect c args rf rf' (Success reply) /\
    (tip rf' = tip rf \/ currentTerm rf <= ae_Term args /\ currentTerm rf' = ae_Term args).
Proof.
  intros Hi Hk Hx. cbn [exec] in Hx. apply rbind_ret in Hx as ([rf1 reply] & Hrun & [= <-]). exists reply.
  split; [done|]. split.
  - eapply AppendEntries_tip; [done|by eapply pl_logged, rec_peer|].
    apply (rec_aes _ _ _ Hrec i args). by eapply list_elem_of_lookup_2.
  - destruct (AppendEntries_term _ _ _ _ _ _ Hrun) as [Ht|?]; [left; by apply trims_tip|by right].
Qed.

(** The position of the snapshot goes up on the log, or to that of a snapshot
    that a leader sent. *)
Lemma exec_base i u rf rf' : nodes s !! i = Some rf -> runs s e i u -> exec u rf = Ret rf' ->
  base rf' = base rf \/
  (lastAppliedIndex rf < lastAppliedIndex rf' /\ trims rf rf' /\ anc c (base rf') (tip rf)) \/
  (exists args, (i, args) ∈ iss s /\ base rf' = snap_node args /\ is_Term args = currentTerm rf' /\
     lastAppliedIndex rf <= lastAppliedIndex rf').
Proof.
  intros Hi Hr Hx. pose proof (rec_peer _ _ _ Hrec i rf Hi) as Hp.
  destruct (exec_tip s e i u rf rf' Hr Hx) as [Htr|[(k & now & r & args & _ & Hk & Ha)|[(cmd & _ & _ & ->)|(k & now & r & args & _ & Hk & Hin)]]].
  - pose proof Htr as (m & Hm & _ & Hi' & Ht). destruct (decide (m = 0%nat)) as [->|Hm0].
    { left. unfold base. rewrite Hi', Ht. cbn. by rewrite Z.add_0_r. }
    right. left. split; [lia|]. split; [done|]. unfold base. rewrite Hi', Ht.
    apply prefix_anc; [by apply (pl_logged _ _ _ Hp)|done|right; lia].
  - left. destruct (append_on_tree _ _ _ _ _ _ _ Hi Hk Ha) as (reply & _ & Hap & _). by apply (ap_base _ _ _ _ _ Hap).
  - left. unfold Start. by case_cond.
  - assert ((i, args) ∈ iss s) as Hin' by by eapply list_elem_of_lookup_2. destruct (in_term _ _ _ Hin) as [_ Ht].
    destruct (installed_tip args rf rf' Hin) as [(_ & Hb & Hle)|[_ [Hb|[Hb Hle]]]]; [right; right|by left|right; right];
      exists args; (split_and!; [done|done|done|]); [|done].
    unfold base, snap_node in Hb. injection Hb as _ Hb. unfold last_index in Hle. pose proof (len_nonneg (Log rf)). lia.
Qed.

(** A leader's new entry is the end of its log. *)
Lemma start_tip i cmd rf : e = ELocal i (SStart cmd) -> nodes s !! i = Some rf -> leaderId rf = me rf ->
  c' = <[start_node rf := start_entry cmd rf]> c /\ tip (Start cmd rf).1 = start_node rf /\ anc c' (tip rf) (start_node rf).
Proof.
  intros He Hi Hl. destruct (inv_node n s Hinv i rf Hi) as (Hme & _).
  destruct grow_new as [[_ Hno]|(i2 & cmd2 & rf2 & He2 & Hi2 & _ & Hc2 & _ & Htip & Ha)].
  - destruct (Hno i cmd rf He Hi). congruence.
  - rewrite He in He2. injection He2 as <- <-. rewrite Hi in Hi2. by injection Hi2 as <-.
Qed.

Lemma exec_in_tree i u rf rf' : nodes s !! i = Some rf -> runs s e i u -> exec u rf = Ret rf' ->
  currentTerm rf <= currentTerm rf' ->
  in_tree c' (base rf') /\ in_tree c' (tip rf') /\ (base rf').1 <= currentTerm rf' /\ (tip rf').1 <= currentTerm rf'.
Proof.
  intros Hi Hr Hx Ht. destruct (rt_peer _ _ Hroot i rf rf Hi (or_introl eq_refl)) as (Hbt & Htt & Hb1 & Ht1).
  pose proof (rt_closed _ _ Hroot) as Hcl.
  assert (in_tree c' (base rf') /\ (base rf').1 <= currentTerm rf') as [? ?].
  { destruct (exec_base i u rf rf' Hi Hr Hx) as [->|[(_ & _ & Ha)|(args & Hin & -> & <- & _)]].
    - split; [by eapply in_tree_mono|lia].
    - pose proof (anc_term _ _ _ Hcl Htt Ha). split; [|lia]. eapply in_tree_mono; [done|by eapply anc_in_tree].
    - destruct (rt_iss _ _ Hroot i args Hin) as (? & _ & ?). split; [by eapply in_tree_mono|done]. }
  enough (in_tree c' (tip rf') /\ (tip rf').1 <= currentTerm rf') as [? ?] by done.
  destruct (exec_tip s e i u rf rf' Hr Hx) as [->%trims_tip|[(k & now & r & args & _ & Hk & Ha)|
    [(cmd & He & Hl & ->)|(k & now & r & args & _ & Hk & Hin)]]].
  - split; [by eapply in_tree_mono|lia].
  - destruct (append_on_tree _ _ _ _ _ _ _ Hi Hk Ha) as (reply & _ & Hap & Ht').
    destruct (rt_aes _ _ Hroot i args) as (_ & He & Hele); [by eapply list_elem_of_lookup_2|].
    destruct (ap_tip _ _ _ _ _ Hap) as [Hanc|[->|(Hcur & Hend & _ & Hok)]].
    + pose proof (anc_term _ _ _ Hcl Htt Hanc). split; [|lia].
      eapply in_tree_mono; [done|by apply (anc_in_tree c _ (tip rf))].
    + split; [by eapply in_tree_mono|lia].
    + rewrite Hend. split; [by eapply in_tree_mono|]. by destruct (ap_ok _ _ _ _ _ Hap Hok) as (_ & -> & _).
  - destruct (start_tip i cmd rf He Hi Hl) as (Hc2 & -> & _). split; [|exact Ht].
    right. rewrite Hc2, lookup_insert_eq. by eexists.
  - destruct (rt_iss _ _ Hroot i args) as (Hn & _ & Hn1); [by eapply list_elem_of_lookup_2|].
    destruct (in_term _ _ _ Hin) as [_ Htm]. destruct (installed_tip args rf rf' Hin) as [(-> & _ & _)|[-> _]];
      (split; [by eapply in_tree_mono|lia]).
Qed.

Lemma peer_step i rf' rf0' : nodes s' !! i = Some rf' -> image rf' rf0' ->
  in_tree c' (base rf0') /\ in_tree c' (tip rf0') /\ (base rf0').1 <= currentTerm rf' /\ (tip rf0').1 <= currentTerm rf'.
Proof.
  intros Hi' Him. destruct (step_peer_inv e s s' i rf' Hstep Hi') as (rf & Hi & Hc).
  destruct (change_term n s e i rf rf' Hinv Hi Hc) as [Ht _].
  destruct (image_step s e i rf rf' rf0' Hc Him) as [(rf0 & H0 & Hs)|(x & Hr & Hx & Hs)];
    rewrite (same_log_tip _ _ Hs), (same_log_base _ _ Hs); [|by eapply exec_in_tree].
  destruct (rt_peer _ _ Hroot i rf rf0 Hi H0) as (? & ? & ? & ?). split_and!; [by eapply in_tree_mono..|lia|lia].
Qed.

Lemma aes_step j args : (j, args) ∈ aes s' ->
  in_tree c' (prev_node args) /\ in_tree c' (end_node args) /\ (end_node args).1 <= ae_Term args.
Proof.
  intros Hin. pose proof (rt_closed _ _ Hroot) as Hcl.
  destruct (aes_cases_in j args Hin) as [Hold|(_ & Hc & i & rf & Hi & _ & Ht & Hend & Hprev)].
  - destruct (rt_aes _ _ Hroot j args Hold) as (? & ? & ?). split_and!; [by eapply in_tree_mono..|done].
  - pose proof (rooted_tip c s i rf Hroot Hi) as Htree. destruct (rt_peer _ _ Hroot i rf rf Hi (or_introl eq_refl)) as (_ & _ & _ & Hle).
    rewrite Hend, Ht, Hc. split_and!; [by apply (anc_in_tree c _ (tip rf))|done|done].
Qed.

Lemma iss_tree_step j args : (j, args) ∈ iss s' ->
  in_tree c' (snap_node args) /\ 1 <= is_Term args /\ (snap_node args).1 <= is_Term args.
Proof.
  intros Hin. enough (in_tree c (snap_node args) /\ 1 <= is_Term args /\ (snap_node args).1 <= is_Term args) as (? & ? & ?).
  { split_and!; [by eapply in_tree_mono|done..]. }
  revert Hin. destruct (step_iss e s s' Hstep) as [->|(i & j0 & rf & rd & args0 & _ & Hi & _ & Hsend & _ & ->)].
  { apply (rt_iss _ _ Hroot). }
  intros [Hin|Hin]%elem_of_app; [by apply (rt_iss _ _ Hroot j)|]. apply list_elem_of_singleton in Hin. injection Hin as -> ->.
  destruct (snapshot_sent _ _ _ Hsend) as (Hl & -> & _ & ->). destruct (rt_peer _ _ Hroot i rf rf Hi (or_introl eq_refl)) as (Hb & _ & Ht & _).
  pose proof (rec_peer _ _ _ Hrec i rf Hi) as Hp. split_and!; [done|by apply (pl_leader _ _ _ Hp)|done].
Qed.

(** The entries of a leader's term, after the event. *)
Lemma lead_step i rf' k : nodes s' !! i = Some rf' -> leaderId rf' = i -> is_Some (c' !! (currentTerm rf', k)) ->
  anc c' (currentTerm rf', k) (tip rf').
Proof.
  intros Hi' Hl' Hk. destruct (here lead_cases i rf' Hi' Hl')
    as (rf & Hi & Ht & [[Hl Htip]|(now & r & el & He & Hel & Hterm & Hmaj & Htip)]).
  - rewrite Ht in *. destruct (grow_lookup _ Hk) as [Hold|(i2 & cmd & rf2 & He & Hi2 & Hl2 & Hnode & Ha)].
    + pose proof (anc_mono' _ _ (rt_lead _ _ Hroot i rf k Hi Hl Hold)) as Ha.
      destruct Htip as [->|(cmd & He & ->)]; [done|].
      destruct grow_new as [[_ Hno]|(i2 & cmd2 & rf2 & He2 & Hi2 & _ & _ & _ & Htip & Ha2)];
        [by destruct (Hno i cmd rf He Hi)|]. rewrite He in He2. injection He2 as <- <-. rewrite Hi in Hi2.
      injection Hi2 as <-. rewrite Htip. by eapply anc_trans.
    + assert (i2 = i) as ->.
      { unfold start_node in Hnode. injection Hnode as Hcur _. apply (wins_unique n s (currentTerm rf)); [done|..].
        - rewrite Hcur. by apply lo_leader.
        - by apply lo_leader. }
      rewrite Hi in Hi2. injection Hi2 as <-. rewrite Hnode.
      destruct grow_new as [[_ Hno]|(i2 & cmd2 & rf2 & He2 & Hi2 & _ & _ & Hn & Htip2 & _)];
        [by destruct (Hno i cmd rf He Hi)|]. rewrite He in He2. injection He2 as <- <-. rewrite Hi in Hi2.
      injection Hi2 as <-. rewrite Hn, lookup_insert_eq in Hi'. injection Hi' as <-. rewrite Htip2. constructor.
  - exfalso. rewrite Ht in Hk. destruct (grow_lookup _ Hk) as [Hold|(i2 & cmd & rf2 & He2 & _)]; [|by rewrite He in He2].
    assert (1 <= currentTerm rf) as HT by (rewrite <- Hterm; by apply (rec_term _ _ _ Hrec i el)).
    destruct (created_led c s _ k Hrec Hold HT) as [l Hw]. rewrite <- Hterm in Hw.
    destruct (here finish_wins i now r rf el) as [Hw' Heq]; [done..|].
    apply (here finish_fresh i rf el l); [done|done|by rewrite Heq|done].
Qed.

Lemma term_step T k k' : is_Some (c' !! (T, k)) -> is_Some (c' !! (T, k')) -> k <= k' -> anc c' (T, k) (T, k').
Proof.
  intros Hk Hk' Hle.
  destruct (grow_lookup _ Hk) as [Hold|(i & cmd & rf & He & Hi & Hl & Hnode & Ha)],
    (grow_lookup _ Hk') as [Hold'|(i' & cmd' & rf' & He' & Hi' & Hl' & Hnode' & Ha')].
  - by apply anc_mono', (rt_term _ _ Hroot).
  - eapply anc_trans; [|exact Ha']. apply anc_mono'. unfold start_node in Hnode'. injection Hnode' as -> _.
    by apply (rt_lead _ _ Hroot i').
  - exfalso. unfold start_node in Hnode. injection Hnode as -> ->.
    pose proof (anc_index _ _ _ (rt_lead _ _ Hroot i rf k' Hi Hl Hold')) as Hlt. cbn in Hlt. lia.
  - rewrite He in He'. injection He' as <- <-. rewrite Hi in Hi'. injection Hi' as <-. rewrite Hnode, Hnode'. constructor.
Qed.

Lemma rooted_step : rooted c' s'.
Proof.
  split; [apply closed_step|apply peer_step|apply aes_step|apply iss_tree_step|apply lead_step|apply term_step].
Qed.

(** ** Who holds an entry *)

Lemma answered_mono k j args : answered s k j args -> answered s' k j args.
Proof.
  intros (reply & Hin & Hs & Hk). exists reply. destruct step_aes_app as [l ->].
  split_and!; [|done|by apply lookup_app_l_Some].
  destruct (step_aers e s s' Hstep) as [->|(?&?&?&?&?&?&?&?&_&_&_&_&_&_& ->)]; [done|]. apply elem_of_app. by left.
Qed.

Lemma ack_mono j T y : ack s j T y -> ack s' j T y.
Proof. intros (k & args & ? & ?). exists k, args. split; [by apply answered_mono|done]. Qed.

Lemma took_mono j T y : took s j T y -> took s' j T y.
Proof. intros (k & args & ? & ?). exists k, args. split; [by apply answered_mono|done]. Qed.

Lemma holds_mono j x : holds c s j x -> holds c' s' j x.
Proof.
  intros [[Hw [v Hx]]|(y & Ha & Hy)]; [left|right].
  - split; [by eapply wins_mono|]. exists v. by eapply lookup_weaken.
  - exists y. split; [by apply took_mono|by apply anc_mono'].
Qed.

Lemma end_in_tree k j args : aes s !! k = Some (j, args) -> in_tree c (end_node args).
Proof. intros Hk. apply (rt_aes _ _ Hroot j args). by eapply list_elem_of_lookup_2. Qed.

Lemma anc_old x y : in_tree c y -> anc c' x y -> anc c x y.
Proof. apply anc_grow; [done|apply Hroot|apply closed_step]. Qed.

Context (Hsafe : safe c s) (Hsnap : forall j args, (j, args) ∈ iss s -> covered c s (snap_node args)).
Context (Hbase : forall i rf, nodes s !! i = Some rf -> covered c s (base rf)).

(** An acknowledgement is old, or the answer to the request that was handled. *)
Lemma answered_cases k j args : answered s' k j args ->
  answered s k j args \/
  exists now r rf rf' reply, e = EAppend k now r /\ aes s !! k = Some (j, args) /\ nodes s !! j = Some rf /\
    nodes s' = <[j := rf']> (nodes s) /\ AppendEntries now r args rf = Ret (rf', reply) /\ Success reply = true.
Proof.
  intros (reply & Hin & Hs & Hk). destruct step_aes_app as [l Hl].
  assert (is_Some (aes s !! k) -> aes s !! k = Some (j, args)) as Hold.
  { intros [v Hv]. rewrite Hl, lookup_app_l in Hk by by apply lookup_lt_Some in Hv. done. }
  destruct (step_aers e s s' Hstep) as [Ha|(k2 & now & r & j2 & args2 & rf & rf' & reply2 & He & Hk2 & Hj2 & Hrun & Hn & Haes & Ha)].
  - rewrite Ha in Hin. left. exists reply. split_and!; try done. by apply Hold, (sf_aers _ _ Hsafe k reply).
  - rewrite Ha in Hin. apply elem_of_app in Hin as [Hin|Hin].
    + left. exists reply. split_and!; try done. by apply Hold, (sf_aers _ _ Hsafe k reply).
    + right. apply list_elem_of_singleton in Hin. injection Hin as -> ->. rewrite Haes, Hk2 in Hk. injection Hk as -> ->.
      by exists now, r, rf, rf', reply2.
Qed.

(** A newly won term has no entries. *)
Lemma new_win_empty T j k : wins s' T j -> ~ wins s T j -> ~ is_Some (c' !! (T, k)).
Proof.
  unfold wins. intros Hw Hno Hk. destruct (step_won e s s' Hstep) as [Heq|(i & now & r & rf & el & He & Hi & Hel & Hmaj & Heq)].
  { by rewrite Heq in Hw. }
  rewrite Heq in Hw. apply elem_of_app in Hw as [?|Hw]; [done|].
  apply list_elem_of_singleton in Hw. injection Hw as -> ->.
  destruct (grow_lookup _ Hk) as [Hold|(i2 & cmd & rf2 & He2 & _)]; [|by rewrite He in He2].
  destruct (created_led c s _ k Hrec Hold) as [l Hl]; [by apply (rec_term _ _ _ Hrec i el)|].
  destruct (here finish_wins i now r rf el) as [Hw' Ht]; [done..|].
  apply (here finish_fresh i rf el l); [done|done|by rewrite Ht|done].
Qed.

Lemma holds_cases j x : holds c' s' j x ->
  holds c s j x \/
  (exists cmd rf, e = ELocal j (SStart cmd) /\ nodes s !! j = Some rf /\ leaderId rf = j /\ x = start_node rf) \/
  (exists k now r args rf rf' reply, e = EAppend k now r /\ aes s !! k = Some (j, args) /\ nodes s !! j = Some rf /\
    nodes s' = <[j := rf']> (nodes s) /\ AppendEntries now r args rf = Ret (rf', reply) /\ Success reply = true /\
    Entries args <> [] /\ ae_Term args = x.1 /\ anc c x (end_node args)).
Proof.
  intros [[Hw Hx]|(y & Ha & Hy)].
  - destruct (decide ((x.1, j) ∈ won s)) as [Hold|Hnew].
    2: { exfalso. destruct x as [T k]. by apply (new_win_empty T j k). }
    destruct (grow_lookup _ Hx) as [?|(i & cmd & rf & He & Hi & Hl & -> & _)]; [left; by left|right; left].
    assert (i = j) as ->; [|by exists cmd, rf].
    apply (wins_unique n s (currentTerm rf)); [done|by apply lo_leader|exact Hold].
  - destruct Ha as (k & args & Hans & Hne & HT & ->).
    assert (anc c x (end_node args)) as Hy'.
    { apply anc_old; [|done]. destruct (answered_cases k j args Hans) as [(? & _ & _ & Hk)|(?&?&?&?&?&_&Hk&_)]; by eapply end_in_tree. }
    destruct (answered_cases k j args Hans) as [Hold|(now & r & rf & rf' & reply & He & Hk & Hj & Hn & Hrun & Hs)].
    + left. right. exists (end_node args). split; [by exists k, args|done].
    + right. right. by exists k, now, r, args, rf, rf', reply.
Qed.

(** A peer whose term is past that of [x] does not come to hold it. *)
Lemma holds_old j rf x : nodes s !! j = Some rf -> x.1 < currentTerm rf -> holds c' s' j x -> holds c s j x.
Proof.
  intros Hj Hlt Hh. destruct (holds_cases j x Hh) as [?|[(cmd & rf0 & _ & Hj0 & _ & ->)|
    (k & now & r & args & rf0 & rf' & reply & _ & Hk & Hj0 & _ & Hrun & Hs & _ & HT & _)]]; [done|exfalso..].
  - rewrite Hj in Hj0. injection Hj0 as <-. cbn in Hlt. lia.
  - rewrite Hj in Hj0. injection Hj0 as <-.
    assert (append_effect c args rf rf' (Success reply)) as Hap.
    { eapply AppendEntries_tip; [done|by eapply pl_logged, rec_peer|].
      apply (rec_aes _ _ _ Hrec j args). by eapply list_elem_of_lookup_2. }
    destruct (ap_ok _ _ _ _ _ Hap Hs) as [? _]. lia.
Qed.

Lemma blocked_mono x : blocked c s x -> blocked c' s' x.
Proof.
  intros (B & HB & Hb). exists B. split; [done|]. intros j Hj. destruct (Hb j Hj) as [Hno (rf & Hrf & Hlt)].
  destruct (step_peer e s s' j rf Hstep Hrf) as (rf' & Hrf' & Hc).
  destruct (change_term n s e j rf rf' Hinv Hrf Hc) as [Ht _].
  split; [|exists rf'; split; [done|lia]]. intros Hh. apply Hno. by eapply holds_old.
Qed.

Lemma committed_mono x : committed c s x -> committed c' s' x.
Proof. intros (Q & HQ & Hh). exists Q. split; [done|]. intros j Hj. by apply holds_mono, Hh. Qed.

Lemma not_blocked_old x : ~ blocked c' s' x -> ~ blocked c s x.
Proof. intros Hnb Hb. by apply Hnb, blocked_mono. Qed.

Lemma holds_tree j x : holds c s j x -> in_tree c x.
Proof.
  intros [[_ Hx]|(y & (k & args & (reply & _ & _ & Hk) & _ & _ & ->) & Hy)]; [by right|].
  eapply anc_in_tree; [apply Hroot| |done]. by eapply end_in_tree.
Qed.

(** ** Logs keep what they hold *)

(** A request that arrives in order contains what the follower holds. *)
Lemma append_contains k now r j rf args x :
  e = EAppend k now r -> aes s !! k = Some (j, args) -> nodes s !! j = Some rf -> currentTerm rf <= ae_Term args ->
  holds c s j x -> ~ blocked c s x -> anc c x (end_node args).
Proof.
  intros He Hk Hj Hle Hh Hnb. destruct (sf_tip _ _ Hsafe j rf rf x Hj (or_introl eq_refl) Hh) as [Hx _].
  assert ((j, args) ∈ aes s) as Hin by by eapply list_elem_of_lookup_2.
  pose proof (in_tree_term c x (rt_closed _ _ Hroot) (holds_tree j x Hh)) as H0.
  destruct (decide (x.1 = ae_Term args)) as [Heq|]; [|apply (sf_aes _ _ Hsafe j); [done|lia|done]].
  destruct Hh as [[Hw _]|(y & (k0 & args0 & (reply & Hin0 & _ & Hk0) & _ & HT & ->) & Hy)].
  - exfalso. destruct (here append_not_self j args Hin) as [Hl Hne]. apply Hne.
    apply (wins_unique n s (ae_Term args)); [done|done|by rewrite <- Heq].
  - eapply anc_trans; [exact Hy|]. apply (sf_order _ _ Hsafe k0 k j j); [|done..|congruence].
    pose proof Hord as Ho. rewrite He in Ho. eapply in_order_spec; [exact Ho|done..|congruence].
Qed.

(** What a peer holds is in the log that a section leaves. *)
Lemma exec_keeps j u rf rf' x : nodes s !! j = Some rf -> runs s e j u -> exec u rf = Ret rf' ->
  holds c s j x -> ~ blocked c s x -> anc c x (tip rf) -> anc c' x (tip rf').
Proof.
  intros Hj Hr Hx Hh Hnb Htip. pose proof (holds_tree j x Hh) as Htree.
  destruct (exec_tip s e j u rf rf' Hr Hx) as [->%trims_tip|[(k & now & r & args & He & Hk & Ha)|
    [(cmd & He & Hl & ->)|(k & now & r & args & _ & Hk & Hin)]]]; [by apply anc_mono'| | |].
  - destruct (append_on_tree _ _ _ _ _ _ _ Hj Hk Ha) as (reply & _ & Hap & [->|[Hcur _]]); [by apply anc_mono'|].
    apply anc_mono'. destruct (ap_keeps _ _ _ _ _ Hap x Htip) as [?|[-> Hle]]; [by eapply append_contains|done|].
    apply (covered_anc c s); [done|done|done|done|by apply (Hbase j)|done].
  - destruct (start_tip j cmd rf He Hj Hl) as (_ & -> & Ha). eapply anc_trans; [by apply anc_mono'|done].
  - apply anc_mono'. destruct (installed_tip args rf rf' Hin) as [(-> & _ & Hlast)|[-> _]]; [|done].
    apply (covered_anc c s); [done|done|done|done|by eapply Hsnap, list_elem_of_lookup_2|].
    apply anc_index in Htip. cbn in *. lia.
Qed.

Lemma image_synced rf rf0 : in_sync rf -> image rf rf0 -> same_log rf rf0.
Proof. intros Hs [->| ->]; [done|]. by apply durable_same_log, in_sync_stored. Qed.

Lemma tip_step j rf' rf0' x : nodes s' !! j = Some rf' -> image rf' rf0' -> holds c' s' j x ->
  x.1 <= currentTerm rf' /\ (~ blocked c' s' x -> anc c' x (tip rf0')).
Proof.
  intros Hj' Him Hh. destruct (step_peer_inv e s s' j rf' Hstep Hj') as (rf & Hj & Hc).
  destruct (change_term n s e j rf rf' Hinv Hj Hc) as [Ht _].
  destruct (holds_cases j x Hh) as [Hold|[(cmd & rf0 & He & Hj0 & Hl & ->)|
    (k & now & r & args & rf0 & rf2 & reply & He & Hk & Hj0 & Hn & Hrun & Hs & Hne & HT & Hx)]].
  - destruct (sf_tip _ _ Hsafe j rf rf x Hj (or_introl eq_refl) Hold) as [Hle Htip]. split; [lia|]. intros Hnb%not_blocked_old.
    specialize (Htip Hnb). destruct (image_step s e j rf rf' rf0' Hc Him) as [(rf0 & H0 & Hs)|(u & Hr & Hx & Hs)];
      rewrite (same_log_tip _ _ Hs); [|by eapply exec_keeps].
    apply anc_mono'. by apply (sf_tip _ _ Hsafe j rf rf0 x Hj H0 Hold).
  - rewrite Hj in Hj0. injection Hj0 as <-. split; [exact Ht|]. intros _.
    destruct (inv_node n s Hinv j rf Hj) as (Hme & _).
    destruct grow_new as [[_ Hno]|(i & cmd2 & rf2 & He2 & Hi2 & _ & _ & Hn & Hend & Ha)]; [by destruct (Hno j cmd rf He Hj)|].
    rewrite He in He2. injection He2 as <- <-. rewrite Hj in Hi2. injection Hi2 as <-.
    rewrite Hn, lookup_insert_eq in Hj'. injection Hj' as <-. rewrite (same_log_tip (Start cmd rf).1), Hend; [constructor|].
    apply image_synced; [|done]. unfold Start. destruct (Z.eqb_spec (leaderId rf) (me rf)); [apply in_sync_persist|congruence].
  - rewrite Hj in Hj0. injection Hj0 as <-. rewrite Hn, lookup_insert_eq in Hj'. injection Hj' as <-.
    assert (append_effect c args rf rf2 (Success reply)) as Hap.
    { eapply AppendEntries_tip; [done|by eapply pl_logged, rec_peer|].
      apply (rec_aes _ _ _ Hrec j args). by eapply list_elem_of_lookup_2. }
    destruct (ap_ok _ _ _ _ _ Hap Hs) as (? & ? & _). destruct (ap_saved _ _ _ _ _ Hap Hs Hne) as [Hsync Hend].
    split; [lia|]. intros _. apply anc_mono'. rewrite (same_log_tip rf2), Hend by (by apply image_synced). done.
Qed.

(** ** A new leader has what is not blocked *)

(** What is not larger than the end of a log, in the voters' order, is in it. *)
Lemma lex_anc i rf x : nodes s !! i = Some rf -> in_tree c x -> ~ blocked c s x -> lex_le x (tip rf) -> anc c x (tip rf).
Proof.
  intros Hi Hx Hnb Hlex. pose proof (rt_closed _ _ Hroot) as Hcl.
  pose proof (rooted_tip c s i rf Hroot Hi) as Htree. pose proof (in_tree_term c x Hcl Hx) as H0.
  destruct (tip rf) as [t k] eqn:Htip. destruct Hlex as [Hlt|[Heq Hle]]; cbn in *.
  - destruct Htree as [[= -> ->]|Hs]; [lia|]. by apply (sf_node _ _ Hsafe).
  - destruct x as [t' k']. cbn in *. subst t'. destruct Hx as [[= -> ->]|Hx]; [by apply anc_root|].
    destruct Htree as [[= -> ->]|Hs]; [|by apply (rt_term _ _ Hroot)].
    exfalso. destruct Hx as [[e0 p] Hx]. apply Hcl in Hx as [? _]. lia.
Qed.

(** Whoever won with the votes of a majority has every entry that one of the
    voters holds and that is not blocked; if there is none, the entry is
    blocked by the voters. *)
Lemma winner_has i rf el x : nodes s !! i = Some rf -> elections s !! i = Some el -> el_term el = currentTerm rf ->
  Z.quot (npeers rf) 2 < voteCount el -> (forall l, ~ wins s (el_term el) l) -> 0 <= x.1 < el_term el -> ~ blocked c s x ->
  anc c x (tip rf).
Proof.
  intros Hi Hel Hterm Hmaj Hfresh Hx Hnb.
  destruct (anc_dec c x (tip rf) (rt_closed _ _ Hroot) (rooted_tip c s i rf Hroot Hi)) as [?|Hno]; [done|exfalso].
  destruct (inv_elect n s Hinv i el Hel) as (rf0 & S & Hi0 & _ & _ & HS & Hcount & _).
  rewrite Hi in Hi0. injection Hi0 as <-. destruct (inv_node n s Hinv i rf Hi) as (_ & Hnp & _).
  apply Hnb. exists S. split.
  { rewrite Hnp, Hcount in Hmaj. split; [|done]. intros j Hj. by apply (inv_tally n s Hinv _ _ S j HS Hj). }
  intros j Hj. destruct (lo_tally s Hled _ _ S j HS Hj) as [->|(args & reply & Hrep & Hg & Hcand & HT)].
  - split; [|exists rf; split; [done|lia]]. intros Hh. by apply Hno, (sf_tip _ _ Hsafe i rf rf x Hi (or_introl eq_refl) Hh).
  - destruct (sf_voted _ _ Hsafe j args reply Hrep Hg) as (rfj & Hrfj & Hle).
    split; [|exists rfj; split; [done|lia]]. intros Hh. apply Hno.
    apply (lex_anc i); [done|by eapply holds_tree|done|].
    destruct (lo_reps s Hled j args reply Hrep) as [j' Hreq]. destruct (lo_reqs s Hled j' args Hreq) as (rf0 & Hrf0 & _ & Hend).
    rewrite Hcand, Hi in Hrf0. injection Hrf0 as <-.
    destruct (Hend ltac:(congruence)) as [<-|[l Hl]]; [|by destruct (Hfresh l); rewrite <- HT].
    apply (sf_vote _ _ Hsafe j args reply); [done|done|lia|done|done].
Qed.

Lemma finish_no_leader i rf now r el : e = EFinish i now r -> nodes s !! i = Some rf -> elections s !! i = Some el ->
  Z.quot (npeers rf) 2 < voteCount el -> forall l, ~ wins s (el_term el) l.
Proof.
  intros He Hi Hel Hmaj l Hl. destruct (here finish_wins i now r rf el) as [Hw Ht]; [done..|].
  apply (here finish_fresh i rf el l); [done|done|by rewrite Ht|done].
Qed.

Lemma leader_tip_step i rf' x : nodes s' !! i = Some rf' -> leaderId rf' = i -> 0 <= x.1 < currentTerm rf' ->
  ~ blocked c' s' x -> anc c' x (tip rf').
Proof.
  intros Hi' Hl' Hx Hnb%not_blocked_old. destruct (here lead_cases i rf' Hi' Hl')
    as (rf & Hi & Ht & [[Hl Htip]|(now & r & el & He & Hel & Hterm & Hmaj & ->)]); rewrite Ht in Hx.
  - pose proof (anc_mono' _ _ (sf_lead _ _ Hsafe i rf x Hi Hl Hx Hnb)) as Ha.
    destruct Htip as [->|(cmd & He & ->)]; [done|].
    destruct grow_new as [[_ Hno]|(i2 & cmd2 & rf2 & He2 & Hi2 & _ & _ & _ & Hend & Ha2)]; [by destruct (Hno i cmd rf He Hi)|].
    rewrite He in He2. injection He2 as <- <-. rewrite Hi in Hi2. injection Hi2 as <-. rewrite Hend. by eapply anc_trans.
  - apply anc_mono', (winner_has i rf el x); [done..| |lia|done]. by eapply finish_no_leader.
Qed.

Lemma node_step x y : is_Some (c' !! y) -> 0 <= x.1 < y.1 -> ~ blocked c' s' x -> anc c' x y.
Proof.
  intros Hy Hx Hnb%not_blocked_old. destruct (grow_lookup _ Hy) as [Hold|(i & cmd & rf & _ & Hi & Hl & -> & Ha)].
  - by apply anc_mono', (sf_node _ _ Hsafe).
  - eapply anc_trans; [|exact Ha]. by apply anc_mono', (sf_lead _ _ Hsafe i).
Qed.

(** ** Requests and votes *)

Lemma aes_safe_step j args x : (j, args) ∈ aes s' -> 0 <= x.1 < ae_Term args -> ~ blocked c' s' x -> anc c' x (end_node args).
Proof.
  intros Hin Hx Hnb%not_blocked_old. apply anc_mono'.
  destruct (aes_cases_in j args Hin) as [Hold|(_ & _ & i & rf & Hi & Hl & Ht & -> & _)].
  - by apply (sf_aes _ _ Hsafe j).
  - rewrite Ht in Hx. by apply (sf_lead _ _ Hsafe i).
Qed.

Lemma order_step k k' j j' a a' : (k <= k')%nat -> aes s' !! k = Some (j, a) -> aes s' !! k' = Some (j', a') ->
  ae_Term a = ae_Term a' -> anc c' (end_node a) (end_node a').
Proof.
  intros Hle Hk Hk' Ht. apply anc_mono'.
  destruct (aes_cases _ _ _ Hk) as [Hold|(-> & _)], (aes_cases _ _ _ Hk') as [Hold'|(Hlen & _ & _ & i & rf & Hi & Hl & Ht' & Hend & _)].
  - by apply (sf_order _ _ Hsafe k k' j j').
  - rewrite Hend. apply (sf_sent _ _ Hsafe j a i rf); [by eapply list_elem_of_lookup_2|done|done|congruence].
  - apply lookup_lt_Some in Hold'. lia.
  - rewrite Hlen, Hk in Hk'. injection Hk' as -> ->. constructor.
Qed.

Lemma sent_step j a i rf' : (j, a) ∈ aes s' -> nodes s' !! i = Some rf' -> leaderId rf' = i ->
  ae_Term a = currentTerm rf' -> anc c' (end_node a) (tip rf').
Proof.
  intros Hin Hi' Hl' Ha. destruct (aes_cases_in j a Hin) as [Hold|(Hn & _ & i2 & rf2 & Hi2 & Hl2 & Ht2 & Hend & _)].
  - destruct (here lead_cases i rf' Hi' Hl')
      as (rf & Hi & Ht & [[Hl Htip]|(now & r & el & He & Hel & Hterm & Hmaj & ->)]); rewrite Ht in Ha.
    + pose proof (anc_mono' _ _ (sf_sent _ _ Hsafe j a i rf Hold Hi Hl Ha)) as Hanc.
      destruct Htip as [->|(cmd & He & ->)]; [done|].
      destruct grow_new as [[_ Hno]|(i2 & cmd2 & rf2 & He2 & Hi2 & _ & _ & _ & Hend & Ha2)]; [by destruct (Hno i cmd rf He Hi)|].
      rewrite He in He2. injection He2 as <- <-. rewrite Hi in Hi2. injection Hi2 as <-. rewrite Hend. by eapply anc_trans.
    + exfalso. destruct (here append_not_self j a Hold) as [Hw _].
      apply (finish_no_leader i rf now r el He Hi Hel Hmaj (ae_LeaderId a)). by rewrite Hterm, <- Ha.
  - rewrite Hn in Hi'. assert (i2 = i) as ->.
    { apply (wins_unique n s (currentTerm rf')); [done| |by apply lo_leader]. rewrite <- Ha, Ht2. by apply lo_leader. }
    rewrite Hi' in Hi2. injection Hi2 as <-. rewrite Hend. constructor.
Qed.

(** What a granted vote says about the voter. *)
Lemma granted_cases now r args rf rf' reply :
  RequestVote now r args rf = Ret (rf', reply) -> VoteGranted reply = true ->
  lex_le (tip rf) (LastLogTerm args, LastLogIndex args) /\ currentTerm rf' = rv_Term args.
Proof.
  rewrite RequestVote_eq. intros [= <- <-]. cbn. intros Hg%bool_decide_eq_true. rewrite decide_True by done.
  destruct Hg as (Hle & _ & Hup). split; [unfold lex_le, tip; cbn; destruct Hup as [?|[? ?]]; [by left|right; split; lia]|].
  unfold adopt_term. destruct (Z.gtb_spec (rv_Term args) (currentTerm rf)); cbn; lia.
Qed.

Lemma reps_cases j args reply : (j, args, reply) ∈ reps s' -> VoteGranted reply = true ->
  (j, args, reply) ∈ reps s \/
  exists k now r rf rf', e = EVote k now r /\ nodes s !! j = Some rf /\ nodes s' !! j = Some rf' /\
    lex_le (tip rf) (LastLogTerm args, LastLogIndex args) /\ currentTerm rf' = rv_Term args.
Proof.
  intros Hin Hg. destruct (step_reps e s s' Hstep) as [<-|(k & now & r & j0 & args0 & rf & rf' & reply0 & He & Hk & Hj & Hrun & Heq)];
    [by left|]. rewrite Heq in Hin. apply elem_of_app in Hin as [Hin|Hin]; [by left|right].
  apply list_elem_of_singleton in Hin. injection Hin as -> -> ->.
  destruct (granted_cases now r args0 rf rf' reply0 Hrun Hg). exists k, now, r, rf, rf'. split_and!; try done.
  pose proof Hstep as Hs. rewrite He in Hs. cbn [step] in Hs. unfold vote in Hs. rewrite Hk, Hj, Hrun in Hs.
  injection Hs as <-. apply lookup_insert_eq.
Qed.

Lemma voted_step j args reply : (j, args, reply) ∈ reps s' -> VoteGranted reply = true ->
  exists rf, nodes s' !! j = Some rf /\ rv_Term args <= currentTerm rf.
Proof.
  intros Hin Hg. destruct (reps_cases j args reply Hin Hg) as [Hold|(k & now & r & rf & rf' & _ & _ & Hj' & _ & Ht)].
  - destruct (sf_voted _ _ Hsafe j args reply Hold Hg) as (rf & Hj & Hle).
    destruct (step_peer e s s' j rf Hstep Hj) as (rf' & Hj' & Hc). exists rf'. split; [done|].
    destruct (change_term n s e j rf rf' Hinv Hj Hc). lia.
  - exists rf'. split; [done|lia].
Qed.

Lemma vote_step j args reply x : (j, args, reply) ∈ reps s' -> VoteGranted reply = true -> 0 <= x.1 < rv_Term args ->
  holds c' s' j x -> ~ blocked c' s' x -> lex_le x (LastLogTerm args, LastLogIndex args).
Proof.
  intros Hin Hg Hx Hh Hnb%not_blocked_old.
  destruct (reps_cases j args reply Hin Hg) as [Hold|(k & now & r & rf & rf' & He & Hj & Hj' & Hlex & Ht)].
  - destruct (sf_voted _ _ Hsafe j args reply Hold Hg) as (rf & Hj & Hle).
    apply (sf_vote _ _ Hsafe j args reply); try done. apply (holds_old j rf); [done|lia|done].
  - destruct (holds_cases j x Hh) as [Hold|[(?&?&He2&_)|(?&?&?&?&?&?&?&He2&_)]]; [|by rewrite He in He2..].
    destruct (sf_tip _ _ Hsafe j rf rf x Hj (or_introl eq_refl) Hold) as [_ Htip]. specialize (Htip Hnb).
    pose proof (anc_index _ _ _ Htip). pose proof (anc_term _ _ _ (rt_closed _ _ Hroot)
      (rooted_tip c s j rf Hroot Hj) Htip). unfold lex_le in *. cbn in *. lia.
Qed.

Lemma aers_step k reply : (k, reply) ∈ aers (repl s') -> is_Some (aes s' !! k).
Proof.
  destruct step_aes_app as [l Hl]. intros Hin.
  assert (is_Some (aes s !! k) -> is_Some (aes s' !! k)) as Hmono.
  { intros [v Hv]. exists v. rewrite Hl. by apply lookup_app_l_Some. }
  apply Hmono. destruct (step_aers e s s' Hstep) as [Ha|(k2 & now & r & j2 & args2 & rf & rf' & reply2 & _ & Hk2 & _ & _ & _ & _ & Ha)];
    rewrite Ha in Hin; [by apply (sf_aers _ _ Hsafe k reply)|].
  apply elem_of_app in Hin as [Hin|Hin]; [by apply (sf_aers _ _ Hsafe k reply)|].
  apply list_elem_of_singleton in Hin. injection Hin as -> _. by eexists.
Qed.

Lemma safe_step : safe c' s'.
Proof.
  split; [apply tip_step|apply node_step|apply leader_tip_step|apply aes_safe_step|apply order_step|apply sent_step
    |apply vote_step|apply voted_step|apply aers_step].
Qed.

End preserved.

(** ** The invariant of orderly runs *)

Record good c s : Prop := {
  g_inv : inv n s;
  g_rec : recorded (wins s) c s;
  g_led : led_ok s;
  g_root : rooted c s;
  g_safe : safe c s;
}.

Lemma tree_of_committed c s y : good c s -> committed c s y -> in_tree c y.
Proof. intros [_ _ _ Hroot _]. by apply in_tree_committed. Qed.

Lemma good_step c e s s' :
  good c s -> (forall j args, (j, args) ∈ iss s -> covered c s (snap_node args)) ->
  (forall i rf, nodes s !! i = Some rf -> covered_by c s (currentTerm rf) (base rf)) ->
  orderly e s = true -> step e s = Some s' -> good (grow e s c) s' /\ c ⊆ grow e s c.
Proof.
  intros [Hinv Hrec Hled Hroot Hsafe] Hsnap Hbase Hord Hstep. assert (inv n s') as Hinv' by by eapply step_inv.
  assert (forall i rf, nodes s !! i = Some rf -> leaderId rf = i -> straight c rf) as Hstr.
  { intros i rf Hi. eapply leader_straight; [done..|by eapply Hbase|done]. }
  destruct (recorded_step n (wins s') (fun T i j => wins_unique n s' T i j Hinv') c e s s') as [Hrec' Hgrow].
  - done.
  - eapply recorded_mono; [|done]. intros T i. by apply (wins_mono e s).
  - intros i T (rf & Hi & Hg). unfold GetState in Hg. injection Hg as <- Hl. apply Z.eqb_eq in Hl.
    apply (wins_mono e s); [done|]. apply lo_leader; [done|done|]. destruct (inv_node n s Hinv i rf Hi) as (<- & _). done.
  - destruct e; try done.
    + intros rf Hi Hl. destruct (inv_node n s Hinv i rf Hi) as (Hme & _). apply (Hstr i); [done|congruence].
    + intros j args rf Hk Hj. assert ((j, args) ∈ iss s) as Hin by by eapply list_elem_of_lookup_2.
      destruct (rt_iss _ _ Hroot j args Hin) as (Htree & ? & _). split_and!; [|done|exact (in_tree_low c _ (rt_closed _ _ Hroot) Htree)].
      eapply wins_mono; [exact Hstep|by apply (lo_iss s Hled j)].
  - done.
  - assert (led_ok s') as Hled' by by apply (led_step n c e s).
    split; [|done]. split; [done|done|done|by apply rooted_step|].
    apply safe_step; try done. intros i rf Hi. by eapply covered_by_covered, Hbase.
Qed.

Lemma good_init : good first_history (init n).
Proof.
  assert (forall j x, ~ holds first_history (init n) j x) as Hno.
  { intros j x [[Hw _]|(y & (k & args & Hin & _) & _)]; [by apply elem_of_nil in Hw|]. destruct Hin as (? & Hin & _). by apply elem_of_nil in Hin. }
  assert (forall y, is_Some (first_history (Cmd := Cmd) !! y) -> y = (0, 0)) as Hfirst.
  { intros y [v Hv]. unfold first_history in Hv. by apply lookup_singleton_Some in Hv as [<- _]. }
  assert (forall i rf, nodes (init n) !! i = Some rf -> leaderId rf <> i) as Hlead.
  { intros i rf Hi. destruct (init_node n i rf Hi) as [[Hpos _] ->]. change (-1 <> i). lia. }
  split.
  - apply inv_init.
  - apply recorded_init.
  - split.
    + intros i rf Hi Hl. by destruct (Hlead i rf Hi).
    + intros T i Hw. by apply elem_of_nil in Hw.
    + intros i rd. cbn. by rewrite lookup_empty.
    + intros T i S j. cbn. by rewrite lookup_empty.
    + intros j args reply Hin. by apply elem_of_nil in Hin.
    + intros j args Hin. by apply elem_of_nil in Hin.
    + intros j args Hin. by apply elem_of_nil in Hin.
  - split.
    + intros T k e p Hk. pose proof (Hfirst (T, k) ltac:(by eexists)) as [= -> ->].
      unfold first_history in Hk. rewrite lookup_singleton_eq in Hk. injection Hk as <- <-. split_and!; [done..|by left].
    + intros i rf rf0 Hi Him. destruct (init_node n i rf Hi) as [_ ->].
      assert (same_log (Make (Z.of_nat n) i MakePersister 0 0) rf0) as Hs by (by destruct Him as [->| ->]).
      rewrite (same_log_tip _ _ Hs), (same_log_base _ _ Hs). split_and!; [by left|right|done..].
      unfold first_history, tip, last_index. cbn. rewrite lookup_singleton_eq. by eexists.
    + intros j args Hin. by apply elem_of_nil in Hin.
    + intros j args Hin. by apply elem_of_nil in Hin.
    + intros i rf k Hi Hl. by destruct (Hlead i rf Hi).
    + intros T k k' Hk%Hfirst Hk'%Hfirst _. injection Hk as -> ->. injection Hk' as ->. constructor.
  - split.
    + intros j rf rf0 x _ _ Hh. by destruct (Hno j x).
    + intros x y Hy%Hfirst Hx. subst y. cbn in Hx. lia.
    + intros i rf x Hi Hl. by destruct (Hlead i rf Hi).
    + intros j args x Hin. by apply elem_of_nil in Hin.
    + intros k k' j j' a a' _ Hk. cbn in Hk. by rewrite lookup_nil in Hk.
    + intros j a i rf Hin. by apply elem_of_nil in Hin.
    + intros j args reply x Hin. by apply elem_of_nil in Hin.
    + intros j args reply Hin. by apply elem_of_nil in Hin.
    + intros k reply Hin. by apply elem_of_nil in Hin.
Qed.

End completeness.
End LeaderCompleteness.
