(* ===== verification/Commitment.v ===== *)
(** What commit indices and apply messages stand for in orderly runs: entries
    that a majority holds, or that a snapshot of such entries covers.
    [matchIndex] records what followers hold beyond the leader's snapshot,
    [findMaxN] counts it, and [LeaderCommit] passes the result on. *)
From S2P Require Import Prelude Labgob Persister RaftState Raft RaftLemmas RaftElection RaftLog RaftSnapshot RaftSteps.
From S2P Require Import Cluster ClusterProofs ClusterSteps LogMatching LogTree Leadership LeaderCompleteness.
Import Labgob Persist RaftState RaftNode RaftOk RaftElection RaftLog RaftSnapshot RaftSteps.
Import Cluster ClusterOk ClusterSteps LogMatching LogTree Leadership LeaderCompleteness.
Local Open Scope Z_scope.

Module Commitment.

(** ** What sections do to indices, to the commit index and to the messages *)

Section sections.
Context {Cmd : Type} `{!Gob (gval Cmd)}.
Implicit Types (rf : Raft Cmd) (s : cluster Cmd).

(** A section that leaves the indices of other peers, the commit index, the
    snapshot and the messages alone. *)
Definition same_indices rf rf' : Prop := nextIndex rf' = nextIndex rf /\ matchIndex rf' = matchIndex rf.
Definition same_commit rf rf' : Prop :=
  commitIndex rf' = commitIndex rf /\ lastAppliedIndex rf' = lastAppliedIndex rf /\ sender rf' = sender rf.

(** An acknowledged request moves the indices of its peer. *)
Definition counts_ack j args (reply : AppendEntriesReply) rf rf' : Prop :=
  exists next, nextIndex rf !! Z.to_nat j = Some next /\
    (forall l, l <> Z.to_nat j -> nextIndex rf' !! l = nextIndex rf !! l) /\
    (matchIndex rf' = matchIndex rf \/
     Success reply = true /\ 0 <= j /\
     matchIndex rf' = <[Z.to_nat j := next + len (Entries (Cmd := Cmd) args) - 1]> (matchIndex rf)).

(** An installed snapshot moves the indices of its peer. *)
Definition counts_snapshot j rf rf' : Prop :=
  (forall l, l <> Z.to_nat j -> nextIndex rf' !! l = nextIndex rf !! l) /\
  matchIndex rf' = <[Z.to_nat j := lastAppliedIndex rf]> (matchIndex rf).

Lemma append_recv_effect j term args ok reply count rf rf' cnt :
  appendRPCWorker_recv j term args ok reply count rf = Ret (rf', cnt) ->
  same_commit rf rf' /\
  (same_indices rf rf' \/ (ok = true /\ currentTerm rf = term /\ leaderId rf = me rf /\ counts_ack j args reply rf rf')).
Proof.
  unfold appendRPCWorker_recv. destruct (_ || _) eqn:Hlead; [intros [= <- _]; by repeat split; left|]. zbool.
  destruct ok; cbn [negb]; [|intros [= <- _]; by repeat split; left].
  case_cond; [intros [= <- _]; by repeat split; left|].
  intros (next & Hn & Hrun)%rbind_ret. apply go_index_ret in Hn as [Hj Hn].
  destruct (Success reply) eqn:Hs.
  - apply rbind_ret in Hrun as (nexts & Hns & Hrun). apply go_set_ret in Hns as [Hr ->].
    apply rbind_ret in Hrun as (nx & Hnx & Hrun). apply rbind_ret in Hrun as (ms & Hms & [= <- _]).
    apply go_set_ret in Hms as [_ ->]. cbn in *. apply go_index_ret in Hnx as [_ Hnx].
    rewrite list_lookup_insert_eq in Hnx by by apply lookup_lt_Some in Hn. injection Hnx as <-.
    split; [done|]. right. split_and!; [done|done|done|]. exists next. cbn. split_and!; [done| |].
    + intros l Hl. by rewrite list_lookup_insert_ne.
    + right. split_and!; [done|lia|done].
  - apply rbind_ret in Hrun as (nexts & Hns & [= <- _]). apply go_set_ret in Hns as [_ ->].
    split; [done|]. right. split_and!; [done|done|done|]. exists next. cbn. split_and!; [done| |by left].
    intros l Hl. by rewrite list_lookup_insert_ne.
Qed.

Lemma AppendEntries_indices now r args rf rf' reply :
  AppendEntries now r args rf = Ret (rf', reply) -> same_indices rf rf'.
Proof.
  unfold AppendEntries. intros ([rf1 reply1] & Hrun & [= <- _])%rbind_ret. revert Hrun. rewrite AppendEntries_body_eq.
  pose proof (adopt_leader_log (ae_Term args) (ae_LeaderId args) rf) as Hlog. unfold log_part in Hlog.
  injection Hlog as _ _ _ _ _ Hn Hm _ _ _ _. unfold same_indices. rewrite <- Hn, <- Hm.
  case_decide; [|case_decide; [done|]].
  - intros [= <- _]. unfold advance_commit, append_entries. by repeat case_cond.
  - repeat case_cond; intros [= <- _]; done.
Qed.

(** The answer to a snapshot moves the indices of its peer. *)
Lemma snapshot_recv_effect j reply rf rf' :
  InstallSnapshotSender_recv j true reply rf = Ret rf' ->
  same_commit rf rf' /\ (same_indices rf rf' \/ 0 <= j /\ counts_snapshot j rf rf').
Proof.
  unfold InstallSnapshotSender_recv. cbn [negb]. case_cond; [intros [= <-]; by repeat split; left|].
  intros (nexts & Hns & Hrun)%rbind_ret. apply go_set_ret in Hns as [Hj ->].
  apply rbind_ret in Hrun as (nx & Hnx & Hrun). apply rbind_ret in Hrun as (ms & Hms & [= <-]).
  apply go_set_ret in Hms as [_ ->]. cbn in *. apply go_index_ret in Hnx as [_ Hnx]. unfold len in Hj.
  rewrite list_lookup_insert_eq in Hnx by lia. injection Hnx as <-.
  split; [done|]. right. split; [lia|]. split; cbn; [|f_equal; lia].
  intros l Hl. by rewrite list_lookup_insert_ne.
Qed.

(** The indices of other peers change with a won election, with an
    acknowledgement or with an installed snapshot only. *)
Lemma exec_indices x rf rf' :
  exec x rf = Ret rf' ->
  same_indices rf rf' \/
  (exists now r v, x = SElectionFinish now r v /\ Z.quot (npeers rf) 2 < v) \/
  (exists j reply, x = SSnapshotRecv j true reply /\ 0 <= j /\ counts_snapshot j rf rf') \/
  (exists j term args reply count, x = SAppendRecv j term args true reply count /\ currentTerm rf = term /\
     leaderId rf = me rf /\ counts_ack j args reply rf rf').
Proof.
  intros Hx. destruct x.
  9: { left. destruct (install_effect _ _ _ _ _ Hx) as [[_ ->]|Hin]; [done|]. split; by apply (in_rest _ _ _ Hin). }
  all: cbn [exec] in *.
  - injection Hx as <-. by left.
  - injection Hx as <-. left. unfold electionSender_recv. by repeat case_cond.
  - injection Hx as <-. unfold startElection_finish. destruct (Z.gtb_spec votes (Z.quot (npeers rf) 2)); [right; left|by left].
    by exists now, r, votes.
  - rewrite RequestVote_eq in Hx. cbn in Hx. injection Hx as <-. left. unfold adopt_term.
    case_decide; repeat case_cond; done.
  - apply rbind_ret in Hx as ([rf1 cnt] & Hrun & [= <-]).
    destruct (append_recv_effect _ _ _ _ _ _ _ _ _ Hrun) as [_ [?|(-> & ? & ? & ?)]]; [by left|].
    right. right. right. by exists index, term, args, reply, count.
  - left. revert Hx. unfold sendAERpcs_finish. case_cond; [|by intros [= <-]].
    intros (N & _ & [= <-])%rbind_ret. by case_cond.
  - apply rbind_ret in Hx as ([rf1 reply] & Hrun & [= <-]). left. by eapply AppendEntries_indices.
  - destruct ok; [|left; cbn in Hx; by injection Hx as <-].
    destruct (snapshot_recv_effect _ _ _ _ Hx) as [_ [?|[? ?]]]; [by left|]. right. right. left. by exists index, reply.
  - left. destruct (doSnapshot_state _ _ _ _ Hx) as (_ & _ & _ & ? & ? & _). by split.
  - injection Hx as <-. left. unfold Start. by case_cond.
  - left. destruct (apply_state _ _ _ Hx) as (_ & _ & _ & _ & _ & ? & ?). by split.
  - injection Hx as <-. by left.
  - apply exec_sending in Hx as ->. by left.
Qed.

(** The commit index, the snapshot and the messages change with requests, at
    the end of a round, with [Snapshot] and when entries are applied only. *)
Lemma exec_commit x rf rf' :
  exec x rf = Ret rf' ->
  same_commit rf rf' \/
  (exists now r args, x = SInstallSnapshot now r args) \/
  (exists now r args, x = SAppendEntries now r args) \/
  (exists count N, x = SRoundFinish count /\ Z.quot (npeers rf) 2 < count /\ findMaxN rf = Ret N /\
     commitIndex rf < N /\ rf' = set_commitIndex N rf) \/
  (exists index snap, x = SDoSnapshot index snap) \/
  (exists index, x = SApply index).
Proof.
  intros Hx. destruct x.
  9: { right. left. by eexists _, _, _. }
  all: cbn [exec] in *.
  - injection Hx as <-. by left.
  - injection Hx as <-. left. unfold electionSender_recv. by repeat case_cond.
  - injection Hx as <-. left. unfold startElection_finish. by case_cond.
  - rewrite RequestVote_eq in Hx. cbn in Hx. injection Hx as <-. left. unfold adopt_term.
    case_decide; repeat case_cond; done.
  - apply rbind_ret in Hx as ([rf1 cnt] & Hrun & [= <-]). left. by apply (append_recv_effect _ _ _ _ _ _ _ _ _ Hrun).
  - revert Hx. unfold sendAERpcs_finish. destruct (Z.gtb_spec count (Z.quot (npeers rf) 2)); [|intros [= <-]; by left].
    intros (N & HN & [= <-])%rbind_ret. destruct (Z.gtb_spec N (commitIndex rf)); [|by left].
    right. right. right. left. by exists count, N.
  - right. right. left. by exists now, r, args.
  - left. destruct ok; [by apply (snapshot_recv_effect _ _ _ _ Hx)|cbn in Hx; by injection Hx as <-].
  - right. right. right. right. left. by exists index, snap.
  - injection Hx as <-. left. unfold Start. by case_cond.
  - right. right. right. right. right. by exists index.
  - injection Hx as <-. by left.
  - apply exec_sending in Hx as ->. by left.
Qed.

(** Messages stand for entries of the log. *)
Definition from_log rf (index : Z) (m : ApplyMsg Cmd) : Prop :=
  CommandIndex m <= index /\ exists e, entry_at rf (CommandIndex m) = Some e /\ Command e = am_Command m.

Lemma apply_sent index rf rf' m :
  applyLogToRsm index rf = Ret rf' -> m ∈ sender rf' -> m ∈ sender rf \/ from_log rf index m.
Proof.
  unfold applyLogToRsm. case_cond; [|intros [= <-]; by left].
  generalize (Z.to_nat (index - lastApplied rf)) (lastApplied rf + 1). intros k. clear.
  induction k as [|k IH] in rf |- *; intros i; cbn [apply_loop]; [intros [= <-]; by left|].
  destruct (_ && _) eqn:Hi; [|intros [= <-]; by left].
  intros (e & He & Hrun)%rbind_ret Hm. destruct (IH _ _ Hrun Hm) as [Hold|Hlog]; [|by right].
  cbn in Hold. apply elem_of_app in Hold as [?|Hold]; [by left|right]. apply list_elem_of_singleton in Hold as ->.
  zbool. split; cbn; [lia|]. exists e. split; [|done]. unfold entry_at.
  destruct (Z.gtb_spec i (lastAppliedIndex rf)); [|lia]. by apply go_index_ret in He as [_ ?].
Qed.

(** [doSnapshot] only announces the snapshot. *)
Lemma doSnapshot_sent index snap rf rf' m :
  doSnapshot index snap rf = Ret rf' -> m ∈ sender rf' -> m ∈ sender rf \/ CommandValid m = false.
Proof.
  intros Hx. destruct (decide (index < lastAppliedIndex rf)).
  { rewrite doSnapshot_old in Hx by done. injection Hx as <-. by left. }
  destruct (decide (index <= last_index rf)).
  - destruct (doSnapshot_eq index snap rf) as (t & _ & Heq); [lia|]. rewrite Heq in Hx. injection Hx as <-. cbn.
    intros [?|Hm]%elem_of_app; [by left|right]. by apply list_elem_of_singleton in Hm as ->.
  - assert (doSnapshot index snap rf = Panic) as Hpan by (apply doSnapshot_panic; lia). congruence.
Qed.

(** A restarted peer starts from the snapshot on its disk. *)
Lemma crash_state rf now r :
  let rf' := Make (npeers rf) (me rf) (Copy (persister rf)) now r in
  commitIndex rf' = lastAppliedIndex rf' /\ base rf' = base (stored rf) /\ sender rf' = [].
Proof.
  cbv zeta. destruct (durable_same_log _ _ (stored_Make (npeers rf) (me rf) rf now r)) as (_ & Hl & Ht).
  split_and!; [done|unfold base; by rewrite Hl, Ht|].
  unfold Make. cbn. unfold readPersist. by repeat (case_match; try done).
Qed.

(** [lastApplied] moves with the snapshot, and when entries are applied. *)
Lemma apply_bound index rf rf' : applyLogToRsm index rf = Ret rf' -> lastApplied rf' <= Z.max (lastApplied rf) index.
Proof.
  unfold applyLogToRsm. case_cond; [|intros [= <-]; lia].
  assert (forall k i rf, lastApplied rf < i -> apply_loop k index i rf = Ret rf' -> lastApplied rf' <= Z.max (lastApplied rf) index) as Hloop.
  { clear. induction k as [|k IH]; intros i rf Hi; cbn [apply_loop]; [intros [= <-]; lia|].
    destruct (_ && _) eqn:Hc; [|intros [= <-]; lia]. zbool. intros (e & _ & Hrun)%rbind_ret.
    apply IH in Hrun; cbn in *; lia. }
  intros Hrun%Hloop; lia.
Qed.

Lemma exec_applied x rf rf' : exec x rf = Ret rf' ->
  lastApplied rf' = lastApplied rf \/ lastApplied rf' = lastAppliedIndex rf' \/
  exists index, x = SApply index /\ lastApplied rf' <= Z.max (lastApplied rf) index.
Proof.
  intros Hx. destruct x; cbn [exec] in *.
  - injection Hx as <-. by left.
  - injection Hx as <-. left. unfold electionSender_recv. by repeat case_cond.
  - injection Hx as <-. left. unfold startElection_finish. by case_cond.
  - rewrite RequestVote_eq in Hx. cbn in Hx. injection Hx as <-. left. unfold adopt_term. case_decide; repeat case_cond; done.
  - apply rbind_ret in Hx as ([rf1 cnt] & Hrun & [= <-]). left. revert Hrun. unfold appendRPCWorker_recv.
    do 2 (case_cond; [by intros [= <- _]|]). case_cond; [by intros [= <- _]|]. intros (next & _ & Hrun)%rbind_ret. case_cond.
    + apply rbind_ret in Hrun as (nexts & _ & Hrun). apply rbind_ret in Hrun as (nx & _ & Hrun).
      by apply rbind_ret in Hrun as (ms & _ & [= <- _]).
    + by apply rbind_ret in Hrun as (nexts & _ & [= <- _]).
  - left. revert Hx. unfold sendAERpcs_finish. case_cond; [|by intros [= <-]]. intros (N & _ & [= <-])%rbind_ret. by case_cond.
  - apply rbind_ret in Hx as ([rf1 reply] & Hrun & [= <-]). left. unfold AppendEntries in Hrun.
    apply rbind_ret in Hrun as ([rf2 reply2] & Hrun & [= <- _]). rewrite AppendEntries_body_eq in Hrun.
    pose proof (adopt_leader_log (ae_Term args) (ae_LeaderId args) rf) as Hlog. unfold log_part in Hlog.
    injection Hlog as _ _ Ha _ _ _ _ _ _ _ _. cbn. rewrite <- Ha. revert Hrun. case_decide; [|case_decide; [done|]].
    + intros [= <- _]. unfold advance_commit, append_entries. by repeat case_cond.
    + repeat case_cond; intros [= <- _]; done.
  - left. revert Hx. unfold InstallSnapshotSender_recv. case_cond; [by intros [= <-]|]. case_cond; [by intros [= <-]|].
    intros (nexts & _ & Hrun)%rbind_ret. apply rbind_ret in Hrun as (nx & _ & Hrun). by apply rbind_ret in Hrun as (ms & _ & [= <-]).
  - rewrite InstallSnapshot_eq in Hx. pose proof (adopt_leader_log (is_Term args) (is_LeaderId args) rf) as Hlog.
    unfold log_part in Hlog. injection Hlog as _ _ Ha _ _ _ _ _ _ _ _.
    destruct (is_Term args <? currentTerm rf); cbn in Hx; injection Hx as <-; [by left|]. unfold cover. repeat case_cond; cbn; auto.
  - destruct (decide (index < lastAppliedIndex rf)).
    { rewrite doSnapshot_old in Hx by done. injection Hx as <-. by left. }
    destruct (decide (index <= last_index rf)).
    + destruct (doSnapshot_eq index snap rf) as (t & _ & Heq); [lia|]. rewrite Heq in Hx. injection Hx as <-. right. by left.
    + assert (doSnapshot index snap rf = Panic) as Hpan by (apply doSnapshot_panic; lia). congruence.
  - injection Hx as <-. left. unfold Start. by case_cond.
  - right. right. exists index. split; [done|by apply apply_bound].
  - injection Hx as <-. by left.
  - apply exec_sending in Hx as ->. by left.
Qed.

Lemma runs_append s e i now r args :
  runs s e i (SAppendEntries now r args) -> exists k, e = EAppend k now r /\ aes s !! k = Some (i, args).
Proof.
  destruct e; cbn; try done; [|by intros (_ & -> & ?)]. intros (-> & -> & ?). by exists k.
Qed.

Lemma runs_snapshots s e i now r args :
  runs s e i (SInstallSnapshot now r args) -> exists k now' r', e = EInstall k now' r' /\ iss s !! k = Some (i, args).
Proof. destruct e; cbn; try done; [|by intros (_ & -> & ?)]. intros ?. by eexists _, _, _. Qed.

(** What the inner loop counts beyond its start is a copy of an entry of the
    log, or else the loop panics. *)
Lemma count_match_in rf N ps k count : (forall i, i ∈ ps -> 0 <= i < len (matchIndex rf)) ->
  count_match rf N ps k = Ret count -> count = k \/ lastAppliedIndex rf < N.
Proof.
  revert k. induction ps as [|i ps IH]; intros k Hps; cbn [count_match]; [intros [= ->]; by left|].
  assert (forall j, j ∈ ps -> 0 <= j < len (matchIndex rf)) as Hps' by (intros; apply Hps; set_solver).
  case_cond; [by apply IH|]. intros (m & _ & Hrun)%rbind_ret. revert Hrun. case_cond; [|by apply IH].
  intros (en & He & _)%rbind_ret. right. apply go_index_ret in He as [? _]. lia.
Qed.

(** What [findMaxN] returns beyond the commit index has a quorum of the current
    term. *)
Lemma findMaxN_quorum rf N :
  2 <= npeers rf -> len (matchIndex rf) = npeers rf ->
  findMaxN rf = Ret N -> commitIndex rf < N -> quorum rf N /\ N <= last_index rf.
Proof.
  intros Hn Hm. unfold findMaxN. fold (last_index rf).
  destruct (Z.gtb_spec (last_index rf) (commitIndex rf)) as [Hgt|Hle]; [|intros [= <-]; lia].
  assert (commitIndex rf + Z.of_nat (Z.to_nat (last_index rf - commitIndex rf)) <= last_index rf) as Hk by lia.
  revert Hk. generalize (Z.to_nat (last_index rf - commitIndex rf)). intros k; induction k as [|k IH]; intros Hk; cbn [findMaxN_loop].
  - intros [= <-]. lia.
  - intros (count & Hcount & Hrun)%rbind_ret. revert Hrun. fold (peer_ids rf) in Hcount.
    destruct (Z.gtb_spec count (Z.quot (npeers rf) 2)) as [Hq|]; [|apply IH; lia]. intros [= <-] _.
    assert (forall i, i ∈ peer_ids rf -> 0 <= i < len (matchIndex rf)) as Hids.
    { intros i (j & -> & Hj%elem_of_seq)%list_elem_of_fmap. lia. }
    assert (1 <= Z.quot (npeers rf) 2) by (rewrite Z.quot_div_nonneg by lia; apply Z.div_le_lower_bound; lia).
    destruct (count_match_in _ _ _ _ _ Hids Hcount) as [?|?]; [lia|].
    rewrite count_match_eq in Hcount by (done || lia). injection Hcount as <-. split; [|lia]. exact Hq.
Qed.

End sections.

(** ** What a round waits for *)

Section waits.
Context {Cmd : Type} `{!Gob (gval Cmd)}.
Implicit Types (rf : Raft Cmd) (s : cluster Cmd).

(** A worker that waits has waited before, or sends its request now. *)
Lemma step_waits e s s' i rd' j k :
  step e s = Some s' -> rounds (repl s') !! i = Some rd' -> rd_append_wait rd' !! j = Some k ->
  (exists rd, rounds (repl s) !! i = Some rd /\ rd_term rd' = rd_term rd /\ rd_append_wait rd !! j = Some k /\
     forall r, e <> EAppendRecv i j r) \/
  (exists rf rd args, e = EAppendSend i j /\ nodes s !! i = Some rf /\ rounds (repl s) !! i = Some rd /\ j ∈ rd_append rd /\
     appendRPCWorker_send j (rd_term rd) rf = Ret (Some args) /\ k = length (aes s) /\ aes s' = aes s ++ [(j, args)] /\
     nodes s' = nodes s /\ rd_term rd' = rd_term rd).
Proof.
  destruct e; cbn [step].
  - unfold start. step_cases. intros ? ?. left. by exists rd'.
  - unfold send. step_cases; intros ? ?; left; by exists rd'.
  - unfold vote. step_cases; intros ? ?; left; by exists rd'.
  - unfold recv. step_cases; intros ? ?; left; by exists rd'.
  - unfold finish. step_cases; intros ? ?; left; by exists rd'.
  - unfold round. step_cases. cbn. destruct (decide (i = i0)) as [->|].
    + rewrite lookup_insert_eq. intros [= <-]. cbn. by rewrite lookup_empty.
    + rewrite lookup_insert_ne by done. intros ? ?. left. by exists rd'.
  - unfold append_send. destruct (nodes s !! i0) as [rf|] eqn:Hi; [|done].
    destruct (rounds (repl s) !! i0) as [rd|] eqn:Hrd; [|done]. destruct (decide (j0 ∈ rd_append rd)) as [Hj|]; [|done].
    destruct (appendRPCWorker_send j0 (rd_term rd) rf) as [[args|]|] eqn:Hsend; [| |done]; intros [= <-]; cbn;
      (destruct (decide (i = i0)) as [->|]; [|rewrite lookup_insert_ne by done; intros ? ?; left; by exists rd']);
      rewrite lookup_insert_eq; intros [= <-]; cbn.
    + destruct (decide (j = j0)) as [->|].
      * rewrite lookup_insert_eq. intros [= <-]. right. by exists rf, rd, args.
      * rewrite lookup_insert_ne by done. intros ?. left. by exists rd.
    + intros ?. left. by exists rd.
  - unfold append. step_cases. intros ? ?. left. by exists rd'.
  - unfold append_recv. step_cases. cbn. destruct (decide (i = i0)) as [->|].
    + rewrite lookup_insert_eq. intros [= <-]. cbn. intros [Hne Hk]%lookup_delete_Some. left. eexists.
      split_and!; [done|done|done|]. by intros r' [= ->].
    + rewrite lookup_insert_ne by done. intros ? ?. left. exists rd'. split_and!; try done. by intros r' [= -> ].
  - unfold snap_send. step_cases; cbn; (destruct (decide (i = i0)) as [->|];
      [rewrite lookup_insert_eq; intros [= <-] ?; left; by eexists|rewrite lookup_insert_ne by done; intros ? ?; left; by exists rd']).
  - unfold install. step_cases; intros ? ?; left; by exists rd'.
  - unfold snap_recv. step_cases; cbn; (destruct (decide (i = i0)) as [->|];
      [rewrite lookup_insert_eq; intros [= <-] ?; left; by eexists|rewrite lookup_insert_ne by done; intros ? ?; left; by exists rd']).
  - unfold round_finish. step_cases; cbn. intros [Hne Hrd]%lookup_delete_Some ?; left; by exists rd'.
  - unfold apply_committed. step_cases; intros ? ?; left; by exists rd'.
  - unfold local. step_cases; intros ? ?; left; by exists rd'.
  - unfold crash. step_cases; cbn. intros [Hne Hrd]%lookup_delete_Some ?. left. by exists rd'.
Qed.

(** The peers that a round sends to. *)
Lemma step_appends e s s' i rd' j :
  step e s = Some s' -> rounds (repl s') !! i = Some rd' -> j ∈ rd_append rd' ->
  (exists rd, rounds (repl s) !! i = Some rd /\ j ∈ rd_append rd) \/
  (exists rf, nodes s !! i = Some rf /\ 0 <= j < npeers rf).
Proof.
  destruct e; cbn [step]; try (unfold start, send, vote, recv, finish, append, install, apply_committed, local;
    step_cases; intros ? ?; left; by exists rd').
  - unfold round. destruct (nodes s !! i0) as [rf|] eqn:Hi; [|done]. destruct (elections s !! i0) eqn:He; [done|].
    destruct (rounds (repl s) !! i0) eqn:Hr; [done|]. destruct (ticker now rf) eqn:Ht; try done.
    destruct (sendAERpcs_begin rf) as [[term rpcs]|] eqn:Hb; [|done]. intros [= <-]. cbn.
    destruct (decide (i = i0)) as [->|]; [|rewrite lookup_insert_ne by done; intros ? ?; left; by exists rd'].
    rewrite lookup_insert_eq. intros [= <-]. cbn. unfold rpc_peers.
    intros ([x b] & -> & Hin)%elem_of_list_to_set%list_elem_of_fmap. apply list_elem_of_filter in Hin as [_ Hin].
    unfold sendAERpcs_begin in Hb. apply rbind_ret in Hb as (l & Hl & [= _ ->]).
    pose proof (choose_rpcs_peers _ _ _ _ Hl Hin) as Hx. apply elem_of_other_peers in Hx as [? _]. right. by exists rf.
  - unfold append_send. step_cases; cbn; (destruct (decide (i = i0)) as [->|];
      [rewrite lookup_insert_eq; intros [= <-]; cbn; intros ?; left; eexists; split; [done|set_solver]
      |rewrite lookup_insert_ne by done; intros ? ?; left; by exists rd']).
  - unfold append_recv. step_cases; cbn; (destruct (decide (i = i0)) as [->|];
      [rewrite lookup_insert_eq; intros [= <-] ?; left; by eexists|rewrite lookup_insert_ne by done; intros ? ?; left; by exists rd']).
  - unfold snap_send. step_cases; cbn; (destruct (decide (i = i0)) as [->|];
      [rewrite lookup_insert_eq; intros [= <-] ?; left; by eexists|rewrite lookup_insert_ne by done; intros ? ?; left; by exists rd']).
  - unfold snap_recv. step_cases; cbn; (destruct (decide (i = i0)) as [->|];
      [rewrite lookup_insert_eq; intros [= <-] ?; left; by eexists|rewrite lookup_insert_ne by done; intros ? ?; left; by exists rd']).
  - unfold round_finish. step_cases; cbn. intros [Hne Hrd]%lookup_delete_Some ?; left; by exists rd'.
  - unfold crash. step_cases; cbn. intros [Hne Hrd]%lookup_delete_Some ?. left. by exists rd'.
Qed.

Lemma choose_rpcs_kind rf ps rpcs x :
  choose_rpcs rf ps = Ret rpcs -> x ∈ rpcs ->
  exists next, go_index (nextIndex rf) x.1 = Ret next /\ x.2 = (next - 1 <? lastAppliedIndex rf).
Proof.
  revert rpcs. induction ps as [|p ps IH]; intros rpcs; cbn [choose_rpcs]; [by intros [= <-] ?%elem_of_nil|].
  intros (next & Hn & Hrun)%rbind_ret. apply rbind_ret in Hrun as (rest & Hrest & [= <-]).
  intros [->|Hx]%elem_of_cons; [by exists next|by eapply IH].
Qed.

(** A round sends requests to some peers and snapshots to the others. *)
Definition apart (rd : Round) : Prop :=
  rd_append rd ∪ dom (rd_append_wait rd) ## rd_snap rd ∪ dom (rd_snap_wait rd).

Lemma rpc_peers_apart rf ps rpcs : choose_rpcs rf ps = Ret rpcs -> rpc_peers false rpcs ## rpc_peers true rpcs.
Proof.
  intros Hl j. unfold rpc_peers.
  intros ([x b] & -> & Hx)%elem_of_list_to_set%list_elem_of_fmap ([y b'] & Hxy & Hy)%elem_of_list_to_set%list_elem_of_fmap.
  apply list_elem_of_filter in Hx as [Hb Hx], Hy as [Hb' Hy]. cbn in *. subst.
  destruct (choose_rpcs_kind _ _ _ _ Hl Hx) as (nx & Hnx & Hbx), (choose_rpcs_kind _ _ _ _ Hl Hy) as (ny & Hny & Hby).
  cbn in *. congruence.
Qed.

(** A round after one of its workers went on. *)
Ltac moved Hap Hset := intros i' rd'; apply Hset; [done|];
  match goal with H : rounds _ !! _ = Some ?rd |- _ => pose proof (Hap _ _ H) as Ha end; unfold apart in *; cbn; set_solver.

Lemma step_apart e s s' :
  (forall i rd, rounds (repl s) !! i = Some rd -> apart rd) -> step e s = Some s' ->
  forall i rd, rounds (repl s') !! i = Some rd -> apart rd.
Proof.
  intros Hap. assert (forall (rds : gmap Z Round) i0 rd0 i rd, (forall i rd, rds !! i = Some rd -> apart rd) -> apart rd0 ->
    <[i0 := rd0]> rds !! i = Some rd -> apart rd) as Hset.
  { intros rds i0 rd0 i rd Hall H0 [[<- <-]|[_ ?]]%lookup_insert_Some; [done|by eapply Hall]. }
  assert (forall i0 i rd, delete i0 (rounds (repl s)) !! i = Some rd -> apart rd) as Hdel.
  { intros i0 i rd [_ ?]%lookup_delete_Some. by eapply Hap. }
  destruct e; cbn [step]; try (unfold start, send, vote, recv, finish, append, install, apply_committed, local;
    step_cases; exact Hap).
  - unfold round. step_cases. cbn. intros i' rd'. apply Hset; [done|]. unfold apart. cbn. rewrite !dom_empty_L, !union_empty_r_L.
    match goal with H : sendAERpcs_begin _ = _ |- _ => unfold sendAERpcs_begin in H; apply rbind_ret in H as (l' & Hl & [= _ ->]) end.
    by eapply rpc_peers_apart.
  - unfold append_send. step_cases; moved Hap Hset.
  - unfold append_recv. step_cases; moved Hap Hset.
  - unfold snap_send. step_cases; moved Hap Hset.
  - unfold snap_recv. step_cases; moved Hap Hset.
  - unfold round_finish. step_cases; cbn; apply Hdel.
  - unfold crash. step_cases; cbn; apply Hdel.
Qed.

End waits.

(** ** The invariants *)

Section commitment.
Context {Cmd : Type} `{!Gob (gval Cmd)}.
Implicit Types (rf : Raft Cmd) (s : cluster Cmd).
Context (n : nat) (two_peers : (2 <= n)%nat).
#[local] Abbreviation history := (gmap (Z * Z) (Entry Cmd * Z)).
Implicit Types c : history.
Implicit Types x y z w : node.

(** The leader of term [T] has sent a snapshot that covers index [N]. *)
Definition shipped s (T N : Z) : Prop := exists j args, (j, args) ∈ iss s /\ is_Term args = T /\ N <= LastIncludedIndex args.

Definition held c s (j T N : Z) : Prop := holds c s j (T, N) \/ shipped s T N.

(** What a peer has of the entries of its term, and what it acknowledged of
    those of a leader, it holds, or the leader sent a snapshot of it. *)
Record own_ok c s : Prop := {
  ow_own : forall j rf rf0 N, nodes s !! j = Some rf -> image rf rf0 -> 1 <= currentTerm rf ->
    anc c (currentTerm rf, N) (tip rf0) \/ anc c (currentTerm rf, N) (base rf0) -> held c s j (currentTerm rf) N;
  ow_given : forall k j args N, answered s k j args -> 1 <= ae_Term args -> anc c (ae_Term args, N) (end_node args) ->
    held c s j (ae_Term args) N;
  ow_shipped : forall i rf j args, nodes s !! i = Some rf -> leaderId rf = i -> (j, args) ∈ iss s ->
    is_Term args = currentTerm rf -> LastIncludedIndex args <= lastAppliedIndex rf;
}.

(** A worker waits with the [nextIndex] of its request; the peer holds what a
    leader created up to its [matchIndex], beyond the leader's snapshot. *)
Record rounds_ok c s : Prop := {
  ro_apart : forall i rd, rounds (repl s) !! i = Some rd -> apart rd;
  ro_peers : peers_ok s;
  ro_append : forall i rd j, rounds (repl s) !! i = Some rd -> j ∈ rd_append rd -> is_peer n j;
  ro_wait : forall i rd j k, rounds (repl s) !! i = Some rd -> rd_append_wait rd !! j = Some k ->
    is_peer n j /\ exists args, aes s !! k = Some (j, args) /\ ae_Term args = rd_term rd /\
      forall rf, nodes s !! i = Some rf -> rd_term rd = currentTerm rf ->
        nextIndex rf !! Z.to_nat j = Some (PrevLogIndex args + 1);
  ro_match : forall i rf j m, nodes s !! i = Some rf -> leaderId rf = i -> is_peer n j -> j <> i ->
    matchIndex rf !! Z.to_nat j = Some m ->
    m <= last_index rf /\
    forall N, is_Some (c !! (currentTerm rf, N)) -> lastAppliedIndex rf < N <= m -> holds c s j (currentTerm rf, N);
}.

(** The commit index [k] of a log that follows index [b] and ends at [x], held
    by [i] in term [T]. *)
Definition commits c s (i T b k : Z) x : Prop :=
  k <= b \/ exists y z, committed n c s y /\ z.2 = k /\ anc c z y /\ anc c z x /\ y.1 <= T /\
    (y.1 < T \/ wins s y.1 i \/ exists w, ack s i y.1 w /\ anc c z w).

(** A command that is announced at index [k]. *)
Definition announced c s (m : ApplyMsg Cmd) : Prop :=
  exists y z e p, committed n c s y /\ anc c z y /\ z.2 = CommandIndex m /\ c !! z = Some (e, p) /\ Command e = am_Command m.

Record commit_ok c s : Prop := {
  co_base : forall i rf rf0, nodes s !! i = Some rf -> image rf rf0 -> covered_by n c s (currentTerm rf) (base rf0);
  co_iss : forall j args, (j, args) ∈ iss s -> covered_by n c s (is_Term args) (snap_node args);
  co_peer : forall i rf, nodes s !! i = Some rf ->
    commits c s i (currentTerm rf) (lastAppliedIndex rf) (commitIndex rf) (tip rf);
  co_aes : forall j args, (j, args) ∈ aes s -> LeaderCommit args <= -1 \/
    exists y z, committed n c s y /\ z.2 = LeaderCommit args /\ anc c z y /\ anc c z (end_node args) /\ y.1 <= ae_Term args;
  co_sent : forall i rf m, nodes s !! i = Some rf -> m ∈ sender rf -> CommandValid m = true -> announced c s m;
  co_applied : forall i rf, nodes s !! i = Some rf -> lastApplied rf <= Z.max (commitIndex rf) (lastAppliedIndex rf);
}.

Lemma commits_index c s i T b k x : commits c s i T b k x -> k <= Z.max b x.2.
Proof. clear two_peers. intros [?|(y & z & _ & <- & _ & Hz%anc_index & _)]; lia. Qed.

(** An applied entry lies on the path to a committed one. *)
Lemma applied_announced c s i rf m : recorded (wins s) c s -> commit_ok c s -> nodes s !! i = Some rf ->
  from_log rf (commitIndex rf) m -> announced c s m.
Proof.
  intros Hrec Hco Hi (Hle & en & Hen & Hcmd). pose proof (rec_peer _ _ _ Hrec i rf Hi) as Hp.
  destruct (entry_at_node c rf _ en (pl_logged _ _ _ Hp) Hen) as [Ha [p Hc]].
  pose proof (pl_lai _ _ _ Hp). assert (lastAppliedIndex rf < CommandIndex m).
  { unfold entry_at in Hen. destruct (Z.gtb_spec (CommandIndex m) (lastAppliedIndex rf)); [lia|done]. }
  destruct (co_peer _ _ Hco i rf Hi) as [?|(y & z & Hy & Hz & Hzy & Hzx & _)]; [lia|].
  exists y, (Term en, CommandIndex m), en, p. split_and!; try done.
  eapply anc_trans; [|exact Hzy]. eapply anc_linear; [exact Ha|done|cbn; lia].
Qed.

Section preserved.
Context (c : history) (e : event (Cmd := Cmd)) (s s' : cluster Cmd).
Context (Hinv : inv n s) (Hinv' : inv n s') (Hrec : recorded (wins s) c s) (Hled : led_ok s).
Context (Hroot : rooted c s) (Hord : orderly e s = true) (Hstep : step e s = Some s').
#[local] Abbreviation c' := (grow e s c).
Context (Hrec' : recorded (wins s') c' s') (Hled' : led_ok s') (Hgrow : c ⊆ c') (Hsafe : safe n c s) (Hsafe' : safe n c' s').
Context (Hown : own_ok c s) (Hro : rounds_ok c s) (Hco : commit_ok c s).
#[local] Set Default Proof Using "All".

Lemma leads_straight i rf : nodes s !! i = Some rf -> leaderId rf = i -> straight c rf.
Proof. intros Hi. apply (leader_straight n c s i); try done. by apply (co_base _ _ Hco i rf rf Hi (or_introl eq_refl)). Qed.

Lemma sender_straight i j term rf args : appendRPCWorker_send j term rf = Ret (Some args) -> nodes s !! i = Some rf ->
  -1 <= lastAppliedIndex rf /\ straight c rf.
Proof.
  intros Hsend%appendRPCWorker_send_leads Hi. split; [exact (pl_lai _ _ _ (rec_peer _ _ _ Hrec i rf Hi))|].
  destruct (inv_node n s Hinv i rf Hi) as (Hme & _). apply (leads_straight i); [done|congruence].
Qed.

Lemma covered_iss j args : (j, args) ∈ iss s -> covered n c s (snap_node args).
Proof. intros Hin. by eapply covered_by_covered, co_iss. Qed.

Lemma covered_base i rf : nodes s !! i = Some rf -> covered n c s (base rf).
Proof. intros Hi. by eapply covered_by_covered, (co_base _ _ Hco i rf rf Hi (or_introl eq_refl)). Qed.

(** The lemmas on leaders, on the tree and on what peers hold, for this event. *)
#[local] Abbreviation here lem := (lem n c e s s' Hinv Hinv' Hrec Hled Hord Hstep) (only parsing).
#[local] Abbreviation there lem :=
  (lem n c e s s' Hinv Hinv' Hrec Hled Hroot leads_straight Hord Hstep Hrec' Hled' Hgrow) (only parsing).
#[local] Abbreviation kept lem :=
  (lem n c e s s' Hinv Hinv' Hrec Hled Hroot leads_straight Hord Hstep Hrec' Hled' Hgrow Hsafe covered_iss covered_base)
  (only parsing).

Lemma runs_snapshot i index snap :
  runs s e i (SDoSnapshot index snap) -> forall rf, nodes s !! i = Some rf -> index <= commitIndex rf \/ index <= lastAppliedIndex rf.
Proof.
  intros Hr rf Hi. assert (e = ELocal i (SDoSnapshot index snap)) as He.
  { destruct e; try done. by destruct Hr as (-> & -> & _). }
  pose proof Hord as Ho. rewrite He in Ho. cbn in Ho. rewrite Hi in Ho. apply orb_true_iff in Ho as [?|?]; zbool; auto.
Qed.

Lemma runs_apply i index rf : runs s e i (SApply index) -> nodes s !! i = Some rf -> index <= commitIndex rf.
Proof.
  intros Hr Hi. destruct e; try done; [|by destruct Hr as (_ & -> & ?)]. destruct Hr as (-> & rf0 & Hi0 & ->).
  rewrite Hi in Hi0. injection Hi0 as <-. lia.
Qed.

(** ** Rounds *)

Lemma append_step i rd j : rounds (repl s') !! i = Some rd -> j ∈ rd_append rd -> is_peer n j.
Proof.
  intros Hrd Hj. destruct (step_appends e s s' i rd j Hstep Hrd Hj) as [(rd0 & Hrd0 & Hj0)|(rf & Hi & Hr)].
  - by apply (ro_append _ _ Hro i rd0).
  - destruct (inv_node n s Hinv i rf Hi) as (_ & Hnp & _). unfold is_peer. lia.
Qed.

Lemma aes_lookup k j args : aes s !! k = Some (j, args) -> aes s' !! k = Some (j, args).
Proof. destruct (there step_aes_app) as [l ->]. apply lookup_app_l_Some. Qed.

(** While a worker waits, the [nextIndex] of its peer stays. *)
Lemma next_stays i rd j k rf rf' :
  rounds (repl s) !! i = Some rd -> rd_append_wait rd !! j = Some k -> is_peer n j -> (forall r, e <> EAppendRecv i j r) ->
  (forall now r, e <> ECrash i now r) -> change s e i rf rf' ->
  nextIndex rf' !! Z.to_nat j = nextIndex rf !! Z.to_nat j.
Proof.
  intros Hrd Hw Hj Hne Hnc Hc. destruct Hc as [|x rf' Hr Hx|now r Hcr]; [done| |by destruct (Hnc now r)].
  destruct (exec_indices x rf rf' Hx) as [[-> _]|[(now & r & v & -> & _)|[(j2 & reply & -> & Hj2 & Hkeep & _)|
    (j2 & term & args & reply & count & -> & _ & _ & next & _ & Hkeep & _)]]].
  - done.
  - exfalso. destruct (runs_finish _ _ _ _ _ _ Hr) as (_ & el & Hel & _).
    destruct (lo_round s Hled i rd Hrd) as [Hno _]. congruence.
  - apply Hkeep. unfold is_peer in Hj. enough (j <> j2) by lia. intros <-.
    destruct e; try done; [|by destruct Hr as (_ & -> & ?)].
    destruct Hr as (_ & <- & rd2 & k2 & Hrd2 & Hw2 & _). rewrite Hrd in Hrd2. injection Hrd2 as <-.
    apply (ro_apart _ _ Hro i rd Hrd j); apply elem_of_union; right; apply elem_of_dom; by eexists.
  - apply Hkeep. intros Heq.
    assert (j2 = j /\ exists r, e = EAppendRecv i j2 r) as [-> [r He]]; [|by apply (Hne r)].
    destruct e; try done; [|by destruct Hr as (_ & -> & ?)].
    destruct Hr as (-> & -> & rd2 & k2 & l & Hrd2 & Hw2 & _). rewrite Hrd in Hrd2. injection Hrd2 as <-.
    split; [|by eexists]. destruct (ro_wait _ _ Hro i rd j0 k2 Hrd Hw2) as [Hj2 _]. unfold is_peer in *. lia.
Qed.

Lemma wait_step i rd j k : rounds (repl s') !! i = Some rd -> rd_append_wait rd !! j = Some k ->
  is_peer n j /\ exists args, aes s' !! k = Some (j, args) /\ ae_Term args = rd_term rd /\
    forall rf, nodes s' !! i = Some rf -> rd_term rd = currentTerm rf -> nextIndex rf !! Z.to_nat j = Some (PrevLogIndex args + 1).
Proof.
  intros Hrd Hw. destruct (step_waits e s s' i rd j k Hstep Hrd Hw)
    as [(rd0 & Hrd0 & Ht & Hw0 & Hne)|(rf & rd0 & args & He & Hi & Hrd0 & Hj & Hsend & -> & Haes & Hn & Ht)].
  - destruct (ro_wait _ _ Hro i rd0 j k Hrd0 Hw0) as (Hj & args & Hk & Ha & Hnext). split; [done|].
    exists args. split_and!; [by apply aes_lookup|congruence|]. intros rf' Hi' Hterm.
    destruct (step_peer_inv e s s' i rf' Hstep Hi') as (rf & Hi & Hc).
    destruct (change_term n s e i rf rf' Hinv Hi Hc) as [Hle _].
    destruct (lo_round s Hled i rd0 Hrd0) as (_ & rf0 & Hi0 & Hle0 & _). rewrite Hi in Hi0. injection Hi0 as <-.
    rewrite (next_stays i rd0 j k rf rf'); try done; [apply Hnext; [done|lia]|].
    destruct (step_rounds e s s' i rd Hstep Hrd) as [(_ & _ & _ & _ & ?)|(now & _ & He & _)]; [done|by rewrite He].
  - destruct (sender_straight i j _ rf args Hsend Hi) as [Hlai Hl].
    destruct (appendRPCWorker_send_tip c j _ rf args Hsend Hlai Hl) as (_ & _ & _ & Hnext & Hcur).
    destruct (appendRPCWorker_send_chain c j _ rf args Hsend Hlai Hl) as (_ & Ha & _ & _).
    split; [by apply (ro_append _ _ Hro i rd0)|]. exists args. rewrite Haes, Hn, Ht. split_and!.
    + by rewrite lookup_app_r, Nat.sub_diag by done.
    + congruence.
    + intros rf' Hi' _. rewrite Hi in Hi'. by injection Hi' as <-.
Qed.

(** The snapshot of a peer grows by what is committed, or by what a leader sends. *)
Lemma exec_base_cases i u rf rf' : nodes s !! i = Some rf -> runs s e i u -> exec u rf = Ret rf' ->
  base rf' = base rf \/
  (lastAppliedIndex rf < lastAppliedIndex rf' <= commitIndex rf /\ anc c (base rf') (tip rf)) \/
  (exists args, (i, args) ∈ iss s /\ base rf' = snap_node args /\ is_Term args = currentTerm rf').
Proof.
  intros Hi Hr Hx. destruct (there exec_base i u rf rf' Hi Hr Hx) as [?|[(Hlt & _ & Ha)|(args & ? & ? & ? & _)]];
    [by left| |right; right; by exists args].
  destruct (exec_commit u rf rf' Hx) as [(_ & ? & _)|[(now & r & args & ->)|[(now & r & args & ->)|[(count & N & -> & _ & _ & _ & ->)|
    [(index & snap & ->)|(index & ->)]]]]]; [lia| | |cbn in Hlt; lia| |].
  - destruct (runs_snapshots s e i now r args Hr) as (k & now' & r' & He & Hk).
    destruct (install_effect _ _ _ _ _ Hx) as [[_ ->]|Hin]; [by left|]. destruct (in_term _ _ _ Hin) as [_ Ht].
    assert ((i, args) ∈ iss s) by by eapply list_elem_of_lookup_2.
    destruct (installed_tip args rf rf' Hin) as [(_ & Hb & _)|[_ [Hb|[Hb _]]]]; [right; right|by left|right; right]; by exists args.
  - destruct (runs_append s e i now r args Hr) as (k & _ & Hk). left.
    destruct (there append_on_tree _ _ _ _ _ _ _ Hi Hk Hx) as (reply & _ & Hap & _). by apply (ap_base _ _ _ _ _ Hap).
  - right. left. split; [|done]. pose proof (runs_snapshot i index snap Hr rf Hi).
    destruct (doSnapshot_state _ _ _ _ Hx) as (_ & _ & _ & _ & _ & [?|?]); lia.
  - left. by destruct (apply_state _ _ _ Hx) as (_ & _ & _ & Hb & _).
Qed.

Lemma exec_lai i u rf rf' : nodes s !! i = Some rf -> runs s e i u -> exec u rf = Ret rf' -> lastAppliedIndex rf <= lastAppliedIndex rf'.
Proof.
  intros Hi Hr Hx. destruct (there exec_base i u rf rf' Hi Hr Hx) as [Hb|[?|(? & _ & _ & _ & ?)]]; [|lia|done].
  unfold base in Hb. injection Hb. lia.
Qed.

(** A peer that leads after the event was not restarted. *)
Lemma leader_not_crashed i rf now r : nodes s !! i = Some rf -> leaderId (Make (npeers rf) (me rf) (Copy (persister rf)) now r) <> i.
Proof.
  intros Hi. destruct (inv_node n s Hinv i rf Hi) as (_ & _ & [Hpos _] & Hsync).
  destruct (vote_sync_Make (npeers rf) (me rf) now r rf Hsync) as (_ & _ & _ & Hm' & _). lia.
Qed.

Lemma leader_lai i rf rf' : nodes s !! i = Some rf -> leaderId rf' = i -> change s e i rf rf' ->
  lastAppliedIndex rf <= lastAppliedIndex rf'.
Proof.
  intros Hi Hl Hc. destruct Hc as [|u rf' Hr Hx|now r _]; [done|by eapply exec_lai|by destruct (leader_not_crashed i rf now r Hi)].
Qed.

(** A leader's own term after an event of its own that it survives as leader. *)
Lemma led_last i rf rf' : nodes s !! i = Some rf -> leaderId rf = i ->
  (tip rf' = tip rf \/ exists cmd, e = ELocal i (SStart cmd) /\ rf' = (Start cmd rf).1) ->
  last_index rf <= last_index rf' /\
  forall k, is_Some (c' !! (currentTerm rf, k)) -> is_Some (c !! (currentTerm rf, k)) \/ k = last_index rf + 1.
Proof.
  intros Hi Hl Htip.
  assert (forall k, is_Some (c' !! (currentTerm rf, k)) -> is_Some (c !! (currentTerm rf, k)) \/ k = last_index rf + 1) as Hnew.
  { intros k Hk. destruct (there grow_lookup _ Hk) as [?|(i2 & cmd & rf2 & He & Hi2 & Hl2 & Hnode & _)]; [by left|right].
    unfold start_node in Hnode. injection Hnode as Hcur ->. assert (i2 = i) as ->.
    { apply (wins_unique n s (currentTerm rf)); [done| |by apply lo_leader]. rewrite Hcur. by apply lo_leader. }
    rewrite Hi in Hi2. by injection Hi2 as <-. }
  split.
  - destruct Htip as [Ht|(cmd & He & ->)].
    + unfold tip in Ht. injection Ht as _ ->. lia.
    + unfold Start, last_index. case_cond; cbn; [|lia]. rewrite len_app. pose proof (len_nonneg [mkLogEntry cmd (currentTerm rf)]). lia.
  - done.
Qed.

(** What a leader's [matchIndex] holds after the event was there before, or is
    the end of the request that is acknowledged, or of the snapshot. *)
Lemma match_cases i rf rf' j m :
  nodes s !! i = Some rf -> leaderId rf' = i -> currentTerm rf' = currentTerm rf -> change s e i rf rf' ->
  elections s !! i = None \/ (forall now r, e <> EFinish i now r) -> is_peer n j ->
  matchIndex rf' !! Z.to_nat j = Some m ->
  matchIndex rf !! Z.to_nat j = Some m \/ m = lastAppliedIndex rf \/
  exists k args, answered s k j args /\ ae_Term args = currentTerm rf /\ (end_node args).2 = m.
Proof.
  intros Hi Hl Hterm Hc Hnf Hj Hm. destruct Hc as [|x rf' Hr Hx|now r _]; [by left| |by destruct (leader_not_crashed i rf now r Hi)].
  destruct (exec_indices x rf rf' Hx) as [[_ Heq]|[(now & r & v & -> & _)|[(j2 & reply & -> & Hj2 & _ & Heq)|
    (j2 & term & args & reply & count & -> & Hcur & _ & next & Hnext & _ & [Heq|(Hs & Hj2 & Heq)])]]].
  - left. by rewrite <- Heq.
  - exfalso. destruct (runs_finish _ _ _ _ _ _ Hr) as ((now' & r' & He) & el & Hel & _).
    destruct Hnf as [Hno|Hno]; [congruence|by apply (Hno now' r')].
  - rewrite Heq in Hm. apply list_lookup_insert_Some in Hm as [(_ & <- & _)|[_ ?]]; [right; by left|by left].
  - left. by rewrite <- Heq.
  - rewrite Heq in Hm. destruct (decide (j2 = j)) as [->|Hne].
    2: { left. unfold is_peer in Hj. by rewrite list_lookup_insert_ne in Hm by lia. }
    apply list_lookup_insert_Some in Hm as [(_ & <- & _)|[? _]]; [right; right|done].
    destruct e; try done; [|by destruct Hr as (_ & -> & ?)].
    destruct Hr as (-> & -> & rd & k & l & Hrd & Hw & Hk & Ha & -> & ->).
    destruct (ro_wait _ _ Hro i rd j0 k Hrd Hw) as (_ & args' & Hk' & Hat & Hnx). rewrite Hk in Hk'. injection Hk' as -> <-.
    specialize (Hnx rf Hi ltac:(congruence)). rewrite Hnext in Hnx. injection Hnx as ->.
    exists k, args. split_and!; [|congruence|unfold end_node; cbn; lia].
    unfold answer in Ha. destruct r as [r|]; [|done]. destruct (aers (repl s) !! r) as [[k' reply']|] eqn:Hr; [|done].
    destruct (decide (k' = k)) as [->|]; [|done]. injection Ha as ->.
    exists reply. split_and!; try done. by eapply list_elem_of_lookup_2.
Qed.

(** What a leader's follower acknowledged it holds, beyond the leader's snapshot. *)
Lemma given_holds i rf k j args N : nodes s !! i = Some rf -> leaderId rf = i -> answered s k j args ->
  ae_Term args = currentTerm rf -> is_Some (c !! (currentTerm rf, N)) -> lastAppliedIndex rf < N <= (end_node args).2 ->
  holds c s j (currentTerm rf, N).
Proof.
  intros Hi Hl Hans Ht HN Hle. assert ((j, args) ∈ aes s) as Hin.
  { destruct Hans as (_ & _ & _ & Hk). by eapply list_elem_of_lookup_2. }
  destruct (inv_node n s Hinv i rf Hi) as (Hme & _).
  pose proof (pl_leader _ _ _ (rec_peer _ _ _ Hrec i rf Hi) ltac:(congruence)) as H1.
  destruct (ow_given _ _ Hown k j args N Hans) as [Hh|(j' & args' & Hin' & Ht' & Hle')]; [lia| |by rewrite <- Ht|].
  - eapply anc_linear; [|by apply (sf_sent _ _ _ Hsafe j args i rf)|exact (proj2 Hle)].
    rewrite Ht. by apply (rt_lead _ _ Hroot i).
  - pose proof (ow_shipped _ _ Hown i rf j' args' Hi Hl Hin' ltac:(congruence)). lia.
Qed.

Lemma match_step i rf' j m : nodes s' !! i = Some rf' -> leaderId rf' = i -> is_peer n j -> j <> i ->
  matchIndex rf' !! Z.to_nat j = Some m ->
  m <= last_index rf' /\
  forall N, is_Some (c' !! (currentTerm rf', N)) -> lastAppliedIndex rf' < N <= m -> holds c' s' j (currentTerm rf', N).
Proof.
  intros Hi' Hl' Hj Hji Hm. destruct (step_peer_inv e s s' i rf' Hstep Hi') as (rf & Hi & Hc).
  destruct (here lead_cases i rf' Hi' Hl') as (rf0 & Hi0 & Ht & Hcase). rewrite Hi in Hi0. injection Hi0 as <-.
  destruct Hcase as [[Hl Htip]|(now & r & el & He & Hel & Hterm & Hmaj & Htip)]; rewrite Ht.
  - destruct (led_last i rf rf' Hi Hl Htip) as [Hlast Hnew]. pose proof (leader_lai i rf rf' Hi Hl' Hc) as Hlai.
    assert (m <= last_index rf -> (forall N, is_Some (c !! (currentTerm rf, N)) -> lastAppliedIndex rf < N <= m ->
      holds c s j (currentTerm rf, N)) -> m <= last_index rf' /\ forall N, is_Some (c' !! (currentTerm rf, N)) ->
      lastAppliedIndex rf' < N <= m -> holds c' s' j (currentTerm rf, N)) as Hgoal.
    { intros Hle Hh. split; [lia|]. intros N HN HNm. apply (there holds_mono), Hh; [|lia]. destruct (Hnew N HN); [done|lia]. }
    assert (elections s !! i = None \/ (forall now r, e <> EFinish i now r)) as Hno.
    { left. destruct (elections s !! i) as [el|] eqn:Hel; [|done].
      by destruct (here election_not_leader i rf el Hi Hel). }
    destruct (match_cases i rf rf' j m Hi Hl' Ht Hc Hno Hj Hm) as [Hold|[->|(k & args & Hans & Ha & Hend)]].
    + destruct (ro_match _ _ Hro i rf j m Hi Hl Hj Hji Hold) as [Hle Hh]. by apply Hgoal.
    + apply Hgoal; [unfold last_index; pose proof (len_nonneg (Log rf)); lia|lia].
    + apply Hgoal; [|intros N HN HNm; apply (given_holds i rf k j args N); [done..|lia]].
      destruct Hans as (_ & _ & _ & Hk). assert ((j, args) ∈ aes s) as Hin by by eapply list_elem_of_lookup_2.
      pose proof (anc_index _ _ _ (sf_sent _ _ _ Hsafe j args i rf Hin Hi Hl Ha)) as Hle. rewrite Hend in Hle.
      unfold tip in Hle. cbn in Hle. lia.
  - assert (m = last_index rf /\ last_index rf' = last_index rf) as [-> Hlast].
    { pose proof Hstep as Hs. rewrite He in Hs. cbn [step] in Hs. unfold finish in Hs. rewrite Hi, Hel in Hs.
      destruct (all_finished rf (finished el)); [|done]. injection Hs as <-. cbn in Hi'. rewrite lookup_insert_eq in Hi'.
      injection Hi' as <-. unfold startElection_finish in *.
      destruct (Z.gtb_spec (voteCount el) (Z.quot (npeers rf) 2)); [|lia]. cbn in Hm. split; [|done].
      unfold go_make in Hm. apply lookup_replicate in Hm as [Hm _]. unfold last_index. lia. }
    split; [lia|]. intros N HN. exfalso.
    destruct (here finish_wins i now r rf el) as [Hw _]; [done..|].
    apply (kept new_win_empty (currentTerm rf) i N); [done| |done]. rewrite <- Hterm.
    by apply (kept finish_no_leader i rf now r el).
Qed.

Lemma rounds_step : rounds_ok c' s'.
Proof.
  split; [| |apply append_step|apply wait_step|apply match_step].
  - intros i rd. eapply step_apart; [|done]. apply Hro.
  - eapply step_peers_ok; [apply Hro|done].
Qed.

(** ** What peers have of the entries of their term *)

Lemma iss_mono m : m ∈ iss s -> m ∈ iss s'.
Proof.
  intros Hm. destruct (step_iss e s s' Hstep) as [->|(?&?&?&?&?&_&_&_&_&_& ->)]; [done|]. apply elem_of_app. by left.
Qed.

Lemma held_mono j T N : held c s j T N -> held c' s' j T N.
Proof.
  intros [Hh|(j' & args & Hin & Ht & Hle)]; [left; by apply (there holds_mono)|right].
  exists j', args. split_and!; [by apply iss_mono|done..].
Qed.

(** What a peer had of a term before the event it holds after it. *)
Lemma own_old j rf rf0 T N z : nodes s !! j = Some rf -> image rf rf0 -> z = tip rf0 \/ z = base rf0 -> 1 <= T ->
  currentTerm rf <= T -> anc c' (T, N) z -> held c' s' j T N.
Proof.
  intros Hi Him Hz HT Hle Ha. destruct (rt_peer _ _ Hroot j rf rf0 Hi Him) as (Hb & Htip & Hb1 & Ht1).
  assert (in_tree c z /\ z.1 <= currentTerm rf) as [Hin Hz1] by by destruct Hz as [->| ->].
  assert (anc c (T, N) z) as Hold by by apply (there anc_old).
  pose proof (anc_term _ _ _ (rt_closed _ _ Hroot) Hin Hold) as Hterm. cbn in Hterm.
  assert (T = currentTerm rf) as -> by lia.
  apply held_mono, (ow_own _ _ Hown j rf rf0); [done..|]. destruct Hz as [->| ->]; auto.
Qed.

Lemma own_snapshot j args N : (j, args) ∈ iss s -> anc c' (is_Term args, N) (snap_node args) -> shipped s' (is_Term args) N.
Proof. intros Hin Ha%anc_index. exists j, args. split_and!; [by apply iss_mono|done|exact Ha]. Qed.

Lemma new_answered k now r j args rf rf' reply :
  e = EAppend k now r -> aes s !! k = Some (j, args) -> nodes s !! j = Some rf ->
  AppendEntries now r args rf = Ret (rf', reply) -> Success reply = true -> answered s' k j args.
Proof.
  intros He Hk Hj Hrun Hs. exists reply. split_and!; [|done|by apply aes_lookup].
  pose proof Hstep as Ht. rewrite He in Ht. cbn [step] in Ht. unfold append in Ht. rewrite Hk, Hj, Hrun in Ht.
  injection Ht as <-. cbn. apply elem_of_app. right. by left.
Qed.

Lemma exec_own_base j u rf rf' N : nodes s !! j = Some rf -> runs s e j u -> exec u rf = Ret rf' -> currentTerm rf <= currentTerm rf' ->
  1 <= currentTerm rf' -> anc c' (currentTerm rf', N) (base rf') -> held c' s' j (currentTerm rf') N.
Proof.
  intros Hj Hr Hx Ht H1 Ha. destruct (exec_base_cases j u rf rf' Hj Hr Hx) as [Hb|[[_ Hb]|(args & Hin & Hb & Hta)]].
  - apply (own_old j rf rf _ N (base rf)); [done|by left|by right|done..|by rewrite <- Hb].
  - apply (own_old j rf rf _ N (tip rf)); [done|by left|by left|done..|]. eapply anc_trans; [exact Ha|by eapply anc_mono].
  - right. rewrite Hb, <- Hta in *. by eapply own_snapshot.
Qed.

Lemma exec_own_tip j u rf rf' N : nodes s !! j = Some rf -> runs s e j u -> exec u rf = Ret rf' -> currentTerm rf <= currentTerm rf' ->
  1 <= currentTerm rf' -> anc c' (currentTerm rf', N) (tip rf') -> held c' s' j (currentTerm rf') N.
Proof.
  intros Hj Hr Hx Ht H1 Ha.
  assert (forall z, z = tip rf \/ z = base rf -> anc c' (currentTerm rf', N) z -> held c' s' j (currentTerm rf') N) as Hold.
  { intros z Hz. apply (own_old j rf rf); [done|by left|done..]. }
  destruct (exec_tip s e j u rf rf' Hr Hx) as [Htr%trims_tip|[(k & now & r & args & He & Hk & Hxa)|
    [(cmd & He & Hl & Heq)|(k & now & r & args & _ & Hk & Hin)]]].
  - apply (Hold (tip rf)); [by left|by rewrite <- Htr].
  - destruct (there append_on_tree _ _ _ _ _ _ _ Hj Hk Hxa) as (reply & Hrun & Hap & _).
    destruct (ap_tip _ _ _ _ _ Hap) as [Hanc|[Hb|(_ & Hend & Hne & Hok)]].
    + apply (Hold (tip rf)); [by left|]. eapply anc_trans; [exact Ha|by eapply anc_mono].
    + apply (Hold (base rf)); [by right|by rewrite <- Hb].
    + left. right. exists (end_node args). rewrite <- Hend. split; [|done]. exists k, args.
      split_and!; [by eapply new_answered|done|by destruct (ap_ok _ _ _ _ _ Hap Hok) as (_ & <- & _)|done].
  - destruct (there start_tip j cmd rf He Hj Hl) as (Hc2 & Htip & Hstart). destruct (inv_node n s Hinv j rf Hj) as (Hme & _).
    assert (currentTerm rf' = currentTerm rf) as Hterm by by (rewrite Heq; unfold Start; case_cond).
    left. left. cbn. split.
    + rewrite Hterm. apply (wins_mono e s); [done|]. apply lo_leader; [done|done|congruence].
    + assert (in_tree c' (tip rf')) as Hin by (rewrite Heq, Htip; right; rewrite Hc2, lookup_insert_eq; by eexists).
      destruct (anc_in_tree c' _ _ (there closed_step) Hin Ha) as [[= ? ?]|?]; [lia|done].
  - destruct (in_term _ _ _ Hin) as [_ Hta]. assert ((j, args) ∈ iss s) by by eapply list_elem_of_lookup_2.
    destruct (installed_tip args rf rf' Hin) as [(Hb & _)|[Hb _]].
    + right. rewrite Hb, Hta in *. by eapply own_snapshot.
    + apply (Hold (tip rf)); [by left|by rewrite <- Hb].
Qed.

Lemma own_step j rf' rf0' N : nodes s' !! j = Some rf' -> image rf' rf0' -> 1 <= currentTerm rf' ->
  anc c' (currentTerm rf', N) (tip rf0') \/ anc c' (currentTerm rf', N) (base rf0') -> held c' s' j (currentTerm rf') N.
Proof.
  intros Hj' Him H1 Ha. destruct (step_peer_inv e s s' j rf' Hstep Hj') as (rf & Hj & Hc).
  destruct (change_term n s e j rf rf' Hinv Hj Hc) as [Ht _].
  destruct (image_step s e j rf rf' rf0' Hc Him) as [(rf0 & H0 & Hs)|(u & Hr & Hx & Hs)];
    rewrite (same_log_tip _ _ Hs), (same_log_base _ _ Hs) in Ha.
  - destruct Ha; (eapply own_old; [done|done| |done..]); auto.
  - destruct Ha; [by eapply exec_own_tip|by eapply exec_own_base].
Qed.

Lemma given_step k j args N : answered s' k j args -> 1 <= ae_Term args -> anc c' (ae_Term args, N) (end_node args) ->
  held c' s' j (ae_Term args) N.
Proof.
  intros Hans H1 Ha. destruct (kept answered_cases k j args Hans) as [Hold|(now & r & rf & rf' & reply & He & Hk & Hj & Hn & Hrun & Hs)].
  - apply held_mono, (ow_given _ _ Hown k j args); [done..|]. apply (there anc_old); [|done].
    destruct Hold as (_ & _ & _ & Hk). by apply (there end_in_tree k j).
  - destruct (decide (Entries args = [])) as [Hnil|Hne].
    2: { left. right. exists (end_node args). split; [by exists k, args|done]. }
    assert (append_effect c args rf rf' (Success reply)) as Hap.
    { eapply AppendEntries_tip; [done|by eapply pl_logged, rec_peer|]. apply (rec_aes _ _ _ Hrec j args). by eapply list_elem_of_lookup_2. }
    destruct (ap_ok _ _ _ _ _ Hap Hs) as (Hle & _ & Hend).
    assert (exists z, (z = tip rf \/ z = base rf) /\ anc c (end_node args) z) as (z & Hz & Hez).
    { destruct Hend as [Hend|[_ ->]]; [|exists (base rf); split; [by right|constructor]].
      destruct (ap_tip _ _ _ _ _ Hap) as [Hanc|[Hb|(_ & _ & ? & _)]]; [|exists (base rf); split; [by right|by rewrite <- Hb]|done].
      exists (tip rf). split; [by left|by eapply anc_trans]. }
    apply (own_old j rf rf _ N z); [done|by left|done..|]. eapply anc_trans; [exact Ha|by eapply anc_mono].
Qed.

Lemma shipped_step i rf' j args : nodes s' !! i = Some rf' -> leaderId rf' = i -> (j, args) ∈ iss s' ->
  is_Term args = currentTerm rf' -> LastIncludedIndex args <= lastAppliedIndex rf'.
Proof.
  intros Hi' Hl' Hin Hta. destruct (step_peer_inv e s s' i rf' Hstep Hi') as (rf & Hi & Hc).
  destruct (here lead_cases i rf' Hi' Hl') as (rf0 & Hi0 & Ht & Hcase). rewrite Hi in Hi0. injection Hi0 as <-.
  rewrite Ht in Hta. pose proof (step_iss e s s' Hstep) as Hiss.
  destruct Hcase as [[Hl _]|(now & r & el & He & Hel & Hterm & Hmaj & _)].
  - pose proof (leader_lai i rf rf' Hi Hl' Hc) as Hlai.
    assert ((j, args) ∈ iss s -> LastIncludedIndex args <= lastAppliedIndex rf') as Hold.
    { intros Hin0. pose proof (ow_shipped _ _ Hown i rf j args Hi Hl Hin0 Hta). lia. }
    destruct Hiss as [Heq|(i2 & j2 & rf2 & rd & args2 & _ & Hi2 & _ & Hsend & Hn & Heq)]; rewrite Heq in Hin; [by apply Hold|].
    apply elem_of_app in Hin as [?|Hin]; [by apply Hold|]. apply list_elem_of_singleton in Hin. injection Hin as -> ->.
    destruct (snapshot_sent _ _ _ Hsend) as (Hl2 & Ht2 & _ & Hb). destruct (inv_node n s Hinv i2 rf2 Hi2) as (Hme & _).
    assert (i2 = i) as ->.
    { apply (wins_unique n s (currentTerm rf)); [done| |by apply lo_leader]. rewrite <- Hta, Ht2. apply lo_leader; [done|done|congruence]. }
    rewrite Hi in Hi2. injection Hi2 as <-. unfold snap_node, base in Hb. injection Hb as _ ->. done.
  - exfalso. destruct Hiss as [Heq|(i2 & j2 & rf2 & rd & args2 & He2 & _)]; [|by rewrite He in He2]. rewrite Heq in Hin.
    apply (kept finish_no_leader i rf now r el He Hi Hel Hmaj (is_LeaderId args)). rewrite Hterm, <- Hta. by apply (lo_iss s Hled j).
Qed.

Lemma own_ok_step : own_ok c' s'.
Proof. split; [apply own_step|apply given_step|apply shipped_step]. Qed.

(** ** Commit indices *)

Lemma committed_tree y : committed n c s y -> in_tree c y.
Proof. apply tree_of_committed. by split. Qed.

Lemma commits_mono i T T' b b' k x : T <= T' -> b <= b' -> commits c s i T b k x -> commits c' s' i T' b' k x.
Proof.
  intros HT Hb [?|(y & z & Hy & Hz & Hzy & Hzx & HyT & Hw)]; [left; lia|right]. exists y, z.
  split_and!; [by apply (kept committed_mono)|done|by eapply anc_mono..|lia|].
  destruct Hw as [?|[?|(w & Hw & Hzw)]]; [left; lia|right; left; by apply (wins_mono e s)|].
  right. right. exists w. split; [by apply (there ack_mono)|by eapply anc_mono].
Qed.

Lemma covered_mono T T' z : T <= T' -> covered_by n c s T z -> covered_by n c' s' T' z.
Proof.
  intros HT [->|(y & Hy & Hz & ?)]; [by left|right]. exists y.
  split_and!; [by apply (kept committed_mono)|by eapply anc_mono|lia].
Qed.

Lemma new_ack k now r j args rf rf' reply :
  e = EAppend k now r -> aes s !! k = Some (j, args) -> nodes s !! j = Some rf ->
  AppendEntries now r args rf = Ret (rf', reply) -> Success reply = true -> ack s' j (ae_Term args) (end_node args).
Proof. intros He Hk Hj Hrun Hs. exists k, args. split_and!; [by eapply new_answered|done..]. Qed.

(** What a follower has committed stays in its log. *)
Lemma append_kept k now r i args rf rf' :
  e = EAppend k now r -> aes s !! k = Some (i, args) -> nodes s !! i = Some rf ->
  exec (SAppendEntries now r args) rf = Ret rf' -> currentTerm rf <= currentTerm rf' ->
  commits c' s' i (currentTerm rf') (lastAppliedIndex rf') (commitIndex rf) (tip rf').
Proof.
  intros He Hk Hi Hx Hmono. assert ((i, args) ∈ aes s) as Hin by by eapply list_elem_of_lookup_2.
  destruct (there append_on_tree _ _ _ _ _ _ _ Hi Hk Hx) as (reply & Hrun & [Hbase _ Hkeeps _ _ _ _] & Hcase).
  pose proof (co_peer _ _ Hco i rf Hi) as Hold. unfold base in Hbase. injection Hbase as _ Hl'. rewrite Hl'.
  destruct Hcase as [->|[Hle Hcur]]; [by apply (commits_mono i (currentTerm rf) _ (lastAppliedIndex rf))|].
  destruct Hold as [?|(y & z & Hy & Hz & Hzy & Hzx & HyT & Hw)]; [by left|].
  enough (anc c z (end_node args)) as Hze.
  { apply (commits_mono i (currentTerm rf) _ (lastAppliedIndex rf)); [done..|].
    destruct (Hkeeps z Hzx Hze) as [?|[_ ?]]; [right; by exists y, z|left; lia]. }
  destruct (decide (y.1 < ae_Term args)) as [Hlt|Hge].
  - eapply anc_trans; [exact Hzy|]. apply (sf_aes _ _ _ Hsafe i); [done| |by apply committed_not_blocked].
    split; [|done]. apply (in_tree_term c); [apply Hroot|by apply committed_tree].
  - destruct Hw as [?|[Hw|(w & (k0 & args0 & (reply0 & Hin0 & _ & Hk0) & HT & ->) & Hzw)]]; [lia| |].
    + exfalso. destruct (here append_not_self i args Hin) as [Hl Hne]. apply Hne.
      apply (wins_unique n s (ae_Term args)); [done|done|]. by replace (ae_Term args) with y.1 by lia.
    + eapply anc_trans; [exact Hzw|]. apply (sf_order _ _ _ Hsafe k0 k i i); [|done..|lia].
      pose proof Hord as Ho. rewrite He in Ho. eapply in_order_spec; [exact Ho|done..|lia].
Qed.

(** A follower's commit index after a request. *)
Lemma append_commits k now r i args rf rf' :
  e = EAppend k now r -> aes s !! k = Some (i, args) -> nodes s !! i = Some rf ->
  exec (SAppendEntries now r args) rf = Ret rf' -> currentTerm rf <= currentTerm rf' ->
  commits c' s' i (currentTerm rf') (lastAppliedIndex rf') (commitIndex rf') (tip rf').
Proof.
  intros He Hk Hi Hx Hmono. assert ((i, args) ∈ aes s) as Hin by by eapply list_elem_of_lookup_2.
  destruct (there append_on_tree _ _ _ _ _ _ _ Hi Hk Hx) as (reply & Hrun & [Hbase _ _ _ Hok _ Hcommit] & _).
  pose proof (pl_lai _ _ _ (rec_peer _ _ _ Hrec i rf Hi)) as Hlow. unfold base in Hbase. injection Hbase as _ Hl'.
  destruct Hcommit as [->|(Hs & Hgt & Hci)]; [by eapply append_kept|].
  rewrite Hl'. destruct (Hok Hs) as (Hle & Hcur & Hend).
  destruct (co_aes _ _ Hco i args Hin) as [?|(y & z & Hy & Hz & Hzy & Hze & HyT)]; [left; lia|].
  destruct Hend as [Hend|[_ Hend]].
  2: { left. rewrite Hend in Hze. apply anc_index in Hze. cbn in Hze. lia. }
  assert (anc c z (tip rf')) as Hzt by by eapply anc_trans.
  pose proof (anc_index _ _ _ Hzt) as Hidx. unfold tip in Hidx. cbn in Hidx.
  assert (commitIndex rf' = LeaderCommit args) as -> by lia. right. exists y, z.
  split_and!; [by apply (kept committed_mono)|done|by eapply anc_mono..|lia|].
  destruct (decide (y.1 < currentTerm rf')); [by left|]. right. right. exists (end_node args).
  split; [|by eapply anc_mono]. replace y.1 with (ae_Term args) by lia. by eapply new_ack.
Qed.

(** The commit index does not fall behind what was applied. *)
Lemma exec_applied_ok i u rf rf' : nodes s !! i = Some rf -> runs s e i u -> exec u rf = Ret rf' -> currentTerm rf <= currentTerm rf' ->
  lastApplied rf' <= Z.max (commitIndex rf') (lastAppliedIndex rf').
Proof.
  intros Hi Hr Hx Ht. pose proof (co_applied _ _ Hco i rf Hi) as Hold. pose proof (exec_lai i u rf rf' Hi Hr Hx) as Hlai.
  assert (commitIndex rf <= Z.max (commitIndex rf') (lastAppliedIndex rf')) as Hci.
  { destruct (exec_commit u rf rf' Hx) as [(-> & _)|[(now & r & args & ->)|[(now & r & args & ->)|[(count & N & -> & _ & _ & ? & ->)|
      [(index & snap & ->)|(index & ->)]]]]]; [lia| | |cbn; lia| |].
    - destruct (install_effect _ _ _ _ _ Hx) as [[_ ->]|Hin]; [cbn; lia|]. destruct (in_rest _ _ _ Hin) as [-> _]. lia.
    - destruct (runs_append s e i now r args Hr) as (k & He & Hk).
      pose proof (commits_index _ _ _ _ _ _ _ (append_kept k now r i args rf rf' He Hk Hi Hx Ht)) as Hle. cbn in Hle.
      destruct (there append_on_tree _ _ _ _ _ _ _ Hi Hk Hx) as (reply & _ & [_ _ _ _ _ _ [->|(_ & ? & ->)]] & _); lia.
    - destruct (doSnapshot_state index snap rf rf' Hx) as (_ & _ & -> & _). lia.
    - destruct (apply_state index rf rf' Hx) as (_ & _ & -> & _). lia. }
  destruct (exec_applied u rf rf' Hx) as [->|[->|(index & -> & Hle)]]; [lia|lia|].
  enough (index <= commitIndex rf) by lia. by eapply runs_apply.
Qed.

Lemma applied_step i rf' : nodes s' !! i = Some rf' -> lastApplied rf' <= Z.max (commitIndex rf') (lastAppliedIndex rf').
Proof.
  intros Hi'. destruct (step_peer_inv e s s' i rf' Hstep Hi') as (rf & Hi & Hc).
  destruct (change_term n s e i rf rf' Hinv Hi Hc) as [Ht _]. destruct Hc as [|u rf' Hr Hx|now r _].
  - by apply (co_applied _ _ Hco i).
  - by eapply exec_applied_ok.
  - change (lastApplied (Make (npeers rf) (me rf) (Copy (persister rf)) now r)) with
      (lastAppliedIndex (Make (npeers rf) (me rf) (Copy (persister rf)) now r)). lia.
Qed.

(** What a leader counts at the end of a round is held by a majority. *)
Lemma counted_committed i rf N :
  nodes s !! i = Some rf -> leaderId rf = i -> quorum rf N -> committed n c s (currentTerm rf, N) /\ anc c (currentTerm rf, N) (tip rf).
Proof.
  intros Hi Hl Hq. destruct (inv_node n s Hinv i rf Hi) as (Hme & Hnp & Hpi & _).
  pose proof (rec_peer _ _ _ Hrec i rf Hi) as Hp.
  unfold quorum, copies, current_entry in Hq. rewrite Hnp in Hq.
  assert (1 <= Z.quot (Z.of_nat n) 2) as H1 by (rewrite Z.quot_div_nonneg by lia; apply Z.div_le_lower_bound; lia).
  destruct (entry_at rf N) as [en|] eqn:Hen; [|lia]. destruct (Z.eqb_spec (Term en) (currentTerm rf)) as [Het|]; [|lia].
  destruct (entry_at_node c rf N en (pl_logged _ _ _ Hp) Hen) as [Ha [p Hcn]]. rewrite Het in Ha, Hcn.
  split; [|done]. set (X := filter (fun j => RaftLog.holds rf N j = true) (peer_ids rf)) in *.
  assert (forall j, j ∈ X -> is_peer n j /\ j <> i /\ exists m, matchIndex rf !! Z.to_nat j = Some m /\ N <= m) as HX.
  { intros j [Hh Hj]%list_elem_of_filter. unfold peer_ids in Hj. apply list_elem_of_fmap in Hj as (l & -> & Hl'%elem_of_seq).
    unfold RaftLog.holds in Hh. apply andb_true_iff in Hh as [Hne Hm]. apply negb_true_iff, Z.eqb_neq in Hne.
    split_and!; [unfold is_peer; lia|congruence|]. destruct (matchIndex rf !! _) as [m|]; [|done]. exists m. split; [done|].
    rewrite Z.geb_leb in Hm. by apply Z.leb_le in Hm. }
  assert (NoDup X) as Hnd.
  { apply NoDup_filter. unfold peer_ids. apply NoDup_fmap_2; [apply _|]. apply NoDup_seq. }
  exists ({[i]} ∪ list_to_set X). split; [split|].
  - intros j [->%elem_of_singleton|Hj%elem_of_list_to_set]%elem_of_union; [done|by apply HX].
  - rewrite size_union.
    + rewrite size_singleton, size_list_to_set by done. unfold len in Hq. lia.
    + intros j ->%elem_of_singleton Hj%elem_of_list_to_set. by destruct (HX i Hj) as (_ & ? & _).
  - intros j [->%elem_of_singleton|Hj%elem_of_list_to_set]%elem_of_union.
    + left. split; [by apply lo_leader|by eexists].
    + destruct (HX j Hj) as (Hpj & Hji & m & Hm & HNm).
      destruct (ro_match _ _ Hro i rf j m Hi Hl Hpj Hji Hm) as [_ Hheld]. apply Hheld; [by eexists|].
      unfold entry_at in Hen. destruct (Z.gtb_spec N (lastAppliedIndex rf)); [lia|done].
Qed.

Lemma runs_round i count :
  runs s e i (SRoundFinish count) -> exists rd, e = ERoundFinish i /\ rounds (repl s) !! i = Some rd /\ count = rd_count rd.
Proof.
  intros Hr. destruct e; try done; [|by destruct Hr as (_ & -> & ?)]. destruct Hr as (-> & rd & ? & ?). by exists rd.
Qed.

(** The log of a peer goes on from where it ended, unless a request or a snapshot
    sets it. *)
Lemma tip_cases i u rf rf' : nodes s !! i = Some rf -> runs s e i u -> exec u rf = Ret rf' ->
  anc c' (tip rf) (tip rf') \/ last_index rf <= lastAppliedIndex rf' \/
  exists k now r args, e = EAppend k now r /\ aes s !! k = Some (i, args) /\ exec (SAppendEntries now r args) rf = Ret rf'.
Proof.
  intros Hi Hr Hx. destruct (exec_tip s e i u rf rf' Hr Hx) as [->%trims_tip|[?|[(cmd & He & Hl & ->)|(k & now & r & args & _ & _ & Hin)]]];
    [left; constructor|by right; right|left|].
  - by destruct (there start_tip i cmd rf He Hi Hl) as (_ & -> & ?).
  - destruct (installed_tip args rf rf' Hin) as [(_ & Hb & Hle)|[-> _]]; [|left; constructor].
    unfold base, snap_node in Hb. injection Hb as _ Hb. right. left. lia.
Qed.

(** What was committed is still, if the log goes on. *)
Lemma commits_kept i u rf rf' k : nodes s !! i = Some rf -> runs s e i u -> exec u rf = Ret rf' -> currentTerm rf <= currentTerm rf' ->
  anc c' (tip rf) (tip rf') \/ last_index rf <= lastAppliedIndex rf' ->
  commits c s i (currentTerm rf) (lastAppliedIndex rf) k (tip rf) ->
  commits c' s' i (currentTerm rf') (lastAppliedIndex rf') k (tip rf').
Proof.
  intros Hi Hr Hx Ht Hgrows Hk. pose proof (exec_lai i u rf rf' Hi Hr Hx) as Hlai.
  destruct (commits_mono i _ _ _ _ k _ Ht Hlai Hk) as [?|(y & z & Hy & Hz & Hzy & Hzx & ? & ?)]; [by left|].
  destruct Hgrows as [Ha|Hle]; [right|left].
  - exists y, z. split_and!; try done. by eapply anc_trans.
  - pose proof (anc_index _ _ _ Hzx). unfold tip in *. cbn in *. lia.
Qed.

(** The commit index that a leader finds at the end of its round. *)
Lemma round_commits i rf N : nodes s !! i = Some rf -> runs s e i (SRoundFinish N) -> forall M,
  Z.quot (npeers rf) 2 < N -> findMaxN rf = Ret M -> commitIndex rf < M ->
  commits c' s' i (currentTerm rf) (lastAppliedIndex rf) M (tip rf).
Proof.
  intros Hi Hr M Hcnt HM Hgt. destruct (inv_node n s Hinv i rf Hi) as (Hme & Hnp & _).
  destruct (runs_round i N Hr) as (rd & He & Hrd & ->). pose proof Hord as Ho. rewrite He in Ho. cbn in Ho.
  rewrite Hi, Hrd in Ho. destruct (Z.leb_spec (rd_count rd) (Z.quot (npeers rf) 2)); [lia|]. cbn in Ho. zbool.
  destruct (lo_round s Hled i rd Hrd) as (_ & rf0 & Hi0 & _ & Hlead). rewrite Hi in Hi0. injection Hi0 as <-.
  specialize (Hlead ltac:(congruence)).
  assert (len (matchIndex rf) = npeers rf) by by destruct (ro_peers _ _ Hro i rf Hi) as [[_ _ _ ?] _].
  destruct (findMaxN_quorum rf M) as [Hq _]; [lia|done|done|done|].
  destruct (counted_committed i rf M Hi Hlead Hq) as [Hcm Ha]. right.
  exists (currentTerm rf, M), (currentTerm rf, M).
  split_and!; [by apply (kept committed_mono)|done|constructor|by eapply anc_mono|cbn; lia|].
  right. left. apply (wins_mono e s); [done|]. by apply lo_leader.
Qed.

(** A peer's commit index after any event. *)
Lemma exec_commits i u rf rf' : nodes s !! i = Some rf -> runs s e i u -> exec u rf = Ret rf' -> currentTerm rf <= currentTerm rf' ->
  commits c' s' i (currentTerm rf') (lastAppliedIndex rf') (commitIndex rf') (tip rf').
Proof.
  intros Hi Hr Hx Ht. pose proof (co_peer _ _ Hco i rf Hi) as Hold.
  assert ((anc c' (tip rf) (tip rf') \/ last_index rf <= lastAppliedIndex rf') \/ exists k now r args, e = EAppend k now r /\
      aes s !! k = Some (i, args) /\ exec (SAppendEntries now r args) rf = Ret rf') as [Hgrows|(k & now & r & args & He & Hk & Hxa)].
  { destruct (tip_cases i u rf rf' Hi Hr Hx) as [?|[?|?]]; auto. }
  2: { by eapply append_commits. }
  pose proof (commits_kept i u rf rf' (commitIndex rf) Hi Hr Hx Ht Hgrows Hold) as Hkept.
  destruct (exec_commit u rf rf' Hx) as [(-> & _ & _)|[(now & r & args & ->)|[(now & r & args & ->)|[(count & N & -> & Hcnt & HN & Hgt & ->)|
    [(index & snap & ->)|(index & ->)]]]]].
  - done.
  - destruct (install_effect _ _ _ _ _ Hx) as [[_ ->]|Hin]; [done|]. destruct (in_rest _ _ _ Hin) as [Hci _]. by rewrite Hci.
  - destruct (runs_append s e i now r args Hr) as (k & He & Hk). by eapply append_commits.
  - by eapply (round_commits i rf count).
  - by destruct (doSnapshot_state index snap rf rf' Hx) as (_ & _ & -> & _).
  - by destruct (apply_state index rf rf' Hx) as (_ & _ & -> & _).
Qed.

Lemma commit_step i rf' : nodes s' !! i = Some rf' ->
  commits c' s' i (currentTerm rf') (lastAppliedIndex rf') (commitIndex rf') (tip rf').
Proof.
  intros Hi'. destruct (step_peer_inv e s s' i rf' Hstep Hi') as (rf & Hi & Hc).
  destruct (change_term n s e i rf rf' Hinv Hi Hc) as [Ht _]. destruct Hc as [|u rf' Hr Hx|now r _].
  - apply (commits_mono i (currentTerm rf) _ (lastAppliedIndex rf)); [done..|]. by apply (co_peer _ _ Hco).
  - by eapply exec_commits.
  - left. destruct (crash_state rf now r) as [Hci _]. by rewrite Hci.
Qed.

Lemma base_step i rf' rf0' : nodes s' !! i = Some rf' -> image rf' rf0' -> covered_by n c' s' (currentTerm rf') (base rf0').
Proof.
  intros Hi' Him. destruct (step_peer_inv e s s' i rf' Hstep Hi') as (rf & Hi & Hc).
  destruct (change_term n s e i rf rf' Hinv Hi Hc) as [Ht _].
  destruct (image_step s e i rf rf' rf0' Hc Him) as [(rf0 & H0 & Hs)|(u & Hr & Hx & Hs)]; rewrite (same_log_base _ _ Hs).
  { apply (covered_mono (currentTerm rf)); [done|by apply (co_base _ _ Hco i rf)]. }
  destruct (exec_base_cases i u rf rf' Hi Hr Hx) as [->|[[Hlt Ha]|(args & Hin & -> & <-)]].
  - apply (covered_mono (currentTerm rf)); [done|apply (co_base _ _ Hco i rf); [done|by left]].
  - apply (covered_mono (currentTerm rf)); [done|].
    destruct (co_peer _ _ Hco i rf Hi) as [?|(y & z & Hy & Hz & Hzy & Hzx & HyT & _)]; [lia|right].
    exists y. split_and!; [done| |done]. eapply anc_trans; [|exact Hzy]. eapply anc_linear; [done..|]. cbn. lia.
  - eapply covered_mono; [done|by eapply (co_iss _ _ Hco)].
Qed.

Lemma iss_covered_step j args : (j, args) ∈ iss s' -> covered_by n c' s' (is_Term args) (snap_node args).
Proof.
  destruct (step_iss e s s' Hstep) as [->|(i & j0 & rf & rd & args0 & _ & Hi & _ & Hsend & _ & ->)].
  - intros Hin. eapply covered_mono; [done|by apply (co_iss _ _ Hco j)].
  - intros [Hin|Hin]%elem_of_app; [eapply covered_mono; [done|by apply (co_iss _ _ Hco j)]|].
    apply list_elem_of_singleton in Hin. injection Hin as -> ->.
    destruct (snapshot_sent _ _ _ Hsend) as (_ & -> & _ & ->). eapply covered_mono; [done|]. apply (co_base _ _ Hco i rf); [done|by left].
Qed.

Lemma leader_commit_step j args : (j, args) ∈ aes s' -> LeaderCommit args <= -1 \/
  exists y z, committed n c' s' y /\ z.2 = LeaderCommit args /\ anc c' z y /\ anc c' z (end_node args) /\ y.1 <= ae_Term args.
Proof.
  intros [k Hk]%list_elem_of_lookup_1.
  assert (forall T x, LeaderCommit args <= -1 \/ (exists y z, committed n c s y /\ z.2 = LeaderCommit args /\
    anc c z y /\ anc c z x /\ y.1 <= T) -> LeaderCommit args <= -1 \/ exists y z, committed n c' s' y /\
    z.2 = LeaderCommit args /\ anc c' z y /\ anc c' z x /\ y.1 <= T) as Hmono.
  { intros T x [?|(y & z & Hy & Hz & ? & ? & ?)]; [by left|right]. exists y, z.
    split_and!; [by apply (kept committed_mono)|done|by eapply anc_mono..|done]. }
  destruct (proj1 (step_moves e s s' Hstep)) as [_ Haes|? ? ? ? _ _ _ _ Haes|? ? ? ? _ _ _ Haes|i l rf term args' He Hi Hsend Hn Haes];
    rewrite Haes in Hk; try (apply Hmono, (co_aes _ _ Hco j); by eapply list_elem_of_lookup_2).
  apply lookup_app_Some in Hk as [Hk|[_ Hk]]; [apply Hmono, (co_aes _ _ Hco j); by eapply list_elem_of_lookup_2|].
  apply list_lookup_singleton_Some in Hk as [_ [= -> ->]]. destruct (sender_straight i j term rf args Hsend Hi) as [Hlai Hl].
  destruct (appendRPCWorker_send_tip c j term rf args Hsend Hlai Hl) as (Hend & _ & Hci & _ & _).
  destruct (appendRPCWorker_send_chain c j term rf args Hsend Hlai Hl) as (_ & HT & _ & _).
  apply Hmono. rewrite Hend, Hci, HT. destruct (co_peer _ _ Hco i rf Hi) as [Hb|(y & z & ? & ? & ? & ? & ? & _)]; [|right; by exists y, z].
  destruct (Z.leb_spec (commitIndex rf) (-1)) as [|Hpos]; [by left|right].
  destruct (co_base _ _ Hco i rf rf Hi (or_introl eq_refl)) as [Hr|(y & Hy & Hby & HyT)]; [unfold base, root in Hr; injection Hr; lia|].
  destruct (anc_at c (base rf) (commitIndex rf)) as (t & Ha & _); [apply Hroot|by apply (rt_peer _ _ Hroot i rf rf Hi (or_introl eq_refl))|cbn; lia|].
  exists y, (t, commitIndex rf). split_and!; [done|done|by eapply anc_trans| |done].
  eapply anc_trans; [exact Ha|]. by apply base_anc.
Qed.

Lemma announced_mono m : announced c s m -> announced c' s' m.
Proof.
  intros (y & z & en & p & Hy & Hzy & Hz & Hc & Hm). exists y, z, en, p.
  split_and!; [by apply (kept committed_mono)|by eapply anc_mono|done|by eapply lookup_weaken|done].
Qed.

Lemma sent_announced i rf' m : nodes s' !! i = Some rf' -> m ∈ sender rf' -> CommandValid m = true -> announced c' s' m.
Proof.
  intros Hi' Hm Hv. destruct (step_peer_inv e s s' i rf' Hstep Hi') as (rf & Hi & Hc).
  assert (m ∈ sender rf -> announced c' s' m) as Hold by (intros Hin; by apply announced_mono, (co_sent _ _ Hco i rf)).
  destruct Hc as [|x rf' Hr Hx|now r Hcr]; [by apply Hold| |].
  - destruct (exec_commit x rf rf' Hx) as [(_ & _ & Hs)|[(now & r & args & ->)|[(now & r & args & ->)|[(count & N & -> & _ & _ & _ & ->)|
      [(index & snap & ->)|(index & ->)]]]]].
    + rewrite Hs in Hm. by apply Hold.
    + destruct (install_effect _ _ _ _ _ Hx) as [[_ ->]|Hin]; [by apply Hold|].
      destruct (in_rest _ _ _ Hin) as (_ & Hs & _). rewrite Hs in Hm. by apply Hold.
    + destruct (runs_append s e i now r args Hr) as (k & He & Hk).
      destruct (there append_on_tree _ _ _ _ _ _ _ Hi Hk Hx) as (reply & _ & Hap & _).
      rewrite (ap_sender _ _ _ _ _ Hap) in Hm. by apply Hold.
    + by apply Hold.
    + destruct (doSnapshot_sent index snap rf rf' m Hx Hm); [by apply Hold|congruence].
    + assert (index <= commitIndex rf) as Hle by by eapply runs_apply.
      destruct (apply_sent index rf rf' m Hx Hm) as [?|[Hm' Hlog]]; [by apply Hold|].
      apply announced_mono, (applied_announced c s i rf); [done..|]. split; [lia|done].
  - destruct (crash_state rf now r) as (_ & _ & Hs). rewrite Hs in Hm. by apply elem_of_nil in Hm.
Qed.

Lemma commit_ok_step : commit_ok c' s'.
Proof.
  split; [apply base_step|apply iss_covered_step|apply commit_step|apply leader_commit_step|apply sent_announced|apply applied_step].
Qed.

End preserved.

(** ** The invariant of orderly runs *)

Record sound c s : Prop := {
  s_good : good n c s;
  s_own : own_ok c s;
  s_rounds : rounds_ok c s;
  s_commit : commit_ok c s;
}.

Lemma sound_init : sound first_history (init n).
Proof.
  assert (forall i rf, nodes (init n) !! i = Some rf -> leaderId rf <> i /\ commitIndex rf = -1 /\
    lastAppliedIndex rf = -1 /\ sender rf = []) as Hfresh.
  { intros i rf Hi. destruct (init_node n i rf Hi) as [[Hpos _] ->]. split; [|done]. change (-1 <> i). lia. }
  split; [apply good_init|split|split|split].
  - intros j rf rf0 N Hi _ H1. destruct (init_node n j rf Hi) as [_ ->]. change (1 <= 0) in H1. lia.
  - intros k j args N (reply & Hin & _). by apply elem_of_nil in Hin.
  - intros i rf j args Hi Hl. by destruct (Hfresh i rf Hi).
  - intros i rd. cbn. by rewrite lookup_empty.
  - intros i rf Hi. destruct (init_node n i rf Hi) as [Hp ->]. split; [by apply peer_ok_Make_fresh|by left].
  - intros i rd j. cbn. by rewrite lookup_empty.
  - intros i rd j k. cbn. by rewrite lookup_empty.
  - intros i rf j m Hi Hl. by destruct (Hfresh i rf Hi).
  - intros i rf rf0 Hi Him. left. destruct (init_node n i rf Hi) as [_ ->]. by destruct Him as [->| ->].
  - intros j args Hin. by apply elem_of_nil in Hin.
  - intros i rf Hi. destruct (Hfresh i rf Hi) as (_ & -> & -> & _). by left.
  - intros j args Hin. by apply elem_of_nil in Hin.
  - intros i rf m Hi. destruct (Hfresh i rf Hi) as (_ & _ & _ & ->). by intros Hm%elem_of_nil.
  - intros i rf Hi. destruct (init_node n i rf Hi) as [_ ->]. done.
Qed.

Lemma sound_step c e s s' : sound c s -> orderly e s = true -> step e s = Some s' ->
  sound (grow e s c) s' /\ c ⊆ grow e s c /\ forall y, committed n c s y -> committed n (grow e s c) s' y.
Proof.
  intros [Hg Hown Hro Hco] Hord Hstep.
  assert (forall j args, (j, args) ∈ iss s -> covered n c s (snap_node args)) as Hsnap.
  { intros j args Hin. by eapply covered_by_covered, (co_iss _ _ Hco). }
  assert (forall i rf, nodes s !! i = Some rf -> covered_by n c s (currentTerm rf) (base rf)) as Hbase.
  { intros i rf Hi. apply (co_base _ _ Hco i rf); [done|by left]. }
  destruct (good_step n c e s s' Hg) as [Hg' Hgrow]; [done..|].
  pose proof Hg as [Hinv Hrec Hled Hroot Hsafe]. pose proof Hg' as [Hinv' Hrec' Hled' Hroot' Hsafe'].
  split; [split; [done|by apply own_ok_step|by apply rounds_step|by apply commit_ok_step]|]. split; [done|].
  intros y. apply (committed_mono n c e s s'); try done.
  - intros i rf Hi. apply (leader_straight n c s i); try done. by apply (Hbase i).
  - intros i rf Hi. by eapply covered_by_covered, (Hbase i rf Hi).
Qed.

Lemma sound_steps es c s s' : sound c s -> orderly_run es s = true -> steps es s = Some s' ->
  exists c', sound c' s' /\ c ⊆ c' /\ forall y, committed n c s y -> committed n c' s' y.
Proof.
  revert c s. induction es as [|e es IH]; intros c s Hs; cbn [orderly_run steps].
  - intros _ [= <-]. by exists c.
  - intros [Ho Hr]%andb_true_iff. destruct (step e s) as [s1|] eqn:Hstep; [|done]. intros Hrun.
    destruct (sound_step c e s s1 Hs Ho Hstep) as (Hs1 & Hc1 & Hm1). destruct (IH _ _ Hs1 Hr Hrun) as (c2 & Hs2 & Hc2 & Hm2).
    exists c2. split_and!; [done|by etrans|auto].
Qed.

End commitment.
End Commitment.
