(* ===== verification/SafetySpec.v ===== *)
(** State machine safety of the cluster: it holds in orderly runs, and each of
    their four conditions is needed. *)
From S2P Require Import Prelude Labgob Persister RaftState Raft RaftLemmas RaftElection RaftLog RaftSnapshot RaftSteps.
From S2P Require Import Cluster ClusterProofs ClusterSteps ElectionSpec LogMatching LogTree Leadership LeaderCompleteness Commitment.
Import Labgob Persist RaftState RaftNode RaftOk RaftElection RaftLog RaftSnapshot RaftSteps.
Import Cluster ClusterOk ClusterSteps LogMatching LogTree Leadership LeaderCompleteness Commitment.
Local Open Scope Z_scope.

Module SafetySpec.
Section safety.
Context {Cmd : Type} `{!Gob (gval Cmd)}.
Implicit Types (rf : Raft Cmd) (s : cluster Cmd) (es : list (event (Cmd := Cmd))).

(** Of two committed entries one is an ancestor of the other. *)
Lemma committed_comparable n c s x y :
  sound n c s -> committed n c s x -> committed n c s y -> anc c x y \/ anc c y x.
Proof.
  intros [[Hinv Hrec Hled Hroot Hsafe] _ _ _] Hx Hy. pose proof (rt_closed _ _ Hroot) as Hcl.
  assert (forall z, committed n c s z -> in_tree c z) as Htree.
  { intros z Hz. by apply (tree_of_committed n c s). }
  assert (forall x y, committed n c s x -> committed n c s y -> x.1 < y.1 -> anc c x y) as Hlt.
  { intros u v Hu Hv Huv. pose proof (in_tree_term c u Hcl (Htree u Hu)).
    destruct (Htree v Hv) as [->|Hs]; [cbn in *; lia|].
    apply (sf_node _ _ _ Hsafe); [done|lia|by apply committed_not_blocked]. }
  destruct (Z.lt_trichotomy x.1 y.1) as [?|[Heq|?]]; [left; by apply Hlt| |right; by apply Hlt].
  destruct (Htree x Hx) as [->|Hsx]; [left; by apply anc_root, Htree|].
  destruct (Htree y Hy) as [->|Hsy]; [right; by apply anc_root, Htree|].
  destruct x as [T k], y as [T' k']. cbn in Heq. subst T'.
  destruct (decide (k <= k')); [left|right]; apply (rt_term _ _ Hroot); try done. lia.
Qed.

(** Announcements of one index agree. *)
Lemma announced_agree n c s m m' :
  sound n c s -> announced n c s m -> announced n c s m' -> CommandIndex m = CommandIndex m' -> am_Command m = am_Command m'.
Proof.
  intros Hs (y & z & e & p & Hy & Hzy & Hz & Hc & Hm) (y' & z' & e' & p' & Hy' & Hzy' & Hz' & Hc' & Hm') Hi.
  assert (exists u, anc c z u /\ anc c z' u) as (u & Hu & Hu').
  { destruct (committed_comparable n c s y y' Hs Hy Hy'); [exists y'|exists y]; split; try done; by eapply anc_trans. }
  destruct z as [t k], z' as [t' k']. cbn in *. assert (k' = k) as -> by congruence.
  assert (t' = t) as -> by by eapply anc_unique. congruence.
Qed.

Lemma orderly_run_app es1 es2 s s1 :
  orderly_run (es1 ++ es2) s = true -> steps es1 s = Some s1 -> orderly_run es1 s = true /\ orderly_run es2 s1 = true.
Proof.
  revert s. induction es1 as [|e es1 IH]; intros s; cbn [app orderly_run steps].
  - by intros ? [= <-].
  - intros [Ho Hr]%andb_true_iff. destruct (step e s) as [s2|]; [|done]. intros Hrun.
    destruct (IH s2 Hr Hrun). by rewrite Ho.
Qed.

(** C3. State machine safety: in an orderly run of two peers or more, with
    messages lost, delayed and reordered, votes handled twice, crashes, restarts
    and snapshots taken, shipped and installed, every two commands that are
    handed to services for one index are the same command, be it by two peers or
    by one peer at two times, before or after crashes.  Orderly are runs in which
    a won election and a round with a majority end in the term they began in,
    requests of one leader to one follower are handled in the order in which they
    were sent, and a peer only takes a snapshot of entries that it knows to be
    committed, or that its snapshot covers.  Each of the four is needed, as the
    runs of the next theorem show. *)
Theorem state_machine_safety n es1 es2 s1 s2 i j rfi rfj mi mj :
  (2 <= n)%nat -> orderly_run (es1 ++ es2) (init n) = true ->
  steps es1 (init n) = Some s1 -> steps es2 s1 = Some s2 ->
  nodes s1 !! i = Some rfi -> nodes s2 !! j = Some rfj -> mi ∈ sender rfi -> mj ∈ sender rfj ->
  CommandValid mi = true -> CommandValid mj = true -> CommandIndex mi = CommandIndex mj ->
  am_Command mi = am_Command mj.
Proof.
  intros Hn Hord H1 H2 Hi Hj Hmi Hmj Hvi Hvj Hidx. destruct (orderly_run_app es1 es2 _ _ Hord H1) as [Ho1 Ho2].
  destruct (sound_steps n Hn es1 _ _ _ (sound_init n Hn) Ho1 H1) as (c1 & Hs1 & _).
  destruct (sound_steps n Hn es2 _ _ _ Hs1 Ho2 H2) as (c2 & Hs2 & Hc & Hm).
  apply (announced_agree n c2 s2); [done| |by eapply co_sent; [apply Hs2|..]|done].
  destruct (co_sent _ _ _ (s_commit _ _ _ Hs1) i rfi mi Hi Hmi Hvi) as (y & z & e & p & Hy & Hzy & Hz & He & Hcmd).
  exists y, z, e, p. split_and!; [by apply Hm|by eapply anc_mono|done|by eapply lookup_weaken|done].
Qed.

(** C4. Leader completeness: in an orderly run, an entry at or below the
    [commitIndex] of any peer is at the same index in the log of every peer
    that leads the same or a later term, then or later, unless that leader has
    put it into its snapshot. *)
Theorem leader_completeness n es1 es2 s1 s2 i j rfi rfj k e :
  (2 <= n)%nat -> orderly_run (es1 ++ es2) (init n) = true ->
  steps es1 (init n) = Some s1 -> steps es2 s1 = Some s2 ->
  nodes s1 !! i = Some rfi -> k <= commitIndex rfi -> entry_at rfi k = Some e ->
  nodes s2 !! j = Some rfj -> leaderId rfj = me rfj -> currentTerm rfi <= currentTerm rfj ->
  k <= lastAppliedIndex rfj \/ entry_at rfj k = Some e.
Proof.
  intros Hn Hord H1 H2 Hi Hk He Hj Hl Ht. destruct (orderly_run_app es1 es2 _ _ Hord H1) as [Ho1 Ho2].
  destruct (sound_steps n Hn es1 _ _ _ (sound_init n Hn) Ho1 H1) as (c1 & Hs1 & _).
  destruct (sound_steps n Hn es2 _ _ _ Hs1 Ho2 H2) as (c2 & Hs2 & Hc & Hm).
  destruct (decide (k <= lastAppliedIndex rfj)) as [|Hsnap]; [by left|right].
  pose proof Hs2 as [[Hinv Hrec Hled Hroot Hsafe] _ _ _]. pose proof (rec_peer _ _ _ Hrec j rfj Hj) as Hpj.
  pose proof (g_rec _ _ _ (s_good _ _ _ Hs1)) as Hrec1. pose proof (rec_peer _ _ _ Hrec1 i rfi Hi) as Hpi.
  destruct (inv_node n s2 Hinv j rfj Hj) as (Hme & _). rewrite Hme in Hl.
  destruct (entry_at_node c1 rfi k e (pl_logged _ _ _ Hpi) He) as [Ha [p Hce]].
  assert (lastAppliedIndex rfi < k) as Hki.
  { unfold entry_at in He. destruct (Z.gtb_spec k (lastAppliedIndex rfi)); [lia|done]. }
  pose proof (pl_lai _ _ _ Hpi).
  destruct (co_peer _ _ _ (s_commit _ _ _ Hs1) i rfi Hi) as [?|(y & z & Hy & Hz & Hzy & Hzx & HyT & _)]; [lia|].
  assert (anc c2 (Term e, k) y) as Hky.
  { eapply anc_mono; [done|]. eapply anc_trans; [|exact Hzy]. eapply anc_linear; [exact Ha|done|cbn; lia]. }
  apply Hm in Hy. pose proof (rt_closed _ _ Hroot) as Hcl. pose proof (tree_of_committed n c2 s2 y (s_good _ _ _ Hs2) Hy) as Hty.
  assert (anc c2 y (tip rfj)) as Hyt.
  { destruct (decide (y.1 < currentTerm rfj)) as [Hlt|].
    - apply (sf_lead _ _ _ Hsafe j rfj y Hj Hl); [|by apply committed_not_blocked].
      split; [by apply (in_tree_term c2)|done].
    - destruct Hty as [->|Hsy]; [by apply anc_root, (rooted_tip c2 s2 j)|].
      destruct y as [T l]. cbn in *. assert (T = currentTerm rfj) as -> by lia. by apply (rt_lead _ _ Hroot j). }
  destruct (anc_entry c2 rfj (Term e) k (pl_logged _ _ _ Hpj)) as (e' & p' & He' & _ & Hce'); [by eapply anc_trans|lia|].
  rewrite He'. f_equal. pose proof (lookup_weaken _ _ _ _ Hce Hc). congruence.
Qed.

(** ** Runs that break one condition *)

(** The services of two peers are told different commands for an index. *)
Definition diverges (n : nat) es : Prop :=
  exists s i j rfi rfj mi mj, steps es (init n) = Some s /\ nodes s !! i = Some rfi /\ nodes s !! j = Some rfj /\
    mi ∈ ApplyMsgSender (Make (Z.of_nat n) i MakePersister 0 0) (sender rfi) /\
    mj ∈ ApplyMsgSender (Make (Z.of_nat n) j MakePersister 0 0) (sender rfj) /\
    CommandValid mi = true /\ CommandValid mj = true /\ CommandIndex mi = CommandIndex mj /\
    am_Command mi <> am_Command mj.

(** The run is orderly but for some events of one kind. *)
Fixpoint orderly_but (kind : event (Cmd := Cmd) -> bool) es s : bool :=
  match es with
  | [] => true
  | e :: es => (kind e || orderly e s) && match step e s with Some s' => orderly_but kind es s' | None => false end
  end.

Definition is_finish (e : event (Cmd := Cmd)) : bool := match e with EFinish _ _ _ => true | _ => false end.
Definition is_append (e : event (Cmd := Cmd)) : bool := match e with EAppend _ _ _ => true | _ => false end.
Definition is_snapshot (e : event (Cmd := Cmd)) : bool := match e with ELocal _ (SDoSnapshot _ _) => true | _ => false end.
Definition is_round_finish (e : event (Cmd := Cmd)) : bool := match e with ERoundFinish _ => true | _ => false end.

(** The [k]-th thing that the service of peer [i] is told. *)
Definition told (n : nat) (i : Z) (k : nat) s : option (ApplyMsg Cmd) :=
  nodes s !! i ≫= fun rf => ApplyMsgSender (Make (Z.of_nat n) i MakePersister 0 0) (sender rf) !! k.

Lemma told_diverges n es i j k mi mj :
  (fun s => (told n i k s, told n j k s)) <$> steps es (init n) = Some (Some mi, Some mj) ->
  CommandValid mi = true -> CommandValid mj = true -> CommandIndex mi = CommandIndex mj ->
  am_Command mi <> am_Command mj -> diverges n es.
Proof.
  intros (s & Hs & Hm)%fmap_Some Hvi Hvj Hidx Hne. apply pair_eq in Hm as [Hi Hj]. symmetry in Hi, Hj.
  apply bind_Some in Hi as (rfi & Hrfi & Hi), Hj as (rfj & Hrfj & Hj). apply list_elem_of_lookup_2 in Hi, Hj.
  by exists s, i, j, rfi, rfj, mi, mj.
Qed.

End safety.

(** ** Runs *)

Module Runs.

#[local] Instance Z_Gob : Gob (gval Z) := countable_Gob (gval Z).
Definition sec : Z := 1000000000.
#[local] Abbreviation events := (list (event (Cmd := Z))).

(** An election of [i] at second [t]: for each voter the number of its request
    and of its reply; the requests to the others time out. *)
Definition elect (i t : Z) (voters : list (Z * nat * nat)) (others : list Z) : events :=
  [EStart i (t * sec) false] ++ ((fun v => ESend i v.1.1) <$> voters) ++
  flat_map (fun v => [EVote v.1.2 (t * sec) 0; ERecv i v.1.1 (Some v.2)]) voters ++
  flat_map (fun j => [ESend i j; ERecv i j None]) others ++ [EFinish i (t * sec) 0].

(** A round of [i] up to its end, in the same way. *)
Definition replicate_to (i t : Z) (acks : list (Z * nat * nat)) (others : list Z) : events :=
  [ERound i (t * sec)] ++ ((fun v => EAppendSend i v.1.1) <$> acks) ++
  flat_map (fun v => [EAppend v.1.2 (t * sec) 0; EAppendRecv i v.1.1 (Some v.2)]) acks ++
  flat_map (fun j => [EAppendSend i j; EAppendRecv i j None]) others.

Definition start_at (i v : Z) : event (Cmd := Z) := ELocal i (SStart (Some v)).

(** Five peers.  Peer 0 leads term 1 and keeps three commands for itself; peer 2
    leads term 2 and keeps one.  Peer 0 leads term 3 and brings peers 1 and 3 up
    to date; it has a majority, but waits for peer 2.  Peer 2 leads term 4 and
    replaces the log of peer 0 by its own, with an entry of term 4.  The wait
    of peer 0 ends: with the [matchIndex] of term 3 it counts a majority for that
    entry of term 4, and applies it.  Peer 1 leads term 5, with the votes of
    peers 3 and 4, and commits the commands of term 1. *)
Definition stale_round : events :=
  elect 0 10 [(1, 0%nat, 0%nat); (2, 1%nat, 1%nat)] [3; 4] ++ [start_at 0 1; start_at 0 2; start_at 0 3] ++
  elect 2 20 [(3, 4%nat, 2%nat); (4, 5%nat, 3%nat)] [0; 1] ++ [start_at 2 4; EVote 6 (20 * sec) 0] ++
  elect 0 50 [(1, 8%nat, 5%nat); (3, 9%nat, 6%nat)] [2; 4] ++ [EVote 10 (50 * sec) 0] ++
  replicate_to 0 60 [(1, 0%nat, 0%nat); (3, 1%nat, 1%nat)] [2; 4] ++ [ERoundFinish 0] ++
  replicate_to 0 70 [(1, 4%nat, 2%nat); (3, 5%nat, 3%nat)] [4] ++ [EAppendSend 0 2] ++
  elect 2 90 [(3, 12%nat, 8%nat); (4, 13%nat, 9%nat)] [0; 1] ++ [start_at 2 5; EVote 15 (90 * sec) 0] ++
  replicate_to 2 100 [(0, 8%nat, 4%nat)] [1; 3; 4] ++ [ERoundFinish 2] ++
  replicate_to 2 110 [(0, 12%nat, 5%nat)] [] ++
  [EAppendRecv 0 2 None; ERoundFinish 0; EApply 0 0] ++
  elect 1 130 [(3, 16%nat, 11%nat); (4, 17%nat, 12%nat)] [0; 2] ++ [start_at 1 6] ++
  replicate_to 1 140 [(3, 13%nat, 6%nat); (4, 14%nat, 7%nat)] [0; 2] ++ [ERoundFinish 1] ++
  replicate_to 1 150 [(3, 17%nat, 8%nat); (4, 18%nat, 9%nat)] [0; 2] ++ [ERoundFinish 1; EApply 1 0].

(** Five peers.  Peer 0 leads term 1 and brings its command to peer 1 only.  It
    takes a snapshot of it and restarts: its commit index is now that of the
    snapshot.  Peers 2 and 3 elect it again, and peer 1, which still has the
    command in its log, is told that it is committed, and applies it.  But peers
    2, 3 and 4 never had it: peer 4 leads term 3 and commits another command. *)
Definition early_snapshot : events :=
  elect 0 10 [(1, 0%nat, 0%nat); (2, 1%nat, 1%nat)] [3; 4] ++ [start_at 0 1] ++
  replicate_to 0 20 [(1, 0%nat, 0%nat)] [2; 3; 4] ++ [ERoundFinish 0] ++
  [ELocal 0 (SDoSnapshot 1 []); ECrash 0 (20 * sec) 0] ++
  elect 0 40 [(2, 4%nat, 2%nat); (3, 5%nat, 3%nat)] [1; 4] ++ [EVote 7 (40 * sec) 0] ++
  replicate_to 0 50 [(1, 4%nat, 1%nat)] [2; 3; 4] ++ [ERoundFinish 0; EApply 1 0] ++
  elect 4 70 [(2, 8%nat, 5%nat); (3, 9%nat, 6%nat)] [0; 1] ++ [start_at 4 9] ++
  replicate_to 4 80 [(2, 8%nat, 2%nat); (3, 9%nat, 3%nat)] [0; 1] ++ [ERoundFinish 4; EApply 4 0].

Definition command (k v : Z) : ApplyMsg Z := mkApplyMsg true (Some v) k false [] 0 0.

Lemma stale_round_told :
  (fun s : cluster Z => (told 5 0 1 s, told 5 1 1 s)) <$> steps stale_round (init 5) = Some (Some (command 1 4), Some (command 1 1)).
Proof. vm_compute. reflexivity. Qed.

Lemma early_snapshot_told :
  (fun s : cluster Z => (told 5 1 1 s, told 5 4 1 s)) <$> steps early_snapshot (init 5) = Some (Some (command 1 1), Some (command 1 9)).
Proof. vm_compute. reflexivity. Qed.

Lemma late_request_told :
  (fun s : cluster Z => (told 3 0 2 s, told 3 1 2 s)) <$> steps Witness.late_request (init 3) =
  Some (Some (command 2 8), Some (command 2 9)).
Proof. vm_compute. reflexivity. Qed.

Lemma divergence_told :
  (fun s : cluster Z => (told 3 0 1 s, told 3 2 1 s)) <$> steps ElectionSpec.Run.divergence (init 3) =
  Some (Some (command 1 8), Some (command 1 7)).
Proof. vm_compute. reflexivity. Qed.

(** C5. The conditions of state machine safety are needed: four runs, each
    orderly but for events of one kind, after which two services were told
    different commands for one index.  In the first an election is won after the
    candidate has moved to a later term, in the second an old request arrives
    after a newer one of the same leader, in the third a round ends after its
    leader has moved to a later term and counts the old [matchIndex]; nothing
    crashes and no snapshot is taken in these three.  In the fourth a leader takes
    a snapshot of an entry that is not committed, restarts, and takes the index
    of the snapshot for a commit index. *)
Theorem conditions_needed :
  (diverges 3 ElectionSpec.Run.divergence /\ orderly_but is_finish ElectionSpec.Run.divergence (init 3) = true) /\
  (diverges 3 Witness.late_request /\ orderly_but is_append Witness.late_request (init 3) = true) /\
  (diverges 5 stale_round /\ orderly_but is_round_finish stale_round (init 5) = true) /\
  (diverges 5 early_snapshot /\ orderly_but is_snapshot early_snapshot (init 5) = true).
Proof.
  split_and!.
  - by apply (told_diverges _ _ _ _ _ _ _ divergence_told).
  - vm_compute. reflexivity.
  - by apply (told_diverges _ _ _ _ _ _ _ late_request_told).
  - vm_compute. reflexivity.
  - by apply (told_diverges _ _ _ _ _ _ _ stale_round_told).
  - vm_compute. reflexivity.
  - by apply (told_diverges _ _ _ _ _ _ _ early_snapshot_told).
  - vm_compute. reflexivity.
Qed.

(** An orderly run: peer 0 leads term 1, commits and applies a command with
    peer 1. *)
Definition first_half : events :=
  elect 0 2 [(1, 0%nat, 0%nat)] [2] ++ [start_at 0 7] ++
  replicate_to 0 3 [(1, 0%nat, 0%nat)] [2] ++ [ERoundFinish 0; EApply 0 0].

(** It keeps two more commands for itself and crashes; peer 1 leads term 2, commits another command with peer 2, and
    applies both. *)
Definition second_half : events :=
  [start_at 0 5; start_at 0 6; ECrash 0 (3 * sec) 0] ++ elect 1 6 [(2, 2%nat, 1%nat)] [0] ++ [start_at 1 8] ++
  replicate_to 1 7 [(2, 2%nat, 1%nat)] [0] ++ [ERoundFinish 1] ++
  replicate_to 1 8 [(2, 4%nat, 2%nat)] [0] ++ [ERoundFinish 1; EApply 1 0].

(** Peer 1 takes a snapshot up to index 2.  Peer 0, whose log has other commands
    at indices 2 and 3, installs it, acknowledges it and crashes before it is on
    disk; it installs it again, saves it and keeps the command at index 3, which
    the snapshot contradicts.  Peer 1 commits and applies one more command, with
    peer 0. *)
Definition third_part : events :=
  [ELocal 1 (SDoSnapshot 2 []); ERound 1 (9 * sec); ESnapSend 1 0; EInstall 0 (9 * sec) 0; ESnapRecv 1 0 (Some 0%nat);
   ECrash 0 (9 * sec) 0; EInstall 0 (9 * sec) 0; ELocal 0 (SDoSnapshot 2 []); EAppendSend 1 2; EAppendRecv 1 2 None; ERoundFinish 1; start_at 1 9] ++
  replicate_to 1 10 [(0, 7%nat, 3%nat)] [2] ++ [ERoundFinish 1; EApply 1 0].

(** Peer 1 crashes and comes back, with its snapshot; before, it has told peer 0
    about the commit. *)
Definition fourth_part : events :=
  replicate_to 1 11 [(0, 9%nat, 4%nat)] [2] ++ [ERoundFinish 1; ECrash 1 (12 * sec) 0; EApply 0 0].

Definition whole : events := (first_half ++ second_half) ++ third_part ++ fourth_part.

Lemma whole_orderly : orderly_run whole (init 3) = true.
Proof. vm_compute. reflexivity. Qed.

Lemma halves_orderly : orderly_run (first_half ++ second_half) (init 3) = true.
Proof. vm_compute. reflexivity. Qed.

Lemma parts_orderly : orderly_run (((first_half ++ second_half) ++ third_part) ++ fourth_part) (init 3) = true.
Proof. rewrite <- app_assoc. exact whole_orderly. Qed.

(** The last message of a peer. *)
Definition last_sent (i : Z) (s : cluster Z) : option (ApplyMsg Z) := nodes s !! i ≫= fun rf => last (sender rf).

Lemma last_sent_spec i m s : last_sent i s = Some m -> exists rf, nodes s !! i = Some rf /\ m ∈ sender rf.
Proof. intros (rf & Hi & Hm)%bind_Some. exists rf. split; [done|by apply last_Some_elem_of]. Qed.

(** The states after each of two runs in turn. *)
Definition in_turn (es1 es2 : events) : option (cluster Z * cluster Z) :=
  match steps es1 (init 3) with
  | Some s1 => match steps es2 s1 with Some s2 => Some (s1, s2) | None => None end
  | None => None
  end.

Lemma in_turn_spec es1 es2 s1 s2 : in_turn es1 es2 = Some (s1, s2) ->
  steps es1 (init 3) = Some s1 /\ steps es2 s1 = Some s2.
Proof.
  unfold in_turn. destruct (steps es1 (init 3)) as [s|]; [|done].
  destruct (steps es2 s) as [s'|] eqn:Hs; [|done]. by intros [= <- <-].
Qed.

(** Both peers announce the command 9 at index 3, peer 0 after the snapshot. *)
Lemma parts_end :
  (fun p => (last_sent 1 p.1, last_sent 0 p.2)) <$> in_turn ((first_half ++ second_half) ++ third_part) fourth_part =
  Some (Some (command 3 9), Some (command 3 9)).
Proof. vm_compute. reflexivity. Qed.

Lemma state_machine_safety_witness : exists (s1 s2 : cluster Z) rf1 rf0,
  nodes s1 !! 1 = Some rf1 /\ nodes s2 !! 0 = Some rf0 /\ command 3 9 ∈ sender rf1 /\
  forall m, m ∈ sender rf0 -> CommandValid m = true -> CommandIndex m = 3 -> Some 9 = am_Command m.
Proof.
  pose proof parts_end as Hend. destruct (in_turn _ _) as [[s1 s2]|] eqn:Hrun; [|discriminate Hend].
  apply in_turn_spec in Hrun as [H1 H2]. cbn [fmap option_fmap option_map fst snd] in Hend. injection Hend as He1 He0.
  destruct (last_sent_spec _ _ _ He1) as (rf1 & Hrf1 & Hm1), (last_sent_spec _ _ _ He0) as (rf0 & Hrf0 & Hm0).
  exists s1, s2, rf1, rf0. split; [exact Hrf1|]. split; [exact Hrf0|]. split; [exact Hm1|].
  intros m Hm Hv Hi. refine (state_machine_safety 3 _ _ s1 s2 1 0 rf1 rf0 (command 3 9) m
    _ parts_orderly H1 H2 Hrf1 Hrf0 Hm1 Hm eq_refl Hv _); [apply Nat.leb_le; reflexivity|symmetry; exact Hi].
Defined.

(** Peer 0 has committed the entry that peer 1 leads with. *)
Definition entry7 : Entry Z := mkLogEntry (Some 7) 1.

Definition committed_then_led (p : cluster Z * cluster Z) : bool :=
  match nodes p.1 !! 0, nodes p.2 !! 1 with
  | Some rf0, Some rf1 =>
      bool_decide (1 <= commitIndex rf0 /\ entry_at rf0 1 = Some entry7 /\ leaderId rf1 = me rf1 /\
                   currentTerm rf0 <= currentTerm rf1 /\ lastAppliedIndex rf1 = -1)
  | _, _ => false
  end.

Lemma halves_led : match in_turn first_half second_half with Some p => committed_then_led p | None => false end = true.
Proof. vm_compute. reflexivity. Qed.

Lemma leader_completeness_witness : exists (s2 : cluster Z) rf1,
  nodes s2 !! 1 = Some rf1 /\ leaderId rf1 = me rf1 /\ (1 <= lastAppliedIndex rf1 \/ entry_at rf1 1 = Some entry7).
Proof.
  pose proof halves_led as Hend. destruct (in_turn _ _) as [[s1 s2]|] eqn:Hrun; [|discriminate Hend].
  apply in_turn_spec in Hrun as [H1 H2]. unfold committed_then_led in Hend. cbn [fst snd] in Hend.
  destruct (nodes s1 !! 0) as [rf0|] eqn:Hrf0; [|discriminate Hend].
  destruct (nodes s2 !! 1) as [rf1|] eqn:Hrf1; [|discriminate Hend].
  apply bool_decide_eq_true in Hend as (Hc & He & Hl & Ht & _).
  exists s2, rf1. split; [exact Hrf1|]. split; [exact Hl|].
  refine (leader_completeness 3 first_half second_half s1 s2 0 1 rf0 rf1 1 entry7
    _ halves_orderly H1 H2 Hrf0 Hc He Hrf1 Hl Ht). apply Nat.leb_le. reflexivity.
Defined.

End Runs.
End SafetySpec.
