(* ===== verification/ReplicatedLog.v ===== *)
(** The abstract specification that the cluster implements in orderly runs: one
    log that only grows, of commands that were proposed before. *)
From S2P Require Import Prelude Labgob Persister RaftState Raft RaftLemmas RaftElection RaftLog RaftSnapshot RaftSteps.
From S2P Require Import Cluster ClusterProofs ClusterSteps LogMatching LogTree Leadership LeaderCompleteness Commitment SafetySpec.
Import Labgob Persist RaftState RaftNode RaftOk RaftElection RaftLog RaftSnapshot RaftSteps.
Import Cluster ClusterOk ClusterSteps LogMatching LogTree Leadership LeaderCompleteness Commitment SafetySpec.
Local Open Scope Z_scope.

Module ReplicatedLog.
Section spec.
Context {Cmd : Type} `{!Gob (gval Cmd)}.
#[local] Abbreviation history := (gmap (Z * Z) (Entry Cmd * Z)).
Implicit Types (rf : Raft Cmd) (s : cluster Cmd) (es : list (event (Cmd := Cmd))) (c : history) (l : list (Entry Cmd)).

(** ** The specification *)

(** What clients proposed, and what is agreed on, from index 0 on. *)
Record spec := mkSpec { proposed : list (option Cmd); agreed : list (option Cmd) }.
Implicit Types sp : spec.

(** Every log begins with an entry without command. *)
Definition spec_init : spec := mkSpec [None] [].

Inductive spec_step : spec -> spec -> Prop :=
| propose cmd sp : spec_step sp (mkSpec (proposed sp ++ [cmd]) (agreed sp))
| agree cmds sp : Forall (.∈ proposed sp) cmds -> spec_step sp (mkSpec (proposed sp) (agreed sp ++ cmds)).

(** ** What a peer shows *)

(** The commands that a peer handed to its service, and those that it counts as
    committed, with their indices. *)
Definition told_commands rf : list (Z * option Cmd) :=
  omap (fun m => if CommandValid m then Some (CommandIndex m, am_Command m) else None) (sender rf).

Definition committed_commands rf : list (Z * option Cmd) :=
  imap (fun k en => (lastAppliedIndex rf + 1 + Z.of_nat k, Command en))
    (take (Z.to_nat (commitIndex rf - lastAppliedIndex rf)) (Log rf)).

Definition shown rf : list (Z * option Cmd) := told_commands rf ++ committed_commands rf.

(** Every peer shows a part of the log that is agreed on. *)
Definition consistent sp s : Prop :=
  forall i rf k cmd, nodes s !! i = Some rf -> (k, cmd) ∈ shown rf -> 0 <= k /\ agreed sp !! Z.to_nat k = Some cmd.

(** What clients proposed in a run. *)
Definition proposal (e : event (Cmd := Cmd)) : list (option Cmd) :=
  match e with ELocal _ (SStart cmd) => [cmd] | _ => [] end.

(** ** Paths of the tree *)

Lemma anc_path c x y : closed c -> anc c x y ->
  exists l, chain c x.2 x.1 l /\ (end_term x.1 l, x.2 + len l) = y.
Proof.
  intros Hcl. induction 1 as [|[T k] e p Hy _ (l & Hl & Hend)].
  - exists []. split; [done|]. destruct x. unfold len. cbn. by rewrite Z.add_0_r.
  - destruct (Hcl _ _ _ _ Hy) as (_ & _ & <- & _). cbn in Hend. injection Hend as Hp Hk. exists (l ++ [e]). split.
    + apply chain_app. split; [done|]. cbn [chain]. rewrite Hp, Hk. by replace (k - 1 + 1) with k by lia.
    + rewrite end_term_app, end_term_cons. cbn. f_equal. unfold len in *. rewrite length_app. cbn. lia.
Qed.

Lemma path_lookup c b t l z e p :
  chain c b t l -> anc c z (end_term t l, b + len l) -> b < z.2 -> c !! z = Some (e, p) ->
  l !! Z.to_nat (z.2 - b - 1) = Some e.
Proof.
  intros Hl Hz Hb Hc. pose proof (anc_index _ _ _ Hz) as Hle. cbn in Hle. unfold len in Hle.
  set (j := Z.to_nat (z.2 - b - 1)). destruct (lookup_lt_is_Some_2 l j) as [e' He']; [lia|]. rewrite He'. f_equal.
  rewrite <- (take_drop_middle l j e' He') in Hl. apply chain_app in Hl as [_ [Hc' Hrest]].
  assert (b + len (take j l) + 1 = z.2) as Hk by (unfold len; rewrite length_take; apply lookup_lt_Some in He'; lia).
  rewrite Hk in Hc', Hrest. apply chain_anc in Hrest.
  assert (anc c (Term e', z.2) (end_term t l, b + len l)) as Ha.
  { replace (end_term t l, b + len l) with (end_term (Term e') (drop (S j) l), z.2 + len (drop (S j) l)); [done|].
    rewrite <- (take_drop_middle l j e' He') at 3 4. rewrite end_term_app, end_term_cons. f_equal.
    unfold len in *. rewrite length_app. cbn. lia. }
  destruct z as [T k]. cbn in *. rewrite (anc_unique _ _ _ _ _ Ha Hz) in Hc'. congruence.
Qed.

Lemma chain_entry c b t l e : chain c b t l -> e ∈ l -> exists z p, c !! z = Some (e, p).
Proof.
  revert b t. induction l as [|x l IH]; intros b t; cbn [chain]; [by intros _ ?%elem_of_nil|].
  intros [Hx Hl] [->|He]%elem_of_cons; [by eexists _, _|by eapply IH].
Qed.

(** ** What is shown lies below one committed entry *)

Section relation.
Context (n : nat) (Hn : (2 <= n)%nat).

(** The command [f.2] is at index [f.1] of the path to [y]. *)
Definition below c y (f : Z * option Cmd) : Prop :=
  exists z e p, anc c z y /\ z.2 = f.1 /\ c !! z = Some (e, p) /\ Command e = f.2.

Definition root_or_committed c s y : Prop := y = root \/ committed n c s y.

Lemma below_anc c y y' f : anc c y y' -> below c y f -> below c y' f.
Proof. intros Ha (z & e & p & Hz & ?). exists z, e, p. split; [by eapply anc_trans|done]. Qed.

Lemma below_index c y f : closed c -> below c y f -> 0 <= f.1.
Proof. intros Hcl ([T k] & e & p & _ & <- & Hc & _). by apply Hcl in Hc as [? _]. Qed.

Lemma announced_below c s m : announced n c s m ->
  exists y, committed n c s y /\ below c y (CommandIndex m, am_Command m).
Proof. intros (y & z & e & p & Hy & ?). exists y. split; [done|]. by exists z, e, p. Qed.

Lemma shown_below c s i rf f : sound n c s -> nodes s !! i = Some rf -> f ∈ shown rf ->
  exists y, committed n c s y /\ below c y f.
Proof.
  intros [[Hinv Hrec _ _ _] _ _ Hco] Hi [Hf|Hf]%elem_of_app.
  - apply list_elem_of_omap in Hf as (m & Hm & Hf). destruct (CommandValid m) eqn:Hv; [|done].
    injection Hf as <-. by apply announced_below, (co_sent _ _ _ Hco i rf m).
  - apply list_elem_of_lookup_1 in Hf as [k Hk]. unfold committed_commands in Hk. rewrite list_lookup_imap in Hk.
    apply fmap_Some in Hk as (en & [Hen Hk]%lookup_take_Some & ->).
    pose (m := mkApplyMsg true (Command en) (lastAppliedIndex rf + 1 + Z.of_nat k) false [] 0 0).
    apply (announced_below c s m). apply (applied_announced n Hn c s i rf m Hrec Hco Hi). split; cbn; [lia|].
    exists en. split; [|done]. unfold entry_at. destruct (Z.gtb_spec (lastAppliedIndex rf + 1 + Z.of_nat k) (lastAppliedIndex rf)); [|lia].
    by replace (Z.to_nat (lastAppliedIndex rf + 1 + Z.of_nat k - lastAppliedIndex rf - 1)) with k by lia.
Qed.

Lemma roots_comparable c s x y : sound n c s ->
  root_or_committed c s x -> root_or_committed c s y -> anc c x y \/ anc c y x.
Proof.
  intros Hs Hx Hy. pose proof (rt_closed _ _ (g_root _ _ _ (s_good _ _ _ Hs))) as Hcl.
  assert (forall z, root_or_committed c s z -> in_tree c z) as Htree.
  { intros z [->|Hz]; [by left|]. by apply (tree_of_committed n c s); [apply Hs|]. }
  destruct Hx as [->|Hx]; [left; by apply anc_root, Htree|]. destruct Hy as [->|Hy]; [right; apply anc_root, Htree; [done|by right]|].
  by apply (committed_comparable n c s).
Qed.

(** Finitely many facts lie below one position, above a given one. *)
Lemma below_all c s y0 (fs : list (Z * option Cmd)) :
  sound n c s -> root_or_committed c s y0 -> Forall (fun f => exists y, committed n c s y /\ below c y f) fs ->
  exists y, root_or_committed c s y /\ anc c y0 y /\ Forall (below c y) fs.
Proof.
  intros Hs Hy0. induction 1 as [|f fs (y1 & Hy1 & Hf) _ (y & Hy & Ha & Hfs)].
  - exists y0. split_and!; [done|constructor|done].
  - destruct (roots_comparable c s y y1 Hs Hy (or_intror Hy1)).
    + exists y1. split_and!; [by right|by eapply anc_trans|]. constructor; [done|].
      eapply Forall_impl; [exact Hfs|]. intros f'. by apply below_anc.
    + exists y. split_and!; [done|done|]. constructor; [by eapply below_anc|done].
Qed.

(** ** The simulation *)

Definition related sp s : Prop :=
  exists c l y, sound n c s /\ (forall z e p, c !! z = Some (e, p) -> Command e ∈ proposed sp) /\
    chain c (-1) 0 l /\ (end_term 0 l, -1 + len l) = y /\ root_or_committed c s y /\
    agreed sp = Command <$> l /\ forall i rf f, nodes s !! i = Some rf -> f ∈ shown rf -> below c y f.

Lemma related_consistent sp s : related sp s -> consistent sp s.
Proof.
  intros (c & l & y & Hs & _ & Hl & <- & _ & Hag & Hsh) i rf k cmd Hi Hf. specialize (Hsh i rf _ Hi Hf).
  pose proof (below_index _ _ _ (rt_closed _ _ (g_root _ _ _ (s_good _ _ _ Hs))) Hsh) as Hk. split; [done|].
  destruct Hsh as (z & e & p & Hz & Hzk & Hc & Hcmd). cbn in Hk, Hzk, Hcmd.
  rewrite Hag, list_lookup_fmap. replace (Z.to_nat k) with (Z.to_nat (z.2 - -1 - 1)) by lia.
  rewrite (path_lookup c _ _ _ _ _ _ Hl Hz ltac:(lia) Hc). cbn. by rewrite Hcmd.
Qed.

Lemma related_init : related spec_init (init n).
Proof.
  exists first_history, [], root. split; [by apply sound_init|]. split_and!; try done.
  - intros z e p Hz. unfold first_history in Hz. apply lookup_singleton_Some in Hz as [_ Hz]. injection Hz as <- _. apply list_elem_of_singleton. done.
  - by left.
  - intros i rf f Hi Hf. exfalso. destruct (shown_below _ _ i rf f (sound_init n Hn) Hi Hf) as (y & _ & z & e & p & _ & _ & Hz & _).
    destruct (init_node n i rf Hi) as [_ ->]. by apply elem_of_nil in Hf.
Qed.

Lemma grow_proposed e s c z en p :
  grow e s c !! z = Some (en, p) -> c !! z = Some (en, p) \/ Command en ∈ proposal e.
Proof.
  destruct (grow_cases e s c) as [(i & cmd & rf & -> & _ & _ & ->)|[-> _]]; [|by left].
  intros [[_ Hz]|[_ Hz]]%lookup_insert_Some; [right|by left]. injection Hz as <- _. by apply list_elem_of_singleton.
Qed.

Lemma related_step sp e s s' :
  related sp s -> orderly e s = true -> step e s = Some s' ->
  exists sp', rtc spec_step sp sp' /\ related sp' s' /\ proposed sp' = proposed sp ++ proposal e.
Proof.
  intros (c & l & y0 & Hs & Hprop & Hl & Hend & Hy0 & Hag & _) Hord Hstep.
  destruct (sound_step n Hn c e s s' Hs Hord Hstep) as (Hs' & Hc & Hm).
  pose proof (rt_closed _ _ (g_root _ _ _ (s_good _ _ _ Hs'))) as Hcl.
  destruct (below_all (grow e s c) s' y0 (map_to_list (nodes s') ≫= fun x => shown x.2) Hs') as (y & Hy & Ha & Hall).
  { destruct Hy0 as [?|?]; [by left|right; by apply Hm]. }
  { apply Forall_forall. intros f (x & Hf & Hx)%list_elem_of_bind. destruct x as [i rf]. apply elem_of_map_to_list in Hx.
    by apply (shown_below _ s' i rf). }
  destruct (anc_path _ _ _ Hcl Ha) as (l2 & Hl2 & Hy2). rewrite <- Hend in Hl2, Hy2. cbn [fst snd] in Hl2, Hy2.
  assert (forall z en p, grow e s c !! z = Some (en, p) -> Command en ∈ proposed sp ++ proposal e) as Hprop'.
  { intros z en p [Hz|Hz]%grow_proposed; apply elem_of_app; [left; by eapply Hprop|by right]. }
  exists (mkSpec (proposed sp ++ proposal e) (agreed sp ++ (Command <$> l2))). split_and!; [|exists (grow e s c), (l ++ l2), y|done].
  - transitivity (mkSpec (proposed sp ++ proposal e) (agreed sp)).
    + unfold proposal. destruct e; try (rewrite app_nil_r; by destruct sp). destruct x; try (rewrite app_nil_r; by destruct sp).
      apply rtc_once, propose.
    + apply rtc_once, (agree _ (mkSpec (proposed sp ++ proposal e) (agreed sp))), Forall_fmap, Forall_forall. intros en Hen.
      destruct (chain_entry _ _ _ _ _ Hl2 Hen) as (z & p & Hz). by eapply Hprop'.
  - split_and!; [done|done| | |done| |].
    + apply chain_app. split; [by eapply chain_mono|done].
    + rewrite end_term_app, <- Hy2. f_equal. unfold len. rewrite length_app. lia.
    + cbn. by rewrite fmap_app, Hag.
    + intros i rf f Hi Hf. eapply Forall_forall in Hall; [exact Hall|]. apply list_elem_of_bind. exists (i, rf).
      split; [done|by apply elem_of_map_to_list].
Qed.

End relation.

(** ** The refinement *)

(** Along the run the specification keeps step: it takes up the proposals, it
    may agree on more commands, and it stays consistent with what is shown. *)
Fixpoint refines es s sp : Prop :=
  consistent sp s /\
  match es with
  | [] => True
  | e :: es => exists s' sp', step e s = Some s' /\ rtc spec_step sp sp' /\
                 proposed sp' = proposed sp ++ proposal e /\ refines es s' sp'
  end.

(** C2. The cluster is a replicated log: every orderly run of two peers or more
    refines the specification of one log that only grows and only takes up
    commands which were passed to some [Start] before.  After every event,
    whatever any peer has handed to its service and whatever is in its log up
    to its [commitIndex] stands in that log at the same index. *)
Theorem replicated_log n es s :
  (2 <= n)%nat -> orderly_run es (init n) = true -> steps es (init n) = Some s -> refines es (init n) spec_init.
Proof.
  intros Hn. generalize (related_init n Hn). generalize spec_init, (init n).
  induction es as [|e es IH]; intros sp s0 Hrel; cbn [orderly_run steps refines].
  { intros _ _. split; [by eapply related_consistent|done]. }
  intros [Ho Hr]%andb_true_iff. destruct (step e s0) as [s1|] eqn:Hstep; [|done]. intros Hrun.
  split; [by eapply related_consistent|].
  destruct (related_step n Hn sp e s0 s1 Hrel Ho Hstep) as (sp' & Hsp & Hrel' & Hp).
  exists s1, sp'. split_and!; [done..|]. by apply IH.
Qed.

End spec.

Module Witness.
#[local] Existing Instance Runs.Z_Gob.

Definition run : list (event (Cmd := Z)) := Runs.whole.

Lemma run_ends : bool_decide (is_Some (steps run (init 3))) = true.
Proof. vm_compute. reflexivity. Qed.

Lemma replicated_log_witness : refines run (init 3) spec_init.
Proof.
  pose proof (bool_decide_eq_true_1 _ run_ends) as [s Hs].
  apply (replicated_log 3 run s); [apply Nat.leb_le; reflexivity|exact Runs.whole_orderly|exact Hs].
Defined.

End Witness.
End ReplicatedLog.
