(* ===== verification/CatchUp.v ===== *)
(** Replication between a leader and one follower when every message arrives in
    time: how the follower catches up, and when it never does. *)
From S2P Require Import Prelude Labgob Persister RaftState Raft RaftLemmas RaftLog RaftSnapshot RaftSteps.
From S2P Require Import Cluster Leadership SafetySpec.
Import Labgob Persist RaftState RaftNode RaftOk RaftLog RaftSnapshot RaftSteps Cluster Leadership.
Local Open Scope Z_scope.

Module CatchUp.
Section pair.
Context {Cmd : Type} `{!Gob (gval Cmd)}.
Implicit Types (rf ld fl : Raft Cmd).

(** ** One exchange *)

(** A round of the leader [ld] as far as its follower [fl], number [j], is
    concerned: [sendAERpcs] chooses the worker, the follower handles the request
    at time [now], and the reply arrives in time. *)
Definition exchange (j : Z) (now r : Z) (p : Raft Cmd * Raft Cmd) : res (Raft Cmd * Raft Cmd) :=
  let '(ld, fl) := p in
  let! next := go_index (nextIndex ld) j in
  if next - 1 <? lastAppliedIndex ld then
    match InstallSnapshotSender_send (currentTerm ld) ld with
    | None => Ret (ld, fl)
    | Some args =>
        let! (fl, reply, spawned) := InstallSnapshot now r args fl in
        let! fl := match spawned with Some (index, snap) => doSnapshot index snap fl | None => Ret fl end in
        let! ld := InstallSnapshotSender_recv j true reply ld in
        Ret (ld, fl)
    end
  else
    let! args := appendRPCWorker_send j (currentTerm ld) ld in
    match args with
    | None => Ret (ld, fl)
    | Some args =>
        let! (fl, reply) := AppendEntries now r args fl in
        let! (ld, _) := appendRPCWorker_recv j (currentTerm ld) args true reply 0 ld in
        Ret (ld, fl)
    end.

(** One exchange for every time of the list. *)
Fixpoint exchanges (j : Z) (ts : list (Z * Z)) (p : Raft Cmd * Raft Cmd) : res (Raft Cmd * Raft Cmd) :=
  match ts with
  | [] => Ret p
  | (now, r) :: ts => let! p := exchange j now r p in exchanges j ts p
  end.

(** ** Well-formed pairs *)

Record pair_ok (j next : Z) ld fl : Prop := {
  po_leads : leaderId ld = me ld;
  po_term : currentTerm fl <= currentTerm ld;
  po_low : -1 <= lastAppliedIndex fl;
  po_applied : -1 <= lastApplied ld;
  po_index : 0 <= j;
  po_next : nextIndex ld !! Z.to_nat j = Some next;
  po_range : 0 <= next <= last_index ld + 1;
  po_match : is_Some (matchIndex ld !! Z.to_nat j);
}.

(** The follower's snapshot is not ahead of the leader's. *)
Definition behind ld fl : Prop :=
  lastAppliedIndex fl <= lastAppliedIndex ld /\
  (lastAppliedIndex fl = lastAppliedIndex ld -> lastAppliedTerm fl = lastAppliedTerm ld).

(** Log matching. *)
Definition matching ld fl : Prop :=
  forall k t m e e', term_at ld k = Some t -> term_at fl k = Some t -> m <= k ->
    entry_at ld m = Some e -> entry_at fl m = Some e' -> e = e'.

(** The parts of the leader that exchanges leave alone. *)
Definition leader_part rf :=
  (Log rf, lastAppliedIndex rf, lastAppliedTerm rf, (currentTerm rf, leaderId rf, me rf, lastApplied rf, commitIndex rf),
   (npeers rf, dead rf, sender rf)).

(** What the answer of the peer [j] does to the leader. *)
Record moves (j : Z) ld ld' : Prop := {
  mv_part : leader_part ld' = leader_part ld;
  mv_len : length (matchIndex ld') = length (matchIndex ld);
  mv_else : forall l, l <> Z.to_nat j -> nextIndex ld' !! l = nextIndex ld !! l /\ matchIndex ld' !! l = matchIndex ld !! l;
}.

Definition caught_up (j : Z) ld fl : Prop :=
  nextIndex ld !! Z.to_nat j = Some (last_index ld + 1) /\ matchIndex ld !! Z.to_nat j = Some (last_index ld) /\
  term_at fl (last_index ld) = term_at ld (last_index ld).

Lemma leader_part_log rf rf' : leader_part rf' = leader_part rf ->
  last_index rf' = last_index rf /\ (forall k, term_at rf' k = term_at rf k) /\ (forall k, entry_at rf' k = entry_at rf k) /\
  lastAppliedIndex rf' = lastAppliedIndex rf /\ lastAppliedTerm rf' = lastAppliedTerm rf /\
  currentTerm rf' = currentTerm rf /\ leaderId rf' = leaderId rf /\ me rf' = me rf /\ lastApplied rf' = lastApplied rf.
Proof.
  unfold leader_part, last_index, term_at, entry_at. intros [= -> -> -> -> -> -> -> _ _ _ _]. by split_and!.
Qed.

Lemma go_index_lookup {A} (l : list A) i x : 0 <= i -> l !! Z.to_nat i = Some x -> go_index l i = Ret x.
Proof. intros Hi Hx. by apply go_index_ret. Qed.

Lemma go_set_lookup {A} (l : list A) i x y : 0 <= i -> l !! Z.to_nat i = Some x -> go_set l i y = Ret (<[Z.to_nat i := y]> l).
Proof. intros Hi Hx%lookup_lt_Some. apply go_set_in. unfold len. lia. Qed.

Lemma lookup_insert_some {A} (l : list A) i x y : l !! i = Some x -> <[i := y]> l !! i = Some y.
Proof. intros Hx%lookup_lt_Some. by apply list_lookup_insert_eq. Qed.

(** ** What the leader does with a reply *)

Lemma recv_accept j args reply next ld fl :
  pair_ok j next ld fl -> aer_Term reply <= currentTerm ld -> Success reply = true ->
  exists ld', (forall count, appendRPCWorker_recv j (currentTerm ld) args true reply count ld = Ret (ld', count + 1)) /\
    moves j ld ld' /\ nextIndex ld' !! Z.to_nat j = Some (next + len (Entries args)) /\
    matchIndex ld' !! Z.to_nat j = Some (next + len (Entries args) - 1).
Proof.
  intros [Hl _ _ _ Hj Hn _ [m Hm]] Ht Hs.
  eexists. split; [intros count; unfold appendRPCWorker_recv; rewrite Hl, !Z.eqb_refl, Hs; cbn [negb orb];
    destruct (Z.gtb_spec (aer_Term reply) (currentTerm ld)); [lia|];
    rewrite (go_index_lookup _ _ _ Hj Hn); cbn [rbind]; rewrite (go_set_lookup _ _ _ _ Hj Hn); cbn [rbind set_nextIndex nextIndex matchIndex];
    rewrite (go_index_lookup _ _ _ Hj (lookup_insert_some _ _ _ _ Hn)); cbn [rbind]; rewrite (go_set_lookup _ _ _ _ Hj Hm); reflexivity|].
  split_and!; [split; cbn; [done|by rewrite length_insert|]|by eapply lookup_insert_some|by eapply lookup_insert_some].
  intros l Hne. by rewrite !list_lookup_insert_ne.
Qed.

Lemma recv_reject j args reply next ld fl :
  pair_ok j next ld fl -> aer_Term reply <= currentTerm ld -> Success reply = false ->
  exists ld', (forall count, appendRPCWorker_recv j (currentTerm ld) args true reply count ld = Ret (ld', count)) /\
    moves j ld ld' /\ nextIndex ld' !! Z.to_nat j = Some (Z.min (lastApplied ld + 1) (next / 2)) /\
    matchIndex ld' = matchIndex ld.
Proof.
  intros [Hl _ _ _ Hj Hn Hr _] Ht Hs.
  eexists. split; [intros count; unfold appendRPCWorker_recv; rewrite Hl, !Z.eqb_refl, Hs; cbn [negb orb];
    destruct (Z.gtb_spec (aer_Term reply) (currentTerm ld)); [lia|];
    rewrite (go_index_lookup _ _ _ Hj Hn); cbn [rbind]; rewrite (go_set_lookup _ _ _ _ Hj Hn); reflexivity|].
  split_and!; [split; cbn; [done..|]| |done].
  - intros l Hne. by rewrite list_lookup_insert_ne.
  - rewrite <- Z.quot_div_nonneg, <- min_Z by lia. by eapply lookup_insert_some.
Qed.

Lemma recv_snapshot j reply next ld fl :
  pair_ok j next ld fl -> isr_Term reply <= currentTerm ld ->
  exists ld', InstallSnapshotSender_recv j true reply ld = Ret ld' /\ moves j ld ld' /\
    nextIndex ld' !! Z.to_nat j = Some (lastAppliedIndex ld + 1) /\ is_Some (matchIndex ld' !! Z.to_nat j).
Proof.
  intros [Hl _ _ _ Hj Hn Hr [m Hm]] Ht. unfold InstallSnapshotSender_recv. cbn [negb].
  destruct (Z.gtb_spec (isr_Term reply) (currentTerm ld)); [lia|].
  rewrite (go_set_lookup _ _ _ _ Hj Hn). cbn [rbind set_nextIndex nextIndex matchIndex].
  rewrite (go_index_lookup _ _ _ Hj (lookup_insert_some _ _ _ _ Hn)). cbn [rbind]. rewrite (go_set_lookup _ _ _ _ Hj Hm).
  eexists. split_and!; [done|split; cbn; [done|by rewrite length_insert|]|by eapply lookup_insert_some|eexists; by eapply lookup_insert_some].
  intros l Hne. by rewrite !list_lookup_insert_ne.
Qed.

(** ** The request *)

(** What the leader sends when it sends entries. *)
Definition request (next : Z) ld : AppendEntriesArgs Cmd :=
  mkAEArgs (currentTerm ld) (me ld) (next - 1) (default 0 (term_at ld (next - 1)))
    (drop (Z.to_nat (next - lastAppliedIndex ld - 1)) (Log ld)) (commitIndex ld).

Lemma send_request j next ld fl :
  pair_ok j next ld fl -> -1 <= lastAppliedIndex ld -> lastAppliedIndex ld < next ->
  appendRPCWorker_send j (currentTerm ld) ld = Ret (Some (request next ld)) /\
  term_at ld (next - 1) = Some (PrevLogTerm (request next ld)) /\
  next + len (Entries (request next ld)) = last_index ld + 1.
Proof.
  intros [Hl _ _ _ Hj Hn Hr _] Hlow Hs.
  destruct (appendRPCWorker_send_eq j (currentTerm ld) next ld (go_index_lookup _ _ _ Hj Hn)) as (t & Ht & Heq); [lia|lia|done|done|].
  unfold request. rewrite Ht. cbn. split_and!; [done|done|]. unfold last_index, len in *. rewrite length_drop. lia.
Qed.

(** ** What the follower does with it *)

Definition log_of rf := (Log rf, lastAppliedIndex rf, lastAppliedTerm rf).

Lemma log_of_same rf rf' : log_of rf' = log_of rf ->
  last_index rf' = last_index rf /\ (forall k, term_at rf' k = term_at rf k) /\ (forall k, entry_at rf' k = entry_at rf k) /\
  lastAppliedIndex rf' = lastAppliedIndex rf.
Proof. unfold log_of, last_index, term_at, entry_at. by intros [= -> -> ->]. Qed.

Lemma append_outcome now r args fl :
  currentTerm fl <= ae_Term args -> ~ prev_at_snapshot args fl ->
  exists fl' reply, AppendEntries now r args fl = Ret (fl', reply) /\ aer_Term reply = currentTerm fl /\
    currentTerm fl' = ae_Term args /\ Success reply = bool_decide (accepts args fl) /\
    lastAppliedIndex fl' = lastAppliedIndex fl /\ lastAppliedTerm fl' = lastAppliedTerm fl /\
    (accepts args fl -> log_of fl' = log_of (append_entries args fl)) /\
    (~ accepts args fl -> exists k, Log fl' = take k (Log fl)).
Proof.
  intros Ht Hp. unfold AppendEntries. rewrite AppendEntries_body_eq.
  pose proof (adopt_leader_log (ae_Term args) (ae_LeaderId args) fl) as Hlog.
  destruct (adopt_leader_state (ae_Term args) (ae_LeaderId args) fl) as (Hct & _).
  set (rf1 := adopt_leader (ae_Term args) (ae_LeaderId args) fl) in *. unfold log_part in Hlog. injection Hlog as Hl _ _ Hi Hlt _ _ _ _ _ _.
  destruct (decide (accepts args fl)) as [Ha|Ha].
  { cbn [rbind]. eexists _, _. split; [done|]. cbn [aer_Term Success]. rewrite bool_decide_true by done.
    unfold advance_commit, append_entries. split_and!; try done; repeat case_cond; cbn; rewrite ?Hct; try done; try lia.
    - intros _. unfold log_of. cbn. by rewrite Hl, Hi, Hlt.
    - intros _. unfold log_of. cbn. by rewrite Hl, Hi, Hlt.
    - intros _. unfold log_of. cbn. by rewrite Hl, Hi, Hlt.
    - intros _. unfold log_of. cbn. by rewrite Hl, Hi, Hlt. }
  rewrite decide_False by done. destruct (Z.ltb_spec (ae_Term args) (currentTerm fl)); [lia|].
  rewrite bool_decide_false by done. case_cond; cbn [rbind]; eexists _, _; (split; [done|]); cbn; rewrite Hct; split_and!; try done; try lia.
  - intros _. exists (length (Log fl)). by rewrite Hl, firstn_all.
  - intros _. rewrite Hl. by eexists.
Qed.

(** A shorter log matches as well. *)
Lemma matching_take k ld fl fl' :
  matching ld fl -> Log fl' = take k (Log fl) -> lastAppliedIndex fl' = lastAppliedIndex fl ->
  lastAppliedTerm fl' = lastAppliedTerm fl -> matching ld fl'.
Proof.
  intros Hm Hl Hi Ht. assert (forall m e, entry_at fl' m = Some e -> entry_at fl m = Some e) as He.
  { intros m e. unfold entry_at. rewrite Hl, Hi. case_cond; [|done]. by intros [? _]%lookup_take_Some. }
  intros i t m e e' Hil Hif Hmi Hel Hef. eapply Hm; [exact Hil| |exact Hmi|done|by apply He].
  revert Hif. unfold term_at. rewrite Hi, Ht. case_cond; [done|]. intros (x & Hx & ->)%fmap_Some.
  apply He in Hx. by rewrite Hx.
Qed.

(** What an accepted request leaves in the follower's log. *)
Lemma append_matching next ld fl fl' :
  -1 <= lastAppliedIndex ld -> lastAppliedIndex ld < next <= last_index ld + 1 -> lastAppliedIndex fl <= lastAppliedIndex ld ->
  term_at ld (next - 1) = Some (PrevLogTerm (request next ld)) -> accepts (request next ld) fl ->
  log_of fl' = log_of (append_entries (request next ld) fl) -> matching ld fl ->
  matching ld fl' /\ term_at fl' (last_index ld) = term_at ld (last_index ld).
Proof.
  intros Hlow Hr Hb Ht (_ & Hprev & Hacc) Hlog Hm. cbn [PrevLogIndex request] in Hprev, Hacc.
  apply log_of_same in Hlog as (Hlast & Hterm & Hentry & Hi).
  destruct (decide (Entries (request next ld) = [])) as [Hnil|Hne].
  { rewrite append_entries_nil in Hterm, Hentry by done.
    assert (last_index ld = next - 1) as Hn.
    { unfold request in Hnil. cbn in Hnil. apply (f_equal length) in Hnil. rewrite length_drop in Hnil. cbn in Hnil.
      unfold last_index, len in *. lia. }
    rewrite Hn, Hterm, Hacc, Ht. split; [|done]. intros k t m e e'. rewrite Hterm, Hentry. apply Hm. }
  assert (forall m e e', entry_at ld m = Some e -> entry_at fl' m = Some e' -> e = e') as Hall.
  { intros m e e' He. rewrite Hentry, entry_at_append by done. cbn [PrevLogIndex request Entries].
    destruct (Z.leb_spec m (next - 1)) as [Hle|Hgt]; [intros He'; eapply (Hm (next - 1)); eauto|].
    intros He'. rewrite lookup_drop in He'. unfold entry_at in He. case_cond; [|done].
    replace (Z.to_nat (next - lastAppliedIndex ld - 1) + Z.to_nat (m - (next - 1) - 1))%nat
      with (Z.to_nat (m - lastAppliedIndex ld - 1)) in He' by lia. congruence. }
  split; [intros k t m e e' _ _ _; apply Hall|].
  assert (last_index fl' = last_index ld) as Hl2.
  { rewrite Hlast, last_index_append by done. unfold request, last_index, len in *. cbn. rewrite length_drop. lia. }
  assert (lastAppliedIndex fl' = lastAppliedIndex fl) as Hi' by (rewrite Hi; unfold append_entries; by case_cond).
  assert (next <= last_index ld) as Hlt.
  { destruct (decide (next <= last_index ld)); [done|]. exfalso. apply Hne. cbn. apply drop_ge. unfold last_index, len in *. lia. }
  destruct (entry_at_in fl' (last_index ld)) as (e' & _ & He'); [lia|]. destruct (entry_at_in ld (last_index ld)) as (e & _ & He); [lia|].
  unfold term_at. rewrite He, He', (Hall _ _ _ He He'). destruct (Z.eqb_spec (last_index ld) (lastAppliedIndex fl')); [lia|].
  by destruct (Z.eqb_spec (last_index ld) (lastAppliedIndex ld)); [lia|].
Qed.

(** What a snapshot of the leader leaves in the follower's log. *)
Lemma install_outcome now r args ld fl :
  currentTerm fl <= currentTerm ld -> InstallSnapshotSender_send (currentTerm ld) ld = Some args ->
  behind ld fl -> -1 <= lastAppliedIndex fl -> matching ld fl ->
  exists fl1 fl' reply snap, InstallSnapshot now r args fl = Ret (fl1, reply, Some (lastAppliedIndex ld, snap)) /\
    lastAppliedIndex fl1 = lastAppliedIndex ld /\
    doSnapshot (lastAppliedIndex ld) snap fl1 = Ret fl' /\ isr_Term reply = currentTerm fl /\
    currentTerm fl' = currentTerm ld /\ lastAppliedIndex fl' = lastAppliedIndex ld /\
    lastAppliedTerm fl' = lastAppliedTerm ld /\ matching ld fl'.
Proof.
  intros Ht Hargs [Hle Heq] Hlow Hm. unfold InstallSnapshotSender_send in Hargs. case_cond; [done|]. injection Hargs as <-.
  rewrite InstallSnapshot_eq. cbn [is_Term is_LeaderId LastIncludedIndex is_Data].
  destruct (Z.ltb_spec (currentTerm ld) (currentTerm fl)); [lia|].
  pose proof (adopt_leader_log (currentTerm ld) (leaderId ld) fl) as Hlog.
  destruct (adopt_leader_state (currentTerm ld) (leaderId ld) fl) as (Hct & _).
  set (rf1 := adopt_leader (currentTerm ld) (leaderId ld) fl) in *. unfold log_part in Hlog. injection Hlog as Hl _ _ Hi Hlt _ _ _ _ _ _.
  set (args := mkISArgs _ _ _ _ _). set (fl1 := updateElectionTimeout now r (cover args rf1)).
  assert (lastAppliedIndex fl1 = lastAppliedIndex ld /\ lastAppliedTerm fl1 = lastAppliedTerm ld /\ currentTerm fl1 = currentTerm ld /\
    exists k, Log fl1 = drop k (Log fl) /\ (k = Z.to_nat (lastAppliedIndex ld - lastAppliedIndex fl) \/ Log fl1 = [])) as (Hi1 & Ht1 & Hc1 & k & Hk & Hk').
  { unfold fl1, cover, args. cbn. destruct (Z.leb_spec (last_index rf1) (lastAppliedIndex ld)); cbn.
    { split_and!; [done|done|lia|]. exists (length (Log fl)). split; [by rewrite drop_all|by right]. }
    destruct (Z.ltb_spec (lastAppliedIndex rf1) (lastAppliedIndex ld)); cbn.
    { split_and!; [done|done|lia|]. eexists. rewrite Hl, Hi. split; [done|by left]. }
    split_and!; [lia|rewrite Hlt; apply Heq; lia|lia|]. exists 0%nat. rewrite Hl. split; [done|left; lia]. }
  destruct (doSnapshot_eq (lastAppliedIndex ld) (ReadSnapshot (persister ld)) fl1) as (t & Hterm & Hdo).
  { unfold last_index. pose proof (len_nonneg (Log fl1)). lia. }
  eexists fl1, _, _, _. split_and!; [done|done|exact Hdo|done|done|done| |].
  - cbn. unfold term_at in Hterm. rewrite Hi1, Z.eqb_refl in Hterm. congruence.
  - set (fl' := snapshotted _ _ _ _).
    assert (forall m e, entry_at fl' m = Some e -> entry_at fl m = Some e /\ lastAppliedIndex ld < m) as He.
    { intros m e. unfold fl'. destruct (decide (lastAppliedIndex ld < m)) as [Hlm|].
      2: { unfold entry_at. cbn. destruct (Z.gtb_spec m (lastAppliedIndex ld)); [lia|done]. }
      rewrite entry_at_snapshotted by lia. unfold entry_at. rewrite Hi1, Hk. case_cond; [|done]. rewrite lookup_drop.
      destruct Hk' as [->|Hnil]; [|rewrite <- lookup_drop, <- Hk, Hnil; done].
      intros Hx. zbool. destruct (Z.gtb_spec m (lastAppliedIndex fl)); [|lia]. split; [|done]. rewrite <- Hx. f_equal. lia. }
    intros i t' m e e' Hil Hif Hmi Hel Hef. apply He in Hef as [Hef Hlm].
    apply (Hm i t' m); [done| |done|done|done]. unfold term_at in Hif |- *. cbn in Hif.
    destruct (Z.eqb_spec i (lastAppliedIndex ld)); [lia|]. apply fmap_Some in Hif as (x & Hx & ->).
    apply He in Hx as [Hx _]. rewrite Hx. by destruct (Z.eqb_spec i (lastAppliedIndex fl)); [lia|].
Qed.

(** ** One exchange of a well-formed pair *)

(** The pair after an exchange whose reply made [next'] of [next]. *)
Lemma pair_ok_after j next next' ld fl ld' fl' :
  pair_ok j next ld fl -> leader_part ld' = leader_part ld -> currentTerm fl' <= currentTerm ld ->
  -1 <= lastAppliedIndex fl' -> nextIndex ld' !! Z.to_nat j = Some next' -> 0 <= next' <= last_index ld + 1 ->
  is_Some (matchIndex ld' !! Z.to_nat j) -> pair_ok j next' ld' fl'.
Proof.
  intros [Hl _ _ Ha Hj _ _ _] Hp Ht Hlow Hn Hr Hm.
  destruct (leader_part_log _ _ Hp) as (Hlast & _ & _ & _ & _ & Hct & Hlid & Hme & Hap). split; congruence || lia.
Qed.

Lemma matching_part ld ld' fl : leader_part ld' = leader_part ld -> matching ld fl -> matching ld' fl.
Proof.
  intros (_ & Ht & He & _)%leader_part_log Hm k t m e e'. rewrite Ht, He. apply Hm.
Qed.

(** What one exchange does: a snapshot brings the follower to the leader's
    snapshot; an accepted request makes it catch up; a rejected one at least
    halves [nextIndex]. *)
Inductive progress (j next : Z) ld fl ld' fl' : Prop :=
| by_snapshot : next <= lastAppliedIndex ld -> nextIndex ld' !! Z.to_nat j = Some (lastAppliedIndex ld + 1) ->
    lastAppliedIndex fl' = lastAppliedIndex ld -> lastAppliedTerm fl' = lastAppliedTerm ld -> progress j next ld fl ld' fl'
| by_entries : lastAppliedIndex ld < next -> caught_up j ld' fl' -> progress j next ld fl ld' fl'
| by_halving next' : lastAppliedIndex ld < next -> ~ accepts (request next ld) fl ->
    nextIndex ld' !! Z.to_nat j = Some next' -> next' <= next / 2 -> progress j next ld fl ld' fl'.

(** An exchange of the two kinds, message by message: the pair that it leaves. *)
Definition leaves (j next : Z) ld fl ld' fl' : Prop :=
  moves j ld ld' /\ exists next', pair_ok j next' ld' fl' /\ behind ld' fl' /\ matching ld' fl' /\ progress j next ld fl ld' fl'.

Lemma snapshot_exchange j now r next ld fl :
  pair_ok j next ld fl -> behind ld fl -> matching ld fl -> next - 1 < lastAppliedIndex ld ->
  exists args fl1 reply snap fl' ld', InstallSnapshotSender_send (currentTerm ld) ld = Some args /\
    InstallSnapshot now r args fl = Ret (fl1, reply, Some (lastAppliedIndex ld, snap)) /\
    lastAppliedIndex fl1 = lastAppliedIndex ld /\ doSnapshot (lastAppliedIndex ld) snap fl1 = Ret fl' /\
    InstallSnapshotSender_recv j true reply ld = Ret ld' /\ leaves j next ld fl ld' fl'.
Proof.
  intros Hok Hb Hm Hs. pose proof Hok as [Hl Ht Hlow Hap Hj Hn Hr Hmt].
  assert (exists args, InstallSnapshotSender_send (currentTerm ld) ld = Some args) as [args Hargs].
  { unfold InstallSnapshotSender_send. rewrite Hl, !Z.eqb_refl. by eexists. }
  destruct (install_outcome now r args ld fl Ht Hargs Hb Hlow Hm)
    as (fl1 & fl' & reply & snap & Hin & Hi1 & Hdo & Hrt & Hct & Hi & Hlt & Hm').
  destruct (recv_snapshot j reply next ld fl Hok) as (ld' & Hrecv & Hmv & Hn' & Hmt'); [lia|].
  exists args, fl1, reply, snap, fl', ld'. split_and!; [done..|]. split; [done|].
  pose proof (mv_part _ _ _ Hmv) as Hp. exists (lastAppliedIndex ld + 1).
  split_and!; [| |by apply (matching_part ld)|by apply by_snapshot; [lia|..]].
  - apply (pair_ok_after j next _ ld fl); try done; try lia. unfold last_index in *. pose proof (len_nonneg (Log ld)). lia.
  - apply leader_part_log in Hp as (_ & _ & _ & Hli & Hllt & _). split; [lia|congruence].
Qed.

Lemma request_exchange j now r next ld fl :
  pair_ok j next ld fl -> behind ld fl -> matching ld fl -> lastAppliedIndex ld <= next - 1 ->
  exists fl' reply ld', appendRPCWorker_send j (currentTerm ld) ld = Ret (Some (request next ld)) /\
    AppendEntries now r (request next ld) fl = Ret (fl', reply) /\ Success reply = bool_decide (accepts (request next ld) fl) /\
    (forall count, appendRPCWorker_recv j (currentTerm ld) (request next ld) true reply count ld =
       Ret (ld', if Success reply then count + 1 else count)) /\
    leaves j next ld fl ld' fl' /\ (Success reply = true -> caught_up j ld' fl').
Proof.
  intros Hok [Hle Heq] Hm Hs. pose proof Hok as [Hl Ht Hlow Hap Hj Hn Hr Hmt].
  destruct (send_request j next ld fl Hok) as (Hsend & Hpt & Hlen); [lia..|].
  destruct (append_outcome now r (request next ld) fl) as (fl' & reply & Hrun & Hrt & Hct & Hsucc & Hi & Hlt & Hyes & Hno).
  { done. }
  { intros (_ & Hpi & Hpne). cbn [PrevLogIndex request] in Hpi. apply Hpne.
    assert (lastAppliedIndex fl = lastAppliedIndex ld) as He by lia. rewrite (Heq He).
    rewrite Hpi, He in Hpt. unfold term_at in Hpt. rewrite Z.eqb_refl in Hpt. congruence. }
  change (ae_Term (request next ld)) with (currentTerm ld) in *. destruct (decide (accepts (request next ld) fl)) as [Ha|Ha].
  - rewrite bool_decide_true in Hsucc by done.
    destruct (recv_accept j (request next ld) reply next ld fl Hok) as (ld' & Hrecv & Hmv & Hn' & Hmt'); [lia|done|].
    destruct (append_matching next ld fl fl') as [Hm' Hlast]; [lia|lia|done..|by apply Hyes|done|].
    rewrite Hlen in Hn', Hmt'. exists fl', reply, ld'.
    pose proof (mv_part _ _ _ Hmv) as Hp. pose proof (leader_part_log _ _ Hp) as (Hll & Hlterm & _ & Hli & Hllt & _).
    assert (caught_up j ld' fl') as Hc.
    { unfold caught_up. rewrite Hll, Hlterm. split_and!; [done| |done]. rewrite Hmt'. f_equal. lia. }
    split_and!; [done|done|by rewrite bool_decide_true|intros count; by rewrite Hsucc|split; [done|]|done]. exists (last_index ld + 1).
    split_and!; [|split; [lia|intros; rewrite Hlt, Hllt; apply Heq; lia]|by apply (matching_part ld)|by apply by_entries; [lia|]].
    apply (pair_ok_after j next _ ld fl); try done; try lia.
  - rewrite bool_decide_false in Hsucc by done.
    destruct (recv_reject j (request next ld) reply next ld fl Hok) as (ld' & Hrecv & Hmv & Hn' & Hmt'); [lia|done|].
    exists fl', reply, ld'. pose proof (mv_part _ _ _ Hmv) as Hp. pose proof (leader_part_log _ _ Hp) as (_ & _ & _ & Hli & Hllt & _).
    split_and!; [done|done|by rewrite bool_decide_false|intros count; by rewrite Hsucc|split; [done|]|congruence].
    exists (Z.min (lastApplied ld + 1) (next / 2)). destruct (Hno Ha) as [k Hk].
    split_and!; [|split; [lia|intros; rewrite Hlt, Hllt; apply Heq; lia]|eapply matching_part, matching_take; eauto|
      eapply by_halving; [lia|done..|lia]].
    apply (pair_ok_after j next _ ld fl); try done; try lia; [|by rewrite Hmt'].
    pose proof (Z.div_le_upper_bound next 2 next). pose proof (Z.div_pos next 2). lia.
Qed.

Lemma exchange_progress j now r next ld fl :
  pair_ok j next ld fl -> behind ld fl -> matching ld fl ->
  exists ld' fl' next', exchange j now r (ld, fl) = Ret (ld', fl') /\ leader_part ld' = leader_part ld /\
    pair_ok j next' ld' fl' /\ behind ld' fl' /\ matching ld' fl' /\ progress j next ld fl ld' fl'.
Proof.
  intros Hok Hb Hm. unfold exchange. rewrite (go_index_lookup _ _ _ (po_index _ _ _ _ Hok) (po_next _ _ _ _ Hok)). cbn [rbind].
  destruct (Z.ltb_spec (next - 1) (lastAppliedIndex ld)) as [Hs|Hs].
  - destruct (snapshot_exchange j now r next ld fl Hok Hb Hm Hs) as (args & fl1 & reply & snap & fl' & ld' & -> & -> & _ & Hdo & Hrecv & [Hp] & next' & ?).
    cbn [rbind]. rewrite Hdo. cbn [rbind]. rewrite Hrecv. cbn [rbind]. by exists ld', fl', next'.
  - destruct (request_exchange j now r next ld fl Hok Hb Hm Hs) as (fl' & reply & ld' & -> & Hrun & _ & Hrecv & [[Hp _ _] (next' & ?)] & _).
    cbn [rbind]. rewrite Hrun. cbn [rbind]. rewrite Hrecv. cbn [rbind]. by exists ld', fl', next'.
Qed.

(** ** Catching up *)

(** A request that follows the leader's last entry, or the common snapshot, is
    accepted. *)
Lemma accepts_last j ld fl : pair_ok j (last_index ld + 1) ld fl -> behind ld fl -> caught_up j ld fl ->
  accepts (request (last_index ld + 1) ld) fl.
Proof.
  intros [_ Ht _ _ _ _ _ _] [Hle _] (_ & _ & Hterm).
  assert (is_Some (term_at ld (last_index ld))) as [t Hl].
  { apply term_at_in. unfold last_index. pose proof (len_nonneg (Log ld)). lia. }
  assert (last_index ld <= last_index fl) as Hlast.
  { destruct (decide (last_index ld <= last_index fl)); [done|exfalso]. rewrite Hl in Hterm. unfold term_at in Hterm.
    rewrite entry_at_out in Hterm by lia. pose proof (len_nonneg (Log fl)). unfold last_index in *.
    destruct (Z.eqb_spec (len (Log ld) + lastAppliedIndex ld) (lastAppliedIndex fl)); [lia|done]. }
  unfold accepts, request. cbn. replace (last_index ld + 1 - 1) with (last_index ld) by lia. rewrite Hl in *. cbn.
  split_and!; [done| |done|done]. unfold last_index in *. pose proof (len_nonneg (Log ld)). lia.
Qed.

Lemma accepts_base j ld fl : pair_ok j (lastAppliedIndex ld + 1) ld fl -> lastAppliedIndex fl = lastAppliedIndex ld ->
  lastAppliedTerm fl = lastAppliedTerm ld -> accepts (request (lastAppliedIndex ld + 1) ld) fl.
Proof.
  intros [_ Ht _ _ _ _ _ _] Hi Hlt. unfold accepts, request. cbn.
  replace (lastAppliedIndex ld + 1 - 1) with (lastAppliedIndex ld) by lia. unfold term_at.
  rewrite Hi, Z.eqb_refl. cbn. pose proof (len_nonneg (Log fl)). unfold last_index. split_and!; [done|lia|lia|congruence].
Qed.

Lemma exchange_accepted j now r next ld fl :
  pair_ok j next ld fl -> behind ld fl -> matching ld fl -> lastAppliedIndex ld < next -> accepts (request next ld) fl ->
  exists ld' fl', exchange j now r (ld, fl) = Ret (ld', fl') /\ leader_part ld' = leader_part ld /\
    pair_ok j (last_index ld' + 1) ld' fl' /\ behind ld' fl' /\ matching ld' fl' /\ caught_up j ld' fl'.
Proof.
  intros Hok Hb Hm Hn Ha.
  destruct (exchange_progress j now r next ld fl Hok Hb Hm) as (ld' & fl' & next' & Hx & Hp & Hok' & Hb' & Hm' & [?|_ Hc|]); [lia| |done].
  exists ld', fl'. split_and!; try done. pose proof (po_next _ _ _ _ Hok') as Hn'. destruct Hc as [Hn'' _].
  rewrite Hn'' in Hn'. by injection Hn' as ->.
Qed.

(** Once caught up, always caught up. *)
Lemma stays_caught_up j ts ld fl :
  pair_ok j (last_index ld + 1) ld fl -> behind ld fl -> matching ld fl -> caught_up j ld fl ->
  exists ld' fl', exchanges j ts (ld, fl) = Ret (ld', fl') /\ leader_part ld' = leader_part ld /\
    behind ld' fl' /\ matching ld' fl' /\ caught_up j ld' fl'.
Proof.
  revert ld fl. induction ts as [|[now r] ts IH]; intros ld fl Hok Hb Hm Hc; cbn [exchanges].
  { by exists ld, fl. }
  destruct (exchange_accepted j now r _ ld fl Hok Hb Hm) as (ld1 & fl1 & -> & Hp1 & Hok1 & Hb1 & Hm1 & Hc1).
  { unfold last_index. pose proof (len_nonneg (Log ld)). lia. }
  { by apply (accepts_last j). }
  cbn [rbind]. destruct (IH ld1 fl1 Hok1 Hb1 Hm1 Hc1) as (ld2 & fl2 & -> & Hp2 & ?). exists ld2, fl2.
  split; [done|]. split; [congruence|done].
Qed.

(** What the exchanges lead to. *)
Definition reaches j ts ld fl : Prop :=
  exists ld' fl', exchanges j ts (ld, fl) = Ret (ld', fl') /\ leader_part ld' = leader_part ld /\
    behind ld' fl' /\ matching ld' fl' /\ caught_up j ld' fl'.

Lemma reaches_step j now r ts ld fl ld1 fl1 :
  exchange j now r (ld, fl) = Ret (ld1, fl1) -> leader_part ld1 = leader_part ld ->
  reaches j ts ld1 fl1 -> reaches j ((now, r) :: ts) ld fl.
Proof.
  intros Hx Hp (ld2 & fl2 & Hxs & Hp2 & H). exists ld2, fl2. cbn [exchanges]. rewrite Hx. cbn [rbind].
  split; [done|]. split; [congruence|done].
Qed.

Lemma accepted_reaches j now r ts next ld fl :
  pair_ok j next ld fl -> behind ld fl -> matching ld fl -> lastAppliedIndex ld < next -> accepts (request next ld) fl ->
  reaches j ((now, r) :: ts) ld fl.
Proof.
  intros Hok Hb Hm Hn Ha. destruct (exchange_accepted j now r next ld fl) as (ld1 & fl1 & Hx & Hp & Hok1 & Hb1 & Hm1 & Hc1); try done.
  eapply reaches_step; [done..|]. by apply stays_caught_up.
Qed.

Lemma catch_up_loop k j ts next ld fl :
  pair_ok j next ld fl -> behind ld fl -> matching ld fl -> -1 <= lastAppliedIndex ld ->
  next < 2 ^ Z.of_nat k -> (k + 2 <= length ts)%nat -> reaches j ts ld fl.
Proof.
  revert ts next ld fl. induction k as [|k IH]; intros ts next ld fl Hok Hb Hm Hlow Hk Hts;
    (destruct ts as [|[now r] ts]; cbn in Hts; [lia|]);
    destruct (exchange_progress j now r next ld fl Hok Hb Hm) as (ld1 & fl1 & next1 & Hx & Hp1 & Hok1 & Hb1 & Hm1 & Hc);
    pose proof (leader_part_log _ _ Hp1) as (Hlast & _ & _ & Hli & Hllt & _);
    (eapply reaches_step; [done..|]); destruct Hc as [Hn Hn1 Hfi Hft|Hn Hc|next2 Hn Hno Hn2 Hle].
  1, 4: rewrite (po_next _ _ _ _ Hok1) in Hn1; injection Hn1 as ->; (destruct ts as [|[now2 r2] ts]; cbn in Hts; [lia|]);
    rewrite <- Hli in Hok1; eapply accepted_reaches; [done..|lia|]; apply (accepts_base j); [done|congruence..].
  1, 3: pose proof (po_next _ _ _ _ Hok1) as Hnx; pose proof Hc as [Hn' _]; rewrite Hn' in Hnx; injection Hnx as <-; by apply stays_caught_up.
  - exfalso. apply Hno. pose proof (po_range _ _ _ _ Hok). pose proof (po_low _ _ _ _ Hok). destruct Hb as [Hle' Heq].
    change (2 ^ Z.of_nat 0) with 1 in Hk. assert (next = lastAppliedIndex ld + 1) as -> by lia.
    assert (lastAppliedIndex fl = lastAppliedIndex ld) as He by lia. apply (accepts_base j); auto.
  - rewrite (po_next _ _ _ _ Hok1) in Hn2. injection Hn2 as ->. apply (IH ts next2); try done; [lia| |lia].
    rewrite Nat2Z.inj_succ, Z.pow_succ_r in Hk by lia. apply Z.le_lt_trans with (next / 2); [done|]. apply Z.div_lt_upper_bound; lia.
Qed.

(** C7. Catching up: a follower whose snapshot is not ahead of the leader's,
    and whose log matches the leader's, holds the leader's whole log after at
    most [k + 2] rounds when [nextIndex] is below [2 ^ k], and from then on: no
    round panics, the leader's log stays as it is, [nextIndex] and [matchIndex]
    say so, and every entry of the leader is in the follower's log. *)
Theorem catch_up j ts next ld fl (k : nat) :
  pair_ok j next ld fl -> behind ld fl -> matching ld fl -> -1 <= lastAppliedIndex ld ->
  next < 2 ^ Z.of_nat k -> (k + 2 <= length ts)%nat ->
  exists ld' fl', exchanges j ts (ld, fl) = Ret (ld', fl') /\ Log ld' = Log ld /\
    nextIndex ld' !! Z.to_nat j = Some (last_index ld + 1) /\ matchIndex ld' !! Z.to_nat j = Some (last_index ld) /\
    forall m e, entry_at ld m = Some e -> entry_at fl' m = Some e.
Proof.
  intros Hok Hb Hm Hlow Hk Hts. destruct (catch_up_loop k j ts next ld fl) as (ld' & fl' & Hx & Hp & [Hle _] & Hm' & Hc); try done.
  pose proof (leader_part_log _ _ Hp) as (Hlast & Hterm & Hentry & Hli & _). destruct Hc as (Hn & Hmt & Ht).
  exists ld', fl'. split; [done|]. split; [by unfold leader_part in Hp; injection Hp|]. rewrite <- Hlast. split_and!; [done|done|].
  intros m e He. assert (lastAppliedIndex ld < m <= last_index ld) as Hr.
  { destruct (decide (m <= lastAppliedIndex ld \/ last_index ld < m)) as [Hout|]; [|lia]. by rewrite entry_at_out in He. }
  destruct (term_at_in ld (last_index ld)) as [t Htl]; [lia|].
  assert (last_index ld <= last_index fl') as Hfl.
  { destruct (decide (last_index ld <= last_index fl')); [done|exfalso]. rewrite Hlast, Hterm, Htl in Ht. unfold term_at in Ht.
    rewrite entry_at_out in Ht by lia. by destruct (Z.eqb_spec (last_index ld) (lastAppliedIndex fl')); [lia|]. }
  destruct (entry_at_in fl' m) as (e' & _ & He'); [lia|]. rewrite He'. f_equal. symmetry.
  apply (Hm' (last_index ld) t m); [by rewrite Hterm| |lia|by rewrite Hentry|done]. by rewrite <- Hlast, Ht, Hterm, Hlast.
Qed.

(** ** Starvation *)

(** A request that ends inside the follower's snapshot changes nothing. *)
Lemma exchange_refused j now r next ld fl :
  pair_ok j next ld fl -> -1 <= lastAppliedIndex ld < lastAppliedIndex fl -> next <= lastAppliedIndex fl ->
  exists ld' fl' next', exchange j now r (ld, fl) = Ret (ld', fl') /\ leader_part ld' = leader_part ld /\
    log_of fl' = log_of fl /\ pair_ok j next' ld' fl' /\ next' <= lastAppliedIndex fl.
Proof.
  intros Hok Hlai Hnext. pose proof Hok as [Hl Ht Hlow Hap Hj Hn Hr Hmt]. unfold exchange.
  pose proof (adopt_leader_log (currentTerm ld) (me ld) fl) as Hlog.
  destruct (adopt_leader_state (currentTerm ld) (me ld) fl) as (Hct & _).
  set (fl1 := adopt_leader (currentTerm ld) (me ld) fl) in *.
  assert (log_of fl1 = log_of fl) as Hsame by (unfold log_part in Hlog; unfold log_of; congruence).
  pose proof Hsame as (Hlast & _ & _ & Hi)%log_of_same.
  rewrite (go_index_lookup _ _ _ Hj Hn). cbn [rbind]. destruct (Z.ltb_spec (next - 1) (lastAppliedIndex ld)) as [Hs|Hs].
  - unfold InstallSnapshotSender_send. rewrite Hl, !Z.eqb_refl. cbn [negb orb]. rewrite InstallSnapshot_eq.
    cbn [is_Term is_LeaderId LastIncludedIndex is_Data]. destruct (Z.ltb_spec (currentTerm ld) (currentTerm fl)); [lia|].
    cbn [rbind]. fold fl1. unfold cover. cbn [LastIncludedIndex]. pose proof (len_nonneg (Log fl)).
    destruct (Z.leb_spec (last_index fl1) (lastAppliedIndex ld)); [unfold last_index in *; lia|].
    destruct (Z.ltb_spec (lastAppliedIndex fl1) (lastAppliedIndex ld)); [lia|]. rewrite doSnapshot_old by (cbn; lia). cbn [rbind].
    edestruct (recv_snapshot j (mkISReply (currentTerm fl)) next ld fl Hok) as (ld' & -> & [Hp _ _] & Hn' & Hmt'); [done|]. cbn [rbind].
    eexists ld', _, (lastAppliedIndex ld + 1). split_and!; [done|done|done| |lia].
    apply (pair_ok_after j next _ ld fl); try done; cbn; try lia. unfold last_index in *. pose proof (len_nonneg (Log ld)). lia.
  - destruct (send_request j next ld fl Hok) as (-> & _); [lia..|]. cbn [rbind]. unfold AppendEntries.
    rewrite AppendEntries_body_eq. cbn [ae_Term ae_LeaderId request]. fold fl1.
    rewrite decide_False by (intros (_ & ? & _); cbn in *; lia). rewrite decide_False by (intros (_ & ? & _); cbn in *; lia).
    destruct (Z.ltb_spec (currentTerm ld) (currentTerm fl)); [lia|]. change (PrevLogIndex (request next ld)) with (next - 1).
    destruct (Z.ltb_spec (next - 1) (lastAppliedIndex fl)); [|lia]. cbn [orb rbind].
    destruct (recv_reject j (request next ld) (mkAEReply (currentTerm fl) false) next ld fl Hok) as (ld' & Hx & [Hp _ _] & Hn' & Hmt'); [done..|].
    rewrite Hx. cbn [rbind]. pose proof (Z.div_le_upper_bound next 2 next). pose proof (Z.div_pos next 2).
    eexists ld', _, (Z.min (lastApplied ld + 1) (next / 2)). split_and!; [done|done|done| |lia].
    apply (pair_ok_after j next _ ld fl); try done; cbn; try lia. by rewrite Hmt'.
Qed.

(** C8. Starvation: once [nextIndex] has fallen into the snapshot of a follower
    that is ahead of the leader's snapshot, the follower never gets another
    entry from this leader, however many rounds there are and although every
    message arrives: [nextIndex] only goes down, and the leader's older
    snapshot, which is sent in the end, brings it back into the follower's. *)
Theorem starvation j ts next ld fl :
  pair_ok j next ld fl -> -1 <= lastAppliedIndex ld < lastAppliedIndex fl -> next <= lastAppliedIndex fl ->
  exists ld' fl', exchanges j ts (ld, fl) = Ret (ld', fl') /\ Log ld' = Log ld /\
    Log fl' = Log fl /\ lastAppliedIndex fl' = lastAppliedIndex fl.
Proof.
  intros Hok Hlai Hnext.
  assert (exists ld' fl', exchanges j ts (ld, fl) = Ret (ld', fl') /\ leader_part ld' = leader_part ld /\ log_of fl' = log_of fl)
    as (ld' & fl' & Hx & Hp & Hf).
  { revert next ld fl Hok Hlai Hnext. induction ts as [|[now r] ts IH]; intros next ld fl Hok Hlai Hnext; cbn [exchanges].
    { by exists ld, fl. }
    destruct (exchange_refused j now r next ld fl Hok Hlai Hnext) as (ld1 & fl1 & next1 & -> & Hp1 & Hf1 & Hok1 & Hn1). cbn [rbind].
    pose proof (leader_part_log _ _ Hp1) as (_ & _ & _ & Hli & _). pose proof (log_of_same _ _ Hf1) as (_ & _ & _ & Hfi).
    destruct (IH next1 ld1 fl1 Hok1) as (ld2 & fl2 & -> & Hp2 & Hf2); [lia..|]. exists ld2, fl2. split_and!; congruence. }
  exists ld', fl'. unfold leader_part in Hp. unfold log_of in Hf. split_and!; congruence.
Qed.

(** A follower that has the beginning of the leader's log matches. *)
Lemma matching_prefix k ld fl :
  lastAppliedIndex fl = lastAppliedIndex ld -> Log fl = take k (Log ld) -> matching ld fl.
Proof.
  intros Hi Hl i t m e e' _ _ _ He He'. unfold entry_at in *. rewrite Hi, Hl in He'. case_cond; [|done].
  apply lookup_take_Some in He' as [He' _]. congruence.
Qed.

Definition pair_okb (j next : Z) ld fl : bool :=
  bool_decide (leaderId ld = me ld /\ currentTerm fl <= currentTerm ld /\ -1 <= lastAppliedIndex fl /\ -1 <= lastApplied ld /\
    0 <= j /\ nextIndex ld !! Z.to_nat j = Some next /\ 0 <= next <= last_index ld + 1 /\ is_Some (matchIndex ld !! Z.to_nat j)).

Lemma pair_okb_spec j next ld fl : pair_okb j next ld fl = true -> pair_ok j next ld fl.
Proof. intros (? & ? & ? & ? & ? & ? & ? & ?)%bool_decide_eq_true_1. by split. Qed.

End pair.

(** ** A leader and its followers in runs *)

Module Witness.
Import SafetySpec.SafetySpec.Runs.
#[local] Existing Instance Z_Gob.

(** Peer 0 leads term 1 and brings eight commands to both others; peer 2 may take
    a snapshot.  Peer 0 brings fourteen more to peer 1 only.  Peer 1 leads term
    2. *)
Definition next_leader (snapshots : list (event (Cmd := Z))) : list (event (Cmd := Z)) :=
  elect 0 10 [(1, 0%nat, 0%nat); (2, 1%nat, 1%nat)] [] ++ (start_at 0 <$> seqZ 1 8) ++
  replicate_to 0 20 [(1, 0%nat, 0%nat); (2, 1%nat, 1%nat)] [] ++ [ERoundFinish 0] ++
  replicate_to 0 30 [(1, 2%nat, 2%nat); (2, 3%nat, 3%nat)] [] ++ [ERoundFinish 0; EApply 2 0] ++ snapshots ++
  (start_at 0 <$> seqZ 9 14) ++ replicate_to 0 40 [(1, 4%nat, 4%nat)] [2] ++ [ERoundFinish 0] ++
  replicate_to 0 50 [(1, 6%nat, 5%nat)] [2] ++ [ERoundFinish 0; EApply 1 0] ++
  elect 1 70 [(2, 2%nat, 2%nat)] [0].

(** Peer 1 and peer 2 at the end of a run. *)
Definition pair_at (es : list (event (Cmd := Z))) : option (Raft Z * Raft Z) :=
  match steps es (init 3) with
  | Some s => match nodes s !! 1, nodes s !! 2 with Some ld, Some fl => Some (ld, fl) | _, _ => None end
  | None => None
  end.

(** Without a snapshot peer 2 has the first nine entries of peer 1. *)
Definition lags (p : Raft Z * Raft Z) : bool :=
  pair_okb 2 23 p.1 p.2 &&
  bool_decide (lastAppliedIndex p.2 = lastAppliedIndex p.1 /\ lastAppliedTerm p.2 = lastAppliedTerm p.1 /\
    lastAppliedIndex p.1 = -1 /\ Log p.2 = take 9 (Log p.1)).

Lemma lagging_pair : match pair_at (next_leader []) with Some p => lags p | None => false end = true.
Proof. vm_compute. reflexivity. Qed.

Lemma catch_up_witness : exists ld fl ld' fl' : Raft Z,
  pair_at (next_leader []) = Some (ld, fl) /\ exchanges 2 (replicate 7 (100 * sec, 0)) (ld, fl) = Ret (ld', fl') /\
  forall m e, entry_at ld m = Some e -> entry_at fl' m = Some e.
Proof.
  pose proof lagging_pair as Hp. destruct (pair_at (next_leader [])) as [[ld fl]|]; [|discriminate Hp].
  apply andb_true_iff in Hp as [Hok%pair_okb_spec (Hi & Ht & Hl & Hlog)%bool_decide_eq_true_1]. cbn [fst snd] in *.
  destruct (catch_up 2 (replicate 7 (100 * sec, 0)) 23 ld fl 5 Hok) as (ld' & fl' & Hx & _ & _ & _ & He).
  - split; [rewrite Hi; reflexivity|intros _; exact Ht].
  - exact (matching_prefix 9 ld fl Hi Hlog).
  - rewrite Hl. discriminate.
  - reflexivity.
  - apply Nat.leb_le. reflexivity.
  - exists ld, fl, ld', fl'. split; [reflexivity|]. split; [exact Hx|exact He].
Defined.

(** Peer 2 takes a snapshot of its first six commands; peer 1 tries twice to
    bring it up to date, and [nextIndex] falls from 23 to 5. *)
Definition starved : list (event (Cmd := Z)) :=
  next_leader [ELocal 2 (SDoSnapshot 6 [])] ++
  replicate_to 1 80 [(2, 8%nat, 6%nat)] [0] ++ [ERoundFinish 1] ++
  replicate_to 1 90 [(2, 10%nat, 7%nat)] [0] ++ [ERoundFinish 1].

Definition starves (p : Raft Z * Raft Z) : bool :=
  pair_okb 2 5 p.1 p.2 && bool_decide (lastAppliedIndex p.1 = -1 /\ lastAppliedIndex p.2 = 6 /\ len (Log p.1) = 23 /\ len (Log p.2) = 2).

Lemma starved_pair : match pair_at starved with Some p => starves p | None => false end = true.
Proof. vm_compute. reflexivity. Qed.

Lemma starved_orderly : orderly_run starved (init 3) = true.
Proof. vm_compute. reflexivity. Qed.

(** The run is orderly; peer 1 leads with 23 entries, and peer 2 will not get
    beyond index 8. *)
Lemma starvation_witness : exists ld fl : Raft Z, pair_at starved = Some (ld, fl) /\ len (Log ld) = 23 /\
  forall ts, exists ld' fl', exchanges 2 ts (ld, fl) = Ret (ld', fl') /\ Log fl' = Log fl /\ last_index fl' = 8.
Proof.
  pose proof starved_pair as Hp. destruct (pair_at starved) as [[ld fl]|]; [|discriminate Hp].
  apply andb_true_iff in Hp as [Hok%pair_okb_spec (Hi & Hf & Hl & Hlf)%bool_decide_eq_true_1]. cbn [fst snd] in *.
  exists ld, fl. split; [reflexivity|]. split; [exact Hl|]. intros ts.
  destruct (starvation 2 ts 5 ld fl Hok) as (ld' & fl' & Hx & _ & Hlog & Hlai).
  - rewrite Hi, Hf. split; [discriminate|reflexivity].
  - rewrite Hf. discriminate.
  - exists ld', fl'. split; [exact Hx|]. split; [exact Hlog|]. unfold last_index. rewrite Hlog, Hlai, Hlf, Hf. reflexivity.
Defined.

End Witness.
End CatchUp.
