(* ===== verification/Progress.v ===== *)
(** Progress of the cluster: from every state that an orderly run reaches, a
    peer with an up-to-date log and a majority that answers can be elected and
    can commit and apply new commands. *)
From S2P Require Import Prelude Labgob Persister RaftState Raft RaftLemmas RaftElection RaftLog RaftSnapshot RaftSteps.
From S2P Require Import Cluster ClusterProofs ClusterSteps LogMatching LogTree Leadership LeaderCompleteness Commitment SafetySpec ReplicatedLog CatchUp.
Import Labgob Persist RaftState RaftNode RaftOk RaftElection RaftLog RaftSnapshot RaftSteps.
Import Cluster ClusterOk ClusterSteps LogMatching LogTree Leadership LeaderCompleteness Commitment SafetySpec ReplicatedLog CatchUp.
Local Open Scope Z_scope.

Module Progress.

(** ** Runs that go on *)

Lemma lookup_app_new {A} (l : list A) x : (l ++ [x]) !! length l = Some x.
Proof. by rewrite lookup_app_r, Nat.sub_diag. Qed.

Section runs_on.
Context {Cmd : Type} `{!Gob (gval Cmd)}.
Implicit Types (rf : Raft Cmd) (s : cluster Cmd) (es : list (event (Cmd := Cmd))).

(** An orderly run leads from [s] to [s']. *)
Definition leads_to s s' : Prop := exists es, orderly_run es s = true /\ steps es s = Some s'.

Lemma leads_to_refl s : leads_to s s.
Proof. by exists []. Qed.

Lemma leads_to_step e s s1 s' : orderly e s = true -> step e s = Some s1 -> leads_to s1 s' -> leads_to s s'.
Proof. intros Ho Hs (es & Hor & Hrun). exists (e :: es). cbn. by rewrite Ho, Hs. Qed.

Lemma leads_to_once e s s' : orderly e s = true -> step e s = Some s' -> leads_to s s'.
Proof. intros Ho Hs. eapply leads_to_step; [done..|]. apply leads_to_refl. Qed.

Lemma leads_to_trans s1 s2 s3 : leads_to s1 s2 -> leads_to s2 s3 -> leads_to s1 s3.
Proof.
  intros (es & Ho & Hs). revert s1 Ho Hs. induction es as [|e es IH]; intros s1; cbn [orderly_run steps].
  - by intros _ [= <-].
  - intros [Ho Hor]%andb_true_iff. destruct (step e s1) as [s|] eqn:He; [|done]. intros Hs H23.
    eapply leads_to_step; [done..|]. by eapply IH.
Qed.

Lemma leads_to_sound n (Hn : (2 <= n)%nat) c s s' : sound n c s -> leads_to s s' -> exists c', sound n c' s'.
Proof. intros Hs (es & Ho & Hrun). destruct (sound_steps n Hn es c s s' Hs Ho Hrun) as (c' & ? & _). by exists c'. Qed.

(** The last request that was sent is in order. *)
Lemma last_in_order k s : length (aes s) = S k -> in_order k s = true.
Proof.
  intros Hk. unfold in_order. destruct (aes s !! k) as [[j args]|]; [|done]. apply forallb_forall. intros [k' reply] _. cbn.
  destruct (aes s !! k') as [[j' args']|] eqn:H; [|done]. apply lookup_lt_Some in H. apply orb_true_iff. right.
  apply Nat.leb_le. lia.
Qed.

End runs_on.

(** ** A follower on its way *)

Section followers.
Context {Cmd : Type} `{!Gob (gval Cmd)}.
Implicit Types (ld fl : Raft Cmd) (s : cluster Cmd).

(** The follower [j] will be caught up after at most [k] exchanges. *)
Definition within (k : nat) (j next : Z) ld fl : Prop :=
  caught_up j ld fl \/
  match k with
  | O => False
  | S k => (next = lastAppliedIndex ld + 1 /\ lastAppliedIndex fl = lastAppliedIndex ld /\ lastAppliedTerm fl = lastAppliedTerm ld) \/
           match k with O => False | S k => next < 2 ^ Z.of_nat k end
  end.

Lemma caught_up_accepts j next ld fl : pair_ok j next ld fl -> behind ld fl -> caught_up j ld fl -> accepts (request next ld) fl.
Proof.
  intros Hok Hb Hc. assert (next = last_index ld + 1) as ->; [|by eapply accepts_last].
  destruct Hc as [Hn _]. rewrite (po_next _ _ _ _ Hok) in Hn. by injection Hn.
Qed.

Lemma within_step k j next next' ld fl ld' fl' :
  pair_ok j next ld fl -> behind ld fl -> -1 <= lastAppliedIndex ld -> within k j next ld fl ->
  leader_part ld' = leader_part ld -> nextIndex ld' !! Z.to_nat j = Some next' -> progress j next ld fl ld' fl' ->
  within (pred k) j next' ld' fl'.
Proof.
  intros Hok Hb Hlow Hw Hp Hn' Hprog. pose proof (leader_part_log _ _ Hp) as (_ & _ & _ & Hli & Hllt & _).
  pose proof (po_next _ _ _ _ Hok) as Hn. destruct Hprog as [Hle Hn1 Hfi Hft|Hlt Hc|next2 Hlt Hno Hn2 Hle]; [|by left|].
  - rewrite Hn' in Hn1. injection Hn1 as ->. unfold last_index in *. pose proof (len_nonneg (Log ld)).
    destruct Hw as [[Hc _]|Hw]; [rewrite Hn in Hc; injection Hc as ->; unfold last_index in *; lia|].
    destruct k as [|[|k]]; [done|lia|]. right. left. split_and!; [lia|congruence|congruence].
  - rewrite Hn' in Hn2. injection Hn2 as ->.
    destruct Hw as [Hc|Hw]; [by destruct Hno; eapply caught_up_accepts|]. destruct k as [|k]; [done|].
    destruct Hw as [(-> & Hi & Ht)|Hw]; [by destruct Hno; eapply (accepts_base j)|]. destruct k as [|[|k]]; [done| |].
    + exfalso. apply Hno. pose proof (po_range _ _ _ _ Hok). pose proof (po_low _ _ _ _ Hok). destruct Hb as [Hle' Heq].
      change (2 ^ Z.of_nat 0) with 1 in Hw. assert (next = lastAppliedIndex ld + 1) as -> by lia.
      assert (lastAppliedIndex fl = lastAppliedIndex ld) as He by lia. apply (accepts_base j); auto.
    + right. right. rewrite Nat2Z.inj_succ, Z.pow_succ_r in Hw by lia. apply Z.le_lt_trans with (next / 2); [done|].
      apply Z.div_lt_upper_bound; lia.
Qed.

(** The follower [j] of [ld] in the cluster. *)
Definition follows (k : nat) s ld (j : Z) : Prop :=
  exists fl next, nodes s !! j = Some fl /\ pair_ok j next ld fl /\ behind ld fl /\ matching ld fl /\ within k j next ld fl.

Lemma follows_after k s s' ld ld' j next fl fl' :
  pair_ok j next ld fl -> behind ld fl -> -1 <= lastAppliedIndex ld -> within k j next ld fl -> leaves j next ld fl ld' fl' ->
  nodes s' !! j = Some fl' -> follows (pred k) s' ld' j.
Proof.
  intros Hok Hb Hlow Hw ([Hp _ _] & next' & Hok' & Hb' & Hm' & Hprog) Hj. exists fl', next'. split_and!; [done..|].
  apply (within_step k j next next' ld fl); try done. exact (po_next _ _ _ _ Hok').
Qed.

(** Answers of one peer leave the others alone. *)
Lemma follows_else k s s' ld ld' j j' :
  0 <= j -> 0 <= j' -> j' <> j -> moves j ld ld' -> nodes s' !! j' = nodes s !! j' -> follows k s ld j' -> follows k s' ld' j'.
Proof.
  intros Hj Hj' Hne [Hp _ Helse] Hn (fl & next & Hfl & Hok & Hb & Hm & Hw). destruct (Helse (Z.to_nat j')) as [Hnx Hmx]; [lia|].
  pose proof (leader_part_log _ _ Hp) as (Hlast & Hterm & _ & Hli & Hllt & Hct & _).
  exists fl, next. split_and!; [by rewrite Hn| | |by apply (matching_part ld)|].
  - pose proof Hok as [_ ? ? _ _ ? ? ?]. apply (pair_ok_after j' next _ ld fl); try done; congruence.
  - unfold behind. by rewrite Hli, Hllt.
  - unfold within, caught_up in *. rewrite Hnx, Hmx, Hlast, Hterm, Hli, Hllt. exact Hw.
Qed.

Lemma follows_commit k s ld N j : follows k s ld j -> follows k s (set_commitIndex N ld) j.
Proof.
  intros (fl & next & Hfl & [? ? ? ? ? ? ? ?] & Hb & Hm & Hw). exists fl, next.
  split_and!; [done|by split|exact Hb|exact Hm|exact Hw].
Qed.

End followers.

(** ** A round of a leader *)

Section rounds.
Context {Cmd : Type} `{!Gob (gval Cmd)}.
Implicit Types (rf ld fl : Raft Cmd) (s : cluster Cmd).
Context (n : nat) (i : Z).

Definition next_ok ld (j : Z) : Prop := exists next, nextIndex ld !! Z.to_nat j = Some next /\ 0 <= next <= last_index ld + 1.

(** The peer [i] leads, and its last entry is of its term. *)
Record leading s ld : Prop := {
  lg_node : nodes s !! i = Some ld;
  lg_elect : elections s !! i = None;
  lg_me : me ld = i;
  lg_leads : leaderId ld = me ld;
  lg_alive : killed ld = false;
  lg_peers : npeers ld = Z.of_nat n;
  lg_low : -1 <= lastAppliedIndex ld;
  lg_match : len (matchIndex ld) = npeers ld;
  lg_next : forall j, j ∈ other_peers ld -> next_ok ld j;
  lg_entry : current_entry ld (last_index ld) = true;
}.

(** A round of [i] that has still to deal with the peers [todo]. *)
Record in_round s ld rd (todo : list Z) : Prop := {
  ir_leading : leading s ld;
  ir_round : rounds (repl s) !! i = Some rd;
  ir_term : rd_term rd = currentTerm ld;
  ir_todo : NoDup todo /\ forall j, j ∈ todo -> j ∈ other_peers ld;
  ir_kind : forall j next, j ∈ todo -> nextIndex ld !! Z.to_nat j = Some next ->
    if next - 1 <? lastAppliedIndex ld then j ∈ rd_snap rd else j ∈ rd_append rd;
  ir_finished : rd_finished rd + len todo = npeers ld - 1;
}.

Lemma moves_fields j ld ld' : moves j ld ld' ->
  npeers ld' = npeers ld /\ killed ld' = killed ld /\ sender ld' = sender ld /\ commitIndex ld' = commitIndex ld /\ Log ld' = Log ld.
Proof. intros [Hp _ _]. unfold leader_part in Hp. unfold killed. injection Hp as -> _ _ _ _ _ _ -> -> -> ->. by split_and!. Qed.

Lemma other_peers_same rf rf' : npeers rf' = npeers rf -> me rf' = me rf -> other_peers rf' = other_peers rf.
Proof. unfold other_peers. by intros -> ->. Qed.

(** The leader after an answer of [j]. *)
Lemma leading_moves s s' ld ld' j :
  leading s ld -> moves j ld ld' -> next_ok ld' j -> 0 <= j -> nodes s' !! i = Some ld' -> elections s' = elections s -> leading s' ld'.
Proof.
  intros [Hn He Hme Hl Ha Hp Hlow Hm Hnx Hen] Hmv Hnj Hj Hi' He'. pose proof (moves_fields _ _ _ Hmv) as (Hp' & Ha' & _).
  destruct Hmv as [Hpart Hlen Helse]. pose proof (leader_part_log _ _ Hpart) as (Hlast & _ & Hentry & Hli & _ & Hct & Hlid & Hme' & _).
  split; rewrite ?He'; try congruence.
  - unfold len in *. congruence.
  - intros l. rewrite (other_peers_same ld ld') by done. intros Hl'. destruct (decide (l = j)) as [->|Hne]; [done|].
    destruct (Hnx l Hl') as (next & Hnext & Hr). apply elem_of_other_peers in Hl' as [? _]. exists next.
    destruct (Helse (Z.to_nat l)) as [-> _]; [lia|]. rewrite Hlast. done.
  - unfold current_entry in *. by rewrite Hlast, Hentry, Hct.
Qed.

Lemma in_round_moves s s' ld ld' rd rd' j todo :
  in_round s ld rd (j :: todo) -> leading s' ld' -> moves j ld ld' -> rounds (repl s') !! i = Some rd' -> rd_term rd' = rd_term rd ->
  rd_append rd ∖ {[j]} ⊆ rd_append rd' -> rd_snap rd ∖ {[j]} ⊆ rd_snap rd' -> rd_finished rd' = rd_finished rd + 1 ->
  in_round s' ld' rd' todo.
Proof.
  intros [Hlg Hrd Ht [Hnd Htodo] Hkind Hfin] Hlg' Hmv Hrd' Ht' Ha Hs Hf. pose proof (moves_fields _ _ _ Hmv) as (Hp' & _).
  destruct Hmv as [Hpart _ Helse]. pose proof (leader_part_log _ _ Hpart) as (_ & _ & _ & Hli & _ & Hct & _ & Hme' & _).
  apply NoDup_cons in Hnd as [Hj Hnd]. split; [done|done|congruence| | |].
  - split; [done|]. intros l Hl. rewrite (other_peers_same ld ld') by done. apply Htodo. by right.
  - intros l next Hl. assert (l <> j) as Hne by (intros ->; done). assert (l ∈ other_peers ld) as Ho by (apply Htodo; by right).
    assert (j ∈ other_peers ld) as Hoj by (apply Htodo; by left). apply elem_of_other_peers in Ho as [? _], Hoj as [? _].
    destruct (Helse (Z.to_nat l)) as [-> _]; [lia|]. intros Hn. specialize (Hkind l next ltac:(by right) Hn). rewrite Hli.
    case_match; [apply Hs|apply Ha]; set_solver.
  - rewrite Hp', Hf. unfold len in *. cbn [length] in Hfin. lia.
Qed.

Lemma moves_refl j ld : moves j ld ld.
Proof. by split. Qed.

(** The events of a round, when they happen. *)
Lemma step_append_send s ld rd j args :
  nodes s !! i = Some ld -> rounds (repl s) !! i = Some rd -> j ∈ rd_append rd ->
  appendRPCWorker_send j (rd_term rd) ld = Ret (Some args) ->
  step (EAppendSend i j) s = Some (set_round i
    (mkRound (rd_term rd) (rd_finished rd) (rd_count rd) (rd_append rd ∖ {[j]}) (rd_snap rd)
      (<[j := length (aes s)]> (rd_append_wait rd)) (rd_snap_wait rd))
    (mkCluster (nodes s) (elections s) (reqs s) (reps s) (aes s ++ [(j, args)]) (iss s) (ballots s) (tally s) (won s) (repl s))).
Proof. intros Hi Hrd Hj Hsend. cbn [step]. unfold append_send. rewrite Hi, Hrd. by destruct (decide _); [rewrite Hsend|]. Qed.

Lemma step_snap_send s ld rd j args :
  nodes s !! i = Some ld -> rounds (repl s) !! i = Some rd -> j ∈ rd_snap rd ->
  InstallSnapshotSender_send (rd_term rd) ld = Some args ->
  step (ESnapSend i j) s = Some (set_round i
    (mkRound (rd_term rd) (rd_finished rd) (rd_count rd) (rd_append rd) (rd_snap rd ∖ {[j]})
      (rd_append_wait rd) (<[j := length (iss s)]> (rd_snap_wait rd)))
    (mkCluster (nodes s) (elections s) (reqs s) (reps s) (aes s) (iss s ++ [(j, args)]) (ballots s) (tally s) (won s) (repl s))).
Proof. intros Hi Hrd Hj Hsend. cbn [step]. unfold snap_send. rewrite Hi, Hrd. by destruct (decide _); [rewrite Hsend|]. Qed.

Lemma step_append_recv s ld ld' rd j k l args ok reply r count :
  nodes s !! i = Some ld -> rounds (repl s) !! i = Some rd -> rd_append_wait rd !! j = Some k -> aes s !! k = Some (l, args) ->
  answer (mkAEReply 0 false) (aers (repl s)) k r = Some (ok, reply) ->
  appendRPCWorker_recv j (rd_term rd) args ok reply (rd_count rd) ld = Ret (ld', count) ->
  step (EAppendRecv i j r) s = Some (set_round i
    (mkRound (rd_term rd) (rd_finished rd + 1) count (rd_append rd) (rd_snap rd) (delete j (rd_append_wait rd)) (rd_snap_wait rd))
    (with_node i ld' s)).
Proof. intros Hi Hrd Hw Hk Ha Hrun. cbn [step]. unfold append_recv. by rewrite Hi, Hrd, Hw, Hk, Ha, Hrun. Qed.

Lemma step_snap_recv s ld ld' rd j k ok reply r :
  nodes s !! i = Some ld -> rounds (repl s) !! i = Some rd -> rd_snap_wait rd !! j = Some k ->
  answer (mkISReply 0) (isrs (repl s)) k r = Some (ok, reply) -> InstallSnapshotSender_recv j ok reply ld = Ret ld' ->
  step (ESnapRecv i j r) s = Some (set_round i
    (mkRound (rd_term rd) (rd_finished rd + 1) (rd_count rd) (rd_append rd) (rd_snap rd) (rd_append_wait rd) (delete j (rd_snap_wait rd)))
    (with_node i ld' s)).
Proof. intros Hi Hrd Hw Ha Hrun. cbn [step]. unfold snap_recv. by rewrite Hi, Hrd, Hw, Ha, Hrun. Qed.

(** The request to a peer gets lost. *)
Lemma peer_silent s ld rd j todo :
  in_round s ld rd (j :: todo) ->
  exists s' rd', leads_to s s' /\ in_round s' ld rd' todo /\ nodes s' = nodes s /\ rd_count rd' = rd_count rd.
Proof.
  intros Hir. pose proof Hir as [Hlg Hrd Ht [_ Htodo] Hkind _]. pose proof (lg_node _ _ Hlg) as Hi.
  pose proof (Htodo j ltac:(by left)) as Hj. destruct (lg_next _ _ Hlg j Hj) as (next & Hn & Hr).
  specialize (Hkind j next ltac:(by left) Hn). apply elem_of_other_peers in Hj as [Hj0 _].
  assert (forall s', nodes s' = <[i := ld]> (nodes s) -> elections s' = elections s -> leading s' ld) as Hlead.
  { intros s' Hn' He'. apply (leading_moves s _ ld ld j); [done|apply moves_refl|by exists next|lia|rewrite Hn'; apply lookup_insert_eq|done]. }
  destruct (Z.ltb_spec (next - 1) (lastAppliedIndex ld)) as [Hs|Hs].
  - assert (exists args, InstallSnapshotSender_send (rd_term rd) ld = Some args) as [args Hargs].
    { unfold InstallSnapshotSender_send. rewrite Ht, (lg_leads _ _ Hlg), !Z.eqb_refl. by eexists. }
    eexists _, _. split; [|split].
    + eapply (leads_to_step (ESnapSend i j)); [done|by eapply step_snap_send|].
      eapply (leads_to_once (ESnapRecv i j None)); [done|].
      eapply (step_snap_recv _ ld ld); [done|apply lookup_insert_eq|apply lookup_insert_eq|done|done].
    + eapply in_round_moves; [done|by apply Hlead|apply moves_refl|apply lookup_insert_eq|done|cbn; set_solver..|done].
    + cbn. split; [by apply insert_id|done].
  - destruct (appendRPCWorker_send_eq j (rd_term rd) next ld) as (t & _ & Hsend);
      [apply go_index_lookup; [lia|done]|apply (lg_low _ _ Hlg)|lia|congruence|apply (lg_leads _ _ Hlg)|].
    eexists _, _. split; [|split].
    + eapply (leads_to_step (EAppendSend i j)); [done|by eapply step_append_send|].
      eapply (leads_to_once (EAppendRecv i j None)); [done|].
      eapply (step_append_recv _ ld ld); [done|apply lookup_insert_eq|apply lookup_insert_eq|by apply lookup_app_new|done|].
      unfold appendRPCWorker_recv. cbn [rd_term]. rewrite Ht, (lg_leads _ _ Hlg), !Z.eqb_refl. reflexivity.
    + eapply in_round_moves; [done|by apply Hlead|apply moves_refl|apply lookup_insert_eq|done|cbn; set_solver..|done].
    + cbn. split; [by apply insert_id|done].
Qed.

(** What an answer leaves. *)
Definition answered_by (k : nat) s ld rd (j : Z) todo : Prop :=
  exists s' ld' rd', leads_to s s' /\ in_round s' ld' rd' todo /\ moves j ld ld' /\ follows (pred k) s' ld' j /\
    (forall l, l <> i -> l <> j -> nodes s' !! l = nodes s !! l) /\
    (rd_count rd' = rd_count rd /\ k <> 0%nat \/
     rd_count rd' = rd_count rd + 1 /\ matchIndex ld' !! Z.to_nat j = Some (last_index ld')).

(** The snapshot reaches its peer, and the answer comes back. *)
Lemma snapshot_answered k s ld rd j todo fl next (now r : Z) :
  in_round s ld rd (j :: todo) -> nodes s !! j = Some fl -> pair_ok j next ld fl -> behind ld fl -> matching ld fl ->
  within k j next ld fl -> next - 1 < lastAppliedIndex ld -> answered_by k s ld rd j todo.
Proof.
  intros Hir Hfl Hok Hb Hm Hw Hs. pose proof Hir as [Hlg Hrd Ht [_ Htodo] Hkind _]. pose proof (lg_node _ _ Hlg) as Hi.
  pose proof (Htodo j ltac:(by left)) as Hj. specialize (Hkind j next ltac:(by left) (po_next _ _ _ _ Hok)).
  rewrite (proj2 (Z.ltb_lt _ _) Hs) in Hkind. apply elem_of_other_peers in Hj as [Hj0 Hji]. rewrite (lg_me _ _ Hlg) in Hji.
  destruct (snapshot_exchange j now r next ld fl Hok Hb Hm Hs) as (args & fl1 & reply & snap & fl' & ld' & Hsend & Hin & Hi1 & Hdo & Hrecv & Hlv).
  rewrite <- Ht in Hsend. pose proof Hlv as (Hmv & next' & Hok' & _).
  eexists _, ld', _. split; [|split; [|split; [done|split; [|split]]]].
  - eapply (leads_to_step (ESnapSend i j)); [done|by eapply step_snap_send|].
    eapply (leads_to_step (EInstall (length (iss s)) now r)); [done|..].
    { cbn [step]. unfold install. cbn. by rewrite lookup_app_new, Hfl, Hin. }
    eapply (leads_to_step (ELocal j (SDoSnapshot (lastAppliedIndex ld) snap))).
    { cbn. rewrite lookup_insert_eq. apply orb_true_iff. right. apply Z.leb_le. lia. }
    { cbn [step]. unfold local. cbn. by rewrite lookup_insert_eq, Hdo. }
    eapply (leads_to_once (ESnapRecv i j (Some (length (isrs (repl s)))))); [done|].
    eapply (step_snap_recv _ ld ld'); [cbn; by rewrite !lookup_insert_ne|apply lookup_insert_eq|apply lookup_insert_eq| |done].
    cbn. rewrite lookup_app_new. by rewrite decide_True.
  - eapply in_round_moves; [done| |done|apply lookup_insert_eq|done|cbn; set_solver..|done].
    apply (leading_moves s _ ld ld' j); [done|done| |lia|apply lookup_insert_eq|done].
    exists next'. destruct Hok'. by split.
  - eapply (follows_after k s _ ld ld' j next fl fl'); [done|done|apply (lg_low _ _ Hlg)|done|done|].
    cbn. rewrite lookup_insert_ne by done. apply lookup_insert_eq.
  - intros l Hli Hlj. cbn. by rewrite !lookup_insert_ne.
  - left. split; [done|]. intros ->. destruct Hw as [[Hc _]|[]]. rewrite (po_next _ _ _ _ Hok) in Hc. injection Hc as ->.
    unfold last_index in Hs. pose proof (len_nonneg (Log ld)). lia.
Qed.

(** The request reaches its peer, and the answer comes back. *)
Lemma request_answered k s ld rd j todo fl next (now r : Z) :
  in_round s ld rd (j :: todo) -> nodes s !! j = Some fl -> pair_ok j next ld fl -> behind ld fl -> matching ld fl ->
  within k j next ld fl -> lastAppliedIndex ld <= next - 1 -> answered_by k s ld rd j todo.
Proof.
  intros Hir Hfl Hok Hb Hm Hw Hs. pose proof Hir as [Hlg Hrd Ht [_ Htodo] Hkind _]. pose proof (lg_node _ _ Hlg) as Hi.
  pose proof (Htodo j ltac:(by left)) as Hj. specialize (Hkind j next ltac:(by left) (po_next _ _ _ _ Hok)).
  rewrite (proj2 (Z.ltb_ge _ _) Hs) in Hkind. apply elem_of_other_peers in Hj as [Hj0 Hji]. rewrite (lg_me _ _ Hlg) in Hji.
  destruct (request_exchange j now r next ld fl Hok Hb Hm Hs) as (fl' & reply & ld' & Hsend & Hrun & Hsucc & Hrecv & Hlv & Hcu).
  rewrite <- Ht in Hsend, Hrecv. pose proof Hlv as (Hmv & next' & Hok' & _).
  eexists _, ld', _. split; [|split; [|split; [done|split; [|split]]]].
  - eapply (leads_to_step (EAppendSend i j)); [done|by eapply step_append_send|].
    eapply (leads_to_step (EAppend (length (aes s)) now r)).
    { apply last_in_order. cbn. rewrite length_app. cbn. lia. }
    { cbn [step]. unfold append. cbn. by rewrite lookup_app_new, Hfl, Hrun. }
    eapply (leads_to_once (EAppendRecv i j (Some (length (aers (repl s)))))); [done|].
    eapply (step_append_recv _ ld ld'); [cbn; by rewrite !lookup_insert_ne|apply lookup_insert_eq|apply lookup_insert_eq|by apply lookup_app_new| |done].
    cbn. rewrite lookup_app_new. by rewrite decide_True.
  - eapply in_round_moves; [done| |done|apply lookup_insert_eq|done|cbn; set_solver..|done].
    apply (leading_moves s _ ld ld' j); [done|done| |lia|apply lookup_insert_eq|done].
    exists next'. destruct Hok'. by split.
  - eapply (follows_after k s _ ld ld' j next fl fl'); [done|done|apply (lg_low _ _ Hlg)|done|done|].
    cbn. rewrite lookup_insert_ne by done. apply lookup_insert_eq.
  - intros l Hli Hlj. cbn. by rewrite !lookup_insert_ne.
  - cbn. destruct (Success reply) eqn:Hsr; [right; split; [done|]; by destruct (Hcu eq_refl) as (_ & ? & _)|left].
    split; [done|]. intros ->. destruct Hw as [Hc|[]]. rewrite bool_decide_true in Hsucc; [done|]. by eapply caught_up_accepts.
Qed.

Lemma peer_answers k s ld rd j todo : in_round s ld rd (j :: todo) -> follows k s ld j -> answered_by k s ld rd j todo.
Proof.
  intros Hir (fl & next & Hfl & Hok & Hb & Hm & Hw). destruct (decide (next - 1 < lastAppliedIndex ld)).
  - by eapply (snapshot_answered k s ld rd j todo fl next 0 0).
  - eapply (request_answered k s ld rd j todo fl next 0 0); try done. lia.
Qed.

(** The peers whose acceptances the round has counted. *)
Record counted ld rd (todo A : list Z) : Prop := {
  cn_nodup : NoDup A;
  cn_count : rd_count rd = 1 + len A;
  cn_match : forall j, j ∈ A -> j ∈ other_peers ld /\ j ∉ todo /\ matchIndex ld !! Z.to_nat j = Some (last_index ld);
}.

Lemma counted_moves ld ld' rd rd' j todo A :
  counted ld rd (j :: todo) A -> moves j ld ld' -> 0 <= j -> rd_count rd' = rd_count rd -> counted ld' rd' todo A.
Proof.
  intros [Hnd Hc Hm] Hmv Hj Hcount. split; [done|congruence|]. intros l Hl. destruct (Hm l Hl) as (Ho & Ht & Hml).
  pose proof (moves_fields _ _ _ Hmv) as (Hp' & _). destruct Hmv as [Hpart _ Helse].
  pose proof (leader_part_log _ _ Hpart) as (Hlast & _ & _ & _ & _ & _ & _ & Hme & _). rewrite (other_peers_same ld ld'), Hlast by done.
  split_and!; [done|set_solver|]. apply elem_of_other_peers in Ho as [? _]. destruct (Helse (Z.to_nat l)) as [_ ->]; [|done].
  enough (l <> j) by lia. set_solver.
Qed.

Lemma counted_answer ld ld' rd rd' j todo A :
  counted ld rd (j :: todo) A -> moves j ld ld' -> j ∈ other_peers ld -> j ∉ todo -> rd_count rd' = rd_count rd + 1 ->
  matchIndex ld' !! Z.to_nat j = Some (last_index ld') -> counted ld' rd' todo (j :: A).
Proof.
  intros Hcn Hmv Ho Ht Hcount Hmj. pose proof Ho as [? _]%elem_of_other_peers.
  destruct (counted_moves ld ld' rd rd j todo A Hcn Hmv ltac:(lia) eq_refl) as [Hnd Hc Hm]. split.
  - apply NoDup_cons. split; [|done]. intros Hj. destruct (cn_match _ _ _ _ Hcn j Hj) as (_ & Hno & _). set_solver.
  - rewrite Hcount, Hc. unfold len. cbn [length]. lia.
  - intros l [->|Hl]%elem_of_cons; [|by apply Hm]. pose proof (moves_fields _ _ _ Hmv) as (Hp' & _).
    pose proof (leader_part_log _ _ (mv_part _ _ _ Hmv)) as (_ & _ & _ & _ & _ & _ & _ & Hme & _).
    by rewrite (other_peers_same ld ld').
Qed.

(** All peers of [B] answer, the others do not. *)
Lemma round_loop (B : list Z) k todo s ld rd A :
  in_round s ld rd todo -> (forall j, j ∈ B -> j ∈ other_peers ld) ->
  (forall j, j ∈ B -> follows (if decide (j ∈ todo) then k else pred k) s ld j) ->
  counted ld rd todo A -> (k = 0%nat -> forall j, j ∈ B -> j ∉ todo -> j ∈ A) ->
  exists s' ld' rd' A', leads_to s s' /\ in_round s' ld' rd' [] /\ leader_part ld' = leader_part ld /\
    (forall j, j ∈ B -> follows (pred k) s' ld' j) /\ counted ld' rd' [] A' /\ (k = 0%nat -> forall j, j ∈ B -> j ∈ A').
Proof.
  revert s ld rd A. induction todo as [|j todo IH]; intros s ld rd A Hir HB Hf Hcn HA.
  { exists s, ld, rd, A. split_and!; [apply leads_to_refl|done|done|exact Hf|done|]. intros Hk j Hj. apply HA; [done..|set_solver]. }
  pose proof (ir_todo _ _ _ _ Hir) as [[Hnotin Hnd]%NoDup_cons Htodo]. pose proof (Htodo j ltac:(by left)) as Hjo.
  pose proof Hjo as [Hj0 Hjme]%elem_of_other_peers. rewrite (lg_me _ _ (ir_leading _ _ _ _ Hir)) in Hjme.
  destruct (decide (j ∈ B)) as [HjB|HjB].
  - pose proof (Hf j HjB) as Hfj. rewrite decide_True in Hfj by by left.
    destruct (peer_answers k s ld rd j todo Hir Hfj) as (s1 & ld1 & rd1 & Hto & Hir1 & Hmv & Hf1 & Hn1 & Hcount).
    pose proof (moves_fields _ _ _ Hmv) as (Hp1 & _). pose proof (leader_part_log _ _ (mv_part _ _ _ Hmv)) as (_ & _ & _ & _ & _ & _ & _ & Hme1 & _).
    assert (exists A1, counted ld1 rd1 todo A1 /\ A ⊆ A1 /\ (k = 0%nat -> j ∈ A1)) as (A1 & Hcn1 & HAA & Hin).
    { destruct Hcount as [[Hcount Hk]|[Hcount Hmj]].
      - exists A. split_and!; [eapply counted_moves; [done..|lia|done]|done|done].
      - exists (j :: A). split_and!; [by eapply counted_answer|set_solver|intros _; by left]. }
    destruct (IH s1 ld1 rd1 A1 Hir1) as (s' & ld' & rd' & A' & Hto' & Hir' & Hp' & ?).
    + intros l Hl. rewrite (other_peers_same ld ld1) by done. by apply HB.
    + intros l Hl. destruct (decide (l = j)) as [->|Hne]; [by rewrite decide_False|].
      pose proof (HB l Hl) as [? Hlme]%elem_of_other_peers. rewrite (lg_me _ _ (ir_leading _ _ _ _ Hir)) in Hlme.
      apply (follows_else _ s s1 ld ld1 j l); [lia|lia|done|done|by apply Hn1|].
      specialize (Hf l Hl). destruct (decide (l ∈ todo)); [by rewrite decide_True in Hf by by right|].
      rewrite decide_False in Hf; [done|set_solver].
    + done.
    + intros Hk l Hl Hlt. destruct (decide (l = j)) as [->|Hne]; [by apply Hin|]. apply HAA, HA; [done..|set_solver].
    + exists s', ld', rd', A'. split; [by eapply leads_to_trans|]. split; [done|]. split; [rewrite Hp'; apply Hmv|done].
  - destruct (peer_silent s ld rd j todo Hir) as (s1 & rd1 & Hto & Hir1 & Hn1 & Hcount).
    destruct (IH s1 ld rd1 A Hir1) as (s' & ld' & rd' & A' & Hto' & ?).
    + done.
    + intros l Hl. assert (l <> j) by (intros ->; done).
      specialize (Hf l Hl). unfold follows in *. rewrite Hn1. destruct (decide (l ∈ todo)); [by rewrite decide_True in Hf by by right|].
      rewrite decide_False in Hf; [done|set_solver].
    + eapply counted_moves; [done|apply moves_refl|lia|done].
    + intros Hk l Hl Hlt. apply HA; [done..|]. set_solver.
    + exists s', ld', rd', A'. split; [by eapply leads_to_trans|done].
Qed.

(** ** Rounds one after the other *)

Lemma choose_rpcs_all ld ps : (forall j, j ∈ ps -> 0 <= j /\ next_ok ld j) ->
  exists rpcs, choose_rpcs ld ps = Ret rpcs /\
    forall j next, j ∈ ps -> nextIndex ld !! Z.to_nat j = Some next -> (j, next - 1 <? lastAppliedIndex ld) ∈ rpcs.
Proof.
  induction ps as [|p ps IH]; intros Hps; cbn [choose_rpcs].
  { exists []. split; [done|]. by intros ? ? ?%elem_of_nil. }
  destruct (Hps p ltac:(by left)) as (Hp & next & Hn & _). rewrite (go_index_lookup _ _ _ Hp Hn). cbn [rbind].
  destruct IH as (rpcs & -> & Hin); [intros j Hj; apply Hps; by right|]. cbn [rbind]. eexists. split; [done|].
  intros j next' [->|Hj]%elem_of_cons Hn'; [rewrite Hn in Hn'; injection Hn' as ->; by left|right; by apply Hin].
Qed.

Lemma other_peers_length rf : 0 <= me rf < npeers rf -> NoDup (other_peers rf) /\ len (other_peers rf) = npeers rf - 1.
Proof.
  intros Hme. unfold other_peers. set (ids := Z.of_nat <$> seq 0 (Z.to_nat (npeers rf))).
  assert (NoDup ids) as Hids by (apply NoDup_fmap_2; [apply _|apply NoDup_seq]).
  split; [by apply NoDup_filter|]. unfold len. rewrite <- (size_list_to_set (C := gset Z)) by by apply NoDup_filter.
  assert (list_to_set (filter (fun i => i <> me rf) ids) = (list_to_set ids : gset Z) ∖ {[me rf]}) as ->.
  { apply set_eq. intros x. rewrite elem_of_list_to_set, list_elem_of_filter, elem_of_difference, elem_of_list_to_set, elem_of_singleton. tauto. }
  rewrite size_difference, size_list_to_set, size_singleton; [|done|].
  - unfold ids. rewrite length_fmap, length_seq. lia.
  - intros x ->%elem_of_singleton. apply elem_of_list_to_set. unfold ids. apply list_elem_of_fmap. exists (Z.to_nat (me rf)).
    rewrite elem_of_seq. lia.
Qed.

Lemma round_begins s ld : leading s ld -> 0 <= i < Z.of_nat n -> rounds (repl s) !! i = None ->
  exists s1 rd, leads_to s s1 /\ in_round s1 ld rd (other_peers ld) /\ nodes s1 = nodes s /\ rd_count rd = 1.
Proof.
  intros Hlg Hn Hr. destruct (choose_rpcs_all ld (other_peers ld)) as (rpcs & Hrpcs & Hin).
  { intros j Hj. split; [by apply elem_of_other_peers in Hj as [? _]; lia|by apply (lg_next _ _ Hlg)]. }
  destruct (other_peers_length ld) as [Hnd Hlen]; [rewrite (lg_me _ _ Hlg), (lg_peers _ _ Hlg); done|].
  eexists _, _. split; [|split; [split|]].
  - eapply (leads_to_once (ERound i 0)); [done|]. cbn [step]. unfold round. rewrite (lg_node _ _ Hlg), (lg_elect _ _ Hlg), Hr.
    unfold ticker. rewrite (lg_alive _ _ Hlg), (lg_leads _ _ Hlg), Z.eqb_refl. unfold sendAERpcs_begin. rewrite Hrpcs. cbn [rbind]. reflexivity.
  - destruct Hlg. by split.
  - apply lookup_insert_eq.
  - done.
  - by split.
  - intros j next Hj Hnext. specialize (Hin j next Hj Hnext). cbn. unfold rpc_peers.
    case_match eqn:He; apply elem_of_list_to_set, list_elem_of_fmap; eexists; (split; [|apply list_elem_of_filter; split; [|exact Hin]]);
      cbn; congruence.
  - cbn. lia.
  - split; done.
Qed.

Lemma quorum_last s ld rd A :
  leading s ld -> 0 <= i < Z.of_nat n -> counted ld rd [] A -> Z.quot (Z.of_nat n) 2 < 1 + len A -> quorum ld (last_index ld).
Proof.
  intros Hlg Hi [Hnd _ Hm] Hmaj. unfold quorum, copies. rewrite (lg_entry _ _ Hlg), (lg_peers _ _ Hlg).
  enough (length A <= length (filter (fun j => RaftLog.holds ld (last_index ld) j = true) (peer_ids ld)))%nat by (unfold len in *; lia).
  apply submseteq_length, NoDup_submseteq; [done|]. intros j Hj. destruct (Hm j Hj) as (Ho%elem_of_other_peers & _ & Hmj).
  destruct Ho as [Hr Hne]. apply list_elem_of_filter. split.
  - unfold RaftLog.holds. rewrite Hmj, Z.geb_leb, Z.leb_refl, andb_true_r. by apply negb_true_iff, Z.eqb_neq.
  - unfold peer_ids. apply list_elem_of_fmap. exists (Z.to_nat j). rewrite elem_of_seq. lia.
Qed.

Lemma findMaxN_last s ld : leading s ld -> quorum ld (last_index ld) -> findMaxN ld = Ret (last_index ld).
Proof.
  intros Hlg Hq. unfold findMaxN. fold (last_index ld). destruct (Z.gtb_spec (last_index ld) (commitIndex ld)) as [Hgt|]; [|done].
  destruct (Z.to_nat (last_index ld - commitIndex ld)) as [|k] eqn:Hk; [lia|]. cbn [findMaxN_loop].
  replace (commitIndex ld + Z.of_nat (S k)) with (last_index ld) by lia. rewrite count_match_eq.
  - cbn [rbind]. fold (peer_ids ld). fold (copies ld (last_index ld)). destruct (Z.gtb_spec (copies ld (last_index ld)) (Z.quot (npeers ld) 2)); [done|].
    unfold quorum in Hq. lia.
  - pose proof (lg_entry _ _ Hlg) as He. unfold current_entry in He. destruct (entry_at ld (last_index ld)) eqn:Hen; [|done].
    unfold entry_at in Hen. destruct (Z.gtb_spec (last_index ld) (lastAppliedIndex ld)); [lia|done].
  - intros j (l & -> & Hl%elem_of_seq)%list_elem_of_fmap. rewrite (lg_match _ _ Hlg). lia.
Qed.

(** The end of a round: a majority of acceptances commits the whole log. *)
Lemma round_ends s ld rd A :
  in_round s ld rd [] -> counted ld rd [] A -> 0 <= i < Z.of_nat n ->
  exists s' N, leads_to s s' /\ leading s' (set_commitIndex N ld) /\ rounds (repl s') !! i = None /\
    (forall l, l <> i -> nodes s' !! l = nodes s !! l) /\ (N = commitIndex ld \/ N = last_index ld) /\
    (Z.quot (Z.of_nat n) 2 < 1 + len A -> last_index ld <= N).
Proof.
  intros [Hlg Hrd Ht _ _ Hfin] Hcn Hi.
  assert (exists N, sendAERpcs_finish (rd_count rd) ld = Ret (set_commitIndex N ld) /\ (N = commitIndex ld \/ N = last_index ld) /\
    (Z.quot (Z.of_nat n) 2 < 1 + len A -> last_index ld <= N)) as (N & Hrun & HN & Hmaj).
  { unfold sendAERpcs_finish. rewrite (cn_count _ _ _ _ Hcn), (lg_peers _ _ Hlg).
    assert (set_commitIndex (commitIndex ld) ld = ld) as Hid by by destruct ld.
    destruct (Z.gtb_spec (1 + len A) (Z.quot (Z.of_nat n) 2)) as [Hq|Hq].
    2: { exists (commitIndex ld). rewrite Hid. split_and!; [done|by left|lia]. }
    rewrite (findMaxN_last s ld Hlg) by by eapply quorum_last. cbn [rbind].
    destruct (Z.gtb_spec (last_index ld) (commitIndex ld)); [exists (last_index ld)|exists (commitIndex ld); rewrite Hid];
      split_and!; auto; lia. }
  eexists _, N. split; [|split; [|split; [|split]]].
  - eapply (leads_to_once (ERoundFinish i)).
    { cbn [orderly]. rewrite (lg_node _ _ Hlg), Hrd, Ht, Z.eqb_refl. apply orb_true_r. }
    cbn [step]. unfold round_finish. rewrite (lg_node _ _ Hlg), Hrd. unfold all_finished.
    rewrite (proj2 (Z.eqb_eq (rd_finished rd) (npeers ld - 1))), Hrun; [reflexivity|unfold len in Hfin; cbn in Hfin; lia].
  - destruct Hlg. split; try done. apply lookup_insert_eq.
  - apply lookup_delete_eq.
  - intros l Hl. cbn. by rewrite lookup_insert_ne.
  - done.
Qed.

(** What a leader keeps in its rounds. *)
Definition kept ld ld' : Prop :=
  Log ld' = Log ld /\ lastAppliedIndex ld' = lastAppliedIndex ld /\ currentTerm ld' = currentTerm ld /\ leaderId ld' = leaderId ld /\
  lastApplied ld' = lastApplied ld /\ sender ld' = sender ld.

Lemma round_run (B : list Z) k s ld :
  leading s ld -> 0 <= i < Z.of_nat n -> rounds (repl s) !! i = None -> (forall j, j ∈ B -> j ∈ other_peers ld) ->
  (forall j, j ∈ B -> follows k s ld j) ->
  exists s' ld', leads_to s s' /\ leading s' ld' /\ rounds (repl s') !! i = None /\ kept ld ld' /\
    (forall j, j ∈ B -> follows (pred k) s' ld' j) /\ (commitIndex ld' = commitIndex ld \/ commitIndex ld' = last_index ld) /\
    (k = 0%nat -> NoDup B -> Z.quot (Z.of_nat n) 2 < 1 + len B -> last_index ld <= commitIndex ld').
Proof.
  intros Hlg Hi Hr HB Hf. destruct (round_begins s ld Hlg Hi Hr) as (s1 & rd & Hto1 & Hir1 & Hn1 & Hc1).
  destruct (round_loop B k (other_peers ld) s1 ld rd [] Hir1 HB) as (s2 & ld2 & rd2 & A & Hto2 & Hir2 & Hp2 & Hf2 & Hcn2 & HA).
  - intros j Hj. rewrite decide_True by by apply HB. specialize (Hf j Hj). unfold follows in *. by rewrite Hn1.
  - split; [apply NoDup_nil_2|by rewrite Hc1|by intros j ?%elem_of_nil].
  - intros _ j Hj Hno. destruct Hno. by apply HB.
  - destruct (round_ends s2 ld2 rd2 A Hir2 Hcn2 Hi) as (s3 & N & Hto3 & Hlg3 & Hr3 & Hn3 & HN & Hmaj).
    pose proof (leader_part_log _ _ Hp2) as (Hlast & _ & _ & Hli & _ & Hct & Hlid & Hme & Hap).
    assert (commitIndex ld2 = commitIndex ld /\ sender ld2 = sender ld /\ Log ld2 = Log ld /\ npeers ld2 = npeers ld) as (Hci & Hse & Hlog & Hnp).
    { unfold leader_part in Hp2. by injection Hp2. }
    exists s3, (set_commitIndex N ld2). split_and!; [eapply leads_to_trans; [exact Hto1|]; by eapply leads_to_trans|done|done|done| | |].
    + intros j Hj. apply follows_commit. destruct (Hf2 j Hj) as (fl & next & Hfl & ?). exists fl, next. split; [|done].
      rewrite Hn3; [done|]. pose proof (HB j Hj) as [_ Hne]%elem_of_other_peers. by rewrite (lg_me _ _ Hlg) in Hne.
    + cbn. rewrite <- Hci, <- Hlast. done.
    + intros Hk Hnd HmB. cbn. rewrite <- Hlast. apply Hmaj.
      enough (length B <= length A)%nat by (unfold len in *; lia). apply submseteq_length, NoDup_submseteq; [done|].
      intros j Hj. by apply HA.
Qed.

(** After enough rounds the whole log of the leader is committed. *)
Lemma rounds_run (B : list Z) k s ld :
  leading s ld -> 0 <= i < Z.of_nat n -> rounds (repl s) !! i = None -> (forall j, j ∈ B -> j ∈ other_peers ld) ->
  (forall j, j ∈ B -> follows k s ld j) -> NoDup B -> Z.quot (Z.of_nat n) 2 < 1 + len B -> commitIndex ld <= last_index ld ->
  exists s' ld', leads_to s s' /\ leading s' ld' /\ kept ld ld' /\ commitIndex ld' = last_index ld.
Proof.
  intros Hlg Hi Hr HB Hf Hnd Hmaj Hci. revert s ld Hlg Hr HB Hf Hci. induction k as [|k IH]; intros s ld Hlg Hr HB Hf Hci;
    destruct (round_run B _ s ld Hlg Hi Hr HB Hf) as (s1 & ld1 & Hto1 & Hlg1 & Hr1 & Hk1 & Hf1 & Hc1 & Hlast1).
  - exists s1, ld1. specialize (Hlast1 eq_refl Hnd Hmaj). split_and!; [done..|]. destruct Hc1; lia.
  - assert (last_index ld1 = last_index ld) as Hl1 by (destruct Hk1 as (Hl & Hli & _); unfold last_index; by rewrite Hl, Hli).
    destruct (IH s1 ld1 Hlg1 Hr1) as (s2 & ld2 & Hto2 & Hlg2 & Hk2 & Hc2); [|done|destruct Hc1; lia|].
    + intros j Hj. rewrite (other_peers_same ld ld1); [by apply HB| |]; [|rewrite (lg_me _ _ Hlg1); by rewrite (lg_me _ _ Hlg)].
      rewrite (lg_peers _ _ Hlg1). by rewrite (lg_peers _ _ Hlg).
    + exists s2, ld2. split_and!; [by eapply leads_to_trans|done| |congruence].
      destruct Hk1 as (?&?&?&?&?&?), Hk2 as (?&?&?&?&?&?). split_and!; congruence.
Qed.

(** The applier sends the committed entries, the last one last. *)
Lemma apply_msgs_snoc rf k j : apply_msgs rf j (S k) = apply_msgs rf j k ++
  [mkApplyMsg true (entry_at rf (j + Z.of_nat k) ≫= Command) (j + Z.of_nat k) false [] 0 0].
Proof.
  revert j. induction k as [|k IH]; intros j; cbn [apply_msgs app].
  - by replace (j + Z.of_nat 0) with j by lia.
  - specialize (IH (j + 1)). cbn [apply_msgs] in IH. rewrite IH.
    by replace (j + 1 + Z.of_nat k) with (j + Z.of_nat (S k)) by lia.
Qed.

Lemma apply_msgs_length rf j k : length (apply_msgs rf j k) = k.
Proof. revert j. induction k as [|k IH]; intros j; cbn; [done|by rewrite IH]. Qed.

Lemma apply_msgs_lookup rf j k l m : apply_msgs rf j k !! l = Some m ->
  (l < k)%nat /\ m = mkApplyMsg true (entry_at rf (j + Z.of_nat l) ≫= Command) (j + Z.of_nat l) false [] 0 0.
Proof.
  revert j l. induction k as [|k IH]; intros j l; cbn; [done|]. destruct l as [|l]; cbn.
  - intros [= <-]. split; [lia|]. by replace (j + Z.of_nat 0) with j by lia.
  - intros [? ->]%IH. split; [lia|]. by replace (j + 1 + Z.of_nat l) with (j + Z.of_nat (S l)) by lia.
Qed.

(** [ApplyMsgSender] hands to the service all that the applier sends, when it is
    in step. *)
Lemma forwards_applied rf0 rf k : forwards rf0 rf ->
  ApplyMsgSender rf0 (sender rf ++ apply_msgs rf (lastApplied rf + 1) k) =
  ApplyMsgSender rf0 (sender rf) ++ apply_msgs rf (lastApplied rf + 1) k.
Proof.
  intros Hf. unfold ApplyMsgSender. rewrite ApplyMsgSender_loop_app, Hf.
  by rewrite (ApplyMsgSender_loop_id _ _ (apply_msgs_stream rf (lastApplied rf + 1) k)).
Qed.

Lemma applies s ld :
  leading s ld -> commitIndex ld = last_index ld -> lastAppliedIndex ld <= lastApplied ld < last_index ld ->
  exists s', leads_to s s' /\ nodes s' !! i = Some (set_lastApplied (last_index ld)
    (set_sender (sender ld ++ apply_msgs ld (lastApplied ld + 1) (Z.to_nat (last_index ld - lastApplied ld))) ld)).
Proof.
  intros Hlg Hci Hr. eexists. split.
  - eapply (leads_to_once (EApply i 0)); [done|]. cbn [step]. unfold apply_committed. rewrite (lg_node _ _ Hlg), Hci, Z.sub_0_r.
    unfold applyLogToRsm. rewrite Hci. destruct (Z.gtb_spec (last_index ld) (lastApplied ld)); [|lia].
    rewrite apply_loop_eq by lia. rewrite decide_False by lia. reflexivity.
  - apply lookup_insert_eq.
Qed.

(** The message for the entry at an index of the log. *)
Definition log_msg rf (k : Z) : ApplyMsg Cmd := mkApplyMsg true (entry_at rf k ≫= Command) k false [] 0 0.

(** What is handed over when the applier reaches [k + 1]. *)
Lemma handed_over rf0 ld k : forwards rf0 ld -> lastApplied ld <= k ->
  exists handed, ApplyMsgSender rf0 (sender ld ++ apply_msgs ld (lastApplied ld + 1) (Z.to_nat (k + 1 - lastApplied ld))) =
      ApplyMsgSender rf0 (sender ld) ++ handed ++ [mkApplyMsg true (entry_at ld (k + 1) ≫= Command) (k + 1) false [] 0 0] /\
    len handed = k - lastApplied ld /\
    forall j m, handed !! j = Some m -> (j < Z.to_nat (k - lastApplied ld))%nat /\
      m = log_msg ld (lastApplied ld + 1 + Z.of_nat j).
Proof.
  intros Hf Hk. exists (apply_msgs ld (lastApplied ld + 1) (Z.to_nat (k - lastApplied ld))). split; [|split].
  - replace (Z.to_nat (k + 1 - lastApplied ld)) with (S (Z.to_nat (k - lastApplied ld))) by lia.
    rewrite forwards_applied, apply_msgs_snoc by done. do 2 f_equal.
    by replace (lastApplied ld + 1 + Z.of_nat (Z.to_nat (k - lastApplied ld))) with (k + 1) by lia.
  - unfold len. rewrite apply_msgs_length. lia.
  - intros j m. apply apply_msgs_lookup.
Qed.

End rounds.

(** ** An election *)

Section election.
Context {Cmd : Type} `{!Gob (gval Cmd)}.
Implicit Types (rf cd fl : Raft Cmd) (s : cluster Cmd).
Context (i : Z).

(** The log of [rf] is at least as up to date as that of [fl]. *)
Definition newer_log rf fl : Prop :=
  last_term fl < last_term rf \/ last_term rf = last_term fl /\ last_index fl <= last_index rf.

(** An election of [i] that has still to ask the peers [todo]. *)
Record in_election s cd el (todo : list Z) : Prop := {
  ie_node : nodes s !! i = Some cd;
  ie_election : elections s !! i = Some el;
  ie_round : rounds (repl s) !! i = None;
  ie_me : me cd = i;
  ie_term : el_term el = currentTerm cd;
  ie_todo : NoDup todo /\ forall j, j ∈ todo -> j ∈ other_peers cd;
  ie_wait : forall j, j ∈ todo -> j ∈ waiting el;
  ie_finished : finished el + len todo = npeers cd - 1;
}.

Definition request_of cd : RequestVoteArgs := mkRVArgs (currentTerm cd) (me cd) (last_index cd) (last_term cd).

Lemma step_send s cd el j todo : in_election s cd el (j :: todo) ->
  step (ESend i j) s = Some (mkCluster (nodes s)
    (<[i := mkElection (el_term el) (finished el) (voteCount el) (waiting el ∖ {[j]}) (pending el ∪ {[j]})]> (elections s))
    (reqs s ++ [(j, request_of cd)]) (reps s) (aes s) (iss s) (ballots s) (tally s) (won s) (repl s)).
Proof.
  intros [Hi Hel _ _ Ht _ Hw _]. cbn [step]. unfold send. rewrite Hi, Hel, decide_True by (apply Hw; by left).
  unfold electionSender_send. by rewrite Ht, Z.eqb_refl, last_log_eq.
Qed.

(** The answer of [j] is in, or does not come. *)
Lemma in_election_next s s' cd el el' j todo :
  in_election s cd el (j :: todo) -> nodes s' !! i = Some cd -> elections s' !! i = Some el' -> repl s' = repl s ->
  el_term el' = el_term el -> finished el' = finished el + 1 -> waiting el' = waiting el ∖ {[j]} -> in_election s' cd el' todo.
Proof.
  intros [Hi Hel Hr Hme Ht [[Hj Hnd]%NoDup_cons Htodo] Hw Hf] Hi' Hel' Hr' Ht' Hf' Hw'. split; try done; try congruence.
  - split; [done|]. intros l Hl. apply Htodo. by right.
  - intros l Hl. rewrite Hw'. apply elem_of_difference. split; [apply Hw; by right|]. by intros ->%elem_of_singleton.
  - rewrite Hf'. unfold len in *. cbn [length] in Hf. lia.
Qed.

Lemma vote_lost s cd el j todo : in_election s cd el (j :: todo) ->
  exists s' el', leads_to s s' /\ in_election s' cd el' todo /\ nodes s' = nodes s /\ voteCount el' = voteCount el.
Proof.
  intros Hie. pose proof Hie as [Hi Hel _ _ Ht _ _ _]. eexists _, _. split; [|split].
  - eapply (leads_to_step (ESend i j)); [done|by eapply step_send|].
    eapply (leads_to_once (ERecv i j None)); [done|]. cbn [step]. unfold recv. cbn. rewrite Hi, lookup_insert_eq.
    cbn [el_term pending voteCount finished waiting]. destruct (decide _) as [|Hno]; [|destruct Hno; set_solver].
    unfold electionSender_recv. rewrite Ht, Z.eqb_refl. cbn [negb]. reflexivity.
  - eapply in_election_next; [done|cbn; apply lookup_insert_eq|cbn; apply lookup_insert_eq|done..].
  - cbn. split; [by apply insert_id|done].
Qed.

Lemma vote_granted s cd el j todo fl :
  in_election s cd el (j :: todo) -> nodes s !! j = Some fl -> currentTerm fl < currentTerm cd -> newer_log cd fl ->
  exists s' el' fl', leads_to s s' /\ in_election s' cd el' todo /\ voteCount el' = voteCount el + 1 /\
    nodes s' !! j = Some fl' /\ log_of fl' = log_of fl /\ currentTerm fl' = currentTerm cd /\
    forall l, l <> j -> nodes s' !! l = nodes s !! l.
Proof.
  intros Hie Hfl Hlt Hnew. pose proof Hie as [Hi Hel _ Hme Ht [_ Htodo] _ _].
  assert (j <> i) as Hji by (destruct (proj1 (elem_of_other_peers _ _) (Htodo j ltac:(by left))); congruence).
  assert (grants (request_of cd) fl) as Hg.
  { split_and!; [cbn; lia|left; cbn; lia|]. destruct Hnew as [?|[? ?]]; [by left|right; by split]. }
  set (fl' := updateElectionTimeout 0 0 (updateVoteFor (me cd) (adopt_term (currentTerm cd) fl))).
  assert (RequestVote 0 0 (request_of cd) fl = Ret (fl', mkRVReply (currentTerm fl) true)) as Hrun.
  { rewrite RequestVote_eq, decide_True by done. by rewrite bool_decide_true. }
  eexists _, _, fl'. split; [|split; [|split; [|split; [|split; [|split]]]]].
  - eapply (leads_to_step (ESend i j)); [done|by eapply step_send|].
    eapply (leads_to_step (EVote (length (reqs s)) 0 0)); [done|..].
    { cbn [step]. unfold vote. cbn. rewrite lookup_app_new, Hfl, Hrun. cbn. reflexivity. }
    eapply (leads_to_once (ERecv i j (Some (length (reps s))))); [done|]. cbn [step]. unfold recv. cbn.
    rewrite lookup_insert_ne by done. rewrite Hi, lookup_insert_eq. cbn [el_term pending voteCount finished waiting].
    destruct (decide _) as [|Hno]; [|destruct Hno; set_solver].
    rewrite lookup_app_new, decide_True by done. unfold electionSender_recv. rewrite Ht, Z.eqb_refl. cbn.
    destruct (Z.gtb_spec (currentTerm fl) (currentTerm cd)); [lia|]. reflexivity.
  - eapply in_election_next; [done|cbn; apply lookup_insert_eq|cbn; apply lookup_insert_eq|done..].
  - done.
  - cbn. rewrite lookup_insert_ne by done. apply lookup_insert_eq.
  - unfold fl', adopt_term. by case_cond.
  - unfold fl', adopt_term. destruct (Z.gtb_spec (currentTerm cd) (currentTerm fl)); [done|lia].
  - intros l Hl. cbn. destruct (decide (l = i)) as [->|]; [by rewrite lookup_insert_eq|by rewrite !lookup_insert_ne].
Qed.

(** What voters keep while the votes come in. *)
Definition polled (open : bool) s0 s cd (j : Z) : Prop :=
  exists fl fl', nodes s0 !! j = Some fl /\ nodes s !! j = Some fl' /\ log_of fl' = log_of fl /\
    if open then currentTerm fl' < currentTerm cd /\ newer_log cd fl' else currentTerm fl' = currentTerm cd.

Lemma election_loop (B V : list Z) s0 todo s cd el :
  in_election s cd el todo -> (forall j, j ∈ B -> polled (bool_decide (j ∈ todo)) s0 s cd j) ->
  NoDup V -> (forall j, j ∈ V -> j ∉ todo) -> voteCount el = 1 + len V -> (forall j, j ∈ B -> j ∉ todo -> j ∈ V) ->
  exists s' el' V', leads_to s s' /\ in_election s' cd el' [] /\ (forall j, j ∈ B -> polled false s0 s' cd j) /\
    voteCount el' = 1 + len V' /\ B ⊆ V'.
Proof.
  revert s el V. induction todo as [|j todo IH]; intros s el V Hie Hp Hnd Hout Hv HB.
  { exists s, el, V. split_and!; [apply leads_to_refl|done| |done|].
    - intros j Hj. specialize (Hp j Hj). by rewrite bool_decide_false in Hp by by intros ?%elem_of_nil.
    - intros j Hj. apply HB; [done|]. by intros ?%elem_of_nil. }
  pose proof (ie_todo _ _ _ _ Hie) as [[Hj _]%NoDup_cons _].
  assert (forall s1, (forall l, l <> j -> nodes s1 !! l = nodes s !! l) -> forall l, l ∈ B -> l <> j -> polled (bool_decide (l ∈ todo)) s0 s1 cd l)
    as Hothers.
  { intros s1 Hn1 l Hl Hne. destruct (Hp l Hl) as (fl & fl1 & ? & ? & ? & Hcase). exists fl, fl1. split_and!; [done|by rewrite Hn1|done|].
    by rewrite (bool_decide_ext (l ∈ todo) (l ∈ j :: todo)) by set_solver. }
  destruct (decide (j ∈ B)) as [HjB|HjB].
  - destruct (Hp j HjB) as (fl & fl1 & Hfl & Hfl1 & Hlog & Ht). rewrite bool_decide_true in Ht by by left.
    destruct Ht as [Hlt Hnew]. destruct (vote_granted s cd el j todo fl1 Hie Hfl1 Hlt Hnew)
      as (s1 & el1 & fl2 & Hto & Hie1 & Hv1 & Hfl2 & Hlog2 & Ht2 & Helse).
    destruct (IH s1 el1 (j :: V) Hie1) as (s2 & el2 & V2 & Hto2 & ?).
    + intros l Hl. destruct (decide (l = j)) as [->|Hne]; [|by apply Hothers].
      rewrite bool_decide_false by done. exists fl, fl2. split_and!; [done|done|congruence|done].
    + apply NoDup_cons. split; [|done]. intros HjV. destruct (Hout j HjV). by left.
    + intros l [->|Hl]%elem_of_cons; [done|]. specialize (Hout l Hl). set_solver.
    + rewrite Hv1, Hv. unfold len. cbn [length]. lia.
    + intros l Hl Hlt'. destruct (decide (l = j)) as [->|]; [by left|right]. apply HB; [done|]. set_solver.
    + exists s2, el2, V2. split; [by eapply leads_to_trans|done].
  - destruct (vote_lost s cd el j todo Hie) as (s1 & el1 & Hto & Hie1 & Hn1 & Hv1).
    destruct (IH s1 el1 V Hie1) as (s2 & el2 & V2 & Hto2 & ?).
    + intros l Hl. apply Hothers; [by rewrite Hn1|done|]. by intros ->.
    + done.
    + intros l Hl. specialize (Hout l Hl). set_solver.
    + congruence.
    + intros l Hl Hlt. apply HB; [done|]. assert (l <> j) by (intros ->; done). set_solver.
    + exists s2, el2, V2. split; [by eapply leads_to_trans|done].
Qed.

(** A peer whose log is new enough for a majority wins its election. *)
Lemma election_run n (B : list Z) s rf now :
  inv n s -> nodes s !! i = Some rf -> elections s !! i = None -> rounds (repl s) !! i = None ->
  ticker now rf = StartElection -> NoDup B -> Z.quot (Z.of_nat n) 2 < 1 + len B ->
  (forall j, j ∈ B -> j <> i /\ exists fl, nodes s !! j = Some fl /\ currentTerm fl <= currentTerm rf /\ newer_log rf fl) ->
  exists s' votes, let ld := startElection_finish 0 0 votes (startElection_begin rf).1.1 in
    leads_to s s' /\ Z.quot (Z.of_nat n) 2 < votes /\ nodes s' !! i = Some ld /\ elections s' !! i = None /\
    rounds (repl s') !! i = None /\ forall j, j ∈ B -> polled false s s' (startElection_begin rf).1.1 j.
Proof.
  intros Hinv Hi He Hr Htick Hnd Hmaj HB. destruct (inv_node n s Hinv i rf Hi) as (Hme & Hnp & Hpi & _). unfold is_peer in Hpi.
  set (cd := (startElection_begin rf).1.1).
  destruct (other_peers_length cd) as [Hnd' Hlen]; [cbn; rewrite Hme, Hnp; done|].
  set (s1 := mkCluster (<[i := cd]> (nodes s))
    (<[i := mkElection (currentTerm rf + 1) 0 1 (list_to_set (other_peers cd)) ∅]> (elections s)) (reqs s) (reps s) (aes s) (iss s)
    (<[(i, currentTerm rf + 1) := i]> (ballots s)) (<[(currentTerm rf + 1, i) := {[i]}]> (tally s)) (won s) (repl s)).
  assert (step (EStart i now false) s = Some s1) as Hstart.
  { cbn [step]. unfold start. by rewrite Hi, He, Hr, Htick. }
  destruct (election_loop B [] s (other_peers cd) s1 cd (mkElection (currentTerm rf + 1) 0 1 (list_to_set (other_peers cd)) ∅))
    as (s2 & el & V & Hto & Hie & Hp & Hv & HBV).
  - split; try done; [apply lookup_insert_eq|apply lookup_insert_eq|cbn; intros j Hj; by apply elem_of_list_to_set].
  - intros j Hj. destruct (HB j Hj) as (Hne & fl & Hfl & Ht & Hnew). destruct (inv_node n s Hinv j fl Hfl) as (_ & _ & Hpj & _). unfold is_peer in Hpj.
    rewrite bool_decide_true by (apply elem_of_other_peers; cbn; rewrite Hme, Hnp; done).
    exists fl, fl. split_and!; [done|cbn; by rewrite lookup_insert_ne|done|cbn; lia|exact Hnew].
  - apply NoDup_nil_2.
  - by intros j ?%elem_of_nil.
  - done.
  - intros j Hj Hno. destruct Hno. destruct (HB j Hj) as (Hne & fl & Hfl & _). destruct (inv_node n s Hinv j fl Hfl) as (_ & _ & Hpj & _).
    unfold is_peer in Hpj. apply elem_of_other_peers. cbn. by rewrite Hme, Hnp.
  - pose proof Hie as [Hi2 Hel2 Hr2 _ Ht2 _ _ Hf2]. exists
      (mkCluster (<[i := startElection_finish 0 0 (voteCount el) cd]> (nodes s2)) (delete i (elections s2)) (reqs s2) (reps s2) (aes s2) (iss s2)
         (ballots s2) (tally s2) (if voteCount el >? Z.quot (npeers cd) 2 then won s2 ++ [(el_term el, i)] else won s2) (repl s2)), (voteCount el).
    cbv zeta. fold cd. split_and!.
    + eapply leads_to_step; [|exact Hstart|]; [done|]. eapply leads_to_trans; [exact Hto|].
      apply (leads_to_once (EFinish i 0 0)); [cbn; rewrite Hi2, Hel2, Ht2, Z.eqb_refl; apply orb_true_r|].
      cbn [step]. unfold finish. rewrite Hi2, Hel2. unfold all_finished.
      by rewrite (proj2 (Z.eqb_eq (finished el) (npeers cd - 1))) by (unfold len in Hf2; cbn in Hf2; cbn; lia).
    + apply (NoDup_submseteq _ V), submseteq_length in Hnd; [|done]. unfold len in *. lia.
    + apply lookup_insert_eq.
    + apply lookup_delete_eq.
    + done.
    + intros j Hj. destruct (HB j Hj) as (Hne & _). destruct (Hp j Hj) as (fl & fl' & ? & ? & ?). exists fl, fl'.
      cbn. by rewrite lookup_insert_ne.
Qed.

End election.

(** ** What orderly runs ensure *)

Section sound.
Context {Cmd : Type} `{!Gob (gval Cmd)}.
Implicit Types (rf ld fl : Raft Cmd) (s : cluster Cmd).
Context (n : nat) (c : gmap (Z * Z) (Entry Cmd * Z)) (s : cluster Cmd) (Hsound : sound n c s).

(** A leader's log matches every other. *)
Lemma sound_matching i j ld fl : nodes s !! i = Some ld -> leaderId ld = i -> nodes s !! j = Some fl -> matching ld fl.
Proof using Hsound.
  intros Hi Hl Hj. destruct Hsound as [[Hinv Hrec Hled Hroot Hsafe] _ _ Hco].
  assert (straight c ld) as Hs.
  { apply (leader_straight n c s i); try done. apply (co_base _ _ _ Hco i ld); [done|by left]. }
  pose proof (pl_logged _ _ _ (rec_peer _ _ _ Hrec j fl Hj)) as Hlf.
  intros k t m e e' Htl Htf Hmk He He'.
  assert (lastAppliedIndex fl < m) as Hm by (unfold entry_at in He'; destruct (Z.gtb_spec m (lastAppliedIndex fl)); [lia|done]).
  pose proof (term_at_anc c ld k t (straight_logged c ld Hs) (or_introl Hs) Htl) as Hal.
  assert (anc c (t, k) (tip fl)) as Haf by (apply term_at_anc; [done|right; lia|done]).
  destruct (entry_at_node c ld m e (straight_logged c ld Hs) He) as [Hae [p Hc]].
  destruct (entry_at_node c fl m e' Hlf He') as [Hae' [p' Hc']].
  assert (anc c (Term e, m) (t, k)) as H1 by (eapply anc_linear; [exact Hae|exact Hal|cbn; lia]).
  assert (anc c (Term e', m) (t, k)) as H2 by (eapply anc_linear; [exact Hae'|exact Haf|cbn; lia]).
  assert (Term e = Term e') as Heq by by eapply anc_unique. rewrite Heq in Hc. congruence.
Qed.

(** Snapshots at one index are the same. *)
Lemma sound_behind i j ld fl : nodes s !! i = Some ld -> nodes s !! j = Some fl -> lastAppliedIndex fl <= lastAppliedIndex ld -> behind ld fl.
Proof using Hsound.
  intros Hi Hj Hle. split; [done|]. intros Heq. pose proof Hsound as [Hg _ _ Hco]. pose proof Hg as [Hinv Hrec Hled Hroot Hsafe].
  assert (forall i rf, nodes s !! i = Some rf -> exists y, root_or_committed n c s y /\ anc c (base rf) y) as Hcov.
  { intros l rf Hl. destruct (co_base _ _ _ Hco l rf rf Hl (or_introl eq_refl)) as [->|(y & Hy & Ha & _)].
    - exists root. split; [by left|constructor].
    - exists y. split; [by right|done]. }
  destruct (Hcov i ld Hi) as (y & Hy & Ha), (Hcov j fl Hj) as (y' & Hy' & Ha').
  assert (exists u, anc c (base ld) u /\ anc c (base fl) u) as (u & Hu & Hu').
  { destruct (roots_comparable n c s y y' Hsound Hy Hy') as [Hc|Hc]; [exists y'|exists y]; split; try done; by eapply anc_trans. }
  unfold base in Hu, Hu'. rewrite Heq in Hu'. by eapply anc_unique.
Qed.

(** What was applied is in the log, or in the snapshot. *)
Lemma sound_applied i rf : nodes s !! i = Some rf -> commitIndex rf <= last_index rf /\ lastApplied rf <= last_index rf.
Proof using Hsound.
  intros Hi. pose proof (s_commit _ _ _ Hsound) as Hco. pose proof (co_applied _ _ _ Hco i rf Hi).
  pose proof (commits_index n c s _ _ _ _ _ (co_peer _ _ _ Hco i rf Hi)) as Hle. cbn in Hle.
  unfold last_index in *. pose proof (len_nonneg (Log rf)). lia.
Qed.

End sound.

(** ** A command from [Start] to the service *)

Section progress.
Context {Cmd : Type} `{!Gob (gval Cmd)}.
Implicit Types (rf ld fl : Raft Cmd) (s : cluster Cmd).
Context (n : nat) (i : Z) (cmd : option Cmd).

(** A candidate after it has won and has taken up a command. *)
Definition elected (votes : Z) rf : Raft Cmd := startElection_finish 0 0 votes (startElection_begin rf).1.1.
Definition taken_up (votes : Z) rf : Raft Cmd := (Start cmd (elected votes rf)).1.

Lemma taken_up_fields votes rf : Z.quot (npeers rf) 2 < votes ->
  let ld := taken_up votes rf in
  leaderId (elected votes rf) = me rf /\
  Log ld = Log rf ++ [mkLogEntry cmd (currentTerm rf + 1)] /\ lastAppliedIndex ld = lastAppliedIndex rf /\
  currentTerm ld = currentTerm rf + 1 /\ leaderId ld = me rf /\ me ld = me rf /\ npeers ld = npeers rf /\ killed ld = killed rf /\
  lastApplied ld = lastApplied rf /\ commitIndex ld = commitIndex rf /\ nextIndex ld = go_make (npeers rf) (last_index rf + 1) /\
  matchIndex ld = go_make (npeers rf) (last_index rf) /\ sender ld = sender rf.
Proof.
  intros Hv. cbv zeta. unfold taken_up. set (cd := (startElection_begin rf).1.1).
  assert (elected votes rf = updateElectionTimeout 0 0 (init_indices (set_leaderId (me cd) cd))) as ->.
  { unfold elected, startElection_finish. fold cd. change (npeers cd) with (npeers rf).
    destruct (Z.gtb_spec votes (Z.quot (npeers rf) 2)); [done|lia]. }
  split; [done|]. unfold Start. cbn. rewrite Z.eqb_refl. cbn. unfold last_index. split_and!; try done. f_equal. lia.
Qed.

Lemma taken_up_last votes rf : Z.quot (npeers rf) 2 < votes -> last_index (taken_up votes rf) = last_index rf + 1.
Proof.
  intros (_ & Hl & Hi & _)%taken_up_fields. unfold last_index. rewrite Hl, Hi, len_app. unfold len. cbn. lia.
Qed.

Lemma taken_up_entry votes rf : Z.quot (npeers rf) 2 < votes ->
  entry_at (taken_up votes rf) (last_index rf + 1) = Some (mkLogEntry cmd (currentTerm rf + 1)).
Proof.
  intros (_ & Hl & Hi & _)%taken_up_fields. unfold entry_at, last_index, len. rewrite Hl, Hi.
  destruct (Z.gtb_spec (Z.of_nat (length (Log rf)) + lastAppliedIndex rf + 1) (lastAppliedIndex rf)); [|lia].
  replace (Z.to_nat _) with (length (Log rf)) by lia. by apply lookup_app_new.
Qed.

Lemma taken_up_old_entry votes rf k : Z.quot (npeers rf) 2 < votes -> k <= last_index rf ->
  entry_at (taken_up votes rf) k = entry_at rf k.
Proof.
  intros (_ & Hl & Hi & _)%taken_up_fields Hk. unfold entry_at. rewrite Hl, Hi. destruct (Z.gtb_spec k (lastAppliedIndex rf)); [|done].
  apply lookup_app_l. unfold last_index, len in Hk. lia.
Qed.

Lemma taken_up_leading s votes rf :
  nodes s !! i = Some (taken_up votes rf) -> elections s !! i = None -> me rf = i -> npeers rf = Z.of_nat n -> 0 <= i < Z.of_nat n ->
  killed rf = false -> -1 <= lastAppliedIndex rf -> Z.quot (npeers rf) 2 < votes -> leading n i s (taken_up votes rf).
Proof.
  intros Hi He Hme Hnp Hpi Hk Hlow Hv. pose proof (taken_up_last votes rf Hv) as Hlast. pose proof (taken_up_entry votes rf Hv) as Hen.
  destruct (taken_up_fields votes rf Hv) as (_ & Hl & Hlai & Hct & Hld & Hme' & Hnp' & Hk' & Hla & Hci & Hnx & Hmt & _).
  split; try congruence.
  - rewrite Hmt, Hnp'. unfold len, go_make. rewrite length_replicate. lia.
  - intros j Hj. apply elem_of_other_peers in Hj as [Hj _]. rewrite Hnp' in Hj. exists (last_index rf + 1). rewrite Hnx, Hlast.
    split; [apply lookup_replicate; lia|]. unfold last_index. pose proof (len_nonneg (Log rf)). lia.
  - unfold current_entry. by rewrite Hlast, Hen, Hct, Z.eqb_refl.
Qed.

Lemma taken_up_follows c s s0 votes rf j :
  sound n c s -> nodes s !! i = Some (taken_up votes rf) -> me rf = i -> npeers rf = Z.of_nat n ->
  Z.quot (npeers rf) 2 < votes -> lastAppliedIndex rf <= lastApplied rf -> -1 <= lastAppliedIndex rf ->
  (exists fl, nodes s0 !! j = Some fl /\ lastAppliedIndex fl <= lastAppliedIndex rf) ->
  polled false s0 s (startElection_begin rf).1.1 j ->
  follows (S (S (Z.to_nat (last_index rf + 1)))) s (taken_up votes rf) j.
Proof.
  intros Hs Hi Hme Hnp Hv Hap Hlow (fl & Hfl & Hle) (fl0 & fl' & Hfl0 & Hfl' & Hlog & Ht). rewrite Hfl in Hfl0. injection Hfl0 as <-.
  apply log_of_same in Hlog as (_ & _ & _ & Hlai'). pose proof (taken_up_last votes rf Hv) as Hlast.
  destruct (taken_up_fields votes rf Hv) as (_ & Hl & Hlai & Hct & Hld & Hme' & Hnp' & Hk' & Hla & Hci & Hnx & Hmt & _).
  pose proof Hs as [[Hinv Hrec _ _ _] _ _ _]. pose proof (rec_peer _ _ _ Hrec j fl' Hfl') as Hpj.
  destruct (inv_node n s Hinv j fl' Hfl') as (_ & _ & Hpeer & _). unfold is_peer in Hpeer.
  assert (0 <= last_index rf + 1) as H0 by (unfold last_index; pose proof (len_nonneg (Log rf)); lia).
  exists fl', (last_index rf + 1). split_and!; [done| | | |].
  - split; rewrite ?Hld, ?Hme', ?Hct, ?Hla, ?Hnx, ?Hmt, ?Hlast; try done; try lia.
    + cbn in Ht. lia.
    + by apply (pl_lai _ _ _ Hpj).
    + apply lookup_replicate. lia.
    + eexists. apply lookup_replicate. split; [done|lia].
  - eapply sound_behind; [done..|]. lia.
  - eapply sound_matching; [done..| |done]. congruence.
  - right. right. rewrite Z2Nat.id by lia. apply Z.pow_gt_lin_r; lia.
Qed.

(** The peer [i], which was [rf0] when it was made, is ready to lead: its ticker
    waits neither for an election nor for a round and finds its election
    timeout passed; no snapshot that it has installed waits to be saved, so that
    its snapshot is not ahead of what it has applied and [ApplyMsgSender] is in
    step; and with the peers [B] it is a majority, of terms not later, with
    logs not newer and with snapshots not ahead of its own. *)
Record ready s rf0 rf (now : Z) (B : list Z) : Prop := {
  rd_node : nodes s !! i = Some rf;
  rd_elect : elections s !! i = None;
  rd_round : rounds (repl s) !! i = None;
  rd_tick : ticker now rf = StartElection;
  rd_saved : lastAppliedIndex rf <= lastApplied rf;
  rd_forwards : forwards rf0 rf;
  rd_nodup : NoDup B;
  rd_majority : Z.quot (Z.of_nat n) 2 < 1 + len B;
  rd_voters : forall j, j ∈ B -> j <> i /\ exists fl, nodes s !! j = Some fl /\ currentTerm fl <= currentTerm rf /\
    newer_log rf fl /\ lastAppliedIndex fl <= lastAppliedIndex rf;
}.

Lemma takes_up (Hn : (2 <= n)%nat) c s rf0 rf now B : sound n c s -> ready s rf0 rf now B ->
  exists s2 votes, let ld := taken_up votes rf in
    leads_to s s2 /\ Z.quot (npeers rf) 2 < votes /\ leading n i s2 ld /\ rounds (repl s2) !! i = None /\ me rf = i /\
    0 <= i < Z.of_nat n /\ forall j, j ∈ B -> j ∈ other_peers ld /\ follows (S (S (Z.to_nat (last_index rf + 1)))) s2 ld j.
Proof.
  intros Hs [Hi He Hr Htick Hap _ Hnd Hmaj HB].
  pose proof Hs as [[Hinv Hrec _ _ _] _ _ _]. destruct (inv_node n s Hinv i rf Hi) as (Hme & Hnp & Hpi & _). unfold is_peer in Hpi.
  pose proof (pl_lai _ _ _ (rec_peer _ _ _ Hrec i rf Hi)) as Hlow.
  assert (killed rf = false) as Hk by (unfold ticker in Htick; by destruct (killed rf)).
  destruct (election_run i n B s rf now Hinv Hi He Hr Htick Hnd Hmaj) as (s1 & votes & Hto1 & Hv & Hi1 & He1 & Hr1 & Hp).
  { intros j Hj. destruct (HB j Hj) as (? & fl & ? & ? & ? & _). split; [done|]. by exists fl. }
  rewrite <- Hnp in Hv. cbv zeta. set (ld := taken_up votes rf). set (s2 := with_node i ld s1).
  assert (leads_to s s2) as Hto2.
  { eapply leads_to_trans; [exact Hto1|]. apply (leads_to_once (ELocal i (SStart cmd))); [done|]. cbn [step]. unfold local. by rewrite Hi1. }
  destruct (leads_to_sound n Hn c s s2 Hs Hto2) as (c2 & Hs2).
  assert (nodes s2 !! i = Some ld) as Hi2 by apply lookup_insert_eq.
  exists s2, votes. split_and!; [done|done|by apply taken_up_leading|done|done|lia|lia|].
  intros j Hj. destruct (HB j Hj) as (Hne & fl & Hfl & _ & _ & Hle). split.
  - destruct (inv_node n s Hinv j fl Hfl) as (_ & _ & Hpj & _). unfold is_peer in Hpj. apply elem_of_other_peers.
    destruct (taken_up_fields votes rf Hv) as (_ & _ & _ & _ & _ & -> & -> & _). by rewrite Hme, Hnp.
  - apply (taken_up_follows c2 s2 s); try done; [by exists fl|].
    destruct (Hp j Hj) as (fl1 & fl2 & ? & ? & ?). exists fl1, fl2. cbn. by rewrite lookup_insert_ne.
Qed.

(** C6. Progress: in every state that an orderly run of two peers or more
    reaches, a peer that is ready to lead can make progress: an orderly run goes
    on in which it is elected in the next term, takes up any command at the next
    index and commits it, and [ApplyMsgSender] hands to its service, after what
    it has handed over before, one by one the commands that its log has at the
    indices that it had not applied, and this command last.  Ready to lead means
    that it has no election and no round under way and its election timeout has
    passed, that no installed snapshot waits to be saved, so that its snapshot
    is not ahead of [lastApplied] and [ApplyMsgSender], which began when the
    peer was [rf0], waits for the command after [lastApplied] ([forwards]), and
    that with peers of terms not later, logs not newer and snapshots not ahead
    of its own it is a majority. *)
Theorem cluster_progress es s rf0 rf now (B : list Z) :
  (2 <= n)%nat -> orderly_run es (init n) = true -> steps es (init n) = Some s -> ready s rf0 rf now B ->
  exists es' s' rf' handed, orderly_run es' s = true /\ steps es' s = Some s' /\ nodes s' !! i = Some rf' /\
    leaderId rf' = i /\ currentTerm rf' = currentTerm rf + 1 /\ commitIndex rf' = last_index rf + 1 /\
    ApplyMsgSender rf0 (sender rf') = ApplyMsgSender rf0 (sender rf) ++ handed ++
      [mkApplyMsg true cmd (last_index rf + 1) false [] 0 0] /\
    len handed = last_index rf - lastApplied rf /\
    forall k m, handed !! k = Some m -> m = log_msg rf (lastApplied rf + 1 + Z.of_nat k).
Proof.
  intros Hn Ho Hrun Hready. destruct (sound_steps n Hn es _ _ _ (sound_init n Hn) Ho Hrun) as (c & Hs & _).
  destruct (takes_up Hn c s rf0 rf now B Hs Hready) as (s2 & votes & Hto2 & Hv & Hlg & Hr2 & Hme & Hpi & HB).
  destruct Hready as [Hi _ _ _ Hap Hfw Hnd Hmaj _]. destruct (sound_applied n c s Hs i rf Hi) as [Hci Hal].
  set (ld := taken_up votes rf) in *. pose proof (taken_up_last votes rf Hv) as Hlast. fold ld in Hlast.
  pose proof (taken_up_fields votes rf Hv) as Hfields. cbv zeta in Hfields. fold ld in Hfields.
  destruct Hfields as (_ & Hlog & Hlai & Hct & Hld & Hme' & Hnp' & _ & Hla & Hcom & _ & _ & Hsend).
  destruct (rounds_run n i B (S (S (Z.to_nat (last_index rf + 1)))) s2 ld Hlg Hpi Hr2) as (s3 & ld3 & Hto3 & Hlg3 & Hk3 & Hc3);
    [intros j Hj; by apply HB|intros j Hj; by apply HB|done|done|lia|].
  destruct Hk3 as (Hk3l & Hk3i & Hk3t & Hk3d & Hk3a & Hk3s).
  assert (last_index ld3 = last_index ld) as Hlast3 by (unfold last_index; by rewrite Hk3l, Hk3i).
  destruct (applies n i s3 ld3 Hlg3) as (s4 & Hto4 & Hi4); [congruence|lia|].
  destruct (leads_to_trans s s2 s4 Hto2) as (es' & Ho' & Hrun'); [by eapply leads_to_trans|].
  assert (forwards rf0 ld3) as Hfw3 by (eapply forwards_same; [..|exact Hfw]; congruence).
  destruct (handed_over rf0 ld3 (last_index rf) Hfw3) as (handed & Hall & Hlen & Hidx); [lia|].
  assert (forall k, entry_at ld3 k = entry_at ld k) as Hen by (intros k; unfold entry_at; by rewrite Hk3l, Hk3i).
  unfold ld in Hen. rewrite Hen, taken_up_entry in Hall by done.
  eexists es', s4, _, handed.
  split_and!; [done|done|exact Hi4|cbn; congruence|cbn; congruence|cbn; congruence| | |].
  - cbn [sender set_lastApplied set_sender]. rewrite Hlast3, Hlast, Hall. by rewrite Hk3s, Hsend.
  - rewrite Hlen. lia.
  - intros k m Hk. destruct (Hidx k m Hk) as [Hlt ->]. unfold log_msg. rewrite Hen, taken_up_old_entry by (done || lia).
    by rewrite Hk3a, Hla.
Qed.

End progress.

Module Witness.
Import SafetySpec.SafetySpec.Runs.
#[local] Existing Instance Z_Gob.

(** Peer 0 has committed a command with peer 1, keeps two more for itself, and
    restarts; peer 2, which is behind, votes for it and catches up.  The service of
    the new instance is handed all commands again, and the new one last. *)
Definition before : list (event (Cmd := Z)) := first_half ++ [start_at 0 5; start_at 0 6; ECrash 0 (3 * sec) 0].

Definition readyb (s : cluster Z) : bool :=
  match nodes s !! 0, nodes s !! 2, elections s !! 0, rounds (repl s) !! 0 with
  | Some rf, Some fl, None, None =>
      match ticker (100 * sec) rf with StartElection => true | _ => false end &&
      bool_decide (lastAppliedIndex rf <= lastApplied rf /\ sender rf = [] /\ lastAppliedIndex rf = lastApplied rf /\
        lastApplied rf = -1 /\ last_index rf = 3 /\ currentTerm fl <= currentTerm rf /\
        last_term fl < last_term rf /\ lastAppliedIndex fl <= lastAppliedIndex rf)
  | _, _, _, _ => false
  end.

Lemma before_ready : match steps before (init 3) with Some s => readyb s | None => false end = true.
Proof. vm_compute. reflexivity. Qed.

Lemma before_orderly : orderly_run before (init 3) = true.
Proof. vm_compute. reflexivity. Qed.

Lemma cluster_progress_witness : exists (s s' : cluster Z) rf rf' handed,
  steps before (init 3) = Some s /\ nodes s !! 0 = Some rf /\ leads_to s s' /\ nodes s' !! 0 = Some rf' /\
  leaderId rf' = 0 /\ commitIndex rf' = 4 /\
  ApplyMsgSender rf (sender rf') = handed ++ [mkApplyMsg true (Some 9) 4 false [] 0 0] /\ len handed = 4.
Proof.
  pose proof before_ready as Hready. destruct (steps before (init 3)) as [s|] eqn:Hs; [|discriminate Hready]. unfold readyb in Hready.
  destruct (nodes s !! 0) as [rf|] eqn:Hi; [|discriminate Hready]. destruct (nodes s !! 2) as [fl|] eqn:Hj; [|discriminate Hready].
  destruct (elections s !! 0) eqn:He; [discriminate Hready|]. destruct (rounds (repl s) !! 0) eqn:Hr; [discriminate Hready|].
  destruct (ticker (100 * sec) rf) eqn:Ht; try discriminate Hready.
  cbn [andb] in Hready. apply bool_decide_eq_true in Hready as (Hap & Hse & Hla & Hla0 & Hlast & Hterm & Hnew & Hlai).
  destruct (cluster_progress 3 0 (Some 9) before s rf rf (100 * sec) [2])
    as (es' & s' & rf' & handed & Ho & Hrun & Hi' & Hl & _ & Hc & Hall & Hlen & _).
  - apply Nat.leb_le. reflexivity.
  - exact before_orderly.
  - exact Hs.
  - split; [exact Hi|exact He|exact Hr|exact Ht|exact Hap| |apply NoDup_singleton|reflexivity|].
    + unfold forwards. rewrite Hse, Hla. reflexivity.
    + intros j Hj2. apply list_elem_of_singleton in Hj2 as ->. split; [discriminate|]. exists fl.
      split; [exact Hj|]. split; [exact Hterm|]. split; [left; exact Hnew|exact Hlai].
  - exists s, s', rf, rf', handed. rewrite Hlast in Hc, Hall, Hlen. rewrite Hse in Hall. rewrite Hla0 in Hlen.
    split; [reflexivity|]. split; [exact Hi|]. split; [exists es'; split; assumption|].
    split; [exact Hi'|]. split; [exact Hl|]. split; [exact Hc|]. split; [exact Hall|exact Hlen].
Defined.

End Witness.

End Progress.
