(* ===== verification/Labrpc.v ===== *)
(** The simulated network of labrpc/labrpc.go. *)
From Stdlib Require Import Strings.Ascii.
From S2P Require Import Prelude Labgob.
Import Labgob.
Local Open Scope Z_scope.

Module Labrpc.

(** ** Strings *)

(** [strings.LastIndex(s, c)] for a one-byte separator *)
Fixpoint LastIndex (c : Ascii.ascii) (s : string) : Z :=
  match s with
  | EmptyString => -1
  | String a s =>
      let r := LastIndex c s in
      if r >=? 0 then r + 1 else if Ascii.eqb a c then 0 else -1
  end.

Fixpoint str_take (n : nat) (s : string) : string :=
  match n, s with
  | S n, String a s => String a (str_take n s)
  | _, _ => EmptyString
  end.

Fixpoint str_drop (n : nat) (s : string) : string :=
  match n, s with
  | O, _ => s
  | S n, String _ s => str_drop n s
  | S _, EmptyString => EmptyString
  end.

(** [s[:i]] and [s[i:]] *)
Definition str_to (s : string) (i : Z) : res string :=
  if (0 <=? i) && (i <=? Z.of_nat (String.length s)) then Ret (str_take (Z.to_nat i) s) else Panic.
Definition str_from (s : string) (i : Z) : res string :=
  if (0 <=? i) && (i <=? Z.of_nat (String.length s)) then Ret (str_drop (Z.to_nat i) s) else Panic.

(** Fixed-width counters. *)
Definition wrap (bits z : Z) : Z := (z + 2 ^ (bits - 1)) mod 2 ^ bits - 2 ^ (bits - 1).

(** ** Names, messages *)

(** The [interface{}] names of ends and servers. *)
Inductive name := NStr (s : string) | NInt (z : Z).

#[export] Instance name_eq_dec : EqDecision name.
Proof. solve_decision. Defined.

#[export] Instance name_countable : Countable name.
Proof.
  refine (inj_countable' (fun n => match n with NStr s => inl s | NInt z => inr z end)
    (fun s => match s with inl s => NStr s | inr z => NInt z end) _).
  by intros [].
Defined.

(** A Go type as the decoder uses it: its zero value and the values that decode
    into a variable of the type. *)
Record gtype {V : Type} := mkType { zero : V; as_type : V -> option V }.
Arguments gtype : clear implicits.
Arguments mkType {V}.

Record reqMsg {V : Type} := mkReq { endname : name; svcMeth : string; argsType : gtype V; args : bytes }.
Arguments reqMsg : clear implicits.
Arguments mkReq {V}.

Record replyMsg := mkReply { ok : bool; reply : bytes }.

(** ** Services and servers

    [W] is the state behind the receivers of the services: a method is a
    function on it.  [log.Fatalf] ends the process and counts as a panic. *)
Record Method {V W : Type} := mkMethod {
  m_accepts : V -> bool;
  m_body : V -> W -> W * V;
}.
Arguments Method : clear implicits.
Arguments mkMethod {V W}.

Record Service {V W : Type} := mkService { svc_name : string; methods : gmap string (Method V W) }.
Arguments Service : clear implicits.
Arguments mkService {V W}.

Record Server {V W : Type} := mkServer { services : gmap string (Service V W); srv_count : Z }.
Arguments Server : clear implicits.
Arguments mkServer {V W}.

(** What reflection tells about a method of the receiver. *)
Record method_info {V W : Type} := mkInfo {
  mname : string;
  PkgPath : string;
  NumIn : Z;
  In2_is_ptr : bool;
  NumOut : Z;
  mi_method : Method V W;
}.
Arguments method_info : clear implicits.
Arguments mkInfo {V W}.

Section labrpc.
Context {V W : Type} `{!Gob V}.

(** The methods that look like handlers, by name. *)
Fixpoint collect_methods (l : list (method_info V W)) (ms : gmap string (Method V W))
    : gmap string (Method V W) :=
  match l with
  | [] => ms
  | m :: l =>
      collect_methods l
        (if negb (String.eqb (PkgPath m) "") || negb (NumIn m =? 3) || negb (In2_is_ptr m)
            || negb (NumOut m =? 0)
         then ms else <[mname m := mi_method m]> ms)
  end.

Definition MakeService (type_name : string) (l : list (method_info V W)) : Service V W :=
  mkService type_name (collect_methods l ∅).

Definition Service_dispatch (svc : Service V W) (methname : string) (req : reqMsg V) (w : W)
    : res (W * replyMsg) :=
  match methods svc !! methname with
  | Some method =>
      let ad := NewDecoder (args req) in
      let a := match Decode (as_type (argsType req)) ad with
               | Some (a, _) => a
               | None => zero (argsType req)
               end in
      if m_accepts method a then
        let '(w, replyv) := m_body method a w in
        let re := Encode NewEncoder replyv in
        Ret (w, mkReply true (Bytes re))
      else Panic
  | None => Panic
  end.

Definition MakeServer : Server V W := mkServer ∅ 0.

Definition AddService (svc : Service V W) (rs : Server V W) : Server V W :=
  mkServer (<[svc_name svc := svc]> (services rs)) (srv_count rs).

Definition Server_dispatch (rs : Server V W) (req : reqMsg V) (w : W) : res (Server V W * W * replyMsg) :=
  let rs := mkServer (services rs) (wrap 64 (srv_count rs + 1)) in
  let dot := LastIndex "."%char (svcMeth req) in
  let! serviceName := str_to (svcMeth req) dot in
  let! methodName := str_from (svcMeth req) (dot + 1) in
  match services rs !! serviceName with
  | Some service =>
      let! (w, r) := Service_dispatch service methodName req w in
      Ret (rs, w, r)
  | None => Panic
  end.

Definition Server_GetCount (rs : Server V W) : Z := srv_count rs.

(** ** The network

    Servers are pointers: [servers] maps a name to the address of a server, or
    to nil, and [heap] holds the servers. *)
Record Network := mkNetwork {
  reliable : bool;
  longDelays : bool;
  longReordering : bool;
  ends : gset name;
  enabled : gmap name bool;
  servers : gmap name (option nat);
  connections : gmap name (option name);
  count : Z;
  nbytes : Z;
  done : bool;      (* the channel is closed *)
}.

Definition MakeNetwork : Network := mkNetwork true false false ∅ ∅ ∅ ∅ 0 0 false.

(** Closing a closed channel panics. *)
Definition Cleanup (rn : Network) : res Network :=
  if done rn then Panic else
  Ret (mkNetwork (reliable rn) (longDelays rn) (longReordering rn) (ends rn) (enabled rn) (servers rn)
         (connections rn) (count rn) (nbytes rn) true).

Definition Reliable (yes : bool) (rn : Network) : Network :=
  mkNetwork yes (longDelays rn) (longReordering rn) (ends rn) (enabled rn) (servers rn)
    (connections rn) (count rn) (nbytes rn) (done rn).
Definition LongReordering (yes : bool) (rn : Network) : Network :=
  mkNetwork (reliable rn) (longDelays rn) yes (ends rn) (enabled rn) (servers rn)
    (connections rn) (count rn) (nbytes rn) (done rn).
Definition LongDelays (yes : bool) (rn : Network) : Network :=
  mkNetwork (reliable rn) yes (longReordering rn) (ends rn) (enabled rn) (servers rn)
    (connections rn) (count rn) (nbytes rn) (done rn).

(** [None] is the [log.Fatalf] for a name that exists. *)
Definition MakeEnd (e : name) (rn : Network) : res (name * Network) :=
  if decide (e ∈ ends rn) then Panic else
  Ret (e, mkNetwork (reliable rn) (longDelays rn) (longReordering rn) ({[e]} ∪ ends rn)
            (<[e := false]> (enabled rn)) (servers rn) (<[e := None]> (connections rn))
            (count rn) (nbytes rn) (done rn)).

Definition set_servers (s : gmap name (option nat)) (rn : Network) : Network :=
  mkNetwork (reliable rn) (longDelays rn) (longReordering rn) (ends rn) (enabled rn) s
    (connections rn) (count rn) (nbytes rn) (done rn).
Definition AddServer (servername : name) (rs : nat) (rn : Network) : Network :=
  set_servers (<[servername := Some rs]> (servers rn)) rn.
Definition DeleteServer (servername : name) (rn : Network) : Network :=
  set_servers (<[servername := None]> (servers rn)) rn.

Definition Connect (e servername : name) (rn : Network) : Network :=
  mkNetwork (reliable rn) (longDelays rn) (longReordering rn) (ends rn) (enabled rn) (servers rn)
    (<[e := Some servername]> (connections rn)) (count rn) (nbytes rn) (done rn).
Definition Enable (e : name) (yes : bool) (rn : Network) : Network :=
  mkNetwork (reliable rn) (longDelays rn) (longReordering rn) (ends rn) (<[e := yes]> (enabled rn))
    (servers rn) (connections rn) (count rn) (nbytes rn) (done rn).

(** A nil server is dereferenced by [GetCount]. *)
Definition GetCount (servername : name) (heap : gmap nat (Server V W)) (rn : Network) : res Z :=
  match servers rn !! servername with
  | Some (Some p) => match heap !! p with Some rs => Ret (Server_GetCount rs) | None => Panic end
  | _ => Panic
  end.
Definition GetTotalCount (rn : Network) : Z := count rn.
Definition GetTotalBytes (rn : Network) : Z := nbytes rn.

Definition readEndnameInfo (e : name) (rn : Network)
    : bool * option name * option nat * bool * bool :=
  let en := default false (enabled rn !! e) in
  let sn := default None (connections rn !! e) in
  let sv := match sn with Some s => default None (servers rn !! s) | None => None end in
  (en, sn, sv, reliable rn, longReordering rn).

Definition isServerDead (e servername : name) (server : nat) (rn : Network) : bool :=
  negb (default false (enabled rn !! e))
  || negb (bool_decide (default None (servers rn !! servername) = Some server)).

(** What the wait loop of [processReq] sees next: the handler's reply, or a
    100 ms timer, with the network as it is then. *)
Inductive wait_event := WReply | WTick (rn : Network).

(** [None]: still waiting after these events. *)
Fixpoint wait_loop (e servername : name) (server : nat) (evs : list wait_event) : option bool :=
  match evs with
  | [] => None
  | WReply :: _ => Some true
  | WTick rn :: evs =>
      if isServerDead e servername server rn then Some false
      else wait_loop e servername server evs
  end.

(** What is decided outside the request: the random numbers, the events of the
    wait, and what the others do to the network while the request is on its
    way.  The delays only decide when the reply is sent. *)
Record choices := mkChoices {
  r_drop : Z;
  waits : list wait_event;
  meanwhile : Network -> Network;
  r_reply : Z;
}.

(** The goroutine of [MakeNetwork] counts a request, [processReq] the bytes of
    a reply. *)
Definition count_request (n : Z) (rn : Network) : Network :=
  mkNetwork (reliable rn) (longDelays rn) (longReordering rn) (ends rn) (enabled rn) (servers rn)
    (connections rn) (wrap 32 (count rn + 1)) (wrap 64 (nbytes rn + n)) (done rn).
Definition count_reply (n : Z) (rn : Network) : Network :=
  mkNetwork (reliable rn) (longDelays rn) (longReordering rn) (ends rn) (enabled rn) (servers rn)
    (connections rn) (count rn) (wrap 64 (nbytes rn + n)) (done rn).

(** The network, the servers and the receivers after the request, and the reply
    that is sent on [req.replyCh]; [None] when the handler has not returned and
    its server is alive.  The information on the end is that of the moment of
    the call; what others do to the network is [meanwhile], after the handler
    has started. *)
Definition processReq (ch : choices) (rn : Network) (heap : gmap nat (Server V W)) (w : W)
    (req : reqMsg V) : option (res (Network * gmap nat (Server V W) * W * replyMsg)) :=
  let no := mkReply false [] in
  match readEndnameInfo (endname req) rn with
  | (true, Some servername, Some server, rel, _) =>
      if negb rel && (r_drop ch mod 1000 <? 100) then Some (Ret (meanwhile ch rn, heap, w, no)) else
      match heap !! server with
      | None => Some Panic
      | Some rs =>
          match Server_dispatch rs req w with
          | Panic => Some Panic
          | Ret (rs, w, r) =>
              let heap := <[server := rs]> heap in
              match wait_loop (endname req) servername server (waits ch) with
              | None => None
              | Some replyOK =>
                  let rn := meanwhile ch rn in
                  let serverDead := isServerDead (endname req) servername server rn in
                  if negb replyOK || serverDead then Some (Ret (rn, heap, w, no))
                  else if negb rel && (r_reply ch mod 1000 <? 100) then Some (Ret (rn, heap, w, no))
                  else Some (Ret (count_reply (len (reply r)) rn, heap, w, r))
              end
          end
      end
  | _ => Some (Ret (meanwhile ch rn, heap, w, no))
  end.

(** [Call] on the end [e]: the reply decoded into a variable of type [rtype],
    or [false].  [take_done] is the choice of [select] when the network is
    cleaned up. *)
Definition Call (e : name) (meth : string) (atype rtype : gtype V) (a : V) (take_done : bool)
    (ch : choices) (rn : Network) (heap : gmap nat (Server V W)) (w : W)
    : option (res (Network * gmap nat (Server V W) * W * option V)) :=
  let qe := Encode NewEncoder a in
  let req := mkReq e meth atype (Bytes qe) in
  if done rn && take_done then Some (Ret (rn, heap, w, None)) else
  let rn := count_request (len (args req)) rn in
  match processReq ch rn heap w req with
  | None => None
  | Some Panic => Some Panic
  | Some (Ret (rn, heap, w, rep)) =>
      if ok rep then
        match Decode (as_type rtype) (NewDecoder (reply rep)) with
        | Some (v, _) => Some (Ret (rn, heap, w, Some v))
        | None => Some Panic
        end
      else Some (Ret (rn, heap, w, None))
  end.

End labrpc.
End Labrpc.
