(* ===== verification/LabrpcSpec.v ===== *)
(** What the simulated network promises to the programs that run on it. *)
From Stdlib Require Import Strings.Ascii.
From S2P Require Import Prelude Labgob Labrpc.
Import Labgob Labrpc.
Local Open Scope Z_scope.

Module LabrpcSpec.

(** ** Splitting "Service.Method" *)

Fixpoint no_char (c : ascii) (s : string) : bool :=
  match s with
  | EmptyString => true
  | String a s => negb (Ascii.eqb a c) && no_char c s
  end.

Lemma LastIndex_none c s : no_char c s = true -> LastIndex c s = -1.
Proof.
  induction s as [|a s IH]; [done|]. cbn. intros [Ha Hs]%andb_prop. apply negb_true_iff in Ha.
  by rewrite IH, Ha.
Qed.

Lemma LastIndex_last c s1 s2 :
  no_char c s2 = true -> LastIndex c (s1 +:+ String c s2) = Z.of_nat (String.length s1).
Proof.
  intros Hs. induction s1 as [|a s1 IH]; cbn [String.app LastIndex String.length].
  - change (LastIndex c (String c s2) = 0). cbn. by rewrite LastIndex_none, Ascii.eqb_refl.
  - change (LastIndex c (String a (s1 +:+ String c s2)) = Z.of_nat (S (String.length s1))).
    cbn [LastIndex]. rewrite IH, Z.geb_leb. destruct (Z.leb_spec 0 (Z.of_nat (String.length s1))); lia.
Qed.

Lemma str_take_app s1 s2 : str_take (String.length s1) (s1 +:+ s2) = s1.
Proof.
  induction s1 as [|a s1 IH]; [by destruct s2|].
  change (String a (str_take (String.length s1) (s1 +:+ s2)) = String a s1). by rewrite IH.
Qed.

Lemma str_drop_app s1 s2 : str_drop (String.length s1) (s1 +:+ s2) = s2.
Proof. induction s1 as [|a s1 IH]; [by destruct s2|]. exact IH. Qed.

Lemma str_drop_app_S s1 c s2 : str_drop (S (String.length s1)) (s1 +:+ String c s2) = s2.
Proof. induction s1 as [|a s1 IH]; [by destruct s2|]. exact IH. Qed.

Section properties.
Context {V W : Type} `{!Gob V}.
Implicit Types (rs : Server V W) (svc : Service V W) (heap : gmap nat (Server V W)).

(** The name of a service and a method without dot are split back. *)
Lemma Server_dispatch_split rs req w svcname meth :
  svcMeth req = (svcname +:+ String "."%char meth)%string -> no_char "."%char meth = true ->
  Server_dispatch rs req w =
  match services rs !! svcname with
  | Some svc =>
      let! (w, r) := Service_dispatch svc meth req w in
      Ret (mkServer (services rs) (wrap 64 (srv_count rs + 1)), w, r)
  | None => Panic
  end.
Proof.
  intros Hm Hno. unfold Server_dispatch. rewrite Hm, LastIndex_last by done.
  unfold str_to, str_from. rewrite length_app_str. cbn [String.length].
  destruct (Z.leb_spec 0 (Z.of_nat (String.length svcname))); [|lia].
  destruct (Z.leb_spec (Z.of_nat (String.length svcname))
    (Z.of_nat (String.length svcname + S (String.length meth)))); [|lia].
  destruct (Z.leb_spec 0 (Z.of_nat (String.length svcname) + 1)); [|lia].
  destruct (Z.leb_spec (Z.of_nat (String.length svcname) + 1)
    (Z.of_nat (String.length svcname + S (String.length meth)))); [|lia].
  cbn [andb rbind]. rewrite Nat2Z.id, str_take_app.
  replace (Z.to_nat (Z.of_nat (String.length svcname) + 1)) with (S (String.length svcname)) by lia.
  by rewrite str_drop_app_S.
Qed.

(** A stream of one value. *)
Lemma Decode_one (t : gtype V) (a : V) :
  as_type t a = Some a ->
  Decode (as_type t) (NewDecoder (Bytes (Encode NewEncoder a))) = Some (a, mkDecoder []).
Proof. intros Ha. rewrite NewDecoder_Bytes. unfold Decode. cbn. by rewrite Ha. Qed.

(** The information of an end, and when it leads to a server. *)
Lemma readEndnameInfo_cases e rn :
  (exists sn p, enabled rn !! e = Some true /\ connections rn !! e = Some (Some sn) /\
     servers rn !! sn = Some (Some p) /\
     readEndnameInfo e rn = (true, Some sn, Some p, reliable rn, longReordering rn)) \/
  ((enabled rn !! e <> Some true \/
    forall sn p, connections rn !! e = Some (Some sn) -> servers rn !! sn <> Some (Some p)) /\
   exists en sn sv, readEndnameInfo e rn = (en, sn, sv, reliable rn, longReordering rn) /\
     (en = false \/ sn = None \/ sv = None)).
Proof.
  unfold readEndnameInfo. destruct (enabled rn !! e) as [[|]|]; [|right; split; [by left|eauto 10]..].
  destruct (connections rn !! e) as [[sn|]|]; [|right; split; [by right|eauto 10]..].
  cbn. destruct (servers rn !! sn) as [[p|]|] eqn:Hs; [by left; exists sn, p|right; split..].
  - right. intros sn' p [= <-]. congruence.
  - eauto 10.
  - right. intros sn' p [= <-]. congruence.
  - eauto 10.
Qed.

(** The network as the request meets it. *)
Definition counted (a : V) (rn : Network) : Network :=
  count_request (len (Bytes (Encode NewEncoder a))) rn.

(** C28. A call that returns [true] was executed: its end was enabled and
    connected to a live server, that server counted it and ran the handler
    once, the decoded reply is the handler's, and after the handler returned
    the end was still enabled and the name still stood for the same server. *)
Theorem Call_true_executed e meth (atype rtype : gtype V) a d ch rn heap w rn' heap' w' v :
  Call e meth atype rtype a d ch rn heap w = Some (Ret (rn', heap', w', Some v)) ->
  exists servername p rs rs' rep,
    enabled rn !! e = Some true /\ connections rn !! e = Some (Some servername) /\
    servers rn !! servername = Some (Some p) /\ heap !! p = Some rs /\
    Server_dispatch rs (mkReq e meth atype (Bytes (Encode NewEncoder a))) w = Ret (rs', w', rep) /\
    heap' = <[p := rs']> heap /\ srv_count rs' = wrap 64 (srv_count rs + 1) /\
    (exists d', Decode (as_type rtype) (NewDecoder (reply rep)) = Some (v, d')) /\
    isServerDead e servername p (meanwhile ch (counted a rn)) = false /\
    rn' = count_reply (len (reply rep)) (meanwhile ch (counted a rn)).
Proof.
  unfold Call. case_cond; [done|]. unfold processReq. cbn [endname args].
  change (count_request (len (Bytes (Encode NewEncoder a))) rn) with (counted a rn).
  destruct (readEndnameInfo_cases e (counted a rn)) as [(sn & p & Hen & Hcn & Hsv & ->)|(_ & en & sn & sv & -> & Hno)].
  2: { destruct en, sn, sv; try done. by destruct Hno as [|[|]]. }
  set (rnc := counted a rn) in *.
  case_cond; [done|]. destruct (heap !! p) as [rs|] eqn:Hp; [|done].
  destruct (Server_dispatch rs _ w) as [[[rs' w1] rep]|] eqn:Hd; [|done].
  destruct (wait_loop e sn p (waits ch)) as [[|]|]; [|done|done]. cbn [negb orb].
  destruct (isServerDead e sn p (meanwhile ch rnc)) eqn:Hdead; [done|]. case_cond; [done|].
  destruct (ok rep); [|done].
  destruct (Decode (as_type rtype) (NewDecoder (reply rep))) as [[v' d']|] eqn:Hdec; [|done].
  intros [= <- <- <- <-]. exists sn, p, rs, rs', rep. split_and!; try done; [|by exists d'].
  revert Hd. unfold Server_dispatch. intros (a1 & _ & Hrun)%rbind_ret.
  apply rbind_ret in Hrun as (a2 & _ & Hrun). cbn [services] in Hrun.
  destruct (services rs !! a1); [|done]. by apply rbind_ret in Hrun as ([w2 r2] & _ & [= <- _ _]).
Qed.

(** A call on an end that is disabled or not connected, or whose server
    has been deleted, returns [false] and no handler runs: servers and
    receivers are untouched, and the request is counted. *)
Lemma Call_unreachable e meth (atype rtype : gtype V) a ch rn heap w :
  (enabled rn !! e <> Some true \/
   (forall sn p, connections rn !! e = Some (Some sn) -> servers rn !! sn <> Some (Some p))) ->
  Call e meth atype rtype a false ch rn heap w = Some (Ret (meanwhile ch (counted a rn), heap, w, None)).
Proof.
  intros Hno. unfold Call. rewrite andb_false_r. unfold processReq. cbn [endname args].
  change (count_request (len (Bytes (Encode NewEncoder a))) rn) with (counted a rn).
  destruct (readEndnameInfo_cases e (counted a rn)) as [(sn & p & Hen & Hcn & Hsv & _)|(_ & en & sn & sv & -> & Hn)].
  - exfalso. destruct Hno as [?|Hno]; [done|]. by apply (Hno sn p).
  - destruct en, sn, sv; try done. by destruct Hn as [|[|]].
Qed.

(** The server stays registered while the handler runs. *)
Definition alive_until_reply (e sn : name) (p : nat) (evs : list wait_event) : Prop :=
  exists ticks, evs = (WTick <$> ticks) ++ [WReply] /\
    forall rn, rn ∈ ticks -> isServerDead e sn p rn = false.

Lemma wait_loop_alive e sn p evs : alive_until_reply e sn p evs -> wait_loop e sn p evs = Some true.
Proof.
  intros (ticks & -> & Hlive). induction ticks as [|rn ticks IH]; [done|]. cbn.
  rewrite Hlive by set_solver. apply IH. set_solver.
Qed.

(** On a reliable network a call to a registered method of a live server
    is a direct invocation: the argument arrives as it was sent, the handler
    runs once, and the caller gets its result, however long it takes. *)
Theorem Call_reliable e svcname meth (atype rtype : gtype V) a ch rn heap w sn p rs svc m w' v :
  reliable rn = true -> enabled rn !! e = Some true -> connections rn !! e = Some (Some sn) ->
  servers rn !! sn = Some (Some p) -> heap !! p = Some rs ->
  services rs !! svcname = Some svc -> methods svc !! meth = Some m -> no_char "."%char meth = true ->
  as_type atype a = Some a -> m_accepts m a = true -> m_body m a w = (w', v) -> as_type rtype v = Some v ->
  alive_until_reply e sn p (waits ch) -> isServerDead e sn p (meanwhile ch (counted a rn)) = false ->
  Call e (svcname +:+ String "."%char meth) atype rtype a false ch rn heap w =
  Some (Ret (count_reply (len (Bytes (Encode NewEncoder v))) (meanwhile ch (counted a rn)),
             <[p := mkServer (services rs) (wrap 64 (srv_count rs + 1))]> heap, w', Some v)).
Proof.
  intros Hrel Hen Hconn Hsv Hp Hsvc Hm Hdot Ha Hacc Hbody Hv Hwait Hfin.
  unfold Call, processReq. rewrite andb_false_r. cbn [endname args].
  change (count_request (len (Bytes (Encode NewEncoder a))) rn) with (counted a rn).
  destruct (readEndnameInfo_cases e (counted a rn)) as [(sn' & p' & _ & Hcn' & Hsv' & ->)|(Hno & _)].
  2: { exfalso. destruct Hno as [?|Hno]; [done|]. by apply (Hno sn p). }
  change (reliable (counted a rn)) with (reliable rn).
  change (connections (counted a rn)) with (connections rn) in *.
  change (servers (counted a rn)) with (servers rn) in *.
  rewrite Hconn in Hcn'. injection Hcn' as <-. rewrite Hsv in Hsv'. injection Hsv' as <-.
  rewrite Hrel. cbn [negb andb]. rewrite Hp.
  rewrite (Server_dispatch_split rs _ w svcname meth) by done. rewrite Hsvc.
  unfold Service_dispatch. cbn [args argsType]. rewrite Hm, !(Decode_one atype a) by done.
  rewrite Hacc, Hbody. cbn [rbind]. rewrite wait_loop_alive by done. rewrite Hfin.
  cbn [negb orb ok reply]. by rewrite (Decode_one rtype v) by done.
Qed.

End properties.

(** ** A concrete server: one counter with one method *)

Module Witness.

#[local] Instance Z_Gob : Gob Z := countable_Gob Z.

Definition any : gtype Z := mkType 0 Some.
Definition add : Method Z Z := mkMethod (fun _ => true) (fun a w => (w + a, w + a)).
Definition counter : Service Z Z :=
  MakeService "Counter"
    [mkInfo "Add" "" 3 true 0 add; mkInfo "hidden" "main" 3 true 0 add; mkInfo "Get" "" 1 false 1 add].
Definition srv : Server Z Z := AddService counter MakeServer.

Definition net : Network :=
  match MakeEnd (NStr "end") MakeNetwork with
  | Ret (e, rn) => Enable e true (Connect e (NInt 7) (AddServer (NInt 7) 0%nat rn))
  | Panic => MakeNetwork
  end.

Definition quick : choices := mkChoices 0 [WTick net; WReply] id 0.

Lemma Call_reliable_witness :
  Call (NStr "end") "Counter.Add" any any 5 false quick net {[0%nat := srv]} 37 =
  Some (Ret (count_reply (len (Bytes (Encode NewEncoder 42))) (counted 5 net),
             <[0%nat := mkServer (services srv) 1]> {[0%nat := srv]}, 42, Some 42)).
Proof.
  apply (Call_reliable (NStr "end") "Counter" "Add" any any 5 quick net {[0%nat := srv]} 37
    (NInt 7) 0%nat srv counter add 42 42); try reflexivity.
  exists [net]. split; [reflexivity|]. intros rn ->%list_elem_of_singleton. reflexivity.
Defined.

Lemma Call_true_executed_witness : exists servername p,
  connections net !! NStr "end" = Some (Some servername) /\ servers net !! servername = Some (Some p).
Proof.
  destruct (Call_true_executed (NStr "end") "Counter.Add" any any 5 false quick net {[0%nat := srv]} 37
    (count_reply (len (Bytes (Encode NewEncoder 42))) (counted 5 net))
    (<[0%nat := mkServer (services srv) 1]> {[0%nat := srv]}) 42 42)
    as (sn & p & rs & rs' & rep & _ & Hc & Hs & _).
  - vm_compute. reflexivity.
  - exists sn, p. split; [exact Hc|exact Hs].
Defined.

End Witness.
End LabrpcSpec.
