(* ===== verification/MapReduce.v ===== *)
(** MapReduce: the coordinator and the worker of mr/, the sequential program
    main/mrsequential.go and the applications of mrapps/. *)
From stdpp Require Import pretty.
From S2P Require Import Prelude.
Local Open Scope Z_scope.

Module MapReduce.

Record KeyValue := mkKV { Key : string; Value : string }.

(** ** Coordinator: mr/coordinator.go, mr/rpc.go *)

(** [TaskTyppe] is an int; a reply that was never filled in carries 0. *)
Definition Map : Z := 1.
Definition Reduce : Z := 2.
Definition DoneTask : Z := 3.

Record GetTaskReply := mkTask {
  NumsMap : Z;
  NumsReduce : Z;
  TaskNum : Z;
  Type_ : Z;
  Filename : string;
}.

(** A zero [time.Time] is [None]. *)
Record Coordinator := mkCoordinator {
  nMaps : Z;
  nReduce : Z;
  mapTaskFilename : list string;
  mapFinished : list bool;
  mapTaskIssuedTime : list (option Z);
  reduceFinished : list bool;
  reduceTaskIssuedTime : list (option Z);
  isDone : bool;
}.

Definition second : Z := 1000000000.

(** The inner loop of [GetTask]: the first task that is not finished and either
    never issued or issued more than ten seconds ago; otherwise the value of
    [mapDone] (or [reduceDone]) after the loop.  The assignment in the [else]
    branch goes to the loop variable, not to [done]. *)
Fixpoint find_task (now : Z) (finished : list bool) (issued : list (option Z)) (index : Z) (done : bool)
    : res (Z + bool) :=
  match finished with
  | [] => Ret (inr done)
  | fin :: rest =>
      if negb fin then
        let! t := go_index issued index in
        if match t with None => true | Some t => now - t >? 10 * second end
        then Ret (inl index)
        else
          let fin := false in
          find_task now rest issued (index + 1) done
      else find_task now rest issued (index + 1) done
  end.

(** A reply, or a wait on the condition variable. *)
Inductive get_task := Assigned (reply : GetTaskReply) | Waits.

Definition GetTask (now : Z) (c : Coordinator) : res (Coordinator * get_task) :=
  let! m := find_task now (mapFinished c) (mapTaskIssuedTime c) 0 true in
  match m with
  | inl index =>
      let! file := go_index (mapTaskFilename c) index in
      Ret (c, Assigned (mkTask (nMaps c) (nReduce c) index Map file))
  | inr mapDone =>
      if negb mapDone then Ret (c, Waits) else
      let! r := find_task now (reduceFinished c) (reduceTaskIssuedTime c) 0 true in
      match r with
      | inl index => Ret (c, Assigned (mkTask (nMaps c) (nReduce c) index Reduce ""))
      | inr reduceDone =>
          if negb reduceDone then Ret (c, Waits) else
          Ret (mkCoordinator (nMaps c) (nReduce c) (mapTaskFilename c) (mapFinished c)
                 (mapTaskIssuedTime c) (reduceFinished c) (reduceTaskIssuedTime c) true,
               Assigned (mkTask (nMaps c) (nReduce c) 0 DoneTask ""))
      end
  end.

Definition FinishNotify (taskNum type : Z) (c : Coordinator) : res Coordinator :=
  if type =? Map then
    let! m := go_set (mapFinished c) taskNum false in
    Ret (mkCoordinator (nMaps c) (nReduce c) (mapTaskFilename c) m (mapTaskIssuedTime c)
           (reduceFinished c) (reduceTaskIssuedTime c) (isDone c))
  else if type =? Reduce then
    let! r := go_set (reduceFinished c) taskNum false in
    Ret (mkCoordinator (nMaps c) (nReduce c) (mapTaskFilename c) (mapFinished c) (mapTaskIssuedTime c)
           r (reduceTaskIssuedTime c) (isDone c))
  else Ret c.

Definition Example (x : Z) : Z := x + 1.

Definition Done (c : Coordinator) : bool :=
  let ret := false in ret.

(** [make] panics on a negative length.  The RPC server and the goroutine that
    broadcasts once are left out: nobody waits on the condition variable. *)
Definition MakeCoordinator (files : list string) (nReduce : Z) : res Coordinator :=
  if nReduce <? 0 then Panic else
  Ret (mkCoordinator (len files) nReduce files (go_make (len files) false) (go_make (len files) None)
         (go_make nReduce false) (go_make nReduce None) false).

(** ** Worker: mr/worker.go, mr/tools.go *)

(** FNV-1a, 32 bits. *)
Fixpoint fnv32a (h : Z) (s : string) : Z :=
  match s with
  | EmptyString => h
  | String a s => fnv32a ((Z.lxor h (Z.of_N (Ascii.N_of_ascii a)) * 16777619) mod 2 ^ 32) s
  end.

Definition ihash (key : string) : Z := Z.land (fnv32a 2166136261 key) 2147483647.

Definition getFinalMapName (taskNum : Z) : string := "temp-file-" +:+ pretty taskNum.

(** One round of the loop of [Worker]: what it does with the reply. *)
Inductive worker_action := RunMap | RunReduce | Exit | Unknown.

Definition worker_switch (reply : GetTaskReply) : worker_action :=
  if Type_ reply =? Map then RunMap
  else if Type_ reply =? Reduce then RunReduce
  else if Type_ reply =? DoneTask then Exit
  else Unknown.

(** [MapWorker] on a file system; [json] is one line of the JSON encoder.
    [temp] is the name that [ioutil.TempFile] finds, [None] if it fails: then
    [tempFile] is nil and [tempFile.Name()] panics before the error is looked
    at.  The error of [os.Rename] is dropped: if it does not succeed the
    temporary file stays.  [Panic] also stands for [log.Fatalf]. *)
Definition MapWorker (json : KeyValue -> string) (mapf : string -> string -> list KeyValue)
    (temp : option string) (renamed : bool) (reply : GetTaskReply) (fs : gmap string string)
    : res (gmap string string) :=
  match fs !! Filename reply with
  | None => Panic
  | Some content =>
      let kva := mapf (Filename reply) content in
      match temp with
      | None => Panic
      | Some tempFileName =>
          let out := fold_left (fun acc kv => acc +:+ json kv)%string kva "" in
          let fs := <[tempFileName := out]> fs in
          Ret (if (renamed : bool) then <[getFinalMapName (TaskNum reply) := out]> (delete tempFileName fs) else fs)
      end
  end.

(** ** main/mrsequential.go *)

Section sequential.
Context `{!GoSort}.

Definition Less (a b : KeyValue) : bool := str_less (Key a) (Key b).

(** The map phase; a missing file is [log.Fatalf]. *)
Fixpoint map_files (mapf : string -> string -> list KeyValue) (fs : gmap string string)
    (files : list string) (intermediate : list KeyValue) : res (list KeyValue) :=
  match files with
  | [] => Ret intermediate
  | filename :: files =>
      match fs !! filename with
      | None => Panic
      | Some content => map_files mapf fs files (intermediate ++ mapf filename content)
      end
  end.

(** [j++] while [intermediate[j].Key == intermediate[i].Key] *)
Fixpoint key_run (k : nat) (l : list KeyValue) (i j : Z) : res Z :=
  match k with
  | O => Ret j
  | S k =>
      if j <? len l then
        let! a := go_index l j in
        let! b := go_index l i in
        if String.eqb (Key a) (Key b) then key_run k l i (j + 1) else Ret j
      else Ret j
  end.

(** [values], for [k] from [i] on *)
Fixpoint collect_values (n : nat) (l : list KeyValue) (k : Z) : res (list string) :=
  match n with
  | O => Ret []
  | S n =>
      let! kv := go_index l k in
      let! rest := collect_values n l (k + 1) in
      Ret (Value kv :: rest)
  end.

Definition nl : string := String (Ascii.ascii_of_nat 10) "".

(** The reduce loop; [None] when the fuel runs out. *)
Fixpoint reduce_loop (fuel : nat) (reducef : string -> list string -> string) (l : list KeyValue)
    (i : Z) (out : string) : option (res string) :=
  match fuel with
  | O => None
  | S fuel =>
      if i <? len l then
        match
          (let! j := key_run (length l) l i (i + 1) in
           let! values := collect_values (Z.to_nat (j - i)) l i in
           let! kv := go_index l i in
           let output := reducef (Key kv) values in
           Ret (j, (Key kv +:+ " " +:+ output +:+ nl)%string))
        with
        | Panic => Some Panic
        | Ret (j, line) => reduce_loop fuel reducef l j (out +:+ line)
        end
      else Some (Ret out)
  end.

(** [main]: the contents of mr-out-0; without input files it prints its usage
    and exits. *)
Definition mrsequential (fuel : nat) (mapf : string -> string -> list KeyValue)
    (reducef : string -> list string -> string) (fs : gmap string string) (files : list string)
    : option (res string) :=
  if len files =? 0 then Some Panic else
  match map_files mapf fs files [] with
  | Panic => Some Panic
  | Ret intermediate => reduce_loop fuel reducef (go_sort Less intermediate) 0 ""
  end.

(** ** Applications: mrapps/wc.go, indexer.go, nocrash.go, early_exit.go *)

(** [strings.FieldsFunc]: the maximal runs of runes on which [f] is false;
    [runes] is the string cut into its runes. *)
Context (runes : string -> list string) (IsLetter : string -> bool).

Fixpoint fields_loop (f : string -> bool) (rs : list string) (field : string) : list string :=
  match rs with
  | [] => if String.eqb field "" then [] else [field]
  | r :: rs =>
      if f r then (if String.eqb field "" then fields_loop f rs "" else field :: fields_loop f rs "")
      else fields_loop f rs (field +:+ r)
  end.

Definition FieldsFunc (s : string) (f : string -> bool) : list string := fields_loop f (runes s) "".

Definition letters (contents : string) : list string := FieldsFunc contents (fun r => negb (IsLetter r)).

Definition wc_Map (filename contents : string) : list KeyValue :=
  (fun w => mkKV w "1") <$> letters contents.

Definition wc_Reduce (key : string) (values : list string) : string := pretty (len values).

Definition Join (sep : string) (l : list string) : string :=
  match l with
  | [] => ""
  | x :: l => fold_left (fun acc y => acc +:+ sep +:+ y)%string l x
  end.

Context `{!GoRange}.

Definition indexer_Map (document value : string) : list KeyValue :=
  let m : gset string := list_to_set (letters value) in
  (fun w => mkKV w document) <$> range_keys (elements m).

Definition indexer_Reduce (key : string) (values : list string) : string :=
  (pretty (len values) +:+ " " +:+ Join "," (sort_Strings values))%string.

Definition nocrash_Map (filename contents : string) : list KeyValue :=
  [mkKV "a" filename; mkKV "b" (pretty (Z.of_nat (String.length filename)));
   mkKV "c" (pretty (Z.of_nat (String.length contents))); mkKV "d" "xyzzy"].

Definition nocrash_Reduce (key : string) (values : list string) : string :=
  Join " " (sort_Strings values).

Definition early_exit_Map (filename contents : string) : list KeyValue := [mkKV filename "1"].
Definition early_exit_Reduce (key : string) (values : list string) : string := pretty (len values).

End sequential.
End MapReduce.
