(* ===== verification/MapReduceSpec.v ===== *)
(** Properties of the MapReduce programs: grouping by key, word count end to
    end, the hash that picks a reduce task, and the coordinator. *)
From stdpp Require Import pretty.
From S2P Require Import Prelude MapReduce.
Import MapReduce.
Local Open Scope Z_scope.

Module MapReduceSpec.

(** ** Grouping a sorted list *)

(** How many leading elements have the key [k]. *)
Fixpoint prefix_len (k : string) (l : list KeyValue) : nat :=
  match l with
  | kv :: l => if String.eqb (Key kv) k then S (prefix_len k l) else 0
  | [] => 0
  end.

(** Runs of equal keys, with the values of each run. *)
Fixpoint groups (l : list KeyValue) : list (string * list string) :=
  match l with
  | [] => []
  | kv :: l =>
      match groups l with
      | (k, vs) :: gs =>
          if String.eqb k (Key kv) then (k, Value kv :: vs) :: gs
          else (Key kv, [Value kv]) :: (k, vs) :: gs
      | [] => [(Key kv, [Value kv])]
      end
  end.

(** The lines that the reduce loop prints. *)
Definition line (reducef : string -> list string -> string) (g : string * list string) : string :=
  (g.1 +:+ " " +:+ reducef g.1 g.2 +:+ nl)%string.

Definition concat_lines (ls : list string) : string := fold_right String.app "" ls.

Lemma prefix_len_le k l : (prefix_len k l <= length l)%nat.
Proof. induction l as [|kv l IH]; cbn; [lia|]. destruct (String.eqb _ _); lia. Qed.

Lemma groups_head kv l : exists vs gs, groups (kv :: l) = (Key kv, vs) :: gs.
Proof.
  cbn. destruct (groups l) as [|[k vs] gs]; [by eauto|].
  destruct (String.eqb_spec k (Key kv)) as [->|]; eauto.
Qed.

Lemma groups_cons kv l :
  groups (kv :: l) =
  (Key kv, Value kv :: (Value <$> take (prefix_len (Key kv) l) l)) :: groups (drop (prefix_len (Key kv) l) l).
Proof.
  revert kv. induction l as [|kv' l IH]; intros kv; [done|].
  change (groups (kv :: kv' :: l)) with
    (match groups (kv' :: l) with
     | (k, vs) :: gs => if String.eqb k (Key kv) then (k, Value kv :: vs) :: gs
                        else (Key kv, [Value kv]) :: (k, vs) :: gs
     | [] => [(Key kv, [Value kv])]
     end).
  rewrite IH. cbn [prefix_len]. destruct (String.eqb_spec (Key kv') (Key kv)) as [He|Hne].
  - cbn [take drop fmap list_fmap]. by rewrite He.
  - cbn [take drop fmap list_fmap]. by rewrite IH.
Qed.

Lemma go_index_app {A} (l1 : list A) x l2 : go_index (l1 ++ x :: l2) (len l1) = Ret x.
Proof. apply go_index_ret. unfold len. split; [lia|]. by rewrite Nat2Z.id, list_lookup_middle. Qed.

(** The inner loop stops at the end of the run. *)
Lemma key_run_eq k l0 kv mid rest :
  Forall (fun x => Key x = Key kv) mid -> (length rest < k)%nat ->
  key_run k (l0 ++ kv :: mid ++ rest) (len l0) (len l0 + 1 + len mid) =
  Ret (len l0 + 1 + len mid + Z.of_nat (prefix_len (Key kv) rest)).
Proof.
  revert mid rest. induction k as [|k IH]; intros mid rest Hmid Hk; [lia|]. cbn [key_run].
  assert (len (l0 ++ kv :: mid ++ rest) = len l0 + 1 + len mid + len rest) as Hlen
    by (unfold len; rewrite !length_app; cbn; rewrite length_app; lia).
  rewrite Hlen. destruct rest as [|x rest].
  - change (len (@nil KeyValue)) with 0.
    destruct (Z.ltb_spec (len l0 + 1 + len mid) (len l0 + 1 + len mid + 0)); [lia|]. cbn. f_equal. lia.
  - destruct (Z.ltb_spec (len l0 + 1 + len mid) (len l0 + 1 + len mid + len (x :: rest))) as [_|Hge].
    2: { unfold len in Hge. cbn in Hge. lia. }
    assert (go_index (l0 ++ kv :: mid ++ x :: rest) (len l0 + 1 + len mid) = Ret x) as ->.
    { replace (l0 ++ kv :: mid ++ x :: rest) with ((l0 ++ kv :: mid) ++ x :: rest) by (by rewrite <- app_assoc).
      replace (len l0 + 1 + len mid) with (len (l0 ++ kv :: mid)) by (unfold len; rewrite length_app; cbn; lia).
      apply go_index_app. }
    cbn [rbind]. rewrite go_index_app. cbn [rbind prefix_len].
    destruct (String.eqb_spec (Key x) (Key kv)) as [He|Hne]; [|f_equal; lia].
    replace (l0 ++ kv :: mid ++ x :: rest) with (l0 ++ kv :: (mid ++ [x]) ++ rest) by (by rewrite <- !app_assoc).
    replace (len l0 + 1 + len mid + 1) with (len l0 + 1 + len (mid ++ [x])) by (rewrite len_app; unfold len; cbn; lia).
    rewrite IH; [|apply Forall_app; by repeat constructor|cbn in Hk; lia].
    f_equal. rewrite len_app. unfold len. cbn. lia.
Qed.

Lemma collect_values_eq l0 mid rest :
  collect_values (length mid) (l0 ++ mid ++ rest) (len l0) = Ret (Value <$> mid).
Proof.
  revert l0. induction mid as [|kv mid IH]; intros l0; [done|]. cbn [collect_values length].
  rewrite <- app_comm_cons, go_index_app. cbn [rbind].
  replace (l0 ++ kv :: mid ++ rest) with ((l0 ++ [kv]) ++ mid ++ rest) by (by rewrite <- app_assoc).
  replace (len l0 + 1) with (len (l0 ++ [kv])) by (rewrite len_app; done).
  by rewrite IH.
Qed.

Lemma string_app_assoc (a b c : string) : ((a +:+ b) +:+ c = a +:+ (b +:+ c))%string.
Proof. induction a as [|x a IH]; [done|]. exact (f_equal (String x) IH). Qed.

Lemma string_app_nil_r (a : string) : (a +:+ "" = a)%string.
Proof. induction a as [|x a IH]; [done|]. exact (f_equal (String x) IH). Qed.

(** The reduce loop prints one line per run. *)
Lemma reduce_loop_eq fuel reducef l0 l out :
  (length l < fuel)%nat ->
  reduce_loop fuel reducef (l0 ++ l) (len l0) out =
  Some (Ret (out +:+ concat_lines (line reducef <$> groups l))%string).
Proof.
  revert l0 l out. induction fuel as [|fuel IH]; intros l0 l out Hf; [lia|]. cbn [reduce_loop].
  rewrite len_app. destruct l as [|kv l].
  - change (len (@nil KeyValue)) with 0.
    destruct (Z.ltb_spec (len l0) (len l0 + 0)); [lia|].  cbn. by rewrite string_app_nil_r.
  - destruct (Z.ltb_spec (len l0) (len l0 + len (kv :: l))) as [_|Hge]; [|unfold len in Hge; cbn in Hge; lia].
    set (n := prefix_len (Key kv) l).
    pose proof (key_run_eq (length (l0 ++ kv :: l)) l0 kv [] l) as Hrun. cbn [app] in Hrun.
    change (len (@nil KeyValue)) with 0 in Hrun. rewrite Z.add_0_r in Hrun.
    rewrite Hrun by (done || (rewrite length_app; cbn; lia)). cbn [rbind]. fold n.
    pose proof (prefix_len_le (Key kv) l) as Hn. fold n in Hn.
    replace (Z.to_nat (len l0 + 1 + Z.of_nat n - len l0)) with (length (kv :: take n l))
      by (cbn; rewrite length_take; lia).
    assert (l0 ++ kv :: l = l0 ++ (kv :: take n l) ++ drop n l) as Hsplit by (cbn; by rewrite take_drop).
    rewrite Hsplit, collect_values_eq. cbn [rbind app]. rewrite go_index_app. cbn [rbind].
    replace (l0 ++ kv :: take n l ++ drop n l) with ((l0 ++ kv :: take n l) ++ drop n l) by (by rewrite <- app_assoc).
    replace (len l0 + 1 + Z.of_nat n) with (len (l0 ++ kv :: take n l))
      by (rewrite len_app; unfold len; cbn; rewrite length_take; lia).
    rewrite IH by (rewrite length_drop; cbn in Hf; lia).
    rewrite groups_cons. fold n. cbn. by rewrite string_app_assoc.
Qed.

(** ** Groups of a sorted list *)

Definition key_le (a b : KeyValue) : Prop := Less b a = false.

Lemma Less_asym a b : Less a b = true -> Less b a = false.
Proof. apply str_less_asym. Qed.

Lemma groups_keys l k : k ∈ (groups l).*1 <-> exists kv, kv ∈ l /\ Key kv = k.
Proof.
  revert k. induction l as [|kv l IH]; intros k; [set_solver|].
  cbn [groups]. destruct (groups l) as [|[k0 vs] gs] eqn:E.
  - cbn. rewrite elem_of_cons. split.
    + intros [->|?]; [|set_solver]. exists kv. set_solver.
    + intros (kv' & [->|Hin]%elem_of_cons & <-); [by left|].
      destruct (IH (Key kv')) as [_ Hi]. exfalso. cbn in Hi. assert (Key kv' ∈ []) by eauto. set_solver.
  - assert (forall j, j ∈ k0 :: gs.*1 <-> exists kv, kv ∈ l /\ Key kv = j) as IH' by exact IH.
    destruct (String.eqb_spec k0 (Key kv)) as [He|Hne]; cbn.
    + rewrite IH'. split; [intros (kv' & ? & ?); exists kv'; set_solver|].
      intros (kv' & [->|Hin]%elem_of_cons & <-); [|by exists kv']. apply IH'. rewrite He. set_solver.
    + rewrite elem_of_cons, IH'. split.
      * intros [->|(kv' & ? & ?)]; [exists kv|exists kv']; set_solver.
      * intros (kv' & [->|Hin]%elem_of_cons & <-); [by left|right; by exists kv'].
Qed.

Lemma groups_sorted l :
  StronglySorted key_le l ->
  StronglySorted (fun a b => str_less a b = true) (groups l).*1 /\
  forall k vs, (k, vs) ∈ groups l -> vs = Value <$> filter (fun kv => Key kv = k) l.
Proof.
  induction 1 as [|kv l Hs IH Hall]; [split; [constructor|set_solver]|]. destruct IH as [IHs IHv].
  assert (forall k, k ∈ (groups l).*1 -> str_less k (Key kv) = false) as Hge.
  { intros k (kv' & Hin & <-)%groups_keys. rewrite Forall_forall in Hall. by apply Hall. }
  assert (forall k, k <> Key kv -> str_less k (Key kv) = false -> str_less (Key kv) k = true) as Hlt.
  { intros k Hne Hk. destruct (str_less (Key kv) k) eqn:E; [done|]. destruct Hne. by apply str_less_total. }
  cbn [groups]. destruct (groups l) as [|[k0 vs0] gs] eqn:E.
  - split; [repeat constructor|]. intros k vs Hin%list_elem_of_singleton. injection Hin as -> ->.
    rewrite filter_cons_True by done. destruct (filter _ l) as [|kv' ?] eqn:Hf; [done|]. exfalso.
    assert (kv' ∈ filter (fun x => Key x = Key kv) l) as Hin by (rewrite Hf; set_solver).
    apply list_elem_of_filter in Hin as [_ Hin].
    assert (Key kv' ∈ (groups l).*1) as Hk by (apply groups_keys; by exists kv'). rewrite E in Hk. set_solver.
  - cbn in IHs, Hge. inversion IHs as [|? ? IHs' Hk0]; subst. rewrite Forall_forall in Hk0.
    destruct (String.eqb_spec k0 (Key kv)) as [->|Hne].
    + split; [done|]. intros k vs [Heq|Hin]%elem_of_cons.
      * injection Heq as -> ->. rewrite filter_cons_True by done. cbn. f_equal. apply IHv. set_solver.
      * rewrite filter_cons_False; [apply IHv; set_solver|]. intros He.
        assert (k ∈ gs.*1) as Hk by (apply list_elem_of_fmap; by exists (k, vs)).
        apply Hk0 in Hk. rewrite <- He in Hk. pose proof (str_less_asym _ _ Hk). congruence.
    + assert (str_less (Key kv) k0 = true) as Hlt0 by (apply Hlt; [done|apply Hge; set_solver]).
      split.
      * cbn. constructor; [done|]. apply Forall_forall. intros k Hk. apply Hlt; [|apply Hge; set_solver].
        intros ->. apply elem_of_cons in Hk as [?|Hk]; [done|]. apply Hk0 in Hk.
        pose proof (str_less_asym _ _ Hk). congruence.
      * intros k vs [Heq|Hin]%elem_of_cons.
        -- injection Heq as -> ->. rewrite filter_cons_True by done. cbn. f_equal.
           destruct (filter _ l) as [|kv' ?] eqn:Hf; [done|]. exfalso.
           assert (kv' ∈ filter (fun x => Key x = Key kv) l) as Hin by (rewrite Hf; set_solver).
           apply list_elem_of_filter in Hin as [Hke Hin].
           assert (Key kv' ∈ (groups l).*1) as Hk by (apply groups_keys; by exists kv').
           rewrite E in Hk. cbn in Hk. apply elem_of_cons in Hk as [?|Hk]; [congruence|].
           apply Hk0 in Hk. rewrite Hke in Hk. pose proof (str_less_asym _ _ Hk). congruence.
        -- rewrite filter_cons_False; [by apply IHv|]. intros He.
           assert (k ∈ (k0 :: gs.*1)) as Hk by (apply (list_elem_of_fmap_2 fst) in Hin; exact Hin).
           apply elem_of_cons in Hk as [->|Hk]; [congruence|]. apply Hk0 in Hk. rewrite <- He in Hk.
           pose proof (str_less_asym _ _ Hk). congruence.
Qed.

(** ** The sequential program *)

Section sequential.
Context `{!GoSort}.

(** What the map phase emits. *)
Definition emitted (mapf : string -> string -> list KeyValue) (fs : gmap string string) (files : list string)
    : list KeyValue := f ← files; mapf f (default "" (fs !! f)).

Lemma map_files_eq mapf fs files acc :
  (forall f, f ∈ files -> is_Some (fs !! f)) ->
  map_files mapf fs files acc = Ret (acc ++ emitted mapf fs files).
Proof.
  revert acc. induction files as [|f files IH]; intros acc Hex; cbn; [by rewrite app_nil_r|].
  destruct (Hex f) as [content ->]; [set_solver|]. rewrite IH by set_solver. cbn. by rewrite <- app_assoc.
Qed.

Lemma len_eqb_nonempty {A} (l : list A) : l <> [] -> (len l =? 0) = false.
Proof. intros Hne. apply Z.eqb_neq. by intros ?%len_zero. Qed.

Lemma sorted_emitted l : StronglySorted key_le (go_sort Less l).
Proof.
  apply (go_sort_sorted Less); [apply Less_asym|].
  intros x y z. apply (str_less_trans_neg (Key x) (Key y) (Key z)).
Qed.

(** C29. The sequential MapReduce program prints one line per distinct key, in
    increasing order of the keys, and applies Reduce to exactly the values
    that Map emitted for the key, over all input files. *)
Theorem mrsequential_correct mapf reducef fs files fuel :
  files <> [] -> (forall f, f ∈ files -> is_Some (fs !! f)) ->
  (length (emitted mapf fs files) < fuel)%nat ->
  exists gs, mrsequential fuel mapf reducef fs files =
      Some (Ret (concat_lines ((fun g => (g.1 +:+ " " +:+ reducef g.1 g.2 +:+ nl)%string) <$> gs))) /\
    StronglySorted (fun a b => str_less a b = true) gs.*1 /\
    (forall k, k ∈ gs.*1 <-> exists kv, kv ∈ emitted mapf fs files /\ Key kv = k) /\
    (forall k vs, (k, vs) ∈ gs -> vs ≡ₚ (Value <$> filter (fun kv => Key kv = k) (emitted mapf fs files))).
Proof.
  intros Hne Hex Hf. unfold mrsequential. rewrite (len_eqb_nonempty files Hne), map_files_eq by done. cbn [app].
  set (l := go_sort Less (emitted mapf fs files)).
  assert (l ≡ₚ emitted mapf fs files) as Hp by apply go_sort_perm.
  destruct (groups_sorted l (sorted_emitted _)) as [Hs Hv]. exists (groups l). split_and!; [|done| |].
  - refine (reduce_loop_eq fuel reducef [] l "" _). by rewrite Hp.
  - intros k. rewrite groups_keys. setoid_rewrite Hp. done.
  - intros k vs Hin. rewrite (Hv k vs Hin). by rewrite Hp.
Qed.

(** ** Word count *)

Context (runes : string -> list string) (IsLetter : string -> bool).

(** The words of all the files, in order. *)
Definition all_words (fs : gmap string string) (files : list string) : list string :=
  f ← files; letters runes IsLetter (default "" (fs !! f)).

Definition occurrences (w : string) (ws : list string) : Z := len (filter (fun x => x = w) ws).

Lemma wc_emitted fs files :
  emitted (wc_Map runes IsLetter) fs files = (fun w => mkKV w "1") <$> all_words fs files.
Proof.
  unfold emitted, all_words. induction files as [|f files IH]; [done|]. cbn. rewrite fmap_app. by f_equal.
Qed.

Lemma filter_words w ws :
  length (filter (fun kv => Key kv = w) ((fun w => mkKV w "1") <$> ws)) =
  length (filter (fun x => x = w) ws).
Proof.
  induction ws as [|x ws IH]; [done|]. rewrite fmap_cons, !filter_cons. cbn [Key].
  destruct (decide (x = w)); cbn; auto.
Qed.

(** Word count end to end: mrsequential with wc.go prints every word that
    occurs in the files once, in increasing order, followed by the number of
    its occurrences. *)
Theorem wordcount_correct fs files fuel :
  files <> [] -> (forall f, f ∈ files -> is_Some (fs !! f)) ->
  (length (all_words fs files) < fuel)%nat ->
  exists ws, StronglySorted (fun a b => str_less a b = true) ws /\
    (forall w, w ∈ ws <-> w ∈ all_words fs files) /\
    mrsequential fuel (wc_Map runes IsLetter) wc_Reduce fs files =
    Some (Ret (concat_lines ((fun w => (w +:+ " " +:+ pretty (occurrences w (all_words fs files)) +:+ nl)%string)
                             <$> ws))).
Proof.
  intros Hne Hex Hf.
  assert (length (emitted (wc_Map runes IsLetter) fs files) = length (all_words fs files)) as Hlen
    by (by rewrite wc_emitted, length_fmap).
  unfold mrsequential. rewrite (len_eqb_nonempty files Hne), map_files_eq by done. cbn [app].
  set (l := go_sort Less (emitted (wc_Map runes IsLetter) fs files)).
  assert (l ≡ₚ emitted (wc_Map runes IsLetter) fs files) as Hp by apply go_sort_perm.
  destruct (groups_sorted l (sorted_emitted _)) as [Hs Hv]. exists (groups l).*1. split_and!; [done| |].
  - intros w. rewrite groups_keys. setoid_rewrite Hp. rewrite wc_emitted. split.
    + intros (kv & (x & -> & Hx)%list_elem_of_fmap & <-). done.
    + intros Hw. exists (mkKV w "1"). split; [|done]. by apply (list_elem_of_fmap_2 (fun w => mkKV w "1")).
  - etrans; [refine (reduce_loop_eq fuel wc_Reduce [] l "" _); by rewrite Hp, Hlen|].
    change ("" +:+ concat_lines (line wc_Reduce <$> groups l))%string with
      (concat_lines (line wc_Reduce <$> groups l)). do 3 f_equal. rewrite <- list_fmap_compose. apply list_fmap_ext. intros i [k vs] Hi. cbn.
    apply list_elem_of_lookup_2, Hv in Hi as ->. unfold line, wc_Reduce, occurrences, len. cbn.
    rewrite length_fmap. do 4 f_equal. rewrite Hp, wc_emitted. by rewrite filter_words.
Qed.

End sequential.

(** ** The hash of the worker *)

Lemma fnv32a_range h s : 0 <= h < 2 ^ 32 -> 0 <= fnv32a h s < 2 ^ 32.
Proof.
  revert h. induction s as [|a s IH]; intros h Hh; cbn [fnv32a]; [done|]. apply IH, Z.mod_pos_bound. lia.
Qed.

(** [ihash] is a 31-bit number, so [ihash(key) % nReduce] is a valid reduce
    task number for every positive [nReduce], and clearing the sign bit keeps
    the FNV-1a hash modulo 2^31. *)
Theorem ihash_bounds key n :
  0 < n -> 0 <= ihash key < 2 ^ 31 /\ 0 <= Z.rem (ihash key) n < n /\
  ihash key = fnv32a 2166136261 key mod 2 ^ 31.
Proof.
  intros Hn. unfold ihash. pose proof (fnv32a_range 2166136261 key ltac:(lia)) as Hr.
  change 2147483647 with (Z.ones 31). rewrite Z.land_ones by lia.
  pose proof (Z.mod_pos_bound (fnv32a 2166136261 key) (2 ^ 31) ltac:(lia)).
  split_and!; try lia; apply Z.rem_bound_pos; lia.
Qed.

(** ** The coordinator *)

Inductive coordinator_call := CallGetTask (now : Z) | CallFinishNotify (taskNum type : Z).

Definition serve (call : coordinator_call) (c : Coordinator) : res Coordinator :=
  match call with
  | CallGetTask now => rmap fst (GetTask now c)
  | CallFinishNotify taskNum type => FinishNotify taskNum type c
  end.

Fixpoint serve_all (calls : list coordinator_call) (c : Coordinator) : res Coordinator :=
  match calls with
  | [] => Ret c
  | call :: calls => let! c := serve call c in serve_all calls c
  end.

(** Nothing is ever recorded as finished or issued. *)
Definition untouched (files : list string) (n : Z) (c : Coordinator) : Prop :=
  nMaps c = len files /\ nReduce c = n /\ mapTaskFilename c = files /\
  mapFinished c = go_make (len files) false /\ mapTaskIssuedTime c = go_make (len files) None.

Lemma GetTask_first now f files n c :
  untouched (f :: files) n c ->
  GetTask now c = Ret (c, Assigned (mkTask (len (f :: files)) n 0 Map f)).
Proof.
  intros (Hm & Hn & Hfile & Hfin & Hiss). unfold GetTask. rewrite Hfin, Hiss, Hm, Hn, Hfile.
  unfold go_make, len. rewrite Nat2Z.id. cbn. done.
Qed.

Lemma insert_replicate_same {A} (x : A) n i : <[i := x]> (replicate n x) = replicate n x.
Proof.
  apply list_eq. intros j. destruct (decide (j = i)) as [->|Hne].
  - destruct (decide (i < n)%nat) as [Hlt|Hge].
    + rewrite list_lookup_insert_eq by (by rewrite length_replicate). symmetry. by apply lookup_replicate.
    + rewrite list_insert_ge by (rewrite length_replicate; lia). done.
  - by rewrite list_lookup_insert_ne.
Qed.

Lemma serve_untouched f files n call c c' :
  untouched (f :: files) n c -> serve call c = Ret c' -> untouched (f :: files) n c'.
Proof.
  intros Hu. destruct call as [now|taskNum type]; cbn [serve].
  - rewrite (GetTask_first now f files n c Hu). cbn. by intros [= <-].
  - destruct Hu as (Hm & Hn & Hfile & Hfin & Hiss). unfold FinishNotify. case_cond.
    + intros (m & (_ & ->)%go_set_ret & [= <-])%rbind_ret. unfold untouched. cbn.
      rewrite Hfin. unfold go_make. rewrite insert_replicate_same. done.
    + case_cond; [|by intros [= <-]]. by intros (m & _ & [= <-])%rbind_ret.
Qed.

(** The job never progresses: after any sequence of [GetTask] and
    [FinishNotify] calls, including notifications for every task, a
    coordinator with at least one file still hands out map task 0 to every
    worker and [Done] is still false. *)
Theorem coordinator_stuck f files n calls c now :
  (let! c0 := MakeCoordinator (f :: files) n in serve_all calls c0) = Ret c ->
  GetTask now c = Ret (c, Assigned (mkTask (len (f :: files)) n 0 Map f)) /\ Done c = false.
Proof.
  intros (c0 & Hmk & Hrun)%rbind_ret. split; [|done]. apply GetTask_first.
  assert (untouched (f :: files) n c0) as Hu.
  { revert Hmk. unfold MakeCoordinator. case_cond; [done|]. by intros [= <-]. }
  clear Hmk. revert c0 Hu Hrun. induction calls as [|call calls IH]; intros c0 Hu; cbn.
  { by intros [= <-]. }
  intros (c1 & Hs & Hrun)%rbind_ret. eapply IH; [|exact Hrun]. by eapply serve_untouched.
Qed.

(** ** Concrete instances *)

Module Witness.

#[local] Existing Instance merge_GoSort.

Fixpoint chars (s : string) : list string :=
  match s with
  | EmptyString => []
  | String a s => String a "" :: chars s
  end.

Definition ascii_letter (r : string) : bool := negb (String.eqb r " " || String.eqb r "," || String.eqb r ".").

Definition two_files : gmap string string := {["a.txt" := "to be, or not to be."; "b.txt" := "not so"]}.

Lemma two_files_exist f : f ∈ ["a.txt"; "b.txt"] -> is_Some (two_files !! f).
Proof. intros Hf. repeat (apply elem_of_cons in Hf as [->|Hf]; [by eexists|]). set_solver. Qed.

Lemma wordcount_correct_witness : exists ws,
  StronglySorted (fun a b => str_less a b = true) ws /\
  mrsequential 20 (wc_Map chars ascii_letter) wc_Reduce two_files ["a.txt"; "b.txt"] =
  Some (Ret (concat_lines ((fun w => (w +:+ " " +:+
    pretty (occurrences w (all_words chars ascii_letter two_files ["a.txt"; "b.txt"])) +:+ nl)%string) <$> ws))).
Proof.
  destruct (wordcount_correct chars ascii_letter two_files ["a.txt"; "b.txt"] 20) as (ws & Hs & _ & Hr).
  - discriminate.
  - exact two_files_exist.
  - apply Nat.ltb_lt. vm_compute. reflexivity.
  - exists ws. split; [exact Hs|exact Hr].
Defined.

Lemma mrsequential_correct_witness : exists gs,
  mrsequential 20 nocrash_Map nocrash_Reduce two_files ["a.txt"; "b.txt"] =
    Some (Ret (concat_lines ((fun g => (g.1 +:+ " " +:+ nocrash_Reduce g.1 g.2 +:+ nl)%string) <$> gs))) /\
  StronglySorted (fun a b => str_less a b = true) gs.*1.
Proof.
  destruct (mrsequential_correct nocrash_Map nocrash_Reduce two_files ["a.txt"; "b.txt"] 20)
    as (gs & Hr & Hs & _).
  - discriminate.
  - exact two_files_exist.
  - apply Nat.ltb_lt. vm_compute. reflexivity.
  - exists gs. split; [exact Hr|exact Hs].
Defined.

Lemma ihash_bounds_witness : 0 <= ihash "hello" < 2 ^ 31 /\ 0 <= Z.rem (ihash "hello") 10 < 10.
Proof. destruct (ihash_bounds "hello" 10) as (H1 & H2 & _); [lia|]. split; [exact H1|exact H2]. Defined.

Lemma coordinator_stuck_witness : exists c,
  (let! c0 := MakeCoordinator ["x"; "y"] 2 in
   serve_all [CallGetTask 0; CallFinishNotify 0 Map; CallFinishNotify 1 Map; CallGetTask 5] c0) = Ret c /\
  GetTask 9 c = Ret (c, Assigned (mkTask 2 2 0 Map "x")).
Proof.
  eexists. split; [vm_compute; reflexivity|].
  apply (coordinator_stuck "x" ["y"] 2
    [CallGetTask 0; CallFinishNotify 0 Map; CallFinishNotify 1 Map; CallGetTask 5]).
  vm_compute. reflexivity.
Defined.

End Witness.
End MapReduceSpec.
