(* ===== verification/MrRun.v ===== *)
(** Running MapReduce: the loop of a worker against the coordinator (mr/worker.go),
    the programs main/mrcoordinator.go and main/mrworker.go, and the
    applications of the tests that crash, count and measure (mrapps/crash.go,
    jobcount.go, mtiming.go, rtiming.go). *)
From stdpp Require Import pretty.
From Stdlib Require Import Strings.Ascii.
From S2P Require Import Prelude MapReduce.
Import MapReduce.
Local Open Scope Z_scope.

Module MrRun.

(** ** Calls: mr/worker.go, mr/rpc.go *)

(** [uid] is [os.Getuid()]. *)
Definition coordinatorSock (uid : Z) : string := "/var/tmp/824-mr-" +:+ pretty uid.

(** What becomes of one call: nobody listens; the connection fails before or
    after the handler runs; or the reply arrives. *)
Inductive conn := Refused | FailsBefore | FailsAfter | Served.

#[export] Instance conn_eq_dec : EqDecision conn.
Proof. solve_decision. Defined.

(** [log.Fatal] ends the worker; a handler may wait on its condition variable. *)
Inductive called {A : Type} := Fatal | Blocks | Returns (ok : bool) (reply : A) (c : Coordinator).
Arguments called : clear implicits.

(** [reply] is the value of the reply before the call. *)
Definition call {A} (o : conn) (handler : Coordinator -> res (Coordinator * option A)) (reply : A)
    (c : Coordinator) : res (called A) :=
  match o with
  | Refused => Ret Fatal
  | FailsBefore => Ret (Returns false reply c)
  | FailsAfter => let! (c, _) := handler c in Ret (Returns false reply c)
  | Served =>
      let! (c, r) := handler c in
      match r with
      | Some reply => Ret (Returns true reply c)
      | None => Ret Blocks
      end
  end.

(** The handlers as the RPC server calls them. *)
Definition serve_GetTask (now : Z) (c : Coordinator) : res (Coordinator * option GetTaskReply) :=
  let! (c, r) := GetTask now c in
  Ret (c, match r with Assigned reply => Some reply | Waits => None end).

Definition serve_FinishNotify (taskNum type : Z) (c : Coordinator) : res (Coordinator * option unit) :=
  let! c := FinishNotify taskNum type c in Ret (c, Some tt).

Definition serve_Example (x : Z) (c : Coordinator) : res (Coordinator * option Z) :=
  Ret (c, Some (Example x)).

(** What [CallExample] prints: the number, or [Some None] for "call failed!";
    [None] when the program ends or waits in the call. *)
Definition CallExample (o : conn) (c : Coordinator) : res (option (option Z)) :=
  let! r := call o (serve_Example 99) 0 c in
  match r with
  | Returns true y _ => Ret (Some (Some y))
  | Returns false _ _ => Ret (Some None)
  | _ => Ret None
  end.

(** ** The loop of [Worker] *)

Record world := mkWorld { coordinator : Coordinator; files : gmap string string }.

(** [Exited 0] is [os.Exit(0)], [Exited 1] the end by [log.Fatal] or a panic. *)
Inductive worker_state := Looping (w : world) | Exited (code : Z) | Waiting.

(** What is outside the worker's control in one iteration: its two calls, the
    time, whether a temporary file can be made, which name it gets among the
    files there are and whether it can be renamed, and what the coordinator
    does for other workers before and between the calls. *)
Record turn := mkTurn {
  get_conn : conn;
  finish_conn : conn;
  now : Z;
  temp_made : bool;
  temp_name : gmap string string -> string;
  renamed : bool;
  before : Coordinator -> res Coordinator;
  between : Coordinator -> res Coordinator;
}.

Section worker.
Context (json : KeyValue -> string) (mapf : string -> string -> list KeyValue).

(** The second call, after the task has left the files [fs]; its arguments are
    built from the reply to the first one. *)
Definition notify (t : turn) (reply : GetTaskReply) (fs : gmap string string) (c : Coordinator) : res worker_state :=
  let! c := between t c in
  let! done := call (finish_conn t) (serve_FinishNotify (TaskNum reply) (Type_ reply)) tt c in
  match done with
  | Fatal => Ret (Exited 1)
  | Blocks => Ret Waiting
  | Returns _ _ c => Ret (Looping (mkWorld c fs))
  end.

(** The reply is zero when the first call failed.  [ReduceWorker] has no body. *)
Definition worker_turn (t : turn) (w : world) : res worker_state :=
  let! c := before t (coordinator w) in
  let! got := call (get_conn t) (serve_GetTask (now t)) (mkTask 0 0 0 0 "") c in
  match got with
  | Fatal => Ret (Exited 1)
  | Blocks => Ret Waiting
  | Returns _ reply c =>
      match worker_switch reply with
      | RunMap =>
          let temp := if temp_made t then Some (temp_name t (files w)) else None in
          match MapWorker json mapf temp (renamed t) reply (files w) with
          | Panic => Ret (Exited 1)
          | Ret fs => notify t reply fs c
          end
      | RunReduce => notify t reply (files w) c
      | Exit => Ret (Exited 0)
      | Unknown => notify t reply (files w) c
      end
  end.

Fixpoint Worker (turns : list turn) (w : world) : res worker_state :=
  match turns with
  | [] => Ret (Looping w)
  | t :: turns =>
      let! s := worker_turn t w in
      match s with Looping w => Worker turns w | _ => Ret s end
  end.

End worker.

(** ** main/mrcoordinator.go, main/mrworker.go *)

(** [None] is the usage message and [os.Exit(1)]; [args] includes the name of
    the program. *)
Definition coordinator_main (args : list string) : res (option Coordinator) :=
  if len args <? 2 then Ret None else
  let! files := go_from args 1 in
  let! c := MakeCoordinator files 10 in
  Ret (Some c).

(** The loop that sleeps until [Done], on the coordinators that it observes. *)
Fixpoint coordinator_loop (obs : list Coordinator) : bool :=
  match obs with
  | [] => false
  | c :: obs => if Bool.eqb (Done c) false then coordinator_loop obs else true
  end.

Section plugins.
Context {plugin symbol mapper reducer : Type}.
Context (Open : string -> option plugin) (Lookup : plugin -> string -> option symbol).
(** The type assertions on the two symbols. *)
Context (as_map : symbol -> option mapper) (as_reduce : symbol -> option reducer).

(** [None] is [log.Fatalf]; a failed type assertion panics. *)
Definition loadPlugin (filename : string) : res (option (mapper * reducer)) :=
  match Open filename with
  | None => Ret None
  | Some p =>
      match Lookup p "Map" with
      | None => Ret None
      | Some xmapf =>
          match as_map xmapf with
          | None => Panic
          | Some mapf =>
              match Lookup p "Reduce" with
              | None => Ret None
              | Some xreducef =>
                  match as_reduce xreducef with
                  | None => Panic
                  | Some reducef => Ret (Some (mapf, reducef))
                  end
              end
          end
      end
  end.

(** The functions that [mrworker] passes to [Worker], unless it exits. *)
Definition worker_main (args : list string) : res (option (mapper * reducer)) :=
  if negb (len args =? 2) then Ret None else
  let! filename := go_index args 1 in loadPlugin filename.
End plugins.

(** ** mrapps/crash.go *)

(** [rr] is drawn below 1000 and [ms] below 10000: the delay in milliseconds,
    or [None] for [os.Exit(1)]. *)
Definition maybeCrash (rr ms : Z) : option Z :=
  if rr <? 330 then None else if rr <? 660 then Some ms else Some 0.

Definition crash_Map (rr ms : Z) (filename contents : string) : option (list KeyValue) :=
  match maybeCrash rr ms with
  | None => None
  | Some _ =>
      Some [mkKV "a" filename; mkKV "b" (pretty (Z.of_nat (String.length filename)));
            mkKV "c" (pretty (Z.of_nat (String.length contents))); mkKV "d" "xyzzy"]
  end.

Section sorting.
Context `{!GoSort}.

Definition crash_Reduce (rr ms : Z) (key : string) (values : list string) : option string :=
  match maybeCrash rr ms with
  | None => None
  | Some _ => Some (Join " " (sort_Strings values))
  end.

(** ** mrapps/jobcount.go *)

(** A worker's process with the global variable [count]. *)
Record process := mkProcess { pid : Z; count : Z }.

Definition job_file (p : process) : string :=
  "mr-worker-jobcount-" +:+ pretty (pid p) +:+ "-" +:+ pretty (count p).

(** [r] is [rand.Intn(3000)]; the result carries the delay in milliseconds. *)
Definition jobcount_Map (writable : bool) (r : Z) (filename contents : string) (p : process)
    (dir : gmap string string) : res (process * gmap string string * Z * list KeyValue) :=
  let f := job_file p in
  let p := mkProcess (pid p) (count p + 1) in
  if (writable : bool) then Ret (p, <[f := "x"]> dir, 2000 + r, [mkKV "a" "x"]) else Panic.

Definition HasPrefix (s p : string) : bool := String.prefix p s.

Definition jobcount_Reduce (readable : bool) (dir : gmap string string) : res string :=
  if negb readable then Panic else
  let invocations :=
    fold_left (fun n f => if HasPrefix f "mr-worker-jobcount" then n + 1 else n) (elements (dom dir)) 0 in
  Ret (pretty invocations).

(** ** mrapps/mtiming.go, mrapps/rtiming.go *)

(** [fmt.Sscanf] with a literal text and [%d], on names of ASCII characters:
    blanks, a sign and digits; the rest of the name is not looked at. *)
Definition is_blank (a : ascii) : bool :=
  let k := Ascii.N_of_ascii a in ((k =? 32) || (k =? 9) || (k =? 11) || (k =? 12) || (k =? 13))%N.

Fixpoint skip_blanks (s : string) : string :=
  match s with String a s' => if is_blank a then skip_blanks s' else s | EmptyString => s end.

Definition digit (a : ascii) : option Z :=
  let k := Z.of_N (Ascii.N_of_ascii a) - 48 in if (0 <=? k) && (k <=? 9) then Some k else None.

(** The number that the leading digits of [s] stand for, after [acc]. *)
Fixpoint read_digits (acc : Z) (s : string) : Z :=
  match s with
  | String a s => match digit a with Some d => read_digits (acc * 10 + d) s | None => acc end
  | EmptyString => acc
  end.

Definition starts_with_digit (s : string) : bool :=
  match s with String a _ => match digit a with Some _ => true | None => false end | EmptyString => false end.

Definition scan_int (s : string) : option Z :=
  let s := skip_blanks s in
  let '(neg, s) := match s with
                   | String "-" s => (true, s)
                   | String "+" s => (false, s)
                   | _ => (false, s)
                   end in
  if negb (starts_with_digit s) then None else
  let v := if (neg : bool) then - read_digits 0 s else read_digits 0 s in
  if (- 2 ^ 63 <=? v) && (v <? 2 ^ 63) then Some v else None.

Fixpoint str_drop (k : nat) (s : string) : string :=
  match k, s with
  | S k, String _ s => str_drop k s
  | _, _ => s
  end.

Definition Sscanf_d (literal name : string) : option Z :=
  if String.prefix literal name then scan_int (str_drop (String.length literal) name) else None.

Definition phase_prefix (phase : string) : string := "mr-worker-" +:+ phase +:+ "-".
Definition phase_file (phase : string) (pid : Z) : string := phase_prefix phase +:+ pretty pid.

(** [nparallel] is three steps, with a second of sleep before the last. *)
Definition nparallel_begin (writable : bool) (phase : string) (pid : Z) (dir : gmap string string)
    : res (gmap string string) :=
  if (writable : bool) then Ret (<[phase_file phase pid := "x"]> dir) else Panic.

(** At most a million names are read, and reading an empty directory is an
    error; [Kill] of a process with signal 0 tells whether it is alive. *)
Definition max_names : Z := 1000000.

Definition nparallel_count (readable : bool) (phase : string) (alive : Z -> bool) (dir : gmap string string) : res Z :=
  if negb readable || bool_decide (dom dir = ∅) then Panic else
  let names := take (Z.to_nat max_names) (elements (dom dir)) in
  Ret (fold_left (fun ret name =>
         match Sscanf_d (phase_prefix phase) name with
         | Some xpid => if alive xpid then ret + 1 else ret
         | None => ret
         end) names 0).

Definition nparallel_end (phase : string) (pid : Z) (dir : gmap string string) : res (gmap string string) :=
  match dir !! phase_file phase pid with
  | None => Panic
  | Some _ => Ret (delete (phase_file phase pid) dir)
  end.

(** [ts] is the time as [%.1f] prints it, and [n] the result of
    [nparallel("map")]. *)
Definition mtiming_Map (pid : Z) (ts : string) (n : Z) (filename contents : string) : list KeyValue :=
  [mkKV ("times-" +:+ pretty pid) ts; mkKV ("parallel-" +:+ pretty pid) (pretty n)].

Definition mtiming_Reduce (key : string) (values : list string) : string := Join " " (sort_Strings values).

Definition rtiming_Map (filename contents : string) : list KeyValue :=
  (fun k => mkKV k "1") <$> ["a"; "b"; "c"; "d"; "e"; "f"; "g"; "h"; "i"; "j"].

(** [n] is the result of [nparallel("reduce")]. *)
Definition rtiming_Reduce (n : Z) (key : string) (values : list string) : string := pretty n.

End sorting.
End MrRun.
