(* ===== verification/MrRunSpec.v ===== *)
(** What the programs and test applications of MapReduce do: workers that never
    finish, and counts that the tests rely on. *)
From stdpp Require Import pretty.
From Stdlib Require Import Strings.Ascii.
From S2P Require Import Prelude MapReduce MapReduceSpec MrRun.
Import MapReduce MapReduceSpec MrRun.
Local Open Scope Z_scope.

Module MrRunSpec.

(** ** Workers and the coordinator *)

(** A call that a worker of a job with [k] files and [n] reduce tasks may make. *)
Definition call_ok (k n : Z) (call : coordinator_call) : Prop :=
  match call with
  | CallGetTask _ => True
  | CallFinishNotify taskNum type =>
      (type = Map -> 0 <= taskNum < k) /\ (type = Reduce -> 0 <= taskNum < n)
  end.

(** The coordinator has recorded nothing. *)
Definition stuck (fs : list string) (n : Z) (c : Coordinator) : Prop :=
  untouched fs n c /\ len (reduceFinished c) = n.

Lemma MakeCoordinator_stuck fs n c : MakeCoordinator fs n = Ret c -> stuck fs n c.
Proof.
  unfold MakeCoordinator. case_cond; [done|]. intros [= <-]. zbool. split; [done|].
  cbn. unfold len, go_make. rewrite length_replicate. lia.
Qed.

Lemma FinishNotify_stuck f fs n k t c :
  stuck (f :: fs) n c -> call_ok (len (f :: fs)) n (CallFinishNotify k t) ->
  exists c', FinishNotify k t c = Ret c' /\ stuck (f :: fs) n c'.
Proof.
  intros [Hu Hr] [Hm Hrd]. pose proof (serve_untouched f fs n (CallFinishNotify k t) c) as Hs. cbn [serve] in Hs.
  revert Hs. unfold FinishNotify. destruct Hu as (H1 & H2 & H3 & Hf & H5).
  assert (len (mapFinished c) = len (f :: fs)) as Hl.
  { rewrite Hf. unfold len, go_make. rewrite length_replicate. lia. }
  case_cond; [|case_cond]; zbool.
  - rewrite go_set_in by (rewrite Hl; auto). cbn [rbind]. intros Hs. eexists. split; [done|]. split; [by apply Hs|done].
  - rewrite go_set_in by (rewrite Hr; auto). cbn [rbind]. intros Hs. eexists. split; [done|]. split; [by apply Hs|].
    cbn. by rewrite len_insert.
  - intros _. by exists c.
Qed.

Lemma serve_stuck f fs n call c :
  stuck (f :: fs) n c -> call_ok (len (f :: fs)) n call ->
  exists c', serve call c = Ret c' /\ stuck (f :: fs) n c'.
Proof.
  intros Hc Hok. destruct call as [t|k t]; [|by apply FinishNotify_stuck].
  exists c. cbn [serve]. by rewrite (GetTask_first t f fs n c (proj1 Hc)).
Qed.

Lemma serve_all_stuck f fs n calls c :
  stuck (f :: fs) n c -> Forall (call_ok (len (f :: fs)) n) calls ->
  exists c', serve_all calls c = Ret c' /\ stuck (f :: fs) n c'.
Proof.
  intros Hc Hok. revert c Hc. induction Hok as [|call calls Hcall _ IH]; intros c Hc; cbn [serve_all]; [by exists c|].
  destruct (serve_stuck f fs n call c Hc Hcall) as (c1 & -> & Hc1). by apply IH.
Qed.

(** The other workers make the calls that workers make, and a temporary file gets
    a new name. *)
Record turn_ok (k n : Z) (t : turn) : Prop := {
  to_before : exists calls, before t = serve_all calls /\ Forall (call_ok k n) calls;
  to_between : exists calls, between t = serve_all calls /\ Forall (call_ok k n) calls;
  to_temp : forall fs, fs !! temp_name t fs = None;
}.

Section worker.
Context (json : KeyValue -> string) (mapf : string -> string -> list KeyValue) (f : string) (fs : list string) (n : Z).
Context (dir : gmap string string).

(** The iteration ends the worker: nobody listens at one of the calls, or map
    task 0 arrives and its input cannot be read or no temporary file made. *)
Definition ends_worker (t : turn) : bool :=
  match get_conn t with
  | Refused => true
  | Served => bool_decide (dir !! f = None) || negb (temp_made t)
  | _ => false
  end || match finish_conn t with Refused => true | _ => false end.

(** What map task 0 writes. *)
Definition map_output (content : string) : string :=
  fold_left (fun acc kv => acc +:+ json kv)%string (mapf f content) "".

(** The files of [dir] are still there, but for the result of map task 0, and
    what is new is its output. *)
Record kept (fs : gmap string string) : Prop := {
  kept_input : is_Some (fs !! f) <-> is_Some (dir !! f);
  kept_files : forall name x, dir !! name = Some x -> name <> getFinalMapName 0 -> fs !! name = Some x;
  kept_new : forall content name x, f <> getFinalMapName 0 -> dir !! f = Some content -> fs !! name = Some x ->
    dir !! name = Some x \/ x = map_output content;
}.

Lemma kept_refl : kept dir.
Proof. split; auto. Qed.

Definition progress (w : world) : Prop := stuck (f :: fs) n (coordinator w) /\ kept (files w).

Lemma finish_call o k t c : o <> Refused -> stuck (f :: fs) n c -> call_ok (len (f :: fs)) n (CallFinishNotify k t) ->
  exists ok c', call o (serve_FinishNotify k t) tt c = Ret (Returns ok tt c') /\ stuck (f :: fs) n c'.
Proof.
  intros Ho Hc Hok. destruct (FinishNotify_stuck f fs n k t c Hc Hok) as (c' & Hrun & Hc').
  assert (serve_FinishNotify k t c = Ret (c', Some tt)) as Hs by (unfold serve_FinishNotify; by rewrite Hrun).
  destruct o; [done|exists false, c|exists false, c'|exists true, c']; unfold call; by rewrite ?Hs.
Qed.

(** Whatever becomes of the first call, the reply is the map task 0 or zero. *)
Lemma get_call o t c : o <> Refused -> stuck (f :: fs) n c ->
  exists ok, call o (serve_GetTask t) (mkTask 0 0 0 0 "") c =
    Ret (Returns ok match o with Served => mkTask (len (f :: fs)) n 0 Map f | _ => mkTask 0 0 0 0 "" end c).
Proof.
  intros Ho Hc.
  assert (serve_GetTask t c = Ret (c, Some (mkTask (len (f :: fs)) n 0 Map f))) as Hs
    by (unfold serve_GetTask; by rewrite (GetTask_first t f fs n c (proj1 Hc))).
  destruct o; [done|exists false|exists false|exists true]; unfold call; by rewrite ?Hs.
Qed.

Lemma MapWorker_kept t files : kept files -> turn_ok (len (f :: fs)) n t ->
  let temp := if temp_made t then Some (temp_name t files) else None in
  if bool_decide (dir !! f = None) || negb (temp_made t)
  then MapWorker json mapf temp (renamed t) (mkTask (len (f :: fs)) n 0 Map f) files = Panic
  else exists files', MapWorker json mapf temp (renamed t) (mkTask (len (f :: fs)) n 0 Map f) files = Ret files' /\ kept files'.
Proof.
  intros [Hin Hfiles Hnew] [_ _ Htemp]. specialize (Htemp files). unfold MapWorker. cbn [Filename TaskNum].
  case_bool_decide as Hf; cbn [orb].
  { destruct (files !! f) as [x|] eqn:Hx; [|done]. destruct (proj1 Hin) as [y Hy]; [by eexists|congruence]. }
  destruct (files !! f) as [content|] eqn:Hx.
  2: { destruct (dir !! f) as [y|] eqn:Hy; [|done]. by destruct (proj2 Hin (ex_intro _ y eq_refl)). }
  destruct (temp_made t); cbn [negb]; [|done]. eexists. split; [done|].
  set (tmp := temp_name t files) in *. set (out := fold_left _ _ _).
  assert (forall name, name <> getFinalMapName 0 -> is_Some (files !! name) ->
    (if renamed t then <[getFinalMapName 0 := out]> (delete tmp (<[tmp := out]> files)) else <[tmp := out]> files) !! name
    = files !! name) as Hold.
  { intros name Hne [x Hn]. assert (name <> tmp) by congruence.
    destruct (renamed t); rewrite ?lookup_insert_ne by done; [|done]. by rewrite lookup_delete_ne, lookup_insert_ne. }
  split.
  - split; [intros _; apply Hin; by eexists|intros _].
    destruct (decide (f = getFinalMapName 0)) as [->|Hne]; [|rewrite Hold by (done || by eexists); by eexists].
    destruct (renamed t); [rewrite lookup_insert_eq; by eexists|]. rewrite lookup_insert_ne by congruence. by eexists.
  - intros name x Hn Hne. rewrite Hold; [by apply Hfiles|done|]. exists x. by apply Hfiles.
  - intros content0 name x Hne Hc Hn.
    assert (content = content0) as -> by (specialize (Hfiles f content0 Hc Hne); congruence).
    assert (x = out \/ files !! name = Some x) as [->|?]; [|by right|by eapply Hnew].
    destruct (renamed t); [apply lookup_insert_Some in Hn as [[_ ->]|[_ Hn]]; [by left|]; apply lookup_delete_Some in Hn as [_ Hn]|];
      apply lookup_insert_Some in Hn as [[_ ->]|[_ ?]]; auto.
Qed.

Lemma notify_progress t reply files c : turn_ok (len (f :: fs)) n t -> stuck (f :: fs) n c -> kept files ->
  call_ok (len (f :: fs)) n (CallFinishNotify (TaskNum reply) (Type_ reply)) ->
  if match finish_conn t with Refused => true | _ => false end then notify t reply files c = Ret (Exited 1)
  else exists w', notify t reply files c = Ret (Looping w') /\ progress w'.
Proof.
  intros [_ (calls & Hb & Hcalls) _] Hc Hk Hok. unfold notify. rewrite Hb.
  destruct (serve_all_stuck f fs n calls c Hc Hcalls) as (c1 & -> & Hc1). cbn [rbind].
  destruct (decide (finish_conn t = Refused)) as [Hf|Hf]; [by rewrite Hf|].
  destruct (finish_call (finish_conn t) _ _ c1 Hf Hc1 Hok) as (ok & c2 & -> & Hc2). cbn [rbind].
  assert (exists w', Ret (Looping (mkWorld c2 files)) = Ret (Looping w') /\ progress w') as Hw
    by (exists (mkWorld c2 files); split; [done|by split]).
  by destruct (finish_conn t).
Qed.

Lemma worker_turn_progress t w : turn_ok (len (f :: fs)) n t -> progress w ->
  if ends_worker t then worker_turn json mapf t w = Ret (Exited 1)
  else exists w', worker_turn json mapf t w = Ret (Looping w') /\ progress w'.
Proof.
  intros Ht [Hc Hd]. pose proof (MapWorker_kept t (files w) Hd Ht) as Hmap. cbv zeta in Hmap.
  pose proof Ht as [(calls & Hb & Hcalls) _ _]. unfold worker_turn, ends_worker. rewrite Hb.
  destruct (serve_all_stuck f fs n calls _ Hc Hcalls) as (c1 & -> & Hc1). cbn [rbind].
  destruct (decide (get_conn t = Refused)) as [Hg|Hg]; [by rewrite Hg|].
  destruct (get_call (get_conn t) (now t) c1 Hg Hc1) as (ok & ->). cbn [rbind].
  assert (0 < len (f :: fs)) as Hpos by (unfold len; cbn; lia).
  destruct (get_conn t); [done|..]; cbn [worker_switch Type_ Z.eqb orb].
  - apply notify_progress; cbn; unfold Map, Reduce; auto; lia.
  - apply notify_progress; cbn; unfold Map, Reduce; auto; lia.
  - destruct (bool_decide _ || negb _); cbn [orb].
    + by rewrite Hmap.
    + destruct Hmap as (files' & -> & Hk). apply notify_progress; cbn; unfold Map, Reduce; auto; lia.
Qed.

Lemma Worker_progress turns w : Forall (turn_ok (len (f :: fs)) n) turns -> progress w ->
  if existsb ends_worker turns then Worker json mapf turns w = Ret (Exited 1)
  else exists w', Worker json mapf turns w = Ret (Looping w') /\ progress w'.
Proof.
  intros Hts. revert w. induction Hts as [|t turns Ht _ IH]; intros w Hw; cbn [Worker existsb]; [by exists w|].
  pose proof (worker_turn_progress t w Ht Hw) as Hturn. destruct (ends_worker t); cbn [orb].
  - by rewrite Hturn.
  - destruct Hturn as (w1 & -> & Hw1). by apply IH.
Qed.

End worker.

(** C30. A job never ends.  However many iterations a worker makes, whatever
    calls other workers make meanwhile, and whichever of its calls fail after
    they have reached somebody, the worker is still in its loop, unless an
    iteration has ended it by [log.Fatal] or a panic: a call found nobody
    listening, or the input of map task 0 could not be read, or no temporary
    file made.  As long
    as it loops, the coordinator hands out map task 0 to whoever asks, [Done]
    is false, and all that is new among the files is the output of map task 0
    (if its input is not the file that it writes). *)
Theorem workers_stuck json mapf f fs n dir c0 turns :
  MakeCoordinator (f :: fs) n = Ret c0 -> Forall (turn_ok (len (f :: fs)) n) turns ->
  if existsb (ends_worker f dir) turns then Worker json mapf turns (mkWorld c0 dir) = Ret (Exited 1)
  else exists c dir', Worker json mapf turns (mkWorld c0 dir) = Ret (Looping (mkWorld c dir')) /\
    Done c = false /\ (forall t, GetTask t c = Ret (c, Assigned (mkTask (len (f :: fs)) n 0 Map f))) /\
    (forall name x, dir !! name = Some x -> name <> getFinalMapName 0 -> dir' !! name = Some x) /\
    (forall content name x, f <> getFinalMapName 0 -> dir !! f = Some content -> dir' !! name = Some x ->
       dir !! name = Some x \/ x = map_output json mapf f content).
Proof.
  intros Hmk Hts. pose proof (MakeCoordinator_stuck _ _ _ Hmk) as Hc0.
  pose proof (Worker_progress json mapf f fs n dir turns (mkWorld c0 dir) Hts) as Hrun.
  destruct (existsb _ turns); [by apply Hrun; split; [|apply kept_refl]|].
  destruct Hrun as ([c dir'] & Hrun & Hc & [_ Hk1 Hk2]); [by split; [|apply kept_refl]|].
  exists c, dir'. split; [done|]. split; [done|]. split; [|done]. intros t. by apply GetTask_first, Hc.
Qed.

(** ** Numbers in file names *)

Fixpoint all_digits (s : string) : bool :=
  match s with
  | String a s => match digit a with Some _ => all_digits s | None => false end
  | EmptyString => true
  end.

Lemma digit_pretty_char d : (d < 10)%N -> digit (pretty_N_char d) = Some (Z.of_N d).
Proof.
  intros Hd. destruct d as [|p]; [done|]. do 4 (destruct p as [p|p|]; try done); destruct p; try done; lia.
Qed.

Lemma digit_pretty x : digit (pretty_N_char (x `mod` 10)) = Some (Z.of_N (x `mod` 10)).
Proof. apply digit_pretty_char. by apply N.mod_lt. Qed.

Lemma read_pretty_go x s : read_digits 0 (pretty_N_go x s) = read_digits (Z.of_N x) s.
Proof.
  revert s. induction (N.lt_wf_0 x) as [x _ IH]; intros s.
  destruct (decide (x = 0)%N) as [->|Hx]; [done|].
  rewrite pretty_N_go_step by lia. rewrite IH by (apply N.div_lt; lia). cbn [read_digits]. rewrite digit_pretty.
  f_equal. pose proof (N.div_mod x 10 ltac:(done)). lia.
Qed.

Lemma pretty_go_digits x s : all_digits (pretty_N_go x s) = all_digits s.
Proof.
  revert s. induction (N.lt_wf_0 x) as [x _ IH]; intros s.
  destruct (decide (x = 0)%N) as [->|Hx]; [done|].
  rewrite pretty_N_go_step by lia. rewrite IH by (apply N.div_lt; lia). cbn [all_digits]. by rewrite digit_pretty.
Qed.

Lemma pretty_nonneg x : 0 <= x -> pretty x = pretty (Z.to_N x).
Proof. intros Hx. unfold pretty at 1, pretty_Z. destruct x; [done|done|lia]. Qed.

Lemma pretty_digits x : 0 <= x -> all_digits (pretty x) = true /\ pretty x <> "" /\ read_digits 0 (pretty x) = x.
Proof.
  intros Hx. rewrite pretty_nonneg by done. unfold pretty, pretty_N. case_decide as H0.
  - split_and!; [done|done|]. change (0 = x). lia.
  - rewrite pretty_go_digits, read_pretty_go. split_and!; [done| |cbn [read_digits]; lia].
    intros He. pose proof (read_pretty_go (Z.to_N x) "") as Hr. rewrite He in Hr. cbn [read_digits] in Hr. lia.
Qed.

(** A digit is neither a blank nor a sign. *)
Lemma digit_char a k : digit a = Some k -> is_blank a = false /\ forall t,
  match String a t with String "-" s => (true, s) | String "+" s => (false, s) | _ => (false, String a t) end
  = (false, String a t).
Proof. by destruct a as [[] [] [] [] [] [] [] []]. Qed.

(** A number without a sign is read back. *)
Lemma scan_int_pretty x : 0 <= x < 2 ^ 63 -> scan_int (pretty x) = Some x.
Proof.
  intros Hx. destruct (pretty_digits x) as (Hd & Hne & Hr); [lia|]. unfold scan_int.
  destruct (pretty x) as [|a t] eqn:E; [done|]. cbn [all_digits] in Hd. destruct (digit a) as [k|] eqn:Ha; [|done].
  destruct (digit_char a k Ha) as [Hb Hm]. cbn [skip_blanks]. rewrite Hb, Hm.
  cbn [starts_with_digit]. rewrite Ha. cbn [negb]. rewrite Hr.
  destruct (Z.leb_spec (- 2 ^ 63) x); [|lia]. destruct (Z.ltb_spec x (2 ^ 63)); [done|lia].
Qed.

(** ** Counting files *)

Lemma fold_count {A} (t : A -> bool) l k :
  fold_left (fun n x => if t x then n + 1 else n) l k = k + Z.of_nat (length (filter (fun x => t x = true) l)).
Proof.
  revert k. induction l as [|x l IH]; intros k; cbn [fold_left].
  { change (k = k + 0). lia. }
  rewrite IH, filter_cons. destruct (t x); [rewrite decide_True by done|rewrite decide_False by done; done].
  cbn [length]. lia.
Qed.

(** The files whose names pass a test. *)
Definition matching (t : string -> bool) (dir : gmap string string) : gset string := filter (fun f => t f = true) (dom dir).

Lemma matching_length t dir : length (filter (fun f => t f = true) (elements (dom dir))) = size (matching t dir).
Proof.
  unfold matching, filter at 2, set_filter. rewrite size_list_to_set; [done|].
  apply NoDup_filter, NoDup_elements.
Qed.

Definition is_job (f : string) : bool := HasPrefix f "mr-worker-jobcount".

Lemma jobcount_Reduce_size dir : jobcount_Reduce true dir = Ret (pretty (Z.of_nat (size (matching is_job dir)))).
Proof. unfold jobcount_Reduce. cbn [negb]. rewrite (fold_count is_job), matching_length. done. Qed.

(** *** Names of job files *)

#[local] Arguments String.append !_ _ /.

Lemma append_same s1 s2 t1 t2 : all_digits s1 = true -> all_digits s2 = true ->
  s1 +:+ "-" +:+ t1 = s2 +:+ "-" +:+ t2 -> s1 = s2 /\ t1 = t2.
Proof.
  revert s2. induction s1 as [|a s1 IH]; intros [|b s2]; cbn [all_digits String.append].
  - intros _ _ [= ->]. done.
  - intros _ Hb [= <- _]. discriminate Hb.
  - intros Ha _ [= -> _]. discriminate Ha.
  - destruct (digit a); [|done]. destruct (digit b); [|done]. intros H1 H2 [= -> He].
    by destruct (IH s2 H1 H2 He) as [-> ->].
Qed.

Lemma job_file_inj p q : 0 <= pid p -> 0 <= pid q -> job_file p = job_file q -> p = q.
Proof.
  intros Hp Hq. unfold job_file. intros He. apply (inj (String.append "mr-worker-jobcount-")) in He.
  destruct (append_same _ _ _ _ (proj1 (pretty_digits _ Hp)) (proj1 (pretty_digits _ Hq)) He) as [H1 H2].
  destruct p, q. cbn in *. apply (inj pretty) in H1, H2. by subst.
Qed.

Lemma job_file_is_job p : is_job (job_file p) = true.
Proof. done. Qed.

(** [Map] runs in the processes [pids], one after the other; the counters start
    at 0. *)
Fixpoint job_runs (r : Z) (pids : list Z) (counts : gmap Z Z) (dir : gmap string string) : res (gmap string string) :=
  match pids with
  | [] => Ret dir
  | q :: pids =>
      let! (p, dir, _, _) := jobcount_Map true r "" "" (mkProcess q (default 0 (counts !! q))) dir in
      job_runs r pids (<[q := count p]> counts) dir
  end.

(** The counters are past every job file. *)
Definition counters_ok (counts : gmap Z Z) (dir : gmap string string) : Prop :=
  forall f, f ∈ matching is_job dir -> exists p, f = job_file p /\ 0 <= pid p /\ count p < default 0 (counts !! pid p).

Lemma matching_insert t f x dir : t f = true -> matching t (<[f := x]> dir) = {[f]} ∪ matching t dir.
Proof.
  intros Hf. apply set_eq. intros g. unfold matching.
  rewrite elem_of_union, elem_of_singleton, !elem_of_filter, dom_insert_L, elem_of_union, elem_of_singleton.
  split; [tauto|]. intros [-> | ?]; tauto.
Qed.

Lemma job_runs_size r pids counts dir :
  Forall (fun q => 0 <= q) pids -> counters_ok counts dir ->
  exists dir', job_runs r pids counts dir = Ret dir' /\
    size (matching is_job dir') = (size (matching is_job dir) + length pids)%nat.
Proof.
  intros Hp. revert counts dir. induction Hp as [|q pids Hq _ IH]; intros counts dir Hok; cbn [job_runs].
  { exists dir. split; [done|cbn; lia]. }
  unfold jobcount_Map. cbn [rbind pid count]. set (p := mkProcess q (default 0 (counts !! q))).
  assert (job_file p ∉ matching is_job dir) as Hnew.
  { intros Hin. destruct (Hok _ Hin) as (p' & He & Hp' & Hc). apply job_file_inj in He; [|done..]. subst p'. cbn in Hc. lia. }
  pose proof (matching_insert is_job _ "x" dir (job_file_is_job p)) as Hm.
  destruct (IH (<[q := default 0 (counts !! q) + 1]> counts) (<[job_file p := "x"]> dir)) as (dir' & Hrun & Hs).
  - intros f. rewrite Hm. intros [->%elem_of_singleton|Hin]%elem_of_union.
    + exists p. cbn. rewrite lookup_insert_eq. cbn. split_and!; [done|done|lia].
    + destruct (Hok f Hin) as (p' & He & Hp' & Hc). exists p'. split; [done|]. split; [done|].
      destruct (decide (pid p' = q)) as [<-|].
      * rewrite lookup_insert_eq. cbn. lia.
      * by rewrite lookup_insert_ne.
  - exists dir'. split; [done|]. rewrite Hs, Hm, size_union, size_singleton by set_solver. cbn. lia.
Qed.

(** In a directory without files of earlier jobs, jobcount's [Reduce]
    returns the number of invocations of [Map], in whatever processes they
    ran: no two invocations use the same file. *)
Theorem jobcount_counts r pids dir :
  Forall (fun q => 0 <= q) pids -> matching is_job dir = ∅ ->
  exists dir', job_runs r pids ∅ dir = Ret dir' /\ jobcount_Reduce true dir' = Ret (pretty (len pids)).
Proof.
  intros Hp He. destruct (job_runs_size r pids ∅ dir Hp) as (dir' & Hrun & Hs).
  { intros f. rewrite He. set_solver. }
  exists dir'. split; [done|]. rewrite jobcount_Reduce_size, Hs, He, size_empty. done.
Qed.

(** ** Counting live workers *)

(** [xpid] is alive and runs the phase. *)
Definition live_worker (phase : string) (alive : Z -> bool) (name : string) : bool :=
  match Sscanf_d (phase_prefix phase) name with Some xpid => alive xpid | None => false end.

Lemma prefix_append s t : String.prefix s (s +:+ t) = true.
Proof. induction s as [|a s IH]; [by destruct t|]. cbn. by destruct (ascii_dec a a). Qed.

Lemma str_drop_append s t : MrRun.str_drop (String.length s) (s +:+ t) = t.
Proof. induction s as [|a s IH]; [by destruct t|]. apply IH. Qed.

Lemma Sscanf_phase_file phase x : 0 <= x < 2 ^ 63 -> Sscanf_d (phase_prefix phase) (phase_file phase x) = Some x.
Proof. intros Hx. unfold Sscanf_d, phase_file. by rewrite prefix_append, str_drop_append, scan_int_pretty. Qed.

Lemma nparallel_count_size phase alive dir :
  dom dir <> ∅ -> (size (dom dir) <= Z.to_nat max_names)%nat ->
  nparallel_count true phase alive dir = Ret (Z.of_nat (size (matching (live_worker phase alive) dir))).
Proof.
  intros Hne Hs. unfold nparallel_count. rewrite bool_decide_false by done. cbn [negb orb]. rewrite take_ge by done.
  rewrite <- matching_length, <- (Z.add_0_l (Z.of_nat _)), <- (fold_count (live_worker phase alive)). f_equal.
  generalize 0. induction (elements (dom dir)) as [|f l IH]; intros k; cbn [fold_left]; [done|].
  rewrite IH. unfold live_worker. by destruct (Sscanf_d _ f).
Qed.

(** When the processes [ps] have begun a phase and not ended it, and no
    other file looks like theirs, [nparallel] counts those of them that are
    alive, each once. *)
Theorem nparallel_live phase alive (ps : gset Z) dir :
  ps <> ∅ ->
  (forall x, x ∈ ps -> 0 <= x < 2 ^ 63) -> (size (dom dir) <= Z.to_nat max_names)%nat ->
  (forall name, name ∈ dom dir -> (exists x, x ∈ ps /\ name = phase_file phase x) \/ Sscanf_d (phase_prefix phase) name = None) ->
  (forall x, x ∈ ps -> phase_file phase x ∈ dom dir) ->
  nparallel_count true phase alive dir = Ret (Z.of_nat (size (filter (fun x => alive x = true) ps))).
Proof.
  intros Hne Hr Hs Hn Hps. rewrite nparallel_count_size; [|intros He|done].
  2: { apply set_choose_L in Hne as [x Hx]. specialize (Hps x Hx). rewrite He in Hps. set_solver. }
  do 2 f_equal.
  assert (matching (live_worker phase alive) dir = set_map (phase_file phase) (filter (fun x => alive x = true) ps)) as ->.
  { apply set_eq. intros name. unfold matching. rewrite elem_of_filter, elem_of_map. setoid_rewrite elem_of_filter. split.
    - intros [Hl Hd]. unfold live_worker in Hl. destruct (Hn name Hd) as [(x & Hx & ->)|He]; [|by rewrite He in Hl].
      rewrite Sscanf_phase_file in Hl by auto. by exists x.
    - intros (x & -> & Ha & Hx). split; [|auto]. unfold live_worker. by rewrite Sscanf_phase_file by auto. }
  set (live := filter (fun x => alive x = true) ps). unfold set_map. rewrite size_list_to_set; [by rewrite length_fmap|].
  apply NoDup_fmap_2_strong; [|apply NoDup_elements].
  intros x y [_ Hx]%elem_of_elements%elem_of_filter [_ Hy]%elem_of_elements%elem_of_filter He.
  pose proof (Sscanf_phase_file phase x (Hr x Hx)) as H1. rewrite He, Sscanf_phase_file in H1 by auto. congruence.
Qed.

(** ** Crashing *)

(** When it does not crash, crash.go computes what nocrash.go computes, so
    the tests may compare their results. *)
Theorem crash_as_nocrash `{!GoSort} rr ms filename contents key values :
  crash_Map rr ms filename contents = (if rr <? 330 then None else Some (nocrash_Map filename contents)) /\
  crash_Reduce rr ms key values = (if rr <? 330 then None else Some (nocrash_Reduce key values)).
Proof. unfold crash_Map, crash_Reduce, maybeCrash. by repeat case_cond. Qed.

(** ** Concrete instances *)

Module Witness.

Definition json (kv : KeyValue) : string := Key kv +:+ ":" +:+ Value kv +:+ ";".
Definition input : gmap string string := {["a.txt" := "to be"; "b.txt" := "or not"]}.

(** A name that no file has: longer than all of them together. *)
Definition unused (fs : gmap string string) : string :=
  String.concat "" (elements (dom fs)) +:+ "map".

Lemma length_concat_ge name l : name ∈ l -> (String.length name <= String.length (String.concat "" l))%nat.
Proof.
  induction l as [|x [|y l] IH]; [set_solver|by intros ->%list_elem_of_singleton|].
  change (String.concat "" (x :: y :: l)) with (x +:+ "" +:+ String.concat "" (y :: l)).
  rewrite !length_app_str. cbn [String.length]. intros [->|Hin]%elem_of_cons; [lia|]. specialize (IH Hin). lia.
Qed.

Lemma unused_new (fs : gmap string string) : fs !! unused fs = None.
Proof.
  apply not_elem_of_dom. intros Hin%elem_of_elements%length_concat_ge. revert Hin. unfold unused.
  rewrite length_app_str. cbn [String.length]. lia.
Qed.

(** One iteration in which all goes well and another worker reports a task
    done, and one in which the first call is lost. *)
Definition turns : list turn :=
  [mkTurn Served Served 5 true unused true (serve_all []) (serve_all [CallGetTask 6; CallFinishNotify 0 Map; CallFinishNotify 1 Map]);
   mkTurn FailsBefore FailsAfter 7 true unused true (serve_all [CallFinishNotify 1 Reduce]) (serve_all [])].

Lemma turns_ok : Forall (turn_ok 2 2) turns.
Proof.
  repeat (apply List.Forall_cons || apply List.Forall_nil); split; try exact unused_new; eexists; (split; [reflexivity|]);
    repeat (apply List.Forall_cons || apply List.Forall_nil); cbn; unfold Map, Reduce; lia.
Qed.

Lemma workers_stuck_witness : exists c dir c0, MakeCoordinator ["a.txt"; "b.txt"] 2 = Ret c0 /\
  Worker json nocrash_Map turns (mkWorld c0 input) = Ret (Looping (mkWorld c dir)) /\ Done c = false.
Proof.
  destruct (MakeCoordinator ["a.txt"; "b.txt"] 2) as [c0|] eqn:Hc0; [|discriminate Hc0].
  destruct (workers_stuck json nocrash_Map "a.txt" ["b.txt"] 2 input c0 turns Hc0 turns_ok) as (c & dir & Hrun & Hd & _).
  exists c, dir, c0. split; [reflexivity|]. split; [exact Hrun|exact Hd].
Defined.

(** The same with a coordinator that is gone at the second call. *)
Example refused_exits :
  (let! c0 := MakeCoordinator ["a.txt"; "b.txt"] 2 in
   Worker json nocrash_Map [mkTurn Served Refused 5 true unused true (serve_all []) (serve_all [])] (mkWorld c0 input))
  = Ret (Exited 1).
Proof. vm_compute. reflexivity. Qed.

(** After these two iterations the result of the map task is there. *)
Example turns_run :
  (let! c0 := MakeCoordinator ["a.txt"; "b.txt"] 2 in
   let! s := Worker json nocrash_Map turns (mkWorld c0 input) in
   match s with Looping w => Ret (files w !! "temp-file-0") | _ => Panic end) = Ret (Some "a:a.txt;b:5;c:5;d:xyzzy;").
Proof. vm_compute. reflexivity. Qed.

(** Three invocations in two processes. *)
Example jobcount_run :
  (let! dir := job_runs 0 [17; 4; 17] ∅ ∅ in jobcount_Reduce true dir) = Ret "3".
Proof. vm_compute. reflexivity. Qed.

(** Workers 12 and 7 of the map phase, of which 7 has died. *)
Example nparallel_run :
  (let! dir := nparallel_begin true "map" 12 ∅ in
   let! dir := nparallel_begin true "map" 7 dir in
   let! dir := nparallel_begin true "reduce" 9 dir in
   nparallel_count true "map" (fun x => negb (x =? 7)) dir) = Ret 1.
Proof. vm_compute. reflexivity. Qed.

End Witness.
End MrRunSpec.
