(* ===== verification/Launchers.v ===== *)
(** The launchers of main/ for services that are not in the repository
    (lockc.go, lockd.go, pbc.go, pbd.go, viewd.go, diskvd.go): what each does
    with its command line.  The services are parameters. *)
From stdpp Require Import pretty.
From Stdlib Require Import Strings.Ascii.
From S2P Require Import Prelude MapReduce MrRun MrRunSpec.
Import MrRun MrRunSpec.
Local Open Scope Z_scope.

Module Launchers.

Definition newline : string := String "010" "".

(** ** How a program goes on *)

(** It exits with a code after it printed some text, or it serves: [A] is the
    server that it has started, and [seconds] what is left until it kills
    itself, if it ever does. *)
Inductive program {A : Type} := Exits (code : Z) (printed : string) | Serves (srv : A) (seconds : option Z).
Arguments program : clear implicits.

(** ** lockc.go, lockd.go *)

Section lockservice.
Context {world clerk server : Type}.
(** package lockservice; a call may take effect in the world or never return. *)
Context (MakeClerk : string -> string -> clerk) (Lock Unlock : clerk -> string -> world -> option (bool * world)).
Context (StartServer : string -> string -> bool -> server).

Definition lockc_usage : string := "Usage: lockc -l|-u primaryport backupport lockname" +:+ newline.

Definition lockc_reply (ok : bool) : string := "reply: " +:+ (if ok then "true" else "false") +:+ newline.

Definition lockc_main (args : list string) (w : world) : option (program Empty_set * world) :=
  match args with
  | [_; a1; a2; a3; a4] =>
      let ck := MakeClerk a2 a3 in
      if String.eqb a1 "-l" then
        '(ok, w) ← Lock ck a4 w; Some (Exits 0 (lockc_reply ok), w)
      else if String.eqb a1 "-u" then
        '(ok, w) ← Unlock ck a4 w; Some (Exits 0 (lockc_reply ok), w)
      else Some (Exits 1 lockc_usage, w)
  | _ => Some (Exits 1 lockc_usage, w)
  end.

Definition lockd_usage : string := "Usage: lockd -p|-b primaryport backupport" +:+ newline.

Definition lockd_main (args : list string) : program server :=
  match args with
  | [_; a1; a2; a3] =>
      if String.eqb a1 "-p" then Serves (StartServer a2 a3 true) None
      else if String.eqb a1 "-b" then Serves (StartServer a2 a3 false) None
      else Exits 1 lockd_usage
  | _ => Exits 1 lockd_usage
  end.
End lockservice.

(** ** pbc.go, pbd.go *)

Section pbservice.
Context {world clerk server value : Type}.
(** package pbservice, and how [fmt] writes its values. *)
Context (MakeClerk : string -> string -> clerk) (Get : clerk -> string -> world -> option (value * world)).
Context (Put : clerk -> string -> string -> world -> option world) (StartServer : string -> string -> server).
Context (format : value -> string).

Definition pbc_usage : string :=
  "Usage: pbc viewport key" +:+ newline +:+ "       pbc viewport key value" +:+ newline.

Definition pbc_main (args : list string) (w : world) : option (program Empty_set * world) :=
  match args with
  | [_; a1; a2] =>
      let ck := MakeClerk a1 "" in
      '(v, w) ← Get ck a2 w; Some (Exits 0 (format v +:+ newline), w)
  | [_; a1; a2; a3] =>
      let ck := MakeClerk a1 "" in
      w ← Put ck a2 a3 w; Some (Exits 0 "", w)
  | _ => Some (Exits 1 pbc_usage, w)
  end.

Definition pbd_main (args : list string) : program server :=
  match args with
  | [_; a1; a2] => Serves (StartServer a1 a2) None
  | _ => Exits 1 ("Usage: pbd viewport myport" +:+ newline)
  end.
End pbservice.

(** ** viewd.go *)

Section viewservice.
Context {server : Type}.
(** package viewservice *)
Context (StartServer : string -> server).

Definition viewd_main (args : list string) : program server :=
  match args with
  | [_; a1] => Serves (StartServer a1) None
  | _ => Exits 1 ("Usage: viewd port" +:+ newline)
  end.
End viewservice.

(** ** strconv, as diskvd uses it *)

(** [ParseUint] in base 10 with 64 bits on what follows the sign: the digits are
    read until one is none ([Syntax]) or the number is too large ([TooLarge]). *)
Inductive number := Num (n : Z) | Syntax | TooLarge.

Fixpoint ParseUint_loop (n : Z) (s : string) : number :=
  match s with
  | EmptyString => Num n
  | String a s =>
      match digit a with
      | None => Syntax
      | Some d => if 2 ^ 64 <=? n * 10 + d then TooLarge else ParseUint_loop (n * 10 + d) s
      end
  end.

Definition ParseUint (s : string) : number :=
  match s with EmptyString => Syntax | _ => ParseUint_loop 0 s end.

Definition split_sign (s : string) : bool * string :=
  match s with
  | String "-" s => (true, s)
  | String "+" s => (false, s)
  | _ => (false, s)
  end.

(** The value of [ParseInt(s, 10, 64)], also of [Atoi(s)], when the error is
    ignored: 0 if the text is no number, the nearest bound if it is too large. *)
Definition ParseInt (s : string) : Z :=
  let '(neg, s) := split_sign s in
  match ParseUint s with
  | Syntax => 0
  | TooLarge => if neg : bool then - 2 ^ 63 else 2 ^ 63 - 1
  | Num n => if neg : bool then Z.max (- 2 ^ 63) (- n) else Z.min (2 ^ 63 - 1) n
  end.

(** The value of [ParseBool(s)] when the error is ignored. *)
Definition ParseBool (s : string) : bool := bool_decide (s ∈ ["1"; "t"; "T"; "true"; "TRUE"; "True"]).

(** ** diskvd.go *)

(** The variables of [main]. *)
Record flags := mkFlags {
  gid : Z;
  masters : list string;
  replicas : list string;
  me : Z;
  unreliable : bool;
  dir : string;
  restart : bool;
}.

Definition no_flags : flags := mkFlags (-1) [] [] (-1) false "" false.

(** One round of the loop over [os.Args]; [None] is a call of [usage]. *)
Definition set_flag (a0 a1 : string) (f : flags) : option flags :=
  let '(mkFlags g ms rs i u d r) := f in
  if String.eqb a0 "-g" then Some (mkFlags (ParseInt a1) ms rs i u d r)
  else if String.eqb a0 "-m" then Some (mkFlags g (ms ++ [a1]) rs i u d r)
  else if String.eqb a0 "-s" then Some (mkFlags g ms (rs ++ [a1]) i u d r)
  else if String.eqb a0 "-i" then Some (mkFlags g ms rs (ParseInt a1) u d r)
  else if String.eqb a0 "-u" then Some (mkFlags g ms rs i (ParseBool a1) d r)
  else if String.eqb a0 "-d" then Some (mkFlags g ms rs i u a1 r)
  else if String.eqb a0 "-r" then Some (mkFlags g ms rs i u d (ParseBool a1))
  else None.

(** The loop, on the arguments after the program's name; a last flag without a
    value is not looked at. *)
Fixpoint read_flags (args : list string) (f : flags) : option flags :=
  match args with
  | a0 :: a1 :: args => f ← set_flag a0 a1 f; read_flags args f
  | _ => Some f
  end.

Definition flags_ok (f : flags) : bool :=
  negb ((gid f <? 0) || (me f <? 0) || (len (masters f) <? 1) || (len (replicas f) <=? me f) || String.eqb (dir f) "").

Section diskv.
Context {server : Type}.
(** package diskv *)
Context (StartServer : Z -> list string -> list string -> Z -> string -> bool -> server).
Context (Setunreliable : bool -> server -> server).

Definition diskvd_usage : string :=
  "Usage: diskvd -g gid -m master... -s server... -i my-index -d dir" +:+ newline.

Definition diskvd_main (args : list string) : program server :=
  match read_flags (tail args) no_flags with
  | None => Exits 1 diskvd_usage
  | Some f =>
      if negb (flags_ok f) then Exits 1 diskvd_usage else
      let srv := StartServer (gid f) (masters f) (replicas f) (me f) (dir f) (restart f) in
      Serves (Setunreliable (unreliable f) srv) (Some (10 * 60))
  end.
End diskv.

(** ** Numbers *)

Lemma ParseInt_range s : - 2 ^ 63 <= ParseInt s < 2 ^ 63.
Proof.
  assert (forall t n m, 0 <= n -> ParseUint_loop n t = Num m -> 0 <= m) as Hpos.
  { induction t as [|a t IH]; intros n m Hn; cbn [ParseUint_loop]; [intros [= <-]; done|].
    destruct (digit a) as [d|] eqn:Hd; [|done]. case_cond; [done|]. apply IH.
    unfold digit in Hd. case_cond; [|done]. injection Hd as <-. lia. }
  unfold ParseInt. destruct (split_sign s) as [neg t]. destruct (ParseUint t) as [n| |] eqn:Hn; [|destruct neg; lia..].
  unfold ParseUint in Hn. destruct t as [|a t]; [done|]. specialize (Hpos _ _ _ (Z.le_refl 0) Hn). destruct neg; lia.
Qed.

Lemma read_digits_above s n : 0 <= n -> n <= read_digits n s.
Proof.
  revert n. induction s as [|a s IH]; intros n Hn; cbn [read_digits]; [lia|]. destruct (digit a) as [d|] eqn:Hd; [|lia].
  assert (0 <= d) by (unfold digit in Hd; case_cond; [|done]; injection Hd as <-; lia).
  specialize (IH (n * 10 + d)). lia.
Qed.

Lemma ParseUint_loop_digits s n :
  0 <= n -> all_digits s = true -> read_digits n s < 2 ^ 64 -> ParseUint_loop n s = Num (read_digits n s).
Proof.
  revert n. induction s as [|a s IH]; intros n Hn; cbn [all_digits read_digits ParseUint_loop]; [done|].
  destruct (digit a) as [d|] eqn:Hd; [|done].
  assert (0 <= d) by (unfold digit in Hd; case_cond; [|done]; injection Hd as <-; lia).
  intros Ha Hr. pose proof (read_digits_above s (n * 10 + d)).
  destruct (Z.leb_spec (2 ^ 64) (n * 10 + d)); [lia|]. apply IH; [lia|done..].
Qed.

(** A number that fits is read back. *)
Lemma ParseInt_pretty x : 0 <= x < 2 ^ 63 -> ParseInt (pretty x) = x.
Proof.
  intros Hx. destruct (pretty_digits x) as (Hd & Hne & Hr); [lia|]. unfold ParseInt, split_sign.
  destruct (pretty x) as [|a t] eqn:E; [done|]. assert (exists k, digit a = Some k) as [k Ha].
  { cbn [all_digits] in Hd. destruct (digit a) as [k|]; [by exists k|done]. }
  rewrite (proj2 (digit_char a k Ha)). unfold ParseUint. rewrite ParseUint_loop_digits, Hr by (try done; lia). lia.
Qed.

(** What is no number reads as 0. *)
Example ParseInt_none : ParseInt "group" = 0 /\ ParseInt "" = 0 /\ ParseInt "9223372036854775808" = 2 ^ 63 - 1.
Proof. done. Qed.

(** ** Flags *)

(** The values of a flag, in order. *)
Fixpoint values (flag : string) (args : list string) : list string :=
  match args with
  | a0 :: a1 :: args => (if String.eqb a0 flag then [a1] else []) ++ values flag args
  | _ => []
  end.

(** Induction over the pairs of a command line. *)
Lemma pairs_ind (P : list string -> Prop) :
  P [] -> (forall a, P [a]) -> (forall a0 a1 args, P args -> P (a0 :: a1 :: args)) -> forall args, P args.
Proof.
  intros H0 H1 H2. fix IH 1. intros [|a0 [|a1 args]]; [exact H0|apply H1|apply H2, IH].
Qed.

Lemma read_flags_values args f f' :
  read_flags args f = Some f' ->
  masters f' = masters f ++ values "-m" args /\ replicas f' = replicas f ++ values "-s" args /\
  gid f' = default (gid f) (ParseInt <$> last (values "-g" args)) /\
  me f' = default (me f) (ParseInt <$> last (values "-i" args)) /\
  dir f' = default (dir f) (last (values "-d" args)) /\
  unreliable f' = default (unreliable f) (ParseBool <$> last (values "-u" args)) /\
  restart f' = default (restart f) (ParseBool <$> last (values "-r" args)).
Proof.
  revert f. induction args as [|a|a0 a1 args IH] using pairs_ind; intros f; cbn [read_flags values].
  1-2: intros [= <-]; by rewrite !app_nil_r.
  intros (g & Hg & Hrun)%bind_Some. specialize (IH g Hrun). destruct IH as (-> & -> & -> & -> & -> & -> & ->).
  destruct f as [fg fm fs fi fu fd fr]. unfold set_flag in Hg.
  assert (forall B (k : string -> B) (x : B) (l : list string), default (default x (k <$> Some a1)) (k <$> last l) =
    default x (k <$> last (a1 :: l))) as Hlast.
  { intros B k x l. destruct l as [|b l]; [done|]. cbn [last]. by destruct (last (b :: l)) eqn:E; [|apply last_None in E]. }
  assert (forall (x : string) (l : list string), default (default x (Some a1)) (last l) = default x (last (a1 :: l))) as Hlast'.
  { intros x l. destruct l as [|b l]; [done|]. cbn [last]. by destruct (last (b :: l)) eqn:E; [|apply last_None in E]. }
  repeat match type of Hg with context [String.eqb a0 ?c] => destruct (String.eqb_spec a0 c) as [->|] end; try done;
    injection Hg as <-; cbn [masters replicas gid me dir unreliable restart String.eqb Ascii.eqb Bool.eqb app];
    rewrite <- ?app_assoc, <- ?Hlast, <- ?Hlast'; done.
Qed.

Section diskv_main.
Context {server : Type} (StartServer : Z -> list string -> list string -> Z -> string -> bool -> server).
Context (Setunreliable : bool -> server -> server).

(** Whatever the command line is: a server that [diskvd] starts is one of its
    own replica group, has a master and a directory, talks to the servers of the
    [-m] and [-s] flags in their order, and lives for ten minutes. *)
Theorem diskvd_main_correct args srv t :
  diskvd_main StartServer Setunreliable args = Serves srv t ->
  exists g i d r u, 0 <= g < 2 ^ 63 /\ 0 <= i < len (values "-s" (tail args)) /\ values "-m" (tail args) <> [] /\ d <> "" /\
    srv = Setunreliable u (StartServer g (values "-m" (tail args)) (values "-s" (tail args)) i d r) /\ t = Some 600.
Proof.
  unfold diskvd_main. destruct (read_flags (tail args) no_flags) as [f|] eqn:Hf; [|done].
  destruct (flags_ok f) eqn:Hok; cbn [negb]; [|done]. intros [= <- <-].
  destruct (read_flags_values _ _ _ Hf) as (Hm & Hs & Hg & _). cbn [app masters replicas no_flags] in Hm, Hs.
  unfold flags_ok in Hok. rewrite <- Hm, <- Hs. apply negb_true_iff in Hok.
  repeat (apply orb_false_iff in Hok as [Hok ?]). zbool. exists (gid f), (me f), (dir f), (restart f), (unreliable f).
  assert (gid f < 2 ^ 63).
  { rewrite Hg. destruct (last _); cbn; [apply ParseInt_range|done]. }
  split_and!; try done; try lia; [|by apply String.eqb_neq].
  intros Hnil. match goal with H : 1 <= len (masters f) |- _ => by rewrite Hnil in H end.
Qed.

(** The command line of a configuration. *)
Definition show_bool (b : bool) : string := if b then "true" else "false".
Definition command_line (f : flags) : list string :=
  ["-g"; pretty (gid f)] ++ flat_map (fun m => ["-m"; m]) (masters f) ++ flat_map (fun r => ["-s"; r]) (replicas f) ++
  ["-i"; pretty (me f); "-u"; show_bool (unreliable f); "-d"; dir f; "-r"; show_bool (restart f)].

Lemma read_masters l args g ms rs i u d r :
  read_flags (flat_map (fun m => ["-m"; m]) l ++ args) (mkFlags g ms rs i u d r) =
  read_flags args (mkFlags g (ms ++ l) rs i u d r).
Proof.
  revert ms. induction l as [|m l IH]; intros ms; [by rewrite app_nil_r|]. cbn. rewrite IH. by rewrite <- app_assoc.
Qed.

Lemma read_replicas l args g ms rs i u d r :
  read_flags (flat_map (fun m => ["-s"; m]) l ++ args) (mkFlags g ms rs i u d r) =
  read_flags args (mkFlags g ms (rs ++ l) i u d r).
Proof.
  revert rs. induction l as [|m l IH]; intros rs; [by rewrite app_nil_r|]. cbn. rewrite IH. by rewrite <- app_assoc.
Qed.

(** Every sensible configuration can be asked for: its command line starts the
    server with exactly that configuration. *)
Theorem diskvd_command_line name f :
  flags_ok f = true -> gid f < 2 ^ 63 -> me f < 2 ^ 63 ->
  diskvd_main StartServer Setunreliable (name :: command_line f) =
  Serves (Setunreliable (unreliable f) (StartServer (gid f) (masters f) (replicas f) (me f) (dir f) (restart f))) (Some 600).
Proof.
  intros Hok Hg Hi. assert (0 <= gid f /\ 0 <= me f) as [? ?].
  { unfold flags_ok in Hok. apply negb_true_iff in Hok. repeat (apply orb_false_iff in Hok as [Hok ?]). zbool. lia. }
  assert (read_flags (command_line f) no_flags = Some f) as Hread.
  { unfold command_line. cbn [app read_flags set_flag String.eqb no_flags Ascii.eqb Bool.eqb mbind option_bind].
    rewrite read_masters. cbn [app]. rewrite read_replicas. cbn. rewrite !ParseInt_pretty by lia.
    destruct f as [? ? ? ? [] ? []]; done. }
  unfold diskvd_main. cbn [tail]. by rewrite Hread, Hok.
Qed.
End diskv_main.

End Launchers.
