(* ===== verification/Config.v ===== *)
(** The Raft test harness of raft/config.go: the cluster that the tests drive,
    its connections on the simulated network, and the checks on what the peers
    apply. *)
From S2P Require Import Prelude Labgob Persister RaftState Raft Labrpc.
Import Labgob Persist RaftState RaftNode.
Local Open Scope Z_scope.

Module Config.

(** [saved] is a pointer that a running peer shares: while [rafts[i]] is not
    nil, the contents of [saved[i]] are the persister of the peer. *)
Record config {Cmd : Type} := mkConfig {
  net : Labrpc.Network;
  n : Z;
  rafts : list (option (Raft Cmd));
  connected : list bool;
  saved : list (option Persister);
  endnames : list (option (list string));
  logs : list (gmap Z (option Cmd));
  maxIndex : Z;
  next_server : nat;
}.
Arguments config : clear implicits.
Arguments mkConfig {Cmd}.

Section config.
Context {Cmd : Type} `{!EqDecision Cmd} `{!Gob (gval Cmd)} `{!Gob (option Cmd)}.
Implicit Types cfg : config Cmd.

Definition set_net x cfg : config Cmd :=
  mkConfig x (n cfg) (rafts cfg) (connected cfg) (saved cfg) (endnames cfg) (logs cfg) (maxIndex cfg)
    (next_server cfg).
Definition set_rafts x cfg : config Cmd :=
  mkConfig (net cfg) (n cfg) x (connected cfg) (saved cfg) (endnames cfg) (logs cfg) (maxIndex cfg)
    (next_server cfg).
Definition set_connected x cfg : config Cmd :=
  mkConfig (net cfg) (n cfg) (rafts cfg) x (saved cfg) (endnames cfg) (logs cfg) (maxIndex cfg)
    (next_server cfg).
Definition set_saved x cfg : config Cmd :=
  mkConfig (net cfg) (n cfg) (rafts cfg) (connected cfg) x (endnames cfg) (logs cfg) (maxIndex cfg)
    (next_server cfg).
Definition set_endnames x cfg : config Cmd :=
  mkConfig (net cfg) (n cfg) (rafts cfg) (connected cfg) (saved cfg) x (logs cfg) (maxIndex cfg)
    (next_server cfg).
Definition set_logs x m cfg : config Cmd :=
  mkConfig (net cfg) (n cfg) (rafts cfg) (connected cfg) (saved cfg) (endnames cfg) x m (next_server cfg).

(** ** Connections *)

(** [cfg.endnames[i][j]] *)
Definition endname cfg (i j : Z) : res string :=
  let! l := go_index (endnames cfg) i in
  match l with Some l => go_index l j | None => Panic end.

Definition enable_end (yes : bool) (i j : Z) cfg : res (config Cmd) :=
  let! e := endname cfg i j in
  Ret (set_net (Labrpc.Enable (Labrpc.NStr e) yes (net cfg)) cfg).

Definition connect (i : Z) cfg : res (config Cmd) :=
  let! c := go_set (connected cfg) i true in
  let cfg := set_connected c cfg in
  let! cfg := for_each (fun j cfg =>
    let! cj := go_index (connected cfg) j in
    if (cj : bool) then enable_end true i j cfg else Ret cfg) (upto (n cfg)) cfg in
  for_each (fun j cfg =>
    let! cj := go_index (connected cfg) j in
    if (cj : bool) then enable_end true j i cfg else Ret cfg) (upto (n cfg)) cfg.

Definition disconnect (i : Z) cfg : res (config Cmd) :=
  let! c := go_set (connected cfg) i false in
  let cfg := set_connected c cfg in
  let! cfg := for_each (fun j cfg =>
    let! l := go_index (endnames cfg) i in
    match l with Some _ => enable_end false i j cfg | None => Ret cfg end) (upto (n cfg)) cfg in
  for_each (fun j cfg =>
    let! l := go_index (endnames cfg) j in
    match l with Some _ => enable_end false j i cfg | None => Ret cfg end) (upto (n cfg)) cfg.

Definition setunreliable (unrel : bool) cfg : config Cmd := set_net (Labrpc.Reliable (negb unrel) (net cfg)) cfg.
Definition setlongreordering (yes : bool) cfg : config Cmd := set_net (Labrpc.LongReordering yes (net cfg)) cfg.
Definition rpcTotal cfg : Z := Labrpc.GetTotalCount (net cfg).
Definition bytesTotal cfg : Z := Labrpc.GetTotalBytes (net cfg).
Definition rpcCount {V W} (server : Z) (heap : gmap nat (Labrpc.Server V W)) cfg : res Z :=
  Labrpc.GetCount (Labrpc.NInt server) heap (net cfg).

(** ** Crash and restart *)

(** The contents behind [cfg.saved[i]]. *)
Definition saved_content cfg (i : Z) : res (option Persister) :=
  let! s := go_index (saved cfg) i in
  let! r := go_index (rafts cfg) i in
  Ret match s, r with
      | Some _, Some rf => Some (persister rf)
      | s, _ => s
      end.

Definition crash1 (i : Z) cfg : res (config Cmd) :=
  let! cfg := disconnect i cfg in
  let cfg := set_net (Labrpc.DeleteServer (Labrpc.NInt i) (net cfg)) cfg in
  let! content := saved_content cfg i in
  let copy := Copy <$> content in
  let! s := go_set (saved cfg) i copy in
  let cfg := set_saved s cfg in
  (* the old instance is killed and forgotten *)
  let! r := go_set (rafts cfg) i None in
  let cfg := set_rafts r cfg in
  match copy with
  | Some ps =>
      let raftlog := ReadRaftState ps in
      let snapshot := ReadSnapshot ps in
      let! s := go_set (saved cfg) i (Some (SaveStateAndSnapshot raftlog snapshot (mkPersister [] []))) in
      Ret (set_saved s cfg)
  | None => Ret cfg
  end.

(** [fresh] are the names that [randstring] draws. *)
Definition start1 (i : Z) (fresh : list string) (now r : Z) cfg : res (config Cmd) :=
  let! cfg := crash1 i cfg in
  let! e := go_set (endnames cfg) i (Some fresh) in
  let cfg := set_endnames e cfg in
  let! cfg := for_each (fun j cfg =>
    let! e := endname cfg i j in
    let! (_, rn) := Labrpc.MakeEnd (Labrpc.NStr e) (net cfg) in
    Ret (set_net (Labrpc.Connect (Labrpc.NStr e) (Labrpc.NInt j) rn) cfg)) (upto (n cfg)) cfg in
  let! s := go_index (saved cfg) i in
  let ps := match s with Some ps => Copy ps | None => MakePersister end in
  let! s := go_set (saved cfg) i (Some ps) in
  let cfg := set_saved s cfg in
  let rf := Make (n cfg) i ps now r in
  let! rs := go_set (rafts cfg) i (Some rf) in
  Ret (mkConfig (Labrpc.AddServer (Labrpc.NInt i) (next_server cfg) (net cfg)) (n cfg) rs (connected cfg)
         (saved cfg) (endnames cfg) (logs cfg) (maxIndex cfg) (S (next_server cfg))).

(** The names drawn for server [i] are [fresh i]. *)
Definition make_config (n0 : Z) (unreliable : bool) (fresh : Z -> list string) (now r : Z)
    : res (config Cmd) :=
  let cfg := mkConfig Labrpc.MakeNetwork n0 (go_make n0 None) (go_make n0 false) (go_make n0 None)
               (go_make n0 None) (go_make n0 ∅) 0 0 in
  let cfg := setunreliable unreliable cfg in
  let cfg := set_net (Labrpc.LongDelays true (net cfg)) cfg in
  let! cfg := for_each (fun i cfg =>
    let! ls := go_set (logs cfg) i ∅ in
    start1 i (fresh i) now r (set_logs ls (maxIndex cfg) cfg)) (upto (n cfg)) cfg in
  for_each (fun i cfg => connect i cfg) (upto (n cfg)) cfg.

(** Times are in nanoseconds; [failed] is [t.Failed()] and [start] the time of
    [make_config]. *)
Definition second : Z := 1000000000.

Definition checkTimeout (failed : bool) (start now : Z) : res unit :=
  if negb failed && (now - start >? 120 * second) then Panic else Ret tt.

Definition cleanup (failed : bool) (start now : Z) cfg : res (config Cmd) :=
  let cfg := set_rafts ((fun r => match r with Some rf => Some (Kill rf) | None => None end) <$> rafts cfg) cfg in
  let! rn := Labrpc.Cleanup (net cfg) in
  let! _ := checkTimeout failed start now in
  Ret (set_net rn cfg).

(** ** Checking what is applied *)

(** The loop of [checkLogs]: has some server another value at the index? *)
Definition conflict (l : list (gmap Z (option Cmd))) (index : Z) (v : option Cmd) : bool :=
  existsb (fun log => match log !! index with
                      | Some old => negb (bool_decide (old = v))
                      | None => false
                      end) l.

(** Whether [err_msg] is not empty, and [prevok]. *)
Definition checkLogs (i : Z) (m : ApplyMsg Cmd) cfg : res (config Cmd * bool * bool) :=
  let v := am_Command m in
  let err := conflict (logs cfg) (CommandIndex m) v in
  let! log := go_index (logs cfg) i in
  let prevok := bool_decide (is_Some (log !! (CommandIndex m - 1))) in
  let! ls := go_set (logs cfg) i (<[CommandIndex m := v]> log) in
  let mx := if CommandIndex m >? maxIndex cfg then CommandIndex m else maxIndex cfg in
  Ret (set_logs ls mx cfg, err, prevok).

(** One message read by [applier]; [log.Fatalf] ends the run. *)
Definition applier (i : Z) (m : ApplyMsg Cmd) cfg : res (config Cmd) :=
  if negb (CommandValid m) then Ret cfg else
  let! (cfg, err, prevok) := checkLogs i m cfg in
  if err || ((CommandIndex m >? 1) && negb prevok) then Panic else Ret cfg.

Definition SnapShotInterval : Z := 10.

(** One message read by [applierSnap], with its variable [lastApplied], and the
    call of [Snapshot] it makes. *)
Definition applierSnap (i : Z) (m : ApplyMsg Cmd) (lastApplied : Z) cfg
    : res (config Cmd * Z * option (Z * bytes)) :=
  if SnapshotValid m then
    if CondInstallSnapshot (SnapshotTerm m) (SnapshotIndex m) (am_Snapshot m) then
      match Decode Some (NewDecoder (am_Snapshot m)) with
      | None => Panic
      | Some (v, _) =>
          let! ls := go_set (logs cfg) i {[SnapshotIndex m := v]} in
          Ret (set_logs ls (maxIndex cfg) cfg, SnapshotIndex m, None)
      end
    else Ret (cfg, lastApplied, None)
  else if CommandValid m && (CommandIndex m >? lastApplied) then
    let! (cfg, err, prevok) := checkLogs i m cfg in
    if err || ((CommandIndex m >? 1) && negb prevok) then Panic else
    let lastApplied := CommandIndex m in
    if Z.rem (CommandIndex m + 1) SnapShotInterval =? 0 then
      Ret (cfg, lastApplied,
           Some (Snapshot (CommandIndex m) (Bytes (Encode NewEncoder (am_Command m)))))
    else Ret (cfg, lastApplied, None)
  else Ret (cfg, lastApplied, None).

(** ** Queries *)

(** The connected peers that say they lead, with their terms. *)
Definition claims cfg : res (list (Z * Z)) :=
  for_each (fun i acc =>
    let! c := go_index (connected cfg) i in
    if (c : bool) then
      let! r := go_index (rafts cfg) i in
      match r with
      | None => Panic
      | Some rf => let '(term, leader) := GetState rf in
                   Ret (if leader then acc ++ [(term, i)] else acc)
      end
    else Ret acc) (upto (n cfg)) [].

(** One iteration of [checkOneLeader]: [None] means to try again. *)
Definition one_leader cfg : res (option Z) :=
  let! cs := claims cfg in
  if existsb (fun c => 1 <? len (filter (fun c' => c'.1 = c.1) cs)) cs then Panic else
  let lastTermWithLeader := fold_left (fun t c => if c.1 >? t then c.1 else t) cs (-1) in
  if len cs =? 0 then Ret None else
  let! c := go_index (filter (fun c => c.1 = lastTermWithLeader) cs) 0 in
  Ret (Some c.2).

(** The [iters]-th iteration sees the cluster as [obs iters]. *)
Fixpoint leader_loop (k : nat) (iters : nat) (obs : nat -> config Cmd) : res Z :=
  match k with
  | O => Panic
  | S k =>
      let! l := one_leader (obs iters) in
      match l with
      | Some i => Ret i
      | None => leader_loop k (S iters) obs
      end
  end.

Definition checkOneLeader (obs : nat -> config Cmd) : res Z := leader_loop 10 0 obs.

Definition checkTerms cfg : res Z :=
  for_each (fun i term =>
    let! c := go_index (connected cfg) i in
    if (c : bool) then
      let! r := go_index (rafts cfg) i in
      match r with
      | None => Panic
      | Some rf =>
          let '(xterm, _) := GetState rf in
          if term =? -1 then Ret xterm else if negb (term =? xterm) then Panic else Ret term
      end
    else Ret term) (upto (n cfg)) (-1).

Definition checkNoLeader cfg : res unit :=
  let! cs := claims cfg in
  if len cs =? 0 then Ret tt else Panic.

(** The code takes [cfg.mu] for one log at a time; here all logs are read at one
    moment.  The test of [applyErr] is left out: the appliers write it after
    [log.Fatalf] only, so that it never succeeds. *)
Definition nCommitted (index : Z) cfg : res (Z * option Cmd) :=
  for_each (fun i acc =>
    let '(count, cmd) := acc in
    let! log := go_index (logs cfg) i in
    match log !! index with
    | None => Ret (count, cmd)
    | Some cmd1 =>
        if (count >? 0) && negb (bool_decide (cmd = cmd1)) then Panic else Ret (count + 1, cmd1)
    end) (upto (len (rafts cfg))) (0, None).

Definition LogSize cfg : res Z :=
  for_each (fun i logsize =>
    let! s := saved_content cfg i in
    match s with
    | None => Panic
    | Some ps => let size := RaftStateSize ps in Ret (if size >? logsize then size else logsize)
    end) (upto (n cfg)) 0.

(** ** Waiting for agreement

    The loops of the tests run beside the cluster: a function of type [pause]
    is what everybody else does between two steps of a loop.  A loop that is
    bounded by a duration takes the list of its pauses, which ends when the
    time is up. *)

Abbreviation pause := (config Cmd -> config Cmd).

(** Does some peer have a later term?  [GetState] of nil panics. *)
Fixpoint term_moved (startTerm : Z) (rs : list (option (Raft Cmd))) : res bool :=
  match rs with
  | [] => Ret false
  | None :: _ => Panic
  | Some r :: rs => let '(t, _) := GetState r in if t >? startTerm then Ret true else term_moved startTerm rs
  end.

(** What [wait] returns: a command, or -1 because a term has moved on. *)
Inductive waited := Decided (cmd : option Cmd) | Moved.

Definition wait_end (index n0 : Z) cfg : res (config Cmd * waited) :=
  let! (nd, cmd) := nCommitted index cfg in
  if nd <? n0 then Panic else Ret (cfg, Decided cmd).

(** [k] iterations are left; [during i] is the sleep of the [i]-th one. *)
Fixpoint wait_loop (k : nat) (iters : nat) (during : nat -> pause) (index n0 startTerm : Z) cfg
    : res (config Cmd * waited) :=
  match k with
  | O => wait_end index n0 cfg
  | S k =>
      let! (nd, _) := nCommitted index cfg in
      if nd >=? n0 then wait_end index n0 cfg else
      let cfg := during iters cfg in
      if startTerm >? -1 then
        let! moved := term_moved startTerm (rafts cfg) in
        if moved then Ret (cfg, Moved) else wait_loop k (S iters) during index n0 startTerm cfg
      else wait_loop k (S iters) during index n0 startTerm cfg
  end.

Definition wait (during : nat -> pause) (index n0 startTerm : Z) cfg : res (config Cmd * waited) :=
  wait_loop 30 0 during index n0 startTerm cfg.

(** The search for a peer that accepts the command, from the [si]-th try on;
    [starts] is the peer that was asked last and the result [-1] means that
    nobody led. *)
Fixpoint try_start (k si : nat) (before : nat -> pause) (cmd : option Cmd) (starts : Z) cfg
    : res (config Cmd * Z * Z) :=
  match k with
  | O => Ret (cfg, starts, -1)
  | S k =>
      let cfg := before si cfg in
      let starts := Z.rem (starts + 1) (n cfg) in
      let! c := go_index (connected cfg) starts in
      let! rf := if (c : bool) then go_index (rafts cfg) starts else Ret None in
      match rf with
      | Some rf =>
          let '(rf, (index1, _, ok)) := Start cmd rf in
          let! rs := go_set (rafts cfg) starts (Some rf) in
          let cfg := set_rafts rs cfg in
          if (ok : bool) then Ret (cfg, starts, index1) else try_start k (S si) before cmd starts cfg
      | None => try_start k (S si) before cmd starts cfg
      end
  end.

(** The two seconds of waiting for the command to be applied. *)
Fixpoint poll (pauses : list pause) (cmd : option Cmd) (expectedServers index : Z) cfg
    : res (config Cmd * bool) :=
  match pauses with
  | [] => Ret (cfg, false)
  | p :: pauses =>
      let! (nd, cmd1) := nCommitted index cfg in
      if (nd >? 0) && (nd >=? expectedServers) && bool_decide (cmd1 = cmd) then Ret (cfg, true)
      else poll pauses cmd expectedServers index (p cfg)
  end.

Record attempt := mkAttempt { before : nat -> pause; polls : list pause; asleep : pause }.

(** The attempts that fit into ten seconds. *)
Fixpoint one_loop (attempts : list attempt) (cmd : option Cmd) (expectedServers : Z) (retry : bool)
    (starts : Z) cfg : res (config Cmd * Z) :=
  match attempts with
  | [] => Panic
  | a :: attempts =>
      let! (cfg, starts, index) := try_start (Z.to_nat (n cfg)) 0 (before a) cmd starts cfg in
      if negb (index =? -1) then
        let! (cfg, agreed) := poll (polls a) cmd expectedServers index cfg in
        if (agreed : bool) then Ret (cfg, index)
        else if negb retry then Panic
        else one_loop attempts cmd expectedServers retry starts cfg
      else one_loop attempts cmd expectedServers retry starts (asleep a cfg)
  end.

Definition one (attempts : list attempt) (cmd : option Cmd) (expectedServers : Z) (retry : bool) cfg
    : res (config Cmd * Z) :=
  one_loop attempts cmd expectedServers retry 0 cfg.

(** ** Statistics *)

Record stats := mkStats { t0 : Z; rpcs0 : Z; bytes0 : Z; cmds0 : Z; maxIndex0 : Z }.

Definition begin (now : Z) cfg : stats := mkStats now (rpcTotal cfg) (bytesTotal cfg) 0 (maxIndex cfg).

(** What is printed after "Passed", unless the test has failed: the duration,
    the peers, RPCs, bytes and agreements. *)
Definition end_ (failed : bool) (start now : Z) (st : stats) cfg : res (option (Z * Z * Z * Z * Z)) :=
  let! _ := checkTimeout failed start now in
  if failed then Ret None else
  let t := now - t0 st in
  let npeers := n cfg in
  let nrpc := rpcTotal cfg - rpcs0 st in
  let nbytes := Labrpc.wrap 64 (bytesTotal cfg - bytes0 st) in
  let ncmds := maxIndex cfg - maxIndex0 st in
  Ret (Some (t, npeers, nrpc, nbytes, ncmds)).

End config.
End Config.
