(* ===== verification/ConfigSpec.v ===== *)
(** What the Raft test harness checks and how it isolates crashed peers. *)
From S2P Require Import Prelude Labgob Persister RaftState Raft RaftLemmas RaftSnapshot Labrpc LabrpcSpec Config.
Import Labgob Persist RaftState RaftNode RaftOk RaftSnapshot Config.
Local Open Scope Z_scope.

Module ConfigSpec.
Section properties.
Context {Cmd : Type} `{!EqDecision Cmd} `{!Gob (gval Cmd)} `{!Gob (option Cmd)}.
Implicit Types cfg : config Cmd.

(** ** Connections *)

(** Everything but the network and the flags is the same. *)
Definition frame cfg :=
  (n cfg, rafts cfg, saved cfg, endnames cfg, logs cfg, maxIndex cfg, next_server cfg).

Definition off (e : string) cfg : Prop := Labrpc.enabled (net cfg) !! Labrpc.NStr e = Some false.
Definition on (e : string) cfg : Prop := Labrpc.enabled (net cfg) !! Labrpc.NStr e = Some true.

Lemma enable_end_frame yes i j cfg cfg' :
  enable_end yes i j cfg = Ret cfg' -> frame cfg' = frame cfg /\ connected cfg' = connected cfg.
Proof. unfold enable_end. by intros (e & _ & [= <-])%rbind_ret. Qed.

Lemma enable_end_sets yes i j cfg cfg' e :
  enable_end yes i j cfg = Ret cfg' -> endname cfg i j = Ret e ->
  Labrpc.enabled (net cfg') !! Labrpc.NStr e = Some yes.
Proof.
  unfold enable_end. intros Hrun He. rewrite He in Hrun. injection Hrun as <-. cbn. by rewrite lookup_insert_eq.
Qed.

Lemma enable_end_keeps yes i j cfg cfg' e :
  enable_end yes i j cfg = Ret cfg' -> Labrpc.enabled (net cfg) !! Labrpc.NStr e = Some yes ->
  Labrpc.enabled (net cfg') !! Labrpc.NStr e = Some yes.
Proof.
  unfold enable_end. intros (e' & _ & [= <-])%rbind_ret He. cbn.
  destruct (decide (e' = e)) as [->|]; [by rewrite lookup_insert_eq|]. rewrite lookup_insert_ne by congruence. done.
Qed.

Lemma endname_same cfg cfg' i j : endnames cfg' = endnames cfg -> endname cfg' i j = endname cfg i j.
Proof. unfold endname. by intros ->. Qed.

(** The body of the first loop of [disconnect], and of the second one. *)
Definition off_out (i j : Z) cfg : res (config Cmd) :=
  let! l := go_index (endnames cfg) i in
  match l with Some _ => enable_end false i j cfg | None => Ret cfg end.
Definition off_in (i j : Z) cfg : res (config Cmd) := off_out j i cfg.

Lemma off_out_frame i j cfg cfg' :
  off_out i j cfg = Ret cfg' -> frame cfg' = frame cfg /\ connected cfg' = connected cfg.
Proof.
  unfold off_out. intros ([l|] & _ & Hrun)%rbind_ret; [by eapply enable_end_frame|by injection Hrun as <-].
Qed.

Lemma off_out_sets i j cfg cfg' e : off_out i j cfg = Ret cfg' -> endname cfg i j = Ret e -> off e cfg'.
Proof.
  unfold off_out. intros ([l|] & Hl & Hrun)%rbind_ret He; [by eapply enable_end_sets|].
  unfold endname in He. rewrite Hl in He. done.
Qed.

Lemma off_out_keeps i j cfg cfg' e : off_out i j cfg = Ret cfg' -> off e cfg -> off e cfg'.
Proof.
  unfold off_out. intros ([l|] & _ & Hrun)%rbind_ret He; [by eapply enable_end_keeps|by injection Hrun as <-].
Qed.

Lemma disconnect_spec i cfg cfg' :
  disconnect i cfg = Ret cfg' ->
  frame cfg' = frame cfg /\
  (forall e, off e cfg -> off e cfg') /\
  (forall j e, 0 <= j < n cfg -> endname cfg i j = Ret e \/ endname cfg j i = Ret e -> off e cfg').
Proof.
  unfold disconnect. intros (c & _ & Hrun)%rbind_ret. set (cfg0 := set_connected c cfg) in *.
  apply rbind_ret in Hrun as (cfg1 & H1 & H2).
  change (for_each (off_out i) (upto (n cfg0)) cfg0 = Ret cfg1) in H1.
  change (for_each (off_in i) (upto (n cfg1)) cfg1 = Ret cfg') in H2.
  assert (frame cfg1 = frame cfg) as F1.
  { apply (for_each_inv (off_out i) (fun c => frame c = frame cfg) (upto (n cfg0)) cfg0); [|done|done].
    intros j c0 c1 _ HF Hs. by rewrite (proj1 (off_out_frame _ _ _ _ Hs)). }
  assert (frame cfg' = frame cfg) as F2.
  { apply (for_each_inv (off_in i) (fun c => frame c = frame cfg) (upto (n cfg1)) cfg1); [|done|done].
    intros j c0 c1 _ HF Hs. by rewrite (proj1 (off_out_frame _ _ _ _ Hs)). }
  assert (forall e, off e cfg1 -> off e cfg') as K2.
  { intros e He. apply (for_each_inv (off_in i) (off e) (upto (n cfg1)) cfg1); [|done|done].
    intros j c0 c1 _ Hc Hs. by eapply off_out_keeps. }
  split; [done|]. split.
  - intros e He. apply K2. apply (for_each_inv (off_out i) (off e) (upto (n cfg0)) cfg0); [|done|done].
    intros j c0 c1 _ Hc Hs. by eapply off_out_keeps.
  - assert (forall c, frame c = frame cfg -> forall a b, endname c a b = endname cfg a b) as Hsame.
    { intros c0 HF a b. apply endname_same. by injection HF. }
    assert (n cfg1 = n cfg) as Hn1 by by injection F1.
    intros j e Hj [He|He].
    + apply K2. apply (for_each_post (off_out i) (fun c => frame c = frame cfg) (off e) (upto (n cfg0)) cfg0 _ j);
        [by apply elem_of_upto| | | |done|done].
      * intros x c0 c1 HF Hs. by rewrite (proj1 (off_out_frame _ _ _ _ Hs)).
      * intros x c0 c1 _ Hc Hs. by eapply off_out_keeps.
      * intros c0 c1 HF Hs. eapply off_out_sets; [exact Hs|]. by rewrite Hsame.
    + apply (for_each_post (off_in i) (fun c => frame c = frame cfg) (off e) (upto (n cfg1)) cfg1 _ j);
        [by apply elem_of_upto; rewrite Hn1| | | |done|done].
      * intros x c0 c1 HF Hs. by rewrite (proj1 (off_out_frame _ _ _ _ Hs)).
      * intros x c0 c1 _ Hc Hs. by eapply off_out_keeps.
      * intros c0 c1 HF Hs. eapply off_out_sets; [exact Hs|]. by rewrite Hsame.
Qed.

(** After [disconnect(i)] no call from or to peer [i] reaches a server: it
    returns [false] and runs no handler, whatever the state of the network. *)
Theorem disconnect_isolates {V W} `{!Gob V} i j e cfg cfg' meth (atype rtype : Labrpc.gtype V) a ch
    (heap : gmap nat (Labrpc.Server V W)) w :
  disconnect i cfg = Ret cfg' -> 0 <= j < n cfg ->
  endname cfg i j = Ret e \/ endname cfg j i = Ret e ->
  exists rn, Labrpc.Call (Labrpc.NStr e) meth atype rtype a false ch (net cfg') heap w =
    Some (Ret (rn, heap, w, None)).
Proof.
  intros Hrun Hj He. destruct (disconnect_spec i cfg cfg' Hrun) as (_ & _ & Hoff).
  eexists. apply LabrpcSpec.Call_unreachable. left. rewrite (Hoff j e Hj He). done.
Qed.

(** ** Restart *)

Lemma saved_content_running cfg i rf ps :
  rafts cfg !! Z.to_nat i = Some (Some rf) -> saved cfg !! Z.to_nat i = Some (Some ps) -> 0 <= i ->
  saved_content cfg i = Ret (Some (persister rf)).
Proof.
  intros Hr Hs Hi. unfold saved_content, go_index. destruct (Z.leb_spec 0 i); [|lia]. by rewrite Hs, Hr.
Qed.

Lemma persister_clone ps : SaveStateAndSnapshot (ReadRaftState (Copy ps)) (ReadSnapshot (Copy ps)) (mkPersister [] []) = ps.
Proof.
  unfold SaveStateAndSnapshot, ReadRaftState, ReadSnapshot, Copy. cbn. rewrite !copied_id. by destruct ps.
Qed.

(** [crash1] leaves the image of the peer behind. *)
Lemma crash1_spec i cfg cfg' rf ps :
  rafts cfg !! Z.to_nat i = Some (Some rf) -> saved cfg !! Z.to_nat i = Some (Some ps) -> 0 <= i ->
  crash1 i cfg = Ret cfg' ->
  saved cfg' !! Z.to_nat i = Some (Some (persister rf)) /\ rafts cfg' !! Z.to_nat i = Some None /\
  n cfg' = n cfg /\ endnames cfg' = endnames cfg /\
  (forall j e, 0 <= j < n cfg -> endname cfg i j = Ret e -> off e cfg').
Proof.
  intros Hr Hs Hi. unfold crash1. intros (cfg1 & Hd & Hrun)%rbind_ret.
  destruct (disconnect_spec i cfg cfg1 Hd) as (HF & _ & Hoff). unfold frame in HF.
  injection HF as Hn Hrs Hsv Hen Hl Hm Hns.
  set (cfg2 := set_net _ cfg1) in *.
  rewrite (saved_content_running cfg2 i rf ps) in Hrun; [|cbn; congruence|cbn; congruence|done].
  cbn [rbind fmap option_fmap option_map] in Hrun.
  apply rbind_ret in Hrun as (s1 & (Hi1 & ->)%go_set_ret & Hrun).
  apply rbind_ret in Hrun as (r1 & (Hi2 & ->)%go_set_ret & Hrun).
  apply rbind_ret in Hrun as (s2 & (Hi3 & ->)%go_set_ret & [= <-]).
  rewrite persister_clone. cbn in *. unfold len in *. rewrite length_insert in *.
  split_and!.
  - rewrite list_lookup_insert_eq; [done|]. rewrite length_insert. lia.
  - apply list_lookup_insert_eq. lia.
  - done.
  - done.
  - intros j e Hj He. apply (Hoff j e Hj). by left.
Qed.

(** Crash and restart through the harness: [start1] on a running peer whose
    image is up to date makes a new instance with the same term, vote, log and
    snapshot position, and the names through which the old instance sends stay
    disabled. *)
Theorem start1_restarts i fresh now r cfg cfg' rf ps :
  rafts cfg !! Z.to_nat i = Some (Some rf) -> saved cfg !! Z.to_nat i = Some (Some ps) -> 0 <= i ->
  in_sync rf -> start1 i fresh now r cfg = Ret cfg' ->
  (exists rf', rafts cfg' !! Z.to_nat i = Some (Some rf') /\ durable rf' = durable rf /\ leaderId rf' = -1 /\
     snapshot (persister rf') = snapshot (persister rf)) /\
  (forall j e, 0 <= j < n cfg -> endname cfg i j = Ret e ->
     Labrpc.enabled (net cfg') !! Labrpc.NStr e = Some false).
Proof.
  intros Hr Hs Hi Hsync. unfold start1. intros (cfg1 & Hcrash & Hrun)%rbind_ret.
  destruct (crash1_spec i cfg cfg1 rf ps Hr Hs Hi Hcrash) as (Hs1 & Hr1 & Hn1 & He1 & Hoff).
  apply rbind_ret in Hrun as (es & _ & Hrun). set (cfg2 := set_endnames es cfg1) in *.
  apply rbind_ret in Hrun as (cfg3 & Hloop & Hrun).
  assert (saved cfg3 = saved cfg1 /\ rafts cfg3 = rafts cfg1 /\ n cfg3 = n cfg1) as (Hs3 & Hr3 & Hn3).
  { refine (for_each_inv _ (fun c => saved c = saved cfg1 /\ rafts c = rafts cfg1 /\ n c = n cfg1) _ cfg2 _ _ _ Hloop); [|done].
    intros j c c' _ Hc Hrun'. apply rbind_ret in Hrun' as (e & _ & Hrun').
    by apply rbind_ret in Hrun' as ([e' rn] & _ & [= <-]). }
  assert (forall e, off e cfg2 -> off e cfg3) as Hkeep.
  { intros e He. refine (for_each_inv _ (off e) _ cfg2 _ _ He Hloop).
    intros j c c' _ Hc Hrun'. apply rbind_ret in Hrun' as (e' & _ & Hrun').
    apply rbind_ret in Hrun' as ([e2 rn] & Hme & [= <-]). unfold off in *. cbn.
    unfold Labrpc.MakeEnd in Hme. destruct (decide _); [done|]. injection Hme as _ <-. cbn.
    destruct (decide (e' = e)) as [->|]; [by rewrite lookup_insert_eq|].
    by rewrite lookup_insert_ne by congruence. }
  apply rbind_ret in Hrun as (s & (_ & Hs')%go_index_ret & Hrun).
  rewrite Hs3, Hs1 in Hs'. injection Hs' as <-.
  apply rbind_ret in Hrun as (ss & _ & Hrun). apply rbind_ret in Hrun as (rs & (Hir & ->)%go_set_ret & [= <-]).
  cbn in Hir. split.
  - eexists. split; [cbn; apply list_lookup_insert_eq; unfold len in Hir; lia|].
    destruct (Make_eq (n cfg3) i (Copy (persister rf)) now r rf Hsync) as (Hd & Hp & _ & _ & _ & Hl & _).
    split_and!; [exact Hd|exact Hl|]. cbn in *. by rewrite Hp.
  - intros j e Hj He. cbn. apply (Hkeep e). apply (Hoff j e Hj He).
Qed.

(** ** What the appliers check *)

(** Any two servers that applied something at an index applied the same. *)
Definition agree (ls : list (gmap Z (option Cmd))) : Prop :=
  forall i j index v w log log', ls !! i = Some log -> ls !! j = Some log' ->
    log !! index = Some v -> log' !! index = Some w -> v = w.

(** Nobody applied an entry without the one before it. *)
Definition gapless (ls : list (gmap Z (option Cmd))) : Prop :=
  forall i log index, ls !! i = Some log -> is_Some (log !! index) -> 1 < index -> is_Some (log !! (index - 1)).

Lemma conflict_false (ls : list (gmap Z (option Cmd))) index v :
  conflict ls index v = false ->
  forall i log w, ls !! i = Some log -> log !! index = Some w -> w = v.
Proof.
  intros Hc i log w Hi Hw. destruct (decide (w = v)) as [|Hne]; [done|]. exfalso.
  assert (conflict ls index v = true); [|congruence].
  apply existsb_exists. exists log. split; [apply list_elem_of_In; by eapply list_elem_of_lookup_2|].
  rewrite Hw. by rewrite bool_decide_eq_false_2.
Qed.

Lemma applier_step i m cfg cfg' :
  applier i m cfg = Ret cfg' -> agree (logs cfg) -> gapless (logs cfg) ->
  agree (logs cfg') /\ gapless (logs cfg') /\ len (logs cfg') = len (logs cfg) /\ rafts cfg' = rafts cfg.
Proof.
  unfold applier. case_cond; [by intros [= <-]|]. unfold checkLogs.
  intros ([[cfg1 err] prevok] & Hcheck & Hrun)%rbind_ret Ha Hg.
  apply rbind_ret in Hcheck as (log & (Hi & Hlog)%go_index_ret & Hcheck).
  apply rbind_ret in Hcheck as (ls & (Hi' & ->)%go_set_ret & [= <- <- <-]).
  destruct (conflict (logs cfg) (CommandIndex m) (am_Command m)) eqn:Hconf; [done|]. cbn [orb] in Hrun.
  pose proof (conflict_false _ _ _ Hconf) as Hsame.
  assert (CommandIndex m <= 1 \/ is_Some (log !! (CommandIndex m - 1))) as Hprev.
  { destruct (Z.gtb_spec (CommandIndex m) 1); [|by left]. right.
    destruct (bool_decide (is_Some (log !! (CommandIndex m - 1)))) eqn:E; [|done].
    by apply bool_decide_eq_true in E. }
  assert (set_logs (<[Z.to_nat i:=<[CommandIndex m:=am_Command m]> log]> (logs cfg))
    (if CommandIndex m >? maxIndex cfg then CommandIndex m else maxIndex cfg) cfg = cfg') as <-
    by (revert Hrun; case_cond; by intros [= ?]).
  cbn. assert (forall k l, <[Z.to_nat i:=<[CommandIndex m:=am_Command m]> log]> (logs cfg) !! k = Some l ->
     exists l0, logs cfg !! k = Some l0 /\ (l = l0 \/ (k = Z.to_nat i /\ l0 = log /\
       l = <[CommandIndex m:=am_Command m]> log))) as Hcases.
  { intros k l Hk. apply list_lookup_insert_Some in Hk as [(<- & <- & _)|[_ Hk]]; [by exists log; auto|by exists l; auto]. }
  split_and!.
  - intros a b index v w la lb Hla Hlb Hv Hw.
    assert (forall k l x, logs cfg !! k = Some l -> l !! index = Some x ->
      index = CommandIndex m -> x = am_Command m) as Hs by (intros k l x Hk Hx ->; by eapply Hsame).
    destruct (Hcases a la Hla) as (la0 & Hla0 & Hca), (Hcases b lb Hlb) as (lb0 & Hlb0 & Hcb).
    assert (forall l l0 k x, logs cfg !! k = Some l0 -> l !! index = Some x ->
      (l = l0 \/ (k = Z.to_nat i /\ l0 = log /\ l = <[CommandIndex m:=am_Command m]> log)) ->
      l0 !! index = Some x \/ (index = CommandIndex m /\ x = am_Command m)) as Hlk.
    { intros l l0 k x Hk Hx [->|(_ & -> & ->)]; [by left|]. destruct (decide (index = CommandIndex m)) as [->|].
      - rewrite lookup_insert_eq in Hx. right. by injection Hx as <-.
      - rewrite lookup_insert_ne in Hx by done. by left. }
    destruct (Hlk la la0 a v Hla0 Hv Hca) as [Hv0|[Hi0 ->]], (Hlk lb lb0 b w Hlb0 Hw Hcb) as [Hw0|[Hi1 ->]].
    + exact (Ha a b index v w la0 lb0 Hla0 Hlb0 Hv0 Hw0).
    + exact (Hs a la0 v Hla0 Hv0 Hi1).
    + symmetry. exact (Hs b lb0 w Hlb0 Hw0 Hi0).
    + done.
  - intros k l index Hk Hin Hgt. destruct (Hcases k l Hk) as (l0 & Hk0 & [->|(-> & -> & ->)]); [by eapply Hg|].
    destruct (decide (index = CommandIndex m)) as [->|].
    + destruct Hprev as [?|?]; [lia|]. by rewrite lookup_insert_ne by lia.
    + rewrite lookup_insert_ne in Hin by done.
      destruct (decide (CommandIndex m = index - 1)) as [->|]; [by rewrite lookup_insert_eq|].
      rewrite lookup_insert_ne by done. by eapply Hg.
  - apply len_insert.
  - done.
Qed.

(** The messages that the servers' [applier]s read, in the order they do. *)
Fixpoint apply_all (ms : list (Z * ApplyMsg Cmd)) cfg : res (config Cmd) :=
  match ms with
  | [] => Ret cfg
  | (i, m) :: ms => let! cfg := applier i m cfg in apply_all ms cfg
  end.

(** The commit count of one server. *)
Definition committed (index : Z) (log : gmap Z (option Cmd)) : bool := bool_decide (is_Some (log !! index)).

Lemma nCommitted_loop cfg index js count cmd :
  agree (logs cfg) ->
  (forall i, i ∈ js -> 0 <= i < len (logs cfg)) -> 0 <= count ->
  (0 < count -> exists k log, logs cfg !! k = Some log /\ log !! index = Some cmd) ->
  exists cmd', for_each (fun i acc =>
    let '(count, cmd) := acc in
    let! log := go_index (logs cfg) i in
    match log !! index with
    | None => Ret (count, cmd)
    | Some cmd1 => if (count >? 0) && negb (bool_decide (cmd = cmd1)) then Panic else Ret (count + 1, cmd1)
    end) js (count, cmd) =
  Ret (count + len (filter (fun i => is_Some (logs cfg !! Z.to_nat i ≫= (.!! index))) js), cmd') /\
  (0 < count + len (filter (fun i => is_Some (logs cfg !! Z.to_nat i ≫= (.!! index))) js) ->
   exists k log, logs cfg !! k = Some log /\ log !! index = Some cmd').
Proof.
  intros Ha. revert count cmd. induction js as [|i js IH]; intros count cmd His Hc Hcmd; cbn [for_each].
  { exists cmd. unfold len. cbn. rewrite Z.add_0_r. done. }
  destruct (go_index_in (logs cfg) i) as (log & -> & Hlog); [apply His; set_solver|]. cbn [rbind].
  rewrite filter_cons. destruct (log !! index) as [cmd1|] eqn:Hl.
  - rewrite decide_True by (rewrite Hlog; cbn; rewrite Hl; by eexists).
    assert ((count >? 0) && negb (bool_decide (cmd = cmd1)) = false) as ->.
    { destruct (Z.gtb_spec count 0); [|done]. destruct Hcmd as (k & log' & Hk & Hlk); [lia|].
      rewrite bool_decide_eq_true_2; [done|]. exact (Ha k (Z.to_nat i) index cmd cmd1 log' log Hk Hlog Hlk Hl). }
    cbn [rbind]. destruct (IH (count + 1) cmd1) as (cmd' & Hrun & Hex); [set_solver|lia| |].
    { intros _. by exists (Z.to_nat i), log. }
    exists cmd'. unfold len in *. cbn [length]. rewrite Hrun. split; [do 2 f_equal; lia|]. intros. apply Hex. lia.
  - rewrite decide_False by (rewrite Hlog; cbn; rewrite Hl; by intros [? ?]). apply IH; [set_solver|done|done].
Qed.

(** C31. The harness accepts only agreement: if the appliers of all servers get
    through a run without stopping the test, any two servers that applied
    something at an index applied the same command, no server skipped an
    index, and [nCommitted] counts the servers that applied an index without
    ever finding a mismatch. *)
Theorem applier_agreement ms cfg cfg' index :
  Forall (fun log => log = ∅) (logs cfg) -> len (rafts cfg) = len (logs cfg) ->
  apply_all ms cfg = Ret cfg' ->
  agree (logs cfg') /\ gapless (logs cfg') /\
  exists cmd, nCommitted index cfg' =
    Ret (len (filter (fun i => is_Some (logs cfg' !! Z.to_nat i ≫= (.!! index))) (upto (len (rafts cfg')))), cmd) /\
    (forall k log, logs cfg' !! k = Some log -> is_Some (log !! index) -> log !! index = Some cmd).
Proof.
  intros Hempty Hlen Hrun.
  assert (agree (logs cfg') /\ gapless (logs cfg') /\ len (rafts cfg') = len (logs cfg')) as (Ha & Hg & Hl).
  { assert (agree (logs cfg)) as Ha0.
    { intros i j idx v w log log' Hi _ Hv _. rewrite Forall_lookup in Hempty.
      rewrite (Hempty i log Hi), lookup_empty in Hv. done. }
    assert (gapless (logs cfg)) as Hg0.
    { intros i log idx Hi Hv _. rewrite Forall_lookup in Hempty.
      rewrite (Hempty i log Hi), lookup_empty in Hv. by destruct Hv. }
    clear Hempty. revert cfg Hlen Ha0 Hg0 Hrun. induction ms as [|[i m] ms IH]; intros cfg Hlen Ha0 Hg0; cbn.
    { by intros [= <-]. }
    intros (cfg1 & Hs & Hrun)%rbind_ret.
    destruct (applier_step i m cfg cfg1 Hs Ha0 Hg0) as (Ha1 & Hg1 & Hl1 & Hr1).
    apply (IH cfg1); try done. congruence. }
  split; [done|]. split; [done|].
  destruct (nCommitted_loop cfg' index (upto (len (rafts cfg'))) 0 None) as (cmd & Hn & Hex); [done| |lia|lia|].
  { intros i Hi%elem_of_upto. lia. }
  exists cmd. split; [exact Hn|]. intros k log Hk [v Hv].
  assert (Z.of_nat k ∈ filter (fun i => is_Some (logs cfg' !! Z.to_nat i ≫= (.!! index))) (upto (len (rafts cfg')))) as Hin.
  { apply list_elem_of_filter. rewrite Nat2Z.id, Hk. split; [cbn; by rewrite Hv|]. apply elem_of_upto.
    apply lookup_lt_Some in Hk. unfold len in *. lia. }
  destruct Hex as (k' & log' & Hk' & Hlk').
  { destruct (filter _ _); [set_solver|]. unfold len. cbn. lia. }
  rewrite Hv. f_equal. exact (Ha k k' index v cmd log log' Hk Hk' Hv Hlk').
Qed.

End properties.

(** ** A concrete run *)

Module Witness.

#[local] Instance Z_Gob : Gob (gval Z) := countable_Gob (gval Z).
#[local] Instance optZ_Gob : Gob (option Z) := countable_Gob (option Z).

(** Two peers, both started and connected. *)
Definition cfg0 : config Z :=
  mkConfig Labrpc.MakeNetwork 2 [None; None] [false; false] [None; None] [None; None] [∅; ∅] 0 0.
Definition cfg1 : res (config Z) :=
  let! cfg := start1 0 ["a"; "b"] 0 0 cfg0 in
  let! cfg := start1 1 ["c"; "d"] 0 0 cfg in
  let! cfg := connect 0 cfg in
  connect 1 cfg.
Definition cfg2 : config Z := match cfg1 with Ret cfg => cfg | Panic => cfg0 end.

Definition msg (i : Z) (v : option Z) : ApplyMsg Z := mkApplyMsg true v i false [] 0 0.

Definition ran {A} (r : res A) : bool := match r with Ret _ => true | Panic => false end.

Lemma disconnect_isolates_witness : exists cfg' rn,
  disconnect 0 cfg2 = Ret cfg' /\
  Labrpc.Call (V := option Z) (W := Z) (Labrpc.NStr "c") "Raft.RequestVote" (Labrpc.mkType None Some)
    (Labrpc.mkType None Some) None false
    (Labrpc.mkChoices 0 [] id 0) (net cfg') ∅ 0 = Some (Ret (rn, ∅, 0, None)).
Proof.
  destruct (disconnect 0 cfg2) as [cfg'|] eqn:E.
  2: { assert (ran (disconnect 0 cfg2) = true) as H by (vm_compute; reflexivity). rewrite E in H. discriminate H. }
  exists cfg'.
  assert (0 <= 1 < n cfg2) as Hn by (vm_compute; split; [discriminate|reflexivity]).
  assert (endname cfg2 0 1 = Ret "c" \/ endname cfg2 1 0 = Ret "c") as He by (right; vm_compute; reflexivity).
  destruct (disconnect_isolates 0 1 "c" cfg2 cfg' "Raft.RequestVote" (Labrpc.mkType None Some)
    (Labrpc.mkType None Some) None (Labrpc.mkChoices 0 [] id 0) ∅ 0 E Hn He) as [rn Hrn].
  exists rn. split; [reflexivity|exact Hrn].
Defined.

(** Peer 0 has saved its state. *)
Definition rf0 : Raft Z := persist (Make 2 0 MakePersister 0 0).
Definition cfg3 : config Z := set_rafts (<[0%nat := Some rf0]> (rafts cfg2)) cfg2.

Lemma start1_restarts_witness : exists cfg' rf',
  start1 0 ["e"; "f"] 0 0 cfg3 = Ret cfg' /\
  rafts cfg' !! 0%nat = Some (Some rf') /\ durable rf' = durable rf0.
Proof.
  destruct (start1 0 ["e"; "f"] 0 0 cfg3) as [cfg'|] eqn:E.
  2: { assert (ran (start1 0 ["e"; "f"] 0 0 cfg3) = true) as H by (vm_compute; reflexivity).
       rewrite E in H. discriminate H. }
  destruct (start1_restarts 0 ["e"; "f"] 0 0 cfg3 cfg' rf0 (default MakePersister (saved cfg2 !! 0%nat ≫= id)))
    as ((rf' & Hr & Hd & _) & _).
  - vm_compute. reflexivity.
  - vm_compute. reflexivity.
  - lia.
  - apply in_sync_persist.
  - exact E.
  - exists cfg', rf'. split_and!; [reflexivity|exact Hr|exact Hd].
Defined.

Definition run : list (Z * ApplyMsg Z) := [(0, msg 0 None); (0, msg 1 (Some 7)); (1, msg 0 None); (1, msg 1 (Some 7))].

Lemma applier_agreement_witness : exists cfg' cmd,
  apply_all run cfg0 = Ret cfg' /\ agree (logs cfg') /\ nCommitted 1 cfg' = Ret (2, cmd).
Proof.
  destruct (apply_all run cfg0) as [cfg'|] eqn:E.
  2: { assert (ran (apply_all run cfg0) = true) as H by (vm_compute; reflexivity). rewrite E in H. discriminate H. }
  destruct (applier_agreement run cfg0 cfg' 1) as (Ha & _ & cmd & Hn & _).
  - repeat constructor.
  - reflexivity.
  - exact E.
  - exists cfg', cmd. split_and!; [reflexivity|exact Ha|]. rewrite Hn. do 2 f_equal.
    vm_compute in E. injection E as <-. vm_compute. reflexivity.
Defined.

End Witness.
End ConfigSpec.
