(* ===== verification/AgreementSpec.v ===== *)
(** What [one] and [wait] of raft/config.go tell the tests when they return. *)
From S2P Require Import Prelude Labgob Persister RaftState Raft RaftLemmas Labrpc Config ConfigSpec.
Import Labgob Persist RaftState RaftNode RaftOk Config ConfigSpec.ConfigSpec.
Local Open Scope Z_scope.

Module AgreementSpec.
Section agreement.
Context {Cmd : Type} `{!EqDecision Cmd} `{!Gob (gval Cmd)} `{!Gob (option Cmd)}.
Implicit Types cfg : config Cmd.

(** The servers that have applied something at the index. *)
Definition appliers (index : Z) cfg : list Z :=
  filter (fun i => is_Some (logs cfg !! Z.to_nat i ≫= (.!! index))) (upto (len (rafts cfg))).

Lemma count_loop cfg index js count cmd count' cmd' :
  for_each (fun i acc =>
    let '(count, cmd) := acc in
    let! log := go_index (logs cfg) i in
    match log !! index with
    | None => Ret (count, cmd)
    | Some cmd1 => if (count >? 0) && negb (bool_decide (cmd = cmd1)) then Panic else Ret (count + 1, cmd1)
    end) js (count, cmd) = Ret (count', cmd') -> 0 <= count ->
  count' = count + len (filter (fun i => is_Some (logs cfg !! Z.to_nat i ≫= (.!! index))) js) /\
  (0 < count -> cmd' = cmd) /\
  (forall i log, i ∈ js -> logs cfg !! Z.to_nat i = Some log -> is_Some (log !! index) -> log !! index = Some cmd').
Proof.
  revert count cmd. induction js as [|i js IH]; intros count cmd; cbn [for_each].
  { intros [= <- <-] _. unfold len. cbn. split_and!; [lia|done|set_solver]. }
  intros ([count1 cmd1] & Hstep & Hrun)%rbind_ret Hc.
  apply rbind_ret in Hstep as (log & [_ Hlog]%go_index_ret & Hstep).
  rewrite filter_cons. destruct (log !! index) as [v|] eqn:Hv.
  - rewrite decide_True by (rewrite Hlog; cbn; rewrite Hv; by eexists).
    destruct (Z.gtb_spec count 0) as [Hpos|Hz]; cbn in Hstep.
    + case_bool_decide; [subst v|done]. injection Hstep as <- <-.
      destruct (IH _ _ Hrun) as (-> & Hsame & Hall); [lia|]. rewrite (Hsame ltac:(lia)) in *.
      unfold len. cbn [length]. split_and!; [lia|done|].
      intros j lj [->|Hj]%elem_of_cons Hlj; [|by apply (Hall j)]. rewrite Hlog in Hlj. by injection Hlj as <-.
    + injection Hstep as <- <-. destruct (IH _ _ Hrun) as (-> & Hsame & Hall); [lia|].
      rewrite (Hsame ltac:(lia)) in *. unfold len. cbn [length]. split_and!; [lia|lia|].
      intros j lj [->|Hj]%elem_of_cons Hlj; [|by apply (Hall j)]. rewrite Hlog in Hlj. by injection Hlj as <-.
  - rewrite decide_False by (rewrite Hlog; cbn; rewrite Hv; by intros [? ?]). injection Hstep as <- <-.
    destruct (IH _ _ Hrun Hc) as (-> & Hsame & Hall). split_and!; [done|done|].
    intros j lj [->|Hj]%elem_of_cons Hlj; [|by apply (Hall j)].
    rewrite Hlog in Hlj. injection Hlj as <-. rewrite Hv. by intros [? ?].
Qed.

(** [nd] servers have applied [cmd] at the index, and nobody another command. *)
Definition agreed (index nd : Z) (cmd : option Cmd) cfg : Prop :=
  nd = len (appliers index cfg) /\
  forall i log, 0 <= i < len (rafts cfg) -> logs cfg !! Z.to_nat i = Some log -> is_Some (log !! index) ->
    log !! index = Some cmd.

Lemma nCommitted_agreed index cfg nd cmd : nCommitted index cfg = Ret (nd, cmd) -> agreed index nd cmd cfg.
Proof.
  intros Hrun. destruct (count_loop cfg index _ 0 None nd cmd Hrun) as (Hn & _ & Hall); [lia|].
  split; [done|]. intros i log Hi. apply Hall. by apply elem_of_upto.
Qed.

Lemma poll_agreed pauses cmd k index cfg cfg' :
  poll pauses cmd k index cfg = Ret (cfg', true) ->
  exists nd, agreed index nd cmd cfg' /\ 0 < nd /\ k <= nd.
Proof.
  revert cfg. induction pauses as [|p pauses IH]; intros cfg; cbn [poll]; [by intros [= ]|].
  intros ([nd cmd1] & Hn & Hrun)%rbind_ret. case_cond; [|by eapply IH].
  injection Hrun as <-. apply andb_prop in Hb as [Hb Hc]. apply bool_decide_eq_true in Hc as ->. zbool.
  exists nd. split; [by apply nCommitted_agreed|lia].
Qed.

Lemma one_loop_agreed attempts cmd k retry starts cfg cfg' index :
  one_loop attempts cmd k retry starts cfg = Ret (cfg', index) ->
  exists nd, agreed index nd cmd cfg' /\ 0 < nd /\ k <= nd.
Proof.
  revert starts cfg. induction attempts as [|a attempts IH]; intros starts cfg; cbn [one_loop]; [done|].
  intros ([[cfg1 starts1] index1] & _ & Hrun)%rbind_ret. case_cond; [|by eapply IH].
  apply rbind_ret in Hrun as ([cfg2 ok] & Hpoll & Hrun). destruct ok.
  - injection Hrun as <- <-. by eapply poll_agreed.
  - case_cond; [done|by eapply IH].
Qed.

Lemma wait_loop_agreed k iters during index n0 startTerm cfg cfg' cmd :
  wait_loop k iters during index n0 startTerm cfg = Ret (cfg', Decided cmd) ->
  exists nd, agreed index nd cmd cfg' /\ n0 <= nd.
Proof.
  assert (forall cfg, wait_end index n0 cfg = Ret (cfg', Decided cmd) ->
    exists nd, agreed index nd cmd cfg' /\ n0 <= nd) as Hend.
  { intros c. unfold wait_end. intros ([nd cmd1] & Hn & Hrun)%rbind_ret. case_cond; [done|].
    injection Hrun as <- <-. zbool. exists nd. split; [by apply nCommitted_agreed|lia]. }
  revert iters cfg. induction k as [|k IH]; intros iters cfg; cbn [wait_loop]; [apply Hend|].
  intros ([nd c] & _ & Hrun)%rbind_ret. case_cond; [by eapply Hend|]. case_cond; [|by eapply IH].
  apply rbind_ret in Hrun as (moved & _ & Hrun). case_cond; [done|by eapply IH].
Qed.

(** *** One attempt that succeeds *)

(** The connected peer [l] takes commands. *)
Definition leads cfg (l : Z) (rf : Raft Cmd) : Prop :=
  connected cfg !! Z.to_nat l = Some true /\ rafts cfg !! Z.to_nat l = Some (Some rf) /\
  leaderId rf = me rf /\ 0 <= l < n cfg.

(** [cfg] after the leader [l] has taken the command. *)
Definition accepted cmd (l : Z) rf cfg : config Cmd :=
  set_rafts (<[Z.to_nat l := Some (Start cmd rf).1]> (rafts cfg)) cfg.

(** There is a slot for every peer, and the log positions are legal. *)
Record sized cfg : Prop := {
  sz_n : 0 < n cfg;
  sz_connected : len (connected cfg) = n cfg;
  sz_rafts : len (rafts cfg) = n cfg;
  sz_lai : forall l rf, rafts cfg !! l = Some (Some rf) -> -1 <= lastAppliedIndex rf;
}.

(** Within the pauses [ps], [k] servers apply the command at the index. *)
Fixpoint reaches (ps : list (config Cmd -> config Cmd)) (cmd : option Cmd) (k index : Z) cfg : Prop :=
  match ps with
  | [] => False
  | p :: ps => exists nd cmd1, nCommitted index cfg = Ret (nd, cmd1) /\
      ((0 < nd /\ k <= nd /\ cmd1 = cmd) \/ reaches ps cmd k index (p cfg))
  end.

Lemma poll_reaches ps cmd k index cfg : reaches ps cmd k index cfg -> exists cfg', poll ps cmd k index cfg = Ret (cfg', true).
Proof.
  revert cfg. induction ps as [|p ps IH]; intros cfg; [done|]. intros (nd & cmd1 & Hn & Hc). cbn [poll]. rewrite Hn. cbn [rbind].
  destruct Hc as [(Hpos & Hk & ->)|Hr].
  - rewrite bool_decide_true by done. destruct (Z.gtb_spec nd 0); [|lia]. rewrite Z.geb_leb.
    destruct (Z.leb_spec k nd); [|lia]. by exists cfg.
  - case_cond; [by exists cfg|by apply IH].
Qed.

(** The peer that the [j]-th try asks. *)
Lemma try_next cfg s j : 0 < n cfg -> 0 <= s -> Z.rem (Z.rem (s + 1) (n cfg) + j) (n cfg) = Z.rem (s + (1 + j)) (n cfg) \/ j < 0.
Proof.
  intros Hn Hs. destruct (decide (j < 0)) as [|Hj]; [by right|left].
  rewrite !Z.rem_mod_nonneg by (rewrite ?Z.rem_mod_nonneg by lia; try apply Z.add_nonneg_nonneg; try apply Z.mod_pos_bound; lia).
  rewrite Zplus_mod_idemp_l. f_equal. lia.
Qed.

Lemma try_start_finds k si cmd s cfg :
  sized cfg -> 0 <= s -> (exists j l rf, 0 <= j < Z.of_nat k /\ l = Z.rem (s + (1 + j)) (n cfg) /\ leads cfg l rf) ->
  exists l rf, leads cfg l rf /\
    try_start k si (fun _ c => c) cmd s cfg = Ret (accepted cmd l rf cfg, l, last_index rf + 1).
Proof.
  intros Hsz. pose proof (sz_n _ Hsz) as Hn. revert si s. induction k as [|k IH]; intros si s Hs (j & l & rf & Hj & Hl & Hlead); [lia|].
  cbn [try_start]. set (s1 := Z.rem (s + 1) (n cfg)).
  assert (0 <= s1 < n cfg) as Hs1 by (apply Z.rem_bound_pos; lia).
  destruct (go_index_in (connected cfg) s1) as (c & -> & Hc); [rewrite (sz_connected _ Hsz); lia|]. cbn [rbind].
  assert (0 < j -> exists l rf, leads cfg l rf /\
    try_start k (S si) (fun _ c => c) cmd s1 cfg = Ret (accepted cmd l rf cfg, l, last_index rf + 1)) as Hrest.
  { intros Hpos. apply IH; [lia|]. exists (j - 1), l, rf. split; [lia|]. split; [|done].
    destruct (try_next cfg s j Hn Hs) as [He|]; [|lia]. rewrite Hl, <- He. f_equal. unfold s1. lia. }
  destruct (decide (j = 0)) as [->|Hj0].
  - replace (s + (1 + 0)) with (s + 1) in Hl by lia. fold s1 in Hl. subst l. destruct Hlead as (Hc1 & Hr & Hld & _).
    rewrite Hc in Hc1. injection Hc1 as ->.
    assert (go_index (rafts cfg) s1 = Ret (Some rf)) as -> by (apply go_index_ret; split; [lia|done]).
    cbn [rbind]. unfold Start. rewrite Hld, Z.eqb_refl. cbn.
    exists s1, rf. split; [done|]. rewrite go_set_in by (rewrite (sz_rafts _ Hsz); lia). cbn [rbind].
    unfold accepted, Start. rewrite Hld, Z.eqb_refl. done.
  - specialize (Hrest ltac:(lia)). destruct c; cbn [rbind]; [|exact Hrest].
    destruct (go_index_in (rafts cfg) s1) as (r1 & -> & Hr1); [rewrite (sz_rafts _ Hsz); lia|]. cbn [rbind].
    destruct r1 as [rf1|]; [|exact Hrest]. unfold Start. destruct (Z.eqb_spec (leaderId rf1) (me rf1)) as [Hld|Hnl].
    + exists s1, rf1. split; [done|]. rewrite go_set_in by (rewrite (sz_rafts _ Hsz); lia). cbn.
      unfold accepted, Start. rewrite Hld, Z.eqb_refl. done.
    + rewrite go_set_in by (rewrite (sz_rafts _ Hsz); lia). cbn [rbind]. rewrite list_insert_id by done.
      replace (set_rafts (rafts cfg) cfg) with cfg by by destruct cfg. exact Hrest.
Qed.

Lemma one_loop_succeeds a attempts cmd k retry cfg :
  sized cfg -> before a = (fun _ c => c) -> (exists l rf, leads cfg l rf) ->
  (forall l rf, leads cfg l rf -> reaches (polls a) cmd k (last_index rf + 1) (accepted cmd l rf cfg)) ->
  exists l rf cfg', leads cfg l rf /\ one_loop (a :: attempts) cmd k retry 0 cfg = Ret (cfg', last_index rf + 1).
Proof.
  intros Hsz Hb (l0 & rf0 & Hl0) Hall. pose proof (sz_n _ Hsz) as Hn. cbn [one_loop]. rewrite Hb.
  destruct (try_start_finds (Z.to_nat (n cfg)) 0 cmd 0 cfg Hsz) as (l & rf & Hl & ->); [lia| |].
  { destruct Hl0 as (H1 & H2 & H3 & Hr). exists ((l0 - 1) mod n cfg), l0, rf0.
    pose proof (Z.mod_pos_bound (l0 - 1) (n cfg) Hn). split; [lia|]. split; [|done].
    rewrite Z.rem_mod_nonneg by lia. rewrite Z.add_assoc, Zplus_mod_idemp_r. rewrite Z.mod_small; lia. }
  cbn [rbind]. destruct (poll_reaches _ _ _ _ _ (Hall l rf Hl)) as (cfg' & Hpoll).
  destruct Hl as (H1 & H2 & H3 & H4). pose proof (sz_lai _ Hsz _ _ H2). unfold last_index in *. pose proof (len_nonneg (Log rf)).
  destruct (Z.eqb_spec (len (Log rf) + lastAppliedIndex rf + 1) (-1)); [lia|]. cbn [negb]. rewrite Hpoll. cbn [rbind].
  by exists l, rf, cfg'.
Qed.

(** C32. When [one] returns an index, then whatever happened to the cluster
    during its attempts, at least [expectedServers] servers and at least one
    have applied the command at that index at this moment, and nobody has
    applied another command there.  And it does return: if some connected peer
    leads, and whichever leader takes the command, [expectedServers] servers
    apply it at the end of its log within the pauses, then [one] returns the
    index at the end of the log of a leader. *)
Theorem one_agreement a attempts cmd expectedServers retry cfg :
  (forall cfg' index, one (a :: attempts) cmd expectedServers retry cfg = Ret (cfg', index) ->
     exists nd, agreed index nd cmd cfg' /\ 0 < nd /\ expectedServers <= nd) /\
  (sized cfg -> before a = (fun _ c => c) -> (exists l rf, leads cfg l rf) ->
   (forall l rf, leads cfg l rf -> reaches (polls a) cmd expectedServers (last_index rf + 1) (accepted cmd l rf cfg)) ->
   exists l rf cfg', leads cfg l rf /\ one (a :: attempts) cmd expectedServers retry cfg = Ret (cfg', last_index rf + 1)).
Proof. split; [intros ? ?; apply one_loop_agreed|apply one_loop_succeeds]. Qed.

End agreement.

Module Witness.

#[local] Instance Z_Gob : Gob (gval Z) := countable_Gob (gval Z).
#[local] Instance optZ_Gob : Gob (option Z) := countable_Gob (option Z).

(** Two connected peers; peer 0 leads. *)
Definition peer (i : Z) : Raft Z := set_leaderId 0 (Make 2 i MakePersister 0 0).

Definition cluster : config Z :=
  mkConfig Labrpc.MakeNetwork 2 [Some (peer 0); Some (peer 1)] [true; true]
    [Some MakePersister; Some MakePersister] [None; None] [∅; ∅] 0 2.

(** The appliers run during the first sleep. *)
Definition apply_7 (cfg : config Z) : config Z :=
  set_logs [{[0 := None; 1 := Some 7]}; {[0 := None; 1 := Some 7]}] 1 cfg.

Definition attempt_7 : attempt (Cmd := Z) := mkAttempt (fun _ c => c) [apply_7; id] id.

Lemma cluster_sized : sized cluster.
Proof.
  split; [reflexivity..|]. intros l rf. destruct l as [|[|l]]; cbn; intros H; try discriminate H; injection H as <-; vm_compute; discriminate.
Qed.

Lemma cluster_leader l rf : leads cluster l rf -> l = 0 /\ rf = peer 0.
Proof.
  intros (_ & H & Hl & Hr). cbn in Hr. assert (l = 0 \/ l = 1) as [-> | ->] by lia; cbn in H; injection H as <-;
    [done|vm_compute in Hl; discriminate Hl].
Qed.

Lemma attempt_7_reaches : reaches (polls attempt_7) (Some 7) 2 (last_index (peer 0) + 1) (accepted (Some 7) 0 (peer 0) cluster).
Proof.
  cbn [polls attempt_7 reaches]. exists 0, None. split; [vm_compute; reflexivity|]. right.
  exists 2, (Some 7). split; [vm_compute; reflexivity|]. left. split_and!; [lia|lia|reflexivity].
Qed.

Lemma one_agreement_witness : exists cfg' nd,
  one [attempt_7] (Some 7) 2 false cluster = Ret (cfg', 1) /\ agreed 1 nd (Some 7) cfg' /\ 2 <= nd.
Proof.
  destruct (one_agreement attempt_7 [] (Some 7) 2 false cluster) as [Hagreed Hreturns].
  destruct Hreturns as (l & rf & cfg' & Hl & Hrun).
  - exact cluster_sized.
  - reflexivity.
  - exists 0, (peer 0). split; [reflexivity|]. split; [reflexivity|]. split; [reflexivity|]. split; [lia|reflexivity].
  - intros l rf Hl. destruct (cluster_leader l rf Hl) as [-> ->]. exact attempt_7_reaches.
  - destruct (cluster_leader l rf Hl) as [-> ->]. change (last_index (peer 0) + 1) with 1 in Hrun.
    destruct (Hagreed cfg' 1 Hrun) as (nd & Ha & _ & Hk). exists cfg', nd. split; [exact Hrun|]. split; [exact Ha|exact Hk].
Defined.

End Witness.
End AgreementSpec.
