(* ===== verification/LabgobCheck.v ===== *)
(** The checks of labgob/labgob.go: [checkType] walks the types of what is
    encoded and warns about lower-case field names; [checkDefault1] walks the
    variable that is decoded into and warns about non-default values.  The
    operations of labgob run these checks and then those of [encoding/gob]. *)
From Stdlib Require Import Strings.Ascii.
From S2P Require Import Prelude.
Local Open Scope Z_scope.

Module LabgobCheck.

(** ** Types

    A [reflect.Type] is an identity; [env] tells what it consists of.  Types may
    be recursive. *)
Abbreviation type := nat.

Inductive kind :=
| Struct (name : string) (fields : list (string * type))
| Elem (elem : type)                   (* slices, arrays, pointers *)
| MapOf (elem key : type)
| Basic.

Abbreviation types := (gmap type kind).

(** [unicode.IsUpper] of the first rune of a name: for ASCII names, and
    [upper] for names that start with any other rune. *)
Definition first_upper (upper : string -> bool) (name : string) : bool :=
  match name with
  | EmptyString => false
  | String a _ =>
      let c := Z.of_nat (nat_of_ascii a) in
      if c <? 128 then (65 <=? c) && (c <=? 90) else upper name
  end.

(** The package variables, and the warnings printed. *)
Record state := mkState { errorCount : Z; checked : gset type; warnings : list (string * string) }.

Section check.
Context (upper : string -> bool) (env : types).

(** The loop over the fields of a struct; [rec] is [checkType]. *)
Fixpoint check_fields (rec : type -> state -> option (res state)) (name : string)
    (fields : list (string * type)) (st : state) : option (res state) :=
  match fields with
  | [] => Some (Ret st)
  | (fname, ftype) :: fields =>
      let st := if negb (first_upper upper fname)
                then mkState (errorCount st + 1) (checked st) (warnings st ++ [(fname, name)])
                else st in
      match rec ftype st with
      | Some (Ret st) => check_fields rec name fields st
      | r => r
      end
  end.

(** A type without entry in [env] is the nil type of an untyped nil, whose
    [Kind] panics. *)
Fixpoint checkType (fuel : nat) (t : type) (st : state) : option (res state) :=
  match fuel with
  | O => None
  | S fuel =>
      match env !! t with
      | None => Some Panic
      | Some k =>
          if decide (t ∈ checked st) then Some (Ret st) else
          let st := mkState (errorCount st) (checked st ∪ {[t]}) (warnings st) in
          match k with
          | Struct name fields => check_fields (checkType fuel) name fields st
          | Elem elem => checkType fuel elem st
          | MapOf elem key =>
              match checkType fuel elem st with
              | Some (Ret st) => checkType fuel key st
              | r => r
              end
          | Basic => Some (Ret st)
          end
      end
  end.

(** ** The specification: every type that is reached is checked once *)

Definition succs (k : kind) : list type :=
  match k with
  | Struct _ fields => fields.*2
  | Elem e => [e]
  | MapOf e k => [e; k]
  | Basic => []
  end.

(** The lower-case fields of a type. *)
Definition lower_fields (fields : list (string * type)) : Z :=
  len (filter (fun f => first_upper upper f.1 = false) fields).
Definition lower (t : type) : Z :=
  match env !! t with Some (Struct _ fields) => lower_fields fields | _ => 0 end.

Definition sum_lower (ts : list type) : Z := fold_right (fun t acc => lower t + acc) 0 ts.

Inductive reach : type -> type -> Prop :=
| reach_refl t : reach t t
| reach_step t k u v : env !! t = Some k -> u ∈ succs k -> reach u v -> reach t v.

(** From [st] to [st'] the types of [order] were checked, on behalf of [ts]. *)
Record visits (ts : list type) (extra : Z) (st st' : state) (order : list type) : Prop := {
  v_nodup : NoDup order;
  v_new : forall x, x ∈ order -> x ∉ checked st;
  v_reach : forall x, x ∈ order -> exists t, t ∈ ts /\ reach t x;
  v_checked : checked st' = checked st ∪ list_to_set order;
  v_all : forall t, t ∈ ts -> t ∈ checked st';
  v_closed : forall x k u, x ∈ order -> env !! x = Some k -> u ∈ succs k -> u ∈ checked st';
  v_count : errorCount st' = errorCount st + extra + sum_lower order;
}.

Lemma sum_lower_app l1 l2 : sum_lower (l1 ++ l2) = sum_lower l1 + sum_lower l2.
Proof. induction l1 as [|x l1 IH]; cbn; [done|]. fold (sum_lower (l1 ++ l2)) (sum_lower l1). lia. Qed.

Lemma visits_nil e st st' :
  checked st' = checked st -> errorCount st' = errorCount st + e -> visits [] e st st' [].
Proof. intros Hc He. split; try set_solver. - constructor. - cbn. lia. Qed.

(** One visit after another. *)
Lemma visits_app ts1 ts2 e1 e2 st0 st1 st2 o1 o2 :
  visits ts1 e1 st0 st1 o1 -> visits ts2 e2 st1 st2 o2 -> visits (ts1 ++ ts2) (e1 + e2) st0 st2 (o1 ++ o2).
Proof.
  intros [N1 W1 R1 C1 A1 K1 E1] [N2 W2 R2 C2 A2 K2 E2]. split.
  - apply NoDup_app. split_and!; [done| |done]. intros x Hx Hx2. apply (W2 x Hx2). rewrite C1. set_solver.
  - intros x [Hx|Hx]%elem_of_app; [by apply W1|]. specialize (W2 x Hx). rewrite C1 in W2. set_solver.
  - intros x [Hx|Hx]%elem_of_app; [destruct (R1 x Hx) as (t & ? & ?)|destruct (R2 x Hx) as (t & ? & ?)];
      exists t; set_solver.
  - rewrite C2, C1. rewrite list_to_set_app_L. set_solver.
  - intros t [Ht|Ht]%elem_of_app; [|by apply A2]. rewrite C2. specialize (A1 t Ht). set_solver.
  - intros x k u [Hx|Hx]%elem_of_app Hk Hu; [|by eapply K2]. rewrite C2. specialize (K1 x k u Hx Hk Hu). set_solver.
  - rewrite sum_lower_app. lia.
Qed.

(** The types not checked yet: what bounds the depth of the recursion. *)
Definition todo (st : state) : nat := size (dom env ∖ checked st).

Lemma todo_mono st st' : checked st ⊆ checked st' -> (todo st' <= todo st)%nat.
Proof. intros Hs. unfold todo. apply subseteq_size. set_solver. Qed.

Lemma todo_mark t st e w :
  is_Some (env !! t) -> t ∉ checked st -> (todo (mkState e (checked st ∪ {[t]}) w) < todo st)%nat.
Proof.
  intros Ht Hn. unfold todo. cbn. apply subset_size. apply elem_of_dom in Ht. set_solver.
Qed.

Definition closed : Prop := forall t k u, env !! t = Some k -> u ∈ succs k -> is_Some (env !! u).

(** A walk over the fields, given that [rec] visits. *)
Lemma check_fields_visits rec name fields st bound :
  (forall t st, is_Some (env !! t) -> (todo st < bound)%nat ->
     exists st' o, rec t st = Some (Ret st') /\ visits [t] 0 st st' o) ->
  (forall f, f ∈ fields -> is_Some (env !! f.2)) -> (todo st < bound)%nat ->
  exists st' o, check_fields rec name fields st = Some (Ret st') /\
    visits fields.*2 (lower_fields fields) st st' o.
Proof.
  intros Hrec. revert st. induction fields as [|[fname ftype] fields IH]; intros st Hf Hb.
  - exists st, []. split; [done|]. apply visits_nil; [done|]. change (lower_fields []) with 0. lia.
  - cbn [check_fields]. set (st1 := if negb _ then _ else st).
    assert (checked st1 = checked st /\
      errorCount st1 = errorCount st + lower_fields ((fname, ftype) :: fields) - lower_fields fields) as [Hc He].
    { unfold lower_fields, len. rewrite filter_cons. subst st1.
      case_decide as Hu; cbn [fst] in Hu;
        [rewrite Hu|apply not_false_is_true in Hu; rewrite Hu]; cbn [negb checked errorCount];
        (split; [done|]); rewrite ?length_cons; lia. }
    destruct (Hrec ftype st1) as (st2 & o1 & Hrun1 & Hv1).
    { apply (Hf (fname, ftype)). set_solver. }
    { unfold todo. by rewrite Hc. }
    rewrite Hrun1. destruct (IH st2) as (st3 & o2 & Hrun2 & Hv2).
    { intros f Hin. apply Hf. set_solver. }
    { eapply Nat.le_lt_trans; [|exact Hb]. apply todo_mono. rewrite (v_checked _ _ _ _ _ Hv1), Hc. set_solver. }
    exists st3, (o1 ++ o2). split; [done|].
    assert (visits [] (lower_fields ((fname, ftype) :: fields) - lower_fields fields) st st1 []) as Hv0
      by (apply visits_nil; [done|lia]).
    pose proof (visits_app _ _ _ _ _ _ _ _ _ (visits_app _ _ _ _ _ _ _ _ _ Hv0 Hv1) Hv2) as Hv.
    cbn [app] in Hv. cbn [fmap list_fmap].
    replace (lower_fields ((fname, ftype) :: fields)) with
      (lower_fields ((fname, ftype) :: fields) - lower_fields fields + 0 + lower_fields fields) by lia.
    exact Hv.
Qed.

(** After marking [t], visiting its parts is visiting [t]. *)
Lemma visits_mark t k st st' o :
  env !! t = Some k -> t ∉ checked st ->
  visits (succs k) (lower t) (mkState (errorCount st) (checked st ∪ {[t]}) (warnings st)) st' o ->
  visits [t] 0 st st' (t :: o).
Proof.
  intros Hk Hn [N W R C A K E]. cbn in *. split.
  - apply NoDup_cons. split; [|done]. intros Ht. specialize (W t Ht). set_solver.
  - intros x [->|Hx]%elem_of_cons; [done|]. specialize (W x Hx). set_solver.
  - intros x [->|Hx]%elem_of_cons; exists t; (split; [set_solver|]); [constructor|].
    destruct (R x Hx) as (u & Hu & Hr). by eapply reach_step.
  - rewrite C. cbn. set_solver.
  - intros x ->%list_elem_of_singleton. rewrite C. set_solver.
  - intros x k' u [->|Hx]%elem_of_cons Hk' Hu; [|by eapply K]. rewrite Hk in Hk'. injection Hk' as <-. by apply A.
  - change (sum_lower (t :: o)) with (lower t + sum_lower o). lia.
Qed.

Lemma checkType_visits fuel t st :
  closed -> is_Some (env !! t) -> (todo st < fuel)%nat ->
  exists st' o, checkType fuel t st = Some (Ret st') /\ visits [t] 0 st st' o.
Proof.
  intros Hcl. revert t st. induction fuel as [|fuel IH]; intros t st Ht Hf; [lia|]. cbn [checkType].
  destruct Ht as [k Hk]. rewrite Hk. destruct (decide (t ∈ checked st)) as [Hin|Hn].
  { exists st, []. split; [done|]. split; try set_solver; [constructor|]. cbn. lia. }
  set (st1 := mkState _ _ _).
  assert (todo st1 < fuel)%nat as Hb.
  { pose proof (todo_mark t st (errorCount st) (warnings st) ltac:(by eexists) Hn). unfold st1. lia. }
  assert (forall u, u ∈ succs k -> is_Some (env !! u)) as Hs by (intros u Hu; by eapply Hcl).
  assert (exists st' o, (match k with
      | Struct name fields => check_fields (checkType fuel) name fields st1
      | Elem elem => checkType fuel elem st1
      | MapOf elem key => match checkType fuel elem st1 with Some (Ret st) => checkType fuel key st | r => r end
      | Basic => Some (Ret st1)
      end) = Some (Ret st') /\ visits (succs k) (lower t) st1 st' o) as (st' & o & Hrun & Hv).
  { unfold lower. rewrite Hk. destruct k as [name fields|elem|elem key|].
    - apply (check_fields_visits _ _ _ _ fuel IH); [|done]. intros [f ft] Hin. apply Hs. cbn.
      apply list_elem_of_fmap. by exists (f, ft).
    - apply IH; [|done]. apply Hs. cbn. set_solver.
    - destruct (IH elem st1) as (st2 & o1 & -> & Hv1); [apply Hs; cbn; set_solver|done|].
      destruct (IH key st2) as (st3 & o2 & -> & Hv2); [apply Hs; cbn; set_solver| |].
      { eapply Nat.le_lt_trans; [|exact Hb]. apply todo_mono. rewrite (v_checked _ _ _ _ _ Hv1). set_solver. }
      exists st3, (o1 ++ o2). split; [done|]. exact (visits_app _ _ _ _ _ _ _ _ _ Hv1 Hv2).
    - exists st1, []. split; [done|]. apply visits_nil; [done|lia]. }
  exists st', (t :: o). split; [exact Hrun|]. by eapply visits_mark.
Qed.

(** C34. [checkType] terminates on every type, also on recursive ones, with one
    unit of fuel per unchecked type: it marks exactly the types reachable
    through unchecked ones, each once, does not leave out a part of a type it
    marked, and raises [errorCount] by the number of their lower-case fields. *)
Theorem checkType_correct fuel t st :
  closed -> is_Some (env !! t) -> (size (dom env ∖ checked st) < fuel)%nat ->
  exists st' order, checkType fuel t st = Some (Ret st') /\
    NoDup order /\ t ∈ checked st' /\ checked st' = checked st ∪ list_to_set order /\
    (forall x, x ∈ order -> x ∉ checked st /\ reach t x) /\
    (forall x k u, x ∈ order -> env !! x = Some k -> u ∈ succs k -> u ∈ checked st') /\
    errorCount st' = errorCount st + sum_lower order.
Proof.
  intros Hcl Ht Hf. destruct (checkType_visits fuel t st Hcl Ht Hf) as (st' & o & Hrun & [N W R C A K E]).
  exists st', o. split_and!; try done; [apply A; set_solver| |lia].
  intros x Hx. split; [by apply W|]. destruct (R x Hx) as (u & ->%list_elem_of_singleton & ?). done.
Qed.

End check.

(** ** Values *)

(** What the type says of a field of a struct. *)
Record field := mkField { f_name : string; f_exported : bool; f_embedded : bool }.

(** A variable as [reflect] shows it: a struct with its fields, a pointer, a
    scalar that holds its zero value or not, or anything else. *)
Inductive value :=
| VStruct (fields : list (field * value))
| VPtr (target : option value)
| VScalar (type_name : string) (is_zero : bool)
| VOther.

(** The number of warnings, and what was printed: only the first one is. *)
Record dstate := mkDState { d_errorCount : Z; d_printed : list string }.

Definition join_name (name field : string) : string :=
  if String.eqb name "" then field else (name +:+ "." +:+ field)%string.

(** The read-only flags of a [reflect.Value]: how it was reached through an
    unexported field.  [Field] passes on the sticky flag and drops the other
    one, which it sets for an unexported embedded field; [Elem] of a pointer
    keeps both; [Interface] panics when one is set. *)
Record flags := mkFlags { stickyRO : bool; embedRO : bool }.

Definition no_flags : flags := mkFlags false false.
Definition ro (fl : flags) : bool := stickyRO fl || embedRO fl.
Definition field_flags (f : field) (fl : flags) : flags :=
  if f_exported f then mkFlags (stickyRO fl) false
  else if f_embedded f then mkFlags (stickyRO fl) true
  else mkFlags true false.

(** [k] is [4 - depth]. *)
Fixpoint checkDefault1 (k : nat) (v : value) (fl : flags) (name : string) (st : dstate) : res dstate :=
  match k with
  | O => Ret st
  | S k =>
      match v with
      | VStruct fields =>
          for_each (fun f st => let '(f, vv) := f in
                                checkDefault1 k vv (field_flags f fl) (join_name name (f_name f)) st)
            fields st
      | VPtr None => Ret st
      | VPtr (Some v) => checkDefault1 k v fl name st
      | VScalar tname is_zero =>
          if ro fl then Panic
          else if negb is_zero then
            let what := if String.eqb name "" then tname else name in
            Ret (mkDState (d_errorCount st + 1)
                   (if d_errorCount st <? 1 then d_printed st ++ [what] else d_printed st))
          else Ret st
      | VOther => Ret st
      end
  end.

(** [nil] is not checked. *)
Definition checkDefault (v : option value) (st : dstate) : res dstate :=
  match v with None => Ret st | Some v => checkDefault1 3 v no_flags "" st end.

(** ** The wrappers around [encoding/gob]

    What is passed as an [interface{}]: its type, the variable as [reflect]
    shows it ([None] for nil) and what gob makes of it.  The type of nil has no
    entry in [env]. *)
Record iface (E : Type) := mkIface { TypeOf : type; shown : option value; content : E }.
Arguments mkIface {E}. Arguments TypeOf {E}. Arguments shown {E}. Arguments content {E}.

(** The counter is one for both checks. *)
Record package := mkPackage { pk_state : state; pk_printed : list string }.

Section wrapper.
Context (upper : string -> bool) (env : types).

(** gob's encoders, decoders and registry of types; encoding answers an error
    and the encoder, decoding an error, the decoder and the variable. *)
Context {E G R err : Type} (gob_Encode gob_EncodeValue : G -> E -> err * G) (gob_Decode : G -> E -> err * G * E)
  (gob_Register : R -> E -> res R) (gob_RegisterName : R -> string -> E -> res R).

Definition checkValue (fuel : nat) (e : iface E) (p : package) : option (res package) :=
  match checkType upper env fuel (TypeOf e) (pk_state p) with
  | Some (Ret st) => Some (Ret (mkPackage st (pk_printed p)))
  | Some Panic => Some Panic
  | None => None
  end.

(** [checkDefault] on the package's counter. *)
Definition checkDefault_in (e : iface E) (p : package) : res package :=
  let! d := checkDefault (shown e) (mkDState (errorCount (pk_state p)) (pk_printed p)) in
  Ret (mkPackage (mkState (d_errorCount d) (checked (pk_state p)) (warnings (pk_state p))) (d_printed d)).

(** After [checkValue]. *)
Definition checked_then {A} (fuel : nat) (e : iface E) (p : package) (f : package -> res A) : option (res A) :=
  match checkValue fuel e p with
  | Some (Ret p) => Some (f p)
  | Some Panic => Some Panic
  | None => None
  end.

Definition Encode (fuel : nat) (enc : G) (e : iface E) (p : package) : option (res (err * G * package)) :=
  checked_then fuel e p (fun p => Ret (gob_Encode enc (content e), p)).
Definition EncodeValue (fuel : nat) (enc : G) (e : iface E) (p : package) : option (res (err * G * package)) :=
  checked_then fuel e p (fun p => Ret (gob_EncodeValue enc (content e), p)).
Definition Decode (fuel : nat) (dec : G) (e : iface E) (p : package) : option (res (err * G * E * package)) :=
  checked_then fuel e p (fun p => let! p := checkDefault_in e p in Ret (gob_Decode dec (content e), p)).
Definition Register (fuel : nat) (reg : R) (e : iface E) (p : package) : option (res (R * package)) :=
  checked_then fuel e p (fun p => let! reg := gob_Register reg (content e) in Ret (reg, p)).
Definition RegisterName (fuel : nat) (reg : R) (name : string) (e : iface E) (p : package) : option (res (R * package)) :=
  checked_then fuel e p (fun p => let! reg := gob_RegisterName reg name (content e) in Ret (reg, p)).

End wrapper.

(** The non-default scalars down to depth 3. *)
Fixpoint nondefault (k : nat) (v : value) : Z :=
  match k with
  | O => 0
  | S k =>
      match v with
      | VStruct fields => fold_right (fun f acc => nondefault k f.2 + acc) 0 fields
      | VPtr (Some v) => nondefault k v
      | VScalar _ is_zero => if is_zero then 0 else 1
      | _ => 0
      end
  end.

(** A scalar of either value, down to depth 3, whose fields on the way make it
    read-only: an unexported field that is not embedded anywhere on the way, or
    an unexported embedded field as the last one. *)
Fixpoint hidden_scalar (k : nat) (v : value) (sticky embed : bool) : bool :=
  match k with
  | O => false
  | S k =>
      match v with
      | VStruct fields =>
          existsb (fun f => hidden_scalar k f.2 (sticky || negb (f_exported f.1 || f_embedded f.1))
                              (negb (f_exported f.1) && f_embedded f.1)) fields
      | VPtr (Some v) => hidden_scalar k v sticky embed
      | VScalar _ _ => sticky || embed
      | _ => false
      end
  end.

Lemma field_flags_ro f fl :
  field_flags f fl = mkFlags (stickyRO fl || negb (f_exported f || f_embedded f)) (negb (f_exported f) && f_embedded f).
Proof. unfold field_flags. destruct fl as [[] ?], f as [? [] []]; done. Qed.

Lemma checkDefault1_spec k v fl name st :
  if hidden_scalar k v (stickyRO fl) (embedRO fl) then checkDefault1 k v fl name st = Panic
  else exists st', checkDefault1 k v fl name st = Ret st' /\
         d_errorCount st' = d_errorCount st + nondefault k v.
Proof.
  revert v fl name st. induction k as [|k IH]; intros v fl name st; cbn; [exists st; split; [done|lia]|].
  destruct v as [fields|[v|]|tname z|]; cbn.
  - revert st. induction fields as [|[f vv] fields IHf]; intros st; cbn; [exists st; split; [done|lia]|].
    rewrite field_flags_ro.
    pose proof (IH vv (mkFlags (stickyRO fl || negb (f_exported f || f_embedded f)) (negb (f_exported f) && f_embedded f))
      (join_name name (f_name f)) st) as H1. cbn [stickyRO embedRO] in H1.
    destruct (hidden_scalar k vv _ _); cbn [orb]; [by rewrite H1|].
    destruct H1 as (st1 & -> & Hc1). cbn [rbind]. specialize (IHf st1).
    destruct (existsb _ fields); [done|]. destruct IHf as (st2 & -> & Hc2). exists st2. split; [done|lia].
  - apply IH.
  - exists st. split; [done|lia].
  - unfold ro. destruct (stickyRO fl || embedRO fl); [done|]. destruct z; cbn; [exists st|eexists]; (split; [done|cbn; lia]).
  - exists st. split; [done|lia].
Qed.

(** C35. [checkDefault] looks at three levels of the variable: it counts the
    scalars there that do not hold their zero value, and it panics exactly
    when some scalar there, whether it holds its zero value or not, is reached
    through an unexported field that is not embedded, or lies itself in an
    unexported embedded field: decoding into such a variable does not only
    warn.  Exported fields of an unexported embedded struct are checked as
    others are. *)
Theorem checkDefault_correct v st :
  if hidden_scalar 3 v false false then checkDefault (Some v) st = Panic
  else exists st', checkDefault (Some v) st = Ret st' /\ d_errorCount st' = d_errorCount st + nondefault 3 v.
Proof. apply (checkDefault1_spec 3 v no_flags). Qed.

(** ** The wrappers do not change what gob answers *)

Section transparent.
Context (upper : string -> bool) (env : types) {E G err : Type}
  (gob_Encode : G -> E -> err * G) (gob_Decode : G -> E -> err * G * E).
Context (Hcl : closed env).

(** With fuel for the types not checked yet, [checkValue] returns and goes on
    with a larger set of checked types. *)
Lemma checked_then_returns {A} fuel (e : iface E) p (f : package -> res A) :
  is_Some (env !! TypeOf e) -> (todo env (pk_state p) < fuel)%nat ->
  exists st, checked_then upper env fuel e p f = Some (f (mkPackage st (pk_printed p))) /\
    TypeOf e ∈ checked st /\ checked (pk_state p) ⊆ checked st.
Proof.
  intros Ht Hf. destruct (checkType_visits upper env fuel _ _ Hcl Ht Hf) as (st & o & Hrun & Hv).
  exists st. unfold checked_then, checkValue. rewrite Hrun. split; [done|]. split.
  - apply (v_all _ _ _ _ _ _ _ Hv). set_solver.
  - rewrite (v_checked _ _ _ _ _ _ _ Hv). set_solver.
Qed.

(** Encoding answers what gob answers. *)
Lemma Encode_transparent fuel enc (e : iface E) p :
  is_Some (env !! TypeOf e) -> (todo env (pk_state p) < fuel)%nat ->
  exists p', Encode upper env gob_Encode fuel enc e p = Some (Ret (gob_Encode enc (content e), p')).
Proof.
  intros Ht Hf. unfold Encode.
  destruct (checked_then_returns fuel e p (fun p => Ret (gob_Encode enc (content e), p)) Ht Hf) as (st & -> & _).
  by eexists.
Qed.

(** Decoding does too, or panics on a variable with a hidden scalar. *)
Lemma Decode_transparent fuel dec (e : iface E) v p :
  is_Some (env !! TypeOf e) -> (todo env (pk_state p) < fuel)%nat -> shown e = Some v ->
  if hidden_scalar 3 v false false then Decode upper env gob_Decode fuel dec e p = Some Panic
  else exists p', Decode upper env gob_Decode fuel dec e p = Some (Ret (gob_Decode dec (content e), p')).
Proof.
  intros Ht Hf Hv. unfold Decode.
  destruct (checked_then_returns fuel e p
    (fun p => let! p := checkDefault_in e p in Ret (gob_Decode dec (content e), p)) Ht Hf) as (st & -> & _).
  unfold checkDefault_in. rewrite Hv. cbn [checkDefault].
  pose proof (checkDefault1_spec 3 v no_flags ""
    (mkDState (errorCount st) (pk_printed p))) as Hd. cbn [pk_state pk_printed].
  cbn [stickyRO embedRO no_flags] in Hd. destruct (hidden_scalar 3 v false false).
  - by rewrite Hd.
  - destruct Hd as (d & -> & _). by eexists.
Qed.

End transparent.

(** ** A recursive type: [struct { Next *T; val int }] *)

Module Witness.

Definition env : types := {[0%nat := Struct "T" [("Next"%string, 1%nat); ("val"%string, 2%nat)]; 1%nat := Elem 0%nat; 2%nat := Basic]}.

Lemma env_closed : closed env.
Proof.
  intros t k u Hk Hu. unfold env in Hk. rewrite !lookup_insert_Some, lookup_singleton_Some in Hk.
  destruct Hk as [[<- <-]|[_ [[<- <-]|[_ [<- <-]]]]]; cbn in Hu;
    repeat (apply elem_of_cons in Hu as [->|Hu]; [by eexists|]); by apply elem_of_nil in Hu.
Qed.

Lemma checkType_correct_witness : exists st',
  checkType (fun _ => false) env 4 0%nat (mkState 0 ∅ []) = Some (Ret st') /\ 0%nat ∈ checked st'.
Proof.
  destruct (checkType_correct (fun _ => false) env 4 0%nat (mkState 0 ∅ [])) as (st' & o & Hr & _ & Ht & _).
  - exact env_closed.
  - by eexists.
  - apply Nat.ltb_lt. vm_compute. reflexivity.
  - exists st'. split; [exact Hr|exact Ht].
Defined.

(** [struct { embedded; hidden struct { N int } }] with
    [type embedded struct { N int }]: the first [N] only warns, the second one
    panics even though it is zero. *)
Definition n_field : field := mkField "N" true false.
Definition promoted (zero : bool) : value :=
  VStruct [(mkField "embedded" false true, VStruct [(n_field, VScalar "int" zero)])].
Definition unexported : value :=
  VStruct [(mkField "hidden" false false, VStruct [(n_field, VScalar "int" true)])].

Example promoted_warns :
  checkDefault (Some (VPtr (Some (promoted false)))) (mkDState 0 []) = Ret (mkDState 0 []) /\
  checkDefault (Some (promoted false)) (mkDState 0 []) = Ret (mkDState 1 ["embedded.N"%string]).
Proof. split; reflexivity. Qed.

Example unexported_panics : checkDefault (Some unexported) (mkDState 0 []) = Panic.
Proof. reflexivity. Qed.

End Witness.
End LabgobCheck.
