(* ===== verification/Clerks.v ===== *)
(** The clients and the servers of shardctrler/, shardkv/ and kvraft/.

    The clerks are complete and the servers are skeletons: their handlers leave
    state and reply as they are.  A clerk reaches the servers through an RPC
    interface on a world [W]; [None] means that the call never returns, a reply
    [None] that [Call] returned [false]. *)
From S2P Require Import Prelude Labgob Persister RaftState Raft.
Import Labgob Persist RaftState RaftNode.
Local Open Scope Z_scope.

Module Clerks.

(** ** shardctrler/common.go *)

Definition NShards : Z := 10.

Record Config := mkConfig {
  Num : Z;
  Shards : list Z;                  (* [NShards]int *)
  Groups : gmap Z (list string);
}.

(** The zero value; a nil map has no keys. *)
Definition zero_Config : Config := mkConfig 0 (go_make NShards 0) ∅.

Definition OK : string := "OK".
Definition ErrNoKey : string := "ErrNoKey".
Definition ErrWrongGroup : string := "ErrWrongGroup".
Definition ErrWrongLeader : string := "ErrWrongLeader".

Record JoinArgs := mkJoinArgs { Servers : gmap Z (list string) }.
Record LeaveArgs := mkLeaveArgs { GIDs : list Z }.
Record MoveArgs := mkMoveArgs { Shard : Z; GID : Z }.
Record QueryArgs := mkQueryArgs { q_Num : Z }.
(** [JoinReply], [LeaveReply] and [MoveReply] *)
Record CtrlReply := mkCtrlReply { WrongLeader : bool; c_Err : string }.
Record QueryReply := mkQueryReply { q_WrongLeader : bool; q_Err : string; q_Config : Config }.

(** ** shardkv/common.go, kvraft/common.go *)

Record PutAppendArgs := mkPutAppendArgs { pa_Key : string; pa_Value : string; pa_Op : string }.
Record PutAppendReply := mkPutAppendReply { pa_Err : string }.
Record GetArgs := mkGetArgs { g_Key : string }.
Record GetReply := mkGetReply { g_Err : string; g_Value : string }.

(** ** The calls that the clerks make

    [end_] is a [*labrpc.ClientEnd]; [make_end] comes from the tests. *)
Class Rpc (W end_ : Type) := {
  make_end : string -> end_;
  call_Join : end_ -> JoinArgs -> W -> option (W * option CtrlReply);
  call_Leave : end_ -> LeaveArgs -> W -> option (W * option CtrlReply);
  call_Move : end_ -> MoveArgs -> W -> option (W * option CtrlReply);
  call_Query : end_ -> QueryArgs -> W -> option (W * option QueryReply);
  call_Get : end_ -> GetArgs -> W -> option (W * option GetReply);
  call_PutAppend : end_ -> PutAppendArgs -> W -> option (W * option PutAppendReply);
}.

(** How a pass over some servers ends: with a reply that is accepted, at a
    [break], or after the last server. *)
Inductive verdict := Accept | Break | Next.

Section passes.
Context {W end_ R : Type}.

Fixpoint pass (rpc : end_ -> W -> option (W * option R)) (judge : R -> verdict) (servers : list end_) (w : W)
    : option (W * option R) :=
  match servers with
  | [] => Some (w, None)
  | srv :: servers =>
      match rpc srv w with
      | None => None
      | Some (w, None) => pass rpc judge servers w
      | Some (w, Some reply) =>
          match judge reply with
          | Accept => Some (w, Some reply)
          | Break => Some (w, None)
          | Next => pass rpc judge servers w
          end
      end
  end.

(** [for { ... }] around the passes over all the servers; [None] also when the
    fuel runs out. *)
Fixpoint retry (fuel : nat) (rpc : end_ -> W -> option (W * option R)) (judge : R -> verdict)
    (servers : list end_) (w : W) : option (W * R) :=
  match fuel with
  | O => None
  | S fuel =>
      match pass rpc judge servers w with
      | None => None
      | Some (w, Some reply) => Some (w, reply)
      | Some (w, None) => retry fuel rpc judge servers w
      end
  end.

End passes.

Definition leader_only (wrong : bool) : verdict := if negb wrong then Accept else Next.

Section clerks.
Context {W end_ : Type} `{!Rpc W end_}.

(** ** shardctrler/client.go *)

Definition Query (fuel : nat) (servers : list end_) (num : Z) (w : W) : option (W * Config) :=
  match retry fuel (fun srv => call_Query srv (mkQueryArgs num)) (fun r => leader_only (q_WrongLeader r)) servers w with
  | Some (w, r) => Some (w, q_Config r)
  | None => None
  end.

Definition Join (fuel : nat) (servers : list end_) (groups : gmap Z (list string)) (w : W) : option W :=
  fst <$> retry fuel (fun srv => call_Join srv (mkJoinArgs groups)) (fun r => leader_only (WrongLeader r)) servers w.
Definition Leave (fuel : nat) (servers : list end_) (gids : list Z) (w : W) : option W :=
  fst <$> retry fuel (fun srv => call_Leave srv (mkLeaveArgs gids)) (fun r => leader_only (WrongLeader r)) servers w.
Definition Move (fuel : nat) (servers : list end_) (shard gid : Z) (w : W) : option W :=
  fst <$> retry fuel (fun srv => call_Move srv (mkMoveArgs shard gid)) (fun r => leader_only (WrongLeader r)) servers w.

(** ** shardkv/client.go *)

Definition key2shard (key : string) : Z :=
  let shard := match key with
               | EmptyString => 0
               | String a _ => Z.of_N (Ascii.N_of_ascii a)
               end in
  Z.rem shard NShards.

Record Clerk := mkClerk { sm : list end_; config : Config }.

(** The clerk before its first query: [config] is the zero value. *)
Definition MakeClerk (ctrlers : list end_) : Clerk := mkClerk ctrlers zero_Config.

Definition get_verdict (r : GetReply) : verdict :=
  if String.eqb (g_Err r) OK || String.eqb (g_Err r) ErrNoKey then Accept
  else if String.eqb (g_Err r) ErrWrongGroup then Break
  else Next.

Definition put_verdict (r : PutAppendReply) : verdict :=
  if String.eqb (pa_Err r) OK then Accept
  else if String.eqb (pa_Err r) ErrWrongGroup then Break
  else Next.

(** One iteration of the loops of [Get] and [PutAppend], up to the sleep. *)
Definition attempt {R} (rpc : end_ -> W -> option (W * option R)) (judge : R -> verdict) (key : string)
    (ck : Clerk) (w : W) : option (res (W * option R)) :=
  match go_index (Shards (config ck)) (key2shard key) with
  | Panic => Some Panic
  | Ret gid =>
      match Groups (config ck) !! gid with
      | Some servers =>
          match pass rpc judge (make_end <$> servers) w with
          | None => None
          | Some r => Some (Ret r)
          end
      | None => Some (Ret (w, None))
      end
  end.

(** The fuel bounds the iterations and those of every [Query]. *)
Fixpoint route {R} (fuel : nat) (rpc : end_ -> W -> option (W * option R)) (judge : R -> verdict) (key : string)
    (ck : Clerk) (w : W) : option (res (W * Clerk * R)) :=
  match fuel with
  | O => None
  | S fuel =>
      match attempt rpc judge key ck w with
      | None => None
      | Some Panic => Some Panic
      | Some (Ret (w, Some reply)) => Some (Ret (w, ck, reply))
      | Some (Ret (w, None)) =>
          match Query fuel (sm ck) (-1) w with
          | None => None
          | Some (w, c) => route fuel rpc judge key (mkClerk (sm ck) c) w
          end
      end
  end.

Definition Get (fuel : nat) (key : string) (ck : Clerk) (w : W) : option (res (W * Clerk * string)) :=
  match route fuel (fun srv => call_Get srv (mkGetArgs key)) get_verdict key ck w with
  | None => None
  | Some r => Some (rmap (fun x => (x.1, g_Value x.2)) r)
  end.

Definition PutAppend (fuel : nat) (key value op : string) (ck : Clerk) (w : W) : option (res (W * Clerk)) :=
  match route fuel (fun srv => call_PutAppend srv (mkPutAppendArgs key value op)) put_verdict key ck w with
  | None => None
  | Some r => Some (rmap fst r)
  end.

Definition Put (fuel : nat) (key value : string) := PutAppend fuel key value "Put".
Definition Append (fuel : nat) (key value : string) := PutAppend fuel key value "Append".

(** ** kvraft/client.go: not implemented *)

Definition kvraft_Get (key : string) : string := "".
Definition kvraft_PutAppend (key value op : string) (w : W) : W := w.
Definition kvraft_Put (key value : string) (w : W) : W := kvraft_PutAppend key value "Put" w.
Definition kvraft_Append (key value : string) (w : W) : W := kvraft_PutAppend key value "Append" w.

End clerks.

(** ** The servers: shardctrler/server.go, shardkv/server.go, kvraft/server.go *)

Section servers.
Context {Cmd : Type} `{!Gob (gval Cmd)}.

Record ShardCtrler := mkShardCtrler { sc_me : Z; sc_rf : Raft Cmd; configs : list Config }.

Definition ctrl_Join (args : JoinArgs) (reply : CtrlReply) (sc : ShardCtrler) : ShardCtrler * CtrlReply := (sc, reply).
Definition ctrl_Leave (args : LeaveArgs) (reply : CtrlReply) (sc : ShardCtrler) : ShardCtrler * CtrlReply := (sc, reply).
Definition ctrl_Move (args : MoveArgs) (reply : CtrlReply) (sc : ShardCtrler) : ShardCtrler * CtrlReply := (sc, reply).
Definition ctrl_Query (args : QueryArgs) (reply : QueryReply) (sc : ShardCtrler) : ShardCtrler * QueryReply := (sc, reply).

Definition ctrl_Kill (sc : ShardCtrler) : ShardCtrler := mkShardCtrler (sc_me sc) (Kill (sc_rf sc)) (configs sc).
Definition ctrl_Raft (sc : ShardCtrler) : Raft Cmd := sc_rf sc.

Definition ctrl_StartServer (peers me : Z) (ps : Persister) (now r : Z) : ShardCtrler :=
  mkShardCtrler me (Make peers me ps now r) [zero_Config].

Record ShardKV := mkShardKV { kv_me : Z; kv_rf : Raft Cmd; gid : Z; maxraftstate : Z }.

Definition kv_Get (args : GetArgs) (reply : GetReply) (kv : ShardKV) : ShardKV * GetReply := (kv, reply).
Definition kv_PutAppend (args : PutAppendArgs) (reply : PutAppendReply) (kv : ShardKV) : ShardKV * PutAppendReply :=
  (kv, reply).
Definition kv_Kill (kv : ShardKV) : ShardKV := mkShardKV (kv_me kv) (Kill (kv_rf kv)) (gid kv) (maxraftstate kv).
Definition kv_StartServer (peers me : Z) (ps : Persister) (maxraftstate gid now r : Z) : ShardKV :=
  mkShardKV me (Make peers me ps now r) gid maxraftstate.

Record KVServer := mkKVServer { kr_me : Z; kr_rf : Raft Cmd; kr_dead : Z; kr_maxraftstate : Z }.

Definition kvraft_server_Get (args : GetArgs) (reply : GetReply) (kv : KVServer) : KVServer * GetReply := (kv, reply).
Definition kvraft_server_PutAppend (args : PutAppendArgs) (reply : PutAppendReply) (kv : KVServer)
    : KVServer * PutAppendReply := (kv, reply).
Definition kvraft_Kill (kv : KVServer) : KVServer := mkKVServer (kr_me kv) (Kill (kr_rf kv)) 1 (kr_maxraftstate kv).
Definition kvraft_killed (kv : KVServer) : bool := kr_dead kv =? 1.
Definition StartKVServer (peers me : Z) (ps : Persister) (maxraftstate now r : Z) : KVServer :=
  mkKVServer me (Make peers me ps now r) 0 maxraftstate.

End servers.
End Clerks.
