(* ===== verification/ClerksSpec.v ===== *)
(** What the clerks of shardctrler/ and shardkv/ promise over any RPC interface,
    and what they do against the skeleton servers. *)
From S2P Require Import Prelude Labgob Persister RaftState Raft Clerks.
Import Labgob Persist RaftState RaftNode Clerks.
Local Open Scope Z_scope.

Module ClerksSpec.

(** ** Shards *)

Lemma key2shard_range key : 0 <= key2shard key < NShards.
Proof.
  unfold key2shard, NShards. destruct key as [|a key]; [done|].
  apply Z.rem_bound_pos; lia.
Qed.

Lemma shard_in_range c key : len (Shards c) = NShards -> exists gid, go_index (Shards c) (key2shard key) = Ret gid.
Proof.
  intros Hl. destruct (go_index_in (Shards c) (key2shard key)) as (gid & Hg & _); [|by exists gid].
  rewrite Hl. apply key2shard_range.
Qed.

(** ** Passes over servers *)

Section passes.
Context {W end_ R : Type} (rpc : end_ -> W -> option (W * option R)) (judge : R -> verdict).

Lemma pass_accepted servers w w' reply :
  pass rpc judge servers w = Some (w', Some reply) ->
  exists srv w0, srv ∈ servers /\ rpc srv w0 = Some (w', Some reply) /\ judge reply = Accept.
Proof.
  revert w. induction servers as [|srv servers IH]; intros w; cbn; [done|].
  destruct (rpc srv w) as [[w1 [r|]]|] eqn:Hrpc; [|intros Hp; destruct (IH _ Hp) as (s & w0 & ? & ?); exists s, w0; set_solver|done].
  destruct (judge r) eqn:Hj.
  - intros [= <- <-]. exists srv, w. set_solver.
  - done.
  - intros Hp. destruct (IH _ Hp) as (s & w0 & ? & ?). exists s, w0. set_solver.
Qed.

Lemma retry_accepted fuel servers w w' reply :
  retry fuel rpc judge servers w = Some (w', reply) ->
  exists srv w0, srv ∈ servers /\ rpc srv w0 = Some (w', Some reply) /\ judge reply = Accept.
Proof.
  revert w. induction fuel as [|fuel IH]; intros w; cbn; [done|].
  destruct (pass rpc judge servers w) as [[w1 [r|]]|] eqn:Hp; [|apply IH|done].
  intros [= <- <-]. by eapply pass_accepted.
Qed.

(** [Inv] says what the servers keep to. *)
Context (Inv : W -> Prop).

Definition returns (srv : end_) : Prop := forall w, Inv w -> exists w' o, rpc srv w = Some (w', o) /\ Inv w'.
Definition accepting (srv : end_) : Prop :=
  forall w w' o, Inv w -> rpc srv w = Some (w', o) -> exists r, o = Some r /\ judge r = Accept.
Definition no_break (srv : end_) : Prop :=
  forall w w' r, Inv w -> rpc srv w = Some (w', Some r) -> judge r <> Break.

Lemma pass_returns servers w :
  (forall srv, srv ∈ servers -> returns srv) -> Inv w ->
  exists w' o, pass rpc judge servers w = Some (w', o) /\ Inv w'.
Proof.
  intros Hret. revert w. induction servers as [|srv servers IH]; intros w Hw; cbn; [by eauto|].
  destruct (Hret srv ltac:(set_solver) w Hw) as (w1 & o & -> & Hw1).
  assert (exists w' o, pass rpc judge servers w1 = Some (w', o) /\ Inv w') as Hrest
    by (apply IH; [intros; apply Hret; set_solver|done]).
  destruct o as [r|]; [|done]. destruct (judge r); [by eauto..|done].
Qed.

Lemma pass_accepts servers w :
  (forall srv, srv ∈ servers -> returns srv) -> (forall srv, srv ∈ servers -> no_break srv) ->
  (exists srv, srv ∈ servers /\ accepting srv) -> Inv w ->
  exists w' reply srv w0, pass rpc judge servers w = Some (w', Some reply) /\ Inv w' /\
    srv ∈ servers /\ Inv w0 /\ rpc srv w0 = Some (w', Some reply) /\ judge reply = Accept.
Proof.
  intros Hret Hnb Hacc. revert w. induction servers as [|srv servers IH]; intros w Hw; [set_solver|]. cbn.
  destruct (Hret srv ltac:(set_solver) w Hw) as (w1 & o & Hrpc & Hw1). rewrite Hrpc.
  assert ((exists s, s ∈ servers /\ accepting s) ->
    exists w' reply s w0, pass rpc judge servers w1 = Some (w', Some reply) /\ Inv w' /\
      s ∈ srv :: servers /\ Inv w0 /\ rpc s w0 = Some (w', Some reply) /\ judge reply = Accept) as Hrest.
  { intros Hs. destruct (IH (fun s H => Hret s (list_elem_of_further _ _ _ H))
      (fun s H => Hnb s (list_elem_of_further _ _ _ H)) Hs w1 Hw1) as (w' & r & s & w0 & ? & ? & ? & ? & ? & ?).
    exists w', r, s, w0. split_and!; try done. by right. }
  destruct Hacc as (s & [->|Hs]%elem_of_cons & Hacc).
  - destruct (Hacc w w1 o Hw Hrpc) as (r & -> & Hr). rewrite Hr. exists w1, r, srv, w. split_and!; try done. by left.
  - specialize (Hrest (ex_intro _ s (conj Hs Hacc))). destruct o as [r|]; [|done].
    specialize (Hnb srv ltac:(set_solver) w w1 r Hw Hrpc).
    destruct (judge r) eqn:Hj; [|done|done]. exists w1, r, srv, w. split_and!; try done. by left.
Qed.

End passes.

Section clerks.
Context {W end_ : Type} `{!Rpc W end_}.

(** A configuration that the controller gave out. *)
Definition queried (ctrlers : list end_) (c : Config) : Prop :=
  exists srv w w' r, srv ∈ ctrlers /\ call_Query srv (mkQueryArgs (-1)) w = Some (w', Some r) /\
    q_WrongLeader r = false /\ q_Config r = c.

Lemma Query_queried fuel ctrlers w w' c : Query fuel ctrlers (-1) w = Some (w', c) -> queried ctrlers c.
Proof.
  unfold Query. destruct (retry _ _ _ _ _) as [[w1 r]|] eqn:Hr; [|done]. intros [= <- <-].
  apply retry_accepted in Hr as (srv & w0 & Hs & Hc & Hj). exists srv, w0, w1, r. split_and!; [done|done| |done].
  revert Hj. unfold leader_only. by destruct (q_WrongLeader r).
Qed.

Lemma route_accepted {R} fuel (rpc : end_ -> W -> option (W * option R)) judge key ck w w' ck' reply :
  route fuel rpc judge key ck w = Some (Ret (w', ck', reply)) ->
  (config ck' = config ck \/ queried (sm ck) (config ck')) /\ sm ck' = sm ck /\
  exists gid servers name w0, go_index (Shards (config ck')) (key2shard key) = Ret gid /\
    Groups (config ck') !! gid = Some servers /\ name ∈ servers /\
    rpc (make_end name) w0 = Some (w', Some reply) /\ judge reply = Accept.
Proof.
  revert ck w. induction fuel as [|fuel IH]; intros ck w; cbn; [done|]. unfold attempt.
  destruct (go_index (Shards (config ck)) (key2shard key)) as [gid|] eqn:Hg; [|done].
  assert (forall w1, match Query fuel (sm ck) (-1) w1 with
      | Some (w, c) => route fuel rpc judge key (mkClerk (sm ck) c) w | None => None end = Some (Ret (w', ck', reply)) ->
    (config ck' = config ck \/ queried (sm ck) (config ck')) /\ sm ck' = sm ck /\
    exists gid servers name w0, go_index (Shards (config ck')) (key2shard key) = Ret gid /\
      Groups (config ck') !! gid = Some servers /\ name ∈ servers /\
      rpc (make_end name) w0 = Some (w', Some reply) /\ judge reply = Accept) as Hagain.
  { intros w1. destruct (Query fuel (sm ck) (-1) w1) as [[w2 c]|] eqn:Hq; [|done]. apply Query_queried in Hq.
    intros (Hc & Hsm & Hrest)%IH. cbn in Hc, Hsm. split; [|done]. right. by destruct Hc as [->|]. }
  destruct (Groups (config ck) !! gid) as [servers|] eqn:Hgr; [|apply Hagain].
  destruct (pass rpc judge (make_end <$> servers) w) as [[w1 [r|]]|] eqn:Hp; [|apply Hagain|done].
  intros [= <- <- <-]. split; [by left|]. split; [done|].
  apply pass_accepted in Hp as (srv & w0 & (name & -> & Hn)%list_elem_of_fmap & Hc & Hj). by exists gid, servers, name, w0.
Qed.

(** C36. [Get] only returns what an owner of the key said: the value comes from a
    reply with [OK] or [ErrNoKey] of a server in the group that the clerk's
    final configuration assigns to the key's shard, and that configuration is
    the one the clerk had before (its zero value, which has no groups, or what
    an earlier [Get] or [PutAppend] left), or one that a controller leader gave
    it. *)
Theorem Get_from_owner fuel key ck w w' ck' v :
  Get fuel key ck w = Some (Ret (w', ck', v)) ->
  (config ck' = config ck \/ queried (sm ck) (config ck')) /\
  exists gid servers name w0 reply, go_index (Shards (config ck')) (key2shard key) = Ret gid /\
    Groups (config ck') !! gid = Some servers /\ name ∈ servers /\
    call_Get (make_end name) (mkGetArgs key) w0 = Some (w', Some reply) /\
    (g_Err reply = OK \/ g_Err reply = ErrNoKey) /\ g_Value reply = v.
Proof.
  unfold Get. destruct (route _ _ _ _ _ _) as [[[[w1 ck1] reply]|]|] eqn:Hr; [|done|done].
  intros [= <- <- <-]. apply route_accepted in Hr as (Hc & _ & gid & servers & name & w0 & Hg & Hgr & Hn & Hcall & Hj).
  split; [done|]. exists gid, servers, name, w0, reply. split_and!; try done.
  revert Hj. unfold get_verdict. destruct (String.eqb_spec (g_Err reply) OK); [by left|].
  destruct (String.eqb_spec (g_Err reply) ErrNoKey); [by right|]. cbn. by case_cond.
Qed.

(** ** A system that has settled on a configuration *)

Record settled (Inv : W -> Prop) (ctrlers : list end_) (c : Config) : Prop := {
  st_shards : len (Shards c) = NShards;
  st_query : forall srv w, srv ∈ ctrlers -> Inv w -> exists w' o,
    call_Query srv (mkQueryArgs (-1)) w = Some (w', o) /\ Inv w' /\
    forall r, o = Some r -> q_WrongLeader r = false -> q_Config r = c;
  st_leader : exists srv, srv ∈ ctrlers /\ forall w w' o, Inv w ->
    call_Query srv (mkQueryArgs (-1)) w = Some (w', o) -> exists r, o = Some r /\ q_WrongLeader r = false;
}.

Lemma Query_settled Inv ctrlers c fuel w :
  settled Inv ctrlers c -> Inv w -> exists w', Query (S fuel) ctrlers (-1) w = Some (w', c) /\ Inv w'.
Proof.
  intros [_ Hq (srv & Hs & Hl)] Hw. unfold Query. cbn [retry].
  set (rpc := fun srv => call_Query srv (mkQueryArgs (-1))). set (judge := fun r => leader_only (q_WrongLeader r)).
  assert (forall s, s ∈ ctrlers -> no_break rpc judge Inv s) as Hnb
    by (intros s _ w1 w2 r _ _; unfold judge, leader_only; by case_cond).
  assert (accepting rpc judge Inv srv) as Hacc.
  { intros w1 w2 o Hw1 Hc. destruct (Hl w1 w2 o Hw1 Hc) as (r & -> & Hr). exists r. split; [done|].
    unfold judge, leader_only. by rewrite Hr. }
  destruct (pass_accepts rpc judge Inv ctrlers w) as (w' & reply & s & w0 & Hp & Hw' & Hin & Hw0 & Hc & Hj);
    [|done|by exists srv|done|].
  { intros s Hin w1 Hw1. destruct (Hq s w1 Hin Hw1) as (w2 & o & ? & ? & _). by exists w2, o. }
  rewrite Hp. exists w'. split; [|done]. do 2 f_equal.
  destruct (Hq s w0 Hin Hw0) as (w2 & o & Hc' & _ & Hconf). unfold rpc in Hc. rewrite Hc in Hc'. injection Hc' as <- <-.
  apply (Hconf reply); [done|]. revert Hj. unfold judge, leader_only. by destruct (q_WrongLeader reply).
Qed.

(** The owners of a key under [c] serve it. *)
Record served (Inv : W -> Prop) (c : Config) (key : string) : Prop := {
  sv_total : forall name w, Inv w -> exists w' o, call_Get (make_end name) (mkGetArgs key) w = Some (w', o) /\ Inv w';
  sv_owner : exists gid servers, go_index (Shards c) (key2shard key) = Ret gid /\ Groups c !! gid = Some servers /\
    (forall name w w' r, name ∈ servers -> Inv w ->
       call_Get (make_end name) (mkGetArgs key) w = Some (w', Some r) -> g_Err r <> ErrWrongGroup) /\
    exists name, name ∈ servers /\ forall w w' o, Inv w ->
      call_Get (make_end name) (mkGetArgs key) w = Some (w', o) ->
      exists r, o = Some r /\ (g_Err r = OK \/ g_Err r = ErrNoKey);
}.

(** C37. [Get] returns: once the controllers agree on a configuration whose
    owner group serves the key, a clerk with any outdated configuration gets
    a value after at most one query, without an index out of range, as long
    as no call blocks. *)
Theorem Get_returns Inv ctrlers c key fuel ck w :
  settled Inv ctrlers c -> served Inv c key -> sm ck = ctrlers -> len (Shards (config ck)) = NShards -> Inv w ->
  exists w' ck' v, Get (S (S fuel)) key ck w = Some (Ret (w', ck', v)) /\ Inv w'.
Proof.
  intros Hset [Htot (gid & servers & Hgid & Hgr & Hnb & name & Hname & Hacc)] Hsm Hlen Hw.
  set (rpc := fun srv => call_Get srv (mkGetArgs key)).
  assert (forall w, Inv w -> exists w' r, attempt rpc get_verdict key (mkClerk ctrlers c) w = Some (Ret (w', Some r)) /\ Inv w')
    as Hlast.
  { intros w1 Hw1. unfold attempt. cbn [config]. rewrite Hgid, Hgr.
    destruct (pass_accepts rpc get_verdict Inv (make_end <$> servers) w1) as (w' & r & _ & _ & -> & Hw' & _); [| | |done|by eauto].
    - intros srv (nm & -> & _)%list_elem_of_fmap w2 Hw2. by apply Htot.
    - intros srv (nm & -> & Hnm)%list_elem_of_fmap w2 w3 r Hw2 Hc. unfold get_verdict.
      case_cond; [done|]. destruct (String.eqb_spec (g_Err r) ErrWrongGroup); [|done].
      exfalso. by eapply Hnb.
    - exists (make_end name). split; [by apply list_elem_of_fmap_2|]. intros w2 w3 o Hw2 Hc.
      destruct (Hacc w2 w3 o Hw2 Hc) as (r & -> & Hr). exists r. split; [done|]. unfold get_verdict.
      destruct Hr as [->| ->]; done. }
  assert (exists w1 o, attempt rpc get_verdict key ck w = Some (Ret (w1, o)) /\ Inv w1) as (w1 & o & Hatt & Hw1).
  { unfold attempt. destruct (shard_in_range (config ck) key Hlen) as [g ->].
    destruct (Groups (config ck) !! g) as [srvs|]; [|by eauto].
    destruct (pass_returns rpc get_verdict Inv (make_end <$> srvs) w) as (w1 & o & -> & ?); [|done|by eauto].
    intros srv (nm & -> & _)%list_elem_of_fmap w2 Hw2. by apply Htot. }
  unfold Get. cbn [route]. fold rpc. rewrite Hatt. destruct o as [r|]; [by eauto|].
  rewrite Hsm. destruct (Query_settled Inv ctrlers c fuel w1 Hset Hw1) as (w2 & -> & Hw2).
  destruct (Hlast w2 Hw2) as (w3 & r & Hatt' & Hw3). rewrite Hatt'. by eauto.
Qed.

(** ** Against the skeletons *)

(** Every controller call runs the empty handler of [ShardCtrler.Query], on a
    fresh reply. *)
Definition skeleton_controllers {Cmd : Type} (sc : ShardCtrler (Cmd := Cmd)) : Prop :=
  forall (srv : end_) args w w' r, call_Query srv args w = Some (w', Some r) ->
    r = (ctrl_Query args (mkQueryReply false "" zero_Config) sc).2.

(** Against the servers as they are in the repository a shardkv clerk never
    gets anywhere: the controllers answer with an empty configuration, so
    [Get], [Put] and [Append] send no request to any group and never return,
    whatever the network does. *)
Theorem skeleton_never_answers {Cmd : Type} (sc : ShardCtrler (Cmd := Cmd)) ctrlers key value op fuel w :
  skeleton_controllers sc ->
  Get fuel key (MakeClerk ctrlers) w = None /\ PutAppend fuel key value op (MakeClerk ctrlers) w = None.
Proof.
  intros Hsk.
  assert (forall f w w' c, Query f ctrlers (-1) w = Some (w', c) -> c = zero_Config) as Hq.
  { intros f w1 w2 c Hq. apply Query_queried in Hq as (srv & w3 & w4 & r & _ & Hc & _ & <-). by rewrite (Hsk _ _ _ _ _ Hc). }
  assert (forall R rpc (judge : R -> verdict) w, route fuel rpc judge key (MakeClerk ctrlers) w = None) as Hnone.
  { intros R rpc judge. induction fuel as [|f IH]; intros w1; [done|]. cbn [route]. unfold attempt.
    destruct (shard_in_range (config (MakeClerk ctrlers)) key) as [gid ->]; [done|].
    change (Groups (config (MakeClerk ctrlers)) !! gid) with ((∅ : gmap Z (list string)) !! gid).
    rewrite lookup_empty. change (sm (MakeClerk ctrlers)) with ctrlers.
    destruct (Query f ctrlers (-1) w1) as [[w2 c]|] eqn:E; [|done]. rewrite (Hq _ _ _ _ E). apply IH. }
  unfold Get, PutAppend. by rewrite !Hnone.
Qed.

End clerks.

(** ** A concrete system

    Two controllers, of which the second leads, and one group of two servers,
    of which the first is down.  The world counts the calls. *)

Module Witness.

Inductive host := Ctrl (i : nat) | Srv (name : string).

Definition conf : Config := mkConfig 3 (go_make NShards 100) {[100 := ["x"; "y"]]}.

#[local] Instance demo : Rpc nat host := {|
  make_end := Srv;
  call_Join := fun _ _ w => Some (S w, None);
  call_Leave := fun _ _ w => Some (S w, None);
  call_Move := fun _ _ w => Some (S w, None);
  call_Query := fun srv _ w => Some (S w, Some (match srv with
                                                | Ctrl 1 => mkQueryReply false "OK" conf
                                                | _ => mkQueryReply true "" zero_Config
                                                end));
  call_Get := fun srv _ w => Some (S w, match srv with Srv "y" => Some (mkGetReply "OK" "v") | _ => None end);
  call_PutAppend := fun _ _ w => Some (S w, None);
|}.

Definition ctrlers : list host := [Ctrl 0; Ctrl 1].

Lemma demo_settled : settled (fun _ => True) ctrlers conf.
Proof.
  split.
  - reflexivity.
  - intros srv w Hs _. eexists _, _. split; [reflexivity|]. split; [exact I|]. intros r [= <-].
    destruct srv as [[|[|i]]|]; done.
  - exists (Ctrl 1). split; [set_solver|]. intros w w' o _ [= <- <-]. by eexists.
Qed.

Lemma demo_served : served (fun _ => True) conf "key".
Proof.
  split.
  - intros name w _. by eexists _, _.
  - exists 100, ["x"; "y"]. split_and!; [reflexivity|reflexivity| |].
    + intros name w w' r [->|[->|Hn]%elem_of_cons]%elem_of_cons _; [discriminate|by intros [= <- <-]|set_solver].
    + exists "y". split; [set_solver|]. intros w w' o _ [= <- <-]. eexists. split; [reflexivity|]. by left.
Qed.

Lemma Get_returns_witness : exists w' ck' v,
  Get 2 "key" (MakeClerk ctrlers) 0%nat = Some (Ret (w', ck', v)).
Proof.
  destruct (Get_returns (fun _ => True) ctrlers conf "key" 0 (MakeClerk ctrlers) 0%nat) as (w' & ck' & v & Hr & _).
  - exact demo_settled.
  - exact demo_served.
  - reflexivity.
  - reflexivity.
  - exact I.
  - exists w', ck', v. exact Hr.
Defined.

Lemma Get_from_owner_witness : exists gid servers,
  go_index (Shards conf) (key2shard "key") = Ret gid /\ Groups conf !! gid = Some servers.
Proof.
  destruct (Get_from_owner 2 "key" (MakeClerk ctrlers) 0%nat 4%nat (mkClerk ctrlers conf) "v")
    as (_ & gid & servers & name & w0 & reply & Hg & Hgr & _).
  - vm_compute. reflexivity.
  - exists gid, servers. split; [exact Hg|exact Hgr].
Defined.

#[local] Instance skeleton : Rpc nat host := {|
  make_end := Srv;
  call_Join := fun _ _ w => Some (S w, None);
  call_Leave := fun _ _ w => Some (S w, None);
  call_Move := fun _ _ w => Some (S w, None);
  call_Query := fun _ _ w => Some (S w, Some (mkQueryReply false "" zero_Config));
  call_Get := fun _ _ w => Some (S w, None);
  call_PutAppend := fun _ _ w => Some (S w, None);
|}.

#[local] Instance Z_Gob : Gob (gval Z) := countable_Gob (gval Z).

Lemma skeleton_never_answers_witness :
  Get (Rpc0 := skeleton) 50 "key" (MakeClerk ctrlers) 0%nat = None.
Proof.
  apply (skeleton_never_answers (Rpc0 := skeleton) (ctrl_StartServer (Cmd := Z) 3 0 MakePersister 0 0) ctrlers "key" "v" "Put" 50 0%nat).
  intros srv args w w' r [= <- <-]. reflexivity.
Defined.

End Witness.
End ClerksSpec.
