(* ===== verification/KvHarness.v ===== *)
(** The harness of the tests of kvraft/config.go: the servers, the connections
    between them, the clerks, partitions, shutdown and restart.

    shardctrler/config.go is a copy of that file for another type of servers,
    so the harness is written for any server behind the class [KvServer];
    CtrlHarness.v takes it at [ShardCtrler]. *)
From Stdlib Require Import Strings.Ascii.
From S2P Require Import Prelude Labgob Persister RaftState Raft Labrpc Clerks.
Import Labgob Persist RaftState RaftNode.
Local Open Scope Z_scope.

Module KvHarness.

(** ** Random names and orders *)

(** The alphabet of [base64.URLEncoding]. *)
Definition url_alphabet : string := "ABCDEFGHIJKLMNOPQRSTUVWXYZabcdefghijklmnopqrstuvwxyz0123456789-_".

Definition url_char (d : Z) : ascii := default "A"%char (String.get (Z.to_nat d) url_alphabet).

(** [EncodeToString]: groups of six bits, padded with [=]. *)
Fixpoint EncodeToString (b : list Z) : string :=
  match b with
  | [] => ""
  | [x] => String (url_char (Z.shiftr x 2)) (String (url_char (Z.shiftl (Z.land x 3) 4)) "==")
  | [x; y] =>
      String (url_char (Z.shiftr x 2))
        (String (url_char (Z.lor (Z.shiftl (Z.land x 3) 4) (Z.shiftr y 4)))
           (String (url_char (Z.shiftl (Z.land y 15) 2)) "="))
  | x :: y :: z :: b =>
      String (url_char (Z.shiftr x 2))
        (String (url_char (Z.lor (Z.shiftl (Z.land x 3) 4) (Z.shiftr y 4)))
           (String (url_char (Z.lor (Z.shiftl (Z.land y 15) 2) (Z.shiftr z 6)))
              (String (url_char (Z.land z 63)) (EncodeToString b))))
  end.

(** [rand] are the [2*n] bytes that [crand.Read] delivers. *)
Definition randstring (rand : list Z) (n : Z) : res string :=
  let b := take (Z.to_nat (2 * n)) rand in
  let s := EncodeToString b in
  Labrpc.str_to s n.

Definition swap {A} (l : list A) (i j : Z) : res (list A) :=
  let! x := go_index l i in
  let! y := go_index l j in
  let! l := go_set l i y in
  go_set l j x.

(** The random number of step [i] is [rand i], of which [Intn] takes the
    remainder. *)
Definition random_handles {A} (rand : Z -> Z) (kvh : list A) : res (list A) :=
  for_each (fun i sa => let j := rand i mod (i + 1) in swap sa i j) (upto (len kvh)) kvh.

(** ** The servers under test *)

Class KvServer (Cmd S : Type) `{!Gob (gval Cmd)} := {
  rf : S -> Raft Cmd;
  server_Kill : S -> S;
  (** peers, me, persister, maxraftstate, time, random number *)
  server_Start : Z -> Z -> Persister -> Z -> Z -> Z -> S;
  rf_Kill : forall s, rf (server_Kill s) = Kill (rf s);
  rf_Start : forall peers me ps maxraftstate now r,
    rf (server_Start peers me ps maxraftstate now r) = Make peers me ps now r;
}.

#[export] Program Instance KVServer_server {Cmd} `{!Gob (gval Cmd)} : KvServer Cmd (Clerks.KVServer (Cmd := Cmd)) := {|
  rf := Clerks.kr_rf;
  server_Kill := Clerks.kvraft_Kill;
  server_Start := fun peers me ps maxraftstate now r => Clerks.StartKVServer peers me ps maxraftstate now r;
|}.
Solve All Obligations with done.

#[export] Program Instance ShardCtrler_server {Cmd} `{!Gob (gval Cmd)} : KvServer Cmd (Clerks.ShardCtrler (Cmd := Cmd)) := {|
  rf := Clerks.sc_rf;
  server_Kill := Clerks.ctrl_Kill;
  server_Start := fun peers me ps _ now r => Clerks.ctrl_StartServer peers me ps now r;
|}.
Solve All Obligations with done.

(** ** The configuration

    A clerk is known by its address.  [saved] is a pointer that a running
    server shares: while [kvservers[i]] is not nil, the contents of [saved[i]]
    are the persister of its peer. *)
Record config {S : Type} := mkConfig {
  net : Labrpc.Network;
  n : Z;
  kvservers : list (option S);
  saved : list (option Persister);
  endnames : list (option (list string));
  clerks : gmap nat (list string);
  nextClientId : Z;
  maxraftstate : Z;
  next_server : nat;
  next_clerk : nat;
}.
Arguments config : clear implicits.
Arguments mkConfig {S}.

Section config.
Context {Cmd S : Type} `{!Gob (gval Cmd)} `{!KvServer Cmd S}.
Implicit Types cfg : config S.

Definition set_net x cfg : config S :=
  mkConfig x (n cfg) (kvservers cfg) (saved cfg) (endnames cfg) (clerks cfg) (nextClientId cfg)
    (maxraftstate cfg) (next_server cfg) (next_clerk cfg).
Definition set_kvservers x cfg : config S :=
  mkConfig (net cfg) (n cfg) x (saved cfg) (endnames cfg) (clerks cfg) (nextClientId cfg)
    (maxraftstate cfg) (next_server cfg) (next_clerk cfg).
Definition set_saved x cfg : config S :=
  mkConfig (net cfg) (n cfg) (kvservers cfg) x (endnames cfg) (clerks cfg) (nextClientId cfg)
    (maxraftstate cfg) (next_server cfg) (next_clerk cfg).
Definition set_endnames x cfg : config S :=
  mkConfig (net cfg) (n cfg) (kvservers cfg) (saved cfg) x (clerks cfg) (nextClientId cfg)
    (maxraftstate cfg) (next_server cfg) (next_clerk cfg).
Definition set_clerks x cfg : config S :=
  mkConfig (net cfg) (n cfg) (kvservers cfg) (saved cfg) (endnames cfg) x (nextClientId cfg)
    (maxraftstate cfg) (next_server cfg) (next_clerk cfg).

(** ** Connections between the servers *)

(** [cfg.endnames[i][j]] *)
Definition endname cfg (i j : Z) : res string :=
  let! l := go_index (endnames cfg) i in
  match l with Some l => go_index l j | None => Panic end.

Definition enable_end (yes : bool) (i j : Z) cfg : res (config S) :=
  let! e := endname cfg i j in
  Ret (set_net (Labrpc.Enable (Labrpc.NStr e) yes (net cfg)) cfg).

Definition connectUnlocked (i : Z) (to : list Z) cfg : res (config S) :=
  let! cfg := for_each (fun t cfg => enable_end true i t cfg) to cfg in
  for_each (fun t cfg => enable_end true t i cfg) to cfg.

Definition connect (i : Z) (to : list Z) cfg : res (config S) := connectUnlocked i to cfg.

(** [cfg.endnames[i] != nil] *)
Definition has_endnames cfg (i : Z) : res bool :=
  let! l := go_index (endnames cfg) i in
  Ret (match l with Some _ => true | None => false end).

(** The second loop tests [endnames[j]] for the position [j] in [from]. *)
Definition disconnectUnlocked (i : Z) (from : list Z) cfg : res (config S) :=
  let! cfg := for_each (fun f cfg =>
    let! b := has_endnames cfg i in
    if (b : bool) then enable_end false i f cfg else Ret cfg) from cfg in
  for_each (fun jf cfg =>
    let! b := has_endnames cfg jf.1 in
    if (b : bool) then enable_end false jf.2 i cfg else Ret cfg)
    (imap (fun j f => (Z.of_nat j, f)) from) cfg.

Definition disconnect (i : Z) (from : list Z) cfg : res (config S) := disconnectUnlocked i from cfg.

Definition All cfg : list Z := upto (n cfg).

Definition ConnectAll cfg : res (config S) :=
  for_each (fun i cfg => connectUnlocked i (All cfg) cfg) (upto (n cfg)) cfg.

Definition partition (p1 p2 : list Z) cfg : res (config S) :=
  let! cfg := for_each (fun i cfg =>
    let! cfg := disconnectUnlocked i p2 cfg in connectUnlocked i p1 cfg) p1 cfg in
  for_each (fun i cfg =>
    let! cfg := disconnectUnlocked i p1 cfg in connectUnlocked i p2 cfg) p2 cfg.

(** ** Clerks *)

Definition ConnectClientUnlocked (ck : nat) (to : list Z) cfg : res (config S) :=
  let endnames := default [] (clerks cfg !! ck) in
  for_each (fun t cfg =>
    let! s := go_index endnames t in
    Ret (set_net (Labrpc.Enable (Labrpc.NStr s) true (net cfg)) cfg)) to cfg.

Definition ConnectClient (ck : nat) (to : list Z) cfg : res (config S) := ConnectClientUnlocked ck to cfg.

Definition DisconnectClientUnlocked (ck : nat) (from : list Z) cfg : res (config S) :=
  let endnames := default [] (clerks cfg !! ck) in
  for_each (fun f cfg =>
    let! s := go_index endnames f in
    Ret (set_net (Labrpc.Enable (Labrpc.NStr s) false (net cfg)) cfg)) from cfg.

Definition DisconnectClient (ck : nat) (from : list Z) cfg : res (config S) := DisconnectClientUnlocked ck from cfg.

(** New ends with the names [fresh], the [j]-th one to server [j]. *)
Definition make_ends (fresh : list string) cfg : res (config S) :=
  for_each (fun j cfg =>
    let! e := go_index fresh j in
    let! (_, rn) := Labrpc.MakeEnd (Labrpc.NStr e) (net cfg) in
    Ret (set_net (Labrpc.Connect (Labrpc.NStr e) (Labrpc.NInt j) rn) cfg)) (upto (n cfg)) cfg.

(** The address of the new clerk and the ends it got, in its own order. *)
Definition makeClient (fresh : list string) (rand : Z -> Z) (to : list Z) cfg
    : res (config S * nat * list string) :=
  let! cfg := make_ends fresh cfg in
  let! handles := random_handles rand fresh in
  let ck := next_clerk cfg in
  let cfg := mkConfig (net cfg) (n cfg) (kvservers cfg) (saved cfg) (endnames cfg) (<[ck := fresh]> (clerks cfg))
               (nextClientId cfg + 1) (maxraftstate cfg) (next_server cfg) (ck + 1)%nat in
  let! cfg := ConnectClientUnlocked ck to cfg in
  Ret (cfg, ck, handles).

Definition deleteClient (ck : nat) cfg : config S := set_clerks (delete ck (clerks cfg)) cfg.

(** ** Shutdown and start *)

(** The contents behind [cfg.saved[i]]. *)
Definition saved_content cfg (i : Z) : res (option Persister) :=
  let! s := go_index (saved cfg) i in
  let! kv := go_index (kvservers cfg) i in
  Ret match s, kv with
      | Some _, Some kv => Some (persister (rf kv))
      | s, _ => s
      end.

Definition ShutdownServer (i : Z) cfg : res (config S) :=
  let! cfg := disconnectUnlocked i (All cfg) cfg in
  let cfg := set_net (Labrpc.DeleteServer (Labrpc.NInt i) (net cfg)) cfg in
  let! content := saved_content cfg i in
  let! s := go_set (saved cfg) i (Copy <$> content) in
  let cfg := set_saved s cfg in
  (* the old instance is killed and forgotten *)
  let! kvs := go_set (kvservers cfg) i None in
  Ret (set_kvservers kvs cfg).

Definition StartServer (i : Z) (fresh : list string) (now r : Z) cfg : res (config S) :=
  let! e := go_set (endnames cfg) i (Some fresh) in
  let cfg := set_endnames e cfg in
  let! cfg := make_ends fresh cfg in
  let! content := saved_content cfg i in
  let ps := match content with Some ps => Copy ps | None => MakePersister end in
  let! s := go_set (saved cfg) i (Some ps) in
  let cfg := set_saved s cfg in
  let kv := server_Start (n cfg) i ps (maxraftstate cfg) now r in
  let! kvs := go_set (kvservers cfg) i (Some kv) in
  Ret (mkConfig (Labrpc.AddServer (Labrpc.NInt i) (next_server cfg) (net cfg)) (n cfg) kvs (saved cfg)
         (endnames cfg) (clerks cfg) (nextClientId cfg) (maxraftstate cfg) (next_server cfg + 1)%nat (next_clerk cfg)).

(** The names drawn for server [i] are [fresh i]. *)
Definition make_config (n0 : Z) (unreliable : bool) (maxraftstate0 : Z) (fresh : Z -> list string) (now r : Z)
    : res (config S) :=
  let cfg := mkConfig Labrpc.MakeNetwork n0 (go_make n0 None) (go_make n0 None) (go_make n0 None) ∅
               (n0 + 1000) maxraftstate0 0%nat 0%nat in
  let! cfg := for_each (fun i cfg => StartServer i (fresh i) now r cfg) (upto n0) cfg in
  let! cfg := ConnectAll cfg in
  Ret (set_net (Labrpc.Reliable (negb unreliable) (net cfg)) cfg).

(** Times are in nanoseconds; [failed] is [t.Failed()] and [start] the time of
    [make_config]. *)
Definition second : Z := 1000000000.

Definition checkTimeout (failed : bool) (start now : Z) : res unit :=
  if negb failed && (now - start >? 120 * second) then Panic else Ret tt.

Definition cleanup (failed : bool) (start now : Z) cfg : res (config S) :=
  let cfg := set_kvservers ((fun kv => match kv with Some kv => Some (server_Kill kv) | None => None end)
                              <$> kvservers cfg) cfg in
  let! rn := Labrpc.Cleanup (net cfg) in
  let! _ := checkTimeout failed start now in
  Ret (set_net rn cfg).

(** ** Leaders and partitions *)

(** The first server that says it leads, from [i] on; nil is dereferenced. *)
Fixpoint find_leader (kvs : list (option S)) (i : Z) : res (bool * Z) :=
  match kvs with
  | [] => Ret (false, 0)
  | None :: _ => Panic
  | Some kv :: kvs =>
      let '(_, is_leader) := GetState (rf kv) in
      if (is_leader : bool) then Ret (true, i) else find_leader kvs (i + 1)
  end.

Definition Leader cfg : res (bool * Z) := find_leader (kvservers cfg) 0.

(** The two parts of [n0] servers when [l] is to be in the minority. *)
Definition split_servers (n0 l : Z) : res (list Z * list Z) :=
  let p1 := go_make (Z.quot n0 2 + 1) 0 in
  let p2 := go_make (Z.quot n0 2) 0 in
  let! s := for_each (fun i s =>
    let '(p1, p2, j) := s in
    if negb (i =? l) then
      if j <? len p1 then let! p1 := go_set p1 j i in Ret (p1, p2, j + 1)
      else let! p2 := go_set p2 (j - len p1) i in Ret (p1, p2, j + 1)
    else Ret (p1, p2, j)) (upto n0) (p1, p2, 0) in
  let '(p1, p2, _) := s in
  let! p2 := go_set p2 (len p2 - 1) l in
  Ret (p1, p2).

Definition make_partition cfg : res (list Z * list Z) :=
  let! (_, l) := Leader cfg in split_servers (n cfg) l.

(** ** Sizes and statistics *)

Definition max_size (size : Persister -> Z) cfg : res Z :=
  for_each (fun i m =>
    let! s := saved_content cfg i in
    match s with
    | None => Panic
    | Some ps => Ret (if size ps >? m then size ps else m)
    end) (upto (n cfg)) 0.

Definition LogSize cfg : res Z := max_size RaftStateSize cfg.
Definition SnapshotSize cfg : res Z := max_size SnapshotSize cfg.

Definition rpcTotal cfg : Z := Labrpc.GetTotalCount (net cfg).

(** [t0], [rpcs0] and the 32-bit counter [ops]. *)
Record stats := mkStats { t0 : Z; rpcs0 : Z; ops : Z }.

Definition begin (now : Z) cfg : stats := mkStats now (rpcTotal cfg) 0.
Definition op (st : stats) : stats := mkStats (t0 st) (rpcs0 st) (Labrpc.wrap 32 (ops st + 1)).

(** What is printed after "Passed", unless the test has failed: the duration,
    the servers, RPCs and operations. *)
Definition end_ (failed : bool) (start now : Z) (st : stats) cfg : res (option (Z * Z * Z * Z)) :=
  let! _ := checkTimeout failed start now in
  if failed then Ret None else
  Ret (Some (now - t0 st, n cfg, rpcTotal cfg - rpcs0 st, ops st)).

End config.
End KvHarness.
