(* ===== verification/KvHarnessSpec.v ===== *)
(** The harness of the key/value tests: connections, partitions, restarts and
    clerks do what the tests rely on. *)
From Stdlib Require Import Strings.Ascii.
From S2P Require Import Prelude Labgob Persister RaftState Raft RaftLemmas RaftSnapshot Labrpc KvHarness.
Import Labgob Persist RaftState RaftNode RaftOk RaftSnapshot KvHarness.
Local Open Scope Z_scope.

Module KvHarnessSpec.

(** ** Splitting the servers *)

(** [m] places of which [os] fill the first ones. *)
Definition place (m : nat) (os : list Z) : list Z := take m os ++ replicate (m - length os) 0.

Lemma place_length m os : length (place m os) = m.
Proof. unfold place. rewrite length_app, length_take, length_replicate. lia. Qed.

Lemma place_full m os : (m <= length os)%nat -> place m os = take m os.
Proof. intros Hm. unfold place. replace (m - length os)%nat with 0%nat by lia. apply app_nil_r. Qed.

Lemma place_all m os : (length os <= m)%nat -> place m os = os ++ replicate (m - length os) 0.
Proof. intros Hm. unfold place. by rewrite take_ge. Qed.

Lemma place_snoc m os i : (length os < m)%nat -> <[length os := i]> (place m os) = place m (os ++ [i]).
Proof.
  intros Hm. rewrite !place_all by (rewrite ?length_app; cbn; lia). rewrite length_app. cbn [length].
  replace (m - length os)%nat with (S (m - (length os + 1)))%nat by lia. cbn [replicate].
  rewrite insert_app_r_alt, Nat.sub_diag by lia. cbn. by rewrite <- app_assoc.
Qed.

Definition put (l i : Z) (s : list Z * list Z * Z) : res (list Z * list Z * Z) :=
  let '(p1, p2, j) := s in
  if negb (i =? l) then
    if j <? len p1 then let! p1 := go_set p1 j i in Ret (p1, p2, j + 1)
    else let! p2 := go_set p2 (j - len p1) i in Ret (p1, p2, j + 1)
  else Ret (p1, p2, j).

Definition placed (m1 m2 : nat) (os : list Z) : list Z * list Z * Z :=
  (place m1 os, place m2 (drop m1 os), len os).

Lemma put_placed m1 m2 l i os : i <> l -> (length os < m1 + m2)%nat ->
  put l i (placed m1 m2 os) = Ret (placed m1 m2 (os ++ [i])).
Proof.
  intros Hi Hlt. unfold put, placed. destruct (Z.eqb_spec i l) as [|_]; [done|]. cbn [negb].
  rewrite len_app. change (len [i]) with 1. unfold len at 1 2. rewrite place_length.
  destruct (Z.ltb_spec (Z.of_nat (length os)) (Z.of_nat m1)).
  - rewrite go_set_in by (unfold len; rewrite place_length; lia). cbn [rbind].
    unfold len at 1. rewrite Nat2Z.id, place_snoc by lia. do 3 f_equal.
    by rewrite !drop_ge by (rewrite ?length_app; cbn; lia).
  - unfold len at 1 2. rewrite place_length, go_set_in by (unfold len; rewrite place_length; lia). cbn [rbind].
    do 3 f_equal.
    + by rewrite !place_full, take_app_le by (rewrite ?length_app; lia).
    + replace (Z.to_nat (Z.of_nat (length os) - Z.of_nat m1)) with (length (drop m1 os))
        by (rewrite length_drop; lia).
      rewrite place_snoc by (rewrite length_drop; lia). f_equal. rewrite drop_app_le by lia. done.
Qed.

Lemma put_loop m1 m2 l js os :
  (length (os ++ filter (fun i => i <> l) js) <= m1 + m2)%nat ->
  for_each (put l) js (placed m1 m2 os) = Ret (placed m1 m2 (os ++ filter (fun i => i <> l) js)).
Proof.
  revert os. induction js as [|i js IH]; intros os Hl; cbn [for_each]; [by rewrite app_nil_r|].
  rewrite filter_cons in *. destruct (decide (i <> l)) as [Hi|Hi].
  - rewrite put_placed; [|done|rewrite length_app in Hl; cbn in Hl; lia]. cbn [rbind].
    rewrite IH; [by rewrite <- app_assoc|by rewrite <- app_assoc].
  - assert (put l i (placed m1 m2 os) = Ret (placed m1 m2 os)) as ->.
    { unfold put, placed. destruct (Z.eqb_spec i l); [done|]. by destruct Hi. }
    apply IH, Hl.
Qed.

Lemma others_perm n0 l : 0 <= l < n0 -> upto n0 ≡ₚ l :: filter (fun i => i <> l) (upto n0).
Proof.
  intros Hl. apply NoDup_Permutation; [apply upto_NoDup| |].
  - apply NoDup_cons. split; [rewrite list_elem_of_filter; tauto|apply NoDup_filter, upto_NoDup].
  - intros x. rewrite elem_of_cons, list_elem_of_filter, !elem_of_upto.
    destruct (decide (x = l)); [subst; tauto|tauto].
Qed.

(** With an odd number of servers the two parts are a partition of them, and
    [l] is the last of the smaller part. *)
Lemma split_servers_odd k l : 1 <= k -> 0 <= l < 2 * k + 1 ->
  exists p1 p2, split_servers (2 * k + 1) l = Ret (p1, p2) /\ p1 ++ p2 ≡ₚ upto (2 * k + 1) /\
    len p1 = k + 1 /\ len p2 = k /\ l ∈ p2.
Proof.
  intros Hk Hl. set (os := filter (fun i => i <> l) (upto (2 * k + 1))).
  assert (length os = Z.to_nat (2 * k)) as Hos.
  { pose proof (Permutation_length (others_perm (2 * k + 1) l Hl)) as Hp. cbn [length] in Hp. fold os in Hp.
    pose proof (len_upto (2 * k + 1) ltac:(lia)) as Hu. unfold len in Hu. lia. }
  set (m1 := Z.to_nat (k + 1)). set (m2 := Z.to_nat k).
  assert (Z.quot (2 * k + 1) 2 = k) as Hq by (rewrite Z.quot_div_nonneg by lia; symmetry; apply (Z.div_unique _ _ _ 1); lia).
  unfold split_servers. rewrite Hq.
  change (go_make (k + 1) 0, go_make k 0, 0) with (replicate m1 0, replicate m2 0, len (@nil Z)).
  assert ((replicate m1 0, replicate m2 0, len (@nil Z)) = placed m1 m2 []) as ->.
  { unfold placed, place. rewrite drop_nil, !take_nil. cbn [length app]. by rewrite !Nat.sub_0_r. }
  change (fun i s => _) with (put l). rewrite put_loop by (cbn [app]; fold os; lia). cbn [app rbind]. fold os.
  unfold placed. set (p2 := place m2 (drop m1 os)).
  assert (length p2 = m2) as Hp2 by apply place_length.
  rewrite go_set_in by (unfold len; lia). cbn [rbind]. eexists _, _. split; [reflexivity|].
  assert (p2 = drop m1 os ++ [0]) as Hp2'.
  { unfold p2. rewrite place_all by (rewrite length_drop; lia). rewrite length_drop.
    by replace (m2 - (length os - m1))%nat with 1%nat by lia. }
  replace (Z.to_nat (len p2 - 1)) with (length (drop m1 os)) by (unfold len; rewrite length_drop; lia).
  rewrite Hp2', insert_app_r_alt, Nat.sub_diag by lia. cbn [list_insert insert].
  rewrite place_full by lia. split_and!.
  - rewrite app_assoc, take_drop. rewrite (others_perm _ l) by lia. fold os. by rewrite Permutation_app_comm.
  - unfold len. rewrite length_take. lia.
  - unfold len. rewrite length_app, length_drop. cbn. lia.
  - set_solver.
Qed.

(** With an even number server 0 gets into both parts. *)
Example split_servers_even : split_servers 4 3 = Ret ([0; 1; 2], [0; 3]).
Proof. reflexivity. Qed.

(** ** Random names *)

Definition in_alphabet (a : ascii) : Prop := exists k, String.get k url_alphabet = Some a.

Lemma get_lt s k : (k < String.length s)%nat -> is_Some (String.get k s).
Proof.
  revert k. induction s as [|a s IH]; intros k; cbn; [lia|]. destruct k as [|k]; [by eexists|]. intros Hk.
  apply IH. lia.
Qed.

Lemma url_char_alphabet d : 0 <= d < 64 -> in_alphabet (url_char d).
Proof.
  intros Hd. unfold url_char, in_alphabet. exists (Z.to_nat d).
  destruct (get_lt url_alphabet (Z.to_nat d)) as [a Ha]; [cbn; lia|]. by rewrite Ha.
Qed.

Lemma lor_64 u v : 0 <= u < 64 -> 0 <= v < 64 -> 0 <= Z.lor u v < 64.
Proof.
  intros Hu Hv. assert (0 <= Z.lor u v) as H0 by (apply Z.lor_nonneg; lia). split; [done|].
  destruct (decide (Z.lor u v = 0)) as [->|Hne]; [lia|]. change 64 with (2 ^ 6).
  apply Z.log2_lt_pow2; [lia|]. rewrite Z.log2_lor by lia.
  assert (forall w, 0 <= w < 64 -> Z.log2 w < 6) as Hlog.
  { intros w Hw. destruct (decide (w = 0)) as [->|]; [done|]. apply Z.log2_lt_pow2; [lia|]. cbn. lia. }
  apply Z.max_lub_lt; by apply Hlog.
Qed.

Lemma low_bits x k m : 0 <= k -> m = Z.ones k -> 0 <= Z.land x m < 2 ^ k.
Proof. intros Hk ->. rewrite Z.land_ones by done. apply Z.mod_pos_bound, Z.pow_pos_nonneg; lia. Qed.

(** The six-bit groups of three bytes. *)
Lemma sextets x y z : 0 <= x < 256 -> 0 <= y < 256 -> 0 <= z < 256 ->
  in_alphabet (url_char (Z.shiftr x 2)) /\ in_alphabet (url_char (Z.shiftl (Z.land x 3) 4)) /\
  in_alphabet (url_char (Z.lor (Z.shiftl (Z.land x 3) 4) (Z.shiftr y 4))) /\
  in_alphabet (url_char (Z.shiftl (Z.land y 15) 2)) /\
  in_alphabet (url_char (Z.lor (Z.shiftl (Z.land y 15) 2) (Z.shiftr z 6))) /\
  in_alphabet (url_char (Z.land z 63)).
Proof.
  intros Hx Hy Hz. pose proof (low_bits x 2 3 ltac:(lia) eq_refl) as Hx3.
  pose proof (low_bits y 4 15 ltac:(lia) eq_refl) as Hy15. pose proof (low_bits z 6 63 ltac:(lia) eq_refl) as Hz63.
  assert (forall w k, 0 <= w < 256 -> 2 <= k -> 0 <= Z.shiftr w k < 64) as Hr.
  { intros w k Hw Hk. rewrite Z.shiftr_div_pow2 by lia. split; [apply Z.div_pos; [lia|apply Z.pow_pos_nonneg; lia]|].
    apply Z.div_lt_upper_bound; [apply Z.pow_pos_nonneg; lia|].
    assert (2 ^ 2 <= 2 ^ k) by (apply Z.pow_le_mono_r; lia). lia. }
  rewrite !Z.shiftl_mul_pow2 by lia.
  split_and!; apply url_char_alphabet; try apply lor_64; try (apply Hr; lia); lia.
Qed.

(** The first [k] characters carry bits when there are enough bytes. *)
Lemma encode_prefix b k : Forall (fun x => 0 <= x < 256) b -> (3 * k <= 4 * length b + 2)%nat ->
  (k <= String.length (EncodeToString b))%nat /\
  forall i a, (i < k)%nat -> String.get i (EncodeToString b) = Some a -> in_alphabet a.
Proof.
  revert k. induction b as [b IH] using (induction_ltof1 _ (@length Z)). unfold ltof in IH. intros k Hb Hk.
  destruct b as [|x [|y [|z b]]].
  - cbn in *. split; lia.
  - apply Forall_cons in Hb as [Hx _]. destruct (sextets x 0 0) as (H1 & H2 & _); [lia..|].
    cbn in Hk |- *. split; [lia|]. intros [|[|i]] a Hi; [by intros [= <-]|by intros [= <-]|lia].
  - apply Forall_cons in Hb as [Hx [Hy _]%Forall_cons]. destruct (sextets x y 0) as (H1 & _ & H3 & H4 & _); [lia..|].
    cbn in Hk |- *. split; [lia|]. intros [|[|[|i]]] a Hi; [by intros [= <-]..|lia].
  - apply Forall_cons in Hb as [Hx [Hy [Hz Hb]%Forall_cons]%Forall_cons].
    destruct (sextets x y z) as (H1 & _ & H3 & _ & H5 & H6); [lia..|].
    destruct (IH b ltac:(cbn; lia) (k - 4)%nat Hb) as [Hlen Hall]; [cbn in Hk; lia|].
    cbn [EncodeToString String.length] in *. split; [lia|].
    intros [|[|[|[|i]]]] a Hi; cbn [String.get]; [by intros [= <-]..|]. apply Hall. lia.
Qed.

Lemma str_take_length n s : (n <= String.length s)%nat -> String.length (Labrpc.str_take n s) = n.
Proof.
  revert n. induction s as [|a s IH]; intros [|n]; cbn; try lia. intros Hn. by rewrite IH by lia.
Qed.

Lemma str_take_get n s i : String.get i (Labrpc.str_take n s) = if (i <? n)%nat then String.get i s else None.
Proof.
  revert n i. induction s as [|a s IH]; intros n i.
  - destruct n; cbn [Labrpc.str_take String.get]; by destruct (_ <? _)%nat.
  - destruct n as [|n], i as [|i]; try done. exact (IH n i).
Qed.

(** C40. [randstring] never slices past the end of the encoding: from [2 * n]
    random bytes it makes exactly [n] characters, all from the alphabet of
    URL-safe base64 and none of them padding. *)
Theorem randstring_ok rand n0 :
  0 <= n0 -> 2 * n0 <= len rand -> Forall (fun x => 0 <= x < 256) rand ->
  exists s, randstring rand n0 = Ret s /\ Z.of_nat (String.length s) = n0 /\
    forall i a, String.get i s = Some a -> in_alphabet a.
Proof.
  intros Hn Hl Hr. unfold randstring. set (b := take (Z.to_nat (2 * n0)) rand).
  assert (length b = Z.to_nat (2 * n0)) as Hb by (unfold b; rewrite length_take; unfold len in Hl; lia).
  destruct (encode_prefix b (Z.to_nat n0)) as [Hlen Hall]; [by apply Forall_take|lia|].
  unfold Labrpc.str_to. destruct (Z.leb_spec 0 n0); [|lia].
  destruct (Z.leb_spec n0 (Z.of_nat (String.length (EncodeToString b)))); [|lia]. cbn [andb].
  eexists. split; [reflexivity|]. rewrite str_take_length by done. split; [lia|].
  intros i a. rewrite str_take_get. destruct (Nat.ltb_spec i (Z.to_nat n0)); [|done]. by apply Hall.
Qed.

(** ** Random orders *)

Lemma swap_same {A} (l : list A) i : 0 <= i < len l -> swap l i i = Ret l.
Proof.
  intros Hi. unfold swap. destruct (go_index_in l i Hi) as (x & -> & Hx). cbn [rbind].
  rewrite go_set_in by done. cbn [rbind]. rewrite go_set_in by (by rewrite len_insert).
  by rewrite list_insert_insert_eq, list_insert_id.
Qed.

(** Exchanging the last element of [a ++ x :: b ++ [y]] with [x]. *)
Lemma swap_last {A} (a b t : list A) x y :
  swap ((a ++ x :: b) ++ y :: t) (len (a ++ x :: b)) (len a) = Ret ((a ++ y :: b) ++ x :: t).
Proof.
  unfold swap, go_index. pose proof (len_nonneg a). pose proof (len_nonneg (a ++ x :: b)).
  destruct (Z.leb_spec 0 (len (a ++ x :: b))); [|lia]. destruct (Z.leb_spec 0 (len a)); [|lia].
  unfold len at 1 2. rewrite !Nat2Z.id. rewrite list_lookup_middle by done.
  assert (((a ++ x :: b) ++ y :: t) !! length a = Some x) as -> by (rewrite <- app_assoc; cbn; by apply list_lookup_middle).
  cbn [rbind]. rewrite go_set_in by (rewrite !len_app; unfold len; cbn; lia). cbn [rbind].
  unfold len at 1. rewrite Nat2Z.id. rewrite insert_app_r_alt, Nat.sub_diag by done. cbn [insert list_insert].
  rewrite go_set_in by (rewrite !len_app; unfold len; cbn; lia). unfold len at 1. rewrite Nat2Z.id.
  rewrite <- app_assoc, insert_app_r_alt, Nat.sub_diag by done. cbn. by rewrite <- app_assoc.
Qed.

Definition shuffle_step {A} (rand : Z -> Z) (i : Z) (sa : list A) : res (list A) :=
  swap sa i (rand i mod (i + 1)).

(** Any step of the shuffle permutes the first [k + 1] elements. *)
Lemma shuffle_perm {A} (rand : Z -> Z) (l t : list A) :
  exists p, for_each (shuffle_step rand) (upto (len l)) (l ++ t) = Ret (p ++ t) /\ p ≡ₚ l.
Proof.
  revert t. induction l as [|x l IH] using rev_ind; intros t; [by exists []|].
  unfold len. rewrite length_app. cbn [length]. rewrite Nat.add_1_r, upto_snoc, for_each_app, <- app_assoc.
  destruct (IH ([x] ++ t)) as (p & Hrun & Hp). unfold len in Hrun. rewrite Hrun. cbn [rbind for_each].
  set (j := rand (Z.of_nat (length l)) mod (Z.of_nat (length l) + 1)).
  assert (0 <= j < Z.of_nat (length l) + 1) as Hj by (apply Z.mod_pos_bound; lia).
  assert (len p = Z.of_nat (length l)) as Hlp by (unfold len; by rewrite Hp).
  unfold shuffle_step. fold j. rewrite <- Hlp in *. destruct (decide (j = len p)) as [Hjl|Hjl].
  - exists (p ++ [x]). rewrite Hjl, swap_same by (rewrite !len_app; unfold len; cbn; lia).
    cbn. rewrite <- app_assoc. split; [done|]. by rewrite Hp.
  - destruct (go_index_in p j) as (y & _ & Hy); [lia|]. apply list_elem_of_split_length in Hy as (a & b & Hab & Ha).
    subst p. exists ((a ++ x :: b) ++ [y]).
    assert (j = len a) as -> by (unfold len; lia). cbn [app]. rewrite swap_last. cbn.
    rewrite <- (app_assoc _ [y]). split; [done|]. rewrite <- Hp.
    rewrite <- !Permutation_middle, !app_nil_r. apply perm_swap.
Qed.

(** And every permutation comes out for some random numbers. *)
Lemma shuffle_all {A} (l p t : list A) : p ≡ₚ l ->
  exists rand, for_each (shuffle_step rand) (upto (len l)) (l ++ t) = Ret (p ++ t).
Proof.
  revert p t. induction l as [|x l IH] using rev_ind; intros p t Hp.
  { apply Permutation_nil_r in Hp as ->. by exists (fun _ => 0). }
  unfold len. rewrite length_app. cbn [length]. rewrite Nat.add_1_r, upto_snoc.
  set (k := Z.of_nat (length l)).
  assert (forall q j, q ≡ₚ l -> 0 <= j <= k -> swap (q ++ x :: t) k j = Ret (p ++ t) ->
    exists rand, for_each (shuffle_step rand) (upto k ++ [k]) ((l ++ [x]) ++ t) = Ret (p ++ t)) as Hlast.
  { intros q j Hq Hj Hswap. destruct (IH q ([x] ++ t) Hq) as [rand Hrand].
    exists (fun i => if decide (i = k) then j else rand i). rewrite for_each_app, <- app_assoc.
    rewrite (for_each_ext _ (shuffle_step rand)).
    - unfold k, len in *. rewrite Hrand. cbn [rbind for_each]. unfold shuffle_step. rewrite decide_True by done.
      rewrite Z.mod_small by lia. cbn [app]. by rewrite Hswap.
    - intros i c Hi%elem_of_upto. unfold shuffle_step. by rewrite decide_False by lia. }
  assert (x ∈ p) as Hx by (rewrite Hp; set_solver). apply list_elem_of_split in Hx as (a & b & ->).
  assert (a ++ b ≡ₚ l) as Hab.
  { apply (Permutation_cons_inv (a := x)). rewrite Permutation_middle, Hp. by rewrite Permutation_app_comm. }
  assert (k = len (a ++ b)) as Hk by (unfold k, len; by rewrite Hab).
  destruct b as [|y b _] using rev_ind.
  - apply (Hlast a k); [by rewrite app_nil_r in Hab|lia|]. rewrite app_nil_r in Hk.
    rewrite swap_same by (rewrite len_app; unfold len in *; cbn; lia). by rewrite <- app_assoc.
  - apply (Hlast (a ++ y :: b) (len a)).
    + rewrite <- Hab. rewrite (Permutation_app_comm b [y]). done.
    + rewrite Hk, !len_app. pose proof (len_nonneg b). unfold len in *. cbn. lia.
    + assert (k = len (a ++ y :: b)) as -> by (rewrite Hk; unfold len; rewrite !length_app; cbn; lia).
      rewrite swap_last, <- !app_assoc. cbn. by rewrite <- app_assoc.
Qed.

(** C39. [random_handles] gives a clerk its servers in some order, without
    losing or repeating one, whatever random numbers it draws; and each order
    of the servers is drawn for some random numbers. *)
Theorem random_handles_orders {A} (kvh : list A) sa :
  sa ≡ₚ kvh <-> exists rand, random_handles rand kvh = Ret sa.
Proof.
  change (sa ≡ₚ kvh <-> exists rand, for_each (shuffle_step rand) (upto (len kvh)) kvh = Ret sa). split.
  - intros Hp. destruct (shuffle_all kvh sa [] Hp) as [rand Hr]. exists rand. by rewrite !app_nil_r in Hr.
  - intros [rand Hr]. destruct (shuffle_perm rand kvh []) as (p & Hrun & Hp). rewrite !app_nil_r in Hrun.
    rewrite Hrun in Hr. by injection Hr as <-.
Qed.

(** ** Links *)

Section links.
Context {Cmd S : Type} `{!Gob (gval Cmd)} `{!KvServer Cmd S}.
Implicit Types cfg : config S.

(** Everything but the network, and the network but for [enabled]. *)
Definition rest cfg :=
  (n cfg, kvservers cfg, saved cfg, endnames cfg, clerks cfg, next_server cfg,
   Labrpc.ends (net cfg), Labrpc.servers (net cfg), Labrpc.connections (net cfg)).

(** Every pair of servers has an end of its own. *)
Record well_named cfg : Prop := {
  wn_len : len (endnames cfg) = n cfg;
  wn_name : forall i j, 0 <= i < n cfg -> 0 <= j < n cfg -> exists e, endname cfg i j = Ret e;
  wn_inj : forall i j i' j' e, 0 <= i < n cfg -> 0 <= j < n cfg -> 0 <= i' < n cfg -> 0 <= j' < n cfg ->
    endname cfg i j = Ret e -> endname cfg i' j' = Ret e -> i = i' /\ j = j';
}.

(** Whether the end of [i] towards [j] is enabled. *)
Definition link cfg (i j : Z) : option bool :=
  match endname cfg i j with
  | Ret e => Labrpc.enabled (net cfg) !! Labrpc.NStr e
  | Panic => None
  end.

Definition server cfg (i : Z) : Prop := 0 <= i < n cfg.

(** [cfg'] is [cfg] with the links of [P] switched to [v]. *)
Record switched (P : Z -> Z -> Prop) (v : bool) cfg cfg' : Prop := {
  sw_rest : rest cfg' = rest cfg;
  sw_in : forall i j, server cfg i -> server cfg j -> P i j -> link cfg' i j = Some v;
  sw_out : forall i j, server cfg i -> server cfg j -> ~ P i j -> link cfg' i j = link cfg i j;
}.

Lemma rest_n cfg cfg' : rest cfg' = rest cfg -> n cfg' = n cfg.
Proof. by intros [=]. Qed.

Lemma rest_endnames cfg cfg' : rest cfg' = rest cfg -> endnames cfg' = endnames cfg.
Proof. by intros [=]. Qed.

Lemma rest_endname cfg cfg' i j : rest cfg' = rest cfg -> endname cfg' i j = endname cfg i j.
Proof. intros Hr. unfold endname. by rewrite (rest_endnames _ _ Hr). Qed.

Lemma rest_server cfg cfg' i : rest cfg' = rest cfg -> server cfg' i <-> server cfg i.
Proof. intros Hr. unfold server. by rewrite (rest_n _ _ Hr). Qed.

Lemma same_well_named cfg cfg' :
  n cfg' = n cfg -> endnames cfg' = endnames cfg -> well_named cfg -> well_named cfg'.
Proof.
  intros Hn' He [Hl Hn Hi]. assert (forall i j, endname cfg' i j = endname cfg i j) as Hen
    by (intros; unfold endname; by rewrite He).
  split; rewrite ?He, ?Hn'; [done| |].
  - intros i j ? ?. rewrite Hen. by apply Hn.
  - intros i j i' j' e ? ? ? ?. rewrite !Hen. by apply Hi.
Qed.

Lemma rest_well_named cfg cfg' : rest cfg' = rest cfg -> well_named cfg -> well_named cfg'.
Proof. intros Hr. apply same_well_named; [by apply rest_n|by apply rest_endnames]. Qed.

Lemma switched_refl v cfg : switched (fun _ _ => False) v cfg cfg.
Proof. by split. Qed.

Lemma switched_trans P Q v cfg cfg1 cfg' :
  switched P v cfg cfg1 -> switched Q v cfg1 cfg' -> switched (fun i j => P i j \/ Q i j) v cfg cfg'.
Proof.
  intros [Hr Hi Ho] [Hr' Hi' Ho']. split; [congruence| |].
  - intros i j Hsi Hsj HPQ. rewrite <- (rest_server cfg cfg1) in Hsi, Hsj by done.
    destruct (decide (link cfg' i j = Some v)) as [|Hne]; [done|].
    rewrite Ho'; [|done|done|intros HQ; by apply Hne, Hi'].
    apply Hi; [by apply (rest_server _ _ _ Hr)..|]. destruct HPQ as [|HQ]; [done|]. by destruct Hne; apply Hi'.
  - intros i j Hsi Hsj Hn. rewrite Ho' by (try apply (rest_server _ _ _ Hr); tauto). apply Ho; tauto.
Qed.

Lemma switched_iff P Q v cfg cfg' : (forall i j, server cfg i -> server cfg j -> P i j <-> Q i j) ->
  switched P v cfg cfg' -> switched Q v cfg cfg'.
Proof.
  intros HPQ [Hr Hi Ho]. split; [done| |].
  - intros i j Hsi Hsj HQ. apply Hi; [done..|]. by apply HPQ.
  - intros i j Hsi Hsj HQ. apply Ho; [done..|]. by rewrite HPQ.
Qed.

Lemma enable_end_switched v i j cfg : well_named cfg -> server cfg i -> server cfg j ->
  exists cfg', enable_end v i j cfg = Ret cfg' /\ switched (fun a b => a = i /\ b = j) v cfg cfg'.
Proof.
  intros Hw Hi Hj. destruct (wn_name cfg Hw i j Hi Hj) as [e He]. unfold enable_end. rewrite He.
  eexists. split; [reflexivity|]. split; [done| |].
  - intros a b _ _ [-> ->]. unfold link. change (endname (set_net _ cfg) i j) with (endname cfg i j).
    rewrite He. cbn. by rewrite lookup_insert_eq.
  - intros a b Ha Hb Hn. unfold link. change (endname (set_net _ cfg) a b) with (endname cfg a b).
    destruct (endname cfg a b) as [e'|] eqn:He'; [|done]. cbn. rewrite lookup_insert_ne; [done|].
    intros [= ->]. apply Hn. by apply (wn_inj cfg Hw a b i j e').
Qed.

(** A loop whose steps switch links switches them all. *)
Lemma for_each_switched {A} (f : A -> config S -> res (config S)) (P : A -> Z -> Z -> Prop) v l cfg :
  well_named cfg ->
  (forall x cfg1, x ∈ l -> rest cfg1 = rest cfg -> exists cfg2, f x cfg1 = Ret cfg2 /\ switched (P x) v cfg1 cfg2) ->
  exists cfg', for_each f l cfg = Ret cfg' /\ switched (fun i j => exists x, x ∈ l /\ P x i j) v cfg cfg'.
Proof.
  intros Hw. revert cfg Hw. induction l as [|x l IH]; intros cfg Hw Hf; cbn [for_each].
  { exists cfg. split; [done|]. eapply switched_iff; [|apply switched_refl]. set_solver. }
  destruct (Hf x cfg) as (cfg1 & -> & Hs1); [set_solver|done|]. cbn [rbind].
  destruct (IH cfg1) as (cfg' & Hrun & Hs').
  - by eapply rest_well_named; [apply Hs1|].
  - intros y cfg2 Hy Hr. apply Hf; [set_solver|]. rewrite Hr. apply Hs1.
  - exists cfg'. split; [done|]. eapply switched_iff; [|by eapply switched_trans]. set_solver.
Qed.

Definition between (i : Z) (l : list Z) (a b : Z) : Prop := (a = i /\ b ∈ l) \/ (b = i /\ a ∈ l).

Lemma connectUnlocked_switched i l cfg : well_named cfg -> server cfg i -> (forall j, j ∈ l -> server cfg j) ->
  exists cfg', connectUnlocked i l cfg = Ret cfg' /\ switched (between i l) true cfg cfg'.
Proof.
  intros Hw Hi Hl. unfold connectUnlocked.
  destruct (for_each_switched (fun t cfg => enable_end true i t cfg) (fun t a b => a = i /\ b = t) true l cfg)
    as (cfg1 & -> & Hs1); [done| |].
  { intros t cfg1 Ht Hr. apply enable_end_switched; [by eapply rest_well_named| |];
      rewrite (rest_server _ _ _ Hr); auto. }
  cbn [rbind]. pose proof (sw_rest _ _ _ _ Hs1) as Hr1.
  destruct (for_each_switched (fun t cfg => enable_end true t i cfg) (fun t a b => a = t /\ b = i) true l cfg1)
    as (cfg' & -> & Hs'); [by eapply rest_well_named| |].
  { intros t cfg2 Ht Hr. rewrite Hr1 in Hr. apply enable_end_switched; [by eapply rest_well_named| |];
      rewrite (rest_server _ _ _ Hr); auto. }
  exists cfg'. split; [done|]. eapply switched_iff; [|by eapply switched_trans].
  unfold between. intros a b _ _. naive_solver.
Qed.

Lemma has_endnames_server cfg i : well_named cfg -> server cfg i -> has_endnames cfg i = Ret true.
Proof.
  intros Hw Hi. destruct (wn_name cfg Hw i i Hi Hi) as [e He]. unfold endname in He. unfold has_endnames.
  destruct (go_index (endnames cfg) i) as [[l|]|]; done.
Qed.

(** Only the positions in [l] have to be servers for the second loop. *)
Lemma disconnectUnlocked_switched i l cfg : well_named cfg -> server cfg i -> (forall j, j ∈ l -> server cfg j) ->
  len l <= n cfg ->
  exists cfg', disconnectUnlocked i l cfg = Ret cfg' /\ switched (between i l) false cfg cfg'.
Proof.
  intros Hw Hi Hl Hlen. unfold disconnectUnlocked.
  match goal with |- exists c, rbind (for_each ?f l cfg) _ = _ /\ _ =>
    destruct (for_each_switched f (fun t a b => a = i /\ b = t) false l cfg) as (cfg1 & -> & Hs1) end; [done| |].
  { intros t cfg1 Ht Hr. rewrite has_endnames_server; [|by eapply rest_well_named|by rewrite (rest_server _ _ _ Hr)].
    apply enable_end_switched; [by eapply rest_well_named| |]; rewrite (rest_server _ _ _ Hr); auto. }
  cbn [rbind]. pose proof (sw_rest _ _ _ _ Hs1) as Hr1.
  match goal with |- exists c, for_each ?f ?l' cfg1 = _ /\ _ =>
    destruct (for_each_switched f (fun t a b => a = t.2 /\ b = i) false l' cfg1) as (cfg' & -> & Hs') end;
    [by eapply rest_well_named| |].
  { intros [p t] cfg2 (k & y & [= -> ->] & Hk)%elem_of_lookup_imap Hr. rewrite Hr1 in Hr. cbn [fst snd].
    assert (k < length l)%nat by by eapply lookup_lt_Some.
    rewrite has_endnames_server; [|by eapply rest_well_named|].
    2: { rewrite (rest_server _ _ _ Hr). unfold server, len in *. lia. }
    apply list_elem_of_lookup_2 in Hk.
    apply enable_end_switched; [by eapply rest_well_named| |]; rewrite (rest_server _ _ _ Hr); auto. }
  exists cfg'. split; [done|]. eapply switched_iff; [|by eapply switched_trans].
  unfold between. intros a b _ _. split.
  - intros [(x & ? & ? & ->)|([p t] & (k & y & [= -> ->] & Hk%list_elem_of_lookup_2)%elem_of_lookup_imap & ? & ?)];
      cbn in *; subst; auto.
  - intros [[-> ?]|[-> Ha]]; [left; by exists b|right].
    apply list_elem_of_lookup in Ha as [k Hk]. exists (Z.of_nat k, a). split; [|done].
    apply elem_of_lookup_imap. by exists k, a.
Qed.

(** ** Partitions *)

(** [cfg'] is [cfg] with the links of [off] cut and those of [on] restored. *)
Record parted (off on : Z -> Z -> Prop) cfg cfg' : Prop := {
  pt_rest : rest cfg' = rest cfg;
  pt_off : forall i j, server cfg i -> server cfg j -> off i j -> link cfg' i j = Some false;
  pt_on : forall i j, server cfg i -> server cfg j -> on i j -> link cfg' i j = Some true;
  pt_same : forall i j, server cfg i -> server cfg j -> ~ off i j -> ~ on i j -> link cfg' i j = link cfg i j;
}.

Lemma switched_off P cfg cfg' : switched P false cfg cfg' -> parted P (fun _ _ => False) cfg cfg'.
Proof. intros [? ? Ho]. split; [done|done|done|]. intros. by apply Ho. Qed.

Lemma switched_on P cfg cfg' : switched P true cfg cfg' -> parted (fun _ _ => False) P cfg cfg'.
Proof. intros [? ? Ho]. split; [done|done|done|]. intros. by apply Ho. Qed.

Lemma parted_trans off on off' on' cfg cfg1 cfg' :
  (forall i j, off i j -> on' i j -> False) -> (forall i j, on i j -> off' i j -> False) ->
  parted off on cfg cfg1 -> parted off' on' cfg1 cfg' ->
  parted (fun i j => off i j \/ off' i j) (fun i j => on i j \/ on' i j) cfg cfg'.
Proof.
  intros H1 H2 [Hr Hoff Hon Hs] [Hr' Hoff' Hon' Hs'].
  assert (forall i, server cfg i -> server cfg1 i) as Hsv by (intros i; by rewrite (rest_server _ _ i Hr)).
  split; [congruence| | |].
  - intros i j Hi Hj Ho. destruct (decide (link cfg' i j = Some false)) as [|Hne]; [done|].
    assert (~ off' i j) as Hn by (intros ?; by apply Hne, Hoff'; auto). destruct Ho as [Ho|]; [|done].
    rewrite Hs' by eauto. by apply Hoff.
  - intros i j Hi Hj Ho. destruct (decide (link cfg' i j = Some true)) as [|Hne]; [done|].
    assert (~ on' i j) as Hn by (intros ?; by apply Hne, Hon'; auto). destruct Ho as [Ho|]; [|done].
    rewrite Hs' by eauto. by apply Hon.
  - intros i j Hi Hj Hn1 Hn2. rewrite Hs' by (auto; tauto). apply Hs; tauto.
Qed.

Lemma parted_iff off on off' on' cfg cfg' :
  (forall i j, off i j <-> off' i j) -> (forall i j, on i j <-> on' i j) ->
  parted off on cfg cfg' -> parted off' on' cfg cfg'.
Proof.
  intros H1 H2 [? Hoff Hon Hs]. split; [done| | |].
  - intros i j ? ? Ho%H1. by apply Hoff.
  - intros i j ? ? Ho%H2. by apply Hon.
  - intros i j ? ? Hn1 Hn2. apply Hs; [done|done|by rewrite H1|by rewrite H2].
Qed.

Lemma exists_between (l q : list Z) a b :
  (exists i, i ∈ l /\ between i q a b) <-> (a ∈ l /\ b ∈ q) \/ (b ∈ l /\ a ∈ q).
Proof. unfold between. split; [intros (i & ? & [[-> ?]|[-> ?]]); auto|]. intros [[? ?]|[? ?]]; eauto. Qed.

(** One side of a partition, for the servers [l] of the part [p]. *)
Lemma side_parted p q l cfg : well_named cfg ->
  (forall i, i ∈ p -> server cfg i) -> (forall i, i ∈ q -> server cfg i) ->
  (forall i, i ∈ p -> i ∉ q) -> len q <= n cfg -> (forall i, i ∈ l -> i ∈ p) ->
  exists cfg', for_each (fun i cfg => let! cfg := disconnectUnlocked i q cfg in connectUnlocked i p cfg) l cfg
      = Ret cfg' /\
    parted (fun a b => exists i, i ∈ l /\ between i q a b) (fun a b => exists i, i ∈ l /\ between i p a b) cfg cfg'.
Proof.
  intros Hw Hp Hq Hd Hlen. revert cfg Hw Hp Hq Hlen.
  induction l as [|i l IH]; intros cfg Hw Hp Hq Hlen Hl; cbn [for_each].
  { exists cfg. split; [done|]. split; [done|set_solver|set_solver|done]. }
  assert (i ∈ p) as Hi by set_solver.
  destruct (disconnectUnlocked_switched i q cfg) as (cfg1 & -> & Hs1); [auto..|]. cbn [rbind].
  pose proof (sw_rest _ _ _ _ Hs1) as Hr1.
  assert (forall j, server cfg j -> server cfg1 j) as Hsv1 by (intros j; by rewrite (rest_server _ _ j Hr1)).
  destruct (connectUnlocked_switched i p cfg1) as (cfg2 & -> & Hs2); [by eapply rest_well_named|auto..|].
  cbn [rbind]. pose proof (sw_rest _ _ _ _ Hs2) as Hr2. rewrite Hr1 in Hr2.
  assert (forall j, server cfg j -> server cfg2 j) as Hsv2 by (intros j; by rewrite (rest_server _ _ j Hr2)).
  destruct (IH cfg2) as (cfg' & Hrun & Hpt);
    [by eapply rest_well_named|auto|auto|by rewrite (rest_n _ _ Hr2)|set_solver|].
  exists cfg'. split; [done|].
  assert (forall i i' a b, i ∈ p -> i' ∈ p -> between i q a b -> between i' p a b -> False) as Hdis.
  { unfold between. intros i1 i2 a b. naive_solver. }
  assert (parted (between i q) (between i p) cfg cfg2) as H12.
  { eapply parted_iff;
      [| |apply (parted_trans (between i q) (fun _ _ => False) (fun _ _ => False) (between i p) cfg cfg1 cfg2);
          [by eauto|done|by apply switched_off|by apply switched_on]]; tauto. }
  eapply parted_iff; [| |eapply parted_trans; [| |exact H12|exact Hpt]]; cbn beta; intros a b.
  - split; [intros [?|(x & ? & ?)]; [exists i|exists x]; split; (done || set_solver)|].
    intros (x & [->|]%elem_of_cons & ?); [by left|right; by exists x].
  - split; [intros [?|(x & ? & ?)]; [exists i|exists x]; split; (done || set_solver)|].
    intros (x & [->|]%elem_of_cons & ?); [by left|right; by exists x].
  - intros Hb (x & Hx & Hb'). apply (Hdis i x a b); [done|apply Hl; by right|done|done].
  - intros Hb (x & Hx & Hb'). apply (Hdis x i a b); [apply Hl; by right|done|done|done].
Qed.

(** [partition] cuts every link between the two parts and restores every link
    inside one of them. *)
Lemma partition_parted p1 p2 cfg : well_named cfg ->
  (forall i, i ∈ p1 \/ i ∈ p2 -> server cfg i) -> (forall i, i ∈ p1 -> i ∉ p2) ->
  len p1 <= n cfg -> len p2 <= n cfg ->
  exists cfg', partition p1 p2 cfg = Ret cfg' /\
    parted (fun a b => (a ∈ p1 /\ b ∈ p2) \/ (a ∈ p2 /\ b ∈ p1)) (fun a b => (a ∈ p1 /\ b ∈ p1) \/ (a ∈ p2 /\ b ∈ p2))
      cfg cfg'.
Proof.
  intros Hw Hs Hd Hl1 Hl2. unfold partition.
  destruct (side_parted p1 p2 p1 cfg) as (cfg1 & -> & H1); [auto..|]. cbn [rbind].
  pose proof (pt_rest _ _ _ _ H1) as Hr.
  destruct (side_parted p2 p1 p2 cfg1) as (cfg' & Hrun & H2);
    [by eapply rest_well_named| | |naive_solver|by rewrite (rest_n _ _ Hr)|auto|].
  { intros i Hi. apply (rest_server _ _ _ Hr). auto. }
  { intros i Hi. apply (rest_server _ _ _ Hr). auto. }
  exists cfg'. split; [done|].
  assert (forall a, a ∈ p2 -> a ∉ p1) as Hd' by (intros a Ha Ha'; by apply (Hd a)).
  eapply parted_iff; [| |eapply parted_trans; [| |exact H1|exact H2]]; cbn beta; intros a b;
    rewrite !exists_between; pose proof (Hd a); pose proof (Hd b); tauto.
Qed.

Lemma find_leader_range kvs i b l : find_leader kvs i = Ret (b, l) -> 0 <= i -> l = 0 \/ i <= l < i + len kvs.
Proof.
  revert i. induction kvs as [|[kv|] kvs IH]; intros i; cbn [find_leader]; [by intros [= <- <-]; left| |done].
  unfold len. cbn [length]. destruct (GetState (rf kv)) as [t [|]].
  - intros [= <- <-] Hi. right. lia.
  - intros Hrun Hi. destruct (IH (i + 1) Hrun) as [|Hl]; [lia|by left|right]. unfold len in Hl. lia.
Qed.

(** Cutting [2 * k + 1] servers with [l] in the minority. *)
Lemma split_parted cfg k l : well_named cfg -> n cfg = 2 * k + 1 -> 1 <= k -> 0 <= l < n cfg ->
  exists p1 p2 cfg', split_servers (n cfg) l = Ret (p1, p2) /\ partition p1 p2 cfg = Ret cfg' /\
    p1 ++ p2 ≡ₚ All cfg /\ l ∈ p2 /\ len p2 = k /\
    forall i j, server cfg i -> server cfg j -> link cfg' i j = Some (bool_decide (i ∈ p2 <-> j ∈ p2)).
Proof.
  intros Hw Hn Hk Hr. rewrite Hn in Hr.
  destruct (split_servers_odd k l Hk Hr) as (p1 & p2 & Hsplit & Hp & H1 & H2 & Hin).
  rewrite Hn, Hsplit. exists p1, p2.
  assert (forall i, i ∈ p1 \/ i ∈ p2 <-> server cfg i) as Hall.
  { intros i. rewrite <- elem_of_app, Hp, elem_of_upto. unfold server. by rewrite Hn. }
  assert (forall i, i ∈ p1 -> i ∉ p2) as Hd.
  { assert (NoDup (p1 ++ p2)) as Hnd by (rewrite Hp; apply upto_NoDup).
    apply NoDup_app in Hnd as (_ & Hd & _). exact Hd. }
  destruct (partition_parted p1 p2 cfg Hw) as (cfg' & Hrun & [_ Hoff Hon _]);
    [by intros i; rewrite Hall|done|lia|lia|].
  exists cfg'. split; [done|]. split; [done|]. split; [unfold All; by rewrite Hn|]. split; [done|]. split; [done|].
  intros i j Hi Hj. pose proof (proj2 (Hall i) Hi). pose proof (proj2 (Hall j) Hj).
  pose proof (Hd i). pose proof (Hd j).
  case_bool_decide as Hij; [apply Hon|apply Hoff]; (done || tauto).
Qed.

(** C33. With an odd number of servers, three or more, [make_partition] and
    [partition] put the server that [Leader] finds into a part of [n/2] servers:
    every link between the parts is cut, in both directions, every link inside a
    part works, and no server is left out.  So the leader cannot reach a
    majority. *)
Theorem partition_minority cfg k b l :
  well_named cfg -> n cfg = 2 * k + 1 -> 1 <= k -> len (kvservers cfg) = n cfg -> Leader cfg = Ret (b, l) ->
  exists p1 p2 cfg', make_partition cfg = Ret (p1, p2) /\ partition p1 p2 cfg = Ret cfg' /\
    p1 ++ p2 ≡ₚ All cfg /\ l ∈ p2 /\ len p2 = k /\
    forall i j, server cfg i -> server cfg j -> link cfg' i j = Some (bool_decide (i ∈ p2 <-> j ∈ p2)).
Proof.
  intros Hw Hn Hk Hlen Hl. unfold make_partition. rewrite Hl. cbn [rbind]. apply (split_parted cfg k l Hw Hn Hk).
  unfold Leader in Hl. apply find_leader_range in Hl; [|lia]. lia.
Qed.

(** ** New ends *)

(** [cfg'] is [cfg] with disabled ends of the names [names], the [j]-th of which
    leads to server [j]. *)
Record ends_made (names : list string) cfg cfg' : Prop := {
  em_frame : cfg' = set_net (net cfg') cfg;
  em_servers : Labrpc.servers (net cfg') = Labrpc.servers (net cfg);
  em_ends : forall e, Labrpc.NStr e ∈ Labrpc.ends (net cfg') <-> Labrpc.NStr e ∈ Labrpc.ends (net cfg) \/ e ∈ names;
  em_new : forall (j : nat) e, names !! j = Some e ->
    Labrpc.enabled (net cfg') !! Labrpc.NStr e = Some false /\
    Labrpc.connections (net cfg') !! Labrpc.NStr e = Some (Some (Labrpc.NInt (Z.of_nat j)));
  em_old : forall e, e ∉ names ->
    Labrpc.enabled (net cfg') !! Labrpc.NStr e = Labrpc.enabled (net cfg) !! Labrpc.NStr e /\
    Labrpc.connections (net cfg') !! Labrpc.NStr e = Labrpc.connections (net cfg) !! Labrpc.NStr e;
}.

(** No end has one of these names yet, and they are distinct. *)
Definition unused (names : list string) cfg : Prop :=
  NoDup names /\ forall e, e ∈ names -> Labrpc.NStr e ∉ Labrpc.ends (net cfg).

Lemma make_ends_prefix names cfg m : unused names cfg -> (m <= length names)%nat ->
  exists cfg', for_each (fun j cfg =>
      let! e := go_index names j in
      let! (_, rn) := Labrpc.MakeEnd (Labrpc.NStr e) (net cfg) in
      Ret (set_net (Labrpc.Connect (Labrpc.NStr e) (Labrpc.NInt j) rn) cfg)) (upto (Z.of_nat m)) cfg = Ret cfg' /\
    ends_made (take m names) cfg cfg'.
Proof.
  intros [Hnd Hu]. induction m as [|m IH]; intros Hm.
  { exists cfg. split; [done|]. split; [by destruct cfg|done| |done|done].
    intros e. cbn. set_solver. }
  destruct IH as (cfg1 & Hrun & [Hf Hs He Hnew Hold]); [lia|].
  destruct (lookup_lt_is_Some_2 names m) as [e Hlk]; [lia|].
  assert (e ∉ take m names) as Hnot.
  { rewrite <- (take_drop_middle names m e Hlk) in Hnd. apply NoDup_app in Hnd as (_ & Hd & _).
    intros Hin. apply (Hd e Hin). set_solver. }
  assert (Labrpc.NStr e ∉ Labrpc.ends (net cfg1)) as Hfresh.
  { rewrite He. intros [Hin|Hin]; [|done]. apply (Hu e); [by eapply list_elem_of_lookup_2|done]. }
  rewrite upto_snoc, for_each_app, Hrun. cbn [rbind for_each].
  assert (go_index names (Z.of_nat m) = Ret e) as -> by (apply go_index_ret; rewrite Nat2Z.id; split; [lia|done]).
  cbn [rbind]. unfold Labrpc.MakeEnd. rewrite decide_False by done. cbn [rbind]. eexists. split; [reflexivity|].
  rewrite (take_S_r _ _ _ Hlk). split; cbn.
  - by rewrite Hf.
  - done.
  - intros e'. rewrite elem_of_union, He, elem_of_singleton, elem_of_app, list_elem_of_singleton. naive_solver.
  - intros j e' Hj. destruct (decide (e' = e)) as [->|Hne].
    + assert (j = m) as ->.
      { destruct (decide (j = m)) as [|Hjm]; [done|]. destruct Hnot.
        apply lookup_app_Some in Hj as [Hj|[Hge Hj]]; [by eapply list_elem_of_lookup_2|].
        rewrite length_take in *. destruct (j - _)%nat eqn:E in Hj; [lia|done]. }
      by rewrite !lookup_insert_eq.
    + rewrite !lookup_insert_ne by congruence. apply Hnew.
      apply lookup_app_Some in Hj as [?|[? Hj]]; [done|]. destruct (j - _)%nat; [cbn in Hj; congruence|done].
  - intros e' He'. assert (e' <> e) by set_solver. rewrite !lookup_insert_ne by congruence. apply Hold. set_solver.
Qed.

Lemma make_ends_spec names cfg : unused names cfg -> len names = n cfg ->
  exists cfg', make_ends names cfg = Ret cfg' /\ ends_made names cfg cfg'.
Proof.
  intros Hu Hl. destruct (make_ends_prefix names cfg (length names) Hu) as (cfg' & Hrun & Hm); [done|].
  rewrite firstn_all in Hm. exists cfg'. split; [|done]. unfold make_ends. rewrite <- Hl. exact Hrun.
Qed.

(** Switching ends of a list of names by position. *)
Lemma enable_names v names (to : list Z) cfg : NoDup names -> (forall j, j ∈ to -> 0 <= j < len names) ->
  exists cfg', for_each (fun t cfg =>
      let! s := go_index names t in
      Ret (set_net (Labrpc.Enable (Labrpc.NStr s) v (net cfg)) cfg)) to cfg = Ret cfg' /\
    (cfg' = set_net (net cfg') cfg /\ Labrpc.connections (net cfg') = Labrpc.connections (net cfg)) /\
    (forall (j : nat) e, names !! j = Some e -> Z.of_nat j ∈ to -> Labrpc.enabled (net cfg') !! Labrpc.NStr e = Some v) /\
    (forall e, (forall j : nat, names !! j = Some e -> Z.of_nat j ∉ to) ->
       Labrpc.enabled (net cfg') !! Labrpc.NStr e = Labrpc.enabled (net cfg) !! Labrpc.NStr e).
Proof.
  intros Hnd. revert cfg. induction to as [|t to IH]; intros cfg Ht; cbn [for_each].
  { exists cfg. split_and!; [done|by destruct cfg|done|set_solver|done]. }
  destruct (go_index_in names t) as (s & -> & Hs); [apply Ht; set_solver|]. cbn [rbind].
  destruct (IH (set_net (Labrpc.Enable (Labrpc.NStr s) v (net cfg)) cfg)) as (cfg' & Hrun & [Hr Hc] & Hin & Hout);
    [set_solver|].
  assert (0 <= t) as Ht0 by (apply (Ht t); set_solver).
  exists cfg'. split; [done|]. split; [split; [by rewrite Hr|by rewrite Hc]|]. split.
  - intros j e Hj Hjt. destruct (decide (Z.of_nat j ∈ to)) as [|Hn]; [by apply (Hin j)|].
    assert (Z.of_nat j = t) as <- by set_solver. rewrite Nat2Z.id in Hs. rewrite Hj in Hs. injection Hs as ->.
    rewrite Hout; [cbn; by rewrite lookup_insert_eq|]. intros k Hk.
    by rewrite (NoDup_lookup names k j s) by done.
  - intros e He. rewrite Hout by (intros j Hj Hin'; apply (He j Hj); by right).
    cbn. rewrite lookup_insert_ne; [done|]. intros [= ->].
    apply (He (Z.to_nat t) Hs). rewrite Z2Nat.id by done. by left.
Qed.

Lemma ConnectClientUnlocked_spec ck names (to : list Z) cfg :
  clerks cfg !! ck = Some names -> NoDup names -> (forall j, j ∈ to -> 0 <= j < len names) ->
  exists cfg', ConnectClientUnlocked ck to cfg = Ret cfg' /\
    (cfg' = set_net (net cfg') cfg /\ Labrpc.connections (net cfg') = Labrpc.connections (net cfg)) /\
    (forall (j : nat) e, names !! j = Some e -> Z.of_nat j ∈ to -> Labrpc.enabled (net cfg') !! Labrpc.NStr e = Some true) /\
    (forall e, (forall j : nat, names !! j = Some e -> Z.of_nat j ∉ to) ->
       Labrpc.enabled (net cfg') !! Labrpc.NStr e = Labrpc.enabled (net cfg) !! Labrpc.NStr e).
Proof. intros Hck. unfold ConnectClientUnlocked. rewrite Hck. apply enable_names. Qed.

(** A clerk gets, in some order, a fresh end to every server; exactly the
    ends to the servers in [to] are enabled, the counter of client ids
    advances, and no other end changes. *)
Theorem makeClient_correct fresh rand to cfg :
  unused fresh cfg -> len fresh = n cfg -> (forall j, j ∈ to -> server cfg j) ->
  exists cfg' ck handles, makeClient fresh rand to cfg = Ret (cfg', ck, handles) /\
    handles ≡ₚ fresh /\ clerks cfg' !! ck = Some fresh /\ nextClientId cfg' = nextClientId cfg + 1 /\
    (forall (j : nat) e, fresh !! j = Some e ->
       Labrpc.connections (net cfg') !! Labrpc.NStr e = Some (Some (Labrpc.NInt (Z.of_nat j))) /\
       Labrpc.enabled (net cfg') !! Labrpc.NStr e = Some (bool_decide (Z.of_nat j ∈ to))) /\
    (forall e, e ∉ fresh ->
       Labrpc.connections (net cfg') !! Labrpc.NStr e = Labrpc.connections (net cfg) !! Labrpc.NStr e /\
       Labrpc.enabled (net cfg') !! Labrpc.NStr e = Labrpc.enabled (net cfg) !! Labrpc.NStr e).
Proof.
  intros Hu Hl Hto. unfold makeClient.
  destruct (make_ends_spec fresh cfg Hu Hl) as (cfg1 & -> & [Hf _ _ Hnew Hold]). cbn [rbind].
  destruct (shuffle_perm rand fresh []) as (p & Hrun & Hp). rewrite !app_nil_r in Hrun.
  change (random_handles rand fresh) with (for_each (shuffle_step rand) (upto (len fresh)) fresh).
  rewrite Hrun. cbn [rbind].
  match goal with |- context [ConnectClientUnlocked ?ck to ?c] =>
    destruct (ConnectClientUnlocked_spec ck fresh to c) as (cfg' & -> & [Hr Hc] & Hin & Hout) end.
  { cbn. by rewrite lookup_insert_eq. } { apply Hu. } { intros j Hj. rewrite Hl. by apply Hto. }
  cbn [net nextClientId clerks] in *. cbn [rbind]. eexists cfg', _, p. split; [reflexivity|]. split; [done|].
  assert (clerks cfg' !! next_clerk cfg1 = Some fresh) as -> by (rewrite Hr; cbn; by rewrite lookup_insert_eq).
  split; [done|]. split; [rewrite Hr, Hf; done|]. rewrite Hc. split.
  - intros j e Hj. destruct (Hnew j e Hj) as [Hoff Hto']. split; [done|]. case_bool_decide as Hjt; [by apply (Hin j)|].
    rewrite Hout; [done|]. intros k Hk. by rewrite (NoDup_lookup fresh k j e) by (done || apply Hu).
  - intros e He. destruct (Hold e He) as [Hoff Hco]. split; [done|]. rewrite Hout; [done|].
    intros k Hk. destruct He. by eapply list_elem_of_lookup_2.
Qed.


(** ** Shutdown and restart *)

Lemma saved_content_up cfg i kv ps :
  kvservers cfg !! Z.to_nat i = Some (Some kv) -> saved cfg !! Z.to_nat i = Some (Some ps) -> 0 <= i ->
  saved_content cfg i = Ret (Some (persister (rf kv))).
Proof.
  intros Hk Hs Hi. unfold saved_content.
  assert (go_index (saved cfg) i = Ret (Some ps)) as -> by by apply go_index_ret.
  by assert (go_index (kvservers cfg) i = Ret (Some kv)) as -> by by apply go_index_ret.
Qed.

Lemma ShutdownServer_spec i cfg kv ps :
  well_named cfg -> server cfg i -> len (kvservers cfg) = n cfg -> len (saved cfg) = n cfg ->
  kvservers cfg !! Z.to_nat i = Some (Some kv) -> saved cfg !! Z.to_nat i = Some (Some ps) ->
  exists cfg', ShutdownServer i cfg = Ret cfg' /\ n cfg' = n cfg /\ endnames cfg' = endnames cfg /\
    Labrpc.ends (net cfg') = Labrpc.ends (net cfg) /\
    len (kvservers cfg') = n cfg /\ len (saved cfg') = n cfg /\
    kvservers cfg' !! Z.to_nat i = Some None /\ saved cfg' !! Z.to_nat i = Some (Some (persister (rf kv))) /\
    Labrpc.servers (net cfg') !! Labrpc.NInt i = Some None /\
    (forall j, server cfg j -> link cfg' i j = Some false /\ link cfg' j i = Some false).
Proof.
  intros Hw Hi Hlk Hls Hk Hs. unfold ShutdownServer.
  assert (forall j, j ∈ All cfg <-> server cfg j) as Hall by (intros j; apply elem_of_upto).
  destruct (disconnectUnlocked_switched i (All cfg) cfg Hw Hi) as (cfg1 & -> & [Hr Hoff _]); [by intros j; apply Hall| |].
  { unfold All, len, upto. rewrite length_fmap, length_seq. unfold server in Hi. lia. }
  cbn [rbind]. assert (kvservers cfg1 = kvservers cfg /\ saved cfg1 = saved cfg) as [Hk1 Hs1] by (by injection Hr).
  rewrite (saved_content_up _ i kv ps) by (cbn; rewrite ?Hk1, ?Hs1; (done || apply Hi)).
  cbn. rewrite Hs1, Hk1. unfold server in Hi.
  rewrite go_set_in by lia. cbn [rbind]. rewrite go_set_in by lia. cbn [rbind].
  eexists. split; [reflexivity|]. cbn. rewrite !len_insert.
  rewrite !list_lookup_insert_eq by (unfold len in *; lia). rewrite lookup_insert_eq.
  split_and!; [by apply rest_n|by apply rest_endnames|by injection Hr|done|done|done|by destruct (persister (rf kv))|done|].
  intros j Hj. unfold between in Hoff. split; apply Hoff; rewrite ?Hall; auto.
Qed.

(** Shutting a server down cuts it off in both directions and takes it off
    the network; starting it again makes an instance with the term, the vote,
    the log and the snapshot of the old one, which nobody can reach and which
    reaches nobody before it is connected. *)
Theorem shutdown_restart i names time rand cfg kv ps :
  well_named cfg -> server cfg i -> len (kvservers cfg) = n cfg -> len (saved cfg) = n cfg ->
  kvservers cfg !! Z.to_nat i = Some (Some kv) -> saved cfg !! Z.to_nat i = Some (Some ps) -> in_sync (rf kv) ->
  unused names cfg -> len names = n cfg -> (forall a b e, endname cfg a b = Ret e -> e ∉ names) ->
  exists cfg1 cfg2 kv', ShutdownServer i cfg = Ret cfg1 /\ StartServer i names time rand cfg1 = Ret cfg2 /\
    Labrpc.servers (net cfg1) !! Labrpc.NInt i = Some None /\
    (forall j, server cfg j -> link cfg1 i j = Some false /\ link cfg1 j i = Some false) /\
    kvservers cfg2 !! Z.to_nat i = Some (Some kv') /\ durable (rf kv') = durable (rf kv) /\
    snapshot (persister (rf kv')) = snapshot (persister (rf kv)) /\
    (forall j, server cfg j -> link cfg2 i j = Some false /\ link cfg2 j i = Some false).
Proof.
  intros Hw Hi Hlk Hls Hk Hs Hsync [Hnd Hu] Hln Hnew.
  destruct (ShutdownServer_spec i cfg kv ps Hw Hi Hlk Hls Hk Hs)
    as (cfg1 & -> & Hn1 & He1 & Hends1 & Hlk1 & Hls1 & Hk1 & Hs1 & Hsrv & Hoff).
  pose proof (wn_len _ Hw) as Hle. unfold server in Hi. exists cfg1. unfold StartServer.
  rewrite go_set_in by (rewrite He1; lia). cbn [rbind].
  destruct (make_ends_spec names (set_endnames (<[Z.to_nat i := Some names]> (endnames cfg1)) cfg1))
    as (cfg2 & -> & [Hf _ _ Hmade Hold]).
  { split; [done|]. cbn. by rewrite Hends1. } { cbn. by rewrite Hn1. }
  cbn [rbind net set_endnames] in *. rewrite Hf. unfold saved_content. cbn.
  assert (go_index (saved cfg1) i = Ret (Some (persister (rf kv)))) as ->
    by (apply go_index_ret; split; [lia|done]).
  destruct (go_index_in (kvservers cfg1) i) as (kv0 & Hkv0 & Hlk0); [lia|].
  rewrite Hk1 in Hlk0. injection Hlk0 as <-. rewrite Hkv0. cbn [rbind].
  rewrite go_set_in by lia. cbn [rbind]. rewrite go_set_in by lia. cbn [rbind].
  eexists _, _. split; [done|]. split; [reflexivity|]. split; [done|]. split; [done|]. cbn.
  rewrite list_lookup_insert_eq by (unfold len in *; lia). split; [reflexivity|].
  rewrite rf_Start. destruct (Make_eq (n cfg1) i (Copy (persister (rf kv))) time rand (rf kv) Hsync)
    as (Hd & Hp & _). split; [exact Hd|]. split; [by rewrite Hp|].
  match goal with |- forall j, _ -> link ?c _ _ = _ /\ _ => set (cfg3 := c) end.
  assert (forall a b, 0 <= a -> endname cfg3 a b = if decide (a = i) then go_index names b else endname cfg a b) as Hen.
  { intros a b Ha. unfold endname, cfg3, go_index. cbn. destruct (Z.leb_spec 0 a); [|lia].
    destruct (decide (a = i)) as [->|Hne].
    - by rewrite list_lookup_insert_eq by (rewrite He1; unfold len in *; lia).
    - rewrite list_lookup_insert_ne by lia. by rewrite He1. }
  assert (forall j, server cfg j -> link cfg3 i j = Some false) as Hout.
  { intros j Hj. unfold link. rewrite Hen, decide_True by (done || lia).
    destruct (go_index_in names j) as (e & -> & He); [unfold server in Hj; lia|]. by apply (Hmade (Z.to_nat j)). }
  intros j Hj. split; [by apply Hout|]. destruct (decide (j = i)) as [->|Hne]; [by apply Hout|].
  destruct (Hoff j Hj) as [_ Hin]. unfold link in *. rewrite Hen, decide_False by (done || apply Hj).
  assert (endname cfg1 j i = endname cfg j i) as He by (unfold endname; by rewrite He1).
  rewrite He in Hin. destruct (endname cfg j i) as [e|] eqn:Hej; [|done].
  destruct (Hold e (Hnew j i e Hej)) as [Hen' _]. cbn. by rewrite Hen'.
Qed.

(** ** The configuration of a test *)

Section make_config.
Context (n0 maxraftstate0 now r : Z) (fresh : Z -> list string).
Hypothesis fresh_len : forall i, 0 <= i < n0 -> len (fresh i) = n0.
Hypothesis fresh_distinct : NoDup (concat (fresh <$> upto n0)).

Lemma fresh_NoDup i : 0 <= i < n0 -> NoDup (fresh i).
Proof.
  intros Hi. assert (i ∈ upto n0) as (l1 & l2 & Hl)%list_elem_of_split by by apply elem_of_upto.
  rewrite Hl, fmap_app, concat_app in fresh_distinct. cbn in fresh_distinct.
  by apply NoDup_app in fresh_distinct as (_ & _ & (? & _ & _)%NoDup_app).
Qed.

Lemma fresh_disjoint i i' e : 0 <= i < n0 -> 0 <= i' < n0 -> e ∈ fresh i -> e ∈ fresh i' -> i = i'.
Proof.
  intros Hi Hi' He He'. destruct (decide (i = i')) as [|Hne]; [done|exfalso].
  assert (i ∈ upto n0) as (l1 & l2 & Hl)%list_elem_of_split by by apply elem_of_upto.
  assert (i' ∈ l1 \/ i' ∈ l2) as Hin.
  { assert (i' ∈ upto n0) as H by by apply elem_of_upto. rewrite Hl in H. set_solver. }
  assert (forall l, i' ∈ l -> e ∈ concat (fresh <$> l)) as Hc.
  { intros l (k1 & k2 & ->)%list_elem_of_split. rewrite fmap_app, concat_app. cbn. set_solver. }
  rewrite Hl, fmap_app, concat_app in fresh_distinct. cbn in fresh_distinct.
  apply NoDup_app in fresh_distinct as (_ & Hd1 & (_ & Hd2 & _)%NoDup_app).
  destruct Hin as [Hin|Hin]; [apply (Hd1 e); set_solver|apply (Hd2 e); set_solver].
Qed.

(** The servers before [m] are up, the others are not there yet. *)
Record configured (m : Z) cfg : Prop := {
  cf_n : n cfg = n0;
  cf_max : maxraftstate cfg = maxraftstate0;
  cf_len : len (endnames cfg) = n0 /\ len (kvservers cfg) = n0 /\ len (saved cfg) = n0;
  cf_up : forall i, 0 <= i < m -> endnames cfg !! Z.to_nat i = Some (Some (fresh i)) /\
    kvservers cfg !! Z.to_nat i = Some (Some (server_Start n0 i MakePersister maxraftstate0 now r)) /\
    exists p, Labrpc.servers (net cfg) !! Labrpc.NInt i = Some (Some p);
  cf_down : forall i, m <= i < n0 -> saved cfg !! Z.to_nat i = Some None;
  cf_ends : forall e, Labrpc.NStr e ∈ Labrpc.ends (net cfg) <-> exists i, 0 <= i < m /\ e ∈ fresh i;
  cf_conn : forall i (j : nat) e, 0 <= i < m -> fresh i !! j = Some e ->
    Labrpc.connections (net cfg) !! Labrpc.NStr e = Some (Some (Labrpc.NInt (Z.of_nat j)));
}.

Lemma StartServer_configured m cfg : configured m cfg -> 0 <= m < n0 ->
  exists cfg', StartServer m (fresh m) now r cfg = Ret cfg' /\ configured (m + 1) cfg'.
Proof.
  intros [Hn Hmax (Hle & Hlk & Hls) Hup Hdown Hends Hconn] Hm. unfold StartServer.
  rewrite go_set_in by lia. cbn [rbind].
  destruct (make_ends_spec (fresh m) (set_endnames (<[Z.to_nat m := Some (fresh m)]> (endnames cfg)) cfg))
    as (cfg1 & -> & [Hf Hs He Hnew Hold]).
  { split; [by apply fresh_NoDup|]. intros e Hin. cbn. rewrite Hends. intros (i & Hi & Hin').
    assert (i = m) by (apply (fresh_disjoint i m e); (done || lia)). lia. }
  { cbn. rewrite Hn. by apply fresh_len. }
  cbn [rbind net set_endnames] in *. rewrite Hf. unfold saved_content. cbn.
  assert (go_index (saved cfg) m = Ret None) as -> by (apply go_index_ret; split; [lia|apply Hdown; lia]).
  destruct (go_index_in (kvservers cfg) m) as (kv & -> & _); [lia|]. cbn [rbind].
  rewrite go_set_in by lia. cbn [rbind]. rewrite go_set_in by lia. cbn [rbind].
  eexists. split; [reflexivity|]. rewrite Hn, Hmax. split; cbn.
  - done.
  - done.
  - by rewrite !len_insert.
  - intros i Hi. destruct (decide (i = m)) as [->|Hne].
    + rewrite !list_lookup_insert_eq by (unfold len in *; lia). split_and!; [done|done|].
      eexists. by rewrite lookup_insert_eq.
    + destruct (Hup i) as (? & ? & p & ?); [lia|]. rewrite !list_lookup_insert_ne by lia. split_and!; [done|done|].
      exists p. rewrite lookup_insert_ne by congruence. by rewrite Hs.
  - intros i Hi. rewrite list_lookup_insert_ne by lia. apply Hdown. lia.
  - intros e. rewrite He, Hends. split.
    + intros [(i & Hi & ?)|?]; [exists i|exists m]; (split; [lia|done]).
    + intros (i & Hi & Hin). destruct (decide (i = m)) as [->|]; [by right|left; exists i; split; [lia|done]].
  - intros i j e Hi Hj. destruct (decide (i = m)) as [->|Hne]; [by apply (Hnew j)|].
    assert (e ∈ fresh i) as Hin by by eapply list_elem_of_lookup_2.
    assert (e ∉ fresh m) as Hnot by (intros Hin'; apply Hne; apply (fresh_disjoint i m e); (done || lia)).
    destruct (Hold e Hnot) as [_ ->]. cbn. apply (Hconn i j); [lia|done].
Qed.

Lemma start_all m cfg : configured 0 cfg -> Z.of_nat m <= n0 ->
  exists cfg', for_each (fun i cfg => StartServer i (fresh i) now r cfg) (upto (Z.of_nat m)) cfg = Ret cfg' /\
    configured (Z.of_nat m) cfg'.
Proof.
  intros H0. induction m as [|m IH]; intros Hm; [by exists cfg|].
  destruct IH as (cfg1 & Hrun & Hc); [lia|]. rewrite upto_snoc, for_each_app, Hrun. cbn [rbind for_each].
  destruct (StartServer_configured (Z.of_nat m) cfg1 Hc) as (cfg' & -> & Hc'); [lia|].
  exists cfg'. split; [done|]. by replace (Z.of_nat (Datatypes.S m)) with (Z.of_nat m + 1) by lia.
Qed.

Lemma configured_endname cfg i j : configured n0 cfg -> 0 <= i < n0 ->
  endname cfg i j = go_index (fresh i) j.
Proof.
  intros Hc Hi. destruct (cf_up n0 cfg Hc i Hi) as (He & _). unfold endname.
  by assert (go_index (endnames cfg) i = Ret (Some (fresh i))) as -> by (apply go_index_ret; split; [lia|done]).
Qed.

Lemma configured_well_named cfg : configured n0 cfg -> well_named cfg.
Proof.
  intros Hc. pose proof (cf_n n0 cfg Hc) as Hn. split.
  - rewrite Hn. apply (cf_len n0 cfg Hc).
  - rewrite Hn. intros i j Hi Hj. rewrite configured_endname by done.
    destruct (go_index_in (fresh i) j) as (e & He & _); [by rewrite fresh_len|]. by exists e.
  - rewrite Hn. intros i j i' j' e Hi Hj Hi' Hj'. rewrite !configured_endname by done.
    intros [_ He]%go_index_ret [_ He']%go_index_ret.
    assert (i = i') as <- by (apply (fresh_disjoint i i' e); (done || by eapply list_elem_of_lookup_2)).
    split; [done|]. assert (Z.to_nat j = Z.to_nat j') as Hjj by (by eapply NoDup_lookup; [apply (fresh_NoDup i Hi)| |]).
    lia.
Qed.

(** When the random names are distinct, [make_config] starts every server
    from an empty disk, gives each pair of servers an end of its own that
    leads to the second one, and leaves all of them enabled. *)
Theorem make_config_correct unreliable : 0 <= n0 ->
  exists cfg : config S, make_config n0 unreliable maxraftstate0 fresh now r = Ret cfg /\
    well_named cfg /\ n cfg = n0 /\ len (kvservers cfg) = n0 /\
    Labrpc.reliable (net cfg) = negb unreliable /\
    (forall i, server cfg i -> kvservers cfg !! Z.to_nat i = Some (Some (server_Start n0 i MakePersister maxraftstate0 now r))) /\
    (forall i j, server cfg i -> server cfg j -> link cfg i j = Some true /\ exists e, endname cfg i j = Ret e /\
       Labrpc.connections (net cfg) !! Labrpc.NStr e = Some (Some (Labrpc.NInt j))).
Proof.
  intros Hn0. unfold make_config.
  match goal with |- context [for_each _ (upto n0) ?c] => assert (configured 0 c) as H0 end.
  { assert (forall A (x : A), len (go_make n0 x) = n0) as Hl by (intros; unfold len, go_make; rewrite length_replicate; lia).
    split; cbn; [done|done|by rewrite !Hl|lia| |set_solver by lia|lia].
    - intros i Hi. apply lookup_replicate. split; [done|lia]. }
  destruct (start_all (Z.to_nat n0) _ H0) as (cfg1 & Hrun & Hc); [lia|]. rewrite Z2Nat.id in Hrun, Hc by done.
  rewrite Hrun. cbn [rbind]. pose proof (configured_well_named cfg1 Hc) as Hw. pose proof (cf_n _ _ Hc) as Hn.
  destruct (for_each_switched (fun i cfg => connectUnlocked i (All cfg) cfg) (fun i => between i (upto n0)) true
    (upto (n cfg1)) cfg1 Hw) as (cfg2 & Hrun2 & [Hr Hin _]).
  { intros i c Hi%elem_of_upto Hr. unfold All. rewrite (rest_n _ _ Hr), Hn. apply connectUnlocked_switched;
      [by eapply rest_well_named|by rewrite (rest_server _ _ _ Hr)|]. intros j Hj%elem_of_upto.
    rewrite (rest_server _ _ _ Hr). unfold server. lia. }
  unfold ConnectAll. rewrite Hrun2. cbn [rbind]. eexists. split; [reflexivity|].
  assert (rest (set_net (Labrpc.Reliable (negb unreliable) (net cfg2)) cfg2) = rest cfg1) as Hr' by done.
  pose proof (rest_n _ _ Hr') as Hn'. assert (forall i, server cfg1 i <-> 0 <= i < n0) as Hsv
    by (intros i; unfold server; by rewrite Hn).
  split; [by eapply rest_well_named|]. split; [congruence|].
  assert (kvservers cfg2 = kvservers cfg1) as Hk by (by injection Hr).
  assert (Labrpc.connections (net cfg2) = Labrpc.connections (net cfg1)) as Hco by (by injection Hr).
  split; [cbn; rewrite Hk; apply (cf_len _ _ Hc)|]. split; [done|]. split.
  - intros i Hi%(rest_server _ _ _ Hr')%Hsv. cbn. rewrite Hk. by apply (cf_up _ _ Hc).
  - intros i j Hi%(rest_server _ _ _ Hr') Hj%(rest_server _ _ _ Hr'). split.
    + apply (Hin i j Hi Hj). exists i. rewrite Hn, elem_of_upto. split; [by apply Hsv|].
      left. split; [done|]. by apply elem_of_upto, Hsv.
    + destruct (wn_name _ Hw i j Hi Hj) as [e He]. exists e.
      rewrite (rest_endname _ _ _ _ Hr'). split; [done|]. cbn. rewrite Hco.
      apply Hsv in Hi, Hj. rewrite (configured_endname _ _ _ Hc Hi) in He. apply go_index_ret in He as [Hj0 He].
      rewrite (cf_conn _ _ Hc i (Z.to_nat j) e Hi He). by rewrite Z2Nat.id.
Qed.

End make_config.
End links.

(** ** A concrete cluster *)

Module Witness.

#[local] Instance Z_Gob : Gob (gval Z) := countable_Gob (gval Z).

Definition KV := Clerks.Clerks.KVServer (Cmd := Z).

Definition names (i : Z) : list string :=
  if i =? 0 then ["a"; "b"; "c"] else if i =? 1 then ["d"; "e"; "f"] else ["g"; "h"; "i"].

Lemma names_len i : 0 <= i < 3 -> len (names i) = 3.
Proof. intros _. unfold names. by repeat case_cond. Qed.

Lemma names_distinct : NoDup (concat (names <$> upto 3)).
Proof. apply (bool_decide_unpack _). vm_compute. exact I. Qed.

Lemma make_config_correct_witness : exists cfg : config KV,
  make_config 3 false (-1) names 0 0 = Ret cfg /\ link cfg 2 0 = Some true.
Proof.
  destruct (make_config_correct (S := KV) 3 (-1) 0 0 names names_len names_distinct false) as
    (cfg & Hrun & _ & Hn & _ & _ & _ & Hl).
  - lia.
  - exists cfg. split; [exact Hrun|]. apply Hl; unfold server; rewrite Hn; lia.
Defined.

(** Before the connections are made. *)
Definition empty3 : config KV :=
  mkConfig Labrpc.MakeNetwork 3 [None; None; None] [None; None; None] [None; None; None] ∅ 1003 (-1) 0 0.

Definition started : config KV :=
  match for_each (fun i cfg => StartServer i (names i) 0 0 cfg) (upto 3) empty3 with Ret c => c | Panic => empty3 end.

Lemma started_well_named : well_named started.
Proof.
  destruct (start_all 3 (-1) 0 0 names names_len names_distinct 3 empty3) as (cfg & Hrun & Hc); [|lia|].
  - split; cbn; [done|done|done|lia| | |lia].
    + intros [|[|[]|]|] Hi; try lia; done.
    + intros e. split; [set_solver|]. intros (i & ? & _). lia.
  - change (Z.of_nat 3) with 3 in *. unfold started. rewrite Hrun.
    by apply (configured_well_named 3 (-1) 0 0 names names_len names_distinct).
Qed.

(** Every member of a list of constants has a property that can be decided. *)
Local Ltac by_members H :=
  repeat (apply elem_of_cons in H as [->|H]; [apply (bool_decide_unpack _); vm_compute; exact I|]);
  destruct (proj1 (elem_of_nil _) H).

(** Server 1 leads. *)
Definition lead_1 (cfg : config KV) : config KV :=
  set_kvservers ((fun kv => match kv with
     | Some kv => Some (Clerks.Clerks.mkKVServer (Clerks.Clerks.kr_me kv) (set_leaderId 1 (Clerks.Clerks.kr_rf kv)) 0 (-1))
     | None => None end) <$> kvservers cfg) cfg.

Definition led : config KV := lead_1 started.

Lemma lead_1_well_named cfg : well_named cfg -> well_named (lead_1 cfg).
Proof. by apply same_well_named. Qed.

Lemma led_well_named : well_named led.
Proof. exact (lead_1_well_named started started_well_named). Qed.

Lemma partition_minority_witness : exists p1 p2 cfg',
  make_partition led = Ret (p1, p2) /\ partition p1 p2 led = Ret cfg' /\ 1 ∈ p2 /\ len p2 = 1 /\
  link cfg' 1 0 = Some (bool_decide (1 ∈ p2 <-> 0 ∈ p2)).
Proof.
  destruct (partition_minority led 1 true 1) as (p1 & p2 & cfg' & Hm & Hp & _ & Hin & Hl & Hlink).
  - exact led_well_named.
  - vm_compute. reflexivity.
  - lia.
  - vm_compute. reflexivity.
  - vm_compute. reflexivity.
  - exists p1, p2, cfg'. split_and!; [exact Hm|exact Hp|exact Hin|exact Hl|].
    apply Hlink; vm_compute; split; congruence.
Defined.

#[local] Existing Instance Labrpc.name_eq_dec.

Definition started_end_list : list Labrpc.name := Eval vm_compute in elements (Labrpc.ends (net started)).

Lemma started_ends : elements (Labrpc.ends (net started)) = started_end_list.
Proof. vm_compute. reflexivity. Qed.

Lemma lead_1_ends cfg : Labrpc.ends (net (lead_1 cfg)) = Labrpc.ends (net cfg).
Proof. reflexivity. Qed.

Lemma fresh_unused cfg : Labrpc.ends (net cfg) = Labrpc.ends (net started) -> unused (S := KV) ["x"; "y"; "z"] cfg.
Proof.
  intros Hends. unfold unused. rewrite Hends. clear cfg Hends. split; [apply (bool_decide_unpack _); vm_compute; exact I|].
  intros e He. rewrite <- elem_of_elements, started_ends. by_members He.
Qed.

Lemma makeClient_correct_witness : exists cfg' ck handles,
  makeClient ["x"; "y"; "z"] (fun i => i + 1) [0; 2] led = Ret (cfg', ck, handles) /\
  handles ≡ₚ ["x"; "y"; "z"] /\ clerks cfg' !! ck = Some ["x"; "y"; "z"].
Proof.
  destruct (makeClient_correct ["x"; "y"; "z"] (fun i => i + 1) [0; 2] led) as (cfg' & ck & h & Hr & Hp & Hc & _).
  - exact (fresh_unused led (lead_1_ends started)).
  - vm_compute. reflexivity.
  - intros j Hj. assert (j = 0 \/ j = 2) as [-> | ->] by set_solver; vm_compute; split; congruence.
  - exists cfg', ck, h. split_and!; [exact Hr|exact Hp|exact Hc].
Defined.

(** Server 1 has saved its state. *)
Definition kv_1 : KV := Clerks.Clerks.mkKVServer 1 (persist (Make 3 1 MakePersister 0 0)) 0 (-1).

Definition save_1 (cfg : config KV) : config KV :=
  set_kvservers (<[1%nat := Some kv_1]> (kvservers cfg)) cfg.

Lemma save_1_well_named cfg : well_named cfg -> well_named (save_1 cfg).
Proof. by apply same_well_named. Qed.

Lemma save_1_endnames cfg : endnames (save_1 cfg) = endnames cfg.
Proof. reflexivity. Qed.

Lemma save_1_ends cfg : Labrpc.ends (net (save_1 cfg)) = Labrpc.ends (net cfg).
Proof. reflexivity. Qed.

Lemma started_names : endnames started = [Some ["a"; "b"; "c"]; Some ["d"; "e"; "f"]; Some ["g"; "h"; "i"]].
Proof. vm_compute. reflexivity. Qed.

Lemma endname_in (cfg : config KV) a b e : endname cfg a b = Ret e -> exists l, Some l ∈ endnames cfg /\ e ∈ l.
Proof.
  unfold endname. intros ([l|] & [_ Hl]%go_index_ret & He)%rbind_ret; [|done]. apply go_index_ret in He as [_ He].
  exists l. split; by eapply list_elem_of_lookup_2.
Qed.

Lemma fresh_names a b e : endname (save_1 started) a b = Ret e -> e ∉ ["x"; "y"; "z"].
Proof.
  intros (l & Hl & He)%endname_in. rewrite save_1_endnames, started_names in Hl.
  repeat (apply elem_of_cons in Hl as [[= ->]|Hl];
    [by_members He|]).
  by apply elem_of_nil in Hl.
Qed.

Lemma shutdown_restart_witness : exists cfg1 cfg2 kv',
  ShutdownServer 1 (save_1 started) = Ret cfg1 /\ StartServer 1 ["x"; "y"; "z"] 0 0 cfg1 = Ret cfg2 /\
  kvservers cfg2 !! 1%nat = Some (Some kv') /\ durable (rf kv') = durable (rf kv_1).
Proof.
  destruct (shutdown_restart 1 ["x"; "y"; "z"] 0 0 (save_1 started) kv_1 MakePersister)
    as (cfg1 & cfg2 & kv' & H1 & H2 & _ & _ & H3 & H4 & _).
  - exact (save_1_well_named started started_well_named).
  - vm_compute. split; congruence.
  - vm_compute. reflexivity.
  - vm_compute. reflexivity.
  - vm_compute. reflexivity.
  - vm_compute. reflexivity.
  - apply in_sync_persist.
  - exact (fresh_unused (save_1 started) (save_1_ends started)).
  - vm_compute. reflexivity.
  - exact fresh_names.
  - exists cfg1, cfg2, kv'. split_and!; [exact H1|exact H2|exact H3|exact H4].
Defined.

Lemma randstring_ok_witness : exists s, randstring [0; 16; 131; 16; 81; 135] 3 = Ret s /\ String.length s = 3%nat.
Proof.
  destruct (randstring_ok [0; 16; 131; 16; 81; 135] 3) as (s & Hs & Hl & _).
  - lia.
  - vm_compute. congruence.
  - repeat constructor; lia.
  - exists s. split; [exact Hs|lia].
Defined.

Example randstring_ABCD : randstring [0; 16; 131; 16; 81; 135; 32; 146] 4 = Ret "ABCD".
Proof. reflexivity. Qed.

End Witness.
End KvHarnessSpec.
