(* ===== verification/CtrlHarness.v ===== *)
(** The configuration of the shardctrler tests (shardctrler/config.go): the code
    of kvraft/config.go with [ShardCtrler]s as its servers, which take no bound
    on the size of their state, and a [Leader] that skips the servers that are
    down. *)
From S2P Require Import Prelude Labgob Persister RaftState Raft Labrpc Clerks KvHarness.
Import Labgob Persist RaftState RaftNode.
Local Open Scope Z_scope.

Module CtrlHarness.
Import KvHarness.

Section config.
Context {Cmd : Type} `{!Gob (gval Cmd)}.
Abbreviation server := (Clerks.ShardCtrler (Cmd := Cmd)).

Definition ctrl_config : Type := config server.
Implicit Types cfg : ctrl_config.

(** ** Links *)

Definition ctrl_connect (i : Z) (to : list Z) cfg : res ctrl_config := connect i to cfg.
Definition ctrl_disconnect (i : Z) (from : list Z) cfg : res ctrl_config := disconnect i from cfg.
Definition ctrl_ConnectAll cfg : res ctrl_config := ConnectAll cfg.
Definition ctrl_partition (p1 p2 : list Z) cfg : res ctrl_config := partition p1 p2 cfg.

(** ** Clients *)

Definition ctrl_makeClient (fresh : list string) (rand : Z -> Z) (to : list Z) cfg
    : res (ctrl_config * nat * list string) :=
  makeClient fresh rand to cfg.
Definition ctrl_deleteClient (ck : nat) cfg : ctrl_config := deleteClient ck cfg.
Definition ctrl_ConnectClient (ck : nat) (to : list Z) cfg : res ctrl_config := ConnectClient ck to cfg.
Definition ctrl_DisconnectClient (ck : nat) (from : list Z) cfg : res ctrl_config := DisconnectClient ck from cfg.

(** ** Servers *)

Definition ctrl_ShutdownServer (i : Z) cfg : res ctrl_config := ShutdownServer i cfg.
Definition ctrl_StartServer (i : Z) (fresh : list string) (now r : Z) cfg : res ctrl_config :=
  StartServer i fresh now r cfg.
Definition ctrl_cleanup (failed : bool) (start now : Z) cfg : res ctrl_config := cleanup failed start now cfg.
Definition ctrl_LogSize cfg : res Z := LogSize cfg.

(** There is no field [maxraftstate], and [ctrl_StartServer] does not use it. *)
Definition ctrl_make_config (n0 : Z) (unreliable : bool) (fresh : Z -> list string) (now r : Z) : res ctrl_config :=
  make_config n0 unreliable 0 fresh now r.

(** ** Leaders and partitions *)

(** The first server that is up and says it leads, from [i] on. *)
Fixpoint ctrl_find_leader (kvs : list (option server)) (i : Z) : bool * Z :=
  match kvs with
  | [] => (false, 0)
  | None :: kvs => ctrl_find_leader kvs (i + 1)
  | Some kv :: kvs =>
      let '(_, is_leader) := GetState (rf kv) in
      if (is_leader : bool) then (true, i) else ctrl_find_leader kvs (i + 1)
  end.

Definition ctrl_Leader cfg : bool * Z := ctrl_find_leader (kvservers cfg) 0.

Definition ctrl_make_partition cfg : res (list Z * list Z) :=
  let '(_, l) := ctrl_Leader cfg in split_servers (n cfg) l.

End config.
End CtrlHarness.
