(* ===== verification/CtrlHarnessSpec.v ===== *)
(** What holds of the shardctrler configuration beyond the theorems on
    kvraft/config.go, which are proved for every server type. *)
From S2P Require Import Prelude Labgob Persister RaftState Raft Labrpc Clerks KvHarness KvHarnessSpec CtrlHarness.
Import Labgob Persist RaftState RaftNode KvHarness CtrlHarness.
Local Open Scope Z_scope.

Module CtrlHarnessSpec.

Section leader.
Context {Cmd : Type} `{!Gob (gval Cmd)}.
Implicit Types (cfg : ctrl_config (Cmd := Cmd)) (kvs : list (option (Clerks.ShardCtrler (Cmd := Cmd)))).

(** [kv] is up and leads. *)
Definition leads (s : option (Clerks.ShardCtrler (Cmd := Cmd))) : bool :=
  match s with Some kv => (GetState (rf kv)).2 | None => false end.

Lemma ctrl_find_leader_spec kvs i :
  (exists (k : nat), ctrl_find_leader kvs i = (true, i + Z.of_nat k) /\
     (exists s, kvs !! k = Some s /\ leads s = true) /\ forall (j : nat) s, (j < k)%nat -> kvs !! j = Some s -> leads s = false)
  \/ ctrl_find_leader kvs i = (false, 0) /\ forall s, s ∈ kvs -> leads s = false.
Proof.
  revert i. induction kvs as [|s kvs IH]; intros i; cbn [ctrl_find_leader].
  { right. split; [done|]. intros s Hs. by apply elem_of_nil in Hs. }
  assert (ctrl_find_leader (s :: kvs) i = if leads s then (true, i) else ctrl_find_leader kvs (i + 1)) as E.
  { destruct s as [kv|]; cbn [ctrl_find_leader leads]; [|done]. by destruct (GetState (rf kv)) as [? []]. }
  cbn [ctrl_find_leader] in E. rewrite E. destruct (leads s) eqn:Hs.
  { left. exists 0%nat. split; [f_equal; lia|]. split; [by exists s|lia]. }
  destruct (IH (i + 1)) as [(k & -> & Hk & Hl)|[-> Hl]]; [left|right].
  - exists (S k). split; [f_equal; lia|]. split; [done|].
    intros [|j] s' Hj Hs'; [by injection Hs' as <-|]. apply (Hl j); [lia|done].
  - split; [done|]. intros s' [->|Hin]%elem_of_cons; [done|by apply Hl].
Qed.

(** [ctrl_Leader] never fails, whichever servers are down: it names the first
    server that leads, and server 0 when there is none. *)
Theorem ctrl_Leader_correct cfg :
  (exists (l : nat), ctrl_Leader cfg = (true, Z.of_nat l) /\ (exists s, kvservers cfg !! l = Some s /\ leads s = true) /\
     forall (j : nat) s, (j < l)%nat -> kvservers cfg !! j = Some s -> leads s = false)
  \/ ctrl_Leader cfg = (false, 0) /\ forall s, s ∈ kvservers cfg -> leads s = false.
Proof. apply (ctrl_find_leader_spec (kvservers cfg) 0). Qed.

(** With an odd number of servers, some of them possibly down,
    [ctrl_make_partition] and [ctrl_partition] cut off the leader in a part of
    [n/2] servers, or server 0 when no server leads. *)
Theorem ctrl_partition_minority cfg k :
  KvHarnessSpec.well_named cfg -> n cfg = 2 * k + 1 -> 1 <= k -> len (kvservers cfg) = n cfg ->
  exists p1 p2 cfg', ctrl_make_partition cfg = Ret (p1, p2) /\ ctrl_partition p1 p2 cfg = Ret cfg' /\
    p1 ++ p2 ≡ₚ All cfg /\ (ctrl_Leader cfg).2 ∈ p2 /\ len p2 = k /\
    forall i j, KvHarnessSpec.server cfg i -> KvHarnessSpec.server cfg j ->
      KvHarnessSpec.link cfg' i j = Some (bool_decide (i ∈ p2 <-> j ∈ p2)).
Proof.
  intros Hw Hn Hk Hlen. unfold ctrl_make_partition. destruct (ctrl_Leader cfg) as [b l] eqn:Hl. cbn [snd].
  apply (KvHarnessSpec.split_parted cfg k l Hw Hn Hk).
  destruct (ctrl_find_leader_spec (kvservers cfg) 0) as [(j & E & (s & Hs & _) & _)|[E _]];
    unfold ctrl_Leader in Hl; rewrite E in Hl; injection Hl as <- <-; [|lia].
  apply lookup_lt_Some in Hs. unfold len in Hlen. lia.
Qed.

End leader.
End CtrlHarnessSpec.
