(* ===== verification/ShardHarness.v ===== *)
(** The harness of the tests of shardkv/config.go: three groups of key/value
    servers, three shard controllers and the clerks of both. *)
From stdpp Require Import pretty.
From S2P Require Import Prelude Labgob Persister RaftState Raft Labrpc Clerks.
Import Labgob Persist RaftState RaftNode.
Local Open Scope Z_scope.

Module ShardHarness.

Section config.
Context {Cmd : Type} `{!Gob (gval Cmd)}.

Abbreviation ShardKV := (Clerks.ShardKV (Cmd := Cmd)).
Abbreviation ShardCtrler := (Clerks.ShardCtrler (Cmd := Cmd)).

Record group := mkGroup {
  gid : Z;
  servers : list (option ShardKV);
  saved : list (option Persister);
  endnames : list (option (list string));
  mendnames : list (option (list string));
}.

(** The groups are pointers of which nobody else keeps a copy; [mck] is the
    list of ends of the controller's clerk. *)
Record config := mkConfig {
  net : Labrpc.Network;
  nctrlers : Z;
  ctrlerservers : list (option ShardCtrler);
  mck : list string;
  ngroups : Z;
  n : Z;
  groups : list (option group);
  clerks : gmap nat (list string);
  nextClientId : Z;
  maxraftstate : Z;
  next_server : nat;
  next_clerk : nat;
}.

Implicit Types cfg : config.

Definition set_net x cfg : config :=
  mkConfig x (nctrlers cfg) (ctrlerservers cfg) (mck cfg) (ngroups cfg) (n cfg) (groups cfg) (clerks cfg)
    (nextClientId cfg) (maxraftstate cfg) (next_server cfg) (next_clerk cfg).
Definition set_groups x cfg : config :=
  mkConfig (net cfg) (nctrlers cfg) (ctrlerservers cfg) (mck cfg) (ngroups cfg) (n cfg) x (clerks cfg)
    (nextClientId cfg) (maxraftstate cfg) (next_server cfg) (next_clerk cfg).
Definition set_ctrlerservers x cfg : config :=
  mkConfig (net cfg) (nctrlers cfg) x (mck cfg) (ngroups cfg) (n cfg) (groups cfg) (clerks cfg)
    (nextClientId cfg) (maxraftstate cfg) (next_server cfg) (next_clerk cfg).

(** [cfg.net.AddServer(name, srv)] for a new server. *)
Definition add_server (name : string) cfg : config :=
  mkConfig (Labrpc.AddServer (Labrpc.NStr name) (next_server cfg) (net cfg)) (nctrlers cfg) (ctrlerservers cfg)
    (mck cfg) (ngroups cfg) (n cfg) (groups cfg) (clerks cfg) (nextClientId cfg) (maxraftstate cfg)
    (next_server cfg + 1)%nat (next_clerk cfg).

(** ** Names *)

(** [strconv.Itoa] is decimal notation. *)
Definition Itoa (i : Z) : string := pretty i.

Definition ctrlername (i : Z) : string := "ctrler" +:+ Itoa i.
Definition servername (g i : Z) : string := "server-" +:+ Itoa g +:+ "-" +:+ Itoa i.

(** ** Ends *)

(** A new end called [e], connected to a server and enabled. *)
Definition make_enabled (e server : string) cfg : res config :=
  let! (_, rn) := Labrpc.MakeEnd (Labrpc.NStr e) (net cfg) in
  let rn := Labrpc.Connect (Labrpc.NStr e) (Labrpc.NStr server) rn in
  Ret (set_net (Labrpc.Enable (Labrpc.NStr e) true rn) cfg).

(** The function that clerks and servers get as [make_end]. *)
Definition make_end (fresh servername : string) cfg : res config := make_enabled fresh servername cfg.

(** An end to every controller, with the names [fresh]. *)
Definition ctrler_ends (fresh : list string) cfg : res config :=
  for_each (fun j cfg =>
    let! e := go_index fresh j in make_enabled e (ctrlername j) cfg) (upto (nctrlers cfg)) cfg.

(** ** Clerks *)

(** [endnames] has room for [n] names, and gets one per controller. *)
Definition makeClient (fresh : list string) cfg : res (config * nat) :=
  let endnames := go_make (n cfg) "" in
  let! (endnames, cfg) := for_each (fun j s =>
    let! name := go_index fresh j in
    let! l := go_set s.1 j name in
    let! e := go_index l j in
    let! cfg := make_enabled e (ctrlername j) s.2 in
    Ret (l, cfg)) (upto (nctrlers cfg)) (endnames, cfg) in
  let ck := next_clerk cfg in
  Ret (mkConfig (net cfg) (nctrlers cfg) (ctrlerservers cfg) (mck cfg) (ngroups cfg) (n cfg) (groups cfg)
         (<[ck := endnames]> (clerks cfg)) (nextClientId cfg + 1) (maxraftstate cfg) (next_server cfg) (ck + 1)%nat, ck).

Definition deleteClient (ck : nat) cfg : config :=
  mkConfig (net cfg) (nctrlers cfg) (ctrlerservers cfg) (mck cfg) (ngroups cfg) (n cfg) (groups cfg)
    (delete ck (clerks cfg)) (nextClientId cfg) (maxraftstate cfg) (next_server cfg) (next_clerk cfg).

(** The ends of a new clerk of the controllers. *)
Definition shardclerk (fresh : list string) cfg : res (config * list string) :=
  let! cfg := ctrler_ends fresh cfg in Ret (cfg, take (Z.to_nat (nctrlers cfg)) fresh).

(** ** Servers of a group *)

Definition get_group (gi : Z) cfg : res group :=
  let! g := go_index (groups cfg) gi in
  match g with Some g => Ret g | None => Panic end.

Definition set_group (gi : Z) (g : group) cfg : res config :=
  let! gs := go_set (groups cfg) gi (Some g) in Ret (set_groups gs cfg).

(** The contents behind [gg.saved[i]]. *)
Definition saved_content (gg : group) (i : Z) : res (option Persister) :=
  let! s := go_index (saved gg) i in
  let! kv := go_index (servers gg) i in
  Ret match s, kv with
      | Some _, Some kv => Some (persister (Clerks.kv_rf kv))
      | s, _ => s
      end.

(** The [k] first names of a slice of names; nil has none. *)
Definition disable_names (names : option (list string)) (k : Z) cfg : res config :=
  for_each (fun j cfg =>
    let! e := match names with Some l => go_index l j | None => Panic end in
    Ret (set_net (Labrpc.Enable (Labrpc.NStr e) false (net cfg)) cfg)) (upto k) cfg.

Definition ShutdownServer (gi i : Z) cfg : res config :=
  let! gg := get_group gi cfg in
  let! names := if 0 <? len (servers gg) then go_index (endnames gg) i else Ret None in
  let! cfg := disable_names names (len (servers gg)) cfg in
  let! mnames := go_index (mendnames gg) i in
  let! cfg := disable_names mnames (len (default [] mnames)) cfg in
  let cfg := set_net (Labrpc.DeleteServer (Labrpc.NStr (servername (gid gg) i)) (net cfg)) cfg in
  let! content := saved_content gg i in
  let! s := go_set (saved gg) i (Copy <$> content) in
  (* the old instance is killed and forgotten *)
  let! kvs := go_set (servers gg) i None in
  set_group gi (mkGroup (gid gg) kvs s (endnames gg) (mendnames gg)) cfg.

Definition ShutdownGroup (gi : Z) cfg : res config :=
  for_each (fun i cfg => ShutdownServer gi i cfg) (upto (n cfg)) cfg.

(** [fresh] and [mfresh] are the random names towards the group and towards the
    controllers. *)
Definition StartServer (gi i : Z) (fresh mfresh : list string) (now r : Z) cfg : res config :=
  let! gg := get_group gi cfg in
  let! es := go_set (endnames gg) i (Some fresh) in
  let! cfg := for_each (fun j cfg =>
    let! e := go_index fresh j in make_enabled e (servername (gid gg) j) cfg) (upto (n cfg)) cfg in
  let! ms := go_set (mendnames gg) i (Some mfresh) in
  let! cfg := ctrler_ends mfresh cfg in
  let! content := saved_content gg i in
  let ps := match content with Some ps => Copy ps | None => MakePersister end in
  let! s := go_set (saved gg) i (Some ps) in
  let kv := Clerks.kv_StartServer (n cfg) i ps (maxraftstate cfg) (gid gg) now r in
  let! kvs := go_set (servers gg) i (Some kv) in
  let! cfg := set_group gi (mkGroup (gid gg) kvs s es ms) cfg in
  Ret (add_server (servername (gid gg) i) cfg).

(** The names of server [i] are [fresh i]. *)
Definition StartGroup (gi : Z) (fresh : Z -> list string * list string) (now r : Z) cfg : res config :=
  for_each (fun i cfg => StartServer gi i (fresh i).1 (fresh i).2 now r cfg) (upto (n cfg)) cfg.

(** ** Controllers *)

Definition StartCtrlerserver (i : Z) (fresh : list string) (now r : Z) cfg : res config :=
  let! cfg := ctrler_ends fresh cfg in
  let p := MakePersister in
  let! cs := go_set (ctrlerservers cfg) i (Some (Clerks.ctrl_StartServer (nctrlers cfg) i p now r)) in
  Ret (add_server (ctrlername i) (set_ctrlerservers cs cfg)).

(** The groups that [joinm] passes to [Join], and the ids that [leavem] passes
    to [Leave]. *)
Definition joinm_args (gis : list Z) cfg : res (gmap Z (list string)) :=
  for_each (fun g m =>
    let! gg := get_group g cfg in
    Ret (<[gid gg := (fun i => servername (gid gg) i) <$> upto (n cfg)]> m)) gis ∅.

Definition leavem_args (gis : list Z) cfg : res (list Z) :=
  for_each (fun g gids => let! gg := get_group g cfg in Ret (gids ++ [gid gg])) gis [].

Section clerk.
Context {W end_ : Type} `{!Clerks.Rpc W end_} (end_of : string -> end_) (fuel : nat).

Definition joinm (gis : list Z) cfg (w : W) : res (option W) :=
  let! m := joinm_args gis cfg in Ret (Clerks.Join fuel (end_of <$> mck cfg) m w).
Definition join (gi : Z) cfg (w : W) : res (option W) := joinm [gi] cfg w.

Definition leavem (gis : list Z) cfg (w : W) : res (option W) :=
  let! gids := leavem_args gis cfg in Ret (Clerks.Leave fuel (end_of <$> mck cfg) gids w).
Definition leave (gi : Z) cfg (w : W) : res (option W) := leavem [gi] cfg w.
End clerk.

(** ** The whole configuration *)

(** The random names: of the controllers, of their clerk and of the servers. *)
Record random_names := mkNames {
  ctrler_names : Z -> list string;
  clerk_names : list string;
  server_names : Z -> Z -> list string * list string;
}.

Definition new_group (gi : Z) cfg : group :=
  mkGroup (100 + gi) (go_make (n cfg) None) (go_make (n cfg) None) (go_make (n cfg) None)
    (go_make (nctrlers cfg) None).

(** [n] is set after the controllers are started. *)
Definition make_config (n0 : Z) (unreliable : bool) (maxraftstate0 : Z) (names : random_names) (now r : Z)
    : res config :=
  let cfg := mkConfig Labrpc.MakeNetwork 3 (go_make 3 None) [] 0 0 [] ∅ 0 maxraftstate0 0%nat 0%nat in
  let! cfg := for_each (fun i cfg => StartCtrlerserver i (ctrler_names names i) now r cfg) (upto (nctrlers cfg)) cfg in
  let! (cfg, ends) := shardclerk (clerk_names names) cfg in
  let cfg := mkConfig (net cfg) (nctrlers cfg) (ctrlerservers cfg) ends 3 n0 (go_make 3 None) (clerks cfg)
               (nextClientId cfg) (maxraftstate cfg) (next_server cfg) (next_clerk cfg) in
  let! cfg := for_each (fun gi cfg =>
    let! cfg := set_group gi (new_group gi cfg) cfg in
    for_each (fun i cfg => StartServer gi i (server_names names gi i).1 (server_names names gi i).2 now r cfg)
      (upto (n cfg)) cfg) (upto (ngroups cfg)) cfg in
  Ret (mkConfig (Labrpc.Reliable (negb unreliable) (net cfg)) (nctrlers cfg) (ctrlerservers cfg) (mck cfg)
         (ngroups cfg) (n cfg) (groups cfg) ∅ (n cfg + 1000) (maxraftstate cfg) (next_server cfg) (next_clerk cfg)).

(** Times are in nanoseconds; [failed] is [t.Failed()] and [start] the time of
    [make_config]. *)
Definition second : Z := 1000000000.

Definition checkTimeout (failed : bool) (start now : Z) : res unit :=
  if negb failed && (now - start >? 120 * second) then Panic else Ret tt.

Definition cleanup (failed : bool) (start now : Z) cfg : res config :=
  let! cfg := for_each (fun gi cfg => ShutdownGroup gi cfg) (upto (ngroups cfg)) cfg in
  let! cfg := for_each (fun i cfg =>
    let! c := go_index (ctrlerservers cfg) i in
    match c with
    | None => Panic
    | Some c => let! cs := go_set (ctrlerservers cfg) i (Some (Clerks.ctrl_Kill c)) in Ret (set_ctrlerservers cs cfg)
    end) (upto (nctrlers cfg)) cfg in
  let! rn := Labrpc.Cleanup (net cfg) in
  let! _ := checkTimeout failed start now in
  Ret (set_net rn cfg).

(** ** No log may grow too big *)

Definition check_size (maxraftstate : Z) (ps : Persister) : res unit :=
  let raft := RaftStateSize ps in
  let snap := len (ReadSnapshot ps) in
  if (maxraftstate >=? 0) && (raft >? 8 * maxraftstate) then Panic
  else if (maxraftstate <? 0) && (snap >? 0) then Panic
  else Ret tt.

Definition checklogs cfg : res unit :=
  for_each (fun gi _ =>
    for_each (fun i _ =>
      let! gg := get_group gi cfg in
      let! content := saved_content gg i in
      match content with
      | None => Panic
      | Some ps => check_size (maxraftstate cfg) ps
      end) (upto (n cfg)) tt) (upto (ngroups cfg)) tt.

End config.
End ShardHarness.
