(* ===== verification/ShardHarnessSpec.v ===== *)
(** What holds of the harness of shardkv/config.go: the sizes it works for, the
    names of its servers and the bound on their logs. *)
From stdpp Require Import pretty.
From S2P Require Import Prelude Labgob Persister RaftState Raft Labrpc Clerks ShardHarness.
Import Labgob Persist RaftState RaftNode ShardHarness.
Local Open Scope Z_scope.

Module ShardHarnessSpec.

Section harness.
Context {Cmd : Type} `{!Gob (gval Cmd)}.
Implicit Types cfg : config (Cmd := Cmd).

(** ** Sizes *)

(** Making ends only changes the network. *)
Definition rest cfg := (nctrlers cfg, ngroups cfg, n cfg, groups cfg, clerks cfg).

Lemma make_enabled_rest e s cfg cfg' : make_enabled e s cfg = Ret cfg' -> cfg' = set_net (net cfg') cfg.
Proof. unfold make_enabled. by intros ([x rn] & _ & [= <-])%rbind_ret. Qed.

Lemma make_all_rest (name : Z -> res string) (server : Z -> string) l cfg cfg' :
  for_each (fun j cfg => let! e := name j in make_enabled e (server j) cfg) l cfg = Ret cfg' ->
  cfg' = set_net (net cfg') cfg.
Proof.
  intros Hrun. refine (for_each_inv _ (fun c => c = set_net (net c) cfg) _ cfg cfg' _ _ Hrun); [|by destruct cfg].
  intros j c c' _ Hc (e & _ & He)%rbind_ret. apply make_enabled_rest in He. rewrite He, Hc. done.
Qed.

Lemma ctrler_ends_rest fresh cfg cfg' : ctrler_ends fresh cfg = Ret cfg' -> cfg' = set_net (net cfg') cfg.
Proof. apply make_all_rest. Qed.

Lemma get_group_insert gi g gs cfg :
  groups cfg = <[Z.to_nat gi := Some g]> gs -> 0 <= gi < len gs -> get_group gi cfg = Ret g.
Proof.
  intros Hg Hi. unfold get_group. rewrite Hg.
  assert (go_index (<[Z.to_nat gi := Some g]> gs) gi = Ret (Some g)) as ->; [|done].
  apply go_index_ret. split; [lia|]. apply list_lookup_insert_eq. unfold len in Hi. lia.
Qed.

Lemma StartServer_sizes gi i fresh mfresh now r cfg cfg' : StartServer gi i fresh mfresh now r cfg = Ret cfg' ->
  nctrlers cfg' = nctrlers cfg /\ n cfg' = n cfg /\ ngroups cfg' = ngroups cfg /\
  exists g g', get_group gi cfg = Ret g /\ get_group gi cfg' = Ret g' /\
    0 <= i < len (mendnames g) /\ len (mendnames g') = len (mendnames g).
Proof.
  unfold StartServer. intros (g & Hg & Hrun)%rbind_ret.
  apply rbind_ret in Hrun as (es & _ & Hrun). apply rbind_ret in Hrun as (c1 & H1 & Hrun).
  apply rbind_ret in Hrun as (ms & (Hi & ->)%go_set_ret & Hrun). apply rbind_ret in Hrun as (c2 & H2 & Hrun).
  apply rbind_ret in Hrun as (ct & _ & Hrun). apply rbind_ret in Hrun as (s & _ & Hrun).
  apply rbind_ret in Hrun as (kvs & _ & Hrun). apply rbind_ret in Hrun as (c3 & H3 & Hrun).
  injection Hrun as <-. apply make_all_rest in H1. apply ctrler_ends_rest in H2.
  unfold set_group in H3. apply rbind_ret in H3 as (gs & (Hgi & ->)%go_set_ret & [= <-]).
  rewrite H2, H1 in *. cbn in *. split_and!; [done..|].
  exists g. eexists. split; [done|]. split; [|split; [done|]].
  - by eapply get_group_insert.
  - cbn. by rewrite len_insert.
Qed.

(** All servers of a group get through only if there are as many names of
    controllers. *)
Lemma start_group_sizes gi (fresh : Z -> list string * list string) now r l cfg cfg' k :
  for_each (fun i cfg => StartServer gi i (fresh i).1 (fresh i).2 now r cfg) l cfg = Ret cfg' ->
  (forall g, get_group gi cfg = Ret g -> len (mendnames g) = k) ->
  (forall i, i ∈ l -> i < k) /\ n cfg' = n cfg /\ nctrlers cfg' = nctrlers cfg /\ ngroups cfg' = ngroups cfg.
Proof.
  revert cfg. induction l as [|i l IH]; intros cfg; cbn [for_each]; [intros [= <-]; set_solver|].
  intros (c & Hs & Hrun)%rbind_ret Hk. apply StartServer_sizes in Hs as (Hc & Hn & Hng & g & g' & Hg & Hg' & Hi & Hl).
  specialize (Hk g Hg). destruct (IH c Hrun) as (Hall & Hn' & Hc' & Hng').
  { intros g0 Hg0. rewrite Hg' in Hg0. injection Hg0 as <-. lia. }
  split_and!; [|congruence..]. intros j [->|Hj]%elem_of_cons; [lia|auto].
Qed.

Lemma get_set_group gi g cfg cfg' : set_group gi g cfg = Ret cfg' ->
  get_group gi cfg' = Ret g /\ n cfg' = n cfg /\ nctrlers cfg' = nctrlers cfg /\ ngroups cfg' = ngroups cfg.
Proof.
  unfold set_group. intros (gs & (Hgi & ->)%go_set_ret & [= <-])%rbind_ret. split; [|done].
  by eapply get_group_insert.
Qed.

Lemma start_ctrlers_sizes (names : Z -> list string) now r l cfg cfg' :
  for_each (fun i cfg => StartCtrlerserver i (names i) now r cfg) l cfg = Ret cfg' -> nctrlers cfg' = nctrlers cfg.
Proof.
  intros Hrun. refine (for_each_inv _ (fun c => nctrlers c = nctrlers cfg) _ cfg cfg' _ eq_refl Hrun).
  intros i c c' _ Hc (c1 & H1 & Hs)%rbind_ret. apply rbind_ret in Hs as (cs & _ & [= <-]).
  apply ctrler_ends_rest in H1. cbn. by rewrite H1.
Qed.

Lemma make_config_sizes n0 unreliable mx names now r cfg : 0 <= n0 ->
  make_config n0 unreliable mx names now r = Ret cfg -> n0 <= 3 /\ n cfg = n0 /\ nctrlers cfg = 3.
Proof.
  intros Hn0. unfold make_config. intros (c1 & H1 & Hrun)%rbind_ret. apply start_ctrlers_sizes in H1. cbn in H1.
  apply rbind_ret in Hrun as ([c2 ends] & H2 & Hrun). unfold shardclerk in H2.
  apply rbind_ret in H2 as (c2' & H2%ctrler_ends_rest & [= <- <-]).
  apply rbind_ret in Hrun as (c3 & H3 & [= <-]). cbn [n nctrlers ngroups] in *.
  assert (nctrlers c2' = 3) as Hc2 by (rewrite H2; cbn; congruence).
  assert (forall l c c', nctrlers c = 3 -> n c = n0 -> for_each (fun gi cfg =>
      let! cfg := set_group gi (new_group gi cfg) cfg in
      for_each (fun i cfg => StartServer gi i (server_names names gi i).1 (server_names names gi i).2 now r cfg)
        (upto (n cfg)) cfg) l c = Ret c' ->
    (l <> [] -> n0 <= 3) /\ nctrlers c' = 3 /\ n c' = n0) as Hloop.
  { induction l as [|gi l IH]; intros c c' Hc Hn; cbn [for_each]; [by intros [= <-]|].
    intros (c5 & (c6 & H6 & H5)%rbind_ret & Hl)%rbind_ret.
    apply get_set_group in H6 as (Hg & Hn6 & Hc6 & _).
    destruct (start_group_sizes gi (server_names names gi) now r _ c6 c5 3 H5) as (Hall & Hn5 & Hc5 & _).
    { intros g Hg'. rewrite Hg in Hg'. injection Hg' as <-. cbn. by rewrite Hc. }
    destruct (IH c5 c') as (_ & ? & ?); [congruence|congruence|done|]. split; [|done]. intros _.
    destruct (Z.le_gt_cases n0 3); [done|]. specialize (Hall 3). rewrite elem_of_upto in Hall. lia. }
  apply Hloop in H3 as (Hle & Hc3 & Hn3); [|exact Hc2|reflexivity]. split; [by apply Hle|done].
Qed.

Lemma makeClient_sizes fresh cfg p : makeClient fresh cfg = Ret p -> 0 < nctrlers cfg -> nctrlers cfg <= n cfg.
Proof.
  unfold makeClient. intros ([l c] & Hloop & _)%rbind_ret Hpos.
  assert (forall js s s', for_each (fun j s =>
      let! name := go_index fresh j in
      let! l := go_set s.1 j name in
      let! e := go_index l j in
      let! cfg := make_enabled e (ctrlername j) s.2 in
      Ret (l, cfg)) js s = Ret s' -> forall j, j ∈ js -> j < len s.1) as Hall.
  { induction js as [|j js IH]; intros s s'; cbn [for_each]; [set_solver|].
    intros (s1 & Hs & Hrun)%rbind_ret. apply rbind_ret in Hs as (nm & _ & Hs).
    apply rbind_ret in Hs as (l1 & (Hj & ->)%go_set_ret & Hs). apply rbind_ret in Hs as (e & _ & Hs).
    apply rbind_ret in Hs as (c1 & _ & [= <-]). intros i [->|Hi]%elem_of_cons; [lia|].
    specialize (IH _ _ Hrun i Hi). cbn in IH. by rewrite len_insert in IH. }
  assert (nctrlers cfg - 1 < len (go_make (n cfg) ""%string)) as Hlt.
  { apply (Hall _ _ _ Hloop). apply elem_of_upto. lia. }
  unfold len, go_make in Hlt. rewrite length_replicate in Hlt. lia.
Qed.

(** ** It works for three *)

(** The names [l] are distinct and not taken. *)
Definition free (l : list string) cfg : Prop :=
  NoDup l /\ forall x, x ∈ l -> Labrpc.NStr x ∉ Labrpc.ends (net cfg).

Lemma free_net l cfg cfg' : Labrpc.ends (net cfg') = Labrpc.ends (net cfg) -> free l cfg -> free l cfg'.
Proof. unfold free. by intros ->. Qed.

Lemma make_enabled_free e server l cfg : free (e :: l) cfg ->
  exists rn, make_enabled e server cfg = Ret (set_net rn cfg) /\ free l (set_net rn cfg).
Proof.
  intros [[He Hnd]%NoDup_cons Hfree]. unfold make_enabled, Labrpc.MakeEnd.
  rewrite decide_False by (apply Hfree; set_solver). eexists. split; [done|]. split; [done|].
  intros x Hx. cbn. apply not_elem_of_union. split; [|apply Hfree; set_solver].
  intros [= ->]%elem_of_singleton. done.
Qed.

(** A loop of which every iteration uses up its names. *)
Lemma for_each_free {A} (f : A -> config -> res config) (used : A -> list string) (P : config -> Prop) xs l cfg :
  (forall x c l, x ∈ xs -> P c -> free (used x ++ l) c -> exists c', f x c = Ret c' /\ P c' /\ free l c') ->
  P cfg -> free ((xs ≫= used) ++ l) cfg -> exists cfg', for_each f xs cfg = Ret cfg' /\ P cfg' /\ free l cfg'.
Proof.
  revert cfg. induction xs as [|x xs IH]; intros cfg Hf HP Hfree; cbn [for_each]; [by exists cfg|].
  cbn in Hfree. rewrite <- app_assoc in Hfree. destruct (Hf x cfg _ ltac:(left) HP Hfree) as (c & -> & HPc & Hc).
  cbn [rbind]. apply IH; [|done|exact Hc]. intros y c0 l0 Hy. apply Hf. by right.
Qed.

(** The names of a list, one by one. *)
Definition nth_name (fresh : list string) (j : Z) : list string := option_list (fresh !! Z.to_nat j).

Lemma nth_names fresh : upto (len fresh) ≫= nth_name fresh = fresh.
Proof.
  assert (forall l1 l2 : list string, (Z.of_nat <$> seq (length l1) (length l2)) ≫= nth_name (l1 ++ l2) = l2) as H.
  { intros l1 l2. revert l1. induction l2 as [|x l2 IH]; intros l1; [done|]. cbn. unfold nth_name at 1.
    rewrite Nat2Z.id, list_lookup_middle by done. cbn. f_equal. specialize (IH (l1 ++ [x])).
    rewrite length_app, <- app_assoc in IH. cbn in IH. rewrite Nat.add_1_r in IH. exact IH. }
  unfold upto, len. rewrite Nat2Z.id. exact (H [] fresh).
Qed.

Lemma make_all_free (server : Z -> string) fresh l cfg : free (fresh ++ l) cfg ->
  exists rn, for_each (fun j cfg => let! e := go_index fresh j in make_enabled e (server j) cfg) (upto (len fresh)) cfg =
    Ret (set_net rn cfg) /\ free l (set_net rn cfg).
Proof.
  intros Hfree. destruct (for_each_free
    (fun j cfg => let! e := go_index fresh j in make_enabled e (server j) cfg) (nth_name fresh)
    (fun c => exists rn, c = set_net rn cfg) (upto (len fresh)) l cfg) as (c & -> & [rn ->] & Hc).
  - intros j c l0 Hj%elem_of_upto [rn ->] Hf. destruct (go_index_in fresh j Hj) as (e & -> & He). unfold nth_name in Hf.
    rewrite He in Hf. cbn [rbind]. destruct (make_enabled_free e (server j) l0 _ Hf) as (rn' & -> & ?).
    exists (set_net rn' cfg). split; [done|]. split; [by exists rn'|done].
  - exists (net cfg). by destruct cfg.
  - by rewrite nth_names.
  - by exists rn.
Qed.

Lemma ctrler_ends_free fresh l cfg : nctrlers cfg = 3 -> len fresh = 3 -> free (fresh ++ l) cfg ->
  exists rn, ctrler_ends fresh cfg = Ret (set_net rn cfg) /\ free l (set_net rn cfg).
Proof. intros Hc Hl. unfold ctrler_ends. rewrite Hc, <- Hl. apply make_all_free. Qed.

Lemma start_ctrler_free i fresh now r l cfg :
  nctrlers cfg = 3 /\ len (ctrlerservers cfg) = 3 -> 0 <= i < 3 -> len fresh = 3 -> free (fresh ++ l) cfg ->
  exists cfg', StartCtrlerserver i fresh now r cfg = Ret cfg' /\
    (nctrlers cfg' = 3 /\ len (ctrlerservers cfg') = 3) /\ free l cfg'.
Proof.
  intros [Hc Hs] Hi Hl Hfree. unfold StartCtrlerserver.
  destruct (ctrler_ends_free fresh l cfg Hc Hl Hfree) as (rn & -> & Hf). cbn [rbind].
  rewrite go_set_in by (cbn; lia). cbn [rbind]. eexists. split; [done|]. split; [|by eapply free_net].
  cbn. by rewrite len_insert.
Qed.

(** There is a place for each of the three servers of a group, and for the
    three groups. *)
Definition group_sized (g : group (Cmd := Cmd)) : Prop :=
  len (servers g) = 3 /\ len (saved g) = 3 /\ len (endnames g) = 3 /\ len (mendnames g) = 3.

Definition sized cfg : Prop := nctrlers cfg = 3 /\ n cfg = 3 /\ ngroups cfg = 3 /\ len (groups cfg) = 3.

Definition group_there (gi : Z) cfg : Prop := sized cfg /\ exists g, get_group gi cfg = Ret g /\ group_sized g.

Lemma set_group_there gi g cfg : sized cfg -> 0 <= gi < 3 -> group_sized g ->
  exists cfg', set_group gi g cfg = Ret cfg' /\ net cfg' = net cfg /\ group_there gi cfg'.
Proof.
  intros Hz Hgi Hg. pose proof Hz as (? & ? & ? & Hl). unfold set_group. rewrite go_set_in by lia. cbn [rbind].
  eexists. split; [done|]. split; [done|]. split; [|exists g; split; [|done]].
  - unfold sized. cbn. by rewrite len_insert.
  - eapply get_group_insert; [done|lia].
Qed.

Lemma StartServer_free gi i fresh mfresh now r l cfg :
  group_there gi cfg -> 0 <= gi < 3 -> 0 <= i < 3 -> len fresh = 3 -> len mfresh = 3 -> free ((fresh ++ mfresh) ++ l) cfg ->
  exists cfg', StartServer gi i fresh mfresh now r cfg = Ret cfg' /\ group_there gi cfg' /\ free l cfg'.
Proof.
  intros [(Hc & Hn & Hng & Hgl) (g & Hg & Hs & Hsv & He & Hm)] Hgi Hi Hl Hml Hfree. rewrite <- app_assoc in Hfree.
  unfold StartServer. rewrite Hg. cbn [rbind]. rewrite go_set_in by lia. cbn [rbind]. rewrite Hn, <- Hl.
  destruct (make_all_free (servername (gid g)) fresh _ cfg Hfree) as (rn & -> & Hf). cbn [rbind].
  rewrite go_set_in by lia. cbn [rbind].
  destruct (ctrler_ends_free mfresh l (set_net rn cfg) Hc Hml Hf) as (rn' & -> & Hf'). cbn [rbind].
  unfold saved_content. destruct (go_index_in (saved g) i) as (ps & -> & _); [lia|].
  destruct (go_index_in (servers g) i) as (kv & -> & _); [lia|]. cbn [rbind].
  rewrite !go_set_in by lia. cbn [rbind].
  match goal with |- context [set_group gi ?g' ?c] =>
    destruct (set_group_there gi g' c) as (c' & -> & Hnet & Hthere) end.
  - split; [done|]. split; [exact Hn|]. by split.
  - done.
  - unfold group_sized. cbn. rewrite !len_insert. done.
  - cbn [rbind]. eexists. split; [done|]. split; [exact Hthere|]. eapply free_net; [|exact Hf']. cbn. by rewrite Hnet.
Qed.

(** The names of one server and of one group. *)
Definition server_pair (names : random_names) (gi i : Z) : list string :=
  (server_names names gi i).1 ++ (server_names names gi i).2.
Definition group_names (names : random_names) (gi : Z) : list string := upto 3 ≫= server_pair names gi.

(** The names that are drawn for three servers per group, in the order in which
    the program draws them: as many as it draws, and distinct. *)
Definition drawn (names : random_names) (fresh : list string) : list string :=
  (upto 3 ≫= ctrler_names names) ++ clerk_names names ++
  (upto 3 ≫= group_names names) ++ fresh.

Record names_ok (names : random_names) (fresh : list string) : Prop := {
  nm_ctrler : forall i, 0 <= i < 3 -> len (ctrler_names names i) = 3;
  nm_clerk : len (clerk_names names) = 3;
  nm_server : forall gi i, 0 <= gi < 3 -> 0 <= i < 3 ->
    len (server_names names gi i).1 = 3 /\ len (server_names names gi i).2 = 3;
  nm_fresh : len fresh = 3;
  nm_distinct : NoDup (drawn names fresh);
}.

Lemma make_config_three unreliable mx names fresh now r : names_ok names fresh ->
  exists cfg, make_config 3 unreliable mx names now r = Ret cfg /\ sized cfg /\ free fresh cfg.
Proof.
  intros [Hct Hck Hsv _ Hnd]. unfold make_config.
  match goal with |- context [for_each _ (upto (nctrlers ?c)) ?c] => set (cfg0 := c) end.
  destruct (for_each_free (fun i cfg => StartCtrlerserver i (ctrler_names names i) now r cfg) (ctrler_names names)
    (fun c => nctrlers c = 3 /\ len (ctrlerservers c) = 3) (upto 3)
    (clerk_names names ++ (upto 3 ≫= group_names names) ++ fresh) cfg0)
    as (c1 & Hrun1 & [Hc1 Hs1] & Hf1).
  { intros i c l Hi%elem_of_upto HP Hf. by apply start_ctrler_free; auto. }
  { done. }
  { split; [exact Hnd|]. intros x _. set_solver. }
  change (upto (nctrlers cfg0)) with (upto 3). rewrite Hrun1. cbn [rbind]. unfold shardclerk.
  destruct (ctrler_ends_free (clerk_names names) _ c1 Hc1 Hck Hf1) as (rn & -> & Hf2). cbn [rbind].
  match goal with |- context [for_each _ (upto (ngroups ?c)) ?c] => set (cfg2 := c) end.
  assert (sized cfg2) as Hz2 by done.
  assert (free ((upto 3 ≫= group_names names) ++ fresh) cfg2) as Hf2' by (eapply free_net; [|exact Hf2]; done).
  change (upto (ngroups cfg2)) with (upto 3).
  match goal with |- context [for_each ?f (upto 3) cfg2] => destruct (for_each_free f
    (group_names names) sized (upto 3) fresh cfg2) as (c3 & -> & Hz3 & Hf3) end; [|done|exact Hf2'|].
  - intros gi c l Hgi%elem_of_upto Hz Hf. destruct (set_group_there gi (new_group gi c) c Hz Hgi) as (c' & -> & Hnet & Hthere).
    { destruct Hz as (Hzc & Hzn & _). unfold group_sized, new_group. cbn. rewrite Hzc, Hzn. done. }
    cbn [rbind]. pose proof Hthere as [(_ & Hzn & _) _]. rewrite Hzn.
    destruct (for_each_free (fun i cfg => StartServer gi i (server_names names gi i).1 (server_names names gi i).2 now r cfg)
      (server_pair names gi) (group_there gi) (upto 3) l c')
      as (c4 & Hrun & [Hz4 _] & Hf4).
    + intros i c5 l5 Hi%elem_of_upto HP Hf5. destruct (Hsv gi i Hgi Hi). by apply StartServer_free.
    + done.
    + eapply free_net; [|exact Hf]. by rewrite Hnet.
    + by exists c4.
  - cbn [rbind]. eexists. split; [done|]. split; [exact Hz3|]. by eapply free_net.
Qed.

Lemma makeClient_three fresh cfg : sized cfg -> len fresh = 3 -> free fresh cfg -> exists p, makeClient fresh cfg = Ret p.
Proof.
  intros (Hc & Hn & _) Hl Hfree. unfold makeClient. rewrite Hc, Hn.
  assert (forall js s, (forall j, j ∈ js -> 0 <= j < 3) -> len s.1 = 3 -> free (js ≫= nth_name fresh) s.2 ->
    exists s', for_each (fun j s =>
      let! name := go_index fresh j in
      let! l := go_set s.1 j name in
      let! e := go_index l j in
      let! cfg := make_enabled e (ctrlername j) s.2 in
      Ret (l, cfg)) js s = Ret s') as Hloop.
  { induction js as [|j js IH]; intros [ns c] Hjs Hs Hf; cbn [for_each]; [by eexists|].
    assert (0 <= j < 3) as Hj by (apply Hjs; by left).
    destruct (go_index_in fresh j) as (e & -> & He); [lia|]. cbn in Hf, Hs. unfold nth_name in Hf at 1. rewrite He in Hf.
    cbn [rbind fst snd]. rewrite go_set_in by lia. cbn [rbind].
    assert (go_index (<[Z.to_nat j := e]> ns) j = Ret e) as ->.
    { apply go_index_ret. split; [lia|]. apply list_lookup_insert_eq. unfold len in Hs. lia. }
    cbn [rbind]. destruct (make_enabled_free e (ctrlername j) _ c Hf) as (rn & -> & Hf'). cbn [rbind].
    apply IH; [intros; apply Hjs; by right|cbn; by rewrite len_insert|exact Hf']. }
  destruct (Hloop (upto 3) (go_make 3 "", cfg)) as ([ns c] & ->).
  - intros j. apply elem_of_upto.
  - done.
  - cbn [snd]. rewrite <- Hl, nth_names. exact Hfree.
  - by eexists.
Qed.

(** C38. The harness works for three servers per group and for no other number:
    if a configuration can be made and a clerk in it, then [n] is 3, and for 3
    both are made, whatever distinct names are drawn.  The slices for the names
    of the controllers are made with the number of servers, and the other way
    round. *)
Theorem harness_needs_three n0 unreliable mx names now r fresh :
  0 <= n0 ->
  (forall cfg p, make_config n0 unreliable mx names now r = Ret cfg -> makeClient fresh cfg = Ret p -> n0 = 3) /\
  (n0 = 3 -> names_ok names fresh ->
   exists cfg p, make_config n0 unreliable mx names now r = Ret cfg /\ makeClient fresh cfg = Ret p).
Proof.
  intros Hn0. split.
  - intros cfg p Hc Hm. destruct (make_config_sizes _ _ _ _ _ _ _ Hn0 Hc) as (Hle & Hn & Hct).
    pose proof (makeClient_sizes fresh cfg p Hm). lia.
  - intros -> Hok. destruct (make_config_three unreliable mx names fresh now r Hok) as (cfg & Hrun & Hz & Hf).
    destruct (makeClient_three fresh cfg Hz (nm_fresh _ _ Hok) Hf) as [p Hp]. by exists cfg, p.
Qed.

(** ** The bound on the logs *)

Lemma check_size_spec mx ps : check_size mx ps = Ret tt <->
  (0 <= mx -> len (raftstate ps) <= 8 * mx) /\ (mx < 0 -> snapshot ps = []).
Proof.
  unfold check_size, RaftStateSize, ReadSnapshot. rewrite copied_id. pose proof (len_nonneg (snapshot ps)).
  rewrite <- len_zero. repeat case_cond; zbool; split; intros; (done || lia || split; intros; lia || naive_solver lia).
Qed.

Lemma for_each_unit {A} (f : A -> unit -> res unit) l :
  for_each f l tt = Ret tt <-> forall x, x ∈ l -> f x tt = Ret tt.
Proof.
  induction l as [|x l IH]; cbn [for_each]; [set_solver|]. split.
  - intros ([] & Hx & Hl)%rbind_ret y [->|Hy]%elem_of_cons; [done|]. by apply IH.
  - intros Hall. rewrite (Hall x) by by left. cbn [rbind]. apply IH. intros y Hy. apply Hall. by right.
Qed.

(** [checklogs] lets a test go on exactly when every disk of every group is
    within bounds: with snapshots, a Raft state of at most eight times
    [maxraftstate] bytes; without, no snapshot at all. *)
Theorem checklogs_bounds cfg :
  checklogs cfg = Ret tt <->
  forall gi i, 0 <= gi < ngroups cfg -> 0 <= i < n cfg -> exists g ps,
    get_group gi cfg = Ret g /\ saved_content g i = Ret (Some ps) /\
    (0 <= maxraftstate cfg -> len (raftstate ps) <= 8 * maxraftstate cfg) /\
    (maxraftstate cfg < 0 -> snapshot ps = []).
Proof.
  unfold checklogs. rewrite for_each_unit. setoid_rewrite elem_of_upto. split.
  - intros Hall gi i Hgi Hi. specialize (Hall gi Hgi). rewrite for_each_unit in Hall.
    specialize (Hall i (proj2 (elem_of_upto _ _) Hi)).
    apply rbind_ret in Hall as (g & Hg & Hall). apply rbind_ret in Hall as ([ps|] & Hs & Hall); [|done].
    exists g, ps. split; [done|]. split; [done|]. by apply check_size_spec.
  - intros Hall gi Hgi. rewrite for_each_unit. intros i Hi%elem_of_upto.
    destruct (Hall gi i Hgi Hi) as (g & ps & Hg & Hs & Hb). rewrite Hg. cbn [rbind]. rewrite Hs. cbn [rbind].
    by apply check_size_spec.
Qed.

End harness.

Module Witness.

#[local] Instance Z_Gob : Gob (gval Z) := countable_Gob (gval Z).

Definition three (prefix : string) : list string := (fun i => prefix +:+ Itoa i) <$> [0; 1; 2].

(** Distinct names for everybody. *)
Definition names : random_names :=
  mkNames (fun i => three ("c" +:+ Itoa i)) (three "m")
    (fun gi i => (three ("s" +:+ Itoa gi +:+ Itoa i), three ("t" +:+ Itoa gi +:+ Itoa i))).

Lemma three_names_ok : names_ok names (three "k").
Proof.
  split; try reflexivity.
  - split; reflexivity.
  - apply (bool_decide_unpack _). vm_compute. exact I.
Qed.

(** With three servers per group both are made. *)
Lemma harness_needs_three_witness : exists (cfg : config (Cmd := Z)) p,
  make_config 3 false 1000 names 0 0 = Ret cfg /\ makeClient (three "k") cfg = Ret p.
Proof.
  exact (proj2 (harness_needs_three 3 false 1000 names 0 0 (three "k") (proj1 (Z.leb_le 0 3) eq_refl)) eq_refl three_names_ok).
Defined.

(** With four servers the configuration cannot be made, with two no clerk. *)
Example four_servers : make_config (Cmd := Z) 4 false 1000 names 0 0 = Panic.
Proof. vm_compute. reflexivity. Qed.

End Witness.
End ShardHarnessSpec.
